(* ===== verification/_CoqProject ===== *)
-Q . S2P
Prelude.v
Path.v
Varint.v
Store.v
Node.v
Unitrie.v
NodeCodec.v
NodeRefine.v
NodeSave.v
Trie.v
BulkPut.v
KeyMapper.v
RawStorage.v
Bulk.v
Chain.v
Sha256.v
MergedMining.v
Rules.v
Uncles.v
ForkDetection.v
Remasc.v
RemascLedger.v
Pmt.v
MerkleTree.v
FlatHeap.v
FlatIndex.v
FlatIndexFacts.v
FlatCheckpoint.v
FlatDb.v
FlatSafety.v
FlatTrie.v
FlatRaces.v
EpochStore.v
EpochMark.v
EpochGc.v
EpochCycle.v
EpochLosses.v
Snapshot.v
SnapshotView.v
SnapshotRun.v
SnapshotChunk.v
SnapshotComplete.v
SnapshotProof.v
SnapshotSound.v
SnapshotHonest.v
SnapClient.v
SnapSlices.v
SnapDownload.v
