(* ===== verification/Prelude.v ===== *)
(** * Rustock: a verification development

    Rustock is a node of the Rootstock (RSK) blockchain.  This library models the parts
    of it that decide consensus and that keep its state: the state trie, the rules that
    accept headers and blocks, the reward distribution, the Bitcoin Merkle proofs the
    bridge accepts, the databases the trie's nodes are stored in, and the download of a whole
    state.  Paths below are relative to src/crates.

    ** The program

    Accounts, code and storage cells live in one binary radix trie (the Unitrie) whose
    root hash every block commits to.  [core] verifies a header (its own rules, its
    parent, its uncles, the work of the Bitcoin block it is merge-mined with) and a
    block; [execution] runs its transactions, the last of which calls REMASC, the
    precompiled contract that pays matured fees; precompiled contracts write their
    storage through an overlay; the bridge checks Bitcoin transactions by partial Merkle
    trees.  The trie saves its nodes, keyed by their hash, into a [TrieStore]; [flatdb] is
    the content-addressed database that stands behind one, and the epoch store collects what no
    recent state needs.  A new node downloads a state from its peers instead of replaying the
    chain.

    ** Conventions

    - A [w]-bit unsigned integer is a [Z] and the arithmetic of the code is written with
      its wrap-around ([u32], [u64], [u256] below); sizes and offsets of memory that no
      machine exceeds are [nat].  Bytes are [list Z].
    - A fallible function returns [result], [option] or the type of the file's outcomes;
      where the code panics or loops forever the model says so ([None], [Panic],
      [Hangs]), and theorems show when that cannot happen.
    - State is passed explicitly.  Interleavings and crashes are relations between states.
    - Code outside src (Keccak, SHA-256 and CRC crates, revm's journal, RLP, the Bitcoin
      header decoder, the operating system) is a class: [Keccak] here, [HeaderHash] and
      [BtcDecode] in Chain, [Sha2] in MergedMining, [Journal] and [Rlp] in Remasc, [Host]
      in FlatHeap, [Crc] in FlatCheckpoint.  Its laws are documented behaviour: a digest
      has 32 bytes, a journal reads back what was stored.  No law says that a hash has no
      collision, which would be false; theorems that need it speak of the finitely many
      strings that are hashed in the situation at hand.
    - A loop that is not structural has fuel.  The fuel is computed from the data (the
      length of a key or message, the capacity of a table, the frontier of a heap) and is
      shown to be enough where a result is claimed: [updates_and_walks_terminate],
      [parse_total], [flatdb_refines_set], [scan_complete].

    ** The trie

    - Path (trie/src/path.rs), Varint (varint.rs, shared_path.rs): bit paths, slices of
      keys and the integer encodings, with their round trips.
    - Store (store.rs): the [TrieStore] interface with its laws, the memory store and the
      overlay store, which discharge them.
    - Node (node.rs): the node, its message codec, lookup, insertion, deletion, merging
      and saving.
    - Unitrie: the abstract radix tree, its map laws and the uniqueness of its canonical
      form.  NodeCodec, NodeRefine, NodeSave: the codec's round trip and totality, the
      simulation of the abstract operations by those of Node, and what saving leaves in
      the store.
    - Trie: a machine that runs puts, deletes, saves and reloads.  It refines a finite
      map, its root hash depends on the contents alone, and the root hash reloads it.
    - BulkPut (bulk_put.rs), Bulk (bulk.rs): insertion of a sorted batch and bottom-up
      construction give the trie of one-by-one insertion.
    - KeyMapper (key_mapper.rs): the keys of accounts, code and storage, their classifier,
      and the disjointness of the key spaces.
    - RawStorage (execution/src/raw_storage.rs): the overlay of a precompile's writes
      refines a stack of snapshots.

    ** The chain

    - Chain (core/src/types, config.rs): headers, blocks, activation heights, errors.
    - Rules (core/src/validation/difficulty.rs, header_rules.rs, block_rules.rs, mod.rs):
      each rule, the verifiers composed of them and the exact condition under which they
      accept; the difficulty's bounds; the miner's and the validator's agreement; what a
      chain of accepted headers satisfies.
    - Sha256, MergedMining (merged_mining.rs): the compression function, resuming from a
      midstate, compressing a coinbase, and exactly which work is accepted.
    - Uncles (uncles.rs): exactly which uncles are accepted, and that no uncle is included
      twice on a chain.
    - ForkDetection (fork_detection.rs): the layout of the data and the rule that checks
      it against the miner's.

    ** Execution

    - Remasc (execution/src/remasc.rs): the reward contract.  RemascLedger: every call
      conserves the coins, its cells stay covered by its balance along a chain, and the
      selection rule is the one stated.
    - Pmt (execution/src/bridge/pmt.rs): parsing and evaluating partial Merkle trees and
      branches.  MerkleTree: against Bitcoin's tree, a proof is sound up to a collision,
      and the honest proof is accepted.

    ** The flat database (flatdb/src)

    - FlatHeap (heap.rs), FlatIndex (index.rs), FlatCheckpoint (checkpoint.rs), FlatDb
      (lib.rs): the append-only heap, the hash table over it, the two-slot checkpoint and
      the database.  FlatIndexFacts: what the table's operations preserve.
    - FlatSafety: used by one thread, the database refines a set of keys and does not
      hang; flushed keys survive a crash at any moment; reads are verified.
    - FlatTrie (storage/src/flat_trie_store.rs): the [TrieStore] over a database.  The trie's
      refinement and the database's crash safety compose: a saved and flushed root is found
      again after a crash, with its contents.
    - FlatRaces: the reservation protocol among concurrent writers is safe and does not
      block; and the interleavings of batches with flushes and puts, and the crash
      histories, after which keys are lost or a lookup does not end.

    ** The epoch store (storage/src)

    - EpochStore (epoch_store.rs, epoch_backend.rs): a store that is a sequence of databases,
      newest first; reads, writes and flushes over them, opening, rotation, and the collection
      cycle, which marks what a state needs, drains it into the newest epoch and sweeps the
      oldest.  A backend is the class [EpochBackend] with its laws.  The walk of a cycle has
      two more levels of fuel than the store has keys.
    - EpochMark: the walk marks exactly what a state needs.  EpochGc, EpochCycle: a machine on
      which blocks, flushes, rotations and the steps of a cycle interleave, one access to the
      store at a time; the states a chain is built on keep their contents through it, however
      a cycle ends, and pinned states are kept.  [collect_pinned] runs on that machine.
    - EpochLosses: the histories after which a live state is lost.

    ** State snapshots (trie/src/snapshot.rs, snapshot_proof.rs, sync/src/snap/client.rs)

    A client downloads a state as runs of the trie's in-order traversal, addressed by byte
    offsets, each with a proof that a client replays from the root hash.

    - Snapshot (snapshot.rs): sizes, [seek], [collect] and the chunks, with the records each
      reads; the strict walk [verify_complete] as a step function of its threads, in any
      order.  [collect] and the walks have fuel, more than the number of entries or of nodes;
      [seek] has the bound of the code, 1024 levels.
    - SnapshotView, SnapshotRun: a trie read from part of its records; the traversal as a
      function of the tree, and its runs over a part that has what they read.
    - SnapshotChunk: a cell is the entries that meet its range; chunks tile the traversal.
      SnapshotComplete: the strict walk succeeds exactly on a whole trie, on any schedule.
    - SnapshotProof (snapshot_proof.rs): making and checking a proof.  SnapshotSound: what is
      accepted is part of the trie, and the run asked for if the witness is complete; a
      subtree left out is not noticed.  SnapshotHonest: the proofs of a server are accepted.
    - SnapClient (client.rs): the download.  SnapSlices: its slices tile the trie whatever
      happens.  SnapDownload: it writes only records of the trie, is the whole trie when it
      completes and passes the final check, and completes with one peer that answers.

    ** What is not modelled

    - Execution of transactions by revm, the rest of the bridge, mining, networking, the rest
      of synchronisation, the RPC server, the alerts and the command line: they drive
      third-party libraries, sockets, threads and files.
    - The RocksDB stores of [storage] and their caches; of the epoch store, opening read-only,
      the parsing of its records, its counters and the choice of a backend.
    - The snapshot format of rskj and the wire messages that carry chunks.
    - The RLP codecs of headers, receipts and accounts, and the trie codec from before the
      Orchid upgrade.
    - Caches that memoise a function ([hash_cache]), statistics, logging and metrics. *)
From Stdlib Require Export ZArith Lia.
From stdpp Require Export base tactics list numbers option gmap.
From stdpp Require Import options.

Local Open Scope Z_scope.

#[global] Arguments Nat.div : simpl never.
#[global] Arguments Nat.modulo : simpl never.
#[global] Arguments Nat.mul : simpl never.
#[global] Arguments Z.div : simpl never.
#[global] Arguments Z.modulo : simpl never.
#[global] Arguments Z.mul : simpl never.
#[global] Arguments Z.add : simpl never.
#[global] Arguments Z.sub : simpl never.
#[global] Arguments Z.pow : simpl never.

(** ** Machine integers *)

(** A [w]-bit unsigned integer is a [Z] in [[0, 2^w)]; the release profile of
    the workspace does not turn overflow checks on, so [+] and [*] wrap. *)
Definition wrap (w : Z) (x : Z) : Z := x mod 2 ^ w.
Definition u8 : Z → Z := wrap 8.
Definition u16 : Z → Z := wrap 16.
Definition u32 : Z → Z := wrap 32.
Definition u64 : Z → Z := wrap 64.
Definition u256 : Z → Z := wrap 256.

Definition sat_sub (x y : Z) : Z := Z.max 0 (x - y).
Definition sat_add (w : Z) (x y : Z) : Z := Z.min (2 ^ w - 1) (x + y).
Definition sat_mul (w : Z) (x y : Z) : Z := Z.min (2 ^ w - 1) (x * y).

(** [x] is a value of the [w]-bit unsigned type. *)
Definition fits (w : Z) (x : Z) : Prop := 0 ≤ x < 2 ^ w.

#[global] Instance fits_dec w x : Decision (fits w x).
Proof. unfold fits. apply _. Defined.

(** ** Bytes *)

(** A byte string is a list of [u8]; the typing discipline of [Vec<u8>] is the
    predicate [bytes_ok]. *)
Abbreviation bytes := (list Z).
Definition bytes_ok (l : bytes) : Prop := Forall (fits 8) l.

#[global] Instance bytes_ok_dec l : Decision (bytes_ok l).
Proof. unfold bytes_ok. apply _. Defined.

(** [x.to_le_bytes()] of an [n]-byte integer and its inverse. *)
Fixpoint le_bytes (n : nat) (x : Z) : bytes :=
  match n with
  | O => []
  | S n' => (x mod 256) :: le_bytes n' (x / 256)
  end.

Fixpoint of_le (l : bytes) : Z :=
  match l with
  | [] => 0
  | b :: l' => b + 256 * of_le l'
  end.

Definition be_bytes (n : nat) (x : Z) : bytes := reverse (le_bytes n x).
Definition of_be (l : bytes) : Z := of_le (reverse l).

(** ** Slices of lists *)

(** The order of byte slices. *)
Fixpoint bytes_cmp (a b : bytes) : comparison :=
  match a, b with
  | [], [] => Eq
  | [], _ => Lt
  | _, [] => Gt
  | x :: a', y :: b' => match x ?= y with Eq => bytes_cmp a' b' | other => other end
  end.

Definition bytes_lt (a b : bytes) : bool := match bytes_cmp a b with Lt => true | _ => false end.

(** [l[a..b]] for [a <= b <= l.len()]. *)
Definition slice {A} (l : list A) (a b : nat) : list A := take (b - a) (drop a l).

(** The longest common prefix of two lists. *)
Fixpoint lcp {A} `{EqDecision A} (k l : list A) : list A :=
  match k, l with
  | x :: k', y :: l' => if decide (x = y) then x :: lcp k' l' else []
  | _, _ => []
  end.

(** ** Results *)

(** Rust's [Result<A, E>]. *)
Inductive result (A E : Type) :=
  | Ok (a : A)
  | Err (e : E).
Arguments Ok {_ _}. Arguments Err {_ _}.

(** The [?] operator. *)
Definition result_bind {A B E} (f : A → result B E) (r : result A E) : result B E :=
  match r with Ok a => f a | Err e => Err e end.

Definition is_ok {A E} (r : result A E) : bool := match r with Ok _ => true | Err _ => false end.

Definition ok_or {A E} (o : option A) (e : E) : result A E :=
  match o with Some a => Ok a | None => Err e end.

Notation "'let?' x := r 'in' k" := (result_bind (λ x, k) r)
  (at level 10, x pattern, r at level 100, k at level 200).

(** ** Automation *)

Create HintDb rustock.
Create Rewrite HintDb len.

Ltac deex :=
  repeat match goal with
  | H : ∃ x, _ |- _ => let y := fresh x in destruct H as [y H]
  | H : _ ∧ _ |- _ => destruct H
  end.

(** Case analysis on the boolean or decidable test the goal is stuck on. *)
Ltac case_test :=
  match goal with
  | |- context [if decide ?P then _ else _] => destruct (decide P)
  | |- context [Z.ltb ?a ?b] => destruct (Z.ltb_spec a b)
  | |- context [Z.leb ?a ?b] => destruct (Z.leb_spec a b)
  | |- context [Z.eqb ?a ?b] => destruct (Z.eqb_spec a b)
  | |- context [Nat.ltb ?a ?b] => destruct (Nat.ltb_spec a b)
  | |- context [Nat.leb ?a ?b] => destruct (Nat.leb_spec a b)
  | |- context [Nat.eqb ?a ?b] => destruct (Nat.eqb_spec a b)
  end.

(** ** Lemmas on machine integers *)

Lemma wrap_small w x : fits w x → wrap w x = x.
Proof. unfold fits, wrap. intros. by apply Z.mod_small. Qed.

Lemma wrap_fits w x : 0 ≤ w → fits w (wrap w x).
Proof. unfold fits, wrap. intros. apply Z.mod_pos_bound. lia. Qed.

Lemma wrap_wrap w x : wrap w (wrap w x) = wrap w x.
Proof. unfold wrap. by rewrite Zmod_mod. Qed.

Lemma fits_weaken w w' x : 0 ≤ w ≤ w' → fits w x → fits w' x.
Proof.
  unfold fits. intros Hw [? ?]. split; [done|].
  eapply Z.lt_le_trans; [done|]. apply Z.pow_le_mono_r; lia.
Qed.

Lemma sat_sub_exact x y : y ≤ x → sat_sub x y = x - y.
Proof. unfold sat_sub. lia. Qed.

(** ** Lemmas on bit operations *)

Lemma testbit_high w x i : fits w x → w ≤ i → Z.testbit x i = false.
Proof.
  intros [? ?] Hi. destruct (decide (0 ≤ w)) as [Hw|Hw].
  - rewrite <- (Z.mod_small x (2 ^ w)) by lia. apply Z.mod_pow2_bits_high. lia.
  - rewrite Z.pow_neg_r in * by lia. lia.
Qed.

Lemma lor_shiftl a n b : 0 ≤ n → fits n b → Z.lor (Z.shiftl a n) b = a * 2 ^ n + b.
Proof.
  intros Hn Hb. assert (Z.land (Z.shiftl a n) b = 0) as H0.
  { apply Z.bits_inj'. intros i Hi. rewrite Z.land_spec, Z.bits_0.
    destruct (decide (i < n)) as [Hlt|Hge].
    - by rewrite Z.shiftl_spec_low.
    - rewrite (testbit_high n b i), andb_false_r by (done || lia). done. }
  rewrite <- Z.lxor_lor, <- Z.add_nocarry_lxor by done. by rewrite Z.shiftl_mul_pow2 by lia.
Qed.

Lemma u24_roundtrip x : fits 24 x →
  Z.lor (Z.lor (Z.shiftl (u8 (Z.shiftr x 16)) 16) (Z.shiftl (u8 (Z.shiftr x 8)) 8)) (u8 x) = x.
Proof.
  intros [H0 H1]. unfold u8, wrap. rewrite !Z.shiftr_div_pow2 by lia.
  change (2 ^ 24) with 16777216 in *. change (2 ^ 16) with 65536. change (2 ^ 8) with 256.
  rewrite (Z.mod_small (x / 65536)) by (split; [apply Z.div_pos; lia|apply Z.div_lt_upper_bound; lia]).
  rewrite (lor_shiftl _ 16 (Z.shiftl _ 8)).
  2: lia. 2:{ rewrite Z.shiftl_mul_pow2 by lia. pose proof (Z.mod_pos_bound (x / 256) 256).
     unfold fits. lia. }
  assert (∀ y, y * 2 ^ 16 + Z.shiftl ((x / 256) mod 256) 8 = Z.shiftl (y * 256 + (x / 256) mod 256) 8) as ->.
  { intros y. rewrite !Z.shiftl_mul_pow2 by lia. lia. }
  rewrite lor_shiftl by (try apply wrap_fits; lia).
  change (2 ^ 8) with 256.
  pose proof (Z.div_mod x 256). pose proof (Z.div_mod (x / 256) 256).
  rewrite Z.div_div in * by lia. change (256 * 256) with 65536 in *. lia.
Qed.

(** ** Lemmas on byte strings *)

Lemma length_le_bytes n x : length (le_bytes n x) = n.
Proof. revert x. induction n as [|n IH]; intros x; simpl; [done|by rewrite IH]. Qed.

Lemma le_bytes_ok n x : bytes_ok (le_bytes n x).
Proof.
  revert x. induction n as [|n IH]; intros x; simpl; constructor; [|apply IH].
  unfold fits. change (2 ^ 8) with 256. apply Z.mod_pos_bound. lia.
Qed.

Lemma of_le_le_bytes n x : fits (8 * Z.of_nat n) x → of_le (le_bytes n x) = x.
Proof.
  revert x. induction n as [|n IH]; intros x Hx.
  - unfold fits in Hx. simpl in *. lia.
  - cbn [le_bytes of_le]. rewrite IH.
    + pose proof (Z.div_mod x 256). lia.
    + unfold fits in *. destruct Hx as [H0 H1]. split; [apply Z.div_pos; lia|].
      apply Z.div_lt_upper_bound; [lia|]. change 256 with (2 ^ 8).
      rewrite <- Z.pow_add_r by lia.
      replace (8 + 8 * Z.of_nat n) with (8 * Z.of_nat (S n)) by lia. done.
Qed.

Lemma of_le_fits l : bytes_ok l → fits (8 * Z.of_nat (length l)) (of_le l).
Proof.
  induction 1 as [|b l Hb _ IH]; [done|]. cbn [of_le length].
  unfold fits in *. change (2 ^ 8) with 256 in Hb.
  replace (8 * Z.of_nat (S (length l))) with (8 + 8 * Z.of_nat (length l)) by lia.
  rewrite Z.pow_add_r by lia. change (2 ^ 8) with 256. nia.
Qed.

Lemma bytes_ok_app l k : bytes_ok (l ++ k) ↔ bytes_ok l ∧ bytes_ok k.
Proof. apply Forall_app. Qed.

Lemma length_be_bytes n x : length (be_bytes n x) = n.
Proof. unfold be_bytes. by rewrite length_reverse, length_le_bytes. Qed.

Lemma be_bytes_ok n x : bytes_ok (be_bytes n x).
Proof. apply Forall_reverse, le_bytes_ok. Qed.

Lemma of_be_be_bytes n x : fits (8 * Z.of_nat n) x → of_be (be_bytes n x) = x.
Proof. unfold of_be, be_bytes. rewrite reverse_involutive. apply of_le_le_bytes. Qed.

(** ** Keccak-256 *)

(** The hash function is the [sha3] crate's; what the code relies on is that a
    digest has 32 bytes ([B256::from_slice] panics otherwise).  Collision
    freedom is never assumed of the function, only, where a theorem needs it,
    of the messages at hand. *)
Class Keccak := {
  keccak : bytes → bytes;
  length_keccak x : length (keccak x) = 32%nat;
  keccak_ok x : bytes_ok (keccak x);
}.

(** A polynomial hash with 32-byte digests: an instance for evaluating the
    model on concrete inputs.  It does not collide on messages of fewer than
    30 bytes. *)
Definition poly_hash (x : bytes) : bytes :=
  be_bytes 32 (foldl (λ acc b, (acc * 257 + b + 1) mod 2 ^ 256) 0 x).

#[global] Arguments poly_hash : simpl never.

Program Definition poly_keccak : Keccak := {| keccak := poly_hash |}.
Next Obligation. intros. apply length_be_bytes. Qed.
Next Obligation. intros. apply be_bytes_ok. Qed.

#[global] Opaque poly_hash.

(** ** Lemmas on slices and common prefixes *)

Lemma length_slice {A} (l : list A) a b :
  (a ≤ b ≤ length l)%nat → length (slice l a b) = (b - a)%nat.
Proof. intros. unfold slice. rewrite length_take, length_drop. lia. Qed.

Lemma slice_full {A} (l : list A) : slice l 0 (length l) = l.
Proof. unfold slice. rewrite drop_0, Nat.sub_0_r. by apply take_ge. Qed.

Lemma slice_to_end {A} (l : list A) a : slice l a (length l) = drop a l.
Proof. unfold slice. apply take_ge. rewrite length_drop. lia. Qed.

Lemma slice_from_start {A} (l : list A) b : slice l 0 b = take b l.
Proof. unfold slice. by rewrite drop_0, Nat.sub_0_r. Qed.

Section lcp.
Context {A} `{EqDecision A}.
Implicit Types k l : list A.

Lemma lcp_prefix_l k l : lcp k l `prefix_of` k.
Proof.
  revert l. induction k as [|x k IH]; intros [|y l]; simpl; try apply prefix_nil.
  case_decide; subst; [by apply prefix_cons|apply prefix_nil].
Qed.

Lemma lcp_comm k l : lcp k l = lcp l k.
Proof.
  revert l. induction k as [|x k IH]; intros [|y l]; simpl; try done.
  do 2 case_decide; subst; congruence.
Qed.

Lemma lcp_prefix_r k l : lcp k l `prefix_of` l.
Proof. rewrite lcp_comm. apply lcp_prefix_l. Qed.

Lemma lcp_nil_r k : lcp k [] = [].
Proof. by destruct k. Qed.

Lemma lcp_self k : lcp k k = k.
Proof. induction k as [|x k IH]; simpl; [done|]. by rewrite decide_True, IH. Qed.

Lemma lcp_length_l k l : (length (lcp k l) ≤ length k)%nat.
Proof. apply prefix_length, lcp_prefix_l. Qed.

Lemma lcp_length_r k l : (length (lcp k l) ≤ length l)%nat.
Proof. apply prefix_length, lcp_prefix_r. Qed.

Lemma lcp_full_r k l : (length l ≤ length (lcp k l))%nat ↔ l `prefix_of` k.
Proof.
  revert l. induction k as [|x k IH]; intros [|y l]; simpl.
  - split; [intros; apply prefix_nil|lia].
  - split; [lia|]. intros Hp%prefix_nil_inv. done.
  - split; [intros; apply prefix_nil|lia].
  - case_decide as Hd; simpl.
    + subst y. rewrite <- Nat.succ_le_mono, IH.
      split; [by apply prefix_cons|by intros ?%prefix_cons_inv_2].
    + split; [lia|]. intros Hp%prefix_cons_inv_1. congruence.
Qed.

Lemma lcp_app_r k l : lcp (l ++ k) l = l.
Proof. induction l as [|y l IH]; simpl; [by destruct k|]. by rewrite decide_True, IH. Qed.

(** Two lists that go on after their common prefix differ there. *)
Lemma lcp_diverge k l x y :
  k !! length (lcp k l) = Some x → l !! length (lcp k l) = Some y → x ≠ y.
Proof.
  revert l. induction k as [|a k IH]; intros [|b l]; simpl; try done.
  case_decide as Hd; simpl; [apply IH|]. congruence.
Qed.

Lemma lcp_take_full k l i :
  take i k = take i l → (i = Nat.min (length k) (length l))%nat → lcp k l = take i k.
Proof.
  revert l i. induction k as [|x k IH]; intros [|y l] i Ht Hi; simpl in *; subst i; try done.
  simpl in *. simplify_eq. rewrite decide_True by done. f_equal. by apply IH.
Qed.

Lemma lcp_take_diverge k l i :
  take i k = take i l → k !! i ≠ l !! i → lcp k l = take i k.
Proof.
  revert l i. induction k as [|x k IH]; intros [|y l] [|i] Ht Hne; simpl in *; try done.
  - case_decide; congruence.
  - simplify_eq. rewrite decide_True by done. f_equal. by apply IH.
Qed.
End lcp.

#[export] Hint Rewrite @length_le_bytes @length_be_bytes @length_app @length_take
  @length_drop @length_cons @length_nil @length_reverse : len.
