(* ===== verification/Path.v ===== *)
(** * crates/trie/src/path.rs: bit paths and key slices

    [encode]/[decode] pack an expanded path (one entry per bit) into bytes,
    most significant bit first; [TrieKeySlice] is the window type the trie
    walks its keys with.  A bit of the expanded form, a [u8] that is 0 or 1 in
    the code, is a [bool] here.  Indexing that the code does with [v[i]] is an
    [option]: [None] is the panic.

    The section on the view shows that every operation of a slice is the list
    operation on [expand]; the node files therefore take a key to be its
    expanded bits. *)
From S2P Require Import Prelude.
From stdpp Require Import options.

Module Path.
Local Open Scope nat_scope.

(** ** Packing *)

(** [bit_count.div_ceil(8)] *)
Definition encoded_len (bit_count : nat) : nat := (bit_count + 7) / 8.

(** One iteration of the loop of [encode]: [out[k / 8] |= 0x80 >> (k % 8)]. *)
Definition encode_step (out : bytes) (k : nat) (bit : bool) : bytes :=
  if bit
  then alter (λ b, Z.lor b (Z.shiftr 128 (Z.of_nat (k mod 8)))) (k / 8) out
  else out.

Fixpoint encode_loop (out : bytes) (k : nat) (path : list bool) : bytes :=
  match path with
  | [] => out
  | bit :: path' => encode_loop (encode_step out k bit) (S k) path'
  end.

Definition encode (path : list bool) : bytes :=
  encode_loop (replicate (encoded_len (length path)) 0%Z) 0 path.

(** [(b >> (7 - (k % 8))) & 1 != 0] *)
Definition bit_of_byte (b : Z) (k : nat) : bool :=
  negb (Z.eqb (Z.land (Z.shiftr b (7 - Z.of_nat (k mod 8))) 1) 0).

Definition decode_bit (encoded : bytes) (k : nat) : option bool :=
  b ← encoded !! (k / 8); Some (bit_of_byte b k).

Definition decode (encoded : bytes) (bit_length : nat) : option (list bool) :=
  mapM (decode_bit encoded) (seq 0 bit_length).

(** ** Key slices *)

Record TrieKeySlice := mkTrieKeySlice {
  expanded : list bool;
  offset : nat;
  limit : nat;
}.

(** The two [debug_assert!]s of [TrieKeySlice::new]. *)
Definition slice_valid (k : TrieKeySlice) : Prop :=
  offset k ≤ limit k ∧ limit k ≤ length (expanded k).

Definition new (e : list bool) (o l : nat) : TrieKeySlice := mkTrieKeySlice e o l.

Definition from_encoded (encoded : bytes) (bit_length : nat) : option TrieKeySlice :=
  e ← decode encoded bit_length; Some (mkTrieKeySlice e 0 (length e)).

Definition from_key (key : bytes) : option TrieKeySlice :=
  from_encoded key (length key * 8).

Definition empty_slice : TrieKeySlice := mkTrieKeySlice [] 0 0.

Definition slice_length (k : TrieKeySlice) : nat := limit k - offset k.

Definition slice_is_empty (k : TrieKeySlice) : bool := slice_length k =? 0.

Definition get (k : TrieKeySlice) (i : nat) : option bool := expanded k !! (offset k + i).

(** [&self.expanded[self.offset..self.limit]] *)
Definition expand (k : TrieKeySlice) : list bool := slice (expanded k) (offset k) (limit k).

Definition slice_encode (k : TrieKeySlice) : bytes := encode (expand k).

Definition subslice (k : TrieKeySlice) (from to : nat) : TrieKeySlice :=
  mkTrieKeySlice (expanded k) (offset k + from) (offset k + to).

(** The loop [for i in 0..max_len] of [common_path], with [n] iterations left. *)
Fixpoint common_path_loop (k o : TrieKeySlice) (n i : nat) : TrieKeySlice :=
  match n with
  | O => subslice k 0 i
  | S n' =>
      if decide (get k i = get o i) then common_path_loop k o n' (S i) else subslice k 0 i
  end.

Definition common_path (k o : TrieKeySlice) : TrieKeySlice :=
  common_path_loop k o (Nat.min (slice_length k) (slice_length o)) 0.

Definition rebuild_shared_path (k : TrieKeySlice) (implicit_bit : bool)
    (child : TrieKeySlice) : TrieKeySlice :=
  mkTrieKeySlice (expand k ++ [implicit_bit] ++ expand child) 0
    (slice_length k + 1 + slice_length child).

Definition left_pad (k : TrieKeySlice) (n : nat) : TrieKeySlice :=
  mkTrieKeySlice (replicate n false ++ expand k) 0 (n + slice_length k).

(** [PartialEq] compares the expanded windows. *)
Definition slice_eq (k o : TrieKeySlice) : bool := bool_decide (expand k = expand o).

(** The key of a byte string: [TrieKeySlice::from_key(key).expand()]. *)
Definition key_bits (key : bytes) : list bool :=
  (λ k, from_option (λ b, bit_of_byte b k) false (key !! (k / 8))) <$> seq 0 (length key * 8).

(** ** Packing lemmas *)

Lemma encoded_len_spec n : n ≤ encoded_len n * 8 ∧ encoded_len n * 8 < n + 8.
Proof.
  unfold encoded_len. pose proof (Nat.div_mod (n + 7) 8).
  pose proof (Nat.mod_upper_bound (n + 7) 8). lia.
Qed.

Lemma encoded_len_mul n : encoded_len (n * 8) = n.
Proof. pose proof (encoded_len_spec (n * 8)). lia. Qed.

Lemma encoded_len_zero n : encoded_len n = 0 ↔ n = 0.
Proof. pose proof (encoded_len_spec n). lia. Qed.

Lemma bit_of_byte_testbit b k : bit_of_byte b k = Z.testbit b (7 - Z.of_nat (k mod 8)).
Proof.
  unfold bit_of_byte. pose proof (Nat.mod_upper_bound k 8).
  rewrite Z.land_comm.
  replace (Z.land 1 (Z.shiftr b (7 - Z.of_nat (k mod 8))))
    with (Z.b2z (Z.testbit b (7 - Z.of_nat (k mod 8)))).
  { by destruct (Z.testbit b _). }
  change 1%Z with (Z.ones 1). rewrite Z.land_comm, Z.land_ones by lia.
  rewrite Z.testbit_spec' by lia. by rewrite Z.shiftr_div_pow2 by lia.
Qed.

Lemma testbit_mask k i : i < 8 →
  Z.testbit (Z.shiftr 128 (Z.of_nat (k mod 8))) (7 - Z.of_nat i) = bool_decide (i = k mod 8).
Proof.
  intros Hi. pose proof (Nat.mod_upper_bound k 8) as Hk. revert Hk.
  generalize (k mod 8) as m. intros m Hm.
  assert (m < 8) as Hm' by lia. clear Hm.
  do 8 (destruct m as [|m]; [do 8 (destruct i as [|i]; [done|]); lia|]). lia.
Qed.

Lemma length_encode_loop out k path : length (encode_loop out k path) = length out.
Proof.
  revert out k. induction path as [|b path IH]; intros out k; simpl; [done|].
  rewrite IH. unfold encode_step. destruct b; [by rewrite length_alter|done].
Qed.

Lemma length_encode path : length (encode path) = encoded_len (length path).
Proof. unfold encode. by rewrite length_encode_loop, length_replicate. Qed.

Lemma encode_loop_testbit path : ∀ out k j i b0,
  i < 8 → out !! j = Some b0 →
  ∃ b, encode_loop out k path !! j = Some b ∧
    Z.testbit b (7 - Z.of_nat i) =
      Z.testbit b0 (7 - Z.of_nat i)
      || (bool_decide (k ≤ 8 * j + i) && nth (8 * j + i - k) path false).
Proof.
  induction path as [|x path IH]; intros out k j i b0 Hi Hj; cbn [encode_loop].
  { exists b0. split; [done|].
    assert (nth (8 * j + i - k) ([] : list bool) false = false) as -> by by destruct (8 * j + i - k).
    by rewrite andb_false_r, orb_false_r. }
  pose proof (Nat.div_mod k 8) as Hk. pose proof (Nat.mod_upper_bound k 8) as Hk8.
  set (b1 := if bool_decide (x = true ∧ j = k / 8)
             then Z.lor b0 (Z.shiftr 128 (Z.of_nat (k mod 8))) else b0).
  destruct (IH (encode_step out k x) (S k) j i b1) as (b & Hb & Ht); [done| |].
  { unfold encode_step, b1. destruct x; [|by rewrite bool_decide_eq_false_2 by by intros [??]].
    destruct (decide (j = k / 8)) as [->|Hne].
    - rewrite bool_decide_eq_true_2, list_lookup_alter_eq, Hj by done. done.
    - rewrite bool_decide_eq_false_2, list_lookup_alter_ne by intuition congruence. done. }
  exists b. split; [done|]. rewrite Ht. clear Ht Hb.
  assert (Z.testbit b1 (7 - Z.of_nat i) =
    Z.testbit b0 (7 - Z.of_nat i) || (bool_decide (k = 8 * j + i) && x)) as ->.
  { unfold b1. destruct x.
    - case_bool_decide as Hc.
      + destruct Hc as [_ ->]. rewrite Z.lor_spec, testbit_mask by done. f_equal.
        rewrite andb_true_r. apply bool_decide_ext. lia.
      + rewrite (bool_decide_eq_false_2 (k = _)), andb_false_l, orb_false_r; [done|]. intros Heq. apply Hc.
        split; [done|]. lia.
    - rewrite bool_decide_eq_false_2, andb_false_r, orb_false_r by by intros [??]. done. }
  rewrite <- orb_assoc. f_equal.
  destruct (decide (k = 8 * j + i)) as [Heq|Hne].
  - rewrite (bool_decide_eq_true_2 (k = _)), (bool_decide_eq_true_2 (k ≤ _)) by lia.
    rewrite bool_decide_eq_false_2 by lia. replace (8 * j + i - k) with 0 by lia.
    by destruct x.
  - rewrite (bool_decide_eq_false_2 (k = _)), andb_false_l, orb_false_l by done.
    destruct (decide (S k ≤ 8 * j + i)) as [Hle|Hle].
    + rewrite !bool_decide_eq_true_2, !andb_true_l by lia.
      replace (8 * j + i - k) with (S (8 * j + i - S k)) by lia. done.
    + rewrite !bool_decide_eq_false_2 by lia. done.
Qed.

Lemma encode_bit path j i : i < 8 → j < encoded_len (length path) →
  ∃ b, encode path !! j = Some b ∧ Z.testbit b (7 - Z.of_nat i) = nth (8 * j + i) path false.
Proof.
  intros Hi Hj. unfold encode.
  destruct (encode_loop_testbit path (replicate (encoded_len (length path)) 0%Z) 0 j i 0%Z)
    as (b & Hb & Ht); [done|by apply lookup_replicate|].
  exists b. split; [done|]. rewrite Ht, Z.testbit_0_l, bool_decide_eq_true_2 by lia.
  simpl. by rewrite Nat.sub_0_r.
Qed.

Lemma decode_bit_encode path k : k < length path →
  decode_bit (encode path) k = Some (nth k path false).
Proof.
  intros Hk. pose proof (Nat.div_mod k 8) as Hd. pose proof (Nat.mod_upper_bound k 8) as Hm.
  pose proof (encoded_len_spec (length path)) as Hl.
  destruct (encode_bit path (k / 8) (k mod 8)) as (b & Hb & Ht); [lia|lia|].
  unfold decode_bit. rewrite Hb. simpl. rewrite bit_of_byte_testbit, Ht. do 2 f_equal. lia.
Qed.

(** Decoding looks only at the first [encoded_len] bytes. *)
Lemma decode_bit_app encoded rest k : k / 8 < length encoded →
  decode_bit (encoded ++ rest) k = decode_bit encoded k.
Proof. intros. unfold decode_bit. by rewrite lookup_app_l. Qed.

Lemma mapM_decode_nth encoded path :
  (∀ k, k < length path → decode_bit encoded k = Some (nth k path false)) →
  decode encoded (length path) = Some path.
Proof.
  intros H. unfold decode. apply mapM_Some_2.
  apply Forall2_lookup. intros i.
  destruct (decide (i < length path)) as [Hi|Hi].
  - rewrite lookup_seq_lt by done. simpl.
    destruct (lookup_lt_is_Some_2 path i Hi) as [x Hx]. rewrite Hx. constructor.
    rewrite H by done. by rewrite (nth_lookup_Some path i false x).
  - rewrite lookup_seq_ge by lia. rewrite lookup_ge_None_2 by lia. constructor.
Qed.

Lemma decode_encode_app path rest : decode (encode path ++ rest) (length path) = Some path.
Proof.
  apply mapM_decode_nth. intros k Hk. rewrite decode_bit_app; [by apply decode_bit_encode|].
  rewrite length_encode. pose proof (encoded_len_spec (length path)).
  pose proof (Nat.div_mod k 8). lia.
Qed.

Lemma decode_encode_path path : decode (encode path) (length path) = Some path.
Proof. rewrite <- (app_nil_r (encode path)). apply decode_encode_app. Qed.

Lemma encode_loop_bytes_ok out k path : bytes_ok out → bytes_ok (encode_loop out k path).
Proof.
  revert out k. induction path as [|b path IH]; intros out k Hout; simpl; [done|].
  apply IH. unfold encode_step. destruct b; [|done].
  apply Forall_alter; [done|]. intros x _ Hx.
  pose proof (Nat.mod_upper_bound k 8) as Hm. unfold fits in *. split.
  - apply Z.lor_nonneg. split; [lia|]. by apply Z.shiftr_nonneg.
  - destruct (decide (Z.lor x (Z.shiftr 128 (Z.of_nat (k mod 8))) = 0%Z)) as [->|Hne]; [lia|].
    apply Z.log2_lt_pow2; [|].
    + assert (0 ≤ Z.lor x (Z.shiftr 128 (Z.of_nat (k mod 8))))%Z; [|lia].
      apply Z.lor_nonneg. split; [lia|]. by apply Z.shiftr_nonneg.
    + rewrite Z.log2_lor by (try apply Z.shiftr_nonneg; lia).
      apply Z.max_lub_lt.
      * destruct (decide (x = 0%Z)) as [->|]; [done|]. apply Z.log2_lt_pow2; lia.
      * apply Z.le_lt_trans with (Z.log2 128); [|done]. apply Z.log2_le_mono.
        rewrite Z.shiftr_div_pow2 by lia. apply Z.div_le_upper_bound; [lia|].
        assert (1 ≤ 2 ^ Z.of_nat (k mod 8))%Z; [|lia].
        pose proof (Z.pow_pos_nonneg 2 (Z.of_nat (k mod 8))). lia.
Qed.

Lemma encode_bytes_ok path : bytes_ok (encode path).
Proof. apply encode_loop_bytes_ok. apply Forall_replicate. unfold fits. lia. Qed.

Lemma from_encoded_total encoded n : encoded_len n ≤ length encoded →
  ∃ e, decode encoded n = Some e ∧ length e = n.
Proof.
  intros Hlen.
  assert (∃ e, decode encoded n = Some e) as [e He].
  { apply mapM_is_Some_2, Forall_forall. intros k Hk%elem_of_seq.
    change (is_Some (decode_bit encoded k)). unfold decode_bit.
    destruct (lookup_lt_is_Some_2 encoded (k / 8)) as [b ->]; [|by eexists].
    pose proof (encoded_len_spec n). pose proof (Nat.div_mod k 8). lia. }
  exists e. split; [done|]. apply length_mapM in He. by rewrite length_seq in He.
Qed.

Lemma length_key_bits key : length (key_bits key) = length key * 8.
Proof. unfold key_bits. by rewrite length_fmap, length_seq. Qed.

Lemma key_bits_app k l : key_bits (k ++ l) = key_bits k ++ key_bits l.
Proof.
  unfold key_bits. rewrite length_app, Nat.mul_add_distr_r, seq_app, fmap_app. f_equal.
  - apply list_fmap_ext. intros i x Hx%lookup_seq. destruct Hx as [-> Hi].
    rewrite lookup_app_l; [done|]. simpl. apply Nat.Div0.div_lt_upper_bound. lia.
  - replace (0 + length k * 8) with (length k * 8 + 0) by lia.
    rewrite <- fmap_add_seq, <- list_fmap_compose. apply list_fmap_ext. intros i x _. simpl.
    replace ((length k * 8 + x) / 8) with (length k + x / 8)
      by (rewrite Nat.add_comm, (Nat.add_comm (_ * 8)); symmetry; apply Nat.div_add; lia).
    rewrite lookup_app_r by lia. replace (length k + x / 8 - length k) with (x / 8) by lia.
    destruct (l !! (x / 8)); simpl; [|done]. unfold bit_of_byte.
    rewrite (Nat.add_comm (_ * 8)), Nat.Div0.mod_add. done.
Qed.

Lemma decode_key_bits key : decode key (length key * 8) = Some (key_bits key).
Proof.
  rewrite <- (length_key_bits key). apply mapM_decode_nth. intros k Hk.
  rewrite length_key_bits in Hk.
  assert (k / 8 < length key) as Hd by (pose proof (Nat.div_mod k 8); lia).
  destruct (lookup_lt_is_Some_2 key (k / 8) Hd) as [b Hb].
  unfold decode_bit. rewrite Hb. simpl. f_equal. symmetry. apply nth_lookup_Some.
  unfold key_bits. rewrite list_lookup_fmap, lookup_seq_lt by done. simpl. by rewrite Hb.
Qed.

(** Two bytes whose eight bits agree are equal. *)
Lemma byte_ext a b : fits 8 a → fits 8 b →
  (∀ i, i < 8 → Z.testbit a (7 - Z.of_nat i) = Z.testbit b (7 - Z.of_nat i)) → a = b.
Proof.
  intros Ha Hb H. apply Z.bits_inj'. intros n Hn.
  destruct (decide (n < 8)%Z) as [Hlt|Hge].
  - specialize (H (Z.to_nat (7 - n))). replace (7 - Z.of_nat (Z.to_nat (7 - n)))%Z with n in H by lia.
    apply H. lia.
  - assert (∀ x, fits 8 x → Z.testbit x n = false) as Hhigh; [|by rewrite !Hhigh].
    intros x [? ?]. rewrite <- (Z.mod_small x (2 ^ 8)) by lia. apply Z.mod_pow2_bits_high. lia.
Qed.

Lemma encode_key_bits key : bytes_ok key → encode (key_bits key) = key.
Proof.
  intros Hok. apply list_eq_same_length with (length key); [done| |].
  { by rewrite length_encode, length_key_bits, encoded_len_mul. }
  intros j x y Hj Hx Hy.
  apply byte_ext.
  - eapply Forall_lookup_1 in Hx; [done|]. apply encode_bytes_ok.
  - eapply Forall_lookup_1 in Hy; done.
  - intros i Hi. destruct (encode_bit (key_bits key) j i) as (b & Hb & Ht); [done| |].
    { by rewrite length_key_bits, encoded_len_mul. }
    simplify_eq. rewrite Ht. apply nth_lookup_Some. unfold key_bits.
    rewrite list_lookup_fmap, lookup_seq_lt by lia. simpl.
    replace ((8 * j + i) / 8) with j by (apply Nat.div_unique with i; lia).
    rewrite Hy. simpl. f_equal. rewrite bit_of_byte_testbit. do 2 f_equal. f_equal.
    symmetry. apply Nat.mod_unique with j; lia.
Qed.

(** ** The list view of a slice *)

Section view.
Implicit Types k o : TrieKeySlice.

Lemma length_expand k : slice_valid k → length (expand k) = slice_length k.
Proof. intros [? ?]. unfold expand, slice_length. by apply length_slice. Qed.

Lemma get_expand k i : slice_valid k → i < slice_length k → get k i = expand k !! i.
Proof.
  intros [? ?] Hi. unfold get, expand, slice_length, slice in *.
  by rewrite lookup_take_lt, lookup_drop by lia.
Qed.

Lemma subslice_valid k a b :
  slice_valid k → a ≤ b ≤ slice_length k → slice_valid (subslice k a b).
Proof. unfold slice_valid, subslice, slice_length. simpl. lia. Qed.

Lemma expand_subslice k a b : slice_valid k → a ≤ b ≤ slice_length k →
  expand (subslice k a b) = slice (expand k) a b.
Proof.
  intros [? ?] ?. unfold expand, subslice, slice, slice_length in *. simpl.
  rewrite skipn_firstn_comm, drop_drop, take_take. f_equal; lia.
Qed.

(** Invariant of the loop: the first [i] bits agree. *)
Lemma common_path_loop_spec k o n i :
  slice_valid k → slice_valid o →
  n + i = Nat.min (slice_length k) (slice_length o) →
  take i (expand k) = take i (expand o) →
  expand (common_path_loop k o n i) = lcp (expand k) (expand o)
  ∧ slice_valid (common_path_loop k o n i).
Proof.
  intros Hk Ho. revert i. induction n as [|n IH]; intros i Hn Htake; cbn [common_path_loop].
  - split; [|apply subslice_valid; [done|lia]].
    rewrite expand_subslice by (done || lia). rewrite slice_from_start.
    by rewrite (lcp_take_full _ _ i) by (rewrite ?length_expand; done || lia).
  - case_decide as Hd.
    + apply IH; [lia|]. rewrite !get_expand in Hd by (done || lia).
      destruct (lookup_lt_is_Some_2 (expand k) i) as [x Hx]; [rewrite length_expand by done; lia|].
      rewrite (take_S_r _ _ x), (take_S_r (expand o) _ x), Htake by congruence. done.
    + split; [|apply subslice_valid; [done|lia]].
      rewrite expand_subslice by (done || lia). rewrite slice_from_start.
      rewrite !get_expand in Hd by (done || lia).
      by rewrite (lcp_take_diverge _ _ i) by done.
Qed.

Lemma expand_common_path k o : slice_valid k → slice_valid o →
  expand (common_path k o) = lcp (expand k) (expand o) ∧ slice_valid (common_path k o).
Proof. intros. apply common_path_loop_spec; [done..|lia|by rewrite !take_0]. Qed.

Lemma expand_rebuild k b o : slice_valid k → slice_valid o →
  expand (rebuild_shared_path k b o) = expand k ++ b :: expand o
  ∧ slice_valid (rebuild_shared_path k b o).
Proof.
  intros Hk Ho. unfold slice_valid, expand at 1, rebuild_shared_path. simpl.
  rewrite <- !length_expand by done.
  replace (length (expand k) + 1 + length (expand o))
    with (length (expand k ++ b :: expand o)) by (autorewrite with len; simpl; lia).
  rewrite slice_full. split; [done|lia].
Qed.

Lemma expand_left_pad k n : slice_valid k →
  expand (left_pad k n) = replicate n false ++ expand k ∧ slice_valid (left_pad k n).
Proof.
  intros Hk. unfold slice_valid, expand at 1, left_pad. simpl. rewrite <- !length_expand by done.
  replace (n + length (expand k)) with (length (replicate n false ++ expand k))
    by (rewrite length_app, length_replicate; lia).
  rewrite slice_full. split; [done|lia].
Qed.

Lemma from_encoded_spec encoded n e : decode encoded n = Some e →
  ∃ k, from_encoded encoded n = Some k ∧ expand k = e ∧ slice_valid k.
Proof.
  intros He. unfold from_encoded. rewrite He. simpl. eexists. split; [done|].
  unfold expand, slice_valid. simpl. rewrite slice_full. split; [done|lia].
Qed.
End view.

(** ** Properties *)

(** Packing a path and unpacking as many bits gives the path back, whatever
    bytes follow it, and the packed form has [encoded_len] bytes. *)
Theorem decode_encode path rest :
  decode (encode path ++ rest) (length path) = Some path
  ∧ length (encode path) = encoded_len (length path)
  ∧ bytes_ok (encode path).
Proof. auto using decode_encode_app, length_encode, encode_bytes_ok. Qed.

(** Every operation of a valid [TrieKeySlice] is the corresponding list
    operation on its expanded window, and yields a valid slice. *)
Theorem slice_view k o (Hk : slice_valid k) (Ho : slice_valid o) :
  slice_length k = length (expand k)
  ∧ (∀ i, i < slice_length k → get k i = expand k !! i)
  ∧ (∀ a b, a ≤ b ≤ slice_length k →
       expand (subslice k a b) = slice (expand k) a b ∧ slice_valid (subslice k a b))
  ∧ (expand (common_path k o) = lcp (expand k) (expand o) ∧ slice_valid (common_path k o))
  ∧ (∀ b, expand (rebuild_shared_path k b o) = expand k ++ b :: expand o
          ∧ slice_valid (rebuild_shared_path k b o))
  ∧ (∀ n, expand (left_pad k n) = replicate n false ++ expand k ∧ slice_valid (left_pad k n))
  ∧ (slice_eq k o = true ↔ expand k = expand o).
Proof.
  split_and!.
  - by rewrite length_expand.
  - intros. by apply get_expand.
  - intros. by split; [apply expand_subslice|apply subslice_valid].
  - by apply expand_common_path.
  - by apply expand_common_path.
  - intros. by apply expand_rebuild.
  - intros. by apply expand_left_pad.
  - unfold slice_eq. by rewrite bool_decide_eq_true.
Qed.

Definition slice_view_k : TrieKeySlice := mkTrieKeySlice [true; false; true; true; false] 1 5.
Definition slice_view_o : TrieKeySlice := mkTrieKeySlice [false; true; false] 0 3.

Lemma slice_view_witness :
  slice_valid slice_view_k ∧ slice_valid slice_view_o
  ∧ expand (common_path slice_view_k slice_view_o) = [false; true].
Proof.
  assert (slice_valid slice_view_k) as Hk by (unfold slice_valid; simpl; lia).
  assert (slice_valid slice_view_o) as Ho by (unfold slice_valid; simpl; lia).
  split; [exact Hk|]. split; [exact Ho|].
  rewrite (proj1 (proj1 (proj2 (proj2 (proj2 (slice_view slice_view_k slice_view_o Hk Ho)))))).
  reflexivity.
Defined.

(** A byte key always expands to eight bits per byte, and packing the bits
    again gives the key. *)
Theorem from_key_roundtrip key :
  bytes_ok key →
  ∃ k, from_key key = Some k ∧ slice_valid k ∧ expand k = key_bits key
       ∧ slice_length k = 8 * length key ∧ slice_encode k = key.
Proof.
  intros Hok. destruct (from_encoded_spec _ _ _ (decode_key_bits key)) as (k & Hk & He & Hv).
  exists k. split_and!; [done..| |].
  - rewrite <- length_expand, He, length_key_bits by done. lia.
  - unfold slice_encode. rewrite He. by apply encode_key_bits.
Qed.
End Path.
