(* ===== verification/Varint.v ===== *)
(** * crates/trie/src/varint.rs and crates/trie/src/shared_path.rs

    Bitcoin's CompactSize integers and the length-prefixed form of a node's
    shared path.  The two decoders index their input directly, so they return
    [None] where the code panics. *)
From S2P Require Import Prelude Path.
From stdpp Require Import options.
Local Open Scope Z_scope.

Module Varint.

Definition encode_varint (value : Z) : bytes :=
  if value <? 253 then [u8 value]
  else if value <=? 0xFFFF then 0xFD :: le_bytes 2 (u16 value)
  else if value <=? 0xFFFFFFFF then 0xFE :: le_bytes 4 (u32 value)
  else 0xFF :: le_bytes 8 value.

(** The [n] bytes at [pos], or the panic of an out-of-range index. *)
Definition bytes_at (data : bytes) (pos n : nat) : option bytes :=
  if decide (pos + n ≤ length data)%nat then Some (slice data pos (pos + n)) else None.

Definition decode_varint (data : bytes) : option (Z * nat) :=
  first ← data !! 0%nat;
  if first <? 253 then Some (first, 1%nat)
  else if first =? 253 then v ← bytes_at data 1 2; Some (of_le v, 3%nat)
  else if first =? 254 then v ← bytes_at data 1 4; Some (of_le v, 5%nat)
  else v ← bytes_at data 1 8; Some (of_le v, 9%nat).

Definition varint_size (value : Z) : nat :=
  if value <? 253 then 1
  else if value <=? 0xFFFF then 3
  else if value <=? 0xFFFFFFFF then 5
  else 9.

Lemma length_encode_varint v : length (encode_varint v) = varint_size v.
Proof. unfold encode_varint, varint_size. repeat case_test; reflexivity. Qed.

Lemma varint_size_bounds v : (1 ≤ varint_size v ≤ 9)%nat.
Proof. unfold varint_size. repeat case_test; lia. Qed.

Lemma encode_varint_ok v : fits 64 v → bytes_ok (encode_varint v).
Proof.
  intros Hv. unfold encode_varint. repeat case_test; constructor;
    solve [apply le_bytes_ok | apply wrap_fits; lia | unfold fits; lia | constructor].
Qed.

Lemma bytes_at_app_le n x b rest :
  bytes_at (b :: le_bytes n x ++ rest) 1 n = Some (le_bytes n x).
Proof.
  unfold bytes_at. rewrite decide_True by (simpl; autorewrite with len; lia).
  unfold slice. simpl. f_equal.
  rewrite drop_0, Nat.sub_0_r. apply take_app_length'. by rewrite length_le_bytes.
Qed.

Lemma decode_encode_varint_app v rest : fits 64 v →
  decode_varint (encode_varint v ++ rest) = Some (v, varint_size v).
Proof.
  intros Hv. unfold encode_varint, varint_size.
  destruct (Z.ltb_spec v 253).
  { unfold decode_varint, u8. rewrite wrap_small by (unfold fits in *; lia). simpl.
    destruct (Z.ltb_spec v 253); [done|lia]. }
  destruct (Z.leb_spec v 0xFFFF).
  { unfold decode_varint. cbn [app lookup list_lookup mbind option_bind].
    change (253 <? 253) with false. change (253 =? 253) with true. cbn [orb].
    rewrite bytes_at_app_le. cbn [mbind option_bind]. unfold u16.
    rewrite wrap_small, of_le_le_bytes by (unfold fits in *; lia). done. }
  destruct (Z.leb_spec v 0xFFFFFFFF).
  { unfold decode_varint. cbn [app lookup list_lookup mbind option_bind].
    change (254 <? 253) with false. change (254 =? 253) with false. change (254 =? 254) with true.
    rewrite bytes_at_app_le. cbn [mbind option_bind]. unfold u32.
    rewrite wrap_small, of_le_le_bytes by (unfold fits in *; lia). done. }
  unfold decode_varint. cbn [app lookup list_lookup mbind option_bind].
  change (255 <? 253) with false. change (255 =? 253) with false. change (255 =? 254) with false.
  rewrite bytes_at_app_le. cbn [mbind option_bind]. rewrite of_le_le_bytes by done. done.
Qed.

(** A varint decodes to the value it was encoded from and to the number of
    bytes it takes, whatever follows it; every [u64] takes one to nine bytes. *)
Theorem varint_roundtrip v rest (Hv : fits 64 v) :
  decode_varint (encode_varint v ++ rest) = Some (v, varint_size v)
  ∧ length (encode_varint v) = varint_size v
  ∧ (1 ≤ varint_size v ≤ 9)%nat
  ∧ bytes_ok (encode_varint v).
Proof.
  auto using decode_encode_varint_app, length_encode_varint, varint_size_bounds, encode_varint_ok.
Qed.

Lemma varint_roundtrip_witness :
  fits 64 70000 ∧ decode_varint (encode_varint 70000 ++ [1; 2]) = Some (70000, 5%nat).
Proof.
  assert (fits 64 70000) as H by (unfold fits; lia).
  split; [exact H|]. rewrite (proj1 (varint_roundtrip 70000 [1; 2] H)). reflexivity.
Defined.

End Varint.

Module SharedPath.
Import Varint.

Definition serialize_length (lshared : nat) : bytes :=
  if (1 <=? lshared)%nat && (lshared <=? 32)%nat then [u8 (Z.of_nat (lshared - 1))]
  else if (160 <=? lshared)%nat && (lshared <=? 382)%nat then [u8 (Z.of_nat (lshared - 128))]
  else 0xFF :: encode_varint (Z.of_nat lshared).

(** What [serialize] appends to [out]. *)
Definition serialize (shared_path : list bool) : bytes :=
  if (length shared_path =? 0)%nat then []
  else serialize_length (length shared_path) ++ Path.encode shared_path.

Definition length_prefix_size (lshared : nat) : nat :=
  if ((1 <=? lshared) && (lshared <=? 32) || (160 <=? lshared) && (lshared <=? 382))%nat
  then 1 else 1 + varint_size (Z.of_nat lshared).

Definition serialized_length (lshared : nat) : nat :=
  if (lshared =? 0)%nat then 0 else length_prefix_size lshared + Path.encoded_len lshared.

Definition deserialize (data : bytes) (pos : nat) (present : bool)
    : option (list bool * nat) :=
  if negb present then Some ([], 0%nat)
  else
    first ← data !! pos;
    '(lshared, header_size) ←
      (if first <=? 31 then Some (first + 1, 1%nat)
       else if first <=? 254 then Some (first + 128, 1%nat)
       else '(v, vs) ← decode_varint (drop (pos + 1) data); Some (v, 1 + vs)%nat);
    let encoded_bytes := Path.encoded_len (Z.to_nat lshared) in
    let start := (pos + header_size)%nat in
    encoded ← bytes_at data start encoded_bytes;
    path ← Path.decode encoded (Z.to_nat lshared);
    Some (path, (header_size + encoded_bytes)%nat).

Lemma length_serialize_length n : length (serialize_length n) = length_prefix_size n.
Proof.
  unfold serialize_length, length_prefix_size.
  repeat case_test; simpl; rewrite ?length_encode_varint; lia || done.
Qed.

Lemma length_serialize p : length (serialize p) = serialized_length (length p).
Proof.
  unfold serialize, serialized_length. case_test; [done|].
  by rewrite length_app, length_serialize_length, Path.length_encode.
Qed.

Lemma serialize_ok p : Z.of_nat (length p) < 2 ^ 64 → bytes_ok (serialize p).
Proof.
  intros Hp. unfold serialize. case_test; [constructor|].
  apply bytes_ok_app. split; [|apply Path.encode_bytes_ok].
  unfold serialize_length. repeat case_test; simpl; repeat constructor;
    try (apply wrap_fits; lia); try (unfold fits; lia);
    apply encode_varint_ok; unfold fits; lia.
Qed.

(** The three forms of the length prefix, as the decoders branch on them. *)
Lemma serialize_length_cases n : (0 < n)%nat →
  (1 ≤ Z.of_nat n ≤ 32 ∧ serialize_length n = [Z.of_nat n - 1])
  ∨ (160 ≤ Z.of_nat n ≤ 382 ∧ serialize_length n = [Z.of_nat n - 128])
  ∨ serialize_length n = 0xFF :: encode_varint (Z.of_nat n).
Proof.
  intros Hn. unfold serialize_length.
  repeat case_test; simpl; auto;
    (left + (right; left)); split; try lia; f_equal; unfold u8;
    rewrite wrap_small by (unfold fits; lia); lia.
Qed.

Lemma bytes_at_middle pre mid rest n : n = length mid →
  bytes_at (pre ++ mid ++ rest) (length pre) n = Some mid.
Proof.
  intros ->. unfold bytes_at, slice. rewrite decide_True by (autorewrite with len; lia).
  rewrite drop_app_length. f_equal. apply take_app_length'. lia.
Qed.

Lemma bytes_at_after_cons pre x mid rest n : n = length mid →
  bytes_at (pre ++ x :: mid ++ rest) (length pre + 1) n = Some mid.
Proof.
  intros. rewrite cons_middle, (app_assoc pre).
  replace (length pre + 1)%nat with (length (pre ++ [x])) by (autorewrite with len; simpl; lia).
  by apply bytes_at_middle.
Qed.

Lemma drop_app_cons {A} (pre : list A) x l : drop (length pre + 1) (pre ++ x :: l) = l.
Proof. rewrite <- drop_drop, drop_app_length. done. Qed.

Lemma deserialize_serialize_at pre p rest :
  Z.of_nat (length p) < 2 ^ 64 →
  deserialize (pre ++ serialize p ++ rest) (length pre) (negb (length p =? 0)%nat)
  = Some (p, serialized_length (length p)).
Proof.
  intros Hp. unfold serialize, serialized_length, deserialize.
  destruct (Nat.eqb_spec (length p) 0) as [H0|H0]; cbn [negb].
  { by apply length_zero_iff_nil in H0 as ->. }
  rewrite <- (length_serialize_length (length p)), <- app_assoc.
  destruct (serialize_length_cases (length p)) as [[Hr ->]|[[Hr ->]| ->]]; [lia|..].
  - rewrite lookup_app_r, Nat.sub_diag by lia. cbn [app lookup list_lookup mbind option_bind].
    destruct (Z.leb_spec (Z.of_nat (length p) - 1) 31); [|lia]. cbn [mbind option_bind].
    replace (Z.to_nat (Z.of_nat (length p) - 1 + 1)) with (length p) by lia.
    rewrite bytes_at_after_cons by (by rewrite Path.length_encode). cbn [mbind option_bind].
    by rewrite Path.decode_encode_path.
  - rewrite lookup_app_r, Nat.sub_diag by lia. cbn [app lookup list_lookup mbind option_bind].
    destruct (Z.leb_spec (Z.of_nat (length p) - 128) 31); [lia|].
    destruct (Z.leb_spec (Z.of_nat (length p) - 128) 254); [|lia]. cbn [mbind option_bind].
    replace (Z.to_nat (Z.of_nat (length p) - 128 + 128)) with (length p) by lia.
    rewrite bytes_at_after_cons by (by rewrite Path.length_encode). cbn [mbind option_bind].
    by rewrite Path.decode_encode_path.
  - cbn [app]. rewrite drop_app_cons, lookup_app_r, Nat.sub_diag by lia.
    cbn [lookup list_lookup mbind option_bind].
    change (255 <=? 31) with false. change (255 <=? 254) with false.
    rewrite decode_encode_varint_app by (unfold fits; lia). cbn [mbind option_bind].
    rewrite Nat2Z.id, length_cons, length_encode_varint.
    change (255 :: encode_varint (Z.of_nat (length p)) ++ Path.encode p ++ rest)
      with ((255 :: encode_varint (Z.of_nat (length p))) ++ Path.encode p ++ rest).
    rewrite (app_assoc pre). replace (length pre + (1 + varint_size (Z.of_nat (length p))))%nat
      with (length (pre ++ 255 :: encode_varint (Z.of_nat (length p))))
      by (autorewrite with len; rewrite length_encode_varint; lia).
    rewrite bytes_at_middle by (by rewrite Path.length_encode). cbn [mbind option_bind].
    by rewrite Path.decode_encode_path.
Qed.

(** A serialized shared path, anywhere in a message, deserializes to the path
    and to the number of bytes it takes, which is [serialized_length]. *)
Theorem shared_path_roundtrip pre p rest (Hp : Z.of_nat (length p) < 2 ^ 64) :
  deserialize (pre ++ serialize p ++ rest) (length pre) (negb (length p =? 0)%nat)
    = Some (p, serialized_length (length p))
  ∧ length (serialize p) = serialized_length (length p).
Proof. auto using deserialize_serialize_at, length_serialize. Qed.

Definition witness_path : list bool := replicate 200 true ++ [false].

Lemma shared_path_roundtrip_witness :
  Z.of_nat (length witness_path) < 2 ^ 64
  ∧ deserialize ([7] ++ serialize witness_path ++ [9]) 1 true = Some (witness_path, 27%nat).
Proof.
  assert (Z.of_nat (length witness_path) < 2 ^ 64) as H by (vm_compute; reflexivity).
  split; [exact H|].
  exact (proj1 (shared_path_roundtrip [7] witness_path [9] H)).
Defined.

End SharedPath.
