(* ===== verification/Store.v ===== *)
(** * crates/trie/src/store.rs: the persistence interface of the trie

    The trait [TrieStore] is a class on the type of store states: the code's
    [&self] methods that write through a [Mutex] return the new state.  Its
    default methods ([put_many], [get_many], [get_many_sorted]) are definitions
    over the class, except that a store may bring its own batch write
    ([ts_put_many]); the laws a client relies on are [TrieStoreLaws].
    [MemoryTrieStore] and [OverlayTrieStore] are its two instances here. *)
From S2P Require Import Prelude.
From stdpp Require Import options.

Module Store.
Local Open Scope Z_scope.

Class TrieStore (S : Type) := {
  ts_get : S → bytes → option bytes;
  ts_put : S → bytes → bytes → S;
  ts_put_many : S → list (bytes * bytes) → S;
  ts_flush : S → S;
  ts_collected_below : S → option Z;
}.

(** The default [TrieStore::put_many]: one [put] per entry, in order. *)
Definition default_put_many {S} (put : S → bytes → bytes → S) (s : S) (entries : list (bytes * bytes)) : S :=
  foldl (λ s e, put s e.1 e.2) s entries.

Abbreviation put_many := (default_put_many ts_put).

Definition get_many {S} `{TrieStore S} (s : S) (keys : list bytes) : list (option bytes) :=
  ts_get s <$> keys.

Definition get_many_sorted {S} `{TrieStore S} (s : S) (keys : list bytes)
  : list (option bytes) := ts_get s <$> keys.

Class TrieStoreLaws (S : Type) `{TrieStore S} := {
  ts_get_put_eq s k v : ts_get (ts_put s k v) k = Some v;
  ts_get_put_ne s k k' v : k ≠ k' → ts_get (ts_put s k v) k' = ts_get s k';
  ts_get_put_many s l k : ts_get (ts_put_many s l) k = ts_get (put_many s l) k;
  ts_get_flush s k : ts_get (ts_flush s) k = ts_get s k;
}.

(** ** MemoryTrieStore *)

Record MemoryTrieStore := mkMemory { mem_data : gmap bytes bytes }.

Definition memory_new : MemoryTrieStore := mkMemory ∅.
Definition memory_len (s : MemoryTrieStore) : nat := size (mem_data s).
Definition memory_is_empty (s : MemoryTrieStore) : bool := (memory_len s =? 0)%nat.
Definition memory_remove (s : MemoryTrieStore) (k : bytes) : bool * MemoryTrieStore :=
  (bool_decide (is_Some (mem_data s !! k)), mkMemory (delete k (mem_data s))).
Definition memory_get (s : MemoryTrieStore) (k : bytes) : option bytes := mem_data s !! k.
Definition memory_put (s : MemoryTrieStore) (k v : bytes) : MemoryTrieStore :=
  mkMemory (<[k := v]> (mem_data s)).

#[global] Instance memory_store : TrieStore MemoryTrieStore := {
  ts_get := memory_get;
  ts_put := memory_put;
  ts_put_many := default_put_many memory_put;
  ts_flush s := s;
  ts_collected_below _ := None;
}.

(** ** OverlayTrieStore *)

(** [base] and [spill] are any two stores; [written] is the atomic counter. *)
Record OverlayTrieStore (B Sp : Type) := mkOverlay {
  base : B;
  overlay : gmap bytes bytes;
  spill : option Sp;
  written_count : nat;
}.
Arguments mkOverlay {_ _}. Arguments base {_ _}. Arguments overlay {_ _}.
Arguments spill {_ _}. Arguments written_count {_ _}.

Section overlay.
Context {B Sp : Type} `{TrieStore B} `{TrieStore Sp}.
Implicit Types s : OverlayTrieStore B Sp.

Definition overlay_new (b : B) : OverlayTrieStore B Sp := mkOverlay b ∅ None 0.

Definition overlay_with_spill (b : B) (sp : Sp) : OverlayTrieStore B Sp :=
  mkOverlay b ∅ (Some sp) 0.

Definition overlay_written s : nat :=
  match spill s with Some _ => written_count s | None => size (overlay s) end.

Definition overlay_get s (k : bytes) : option bytes :=
  match spill s with
  | Some sp =>
      match ts_get sp k with Some v => Some v | None => ts_get (base s) k end
  | None =>
      match overlay s !! k with Some v => Some v | None => ts_get (base s) k end
  end.

Definition overlay_put s (k v : bytes) : OverlayTrieStore B Sp :=
  match spill s with
  | Some sp => mkOverlay (base s) (overlay s) (Some (ts_put sp k v)) (S (written_count s))
  | None => mkOverlay (base s) (<[k := v]> (overlay s)) None (written_count s)
  end.

Definition overlay_flush s : OverlayTrieStore B Sp :=
  match spill s with
  | Some sp => mkOverlay (base s) (overlay s) (Some (ts_flush sp)) (written_count s)
  | None => s
  end.

Definition overlay_collected_below s : option Z := ts_collected_below (base s).

#[global] Instance overlay_store : TrieStore (OverlayTrieStore B Sp) := {
  ts_get := overlay_get;
  ts_put := overlay_put;
  ts_put_many := default_put_many overlay_put;
  ts_flush := overlay_flush;
  ts_collected_below := overlay_collected_below;
}.
End overlay.

(** ** Laws *)

#[global] Instance memory_laws : TrieStoreLaws MemoryTrieStore.
Proof.
  split; simpl; unfold memory_get, memory_put; simpl.
  - intros. apply lookup_insert_eq.
  - intros. by apply lookup_insert_ne.
  - done.
  - done.
Qed.

#[global] Instance overlay_laws {B Sp} `{TrieStore B} `{TrieStoreLaws Sp} :
  TrieStoreLaws (OverlayTrieStore B Sp).
Proof.
  split; simpl; unfold overlay_get, overlay_put, overlay_flush.
  - intros s k v. destruct (spill s); simpl; [by rewrite ts_get_put_eq|].
    by rewrite lookup_insert_eq.
  - intros s k k' v Hne. destruct (spill s); simpl; [by rewrite ts_get_put_ne|].
    by rewrite lookup_insert_ne.
  - done.
  - intros s k. destruct (spill s) eqn:Hsp; simpl; [by rewrite ts_get_flush|by rewrite Hsp].
Qed.

(** What a client gets from [put_many] on a lawful store: the last value written
    for a key, or what was there. *)
Lemma put_many_app {S} `{TrieStore S} (s : S) l l' :
  put_many s (l ++ l') = put_many (put_many s l) l'.
Proof. apply foldl_app. Qed.

Lemma ts_get_put_many_ne {S} `{TrieStoreLaws S} (s : S) l k :
  k ∉ l.*1 → ts_get (put_many s l) k = ts_get s k.
Proof.
  revert s. induction l as [|[k' v] l IH]; intros s Hk; simpl in *; [done|].
  apply not_elem_of_cons in Hk as [Hne Hk]. rewrite IH by done. by rewrite ts_get_put_ne.
Qed.

(** If equal keys come with equal values, every entry can be read back. *)
Lemma ts_get_put_many_in {S} `{TrieStoreLaws S} (s : S) l k v :
  (∀ v', (k, v') ∈ l → v' = v) → (k, v) ∈ l → ts_get (put_many s l) k = Some v.
Proof.
  revert s. induction l as [|[k' v'] l IH]; intros s Huniq Hin; [by apply elem_of_nil in Hin|].
  simpl. destruct (decide ((k, v) ∈ l)) as [Hl|Hl].
  - apply IH; [|done]. intros w Hw. apply Huniq. by right.
  - apply elem_of_cons in Hin as [[= -> ->]|]; [|done].
    rewrite ts_get_put_many_ne; [by rewrite ts_get_put_eq|].
    intros (e & -> & He)%list_elem_of_fmap. destruct e as [k w]. simpl in *.
    assert (w = v') as -> by (apply Huniq; by right). done.
Qed.

(** An overlay reads its own writes, leaves every other key as the layers below
    have it, and no [put], [flush] or [put_many] reaches the base store. *)
Theorem overlay_shadows {B Sp} `{TrieStore B} `{TrieStoreLaws Sp}
    (s : OverlayTrieStore B Sp) k v :
  ts_get (ts_put s k v) k = Some v
  ∧ (∀ k', k ≠ k' → ts_get (ts_put s k v) k' = ts_get s k')
  ∧ base (ts_put s k v) = base s
  ∧ base (ts_flush s) = base s
  ∧ (∀ l, base (put_many s l) = base s)
  ∧ ts_collected_below (ts_put s k v) = ts_collected_below s.
Proof.
  assert (∀ (s : OverlayTrieStore B Sp) k v, base (ts_put s k v) = base s) as Hbase.
  { intros s' k' v'. simpl. unfold overlay_put. by destruct (spill s'). }
  split_and!.
  - apply ts_get_put_eq.
  - intros. by apply ts_get_put_ne.
  - apply Hbase.
  - simpl. unfold overlay_flush. by destruct (spill s).
  - intros l. revert s. induction l as [|e l IH]; intros s; [done|].
    change (base (put_many (ts_put s e.1 e.2) l) = base s). by rewrite IH, Hbase.
  - change (ts_collected_below (base (ts_put s k v)) = ts_collected_below (base s)).
    by rewrite Hbase.
Qed.

Definition overlay_example : OverlayTrieStore MemoryTrieStore MemoryTrieStore :=
  overlay_with_spill (memory_put memory_new [1] [7]) memory_new.

Lemma overlay_shadows_witness :
  ts_get (ts_put overlay_example [1] [8]) [1] = Some [8]
  ∧ ts_get (base (ts_put overlay_example [1] [8])) [1] = Some [7].
Proof.
  destruct (overlay_shadows overlay_example [1] [8]) as (H1 & _ & H3 & _).
  split; [exact H1|]. rewrite H3. reflexivity.
Defined.

(** A batch written with [put_many] into a lawful store reads back entry by
    entry when equal keys carry equal values, and no other key changes. *)
Theorem put_many_reads_back {S} `{TrieStoreLaws S} (s : S) l
    (Hf : ∀ k v v', (k, v) ∈ l → (k, v') ∈ l → v = v') :
  (∀ k v, (k, v) ∈ l → ts_get (put_many s l) k = Some v)
  ∧ (∀ k, k ∉ l.*1 → ts_get (put_many s l) k = ts_get s k)
  ∧ get_many (put_many s l) (l.*1) = Some <$> l.*2.
Proof.
  assert (∀ k v, (k, v) ∈ l → ts_get (put_many s l) k = Some v) as Hin.
  { intros k v Hkv. apply ts_get_put_many_in; [|done]. intros v' Hv'. by eapply Hf. }
  split_and!; [done|intros; by apply ts_get_put_many_ne|].
  unfold get_many. rewrite <- !list_fmap_compose. apply list_fmap_ext.
  intros i [k v] Hi. simpl. apply Hin. by eapply list_elem_of_lookup_2.
Qed.

Definition batch_example : list (bytes * bytes) := [([1], [10; 11]); ([2], [20]); ([1], [10; 11])].

Lemma put_many_reads_back_witness :
  get_many (put_many memory_new batch_example) [[1]; [2]; [1]]
  = [Some [10; 11]; Some [20]; Some [10; 11]].
Proof.
  assert (∀ k v v', (k, v) ∈ batch_example → (k, v') ∈ batch_example → v = v') as Hf.
  { unfold batch_example. intros k v v' H1 H2. repeat rewrite elem_of_cons in H1, H2.
    rewrite elem_of_nil in H1, H2. destruct_or!; simplify_eq; done. }
  exact (proj2 (proj2 (put_many_reads_back memory_new batch_example Hf))).
Defined.

End Store.
