(* ===== verification/Node.v ===== *)
(** * crates/trie/src/node.rs: the Unitrie node

    The data type, the RSKIP107 message codec, lookup, insertion, deletion and
    saving, as the code has them.

    - [Arc] sharing is invisible to a node that is immutable once built, so a
      child is a value.  [hash_cache] memoises a function of immutable fields
      and is left out; [saved] is kept, and [save] returns the updated node.
    - A key is the expanded bit list of its [TrieKeySlice] (see Path).
    - Walks through the store are not structural: [find], [try_find],
      [nodes_on_path] and [internal_put] take a fuel that bounds the calls, and
      [None] at the outermost [option] is "out of fuel".  NodeRefine proves the fuel
      their callers pass is always enough.
    - [u64] sizes wrap on [+] ([saturating_sub] as in the code). *)
From S2P Require Import Prelude Path Varint Store.
From stdpp Require Import options.

Module Node.
Import Store.
Local Open Scope Z_scope.

Definition MAX_EMBEDDED_NODE_SIZE : nat := 44.
Definition MAX_SHARED_PATH_BITS : Z := 1024.

(** ** Data *)

Inductive NodeRef (N : Type) :=
  | RefEmpty
  | RefHash (h : bytes)
  | RefNode (n : N).
Arguments RefEmpty {_}. Arguments RefHash {_}. Arguments RefNode {_}.

Inductive TrieNode := mkTrieNode {
  shared_path : list bool;
  value : option bytes;
  value_hash : option bytes;
  long_value_len : option Z;
  left_ref : NodeRef TrieNode;
  right_ref : NodeRef TrieNode;
  children_size : Z;
  saved : bool;
}.

Inductive Resolution :=
  | Found (n : TrieNode)
  | Absent
  | Missing (h : bytes).

Section node.
Context `{Keccak}.

Definition empty_trie_hash : bytes := keccak [0x80].

Definition ref_is_empty (r : NodeRef TrieNode) : bool :=
  match r with RefEmpty => true | _ => false end.

Definition empty_node : TrieNode :=
  mkTrieNode [] None None None RefEmpty RefEmpty 0 false.

Definition from_parts (path : list bool) (v vh : option bytes)
    (l r : NodeRef TrieNode) : TrieNode :=
  mkTrieNode path v vh None l r 0 false.

Definition new_leaf (path : list bool) (v : bytes) : TrieNode :=
  mkTrieNode path (Some v) (Some (keccak v)) None RefEmpty RefEmpty 0 false.

Definition is_none {A} (o : option A) : bool := match o with None => true | _ => false end.

Definition is_empty_trie (n : TrieNode) : bool :=
  is_none (value n) && is_none (long_value_len n)
  && ref_is_empty (left_ref n) && ref_is_empty (right_ref n).

Definition is_terminal (n : TrieNode) : bool :=
  ref_is_empty (left_ref n) && ref_is_empty (right_ref n).

Definition value_length (n : TrieNode) : nat :=
  match value n with
  | Some v => length v
  | None => Z.to_nat (default 0 (long_value_len n))
  end.

Definition has_long_value (n : TrieNode) : bool := (32 <? value_length n)%nat.

Definition get_value_hash (n : TrieNode) : bytes :=
  match value_hash n with
  | Some h => h
  | None => match value n with Some v => keccak v | None => replicate 32 0 end
  end.

(** ** Serialization *)

(** The body of [message_length], given the serialized lengths of the two
    child references. *)
Definition message_length_with (n : TrieNode) (ll rl : nat) : nat :=
  (1 + SharedPath.serialized_length (length (shared_path n)) + ll + rl
   + (if is_terminal n then 0 else Varint.varint_size (children_size n))
   + (if has_long_value n then 32 + 3 else value_length n))%nat.

Fixpoint message_length (n : TrieNode) : nat :=
  let serialized_length (r : NodeRef TrieNode) : nat :=
    match r with
    | RefEmpty => 0
    | RefHash _ => 32
    | RefNode c =>
        if is_terminal c && (message_length c <=? MAX_EMBEDDED_NODE_SIZE)%nat
        then 1 + message_length c else 32
    end%nat in
  message_length_with n (serialized_length (left_ref n)) (serialized_length (right_ref n)).

Definition is_embeddable (n : TrieNode) : bool :=
  is_terminal n && (message_length n <=? MAX_EMBEDDED_NODE_SIZE)%nat.

Definition ref_is_embeddable (r : NodeRef TrieNode) : bool :=
  match r with RefNode n => is_embeddable n | _ => false end.

Definition ref_serialized_length (r : NodeRef TrieNode) : nat :=
  match r with
  | RefEmpty => 0
  | RefNode n => if is_embeddable n then 1 + message_length n else 32
  | RefHash _ => 32
  end%nat.

Definition flag (b : bool) (mask flags : Z) : Z := if b then Z.lor flags mask else flags.

Definition message_flags (n : TrieNode) : Z :=
  let flags := 0x40 in
  let flags := flag (has_long_value n) 0x20 flags in
  let flags := flag (negb (length (shared_path n) =? 0)%nat) 0x10 flags in
  let flags := flag (negb (ref_is_empty (left_ref n))) 0x08 flags in
  let flags := flag (negb (ref_is_empty (right_ref n))) 0x04 flags in
  let flags := flag (ref_is_embeddable (left_ref n)) 0x02 flags in
  flag (ref_is_embeddable (right_ref n)) 0x01 flags.

(** What [to_message] pushes for the value. *)
Definition message_value (n : TrieNode) : bytes :=
  if has_long_value n then
    let vlen := u32 (Z.of_nat (value_length n)) in
    get_value_hash n ++ [u8 (Z.shiftr vlen 16); u8 (Z.shiftr vlen 8); u8 vlen]
  else match value n with Some v => v | None => [] end.

Definition to_message_with (n : TrieNode) (ls rs : bytes) : bytes :=
  [message_flags n] ++ SharedPath.serialize (shared_path n) ++ ls ++ rs
  ++ (if is_terminal n then [] else Varint.encode_varint (children_size n))
  ++ message_value n.

Fixpoint to_message (n : TrieNode) : bytes :=
  let serialize_into (r : NodeRef TrieNode) : bytes :=
    match r with
    | RefEmpty => []
    | RefHash h => h
    | RefNode c =>
        if is_embeddable c then u8 (Z.of_nat (length (to_message c))) :: to_message c
        else if is_empty_trie c then empty_trie_hash else keccak (to_message c)
    end in
  to_message_with n (serialize_into (left_ref n)) (serialize_into (right_ref n)).

Definition compute_hash (n : TrieNode) : bytes :=
  if is_empty_trie n then empty_trie_hash else keccak (to_message n).

Definition get_hash (r : NodeRef TrieNode) : option bytes :=
  match r with
  | RefEmpty => None
  | RefHash h => Some h
  | RefNode n => Some (compute_hash n)
  end.

Definition ref_serialize_into (r : NodeRef TrieNode) : bytes :=
  match r with
  | RefEmpty => []
  | RefHash h => h
  | RefNode n =>
      if is_embeddable n then u8 (Z.of_nat (length (to_message n))) :: to_message n
      else compute_hash n
  end.

(** ** Deserialization *)

Record Reader := mkReader { rdata : bytes; rpos : nat }.

(** A bounds-checked read: [None] where the code's [?] returns [None]. *)
Definition Read (A : Type) : Type := Reader → option (A * Reader).

Definition rret {A} (a : A) : Read A := λ r, Some (a, r).
Definition rfail {A} : Read A := λ _, None.
Definition rlift {A} (o : option A) : Read A := λ r, (λ a, (a, r)) <$> o.
Definition rbind {A B} (m : Read A) (f : A → Read B) : Read B :=
  λ r, '(a, r') ← m r; f a r'.

Local Notation "'read!' x := m 'in' k" := (rbind m (λ x, k))
  (at level 10, x pattern, m at level 100, k at level 200).

Definition reader_byte : Read Z := λ r,
  b ← rdata r !! rpos r; Some (b, mkReader (rdata r) (rpos r + 1)).

Definition reader_take (n : nat) : Read bytes := λ r,
  if decide (rpos r + n ≤ length (rdata r))%nat
  then Some (slice (rdata r) (rpos r) (rpos r + n), mkReader (rdata r) (rpos r + n))
  else None.

Definition varint_width (first : Z) : nat :=
  if first <=? 252 then 1 else if first =? 253 then 3 else if first =? 254 then 5 else 9.

Definition reader_varint : Read Z := λ r,
  first ← rdata r !! rpos r;
  (read! b := reader_take (varint_width first) in
   rret (if first <=? 252 then first else of_le (drop 1 b))) r.

(** The shared path: its length, checked against [MAX_SHARED_PATH_BITS], then
    the packed bits. *)
Definition reader_shared_path (present : bool) : Read (list bool) :=
  if present then
    read! first := reader_byte in
    read! lshared :=
      (if first <=? 31 then rret (first + 1)
       else if first <=? 254 then rret (first + 128)
       else reader_varint) in
    if lshared >? MAX_SHARED_PATH_BITS then rfail
    else
      read! encoded := reader_take (Path.encoded_len (Z.to_nat lshared)) in
      rlift (Path.decode encoded (Z.to_nat lshared))
  else rret [].

(** The closure [child]; [rec] is the recursive call on an embedded message. *)
Definition reader_child (rec : bytes → option TrieNode) (present embedded : bool)
    : Read (NodeRef TrieNode) :=
  if negb present then rret RefEmpty
  else if embedded then
    read! len := reader_byte in
    read! body := reader_take (Z.to_nat len) in
    read! n := rlift (rec body) in
    rret (RefNode n)
  else
    read! h := reader_take 32 in
    rret (RefHash h).

(** The value: [(value, value_hash, long_value_len)]. *)
Definition reader_value {St} `{TrieStore St} (store : St) (has_long_val : bool)
    : Read (option bytes * option bytes * option Z) :=
  if has_long_val then
    read! vh := reader_take 32 in
    read! len := reader_take 3 in
    let vlen := Z.lor (Z.lor (Z.shiftl (nth 0 len 0) 16) (Z.shiftl (nth 1 len 0) 8))
                  (nth 2 len 0) in
    let val := ts_get store vh in
    match val with
    | Some v =>
        if decide (Z.of_nat (length v) = vlen) then rret (val, Some vh, Some vlen) else rfail
    | None => rret (None, Some vh, Some vlen)
    end
  else λ r,
    if decide (rpos r < length (rdata r))%nat
    then let v := drop (rpos r) (rdata r) in Some ((Some v, Some (keccak v), None), r)
    else Some ((None, None, None), r).

Definition mask_set (flags mask : Z) : bool := negb (Z.land flags mask =? 0).

(** The body of [try_from_message] over its recursive call. *)
Definition read_node {St} `{TrieStore St} (store : St) (rec : bytes → option TrieNode)
    : Read TrieNode :=
  read! flags := reader_byte in
  let has_long_val := mask_set flags 0x20 in
  let shared_prefix_present := mask_set flags 0x10 in
  let left_present := mask_set flags 0x08 in
  let right_present := mask_set flags 0x04 in
  let left_embedded := mask_set flags 0x02 in
  let right_embedded := mask_set flags 0x01 in
  read! path := reader_shared_path shared_prefix_present in
  read! l := reader_child rec left_present left_embedded in
  read! r := reader_child rec right_present right_embedded in
  read! cs := (if left_present || right_present then reader_varint else rret 0) in
  read! vals := reader_value store has_long_val in
  let '(val, vh, lvl) := vals in
  rret (mkTrieNode path val vh lvl l r cs false).

(** An embedded message is shorter than the one that holds it, so
    [length data] bounds the nesting. *)
Fixpoint parse_fuel {St} `{TrieStore St} (fuel : nat) (store : St) (data : bytes)
    : option TrieNode :=
  match fuel with
  | O => None
  | S fuel' => fst <$> read_node store (parse_fuel fuel' store) (mkReader data 0)
  end.

Definition try_from_message {St} `{TrieStore St} (store : St) (data : bytes)
    : option TrieNode := parse_fuel (S (length data)) store data.

(** ** Resolution *)

Definition try_resolve {St} `{TrieStore St} (store : St) (r : NodeRef TrieNode)
    : Resolution :=
  match r with
  | RefEmpty => Absent
  | RefNode n => Found n
  | RefHash h =>
      match ts_get store h with
      | Some data =>
          match try_from_message store data with
          | Some node => Found node
          | None => Missing h
          end
      | None => Missing h
      end
  end.

Definition resolve {St} `{TrieStore St} (store : St) (r : NodeRef TrieNode)
    : option TrieNode :=
  match r with
  | RefEmpty => None
  | RefNode n => Some n
  | RefHash h => data ← ts_get store h; try_from_message store data
  end.

(** [into_owned] and [resolve_owned] differ from [resolve] in who owns the
    node, not in which node it is. *)
Definition into_owned {St} `{TrieStore St} (store : St) (r : NodeRef TrieNode)
    : option TrieNode :=
  match r with
  | RefEmpty => None
  | RefNode n => Some n
  | RefHash h => data ← ts_get store h; try_from_message store data
  end.

Definition external_value_length (n : TrieNode) : Z :=
  if has_long_value n then Z.of_nat (value_length n) else 0.

Definition reference_size {St} `{TrieStore St} (store : St) (r : NodeRef TrieNode) : Z :=
  match r with
  | RefEmpty => 0
  | RefNode n =>
      u64 (u64 (children_size n + external_value_length n) + Z.of_nat (message_length n))
  | RefHash h =>
      match ts_get store h with
      | Some data =>
          match try_from_message store data with
          | Some node =>
              u64 (u64 (children_size node + external_value_length node)
                   + Z.of_nat (length data))
          | None => 0
          end
      | None => 0
      end
  end.

(** ** Lookup *)

(** [key.common_path(&self.shared_path)] *)
Definition common (n : TrieNode) (key : list bool) : list bool := lcp key (shared_path n).

(** The child slot that bit [i] of [key] selects. *)
Definition select_child (n : TrieNode) (bit : bool) : NodeRef TrieNode :=
  if bit then right_ref n else left_ref n.

Definition key_bit (key : list bool) (i : nat) : bool := nth i key false.

Fixpoint find_fuel {St} `{TrieStore St} (fuel : nat) (store : St) (n : TrieNode)
    (key : list bool) : option (option TrieNode) :=
  match fuel with
  | O => None
  | S fuel' =>
      if (length key <? length (shared_path n))%nat then Some None
      else
        let c := length (common n key) in
        if (c <? length (shared_path n))%nat then Some None
        else if (c =? length key)%nat then Some (Some n)
        else
          match resolve store (select_child n (key_bit key c)) with
          | None => Some None
          | Some child => find_fuel fuel' store child (drop (c + 1) key)
          end
  end.

(** The outer [option] of a fuelled call, which never runs out, is dropped. *)
Definition find {St} `{TrieStore St} (store : St) (n : TrieNode) (key : list bool)
  : option TrieNode := default None (find_fuel (S (length key)) store n key).

Definition get {St} `{TrieStore St} (store : St) (n : TrieNode) (key : list bool)
  : option bytes := node ← find store n key; value node.

Fixpoint try_find_fuel {St} `{TrieStore St} (fuel : nat) (store : St) (n : TrieNode)
    (key : list bool) : option (result (option TrieNode) bytes) :=
  match fuel with
  | O => None
  | S fuel' =>
      if (length key <? length (shared_path n))%nat then Some (Ok None)
      else
        let c := length (common n key) in
        if (c <? length (shared_path n))%nat then Some (Ok None)
        else if (c =? length key)%nat then Some (Ok (Some n))
        else
          match try_resolve store (select_child n (key_bit key c)) with
          | Absent => Some (Ok None)
          | Missing h => Some (Err h)
          | Found child => try_find_fuel fuel' store child (drop (c + 1) key)
          end
  end.

Definition try_find {St} `{TrieStore St} (store : St) (n : TrieNode) (key : list bool)
  : result (option TrieNode) bytes :=
  default (Ok None) (try_find_fuel (S (length key)) store n key).

Definition try_get {St} `{TrieStore St} (store : St) (n : TrieNode) (key : list bool)
  : result (option bytes) bytes :=
  let? found := try_find store n key in Ok (node ← found; value node).

(** Deepest node first, the root of the walk last. *)
Fixpoint nodes_on_path_fuel {St} `{TrieStore St} (fuel : nat) (store : St) (n : TrieNode)
    (key : list bool) : option (option (list TrieNode)) :=
  match fuel with
  | O => None
  | S fuel' =>
      if (length key <? length (shared_path n))%nat then Some None
      else
        let c := length (common n key) in
        if (c <? length (shared_path n))%nat then Some None
        else if (c =? length key)%nat then Some (Some [n])
        else
          match resolve store (select_child n (key_bit key c)) with
          | None => Some None
          | Some child =>
              sub ← nodes_on_path_fuel fuel' store child (drop (c + 1) key);
              Some (subnodes ← sub; Some (subnodes ++ [n]))
          end
  end.

Definition nodes_on_path {St} `{TrieStore St} (store : St) (n : TrieNode) (key : list bool)
  : option (list TrieNode) :=
  default None (nodes_on_path_fuel (S (length key)) store n key).

(** ** Insertion and deletion *)

Definition is_empty_trie_params (v : option bytes) (l r : NodeRef TrieNode) : bool :=
  is_none v && ref_is_empty l && ref_is_empty r.

Definition split {St} `{TrieStore St} (store : St) (n : TrieNode) (common_path : list bool)
    : TrieNode :=
  let common_len := length common_path in
  let new_child :=
    mkTrieNode (drop (common_len + 1) (shared_path n)) (value n) (value_hash n) None
      (left_ref n) (right_ref n) (children_size n) false in
  let child_ref := RefNode new_child in
  let bit := key_bit (shared_path n) common_len in
  let cs := reference_size store child_ref in
  mkTrieNode common_path None None None
    (if bit then RefEmpty else child_ref) (if bit then child_ref else RefEmpty) cs false.

(** The part of [put_impl] after [internal_put]: on a deletion, a node left with
    one child and no value is merged with that child. *)
Definition coalesce {St} `{TrieStore St} (store : St) (v : option bytes)
    (trie : TrieNode) : option TrieNode :=
  if is_none v then
    if is_empty_trie trie then None
    else if negb (is_none (value trie)) then Some trie
    else if Bool.eqb (ref_is_empty (left_ref trie)) (ref_is_empty (right_ref trie))
    then Some trie
    else
      let implicit_bit := ref_is_empty (left_ref trie) in
      child ← into_owned store (if implicit_bit then right_ref trie else left_ref trie);
      Some (mkTrieNode (shared_path trie ++ implicit_bit :: shared_path child)
              (value child) (value_hash child) None (left_ref child) (right_ref child)
              (children_size child) false)
  else Some trie.

Definition normalize_value (v : option bytes) : option bytes :=
  match v with Some [] => None | _ => v end.

(** [None] is "out of fuel"; [Some None] is the code's [None]. *)
Definition put_impl_with {St} `{TrieStore St} (store : St)
    (internal_put : TrieNode → list bool → option bytes → bool → option (option TrieNode))
    (n : TrieNode) (key : list bool) (v : option bytes) (is_recursive_delete : bool)
    : option (option TrieNode) :=
  trie ← internal_put n key v is_recursive_delete;
  Some (t ← trie; coalesce store v t).

Fixpoint internal_put {St} `{TrieStore St} (fuel : nat) (store : St) (n : TrieNode)
    (key : list bool) (v : option bytes) (is_recursive_delete : bool)
    : option (option TrieNode) :=
  match fuel with
  | O => None
  | S fuel' =>
      let v := normalize_value v in
      let c := common n key in
      if (length c <? length (shared_path n))%nat then
        if is_none v then Some (Some n)
        else put_impl_with store (internal_put fuel' store) (split store n c) key v
               is_recursive_delete
      else if (length key <=? length (shared_path n))%nat then
        if decide (value n = v) then Some (Some n)
        else if is_recursive_delete then
          Some (Some (mkTrieNode (shared_path n) None None None RefEmpty RefEmpty 0 false))
        else if is_empty_trie_params v (left_ref n) (right_ref n) then Some None
        else
          Some (Some (mkTrieNode (shared_path n) v (keccak <$> v) None
                        (left_ref n) (right_ref n) (children_size n) false))
      else if is_empty_trie n then
        Some (Some (mkTrieNode key v (keccak <$> v) None RefEmpty RefEmpty 0 false))
      else
        let bit := key_bit key (length (shared_path n)) in
        let child_ref := select_child n bit in
        let child := default empty_node (resolve store child_ref) in
        let sub_key := drop (length (shared_path n) + 1) key in
        new_child_opt ← put_impl_with store (internal_put fuel' store) child sub_key v
                          is_recursive_delete;
        let new_ref := match new_child_opt with Some c => RefNode c | None => RefEmpty end in
        let new_cs := u64 (sat_sub (children_size n) (reference_size store child_ref)
                           + reference_size store new_ref) in
        let new_left := if bit then left_ref n else new_ref in
        let new_right := if bit then new_ref else right_ref n in
        Some (if is_empty_trie_params (value n) new_left new_right then None
              else Some (mkTrieNode (shared_path n) (value n) (value_hash n) None
                           new_left new_right new_cs false))
  end.

(** A call consumes a bit of the key or follows a split that does. *)
Definition put_fuel (key : list bool) : nat := 2 * length key + 2.

Definition put_impl {St} `{TrieStore St} (store : St) (n : TrieNode) (key : list bool)
    (v : option bytes) (is_recursive_delete : bool) : option (option TrieNode) :=
  put_impl_with store (internal_put (put_fuel key) store) n key v is_recursive_delete.

Definition or_empty (r : option (option TrieNode)) : TrieNode :=
  match r with Some (Some n) => n | _ => empty_node end.

Definition put {St} `{TrieStore St} (store : St) (n : TrieNode) (key : list bool) (v : bytes)
  : TrieNode := or_empty (internal_put (put_fuel key) store n key (Some v) false).

Definition delete {St} `{TrieStore St} (store : St) (n : TrieNode) (key : list bool)
  : TrieNode := or_empty (put_impl store n key None false).

Definition delete_recursive {St} `{TrieStore St} (store : St) (n : TrieNode)
    (key : list bool) : TrieNode := or_empty (put_impl store n key None true).

(** ** Saving *)

Definition set_saved (n : TrieNode) (l r : NodeRef TrieNode) : TrieNode :=
  mkTrieNode (shared_path n) (value n) (value_hash n) (long_value_len n) l r
    (children_size n) true.

(** The entry for a long value, which lives outside its node. *)
Definition long_value_entry (n : TrieNode) : list (bytes * bytes) :=
  if has_long_value n then
    match value n with Some v => [(get_value_hash n, v)] | None => [] end
  else [].

(** The node with its [saved] flags set and the entries pushed on the batch. *)
Fixpoint collect_for_save (n : TrieNode) (is_root : bool)
    : TrieNode * list (bytes * bytes) :=
  if saved n then (n, [])
  else
    let collect_ref (r : NodeRef TrieNode) : NodeRef TrieNode * list (bytes * bytes) :=
      match r with
      | RefNode c => let '(c', b) := collect_for_save c false in (RefNode c', b)
      | _ => (r, [])
      end in
    let '(l, bl) := collect_ref (left_ref n) in
    let '(r, br) := collect_ref (right_ref n) in
    let batch := bl ++ br ++ long_value_entry n in
    if is_embeddable n && negb is_root then (set_saved n l r, batch)
    else
      let msg := to_message n in
      (set_saved n l r, batch ++ [(keccak msg, msg)]).

Definition save {St} `{TrieStore St} (store : St) (n : TrieNode) (is_root : bool)
    : TrieNode * St :=
  let '(n', batch) := collect_for_save n is_root in
  (n', match batch with [] => store | _ => ts_put_many store batch end).

End node.
End Node.
