(* ===== verification/Unitrie.v ===== *)
(** * The abstract Unitrie

    What crates/trie promises, without references, stores or sizes: a binary
    radix tree whose nodes carry a path, an optional value and two optional
    children.  [tlookup], [tput], [tdelete] and [tdelete_recursive] are its
    operations; [canonical] is the shape the consensus state root depends on.
    The main results are the map laws of the operations, preservation of
    [canonical], and [canonical_unique]: a canonical tree is determined by the
    key/value map it holds.  NodeRefine relates the node of the code to it. *)
From S2P Require Import Prelude.
From stdpp Require Import options.

Module Unitrie.

Inductive tree := mkTree {
  tpath : list bool;
  tval : option bytes;
  tleft : option tree;
  tright : option tree;
}.

Definition leaf (p : list bool) (v : bytes) : tree := mkTree p (Some v) None None.

Definition child (t : tree) (b : bool) : option tree := if b then tright t else tleft t.

Definition set_child (t : tree) (b : bool) (c : option tree) : tree :=
  if b then mkTree (tpath t) (tval t) (tleft t) c
  else mkTree (tpath t) (tval t) c (tright t).

(** A node at [p] with [x] on side [b] and [y] on the other. *)
Definition branch (p : list bool) (v : option bytes) (b : bool) (x y : option tree) : tree :=
  if b then mkTree p v y x else mkTree p v x y.

(** [k] without the prefix [p], if [p] is one. *)
Fixpoint strip (p k : list bool) : option (list bool) :=
  match p, k with
  | [], _ => Some k
  | x :: p', y :: k' => if Bool.eqb x y then strip p' k' else None
  | _ :: _, [] => None
  end.

Fixpoint tlookup (t : tree) (k : list bool) : option bytes :=
  match strip (tpath t) k with
  | None => None
  | Some [] => tval t
  | Some (b :: r) =>
      match (if b then tright t else tleft t) with Some c => tlookup c r | None => None end
  end.

Definition olookup (o : option tree) (k : list bool) : option bytes :=
  match o with Some t => tlookup t k | None => None end.

Fixpoint tput (t : tree) (k : list bool) (v : bytes) : tree :=
  match strip (tpath t) k with
  | Some [] => mkTree (tpath t) (Some v) (tleft t) (tright t)
  | Some (b :: r) =>
      let put_child (o : option tree) : option tree :=
        Some match o with Some c => tput c r v | None => leaf r v end in
      if b then mkTree (tpath t) (tval t) (tleft t) (put_child (tright t))
      else mkTree (tpath t) (tval t) (put_child (tleft t)) (tright t)
  | None =>
      let c := lcp k (tpath t) in
      let pushed := mkTree (drop (length c + 1) (tpath t)) (tval t) (tleft t) (tright t) in
      let b := nth (length c) (tpath t) false in
      match drop (length c) k with
      | [] => branch c (Some v) b (Some pushed) None
      | _ :: r => branch c None b (Some pushed) (Some (leaf r v))
      end
  end.

Definition oput (o : option tree) (k : list bool) (v : bytes) : option tree :=
  Some match o with Some t => tput t k v | None => leaf k v end.

(** Rebuild a node after a deletion below it or at it. *)
Definition collapse (p : list bool) (v : option bytes) (l r : option tree) : option tree :=
  match v, l, r with
  | None, None, None => None
  | None, Some c, None => Some (mkTree (p ++ false :: tpath c) (tval c) (tleft c) (tright c))
  | None, None, Some c => Some (mkTree (p ++ true :: tpath c) (tval c) (tleft c) (tright c))
  | _, _, _ => Some (mkTree p v l r)
  end.

(** [recursive] drops the subtree of a key that holds a value; a key that holds
    none is left alone, subtree included. *)
Fixpoint tdelete_with (recursive : bool) (t : tree) (k : list bool) : option tree :=
  match strip (tpath t) k with
  | None => Some t
  | Some [] =>
      match tval t with
      | None => Some t
      | Some _ => if recursive then None else collapse (tpath t) None (tleft t) (tright t)
      end
  | Some (b :: r) =>
      let del_child (o : option tree) : option tree :=
        match o with Some c => tdelete_with recursive c r | None => None end in
      if b then collapse (tpath t) (tval t) (tleft t) (del_child (tright t))
      else collapse (tpath t) (tval t) (del_child (tleft t)) (tright t)
  end.

Definition tdelete : tree → list bool → option tree := tdelete_with false.
Definition tdelete_recursive : tree → list bool → option tree := tdelete_with true.

Definition odelete (o : option tree) (k : list bool) : option tree :=
  match o with Some t => tdelete t k | None => None end.

(** No empty values, and no node that a shorter tree could do without: every
    node has a value or two children. *)
Inductive canonical : tree → Prop :=
  | canonical_value p v l r :
      v ≠ [] → ocanonical l → ocanonical r → canonical (mkTree p (Some v) l r)
  | canonical_branch p l r :
      canonical l → canonical r → canonical (mkTree p None (Some l) (Some r))
with ocanonical : option tree → Prop :=
  | ocanonical_none : ocanonical None
  | ocanonical_some t : canonical t → ocanonical (Some t).

Scheme canonical_mind := Induction for canonical Sort Prop
with ocanonical_mind := Induction for ocanonical Sort Prop.

#[export] Hint Constructors canonical ocanonical : rustock.

(** Induction through the optional children. *)
Lemma tree_rect' (P : tree → Prop) :
  (∀ p v l r, (∀ c, l = Some c → P c) → (∀ c, r = Some c → P c) → P (mkTree p v l r)) →
  ∀ t, P t.
Proof.
  intros H. fix IH 1. intros [p v l r]. apply H.
  - intros c Hc. destruct l as [l|]; [|discriminate]. injection Hc as <-. apply IH.
  - intros c Hc. destruct r as [r|]; [|discriminate]. injection Hc as <-. apply IH.
Qed.

(** ** Prefix stripping *)

Lemma strip_Some p k r : strip p k = Some r ↔ k = p ++ r.
Proof.
  revert k. induction p as [|x p IH]; intros [|y k]; simpl; try naive_solver.
  destruct (Bool.eqb_spec x y) as [->|Hne]; [rewrite IH|]; naive_solver.
Qed.

Lemma strip_app p r : strip p (p ++ r) = Some r.
Proof. by apply strip_Some. Qed.

Lemma strip_self p : strip p p = Some [].
Proof. rewrite <- (app_nil_r p) at 2. apply strip_app. Qed.

Lemma strip_app_iff p q k r :
  strip (p ++ q) k = Some r ↔ ∃ m, strip p k = Some m ∧ strip q m = Some r.
Proof.
  setoid_rewrite strip_Some. split.
  - intros ->. exists (q ++ r). by rewrite app_assoc.
  - intros (m & -> & ->). by rewrite app_assoc.
Qed.

Lemma strip_app_bind p q k : strip (p ++ q) k = m ← strip p k; strip q m.
Proof.
  apply option_eq. intros r. rewrite strip_app_iff, bind_Some. done.
Qed.

(** The three ways a key meets a path that is not its prefix. *)
Lemma strip_None_split p k : strip p k = None →
  ∃ c b p' , lcp k p = c ∧ p = c ++ b :: p' ∧
    (k = c ∨ ∃ k', k = c ++ negb b :: k').
Proof.
  revert k. induction p as [|x p IH]; intros [|y k]; simpl; try done.
  - intros _. exists [], x, p. auto.
  - destruct (Bool.eqb_spec x y) as [->|Hne]; intros Hs.
    + destruct (IH k Hs) as (c & b & p' & Hc & Hp & Hk).
      exists (y :: c), b, p'. rewrite decide_True by done. simpl.
      split; [by rewrite Hc|]. split; [by rewrite Hp|].
      destruct Hk as [->|(k' & ->)]; [by left|right; by exists k'].
    + rewrite decide_False by done. exists [], x, p. split; [done|]. split; [done|].
      right. exists k. simpl. f_equal. by destruct x, y.
Qed.

(** ** Lookup laws *)

Lemma tlookup_unfold t k :
  tlookup t k =
    match strip (tpath t) k with
    | None => None
    | Some [] => tval t
    | Some (b :: r) => olookup (child t b) r
    end.
Proof. destruct t as [p v l r]. simpl. by destruct (strip p k) as [[|[] ?]|]. Qed.

Lemma tput_here t k v : strip (tpath t) k = Some [] →
  tput t k v = mkTree (tpath t) (Some v) (tleft t) (tright t).
Proof. destruct t. simpl. by intros ->. Qed.

Lemma tput_below t k v b r : strip (tpath t) k = Some (b :: r) →
  tput t k v = set_child t b (oput (child t b) r v).
Proof. destruct t. simpl. intros ->. by destruct b. Qed.

#[global] Arguments tlookup : simpl never.

(** The lookup of a [branch] node, one case per side. *)
Lemma tlookup_branch p v b x y k :
  tlookup (branch p v b x y) k =
    match strip p k with
    | None => None
    | Some [] => v
    | Some (b' :: r) => olookup (if Bool.eqb b b' then x else y) r
    end.
Proof. rewrite tlookup_unfold. destruct b; simpl; by destruct (strip p k) as [[|[] ?]|]. Qed.

(** Looking a key up in a node whose path is cut in two. *)
Lemma tlookup_cut p q b v l r k :
  tlookup (mkTree (p ++ b :: q) v l r) k =
    match strip p k with
    | Some (b' :: k') => if Bool.eqb b b' then tlookup (mkTree q v l r) k' else None
    | _ => None
    end.
Proof.
  rewrite tlookup_unfold. simpl. rewrite strip_app_bind.
  destruct (strip p k) as [[|b' k']|]; simpl; [done| |done].
  destruct (Bool.eqb b b'); [|done]. by rewrite (tlookup_unfold (mkTree q v l r)).
Qed.

Lemma tlookup_leaf p v k : tlookup (leaf p v) k = if decide (p = k) then Some v else None.
Proof.
  rewrite tlookup_unfold. simpl. destruct (strip p k) as [[|b r]|] eqn:Hs.
  - apply strip_Some in Hs. rewrite app_nil_r in Hs. by rewrite decide_True.
  - apply strip_Some in Hs. subst k. destruct b; simpl; rewrite decide_False; try done;
      intros Heq; apply (f_equal length) in Heq; rewrite length_app in Heq; simpl in Heq; lia.
  - rewrite decide_False; [done|]. intros ->. by rewrite strip_self in Hs.
Qed.

Lemma drop_nth_split (c p' : list bool) b :
  drop (length c + 1) (c ++ b :: p') = p' ∧ nth (length c) (c ++ b :: p') false = b.
Proof.
  split.
  - rewrite <- drop_drop, drop_app_length. done.
  - apply nth_lookup_Some. rewrite lookup_app_r, Nat.sub_diag by done. done.
Qed.

(** The split case of [tput], with the three pieces named. *)
Lemma tput_split t k v c b p' :
  strip (tpath t) k = None → lcp k (tpath t) = c → tpath t = c ++ b :: p' →
  tput t k v =
    match drop (length c) k with
    | [] => branch c (Some v) b (Some (mkTree p' (tval t) (tleft t) (tright t))) None
    | _ :: r =>
        branch c None b (Some (mkTree p' (tval t) (tleft t) (tright t))) (Some (leaf r v))
    end.
Proof.
  intros Hs Hc Hp. destruct t as [p w l r]. cbn [tpath tval tleft tright] in *.
  cbn [tput tpath tval tleft tright]. rewrite Hs. cbn zeta. rewrite Hc, Hp.
  by destruct (drop_nth_split c p' b) as [-> ->].
Qed.

#[global] Arguments tput : simpl never.

(** Insertion into the node a split makes. *)
Lemma tput_branch c b x k v : (k = c ∨ ∃ k', k = c ++ negb b :: k') →
  tput (branch c None b (Some x) None) k v =
    match drop (length c) k with
    | [] => branch c (Some v) b (Some x) None
    | _ :: r => branch c None b (Some x) (Some (leaf r v))
    end.
Proof.
  assert (tpath (branch c None b (Some x) None) = c) as Hp by by destruct b.
  intros [->|[k' ->]].
  - rewrite tput_here by by rewrite Hp, strip_self. rewrite drop_all. by destruct b.
  - rewrite (tput_below _ _ _ (negb b) k') by by rewrite Hp, strip_app.
    rewrite drop_app_length. by destruct b.
Qed.

Lemma tlookup_set_child t b o k :
  tlookup (set_child t b o) k =
    match strip (tpath t) k with
    | None => None
    | Some [] => tval t
    | Some (b' :: r) => olookup (if Bool.eqb b b' then o else child t b') r
    end.
Proof.
  rewrite tlookup_unfold. destruct t as [p v l r'], b; simpl;
    by destruct (strip p k) as [[|[] ?]|].
Qed.

Lemma tlookup_tput t : ∀ k v k',
  tlookup (tput t k v) k' = if decide (k = k') then Some v else tlookup t k'.
Proof.
  induction t as [p w l r IHl IHr] using tree_rect'. intros k v k'.
  destruct (strip p k) as [[|b rest]|] eqn:Hs.
  - (* the key ends here *)
    rewrite tput_here, !tlookup_unfold by done. cbn [tpath tval].
    apply strip_Some in Hs. rewrite app_nil_r in Hs. subst k.
    case_decide as Hd; [subst; by rewrite strip_self|].
    destruct (strip p k') as [[|b' r']|] eqn:Hs'; try done.
    apply strip_Some in Hs'. rewrite app_nil_r in Hs'. congruence.
  - (* the key goes on below *)
    rewrite (tput_below _ _ _ b rest) by done.
    rewrite tlookup_set_child, tlookup_unfold. apply strip_Some in Hs. subst k. cbn [tpath tval].
    destruct (strip p k') as [[|b' r']|] eqn:Hs'.
    + apply strip_Some in Hs'. subst k'. rewrite decide_False; [done|].
      intros Heq%app_inv_head. done.
    + apply strip_Some in Hs'. subst k'.
      destruct (Bool.eqb_spec b b') as [<-|Hne].
      * assert (olookup (oput (child (mkTree p w l r) b) rest v) r' =
          if decide (rest = r') then Some v else olookup (child (mkTree p w l r) b) r') as ->.
        { unfold oput, child. simpl. destruct b; simpl.
          - destruct r as [c|]; [by apply IHr|apply tlookup_leaf].
          - destruct l as [c|]; [by apply IHl|apply tlookup_leaf]. }
        do 2 case_decide; subst; try done.
        all: match goal with H : _ ≠ _ |- _ => exfalso; apply H end; try congruence.
        by match goal with H : _ ++ _ = _ ++ _ |- _ => apply app_inv_head in H; injection H end.
      * rewrite decide_False; [done|]. intros Heq%app_inv_head. congruence.
    + rewrite decide_False; [done|]. intros <-. by rewrite strip_app in Hs'.
  - (* the path is split *)
    destruct (strip_None_split p k Hs) as (c & b & p' & Hc & Hp & Hk).
    rewrite (tput_split _ _ _ c b p') by done. subst p. rewrite tlookup_cut. simpl.
    destruct Hk as [->|(k1 & ->)].
    + rewrite drop_all, tlookup_branch.
      destruct (strip c k') as [[|b' r']|] eqn:Hs'.
      * apply strip_Some in Hs'. rewrite app_nil_r in Hs'. by rewrite decide_True.
      * apply strip_Some in Hs'. subst k'. rewrite decide_False.
        { by destruct (Bool.eqb b b'). }
        intros Heq. by apply (f_equal (drop (length c))) in Heq;
          rewrite drop_all, drop_app_length in Heq.
      * rewrite decide_False; [done|]. intros ->. by rewrite strip_self in Hs'.
    + rewrite drop_app_length, tlookup_branch.
      destruct (strip c k') as [[|b' r']|] eqn:Hs'.
      * apply strip_Some in Hs'. subst k'. rewrite decide_False; [done|].
        rewrite app_nil_r. intros Heq. apply (f_equal (drop (length c))) in Heq.
        by rewrite drop_all, drop_app_length in Heq.
      * apply strip_Some in Hs'. subst k'.
        destruct (Bool.eqb_spec b b') as [<-|Hne]; simpl.
        { rewrite decide_False; [done|]. intros Heq%app_inv_head. by destruct b. }
        rewrite tlookup_leaf. assert (negb b = b') as <- by (by destruct b, b').
        do 2 case_decide; subst; try done.
        all: match goal with H : _ ≠ _ |- _ => exfalso; apply H end; try congruence.
        by match goal with H : _ ++ _ = _ ++ _ |- _ => apply app_inv_head in H; injection H end.
      * rewrite decide_False; [done|]. intros <-. by rewrite strip_app in Hs'.
Qed.

Lemma olookup_collapse p v l r k :
  olookup (collapse p v l r) k = tlookup (mkTree p v l r) k.
Proof.
  destruct v as [v|], l as [[pl vl ll lr]|], r as [[pr vr rl rr]|]; simpl; try done.
  - rewrite tlookup_cut, tlookup_unfold. simpl. by destruct (strip p k) as [[|[] ?]|].
  - rewrite tlookup_cut, tlookup_unfold. simpl. by destruct (strip p k) as [[|[] ?]|].
  - rewrite tlookup_unfold. simpl. by destruct (strip p k) as [[|[] ?]|].
Qed.

Lemma tdelete_below rd t k b r : strip (tpath t) k = Some (b :: r) →
  tdelete_with rd t k =
    let c := match child t b with Some c => tdelete_with rd c r | None => None end in
    collapse (tpath t) (tval t) (if b then tleft t else c) (if b then c else tright t).
Proof. destruct t. simpl. intros ->. by destruct b. Qed.

Lemma tdelete_here rd t k : strip (tpath t) k = Some [] →
  tdelete_with rd t k =
    match tval t with
    | None => Some t
    | Some _ => if rd then None else collapse (tpath t) None (tleft t) (tright t)
    end.
Proof. destruct t. simpl. by intros ->. Qed.

Lemma tdelete_outside rd t k : strip (tpath t) k = None → tdelete_with rd t k = Some t.
Proof. destruct t. simpl. by intros ->. Qed.

#[global] Arguments tdelete_with : simpl never.

(** The keys a deletion at [k] takes away. *)
Definition removed (rd : bool) (t : tree) (k k' : list bool) : Prop :=
  k = k' ∨ (rd = true ∧ is_Some (tlookup t k) ∧ k `prefix_of` k').

#[global] Instance removed_dec rd t k k' : Decision (removed rd t k k').
Proof. unfold removed. apply _. Defined.

Lemma app_cons_inj (p : list bool) b r b' r' : p ++ b :: r = p ++ b' :: r' ↔ b = b' ∧ r = r'.
Proof.
  split; [intros Heq%app_inv_head; by injection Heq as -> ->|by intros [-> ->]].
Qed.

Lemma app_cons_prefix (p : list bool) b r b' r' :
  p ++ b :: r `prefix_of` p ++ b' :: r' ↔ b = b' ∧ r `prefix_of` r'.
Proof.
  split.
  - intros [q Hq]. rewrite <- app_assoc in Hq. apply app_inv_head in Hq.
    injection Hq as -> ->. split; [done|by exists q].
  - intros [-> [q ->]]. exists q. by rewrite <- app_assoc.
Qed.

Lemma removed_below rd t k b r k' b' r' :
  strip (tpath t) k = Some (b :: r) → strip (tpath t) k' = Some (b' :: r') →
  removed rd t k k' ↔
    b = b' ∧ (r = r' ∨ (rd = true ∧ is_Some (olookup (child t b) r) ∧ r `prefix_of` r')).
Proof.
  intros Hs Hs'. unfold removed. rewrite tlookup_unfold, Hs.
  apply strip_Some in Hs, Hs'. subst k k'. rewrite app_cons_inj, app_cons_prefix. naive_solver.
Qed.

Lemma olookup_tdelete_with rd t : ∀ k k',
  olookup (tdelete_with rd t k) k' = if decide (removed rd t k k') then None else tlookup t k'.
Proof.
  induction t as [p w l r IHl IHr] using tree_rect'. intros k k'.
  destruct (strip p k) as [[|b rest]|] eqn:Hs.
  - rewrite tdelete_here by done. cbn [tval tpath tleft tright].
    pose proof (tlookup_unfold (mkTree p w l r) k) as Hk. cbn [tpath tval] in Hk. rewrite Hs in Hk.
    apply strip_Some in Hs. rewrite app_nil_r in Hs. subst k.
    destruct w as [w|].
    + destruct rd; cbn [olookup].
      * case_decide as Hd; [done|]. symmetry. rewrite tlookup_unfold. cbn [tpath].
        destruct (strip p k') eqn:Hs'; [|done]. exfalso. apply Hd. right.
        apply strip_Some in Hs'. subst k'. split; [done|]. split; [by rewrite Hk|by eexists].
      * rewrite olookup_collapse, tlookup_unfold, tlookup_unfold. cbn [tpath tval].
        destruct (decide (p = k')) as [<-|Hne].
        { rewrite strip_self, decide_True by (by left). done. }
        rewrite decide_False; [|unfold removed; naive_solver].
        destruct (strip p k') as [[|]|] eqn:Hs'; try done.
        apply strip_Some in Hs'. rewrite app_nil_r in Hs'. done.
    + simpl. case_decide as Hd; [|done]. destruct Hd as [<-|(_ & [? Hx] & _)]; congruence.
  - rewrite (tdelete_below _ _ _ b rest) by done. cbn zeta. rewrite olookup_collapse, tlookup_unfold.
    rewrite (tlookup_unfold (mkTree p w l r)). cbn [tpath tval].
    destruct (strip p k') as [[|b' r']|] eqn:Hs'.
    + case_decide as Hd; [|done]. apply strip_Some in Hs, Hs'. subst k k'.
      destruct Hd as [Heq|(_ & _ & Hpre)].
      * by apply app_inv_head in Heq.
      * apply prefix_app_inv, prefix_nil_inv in Hpre. done.
    + pose proof (removed_below rd (mkTree p w l r) k b rest k' b' r' Hs Hs') as Hrem.
      rewrite (decide_ext _ _ _ _ Hrem). clear Hrem. unfold child. cbn [tleft tright].
      destruct b, b'; cbn [olookup].
      * destruct r as [c|]; [rewrite (IHr c eq_refl)|]; repeat case_decide; naive_solver.
      * by rewrite decide_False by naive_solver.
      * by rewrite decide_False by naive_solver.
      * destruct l as [c|]; [rewrite (IHl c eq_refl)|]; repeat case_decide; naive_solver.
    + by case_decide.
  - rewrite tdelete_outside by done. simpl. case_decide as Hd; [|done].
    destruct Hd as [<-|(_ & [x Hx] & _)]; rewrite tlookup_unfold in *; simpl in *;
      by rewrite Hs in *.
Qed.

(** ** The canonical shape *)

Lemma canonical_inv t : canonical t →
  tval t ≠ Some [] ∧ ocanonical (tleft t) ∧ ocanonical (tright t) ∧
  (is_Some (tval t) ∨ is_Some (tleft t) ∧ is_Some (tright t)).
Proof. intros []; simpl; naive_solver eauto with rustock. Qed.

Lemma canonical_child t b c : canonical t → child t b = Some c → canonical c.
Proof.
  intros (_ & Hl & Hr & _)%canonical_inv Hc.
  destruct b; simpl in Hc; rewrite Hc in *; by inversion_clear Hl; inversion_clear Hr.
Qed.

Lemma canonical_repath p q v l r : canonical (mkTree p v l r) → canonical (mkTree q v l r).
Proof. inversion_clear 1; eauto with rustock. Qed.

Lemma canonical_leaf p v : v ≠ [] → canonical (leaf p v).
Proof. unfold leaf. eauto with rustock. Qed.

Lemma canonical_mk p v l r :
  v ≠ Some [] → ocanonical l → ocanonical r →
  (is_Some v ∨ is_Some l ∧ is_Some r) → canonical (mkTree p v l r).
Proof.
  intros Hv Hl Hr Hs. destruct v as [v|]; [constructor; congruence|].
  destruct Hs as [[? ?]|[[cl ->] [cr ->]]]; [done|].
  inversion_clear Hl; inversion_clear Hr. by constructor.
Qed.

Lemma ocanonical_oput o k v : (∀ t, o = Some t → canonical (tput t k v)) → v ≠ [] →
  ocanonical (oput o k v).
Proof. intros Ho Hv. constructor. destruct o; [by apply Ho|by apply canonical_leaf]. Qed.

Lemma canonical_tput t : ∀ k v, canonical t → v ≠ [] → canonical (tput t k v).
Proof.
  induction t as [p w l r IHl IHr] using tree_rect'. intros k v Hc Hv.
  destruct (canonical_inv _ Hc) as (Hw & Hl & Hr & Hs). cbn [tval tleft tright] in *.
  destruct (strip p k) as [[|b rest]|] eqn:Hst.
  - rewrite tput_here by done. by apply canonical_value.
  - rewrite (tput_below _ _ _ b rest) by done.
    destruct b; simpl; apply canonical_mk; try done.
    + apply ocanonical_oput; [|done]. intros c ->. inversion_clear Hr. by apply IHr.
    + destruct Hs as [?|[? ?]]; [by left|right]. by split; [|eexists].
    + apply ocanonical_oput; [|done]. intros c ->. inversion_clear Hl. by apply IHl.
    + destruct Hs as [?|[? ?]]; [by left|right]. by split; [eexists|].
  - destruct (strip_None_split p k Hst) as (c & b & p' & Hlcp & Hp & Hk).
    rewrite (tput_split _ _ _ c b p') by done. cbn [tval tleft tright].
    assert (canonical (mkTree p' w l r)) as Hc' by by eapply canonical_repath.
    destruct Hk as [->|(k1 & ->)].
    + rewrite drop_all. destruct b; simpl; eauto with rustock.
    + rewrite drop_app_length. assert (canonical (leaf k1 v)) by by apply canonical_leaf.
      destruct b; simpl; eauto with rustock.
Qed.

Lemma ocanonical_collapse p v l r :
  v ≠ Some [] → ocanonical l → ocanonical r → ocanonical (collapse p v l r).
Proof.
  intros Hv Hl Hr. destruct v as [v|].
  - simpl. constructor. constructor; congruence.
  - destruct Hl as [|[pl vl ll lr] Hl], Hr as [|[pr vr rl rr] Hr]; simpl; constructor;
      [by eapply canonical_repath..|by constructor].
Qed.

Lemma canonical_tdelete rd t : ∀ k, canonical t → ocanonical (tdelete_with rd t k).
Proof.
  induction t as [p w l r IHl IHr] using tree_rect'. intros k Hc.
  destruct (canonical_inv _ Hc) as (Hw & Hl & Hr & Hs). cbn [tval tleft tright] in *.
  destruct (strip p k) as [[|b rest]|] eqn:Hst.
  - rewrite tdelete_here by done. cbn [tval tpath tleft tright].
    destruct w; [|by constructor]. destruct rd; [constructor|by apply ocanonical_collapse].
  - rewrite (tdelete_below _ _ _ b rest) by done. cbn [tval tpath tleft tright].
    apply ocanonical_collapse; [done|..]; destruct b; try done; unfold child; simpl.
    + destruct l as [c|]; [|constructor]. inversion_clear Hl. by apply IHl.
    + destruct r as [c|]; [|constructor]. inversion_clear Hr. by apply IHr.
  - rewrite tdelete_outside by done. by constructor.
Qed.

(** Every canonical tree holds some key, and all its keys extend its path. *)
Lemma canonical_nonempty t : canonical t → ∃ k v, tlookup t (tpath t ++ k) = Some v.
Proof.
  induction t as [p w l r IHl IHr] using tree_rect'. intros Hc.
  destruct (canonical_inv _ Hc) as (Hw & Hl & Hr & [[v Hv]|[[c Hlc] _]]); simpl in *.
  - exists [], v. by rewrite tlookup_unfold, strip_app.
  - destruct (IHl c Hlc) as (k & v & Hk); [by eapply (canonical_child _ false)|].
    exists (false :: tpath c ++ k), v. rewrite tlookup_unfold, strip_app. simpl. by rewrite Hlc.
Qed.

Lemma tlookup_prefix t k v : tlookup t k = Some v → tpath t `prefix_of` k.
Proof.
  rewrite tlookup_unfold. destruct (strip (tpath t) k) eqn:Hs; [|done].
  intros _. apply strip_Some in Hs as ->. by eexists.
Qed.

(** A key on each side of a node with two children. *)
Lemma canonical_branches t b c : canonical t → child t b = Some c →
  ∃ k v, tlookup t (tpath t ++ b :: k) = Some v.
Proof.
  intros Hc Hch. destruct (canonical_nonempty c) as (k & v & Hk); [by eapply canonical_child|].
  exists (tpath c ++ k), v. rewrite tlookup_unfold, strip_app. by rewrite Hch.
Qed.

(** The path of a canonical tree is the longest prefix its keys share. *)
Lemma canonical_path_max t q : canonical t →
  (∀ k v, tlookup t k = Some v → q `prefix_of` k) → q `prefix_of` tpath t.
Proof.
  intros Hc Hq. destruct (canonical_inv _ Hc) as (_ & _ & _ & [[v Hv]|[[cl Hl] [cr Hr]]]).
  - apply (Hq (tpath t) v). by rewrite tlookup_unfold, strip_self.
  - destruct (canonical_branches t false cl) as (k0 & v0 & H0); [done..|].
    destruct (canonical_branches t true cr) as (k1 & v1 & H1); [done..|].
    apply Hq in H0, H1. destruct (decide (length q ≤ length (tpath t))) as [Hle|Hgt].
    + destruct (prefix_weak_total q (tpath t) _ H0) as [?|Hp]; [by eexists|done|].
      by rewrite (prefix_length_eq _ _ Hp Hle).
    + exfalso. destruct H0 as [x Hx], H1 as [y Hy].
      apply (f_equal (lookup (length (tpath t)))) in Hx, Hy.
      rewrite lookup_app_r, Nat.sub_diag, lookup_app_l in Hx, Hy by lia. simpl in *. congruence.
Qed.

Lemma canonical_unique t1 : ∀ t2,
  canonical t1 → canonical t2 → (∀ k, tlookup t1 k = tlookup t2 k) → t1 = t2.
Proof.
  induction t1 as [p1 w1 l1 r1 IHl IHr] using tree_rect'. intros [p2 w2 l2 r2] Hc1 Hc2 Heq.
  assert (p1 = p2) as <-.
  { apply (anti_symm prefix).
    - apply (canonical_path_max (mkTree p2 w2 l2 r2)); [done|].
      intros k v Hk. rewrite <- Heq in Hk. by apply tlookup_prefix in Hk.
    - apply (canonical_path_max (mkTree p1 w1 l1 r1)); [done|].
      intros k v Hk. rewrite Heq in Hk. by apply tlookup_prefix in Hk. }
  assert (w1 = w2) as <-.
  { specialize (Heq p1). rewrite !tlookup_unfold in Heq. simpl in Heq.
    by rewrite strip_self in Heq. }
  assert (∀ b k, olookup (child (mkTree p1 w1 l1 r1) b) k
               = olookup (child (mkTree p1 w1 l2 r2) b) k) as Hch.
  { intros b k. specialize (Heq (p1 ++ b :: k)). rewrite !tlookup_unfold in Heq.
    cbn [tpath] in Heq. by rewrite strip_app in Heq. }
  assert (∀ o1 o2, (∀ c, o1 = Some c → ∀ t2, canonical c → canonical t2 →
      (∀ k, tlookup c k = tlookup t2 k) → c = t2) → ocanonical o1 → ocanonical o2 →
      (∀ k, olookup o1 k = olookup o2 k) → o1 = o2) as Hopt.
  { intros o1 o2 IH Ho1 Ho2 Ho. destruct Ho1 as [|c1 Ho1], Ho2 as [|c2 Ho2]; [done|..].
    - destruct (canonical_nonempty c2) as (k & v & Hk); [done|].
      specialize (Ho (tpath c2 ++ k)). simpl in Ho. congruence.
    - destruct (canonical_nonempty c1) as (k & v & Hk); [done|].
      specialize (Ho (tpath c1 ++ k)). simpl in Ho. congruence.
    - f_equal. by apply (IH c1). }
  destruct (canonical_inv _ Hc1) as (_ & Hl1 & Hr1 & _).
  destruct (canonical_inv _ Hc2) as (_ & Hl2 & Hr2 & _). simpl in *.
  f_equal; apply Hopt; try done; intros k; [apply (Hch false)|apply (Hch true)].
Qed.
Lemma ocanonical_unique o1 o2 :
  ocanonical o1 → ocanonical o2 → (∀ k, olookup o1 k = olookup o2 k) → o1 = o2.
Proof.
  intros H1 H2 Heq. destruct H1 as [|t1 H1], H2 as [|t2 H2]; simpl in Heq.
  - done.
  - destruct (canonical_nonempty t2 H2) as (k & v & Hk). by rewrite <- Heq in Hk.
  - destruct (canonical_nonempty t1 H1) as (k & v & Hk). by rewrite Heq in Hk.
  - f_equal. by apply canonical_unique.
Qed.

Lemma canonical_value_nonempty t : ∀ k v, canonical t → tlookup t k = Some v → v ≠ [].
Proof.
  induction t as [p w l r IHl IHr] using tree_rect'. intros k v Hc.
  rewrite tlookup_unfold. cbn [tpath tval child tleft tright].
  pose proof (canonical_inv _ Hc) as (Hw & _). simpl in Hw.
  destruct (strip p k) as [[|b rest]|]; [congruence| |done].
  destruct b; [destruct r as [r|]|destruct l as [l|]]; simpl; try done; intros Hk.
  - eapply (IHr r); [done| |done]. by apply (canonical_child _ true _ Hc).
  - eapply (IHl l); [done| |done]. by apply (canonical_child _ false _ Hc).
Qed.

End Unitrie.
