(* ===== verification/NodeCodec.v ===== *)
(** * The RSKIP107 message codec of crates/trie/src/node.rs

    [to_message] writes exactly [message_length] bytes; [try_from_message] is
    total on every byte string (its nesting is bounded by the length of the
    message); and a message parses back to the node it was written from, with
    the children that are not embedded replaced by their hashes. *)
From S2P Require Import Prelude Path Varint Store Node.
From stdpp Require Import options.

Module NodeCodec.
Import Store Node.
Local Open Scope Z_scope.

Section codec.
Context `{Keccak}.

(** Induction through the in-memory children. *)
Lemma node_rect' (P : TrieNode → Prop) :
  (∀ n, (∀ c, left_ref n = RefNode c → P c) → (∀ c, right_ref n = RefNode c → P c) → P n) →
  ∀ n, P n.
Proof.
  intros HP. fix IH 1. intros [p v vh ll l r cs sv]. apply HP; simpl.
  - intros c Hc. destruct l as [|h|l]; try discriminate. injection Hc as <-. apply IH.
  - intros c Hc. destruct r as [|h|r]; try discriminate. injection Hc as <-. apply IH.
Qed.

Lemma message_length_eq n :
  message_length n =
    message_length_with n (ref_serialized_length (left_ref n)) (ref_serialized_length (right_ref n)).
Proof. destruct n as [p v vh ll l r cs sv]. destruct l, r; reflexivity. Qed.

Lemma to_message_eq n :
  to_message n =
    to_message_with n (ref_serialize_into (left_ref n)) (ref_serialize_into (right_ref n)).
Proof. destruct n as [p v vh ll l r cs sv]. destruct l, r; reflexivity. Qed.

(** ** Lengths *)

(** The hashes a node holds are 32 bytes long, as [B256] makes them. *)
Definition ref_hash_ok (r : NodeRef TrieNode) : Prop :=
  match r with RefHash h => length h = 32%nat | _ => True end.

Inductive hashes_ok : TrieNode → Prop :=
  | hashes_ok_intro n :
      (∀ h, value_hash n = Some h → length h = 32%nat) →
      ref_hash_ok (left_ref n) → ref_hash_ok (right_ref n) →
      (∀ c, left_ref n = RefNode c → hashes_ok c) →
      (∀ c, right_ref n = RefNode c → hashes_ok c) →
      hashes_ok n.

Lemma length_get_value_hash n :
  (∀ h, value_hash n = Some h → length h = 32%nat) → length (get_value_hash n) = 32%nat.
Proof.
  intros Hh. unfold get_value_hash. destruct (value_hash n); [by apply Hh|].
  destruct (value n); [apply length_keccak|done].
Qed.

Lemma length_message_value n :
  (∀ h, value_hash n = Some h → length h = 32%nat) →
  (value n = None → long_value_len n = None ∨ has_long_value n = true) →
  length (message_value n) = (if has_long_value n then 32 + 3 else value_length n)%nat.
Proof.
  intros Hh Hv. unfold message_value. destruct (has_long_value n) eqn:Hl.
  - rewrite length_app, length_get_value_hash by done. done.
  - unfold value_length in *. destruct (value n); [done|].
    destruct Hv as [->|]; done.
Qed.

Lemma length_compute_hash n : length (compute_hash n) = 32%nat.
Proof. unfold compute_hash, empty_trie_hash. case_match; apply length_keccak. Qed.

(** A long value that is not in hand is longer than 32 bytes, as every long
    value is. *)
Inductive values_ok : TrieNode → Prop :=
  | values_ok_intro n :
      (value n = None → long_value_len n = None ∨ has_long_value n = true) →
      (∀ c, left_ref n = RefNode c → values_ok c) →
      (∀ c, right_ref n = RefNode c → values_ok c) →
      values_ok n.

Lemma length_to_message n : hashes_ok n → values_ok n →
  length (to_message n) = message_length n.
Proof.
  induction n as [n IHl IHr] using node_rect'. intros Hh Hv.
  inversion_clear Hh as [? Hvh Hhl Hhr Hcl Hcr]. inversion_clear Hv as [? Hvn Hvl Hvr].
  rewrite to_message_eq, message_length_eq. unfold to_message_with, message_length_with.
  rewrite !length_app, SharedPath.length_serialize, length_message_value by done.
  assert (∀ r, (∀ c, r = RefNode c → length (to_message c) = message_length c) → ref_hash_ok r →
    length (ref_serialize_into r) = ref_serialized_length r) as Href.
  { intros [|h|c] Hr Hok; simpl; [done|done|].
    destruct (is_embeddable c); [simpl; by rewrite Hr|apply length_compute_hash]. }
  rewrite !Href by (done || intros; auto).
  destruct (is_terminal n); [|rewrite Varint.length_encode_varint]; simpl; lia.
Qed.

(** ** Reading *)

(** The reader in the middle of a message. *)
Definition reader_at (pre post : bytes) : Reader := mkReader (pre ++ post) (length pre).

Lemma reader_at_step pre x post :
  mkReader (pre ++ x ++ post) (length pre + length x) = reader_at (pre ++ x) post.
Proof. unfold reader_at. by rewrite <- app_assoc, length_app. Qed.

Lemma reader_byte_at pre b post :
  reader_byte (reader_at pre (b :: post)) = Some (b, reader_at (pre ++ [b]) post).
Proof.
  unfold reader_byte, reader_at at 1 2. simpl.
  rewrite lookup_app_r, Nat.sub_diag by done. simpl.
  by rewrite <- (reader_at_step pre [b] post).
Qed.

Lemma reader_take_at pre x post n : n = length x →
  reader_take n (reader_at pre (x ++ post)) = Some (x, reader_at (pre ++ x) post).
Proof.
  intros ->. unfold reader_take, reader_at at 1 2 3 4 5. simpl.
  rewrite decide_True by (rewrite !length_app; lia).
  rewrite <- reader_at_step. f_equal. f_equal. unfold slice.
  rewrite drop_app_length. apply take_app_length'. lia.
Qed.

Lemma reader_varint_wide pre first n x post :
  varint_width first = S n → (first <=? 252) = false → fits (8 * Z.of_nat n) x →
  reader_varint (reader_at pre ((first :: le_bytes n x) ++ post))
  = Some (x, reader_at (pre ++ first :: le_bytes n x) post).
Proof.
  intros Hw Hf Hx. unfold reader_varint. unfold reader_at at 1 2. simpl rdata. simpl rpos.
  rewrite lookup_app_r, Nat.sub_diag by done. cbn [app lookup list_lookup mbind option_bind].
  change (mkReader (pre ++ first :: le_bytes n x ++ post) (length pre))
    with (reader_at pre ((first :: le_bytes n x) ++ post)).
  unfold rbind. rewrite reader_take_at by (simpl; by rewrite length_le_bytes).
  cbn [mbind option_bind]. unfold rret. rewrite Hf. simpl drop. rewrite drop_0.
  by rewrite of_le_le_bytes.
Qed.

Lemma reader_varint_at pre v post : fits 64 v →
  reader_varint (reader_at pre (Varint.encode_varint v ++ post))
  = Some (v, reader_at (pre ++ Varint.encode_varint v) post).
Proof.
  intros Hv. unfold Varint.encode_varint. destruct (Z.ltb_spec v 253).
  - unfold reader_varint. unfold reader_at at 1 2. simpl rdata. simpl rpos.
    rewrite lookup_app_r, Nat.sub_diag by done. cbn [app lookup list_lookup mbind option_bind].
    unfold u8. rewrite wrap_small by (unfold fits in *; lia). unfold varint_width.
    destruct (Z.leb_spec v 252); [|lia]. unfold rbind.
    change (mkReader (pre ++ v :: post) (length pre)) with (reader_at pre ([v] ++ post)).
    by rewrite reader_take_at.
  - destruct (Z.leb_spec v 0xFFFF); [|destruct (Z.leb_spec v 0xFFFFFFFF)];
      unfold u16, u32; rewrite ?wrap_small by (unfold fits in *; lia);
      apply reader_varint_wide; try done; unfold fits in *; lia.
Qed.

Lemma reader_shared_path_at pre p post :
  Z.of_nat (length p) ≤ MAX_SHARED_PATH_BITS →
  reader_shared_path (negb (length p =? 0)%nat) (reader_at pre (SharedPath.serialize p ++ post))
  = Some (p, reader_at (pre ++ SharedPath.serialize p) post).
Proof.
  intros Hp. unfold MAX_SHARED_PATH_BITS in *. unfold SharedPath.serialize, reader_shared_path.
  destruct (Nat.eqb_spec (length p) 0) as [H0|H0]; cbn [negb].
  { apply length_zero_iff_nil in H0 as ->. simpl. by rewrite app_nil_r. }
  assert (∀ pre', (if Z.of_nat (length p) >? MAX_SHARED_PATH_BITS then rfail
      else rbind (reader_take (Path.encoded_len (Z.to_nat (Z.of_nat (length p)))))
             (λ encoded, rlift (Path.decode encoded (Z.to_nat (Z.of_nat (length p))))))
      (reader_at pre' (Path.encode p ++ post))
      = Some (p, reader_at (pre' ++ Path.encode p) post)) as Hbits.
  { intros pre'. rewrite Z.gtb_ltb. unfold MAX_SHARED_PATH_BITS.
    destruct (Z.ltb_spec 1024 (Z.of_nat (length p))); [lia|].
    rewrite Nat2Z.id. unfold rbind. rewrite reader_take_at by by rewrite Path.length_encode.
    cbn [mbind option_bind]. by rewrite Path.decode_encode_path. }
  rewrite <- app_assoc.
  destruct (SharedPath.serialize_length_cases (length p)) as [[Hr ->]|[[Hr ->]| ->]]; [lia|..];
    cbn [app]; unfold rbind at 1; rewrite reader_byte_at; cbn [mbind option_bind].
  - destruct (Z.leb_spec (Z.of_nat (length p) - 1) 31); [|lia].
    replace (Z.of_nat (length p) - 1 + 1) with (Z.of_nat (length p)) by lia.
    unfold rbind at 1, rret. cbn [mbind option_bind]. rewrite Hbits.
    by rewrite <- app_assoc.
  - destruct (Z.leb_spec (Z.of_nat (length p) - 128) 31); [lia|].
    destruct (Z.leb_spec (Z.of_nat (length p) - 128) 254); [|lia].
    replace (Z.of_nat (length p) - 128 + 128) with (Z.of_nat (length p)) by lia.
    unfold rbind at 1, rret. cbn [mbind option_bind]. rewrite Hbits.
    by rewrite <- app_assoc.
  - change (255 <=? 31) with false. change (255 <=? 254) with false. cbv iota.
    unfold rbind at 1. rewrite reader_varint_at by (unfold fits; lia). cbn [mbind option_bind].
    rewrite Hbits. by rewrite <- !app_assoc.
Qed.

(** ** Totality: the nesting of messages is bounded by their length *)

Lemma reader_take_inv n r x r' : reader_take n r = Some (x, r') →
  x = slice (rdata r) (rpos r) (rpos r + n) ∧ r' = mkReader (rdata r) (rpos r + n)
  ∧ (rpos r + n ≤ length (rdata r))%nat.
Proof. unfold reader_take. case_decide; intros [= <- <-]. done. Qed.

(** A reader moves forward in unchanged data. *)
Definition advances {A} (m : Read A) : Prop :=
  ∀ r a r', m r = Some (a, r') → rdata r' = rdata r ∧ (rpos r ≤ rpos r')%nat.

Lemma advances_ret {A} (a : A) : advances (rret a).
Proof. intros r ? ? [= <- <-]. done. Qed.

Lemma advances_bind {A B} (m : Read A) (f : A → Read B) :
  advances m → (∀ a, advances (f a)) → advances (rbind m f).
Proof.
  intros Hm Hf r b r'. unfold rbind. destruct (m r) as [[a r1]|] eqn:Hr; [|done]. simpl.
  intros Hb. apply Hm in Hr as [? ?]. apply Hf in Hb as [? ?]. split; [congruence|lia].
Qed.

Lemma advances_byte : advances reader_byte.
Proof.
  intros r a r'. unfold reader_byte. destruct (rdata r !! rpos r); simpl; [|done].
  intros [= <- <-]. simpl. split; [done|lia].
Qed.

Lemma advances_take n : advances (reader_take n).
Proof. intros r a r' (_ & -> & ?)%reader_take_inv. simpl. split; [done|lia]. Qed.

Lemma advances_varint : advances reader_varint.
Proof.
  intros r a r'. unfold reader_varint. destruct (rdata r !! rpos r) as [f|]; [|done]. simpl.
  apply (advances_bind (reader_take _)); [apply advances_take|intros; apply advances_ret].
Qed.

Lemma advances_lift {A} (o : option A) : advances (rlift o).
Proof. intros r a r'. unfold rlift. destruct o; simpl; [|done]. by intros [= <- <-]. Qed.

Lemma advances_fail {A} : advances (A:=A) rfail.
Proof. by intros r a r'. Qed.

#[local] Hint Resolve @advances_ret @advances_bind advances_byte advances_take advances_varint
  @advances_lift @advances_fail : rustock.

Lemma advances_shared_path b : advances (reader_shared_path b).
Proof.
  unfold reader_shared_path. destruct b; [|auto with rustock].
  apply advances_bind; [auto with rustock|]. intros f. apply advances_bind.
  - repeat case_match; auto with rustock.
  - intros l. case_match; auto with rustock.
Qed.

Lemma advances_child rec p e : advances (reader_child rec p e).
Proof. unfold reader_child. repeat case_match; auto 10 with rustock. Qed.

(** [reader_child] calls [rec] on bodies shorter than the message only. *)
Lemma reader_child_ext rec rec' p e r :
  (0 < rpos r)%nat →
  (∀ body, (length body < length (rdata r))%nat → rec body = rec' body) →
  reader_child rec p e r = reader_child rec' p e r.
Proof.
  intros Hr Hrec. unfold reader_child. destruct p, e; simpl; try reflexivity.
  unfold rbind. destruct (reader_byte r) as [[b r1]|] eqn:Hb; [|done]. simpl.
  destruct (reader_take (Z.to_nat b) r1) as [[body r2]|] eqn:Ht; [|done]. simpl.
  apply advances_byte in Hb as [Hd Hp]. apply reader_take_inv in Ht as (-> & -> & Hle).
  unfold rlift. rewrite Hrec; [done|]. rewrite length_slice by lia. rewrite Hd in *. lia.
Qed.

Lemma read_node_ext {St} `{TrieStore St} (store : St) rec rec' data :
  (∀ body, (length body < length data)%nat → rec body = rec' body) →
  read_node store rec (mkReader data 0) = read_node store rec' (mkReader data 0).
Proof.
  intros Hrec. unfold read_node, rbind.
  destruct (reader_byte (mkReader data 0)) as [[flags r0]|] eqn:Hb; [|done]. simpl.
  unfold reader_byte in Hb. simpl in Hb. destruct (data !! 0%nat) as [z|]; [|done].
  simpl in Hb. injection Hb as <- <-.
  destruct (reader_shared_path _ _) as [[path r1]|] eqn:Hsp; [|done]. simpl.
  apply advances_shared_path in Hsp as [Hd1 Hp1]. simpl in *.
  rewrite (reader_child_ext rec rec') by (rewrite ?Hd1; done || lia).
  destruct (reader_child rec' _ _ r1) as [[l r2]|] eqn:Hl; [|done]. simpl.
  apply advances_child in Hl as [Hd2 Hp2].
  by rewrite (reader_child_ext rec rec') by (rewrite ?Hd2, ?Hd1; done || lia).
Qed.

Lemma parse_fuel_stable {St} `{TrieStore St} (store : St) f : ∀ f' data,
  (length data < f)%nat → (length data < f')%nat →
  parse_fuel f store data = parse_fuel f' store data.
Proof.
  induction f as [|f IH]; intros [|f'] data Hf Hf'; try lia. simpl. f_equal.
  apply read_node_ext. intros body Hb. apply IH; lia.
Qed.

Lemma try_from_message_eq {St} `{TrieStore St} (store : St) data :
  try_from_message store data =
    fst <$> read_node store (try_from_message store) (mkReader data 0).
Proof.
  unfold try_from_message at 1. simpl. f_equal. apply read_node_ext.
  intros body Hb. apply parse_fuel_stable; lia.
Qed.

(** ** Round trip *)

(** What a node must satisfy for its message to determine it: a path the parser
    accepts, sizes in range, and a value whose hash is right and which, when it
    is long, fits the three length bytes and is in the store. *)
Definition value_ok {St} `{TrieStore St} (store : St) (n : TrieNode) : Prop :=
  match value n with
  | Some v =>
      v ≠ [] ∧ value_hash n = Some (keccak v) ∧
      ((32 < length v)%nat → fits 24 (Z.of_nat (length v)) ∧ ts_get store (keccak v) = Some v)
  | None => value_hash n = None ∧ long_value_len n = None
  end.

Definition node_ok {St} `{TrieStore St} (store : St) (n : TrieNode) : Prop :=
  Z.of_nat (length (shared_path n)) ≤ MAX_SHARED_PATH_BITS ∧
  fits 64 (children_size n) ∧ (is_terminal n = true → children_size n = 0) ∧
  value_ok store n.

Definition ref_ok {St} `{TrieStore St} (store : St) (r : NodeRef TrieNode) : Prop :=
  match r with
  | RefEmpty => True
  | RefHash h => length h = 32%nat
  | RefNode c => is_embeddable c = true → node_ok store c
  end.

(** The node as its message brings it back. *)
Definition reload_with (n : TrieNode) (l r : NodeRef TrieNode) : TrieNode :=
  mkTrieNode (shared_path n) (value n) (value_hash n)
    (if has_long_value n then Some (Z.of_nat (value_length n)) else None)
    l r (children_size n) false.

Definition reload_ref (r : NodeRef TrieNode) : NodeRef TrieNode :=
  match r with
  | RefNode c =>
      if is_embeddable c then RefNode (reload_with c RefEmpty RefEmpty)
      else RefHash (compute_hash c)
  | _ => r
  end.

Definition reload (n : TrieNode) : TrieNode :=
  reload_with n (reload_ref (left_ref n)) (reload_ref (right_ref n)).

Lemma mask_set_flags n :
  mask_set (message_flags n) 0x20 = has_long_value n ∧
  mask_set (message_flags n) 0x10 = negb (length (shared_path n) =? 0)%nat ∧
  mask_set (message_flags n) 0x08 = negb (ref_is_empty (left_ref n)) ∧
  mask_set (message_flags n) 0x04 = negb (ref_is_empty (right_ref n)) ∧
  mask_set (message_flags n) 0x02 = ref_is_embeddable (left_ref n) ∧
  mask_set (message_flags n) 0x01 = ref_is_embeddable (right_ref n).
Proof.
  unfold mask_set, message_flags, flag.
  destruct (has_long_value n), (length (shared_path n) =? 0)%nat,
    (ref_is_empty (left_ref n)), (ref_is_empty (right_ref n)),
    (ref_is_embeddable (left_ref n)), (ref_is_embeddable (right_ref n));
    vm_compute; repeat split.
Qed.

Lemma reader_value_at {St} `{TrieStore St} (store : St) n pre :
  value_ok store n →
  ∃ r, reader_value store (has_long_value n) (reader_at pre (message_value n))
       = Some ((value n, value_hash n,
                if has_long_value n then Some (Z.of_nat (value_length n)) else None), r).
Proof.
  intros Hok. unfold message_value, reader_value, value_ok, has_long_value, value_length in *.
  destruct (value n) as [v|] eqn:Hv.
  - destruct Hok as (Hne & Hvh & Hlong). destruct (Nat.ltb_spec 32 (length v)) as [Hl|Hl].
    + destruct (Hlong Hl) as [Hf Hget]. unfold rbind. unfold get_value_hash. rewrite Hvh.
      rewrite reader_take_at by by rewrite length_keccak. cbn [mbind option_bind].
      unfold u32. rewrite wrap_small by (eapply fits_weaken, Hf; lia).
      rewrite <- (app_nil_r [_; _; _]), reader_take_at by done. cbn [mbind option_bind nth].
      rewrite u24_roundtrip by done. rewrite Hget, decide_True by done. by eexists.
    + unfold reader_at. cbn [rdata rpos]. rewrite length_app.
      rewrite decide_True by (destruct v; [done|simpl; lia]). rewrite drop_app_length.
      rewrite Hvh. by eexists.
  - destruct Hok as [Hvh Hll]. rewrite Hll. cbn [default].
    change (Z.to_nat 0) with 0%nat. change (32 <? 0)%nat with false. cbv iota.
    unfold reader_at. cbn [rdata rpos]. rewrite app_nil_r, decide_False by lia.
    rewrite Hvh. by eexists.
Qed.

Lemma embeddable_length n : is_embeddable n = true → (message_length n ≤ 44)%nat.
Proof.
  unfold is_embeddable, MAX_EMBEDDED_NODE_SIZE. intros [_ Hl]%andb_true_iff.
  by apply Nat.leb_le in Hl.
Qed.

Lemma embeddable_terminal n : is_embeddable n = true →
  left_ref n = RefEmpty ∧ right_ref n = RefEmpty.
Proof.
  unfold is_embeddable, is_terminal. intros [Ht _]%andb_true_iff.
  apply andb_true_iff in Ht as [Hl Hr]. by destruct (left_ref n), (right_ref n).
Qed.

Lemma value_ok_hash {St} `{TrieStore St} (store : St) n h :
  value_ok store n → value_hash n = Some h → length h = 32%nat.
Proof.
  unfold value_ok. destruct (value n) as [v|].
  - intros (_ & -> & _) [= <-]. apply length_keccak.
  - intros [-> _]. done.
Qed.

Lemma value_ok_long {St} `{TrieStore St} (store : St) n :
  value_ok store n → value n = None → long_value_len n = None ∨ has_long_value n = true.
Proof. unfold value_ok. destruct (value n); naive_solver. Qed.

Lemma length_to_message_embedded {St} `{TrieStore St} (store : St) n :
  node_ok store n → is_embeddable n = true → length (to_message n) = message_length n.
Proof.
  intros (_ & _ & _ & Hv) [Hl Hr]%embeddable_terminal. apply length_to_message.
  - constructor; rewrite ?Hl, ?Hr; try done. intros. by eapply value_ok_hash.
  - constructor; rewrite ?Hl, ?Hr; try done. intros. by eapply value_ok_long.
Qed.

(** The message of a node, read with a parser that is right on embedded
    messages. *)
Lemma read_node_to_message {St} `{TrieStore St} (store : St) rec n :
  node_ok store n → ref_ok store (left_ref n) → ref_ok store (right_ref n) →
  (∀ c, node_ok store c → is_embeddable c = true →
     left_ref n = RefNode c ∨ right_ref n = RefNode c →
     rec (to_message c) = Some (reload_with c RefEmpty RefEmpty)) →
  fst <$> read_node store rec (mkReader (to_message n) 0) = Some (reload n).
Proof.
  intros (Hp & Hcs & Hterm & Hv) Hl Hr Hrec. rewrite to_message_eq. unfold to_message_with, read_node.
  destruct (mask_set_flags n) as (Hf1 & Hf2 & Hf3 & Hf4 & Hf5 & Hf6).
  unfold rbind. change (mkReader ?d 0) with (reader_at [] d).
  change ([message_flags n] ++ ?x) with (message_flags n :: x).
  rewrite reader_byte_at. cbn [mbind option_bind]. rewrite Hf1, Hf2, Hf3, Hf4, Hf5, Hf6.
  rewrite reader_shared_path_at by done. cbn [mbind option_bind].
  assert (∀ r pre post, ref_ok store r →
    (∀ c, r = RefNode c → left_ref n = RefNode c ∨ right_ref n = RefNode c) →
    reader_child rec (negb (ref_is_empty r)) (ref_is_embeddable r)
      (reader_at pre (ref_serialize_into r ++ post))
    = Some (reload_ref r, reader_at (pre ++ ref_serialize_into r) post)) as Hchild.
  { intros r pre post Hok Hin. unfold reader_child.
    destruct r as [|h|c]; cbn [ref_is_empty negb ref_is_embeddable ref_serialize_into reload_ref].
    - unfold rret. by rewrite app_nil_r.
    - unfold rbind. by rewrite reader_take_at by done.
    - destruct (is_embeddable c) eqn:He.
      + unfold rbind. cbn [app]. rewrite reader_byte_at. cbn [mbind option_bind].
        pose proof (length_to_message_embedded store c (Hok He) He) as Hlen.
        pose proof (embeddable_length c He).
        unfold u8. rewrite wrap_small by (unfold fits; lia). rewrite Nat2Z.id.
        rewrite reader_take_at by done. cbn [mbind option_bind].
        rewrite Hrec by auto. cbn. by rewrite <- app_assoc.
      + unfold rbind. by rewrite reader_take_at by by rewrite length_compute_hash. }
  rewrite Hchild by auto. cbn [mbind option_bind].
  rewrite Hchild by auto. cbn [mbind option_bind].
  assert (∀ pre post, (if negb (ref_is_empty (left_ref n)) || negb (ref_is_empty (right_ref n))
      then reader_varint else rret 0)
      (reader_at pre ((if is_terminal n then [] else Varint.encode_varint (children_size n)) ++ post))
      = Some (children_size n, reader_at (pre ++ if is_terminal n then []
                else Varint.encode_varint (children_size n)) post)) as Hcsz.
  { intros pre post. unfold is_terminal in *.
    destruct (ref_is_empty (left_ref n)), (ref_is_empty (right_ref n)); simpl;
      try (by apply reader_varint_at).
    unfold rret. rewrite app_nil_r, Hterm by done. done. }
  rewrite Hcsz. cbn [mbind option_bind].
  match goal with |- context [reader_at ?p (message_value n)] =>
    destruct (reader_value_at store n p Hv) as [r' ->] end.
  done.
Qed.

Lemma try_from_to_message {St} `{TrieStore St} (store : St) n :
  node_ok store n → ref_ok store (left_ref n) → ref_ok store (right_ref n) →
  try_from_message store (to_message n) = Some (reload n).
Proof.
  intros Hn Hl Hr. rewrite try_from_message_eq. apply read_node_to_message; [done..|].
  intros c Hc He _. destruct (embeddable_terminal c He) as [Hcl Hcr].
  rewrite try_from_message_eq, read_node_to_message; rewrite ?Hcl, ?Hcr; try done.
  - unfold reload. by rewrite Hcl, Hcr.
  - intros ? ? ? [?|?]; discriminate.
Qed.

(** ** What a parsed message can be *)

Lemma rbind_inv {A B} (m : Read A) (f : A → Read B) r b r' :
  rbind m f r = Some (b, r') → ∃ a r1, m r = Some (a, r1) ∧ f a r1 = Some (b, r').
Proof. unfold rbind. destruct (m r) as [[a r1]|]; simpl; [|done]. eauto. Qed.

Lemma shared_path_bound b r p r' :
  reader_shared_path b r = Some (p, r') → Z.of_nat (length p) ≤ MAX_SHARED_PATH_BITS.
Proof.
  unfold reader_shared_path. destruct b; [|by intros [= <- <-]; vm_compute].
  intros (f & r1 & _ & (l & r2 & _ & Hl)%rbind_inv)%rbind_inv.
  rewrite Z.gtb_ltb in Hl. destruct (Z.ltb_spec MAX_SHARED_PATH_BITS l) as [|Hle]; [done|].
  apply rbind_inv in Hl as (e & r3 & _ & Hd). unfold rlift in Hd.
  destruct (Path.decode e (Z.to_nat l)) as [q|] eqn:Hq; [|done]. injection Hd as <- <-.
  unfold Path.decode in Hq. apply length_mapM in Hq. rewrite length_seq in Hq.
  unfold MAX_SHARED_PATH_BITS in *. lia.
Qed.

Lemma child_hash_bound rec p e r c r' :
  reader_child rec p e r = Some (c, r') → ref_hash_ok c.
Proof.
  unfold reader_child. destruct p, e; simpl.
  - intros (? & ? & _ & (? & ? & _ & (? & ? & _ & [= <- <-])%rbind_inv)%rbind_inv)%rbind_inv.
    done.
  - intros (h & r1 & Ht & [= <- <-])%rbind_inv. apply reader_take_inv in Ht as (-> & _ & Hle).
    simpl. rewrite length_slice by lia. lia.
  - by intros [= <- <-].
  - by intros [= <- <-].
Qed.

(** ** Properties *)

(** [to_message] writes exactly the [message_length] bytes that embedding and
    subtree sizes are decided by. *)
Theorem message_length_exact n (Hh : hashes_ok n) (Hv : values_ok n) :
  length (to_message n) = message_length n.
Proof. by apply length_to_message. Qed.

(** Parsing is total.  The fuel [try_from_message] passes is never the reason
    for a refusal (any larger one gives the same answer), and whatever bytes
    arrive, a node that is accepted has a path of at most 1024 bits and child
    hashes of 32 bytes. *)
Theorem parse_total {St} `{TrieStore St} (store : St) data :
  (∀ f, (length data < f)%nat → parse_fuel f store data = try_from_message store data)
  ∧ (∀ n, try_from_message store data = Some n →
       Z.of_nat (length (shared_path n)) ≤ 1024
       ∧ ref_hash_ok (left_ref n) ∧ ref_hash_ok (right_ref n)).
Proof.
  split; [intros; apply parse_fuel_stable; lia|]. intros n.
  rewrite try_from_message_eq. intros ((n' & r') & Hr & ->)%fmap_Some. simpl in *.
  unfold read_node in Hr. apply rbind_inv in Hr as (flags & r0 & _ & Hr).
  apply rbind_inv in Hr as (path & r1 & Hpath & Hr).
  apply rbind_inv in Hr as (l & r2 & Hl & Hr). apply rbind_inv in Hr as (r & r3 & Hright & Hr).
  apply rbind_inv in Hr as (cs & r4 & _ & Hr). apply rbind_inv in Hr as ([[v vh] ll] & r5 & _ & Hr).
  injection Hr as <- _. simpl. split_and!.
  - by eapply shared_path_bound.
  - by eapply child_hash_bound.
  - by eapply child_hash_bound.
Qed.

(** A node's message parses back to the node, with its embedded children in
    place, its other children by hash, and its long value fetched from the
    store. *)
Theorem message_roundtrip {St} `{TrieStore St} (store : St) n
    (Hn : node_ok store n) (Hl : ref_ok store (left_ref n)) (Hr : ref_ok store (right_ref n)) :
  try_from_message store (to_message n) = Some (reload n).
Proof. by apply try_from_to_message. Qed.

End codec.

#[local] Existing Instance poly_keccak.

(** A branch with an embedded leaf, a hash child and a long value. *)
Definition example_value : bytes := replicate 40 7.
Definition example_leaf : TrieNode := new_leaf [true; false; true] [1; 2; 3].
Definition example_node : TrieNode :=
  mkTrieNode [false; true] (Some example_value) (Some (keccak example_value)) None
    (RefNode example_leaf) (RefHash (replicate 32 9)) 700 false.
Definition example_store : MemoryTrieStore :=
  memory_put memory_new (keccak example_value) example_value.

Lemma example_leaf_ok : node_ok example_store example_leaf.
Proof.
  split_and!; simpl; try (unfold fits, MAX_SHARED_PATH_BITS; lia).
  unfold value_ok. simpl. split_and!; [done|done|lia].
Qed.

Lemma message_length_exact_witness :
  hashes_ok example_node ∧ length (to_message example_node) = 80%nat.
Proof.
  assert (hashes_ok example_node) as Hh.
  { apply hashes_ok_intro; [intros h [= <-]; exact (length_keccak _)|exact I|reflexivity| |].
    - intros c [= <-].
      apply hashes_ok_intro; [intros h [= <-]; exact (length_keccak _)|exact I..|discriminate|].
      discriminate.
    - discriminate. }
  assert (values_ok example_node) as Hv.
  { apply values_ok_intro; [discriminate| |discriminate]. intros c [= <-].
    apply values_ok_intro; discriminate. }
  split; [exact Hh|]. rewrite (message_length_exact example_node Hh Hv). vm_compute. reflexivity.
Defined.

Lemma message_roundtrip_witness :
  try_from_message example_store (to_message example_node) = Some (reload example_node)
  ∧ left_ref (reload example_node) = RefNode example_leaf.
Proof.
  assert (node_ok example_store example_node) as Hn.
  { refine (conj _ (conj _ (conj _ _))).
    - vm_compute. discriminate.
    - unfold fits. cbn [children_size example_node]. lia.
    - discriminate.
    - unfold value_ok. cbn [value value_hash example_node].
      refine (conj _ (conj eq_refl _)); [discriminate|]. intros _. split.
      + unfold fits, example_value. rewrite length_replicate. lia.
      + vm_compute. reflexivity. }
  split.
  - apply message_roundtrip; [exact Hn|intros _; exact example_leaf_ok|reflexivity].
  - vm_compute. reflexivity.
Defined.

End NodeCodec.
