(* ===== verification/NodeRefine.v ===== *)
(** * Refinement: the node of crates/trie/src/node.rs against the Unitrie

    [mem t] is the node that holds the abstract tree [t] entirely in memory;
    [Rep store n t] says that [n], with whatever part of it lives in [store]
    behind hashes, stands for [t].  The theorems show that the message and the
    hash of a node depend on [t] alone, and that [find], [get], [put], [delete]
    and [delete_recursive] are simulations of the abstract operations, the
    bookkeeping of [children_size] included. *)
From S2P Require Import Prelude Path Varint Store Node Unitrie NodeCodec.
From stdpp Require Import options.

Module NodeRefine.
Import Store Node Unitrie NodeCodec.
Local Open Scope Z_scope.

Section refine.
Context `{Keccak}.

(** ** The in-memory node of a tree *)

(** [reference_size] of an in-memory child; no store is involved. *)
Definition node_size (n : TrieNode) : Z :=
  u64 (u64 (children_size n + external_value_length n) + Z.of_nat (message_length n)).

Fixpoint mem (t : tree) : TrieNode :=
  let mref (o : option tree) : NodeRef TrieNode :=
    match o with Some c => RefNode (mem c) | None => RefEmpty end in
  let rsize (o : option tree) : Z :=
    match o with Some c => node_size (mem c) | None => 0 end in
  mkTrieNode (tpath t) (tval t) (keccak <$> tval t) None
    (mref (tleft t)) (mref (tright t)) (u64 (rsize (tleft t) + rsize (tright t))) false.

Definition mem_ref (o : option tree) : NodeRef TrieNode :=
  match o with Some c => RefNode (mem c) | None => RefEmpty end.

Definition size_of (o : option tree) : Z :=
  match o with Some c => node_size (mem c) | None => 0 end.

Lemma mem_eq t :
  mem t = mkTrieNode (tpath t) (tval t) (keccak <$> tval t) None
            (mem_ref (tleft t)) (mem_ref (tright t))
            (u64 (size_of (tleft t) + size_of (tright t))) false.
Proof. destruct t as [p v l r]. by destruct l, r. Qed.

#[global] Arguments mem : simpl never.

(** ** Representation *)

Section rep.
Context {St : Type} `{TrieStore St} (store : St).

(** The length kept for a long value is the length of the value. *)
Definition lvl_ok (lvl : option Z) (v : option bytes) : Prop :=
  lvl = None ∨ ∃ w, v = Some w ∧ lvl = Some (Z.of_nat (length w)).

(** The store holds the message of [t] under its hash. *)
Definition Own (t : tree) : Prop :=
  ts_get store (keccak (to_message (mem t))) = Some (to_message (mem t)).

(** What a message can carry: a path of at most [MAX_SHARED_PATH_BITS] bits and
    a value that is not empty and whose length fits its three-byte field. *)
Definition node_bounds (t : tree) : Prop :=
  Z.of_nat (length (tpath t)) ≤ MAX_SHARED_PATH_BITS ∧
  (∀ v, tval t = Some v → v ≠ [] ∧ fits 24 (Z.of_nat (length v))).

(** The store holds all of [t] but its own message: long values, and the
    messages of the descendants that are not embedded. *)
Inductive Stored : tree → Prop :=
  | stored_intro t :
      node_bounds t →
      (∀ v, tval t = Some v → (32 < length v)%nat → ts_get store (keccak v) = Some v) →
      (∀ b c, child t b = Some c → Stored c) →
      (∀ b c, child t b = Some c →
         is_empty_trie (mem c) = false ∧ (is_embeddable (mem c) = false → Own c)) →
      Stored t.

Inductive Rep : TrieNode → tree → Prop :=
  | rep_node n t :
      shared_path n = tpath t → value n = tval t → value_hash n = keccak <$> tval t →
      lvl_ok (long_value_len n) (tval t) →
      children_size n = children_size (mem t) →
      (saved n = true → Stored t ∧ (is_embeddable (mem t) = false → Own t)) →
      RepRef (left_ref n) (tleft t) → RepRef (right_ref n) (tright t) →
      Rep n t
with RepRef : NodeRef TrieNode → option tree → Prop :=
  | rep_empty : RepRef RefEmpty None
  | rep_mem n t : Rep n t → RepRef (RefNode n) (Some t)
  | rep_hash t :
      Own t → Stored t → is_embeddable (mem t) = false → is_empty_trie (mem t) = false →
      RepRef (RefHash (keccak (to_message (mem t)))) (Some t).

Scheme Rep_mind := Induction for Rep Sort Prop
with RepRef_mind := Induction for RepRef Sort Prop.

Lemma rep_ref_empty r o : RepRef r o → ref_is_empty r = match o with None => true | _ => false end.
Proof. by destruct 1. Qed.

Lemma mem_ref_empty o : ref_is_empty (mem_ref o) = match o with None => true | _ => false end.
Proof. by destruct o. Qed.

(** What a representation has in common with [mem]. *)
Lemma rep_fields n t : Rep n t →
  value_length n = value_length (mem t) ∧ has_long_value n = has_long_value (mem t) ∧
  is_terminal n = is_terminal (mem t) ∧ is_empty_trie n = is_empty_trie (mem t) ∧
  get_value_hash n = get_value_hash (mem t).
Proof.
  destruct 1 as [n t Hp Hv Hvh Hlvl Hcs Hsv Hl Hr].
  apply rep_ref_empty in Hl, Hr. rewrite mem_eq.
  unfold has_long_value, value_length, is_terminal, is_empty_trie, get_value_hash.
  cbn [value value_hash long_value_len left_ref right_ref].
  rewrite Hv, Hvh, !mem_ref_empty, Hl, Hr.
  destruct (tval t) as [v|] eqn:Ht; [done|].
  destruct Hlvl as [->|(w & ? & _)]; [done|congruence].
Qed.

Lemma rep_message_length n t : Rep n t → message_length n = message_length (mem t).
Proof.
  intros HR. induction HR as [n t Hp Hv Hvh Hlvl Hcs Hsv Hl IHl Hr IHr| |n t HR IH|t Hown Hst He Hne]
    using Rep_mind with (P0 := λ r o _, ref_serialized_length r = ref_serialized_length (mem_ref o)).
  - rewrite !message_length_eq. unfold message_length_with.
    destruct (rep_fields n t) as (Hf1 & Hf2 & Hf3 & _); [by constructor|].
    rewrite Hf1, Hf2, Hf3, Hcs, Hp, IHl, IHr, (mem_eq t) by done. done.
  - done.
  - destruct (rep_fields n t HR) as (_ & _ & Ht & _). simpl. unfold is_embeddable.
    by rewrite IH, Ht.
  - simpl. by rewrite He.
Qed.

Lemma rep_embeddable n t : Rep n t → is_embeddable n = is_embeddable (mem t).
Proof.
  intros HR. unfold is_embeddable. rewrite (rep_message_length n t HR).
  by destruct (rep_fields n t HR) as (_ & _ & -> & _).
Qed.

Lemma repref_serialized_length r o : RepRef r o →
  ref_serialized_length r = ref_serialized_length (mem_ref o).
Proof.
  destruct 1 as [|n t HR|t Hown Hst He Hne]; [done|..]; simpl.
  - by rewrite (rep_embeddable n t HR), (rep_message_length n t HR).
  - by rewrite He.
Qed.

Lemma repref_embeddable r o : RepRef r o → ref_is_embeddable r = ref_is_embeddable (mem_ref o).
Proof.
  destruct 1 as [|n t HR|t Hown Hst He Hne]; [done|..]; simpl; [by apply rep_embeddable|done].
Qed.

(** The message, and so the hash, of a node is that of the tree it stands for. *)
Lemma rep_to_message n t : Rep n t → to_message n = to_message (mem t).
Proof.
  intros HR. induction HR as [n t Hp Hv Hvh Hlvl Hcs Hsv Hl IHl Hr IHr| |n t HR IH|t Hown Hst He Hne]
    using Rep_mind with (P0 := λ r o _, ref_serialize_into r = ref_serialize_into (mem_ref o)).
  - rewrite !to_message_eq. unfold to_message_with, message_flags, message_value.
    destruct (rep_fields n t) as (Hf1 & Hf2 & Hf3 & _ & Hf5); [by constructor|].
    rewrite Hf1, Hf2, Hf3, Hf5, Hcs, Hp, IHl, IHr, Hv.
    rewrite (repref_embeddable _ _ Hl), (repref_embeddable _ _ Hr).
    rewrite (rep_ref_empty _ _ Hl), (rep_ref_empty _ _ Hr), <- !mem_ref_empty.
    rewrite (mem_eq t). done.
  - done.
  - simpl. unfold compute_hash. rewrite (rep_embeddable n t HR), IH.
    by destruct (rep_fields n t HR) as (_ & _ & _ & -> & _).
  - simpl. rewrite He. unfold compute_hash. by rewrite Hne.
Qed.

Lemma rep_compute_hash n t : Rep n t → compute_hash n = compute_hash (mem t).
Proof.
  intros HR. unfold compute_hash. rewrite (rep_to_message n t HR).
  by destruct (rep_fields n t HR) as (_ & _ & _ & -> & _).
Qed.

Lemma rep_node_size n t : Rep n t → node_size n = node_size (mem t).
Proof.
  intros HR. unfold node_size, external_value_length. rewrite (rep_message_length n t HR).
  destruct (rep_fields n t HR) as (-> & -> & _). by destruct HR as [n t ? ? ? ? -> ? ? ?].
Qed.

Lemma node_size_fits n : fits 64 (node_size n).
Proof. apply wrap_fits. lia. Qed.

Lemma size_of_fits o : fits 64 (size_of o).
Proof. destruct o; [apply node_size_fits|]. unfold fits. simpl. lia. Qed.

Lemma mem_hashes_ok t : hashes_ok (mem t) ∧ values_ok (mem t).
Proof.
  induction t as [p v l r IHl IHr] using tree_rect'. rewrite mem_eq. cbn [tpath tval tleft tright].
  split; constructor; cbn [value value_hash long_value_len left_ref right_ref].
  - intros h. destruct v; intros [= <-]. apply length_keccak.
  - by destruct l.
  - by destruct r.
  - intros c Hc. destruct l as [l|]; [|done]. injection Hc as <-. by apply IHl.
  - intros c Hc. destruct r as [r|]; [|done]. injection Hc as <-. by apply IHr.
  - by left.
  - intros c Hc. destruct l as [l|]; [|done]. injection Hc as <-. by apply IHl.
  - intros c Hc. destruct r as [r|]; [|done]. injection Hc as <-. by apply IHr.
Qed.

#[local] Arguments try_from_message : simpl never.

Lemma length_message_mem t : length (to_message (mem t)) = message_length (mem t).
Proof. apply length_to_message; apply mem_hashes_ok. Qed.

(** ** Reading through a larger store

    What is known of a node may rest on fewer entries than the store it is read through
    holds. *)

Context {Rd : Type} `{TrieStore Rd} (reader : Rd).
Context (Hext : ∀ h m, ts_get store h = Some m → ts_get reader h = Some m).

(** A stored tree parses back from its message. *)
Lemma stored_node_ok t : Stored t → node_ok reader (mem t).
Proof using Type*.
  intros [t' [Hp Hb] Hlong _ _]. rewrite mem_eq.
  split_and!; cbn [shared_path children_size]; [done|apply wrap_fits; lia| |].
  - unfold is_terminal. cbn [left_ref right_ref]. rewrite !mem_ref_empty.
    by destruct (tleft t'), (tright t').
  - unfold value_ok. cbn [value value_hash long_value_len].
    destruct (tval t') as [v|]; [|done]. destruct (Hb v) as [? ?]; [done|]. naive_solver.
Qed.

Lemma stored_child t b c : Stored t → child t b = Some c → Stored c.
Proof. destruct 1 as [t _ _ Hst _]. apply Hst. Qed.

Lemma stored_ref_ok t b : Stored t → ref_ok reader (mem_ref (child t b)).
Proof using Type*.
  intros Hst. destruct (child t b) as [c|] eqn:Hc; [|done]. intros _.
  apply stored_node_ok. by eapply stored_child.
Qed.

Lemma rep_reload_with t l r :
  RepRef l (tleft t) → RepRef r (tright t) → Rep (reload_with (mem t) l r) t.
Proof.
  intros Hl Hr. constructor; rewrite ?(mem_eq t); try done. simpl. unfold has_long_value, value_length. cbn [value long_value_len].
  destruct (tval t) as [v|]; [|by left].
  destruct (32 <? length v)%nat; [right; by eexists|by left].
Qed.

Lemma repref_reload t b : Stored t → RepRef (reload_ref (mem_ref (child t b))) (child t b).
Proof.
  intros Hst. pose proof (λ c, stored_child t b c Hst) as Hch.
  destruct Hst as [t _ _ _ Hown]. specialize (Hown b).
  destruct (child t b) as [c|]; [|constructor]. specialize (Hch c eq_refl).
  destruct (Hown c eq_refl) as [Hne Ho]. simpl. destruct (is_embeddable (mem c)) eqn:He.
  - apply rep_mem, rep_reload_with; unfold is_embeddable, is_terminal in He;
      rewrite mem_eq in He; cbn [left_ref right_ref] in He; rewrite !mem_ref_empty in He;
      destruct (tleft c), (tright c); try done; constructor.
  - unfold compute_hash. rewrite Hne. constructor; auto.
Qed.

Lemma stored_parse_reload t : Stored t →
  try_from_message reader (to_message (mem t)) = Some (reload (mem t)).
Proof using Type*.
  intros Hst. apply try_from_to_message; [by apply stored_node_ok|rewrite mem_eq..].
  - by apply (stored_ref_ok t false).
  - by apply (stored_ref_ok t true).
Qed.

Lemma stored_parse_via t : Stored t →
  ∃ n, try_from_message reader (to_message (mem t)) = Some n ∧ Rep n t.
Proof using Type*.
  intros Hst. exists (reload (mem t)). split; [by apply stored_parse_reload|].
  unfold reload. rewrite (mem_eq t) at 2 3. cbn [left_ref right_ref].
  apply rep_reload_with; [by apply (repref_reload t false)|by apply (repref_reload t true)].
Qed.

Lemma repref_size_via r o : RepRef r o → reference_size reader r = size_of o.
Proof using Type*.
  destruct 1 as [|n t HR|t Hown Hst He Hne]; [done|..]; simpl.
  - by apply rep_node_size.
  - destruct (stored_parse_via t Hst) as (n & Hparse & HR).
    rewrite (Hext _ _ Hown), Hparse, length_message_mem. unfold node_size, external_value_length.
    destruct (rep_fields n t HR) as (-> & -> & _). by destruct HR as [n t ? ? ? ? -> ? ? ?].
Qed.

Lemma repref_resolve_via r o : RepRef r o →
  match o with
  | None => resolve reader r = None
  | Some t => ∃ n, resolve reader r = Some n ∧ Rep n t
  end.
Proof using Type*.
  destruct 1 as [|n t HR|t Hown Hst He Hne]; simpl; [done|by eexists|].
  rewrite (Hext _ _ Hown). by apply stored_parse_via.
Qed.

Lemma into_owned_resolve r : into_owned reader r = resolve reader r.
Proof using Type*. by destruct r. Qed.

Lemma rep_child n t b : Rep n t → RepRef (select_child n b) (child t b).
Proof. destruct 1. by destruct b. Qed.

(** ** How a key meets a path *)

Lemma strip_lcp p key :
  (strip p key = None ∧ (length (lcp key p) < length p)%nat)
  ∨ (∃ r, strip p key = Some r ∧ key = p ++ r ∧ lcp key p = p).
Proof.
  destruct (strip p key) as [r|] eqn:Hs.
  - right. exists r. apply strip_Some in Hs as ->. by rewrite lcp_app_r.
  - left. split; [done|]. destruct (decide (length p ≤ length (lcp key p))%nat) as [Hle|]; [|lia].
    apply lcp_full_r in Hle as [r ->]. by rewrite strip_app in Hs.
Qed.

Lemma key_bit_app (p : list bool) b r : key_bit (p ++ b :: r) (length p) = b.
Proof. unfold key_bit. apply nth_lookup_Some. by rewrite lookup_app_r, Nat.sub_diag by done. Qed.

Lemma drop_app_S (p : list bool) b r : drop (length p + 1) (p ++ b :: r) = r.
Proof. by rewrite <- drop_drop, drop_app_length. Qed.

(** ** Lookup *)

(** A walk consumes a bit of the key at every step, so one more than its length
    is enough fuel for [find], [try_find] and [nodes_on_path]. *)
Lemma drop_shorter (c : nat) (key : list bool) : (c < length key)%nat →
  (length (drop (c + 1) key) < length key)%nat.
Proof. rewrite length_drop. lia. Qed.

Lemma common_lt n key :
  (length key <? length (shared_path n))%nat = false →
  (length (common n key) =? length key)%nat = false →
  (length (common n key) < length key)%nat.
Proof.
  intros _ Hne%Nat.eqb_neq. unfold common in *.
  pose proof (lcp_length_l key (shared_path n)). lia.
Qed.

Lemma find_fuel_total fuel : ∀ n key, (length key < fuel)%nat →
  is_Some (find_fuel fuel reader n key).
Proof using Type.
  induction fuel as [|fuel IH]; intros n key Hf; [lia|]. simpl.
  destruct (length key <? length (shared_path n))%nat eqn:Hb1; [by eexists|].
  destruct (length (common n key) <? length (shared_path n))%nat; [by eexists|].
  destruct (length (common n key) =? length key)%nat eqn:Hb3; [by eexists|].
  destruct (resolve reader _); [|by eexists]. apply IH.
  pose proof (drop_shorter _ _ (common_lt n key Hb1 Hb3)). lia.
Qed.

Lemma find_rep fuel : ∀ n t key, Rep n t → (length key < fuel)%nat →
  ∃ r, find_fuel fuel reader n key = Some r
       ∧ match r with
         | Some n' => value n' = tlookup t key
         | None => tlookup t key = None
         end.
Proof using Type*.
  induction fuel as [|fuel IH]; intros n t key HR Hf; [lia|]. cbn [find_fuel]. unfold common.
  pose proof HR as HR'. destruct HR' as [n t Hp Hv Hvh Hlvl Hcs Hsv Hl Hr].
  rewrite tlookup_unfold, Hp.
  destruct (strip_lcp (tpath t) key) as [[Hs Hlt]|(r & Hs & Hk & Hc)]; rewrite Hs.
  - case_test; [by eexists|]. case_test; [by eexists|lia].
  - rewrite Hc, Nat.ltb_irrefl. subst key.
    destruct (Nat.ltb_spec (length (tpath t ++ r)) (length (tpath t))) as [Hx|_];
      [rewrite length_app in Hx; lia|].
    destruct r as [|b r].
    + rewrite app_nil_r, Nat.eqb_refl. by eexists.
    + destruct (Nat.eqb_spec (length (tpath t)) (length (tpath t ++ b :: r))) as [Hx|_];
        [rewrite length_app in Hx; simpl in Hx; lia|].
      rewrite key_bit_app, drop_app_S.
      pose proof (repref_resolve_via _ _ (rep_child n t b HR)) as Hres.
      destruct (child t b) as [c|]; [|rewrite Hres; by eexists].
      destruct Hres as (nc & -> & Hnc). simpl. apply IH; [done|].
      rewrite length_app in Hf. simpl in Hf. lia.
Qed.

Lemma get_rep_via n t key : Rep n t → get reader n key = tlookup t key.
Proof using Type*.
  intros HR. unfold get, find.
  destruct (find_rep (S (length key)) n t key HR) as (r & -> & Hr); [lia|]. simpl.
  by destruct r.
Qed.

Lemma repref_try_resolve r o h : RepRef r o → try_resolve reader r ≠ Missing h.
Proof using Type*.
  destruct 1 as [|n t HR|t Hown Hst He Hne]; simpl; [done..|].
  destruct (stored_parse_via t Hst) as (n & Hparse & _). by rewrite (Hext _ _ Hown), Hparse.
Qed.

Lemma try_find_rep_via fuel : ∀ n t key h, Rep n t → try_find_fuel fuel reader n key ≠ Some (Err h).
Proof using Type*.
  induction fuel as [|fuel IH]; intros n t key h HR; [done|]. cbn [try_find_fuel].
  destruct (length key <? length (shared_path n))%nat; [done|].
  destruct (length (common n key) <? length (shared_path n))%nat; [done|].
  destruct (length (common n key) =? length key)%nat; [done|].
  set (b := key_bit key _). pose proof (rep_child n t b HR) as Hch.
  pose proof (repref_resolve_via _ _ Hch) as Hres.
  destruct (try_resolve reader (select_child n b)) as [c| |h'] eqn:Htry;
    [|done|by destruct (repref_try_resolve _ _ h' Hch)].
  assert (resolve reader (select_child n b) = Some c) as Hr.
  { destruct (select_child n b) as [|x|x]; simpl in *; try congruence.
    destruct (ts_get reader x) as [data|]; [|done]. simpl.
    destruct (try_from_message reader data); congruence. }
  rewrite Hr in Hres. destruct (child t b) as [ct|]; [|done].
  destruct Hres as (c' & [= <-] & HRc). by eapply IH.
Qed.

(** ** Insertion *)

(** The empty trie, as [TrieNode::empty] makes it and deletions leave it. *)
Definition is_empty_root (n : TrieNode) : Prop :=
  shared_path n = [] ∧ value n = None ∧ long_value_len n = None ∧
  left_ref n = RefEmpty ∧ right_ref n = RefEmpty ∧ children_size n = 0.

Definition RepRoot (n : TrieNode) (o : option tree) : Prop :=
  match o with Some t => Rep n t | None => is_empty_root n end.

Lemma rep_leaf p v : Rep (mkTrieNode p (Some v) (keccak <$> Some v) None RefEmpty RefEmpty 0 false)
  (leaf p v).
Proof. constructor; try done; [by left|constructor..]. Qed.

Lemma normalize_nonempty (v : bytes) : v ≠ [] → normalize_value (Some v) = Some v.
Proof. by destruct v. Qed.

(** The sizes of the two subtrees of every node add up within a [u64]; then the
    subtraction that [internal_put] starts from is exact. *)
Inductive nowrap : tree → Prop :=
  | nowrap_intro t :
      size_of (tleft t) + size_of (tright t) < 2 ^ 64 →
      (∀ b c, child t b = Some c → nowrap c) → nowrap t.

Lemma rep_not_empty n t : Rep n t → canonical t → is_empty_trie n = false.
Proof.
  intros HR Hc. destruct (rep_fields n t HR) as (_ & _ & _ & -> & _).
  rewrite mem_eq. unfold is_empty_trie. cbn [value long_value_len left_ref right_ref].
  rewrite !mem_ref_empty. by destruct Hc as [p v [] [] ? | p l r].
Qed.

Lemma children_size_mem t : children_size (mem t) = u64 (size_of (tleft t) + size_of (tright t)).
Proof. by rewrite mem_eq. Qed.

(** Replacing the child on one side, with the size update of the code. *)
Lemma rep_set_child n t (b : bool) nr o :
  Rep n t → nowrap t → RepRef nr o →
  Rep (mkTrieNode (shared_path n) (value n) (value_hash n) None
         (if b then left_ref n else nr) (if b then nr else right_ref n)
         (u64 (sat_sub (children_size n) (reference_size reader (select_child n b))
               + reference_size reader nr)) false)
      (set_child t b o).
Proof using Type*.
  intros HR Hnw Hnr. rewrite (repref_size_via _ _ Hnr), (repref_size_via _ _ (rep_child n t b HR)).
  destruct Hnw as [t Hnw _]. destruct HR as [n t Hp Hv Hvh Hlvl Hcs Hsv Hl Hr].
  pose proof (size_of_fits (tleft t)) as [? ?]. pose proof (size_of_fits (tright t)) as [? ?].
  pose proof (size_of_fits o) as [? ?].
  rewrite Hcs, children_size_mem. unfold u64. rewrite (wrap_small 64 (size_of _ + size_of _))
    by (unfold fits; lia).
  destruct b; simpl; constructor; try done; try (by left); rewrite children_size_mem;
    cbn [children_size tleft tright]; rewrite sat_sub_exact by lia; f_equal; lia.
Qed.

Lemma internal_put_empty fuel n key v :
  is_empty_root n → v ≠ [] → (0 < fuel)%nat →
  ∃ n', internal_put fuel reader n key (Some v) false = Some (Some n') ∧ Rep n' (leaf key v).
Proof using Type*.
  intros (Hp & Hv & Hll & Hl & Hr & Hcs) Hne Hf. destruct fuel as [|fuel]; [lia|].
  cbn [internal_put]. rewrite normalize_nonempty by done.
  unfold common, is_empty_trie. rewrite Hp, Hv, Hl, Hr, Hll, Hcs, lcp_nil_r. cbn [length].
  change (0 <? 0)%nat with false. cbv iota.
  destruct (Nat.leb_spec (length key) 0) as [Hk|Hk].
  - destruct key; [|simpl in Hk; lia]. rewrite decide_False by done.
    eexists. split; [done|]. apply (rep_leaf []).
  - eexists. split; [done|]. apply rep_leaf.
Qed.

Lemma put_impl_Some ip n key v rd n' :
  ip n key (Some v) rd = Some (Some n') →
  put_impl_with reader ip n key (Some v) rd = Some (Some n').
Proof using Type*. intros Hip. unfold put_impl_with. by rewrite Hip. Qed.

(** The node pushed down by a split keeps everything below the branching bit. *)
Lemma rep_pushed n t p' : Rep n t →
  Rep (mkTrieNode p' (value n) (value_hash n) None (left_ref n) (right_ref n)
         (children_size n) false)
      (mkTree p' (tval t) (tleft t) (tright t)).
Proof.
  destruct 1 as [n t Hp Hv Hvh Hlvl Hcs Hsv Hl Hr]. constructor; try done; [by left|].
  rewrite children_size_mem in *. done.
Qed.

(** The split node: one child, no value. *)
Lemma rep_split n t c b p' : Rep n t → tpath t = c ++ b :: p' →
  let pushed := mkTree p' (tval t) (tleft t) (tright t) in
  Rep (split reader n c) (branch c None b (Some pushed) None).
Proof using Type*.
  intros HR Hpath pushed. pose proof (rep_pushed n t p' HR) as Hpush.
  assert (shared_path n = tpath t) as Hp by by destruct HR.
  unfold split. rewrite Hp, Hpath, drop_app_S, key_bit_app.
  pose proof (repref_size_via _ _ (rep_mem _ _ Hpush)) as Hsz. cbn zeta. rewrite Hsz.
  pose proof (size_of_fits (Some pushed)) as Hfit.
  destruct b; simpl; constructor; try done; try (by left); try constructor; try done;
    rewrite children_size_mem; cbn [tleft tright children_size]; unfold u64;
    change (size_of None) with 0; rewrite ?Z.add_0_l, ?Z.add_0_r; by rewrite wrap_small.
Qed.

Lemma nowrap_branch_one c v b x : nowrap x → nowrap (branch c v b (Some x) None).
Proof.
  intros Hx. pose proof (size_of_fits (Some x)) as [? ?].
  destruct b; constructor; simpl in *; try lia; intros [] ?; simpl; naive_solver.
Qed.

Lemma nowrap_repath p q v w l r : nowrap (mkTree p v l r) → nowrap (mkTree q w l r).
Proof. inversion_clear 1. by constructor. Qed.

Lemma nowrap_child t b c : nowrap t → child t b = Some c → nowrap c.
Proof. destruct 1 as [t _ Hn]. apply Hn. Qed.

(** [internal_put] past the test of the shared path, at the node of the key. *)
Lemma internal_put_here fuel n t key v :
  Rep n t → strip (tpath t) key = Some [] → v ≠ [] →
  ∃ n', internal_put (S fuel) reader n key (Some v) false = Some (Some n')
        ∧ Rep n' (tput t key v).
Proof using Type*.
  intros HR Hs Hne. rewrite tput_here by done. apply strip_Some in Hs.
  rewrite app_nil_r in Hs. subst key. cbn [internal_put]. rewrite normalize_nonempty by done.
  pose proof HR as HR'. destruct HR' as [n t Hp Hv Hvh Hlvl Hcs Hsv Hl Hr].
  unfold common. rewrite Hp, lcp_self, Nat.ltb_irrefl, Nat.leb_refl.
  destruct (decide (value n = Some v)) as [Heq|_].
  - exists n. split; [done|]. rewrite Hv in Heq. rewrite <- Heq. by destruct t.
  - eexists. split; [done|]. constructor; try done; [by left|].
    rewrite children_size_mem in *. done.
Qed.

(** [internal_put] past the shared path of a node that is not empty, given that
    the call on an existing child refines [tput]. *)
Lemma internal_put_below fuel n t key b r v :
  Rep n t → nowrap t → is_empty_trie n = false → v ≠ [] → (0 < fuel)%nat →
  strip (tpath t) key = Some (b :: r) →
  (∀ c nc, child t b = Some c → Rep nc c →
     ∃ n', internal_put fuel reader nc r (Some v) false = Some (Some n') ∧ Rep n' (tput c r v)) →
  ∃ n', internal_put (S fuel) reader n key (Some v) false = Some (Some n')
        ∧ Rep n' (tput t key v).
Proof using Type*.
  intros HR Hnw Hemp Hne Hf Hs Hchild. rewrite (tput_below _ _ _ b r Hs).
  apply strip_Some in Hs. subst key. cbn [internal_put]. rewrite normalize_nonempty by done.
  unfold common. assert (shared_path n = tpath t) as Hp by by destruct HR.
  rewrite Hp, lcp_app_r, Nat.ltb_irrefl, Hemp, key_bit_app, drop_app_S.
  destruct (Nat.leb_spec (length (tpath t ++ b :: r)) (length (tpath t))) as [Hx|_];
    [rewrite length_app in Hx; simpl in Hx; lia|].
  assert (∃ n', internal_put fuel reader (default empty_node (resolve reader (select_child n b)))
                  r (Some v) false = Some (Some n')
                ∧ Rep n' (match child t b with Some c => tput c r v | None => leaf r v end))
    as (n' & Hput & HR').
  { pose proof (repref_resolve_via _ _ (rep_child n t b HR)) as Hres.
    destruct (child t b) as [c|]; [|rewrite Hres; by apply internal_put_empty].
    destruct Hres as (nc & -> & Hnc). by apply Hchild. }
  rewrite (put_impl_Some _ _ _ _ _ _ Hput). cbn [mbind option_bind].
  pose proof (rep_set_child n t b (RefNode n') _ HR Hnw (rep_mem _ _ HR')) as Hnew.
  rewrite Hp in Hnew. eexists. split; [|exact Hnew]. unfold is_empty_trie_params.
  by destruct b; simpl; rewrite ?andb_false_r.
Qed.

Lemma internal_put_rep fuel : ∀ n t key v,
  Rep n t → canonical t → nowrap t → v ≠ [] → (length key + 2 ≤ fuel)%nat →
  ∃ n', internal_put fuel reader n key (Some v) false = Some (Some n') ∧ Rep n' (tput t key v).
Proof using Type*.
  induction fuel as [|fuel IH]; intros n t key v HR Hc Hnw Hne Hf; [lia|].
  destruct (strip (tpath t) key) as [[|b r]|] eqn:Hs.
  - by apply internal_put_here.
  - apply (internal_put_below fuel n t key b r v HR Hnw); try done; [by eapply rep_not_empty|lia|].
    intros c nc Hch Hnc. apply strip_Some in Hs as ->. rewrite length_app in Hf. simpl in Hf.
    apply IH; [done|by eapply canonical_child|by eapply nowrap_child|done|lia].
  - destruct (strip_None_split _ _ Hs) as (c & b & p' & Hlc & Hpath & Hkey).
    pose proof (rep_split n t c b p' HR Hpath) as Hsp. cbn zeta in Hsp.
    set (pushed := mkTree p' (tval t) (tleft t) (tright t)) in *.
    cut (∃ n', internal_put fuel reader (split reader n c) key (Some v) false = Some (Some n')
               ∧ Rep n' (tput (branch c None b (Some pushed) None) key v)).
    { intros (n' & Hput & HR'). exists n'. split.
      - cbn [internal_put]. rewrite normalize_nonempty by done. unfold common.
        assert (shared_path n = tpath t) as -> by by destruct HR.
        rewrite Hlc, Hpath, length_app. simpl.
        destruct (Nat.ltb_spec (length c) (length c + S (length p'))); [|lia].
        by apply put_impl_Some.
      - by rewrite (tput_split t key v c b p' Hs Hlc Hpath), <- tput_branch. }
    destruct fuel as [|fuel]; [lia|].
    assert (tpath (branch c None b (Some pushed) None) = c) as Hpc by by destruct b.
    destruct Hkey as [->|[k' ->]].
    + apply internal_put_here; [done|by rewrite Hpc, strip_self|done].
    + apply (internal_put_below fuel _ _ _ (negb b) k' v Hsp).
      * apply nowrap_branch_one. subst pushed. destruct t. by eapply nowrap_repath.
      * destruct (rep_fields _ _ Hsp) as (_ & _ & _ & -> & _). by destruct b; rewrite mem_eq.
      * exact Hne.
      * rewrite length_app in Hf. simpl in Hf. lia.
      * by rewrite Hpc, strip_app.
      * intros x nx. by destruct b.
Qed.

(** ** Deletion *)

Definition RepOpt (r : option TrieNode) (o : option tree) : Prop :=
  match o with Some t => ∃ n, r = Some n ∧ Rep n t | None => r = None end.

(** The merge after a deletion is [collapse]. *)
Lemma coalesce_rep n t : Rep n t →
  RepOpt (coalesce reader None n) (collapse (tpath t) (tval t) (tleft t) (tright t)).
Proof using Type*.
  intros HR. destruct (rep_fields n t HR) as (_ & _ & _ & Hemp & _).
  assert (RepOpt (Some n) (Some t)) as Hkeep by by eexists.
  pose proof HR as HR'. destruct HR' as [n t Hp Hv Hvh Hlvl Hcs Hsv Hl Hr].
  unfold coalesce. rewrite Hemp, mem_eq. unfold is_empty_trie.
  cbn [is_none value long_value_len left_ref right_ref].
  rewrite !mem_ref_empty, (rep_ref_empty _ _ Hl), (rep_ref_empty _ _ Hr), Hv, Hp, into_owned_resolve.
  destruct t as [p [v|] [tl|] [tr|]]; cbn [tpath tval tleft tright collapse] in *; try done.
  - destruct (repref_resolve_via _ _ Hl) as (c & Hres & Hc). simpl. rewrite Hres.
    eexists. split; [done|].
    replace (shared_path c) with (tpath tl) by by destruct Hc. by apply rep_pushed.
  - destruct (repref_resolve_via _ _ Hr) as (c & Hres & Hc). simpl. rewrite Hres.
    eexists. split; [done|].
    replace (shared_path c) with (tpath tr) by by destruct Hc. by apply rep_pushed.
Qed.

Lemma collapse_canonical t : canonical t →
  collapse (tpath t) (tval t) (tleft t) (tright t) = Some t.
Proof. by intros [p v [] [] ?|p l r]. Qed.

Lemma coalesce_canonical n t : Rep n t → canonical t → RepOpt (coalesce reader None n) (Some t).
Proof using Type*. intros HR Hc. rewrite <- (collapse_canonical t Hc). by apply coalesce_rep. Qed.

(** A deletion below a child that is not there leaves nothing there. *)
Lemma delete_absent fuel key rd :
  put_impl_with reader (internal_put (S fuel) reader) empty_node key None rd = Some None.
Proof using Type*. by destruct key. Qed.

Lemma internal_delete_here fuel n t key rd :
  Rep n t → canonical t → strip (tpath t) key = Some [] →
  ∃ r, put_impl_with reader (internal_put (S fuel) reader) n key None rd = Some r
       ∧ RepOpt r (tdelete_with rd t key).
Proof using Type*.
  intros HR Hc Hs. rewrite tdelete_here by done. apply strip_Some in Hs.
  rewrite app_nil_r in Hs. subst key. unfold put_impl_with. cbn [internal_put normalize_value].
  pose proof HR as HR'. destruct HR' as [n t Hp Hv Hvh Hlvl Hcs Hsv Hl Hr].
  unfold common. rewrite Hp, lcp_self, Nat.ltb_irrefl, Nat.leb_refl, Hv.
  destruct (tval t) as [v|] eqn:Htv.
  - rewrite decide_False by done. destruct rd; [by eexists|].
    pose (n' := mkTrieNode (tpath t) None (keccak <$> None) None (left_ref n) (right_ref n)
                 (children_size n) false).
    assert (Rep n' (mkTree (tpath t) None (tleft t) (tright t))) as HR'.
    { constructor; try done; [by left|]. rewrite children_size_mem in *. done. }
    pose proof (coalesce_rep _ _ HR') as Hco. cbn [tpath tval tleft tright] in Hco.
    unfold is_empty_trie_params. cbn [is_none].
    rewrite (rep_ref_empty _ _ Hl), (rep_ref_empty _ _ Hr).
    destruct (tleft t), (tright t); cbn [andb mbind option_bind]; eexists; (split; [done|]);
      try exact Hco. done.
  - rewrite decide_True by done. cbn [mbind option_bind]. eexists. split; [done|].
    by apply coalesce_canonical.
Qed.

Lemma internal_delete_below fuel n t key b r rd :
  Rep n t → canonical t → nowrap t → (0 < fuel)%nat → strip (tpath t) key = Some (b :: r) →
  (∀ c nc, child t b = Some c → Rep nc c →
     ∃ x, put_impl_with reader (internal_put fuel reader) nc r None rd = Some x
          ∧ RepOpt x (tdelete_with rd c r)) →
  ∃ x, put_impl_with reader (internal_put (S fuel) reader) n key None rd = Some x
       ∧ RepOpt x (tdelete_with rd t key).
Proof using Type*.
  intros HR Hc Hnw Hf Hs Hchild. rewrite (tdelete_below _ _ _ b r Hs). cbn zeta.
  apply strip_Some in Hs. subst key. unfold put_impl_with at 1. cbn [internal_put normalize_value].
  unfold common. assert (shared_path n = tpath t) as Hp by by destruct HR.
  rewrite Hp, lcp_app_r, Nat.ltb_irrefl, (rep_not_empty n t HR Hc), key_bit_app, drop_app_S.
  destruct (Nat.leb_spec (length (tpath t ++ b :: r)) (length (tpath t))) as [Hx|_];
    [rewrite length_app in Hx; simpl in Hx; lia|].
  set (o := match child t b with Some c => tdelete_with rd c r | None => None end).
  assert (∃ x, put_impl_with reader (internal_put fuel reader)
                 (default empty_node (resolve reader (select_child n b))) r None rd = Some x
               ∧ RepOpt x o) as (x & -> & HRx).
  { pose proof (repref_resolve_via _ _ (rep_child n t b HR)) as Hres. subst o.
    destruct (child t b) as [c|].
    - destruct Hres as (nc & -> & Hnc). by apply Hchild.
    - rewrite Hres. destruct fuel; [lia|]. rewrite delete_absent. by eexists. }
  cbn [mbind option_bind].
  assert (RepRef (match x with Some c => RefNode c | None => RefEmpty end) o) as HRo.
  { destruct o; simpl in HRx; [destruct HRx as (? & -> & ?)|subst x]; by constructor. }
  pose proof (rep_set_child n t b _ _ HR Hnw HRo) as Hnew. rewrite Hp in Hnew.
  pose proof (coalesce_rep _ _ Hnew) as Hco.
  eexists. split; [done|].
  assert (value n = tval t) as Hv by by destruct HR.
  pose proof (rep_child n t (negb b) HR) as Hother%rep_ref_empty.
  apply rep_ref_empty in HRo. unfold is_empty_trie_params, set_child, select_child in *.
  destruct b; simpl in *; rewrite HRo, Hother, Hv in *;
    by destruct (tval t), (tleft t), (tright t), o.
Qed.

Lemma put_impl_delete_rep fuel : ∀ n t key rd,
  Rep n t → canonical t → nowrap t → (length key < fuel)%nat →
  ∃ r, put_impl_with reader (internal_put fuel reader) n key None rd = Some r
       ∧ RepOpt r (tdelete_with rd t key).
Proof using Type*.
  induction fuel as [|fuel IH]; intros n t key rd HR Hc Hnw Hf; [lia|].
  destruct (strip (tpath t) key) as [[|b r]|] eqn:Hs.
  - by apply internal_delete_here.
  - pose proof Hs as ->%strip_Some. rewrite length_app in Hf. simpl in Hf.
    apply (internal_delete_below fuel n t _ b r); try done; [lia|].
    intros c nc Hch Hnc.
    apply IH; [done|by eapply canonical_child|by eapply nowrap_child|lia].
  - rewrite tdelete_outside by done. unfold put_impl_with. cbn [internal_put normalize_value].
    unfold common. assert (shared_path n = tpath t) as -> by by destruct HR.
    destruct (strip_lcp (tpath t) key) as [[_ Hlt]|(r & Hs' & _)]; [|congruence].
    destruct (Nat.ltb_spec (length (lcp key (tpath t))) (length (tpath t))); [|lia].
    cbn [is_none mbind option_bind]. eexists. split; [done|]. by apply coalesce_canonical.
Qed.

(** ** The operations of a trie *)

Lemma put_root_via n o key v :
  RepRoot n o → ocanonical o → (∀ t, o = Some t → nowrap t) → v ≠ [] →
  RepRoot (put reader n key v) (oput o key v).
Proof using Type*.
  intros HR Hc Hnw Hne. unfold put, put_fuel. destruct o as [t|]; simpl in HR.
  - inversion_clear Hc.
    destruct (internal_put_rep (2 * length key + 2) n t key v) as (n' & -> & Hn'); auto; lia.
  - destruct (internal_put_empty (2 * length key + 2) n key v) as (n' & -> & Hn'); auto; lia.
Qed.

Lemma delete_empty_root fuel n key rd : is_empty_root n → (0 < fuel)%nat →
  put_impl_with reader (internal_put fuel reader) n key None rd = Some None.
Proof using Type*.
  intros Hemp Hf. destruct fuel as [|fuel]; [lia|]. revert Hemp. destruct n as [p v vh lvl l r cs sv]. intros (Hp & Hv & Hll & Hl & Hr & Hcs). simpl in *.
  subst. by destruct key.
Qed.

Lemma delete_with_root_via n o key rd :
  RepRoot n o → ocanonical o → (∀ t, o = Some t → nowrap t) →
  RepRoot (or_empty (put_impl reader n key None rd))
          (match o with Some t => tdelete_with rd t key | None => None end).
Proof using Type*.
  intros HR Hc Hnw. unfold put_impl, put_fuel. destruct o as [t|]; simpl in HR.
  - inversion_clear Hc.
    destruct (put_impl_delete_rep (2 * length key + 2) n t key rd) as (x & -> & Hx); auto; [lia|].
    destruct (tdelete_with rd t key); simpl in Hx.
    + by destruct Hx as (n' & -> & Hn').
    + by subst x.
  - rewrite (delete_empty_root _ n key rd HR) by lia. done.
Qed.

(** ** Termination on arbitrary nodes and stores *)

Lemma internal_put_total fuel : ∀ n key v rd,
  ((2 * length key + 2 ≤ fuel)%nat → is_Some (internal_put fuel reader n key v rd)) ∧
  ((2 * length key + 1 ≤ fuel)%nat → length (common n key) = length (shared_path n) →
     is_Some (internal_put fuel reader n key v rd)).
Proof using Type.
  assert (∀ ip n key v rd, is_Some (ip n key v rd) → is_Some (put_impl_with reader ip n key v rd))
    as Hpi.
  { intros ip n key v rd [x Hx]. unfold put_impl_with. rewrite Hx. by eexists. }
  induction fuel as [|fuel IH]; intros n key v rd; [split; lia|].
  assert (length (common n key) = length (shared_path n) →
    (2 * length key + 1 ≤ S fuel)%nat → is_Some (internal_put (S fuel) reader n key v rd)) as Hdown.
  { intros Hfull Hf. cbn [internal_put]. rewrite Hfull, Nat.ltb_irrefl.
    destruct (Nat.leb_spec (length key) (length (shared_path n))) as [|Hlt].
    { by destruct (decide (value n = normalize_value v)), rd,
        (is_empty_trie_params (normalize_value v) (left_ref n) (right_ref n)); eexists. }
    destruct (is_empty_trie n); [by eexists|].
    destruct (Hpi (internal_put fuel reader)
      (default empty_node (resolve reader (select_child n (key_bit key (length (shared_path n))))))
      (drop (length (shared_path n) + 1) key) (normalize_value v) rd) as [x ->]; [|by eexists].
    apply (proj1 (IH _ _ _ _)). rewrite length_drop. lia. }
  split; [|auto]. intros Hf.
  destruct (decide (length (common n key) = length (shared_path n))) as [Hfull|Hne]; [auto with lia|].
  pose proof (lcp_length_r key (shared_path n)) as Hle. unfold common in *.
  cbn [internal_put]. unfold common.
  destruct (Nat.ltb_spec (length (lcp key (shared_path n))) (length (shared_path n))); [|lia].
  destruct (is_none (normalize_value v)); [by eexists|].
  apply Hpi, (proj2 (IH _ _ _ _)); [lia|]. unfold split, common. cbn [shared_path].
  destruct (lcp_prefix_l key (shared_path n)) as [r Hr]. by rewrite Hr at 1; rewrite lcp_app_r.
Qed.

End rep.

(** The same, reading through the store itself. *)
Section same.
Context {St : Type} `{TrieStore St} (store : St).

Lemma stored_parse t : Stored store t →
  ∃ n, try_from_message store (to_message (mem t)) = Some n ∧ Rep store n t.
Proof. by apply stored_parse_via. Qed.

Lemma repref_size r o : RepRef store r o → reference_size store r = size_of o.
Proof. by apply repref_size_via. Qed.

Lemma repref_resolve r o : RepRef store r o →
  match o with
  | None => resolve store r = None
  | Some t => ∃ n, resolve store r = Some n ∧ Rep store n t
  end.
Proof. by apply repref_resolve_via. Qed.

Lemma get_rep n t key : Rep store n t → get store n key = tlookup t key.
Proof. by apply get_rep_via. Qed.

Lemma try_find_rep fuel n t key h : Rep store n t → try_find_fuel fuel store n key ≠ Some (Err h).
Proof. by apply try_find_rep_via. Qed.

Lemma put_root n o key v :
  RepRoot store n o → ocanonical o → (∀ t, o = Some t → nowrap t) → v ≠ [] →
  RepRoot store (put store n key v) (oput o key v).
Proof. by apply put_root_via. Qed.

Lemma delete_with_root n o key rd :
  RepRoot store n o → ocanonical o → (∀ t, o = Some t → nowrap t) →
  RepRoot store (or_empty (put_impl store n key None rd))
    (match o with Some t => tdelete_with rd t key | None => None end).
Proof. by apply delete_with_root_via. Qed.

End same.

(** ** The other walks, on arbitrary nodes and stores *)

Section walks.
Context {St : Type} `{TrieStore St} (store : St).

(** The store has no readable node under [h]. *)
Definition unreadable (h : bytes) : Prop :=
  ∀ data, ts_get store h = Some data → try_from_message store data = None.

Lemma try_find_fuel_find fuel : ∀ n key,
  find_fuel fuel store n key =
    (λ r, match r with Ok x => x | Err _ => None end) <$> try_find_fuel fuel store n key.
Proof.
  induction fuel as [|fuel IH]; intros n key; [done|]. cbn [find_fuel try_find_fuel].
  repeat case_match; simplify_eq/=; try done;
    destruct (select_child n _) eqn:Hr; simplify_eq/=; try congruence; try done;
    repeat case_match; simplify_eq/=; try done; rewrite ?IH; try congruence.
Qed.

Lemma try_get_get n key :
  (∀ h, try_find_fuel (S (length key)) store n key ≠ Some (Err h)) →
  try_get store n key = Ok (get store n key).
Proof.
  intros Hok. pose proof (try_find_fuel_find (S (length key)) n key) as Hf.
  destruct (find_fuel_total store (S (length key)) n key) as [x Hx]; [lia|].
  unfold try_get, try_find, get, find. rewrite Hx in *.
  destruct (try_find_fuel (S (length key)) store n key) as [[y|h]|]; [|by destruct (Hok h)|done].
  cbn [fmap option_fmap option_map] in Hf. by injection Hf as ->.
Qed.

Lemma try_find_fuel_missing fuel : ∀ n key h,
  try_find_fuel fuel store n key = Some (Err h) → unreadable h.
Proof.
  induction fuel as [|fuel IH]; intros n key h; [done|]. cbn [try_find_fuel].
  repeat (case_match; try done); simplify_eq/=; intros Hx;
    first [by apply IH in Hx|injection Hx as ->].
  destruct (select_child n _); simplify_eq/=.
  repeat case_match; simplify_eq/=; intros data Hd; congruence.
Qed.

Lemma nodes_on_path_fuel_spec fuel : ∀ n key r,
  nodes_on_path_fuel fuel store n key = Some r →
  find_fuel fuel store n key = Some (r ≫= head)
  ∧ ∀ l, r = Some l →
      last l = Some n
      ∧ ∀ i a b, l !! i = Some a → l !! S i = Some b →
          ∃ bit, resolve store (select_child b bit) = Some a.
Proof.
  induction fuel as [|fuel IH]; intros n key r; [done|]. cbn [nodes_on_path_fuel find_fuel].
  destruct (length key <? length (shared_path n))%nat; [naive_solver|].
  destruct (length (common n key) <? length (shared_path n))%nat; [naive_solver|].
  destruct (length (common n key) =? length key)%nat; [naive_solver|].
  destruct (resolve store _) as [c|] eqn:Hres; [|naive_solver].
  intros (sub & Hsub & [= <-])%bind_Some. destruct (IH _ _ _ Hsub) as [Hfind Hl].
  destruct sub as [l|]; [|naive_solver]. simpl in *. destruct (Hl l eq_refl) as [Hlast Hch].
  split; [by rewrite Hfind; destruct l|]. intros l' [= <-]. split; [apply last_snoc|].
  intros i a b Ha Hb. apply lookup_snoc_Some in Hb as [[Hlt Hb]|[Hi <-]].
  - apply lookup_snoc_Some in Ha as [[_ Ha]|[Hi _]]; [by eapply Hch|lia].
  - apply lookup_snoc_Some in Ha as [[_ Ha]|[Hi' _]]; [|lia].
    rewrite last_lookup, <- Hi in Hlast. simpl in Hlast. simplify_eq. by eexists.
Qed.

Lemma nodes_on_path_fuel_total fuel : ∀ n key, (length key < fuel)%nat →
  is_Some (nodes_on_path_fuel fuel store n key).
Proof.
  induction fuel as [|fuel IH]; intros n key Hf; [lia|]. cbn [nodes_on_path_fuel].
  destruct (length key <? length (shared_path n))%nat eqn:H1; [by eexists|].
  destruct (length (common n key) <? length (shared_path n))%nat; [by eexists|].
  destruct (length (common n key) =? length key)%nat eqn:H3; [by eexists|].
  destruct (resolve store _) as [c|]; [|by eexists].
  destruct (IH c (drop (length (common n key) + 1) key)) as [x ->]; [|by eexists].
  pose proof (drop_shorter _ _ (common_lt n key H1 H3)). lia.
Qed.

(** ** Properties *)

(** On any node and any store (missing and corrupt nodes included) an update
    and the three walks down the trie finish within the recursion that
    [put_fuel] and the length of the key allow. *)
Theorem updates_and_walks_terminate n key v rd :
  is_Some (put_impl store n key v rd)
  ∧ is_Some (internal_put (put_fuel key) store n key v rd)
  ∧ is_Some (find_fuel (S (length key)) store n key)
  ∧ is_Some (try_find_fuel (S (length key)) store n key)
  ∧ is_Some (nodes_on_path_fuel (S (length key)) store n key).
Proof.
  assert (is_Some (internal_put (put_fuel key) store n key v rd)) as Hput
    by (apply (proj1 (internal_put_total _ _ _ _ _ _)); unfold put_fuel; lia).
  assert (is_Some (find_fuel (S (length key)) store n key)) as Hfind
    by (apply find_fuel_total; lia).
  split_and!; try done.
  - unfold put_impl, put_impl_with. destruct Hput as [x ->]. by eexists.
  - rewrite try_find_fuel_find in Hfind. by apply fmap_is_Some in Hfind.
  - apply nodes_on_path_fuel_total. lia.
Qed.

(** [try_get] and [nodes_on_path] are [get] with more in the answer.
    [try_get] gives the value [get] gives, unless it meets a hash the store has
    no readable node for, which it reports and [get] shows as no value.
    [nodes_on_path] lists the nodes from the one [find] returns up to the root,
    each a resolved child of the next. *)
Theorem walks_agree n key :
  match try_get store n key with
  | Ok x => get store n key = x
  | Err h => get store n key = None ∧ unreadable h
  end
  ∧ find store n key = nodes_on_path store n key ≫= head
  ∧ ∀ l, nodes_on_path store n key = Some l →
      last l = Some n
      ∧ ∀ i a b, l !! i = Some a → l !! S i = Some b →
          ∃ bit, resolve store (select_child b bit) = Some a.
Proof.
  destruct (nodes_on_path_fuel_total (S (length key)) n key) as [l Hl]; [lia|].
  destruct (nodes_on_path_fuel_spec _ _ _ _ Hl) as [Hfind Hspec].
  unfold nodes_on_path, get, try_get, try_find. rewrite Hl. split; [|split].
  - pose proof (try_find_fuel_find (S (length key)) n key) as Htry.
    unfold find. rewrite Hfind in *.
    destruct (try_find_fuel (S (length key)) store n key) as [[x|h]|] eqn:Ht; [..|done];
      injection Htry as Htry; cbn [default]; rewrite Htry.
    + done.
    + split; [done|]. by eapply try_find_fuel_missing.
  - unfold find. by rewrite Hfind.
  - done.
Qed.

End walks.
End refine.
End NodeRefine.
