(* ===== verification/NodeSave.v ===== *)
(** * Persistence: [save] of crates/trie/src/node.rs

    [collect_for_save] walks the nodes in memory that are not marked saved and
    lists what the store lacks; [save] writes the list in one call.  Here: the
    list is content addressed, and after the write the whole tree can be read
    back from the store alone, by the hash of its root. *)
From S2P Require Import Prelude Path Varint Store Node Unitrie NodeCodec NodeRefine.
From stdpp Require Import options.

Module NodeSave.
Import Store Node Unitrie NodeCodec NodeRefine.
Local Open Scope Z_scope.

Section save.
Context `{Keccak}.

(** Every node of a tree is one a message can carry. *)
Inductive tree_bounds : tree → Prop :=
  | tree_bounds_intro t :
      node_bounds t → (∀ b c, child t b = Some c → tree_bounds c) → tree_bounds t.

Lemma tree_bounds_child t b c : tree_bounds t → child t b = Some c → tree_bounds c.
Proof. destruct 1 as [t _ Hch]. apply Hch. Qed.

(** ** Growing a store *)

Section grow.
Context {St St' : Type} `{TrieStore St} `{TrieStore St'} (store : St) (store' : St').

Definition extends : Prop := ∀ h m, ts_get store h = Some m → ts_get store' h = Some m.

Hypothesis Hext : extends.

Lemma Own_extends t : Own store t → Own store' t.
Proof using Type*. apply Hext. Qed.

Lemma Stored_extends t : Stored store t → Stored store' t.
Proof using Type*.
  induction 1 as [t Hb Hlong Hch IH Hown]. constructor; [done|by eauto..|].
  intros b c Hc. destruct (Hown b c Hc). split; [done|]. intros ?. by apply Own_extends; auto.
Qed.

Lemma Rep_extends n t : Rep store n t → Rep store' n t.
Proof using Type*.
  revert n t. apply (Rep_mind store (λ n t _, Rep store' n t) (λ r o _, RepRef store' r o)).
  - intros n t Hp Hv Hvh Hlvl Hcs Hsv Hl IHl Hr IHr.
    constructor; [assumption..| |assumption|assumption]. intros [? ?]%Hsv. split; [by apply Stored_extends|].
    intros ?. by apply Own_extends; auto.
  - constructor.
  - by constructor.
  - intros t Hown Hst He Hne. constructor; [by apply Own_extends|by apply Stored_extends|assumption..].
Qed.

Lemma RepRef_extends r o : RepRef store r o → RepRef store' r o.
Proof using Type*.
  destruct 1; constructor;
    [by apply Rep_extends|by apply Own_extends|by apply Stored_extends|assumption..].
Qed.

(** A reference that is not in memory is in the store. *)
Lemma hash_stored h c : RepRef store (RefHash h) (Some c) → Stored store' c ∧ Own store' c.
Proof using Type*.
  inversion_clear 1. split; [by apply Stored_extends|by apply Own_extends].
Qed.

(** ** The batch *)

Definition written (batch : list (bytes * bytes)) : Prop :=
  ∀ h m, (h, m) ∈ batch → ts_get store' h = Some m.

Lemma written_app b1 b2 : written (b1 ++ b2) ↔ written b1 ∧ written b2.
Proof. unfold written. setoid_rewrite elem_of_app. naive_solver. Qed.

Lemma written_cons h m b : written ((h, m) :: b) ↔ ts_get store' h = Some m ∧ written b.
Proof. unfold written. setoid_rewrite elem_of_cons. naive_solver. Qed.

(** What a save leaves: a tree the store holds, its own message included if it
    is not embedded in its parent. *)
Definition persisted (n : TrieNode) (t : tree) (own : bool) : Prop :=
  Rep store' n t ∧ Stored store' t ∧ (own || negb (is_embeddable (mem t)) = true → Own store' t).

Definition persisted_ref (r : NodeRef TrieNode) (o : option tree) : Prop :=
  RepRef store' r o
  ∧ ∀ c, o = Some c → Stored store' c ∧ (is_embeddable (mem c) = false → Own store' c).

End grow.

(** A node stands for its tree over any store that holds all of the tree. *)
Lemma Rep_stored {St St'} `{TrieStore St} `{TrieStore St'} (store : St) (store' : St') n t :
  Rep store n t → Stored store' t → (is_embeddable (mem t) = false → Own store' t) → Rep store' n t.
Proof.
  revert n t. apply (Rep_mind store
    (λ n t _, Stored store' t → (is_embeddable (mem t) = false → Own store' t) → Rep store' n t)
    (λ r o _, (∀ c, o = Some c → Stored store' c ∧ is_empty_trie (mem c) = false
                 ∧ (is_embeddable (mem c) = false → Own store' c)) → RepRef store' r o)).
  - intros n t Hp Hv Hvh Hlvl Hcs Hsv Hl IHl Hr IHr Hst Ho.
    assert (∀ b c, child t b = Some c → Stored store' c ∧ is_empty_trie (mem c) = false
      ∧ (is_embeddable (mem c) = false → Own store' c)) as Hc.
    { clear - Hst. destruct Hst as [t _ _ Hch Hkids].
      intros b c Hc. split; [by apply (Hch b)|by apply (Hkids b)]. }
    constructor; try done; [by apply IHl, (Hc false)|by apply IHr, (Hc true)].
  - constructor.
  - intros n t HR IH Hc. destruct (Hc t eq_refl) as (? & _ & ?). constructor. by apply IH.
  - intros t Hown Hst He Hne Hc. destruct (Hc t eq_refl) as (? & _ & ?). constructor; auto.
Qed.

(** The recursive call of [collect_for_save] on a child. *)
Definition collect_ref (r : NodeRef TrieNode) : NodeRef TrieNode * list (bytes * bytes) :=
  match r with
  | RefNode c => let '(c', b) := collect_for_save c false in (RefNode c', b)
  | _ => (r, [])
  end.

Lemma collect_for_save_eq n is_root :
  collect_for_save n is_root =
    if saved n then (n, [])
    else
      let '(l, bl) := collect_ref (left_ref n) in
      let '(r, br) := collect_ref (right_ref n) in
      let batch := bl ++ br ++ long_value_entry n in
      if is_embeddable n && negb is_root then (set_saved n l r, batch)
      else (set_saved n l r, batch ++ [(keccak (to_message n), to_message n)]).
Proof. by destruct n. Qed.

(** An entry of the batch is filed under its own hash. *)
Definition addressed (e : bytes * bytes) : Prop := e.1 = keccak e.2.

Section collect.
Context {St St' : Type} `{TrieStore St} `{TrieStore St'} (store : St) (store' : St').
Hypothesis Hext : extends store store'.

Lemma mem_not_empty t : canonical t → is_empty_trie (mem t) = false.
Proof.
  rewrite mem_eq. unfold is_empty_trie. cbn [value long_value_len left_ref right_ref].
  rewrite !mem_ref_empty. by intros [p v [] [] ?|p l r].
Qed.

Lemma persisted_ref_intro r o :
  RepRef store r o →
  (∀ n t is_root, r = RefNode n → o = Some t → is_root = false →
     written store' (collect_for_save n is_root).2 →
     persisted store' (collect_for_save n is_root).1 t is_root) →
  written store' (collect_ref r).2 → persisted_ref store' (collect_ref r).1 o.
Proof using Type*.
  intros HR Hnode Hw. destruct HR as [|n t HR|t Hown Hst He Hne]; simpl in *.
  - split; [constructor|done].
  - specialize (Hnode n t false eq_refl eq_refl eq_refl).
    destruct (collect_for_save n false) as [n' b]. simpl in *.
    destruct (Hnode Hw) as (HR' & Hst & Ho). split; [by constructor|].
    intros c [= <-]. split; [done|]. intros He. apply Ho. by rewrite He.
  - assert (RepRef store (RefHash (keccak (to_message (mem t)))) (Some t)) as HR by by constructor.
    split; [by apply (RepRef_extends store)|]. intros c [= <-].
    by destruct (hash_stored store store' Hext _ _ HR).
Qed.

(** The stored tree of a node whose children are persisted. *)
Lemma stored_of_children n t l r :
  Rep store n t → canonical t → tree_bounds t →
  persisted_ref store' l (tleft t) → persisted_ref store' r (tright t) →
  written store' (long_value_entry n) → Stored store' t.
Proof.
  intros HR Hc Hb [_ Hl] [_ Hr] Hw.
  assert (∀ b c, child t b = Some c → Stored store' c ∧ (is_embeddable (mem c) = false → Own store' c))
    as Hch by (intros []; simpl; auto).
  constructor.
  - by destruct Hb.
  - intros v Hv Hlen. assert (value n = Some v) as Hnv by (destruct HR; congruence).
    apply Hw. unfold long_value_entry, has_long_value, value_length. rewrite Hnv.
    destruct (Nat.ltb_spec 32 (length v)); [|lia].
    destruct HR as [n t _ _ Hvh _ _ _ _ _]. unfold get_value_hash. rewrite Hvh, Hv. simpl. by left.
  - intros b c Hbc. by apply (Hch b).
  - intros b c Hbc. split; [|by apply (Hch b)].
    apply mem_not_empty. by eapply canonical_child.
Qed.

Lemma collect_persisted n : ∀ t is_root,
  Rep store n t → canonical t → tree_bounds t →
  (saved n = true → is_root = true → Own store t) →
  written store' (collect_for_save n is_root).2 →
  persisted store' (collect_for_save n is_root).1 t is_root.
Proof using Type*.
  induction n as [n IHl IHr] using node_rect'. intros t is_root HR Hc Hb Hroot.
  rewrite collect_for_save_eq. destruct (saved n) eqn:Hs.
  { intros _. simpl. destruct HR as [n t Hp Hv Hvh Hlvl Hcs Hsv Hl Hr] eqn:HRe. clear HRe.
    destruct (Hsv Hs) as [Hst Ho]. split; [by apply (Rep_extends store)|].
    split; [by apply (Stored_extends store)|]. intros Hor. apply (Own_extends store); [done|].
    destruct is_root; [by apply Hroot|]. apply Ho. simpl in Hor. by destruct (is_embeddable (mem t)). }
  assert (∀ b, written store' (collect_ref (select_child n b)).2 →
    persisted_ref store' (collect_ref (select_child n b)).1 (child t b)) as Hch.
  { intros b. apply persisted_ref_intro; [by apply rep_child|].
    intros c ct ir Hsel Hct -> Hw. pose proof (rep_child _ _ _ b HR) as Hrc.
    rewrite Hsel, Hct in Hrc. inversion_clear Hrc.
    destruct b; [eapply IHr|eapply IHl]; eauto using canonical_child, tree_bounds_child; done. }
  pose proof (Hch false) as Hcl. pose proof (Hch true) as Hcr. simpl in Hcl, Hcr.
  destruct (collect_ref (left_ref n)) as [l bl]. destruct (collect_ref (right_ref n)) as [r br].
  simpl in Hcl, Hcr.
  assert (written store' (bl ++ br ++ long_value_entry n) →
    Stored store' t ∧ ((is_root || negb (is_embeddable (mem t)) = true → Own store' t) →
      persisted store' (set_saved n l r) t is_root)) as Hdone.
  { rewrite !written_app. intros (Hwl & Hwr & Hwv).
    assert (Stored store' t) as Hst by (eapply stored_of_children; eauto).
    split; [done|]. intros Hown. split; [|done].
    destruct (Hcl Hwl) as [Hl _]. destruct (Hcr Hwr) as [Hr _].
    destruct HR. constructor; [assumption..| |exact Hl|exact Hr]. intros _. split; [done|].
    intros He. apply Hown. by rewrite He, orb_true_r. }
  rewrite (rep_embeddable _ _ _ HR), (rep_to_message _ _ _ HR).
  destruct (is_embeddable (mem t)) eqn:He, is_root; cbn [andb negb snd fst].
  2: { intros Hw. by apply (Hdone Hw). }
  all: rewrite written_app, written_cons; intros (Hw & Hown & _); by apply (Hdone Hw).
Qed.

End collect.

(** ** Writing the batch *)

Section write.
Context {St : Type} `{TrieStoreLaws St} (store : St).

(** The hash function does not collide on what is written: a key of the batch
    has one message, there and in the store. *)
Definition no_collision (batch : list (bytes * bytes)) : Prop :=
  ∀ h m m', (h, m) ∈ batch → (h, m') ∈ batch ∨ ts_get store h = Some m' → m' = m.

Lemma put_many_written batch : no_collision batch → written (put_many store batch) batch.
Proof using Type*.
  intros Hnc h m Hin. apply ts_get_put_many_in; [|done]. intros v' Hv'. by eapply Hnc; eauto.
Qed.

Lemma put_many_extends batch : no_collision batch → extends store (put_many store batch).
Proof using Type*.
  intros Hnc h m Hget. destruct (decide (h ∈ batch.*1)) as [Hin|Hin].
  - apply list_elem_of_fmap in Hin as ([h' m'] & -> & Hin). simpl in *.
    rewrite (put_many_written batch Hnc _ _ Hin). f_equal. symmetry. by eapply Hnc; eauto.
  - by rewrite ts_get_put_many_ne.
Qed.

(** The same of the store's own batch write. *)
Lemma batch_extends batch : no_collision batch → extends store (ts_put_many store batch).
Proof using Type*. intros Hnc h m. rewrite ts_get_put_many. by apply put_many_extends. Qed.

Lemma batch_written batch : no_collision batch → written (ts_put_many store batch) batch.
Proof using Type*. intros Hnc h m. rewrite ts_get_put_many. by apply put_many_written. Qed.

(** [save] of a trie that stands for [t]. *)
Lemma save_persisted n t is_root :
  Rep store n t → canonical t → tree_bounds t →
  (saved n = true → is_root = true → Own store t) →
  no_collision (collect_for_save n is_root).2 →
  extends store (save store n is_root).2
  ∧ persisted (save store n is_root).2 (save store n is_root).1 t is_root.
Proof using Type*.
  intros HR Hc Hb Hroot Hnc. set (batch := (collect_for_save n is_root).2) in *.
  set (store' := (save store n is_root).2).
  assert (extends store store' ∧ written store' batch) as [Hext Hw].
  { assert (store' = match batch with [] => store | _ => ts_put_many store batch end) as ->.
    { subst store' batch. unfold save. by destruct (collect_for_save n is_root). }
    destruct batch as [|e batch']; [|by split; [apply batch_extends|apply batch_written]].
    split; [by intros h m|]. by intros h m ?%elem_of_nil. }
  split; [done|]. pose proof (collect_persisted store store' Hext n t is_root HR Hc Hb Hroot Hw) as Hp.
  revert Hp. subst store'. unfold save. by destruct (collect_for_save n is_root).
Qed.

End write.

(** Entries are filed under the hash of their content. *)
Lemma collect_ref_addressed {St} `{TrieStore St} (store : St) r o :
  RepRef store r o →
  (∀ n t, r = RefNode n → o = Some t → Forall addressed (collect_for_save n false).2) →
  Forall addressed (collect_ref r).2.
Proof.
  intros HR Hn. destruct HR as [|n t HR|]; simpl; [done| |done].
  specialize (Hn n t eq_refl eq_refl). by destruct (collect_for_save n false).
Qed.

Lemma collect_addressed {St} `{TrieStore St} (store : St) n : ∀ t is_root,
  Rep store n t → Forall addressed (collect_for_save n is_root).2.
Proof.
  induction n as [n IHl IHr] using node_rect'. intros t is_root HR.
  rewrite collect_for_save_eq. destruct (saved n); [done|].
  assert (∀ b, Forall addressed (collect_ref (select_child n b)).2) as Hch.
  { intros b. eapply collect_ref_addressed; [by apply rep_child|].
    intros c ct Hsel Hct. pose proof (rep_child _ _ _ b HR) as Hrc.
    rewrite Hsel, Hct in Hrc. inversion_clear Hrc. destruct b; [eapply IHr|eapply IHl]; eauto. }
  pose proof (Hch false) as Hcl. pose proof (Hch true) as Hcr. simpl in Hcl, Hcr.
  destruct (collect_ref (left_ref n)) as [l bl]. destruct (collect_ref (right_ref n)) as [r br].
  simpl in Hcl, Hcr.
  assert (Forall addressed (long_value_entry n)) as Hv.
  { unfold long_value_entry. destruct (has_long_value n); [|done].
    destruct HR as [n t _ Hval Hvh _ _ _ _ _]. unfold get_value_hash. rewrite Hvh, Hval.
    destruct (tval t); [|done]. by constructor. }
  destruct (is_embeddable n && negb is_root); cbn [snd]; rewrite !Forall_app;
    split_and?; try done. by constructor.
Qed.

End save.
End NodeSave.
