(* ===== verification/Trie.v ===== *)
(** * The trie as a machine: crates/trie/src/node.rs over a store

    The operations a client runs against a [TrieNode] and its [TrieStore]
    ([put], [delete], [delete_recursive], [save], reloading by root hash) as a
    step relation, against its contract: a finite map from bit strings to
    values, whose root hash depends on the map alone. *)
From S2P Require Import Prelude Path Varint Store Node Unitrie NodeCodec NodeRefine NodeSave.
From stdpp Require Import options.

Module Trie.
Import Store Node Unitrie NodeCodec NodeRefine NodeSave.
Local Open Scope Z_scope.

(** What a trie holds. *)
Abbreviation contents := (gmap (list bool) bytes).

Section trie.
Context `{Keccak}.

(** ** Sizes *)

Definition val_len (v : option bytes) : Z :=
  match v with Some w => Z.of_nat (length w) | None => 0 end.

(** An upper bound, free of wrap-around, on what a subtree occupies. *)
Fixpoint weight (t : tree) : Z :=
  let ow (o : option tree) := match o with Some c => weight c | None => 0 end in
  200 + Z.of_nat (length (tpath t)) + val_len (tval t) + ow (tleft t) + ow (tright t).

Definition oweight (o : option tree) : Z := match o with Some c => weight c | None => 0 end.

Lemma weight_eq p v l r :
  weight (mkTree p v l r) = 200 + Z.of_nat (length p) + val_len v + oweight l + oweight r.
Proof. done. Qed.

Lemma val_len_nonneg v : 0 ≤ val_len v.
Proof. destruct v; simpl; lia. Qed.

Lemma weight_nonneg t : 0 ≤ weight t.
Proof.
  induction t as [p v l r IHl IHr] using tree_rect'. rewrite weight_eq.
  pose proof (val_len_nonneg v).
  assert (0 ≤ oweight l) by (destruct l; simpl; [by apply IHl|lia]).
  assert (0 ≤ oweight r) by (destruct r; simpl; [by apply IHr|lia]). lia.
Qed.

Lemma oweight_nonneg o : 0 ≤ oweight o.
Proof. destruct o; simpl; [apply weight_nonneg|lia]. Qed.

#[global] Arguments weight : simpl never.

Lemma weight_tput t : ∀ k v,
  weight (tput t k v) ≤ weight t + 400 + Z.of_nat (length k) + Z.of_nat (length v).
Proof.
  induction t as [p w l r IHl IHr] using tree_rect'. intros k v.
  pose proof (val_len_nonneg w). pose proof (oweight_nonneg l). pose proof (oweight_nonneg r).
  destruct (strip p k) as [[|b rest]|] eqn:Hs.
  - rewrite tput_here by done. cbn [tpath tleft tright]. rewrite !weight_eq. simpl. lia.
  - rewrite (tput_below _ _ _ b rest) by done. apply strip_Some in Hs. subst k. rewrite length_app.
    assert (oweight (oput (child (mkTree p w l r) b) rest v)
            ≤ oweight (child (mkTree p w l r) b) + 400 + Z.of_nat (length rest)
              + Z.of_nat (length v)) as Hch.
    { destruct b; simpl; [destruct r as [r|]|destruct l as [l|]]; simpl;
        [by apply IHr|unfold leaf; rewrite weight_eq; simpl; lia
        |by apply IHl|unfold leaf; rewrite weight_eq; simpl; lia]. }
    destruct b; cbn [set_child child tpath tval tleft tright] in *;
      rewrite !weight_eq; cbn [length]; lia.
  - destruct (strip_None_split _ _ Hs) as (c & b & p' & Hlc & Hpath & Hkey).
    rewrite (tput_split _ k v c b p') by done. cbn [tpath tval tleft tright].
    rewrite Hpath, (weight_eq _ w), length_app. cbn [length].
    destruct Hkey as [->|[k' ->]]; rewrite ?drop_all, ?drop_app_length, ?length_app;
      destruct b; unfold branch, leaf; rewrite !weight_eq; simpl; rewrite ?weight_eq; simpl; lia.
Qed.

Lemma weight_collapse p v l r : oweight (collapse p v l r) ≤ weight (mkTree p v l r).
Proof.
  rewrite weight_eq. pose proof (val_len_nonneg v).
  destruct v as [v|], l as [[pl vl ll lr]|], r as [[pr vr rl rr]|]; simpl;
    rewrite ?weight_eq, ?length_app; cbn [length]; simpl in *; rewrite ?weight_eq; lia.
Qed.

Lemma weight_tdelete rd t : ∀ k, oweight (tdelete_with rd t k) ≤ weight t.
Proof.
  induction t as [p w l r IHl IHr] using tree_rect'. intros k.
  pose proof (val_len_nonneg w). pose proof (oweight_nonneg l). pose proof (oweight_nonneg r).
  destruct (strip p k) as [[|b rest]|] eqn:Hs.
  - rewrite tdelete_here by done. cbn [tval tpath tleft tright].
    destruct w as [w|]; [|done]. destruct rd; simpl; [apply weight_nonneg|].
    pose proof (weight_collapse p None l r) as Hw. rewrite !weight_eq in *. simpl in *. lia.
  - rewrite (tdelete_below _ _ _ b rest) by done. cbn zeta. cbn [tval tpath tleft tright child].
    etransitivity; [apply weight_collapse|]. rewrite !weight_eq.
    destruct b; [destruct r as [r|]|destruct l as [l|]]; simpl in *; try lia;
      [specialize (IHr r eq_refl rest)|specialize (IHl l eq_refl rest)]; lia.
  - by rewrite tdelete_outside.
Qed.

(** ** The recorded sizes do not wrap *)

Lemma child_serialized_bound o : (ref_serialized_length (mem_ref o) ≤ 45)%nat.
Proof.
  destruct o as [c|]; simpl; [|lia]. destruct (is_embeddable (mem c)) eqn:He; [|lia].
  apply embeddable_length in He. lia.
Qed.

Lemma wrap_le w x : 0 ≤ x → wrap w x ≤ x.
Proof. intros Hx. unfold wrap. destruct (Z.le_gt_cases 0 w).
  - apply Z.mod_le; [done|]. apply Z.pow_pos_nonneg; lia.
  - rewrite Z.pow_neg_r, Zmod_0_r by lia. lia.
Qed.

Lemma message_bound t :
  external_value_length (mem t) + Z.of_nat (message_length (mem t))
  ≤ 200 + Z.of_nat (length (tpath t)) + val_len (tval t).
Proof.
  rewrite message_length_eq, (mem_eq t). unfold message_length_with, external_value_length.
  cbn [shared_path left_ref right_ref].
  pose proof (child_serialized_bound (tleft t)). pose proof (child_serialized_bound (tright t)).
  assert (SharedPath.serialized_length (length (tpath t)) ≤ 11 + length (tpath t))%nat as Hsp.
  { unfold SharedPath.serialized_length, SharedPath.length_prefix_size, Path.encoded_len.
    pose proof (Varint.varint_size_bounds (Z.of_nat (length (tpath t)))).
    assert ((length (tpath t) + 7) / 8 ≤ length (tpath t) + 1)%nat.
    { apply Nat.Div0.div_le_upper_bound. lia. }
    repeat case_match; lia. }
  unfold has_long_value, value_length. cbn [value long_value_len].
  set (cs := children_size _). pose proof (Varint.varint_size_bounds cs).
  destruct (is_terminal _), (tval t) as [v|]; simpl;
    try (destruct (Nat.ltb_spec 32 (length v))); lia.
Qed.

Lemma size_of_weight o : size_of o ≤ oweight o.
Proof.
  destruct o as [t|]; [|simpl; lia]. simpl.
  induction t as [p v l r IHl IHr] using tree_rect'. rewrite weight_eq.
  pose proof (message_bound (mkTree p v l r)) as Hm. cbn [tpath tval] in Hm.
  assert (size_of l ≤ oweight l) by (destruct l; simpl; [by apply IHl|lia]).
  assert (size_of r ≤ oweight r) by (destruct r; simpl; [by apply IHr|lia]).
  pose proof (size_of_fits l) as [? _]. pose proof (size_of_fits r) as [? _].
  assert (0 ≤ external_value_length (mem (mkTree p v l r)))
    by (unfold external_value_length; case_match; lia).
  unfold node_size. rewrite children_size_mem. cbn [tleft tright].
  set (e := external_value_length _) in *. set (m := message_length _) in *. unfold u64.
  pose proof (wrap_le 64 (size_of l + size_of r)) as Ha1.
  pose proof (wrap_fits 64 (size_of l + size_of r)) as [Ha2 _]; [lia|].
  set (a := wrap 64 (size_of l + size_of r)) in *.
  pose proof (wrap_le 64 (a + e)) as Ha3. pose proof (wrap_fits 64 (a + e)) as [Ha4 _]; [lia|].
  set (b := wrap 64 (a + e)) in *. pose proof (wrap_le 64 (b + Z.of_nat m)). lia.
Qed.

Lemma weight_nowrap t : weight t < 2 ^ 64 → nowrap t.
Proof.
  induction t as [p v l r IHl IHr] using tree_rect'. rewrite weight_eq. intros Hw.
  pose proof (val_len_nonneg v). pose proof (oweight_nonneg l). pose proof (oweight_nonneg r).
  pose proof (size_of_weight l). pose proof (size_of_weight r).
  constructor; cbn [tleft tright]; [lia|].
  intros [] c; simpl; intros ->; simpl in *; [apply IHr|apply IHl]; try done; lia.
Qed.

(** ** Depth *)

Definition value_fits (v : option bytes) : Prop :=
  ∀ w, v = Some w → w ≠ [] ∧ fits 24 (Z.of_nat (length w)).

(** No key of the tree is longer than [d] bits, no value empty or too long. *)
Inductive within : nat → tree → Prop :=
  | within_intro d t :
      (length (tpath t) ≤ d)%nat → value_fits (tval t) →
      (∀ b c, child t b = Some c → (length (tpath t) + 1 ≤ d)%nat) →
      (∀ b c, child t b = Some c → within (d - (length (tpath t) + 1)) c) →
      within d t.

Definition owithin (d : nat) (o : option tree) : Prop := ∀ t, o = Some t → within d t.

Lemma value_fits_none : value_fits None.
Proof. by intros w. Qed.

Lemma value_fits_some v : v ≠ [] → fits 24 (Z.of_nat (length v)) → value_fits (Some v).
Proof. by intros ?? w [= <-]. Qed.

#[local] Opaque value_fits.

Lemma within_leaf d p v : (length p ≤ d)%nat → value_fits (Some v) → within d (leaf p v).
Proof. intros Hp Hv. constructor; [exact Hp|exact Hv|by intros []..]. Qed.

Lemma within_mk d p v l r :
  (length p ≤ d)%nat → value_fits v →
  (∀ c, l = Some c ∨ r = Some c → (length p + 1 ≤ d)%nat ∧ within (d - (length p + 1)) c) →
  within d (mkTree p v l r).
Proof.
  intros Hp Hv Hc. constructor; [exact Hp|exact Hv|..]; intros [] c; simpl; intros Hch;
    destruct (Hc c); auto.
Qed.

Lemma within_inv d p v l r : within d (mkTree p v l r) →
  (length p ≤ d)%nat ∧ value_fits v ∧
  (∀ c, l = Some c ∨ r = Some c → (length p + 1 ≤ d)%nat ∧ within (d - (length p + 1)) c).
Proof.
  inversion_clear 1 as [? ? Hp Hv Hlen Hch]. split; [done|]. split; [done|].
  intros c [Hc|Hc]; [split; [by eapply (Hlen false)|by apply (Hch false)]
                    |split; [by eapply (Hlen true)|by apply (Hch true)]].
Qed.

(** Moving a node up a path, or down it. *)
Lemma within_repath d p b q v l r :
  (length p + 1 ≤ d)%nat →
  within (d - (length p + 1)) (mkTree q v l r) ↔
  within d (mkTree (p ++ b :: q) v l r).
Proof.
  intros Hlen. split; intros (Hp & Hv & Hc)%within_inv;
    rewrite ?length_app in *; cbn [length] in *; (apply within_mk; [|exact Hv|]);
    rewrite ?length_app in *; cbn [length] in *; [lia| |lia|];
    intros c Hlr; destruct (Hc c Hlr) as [Hle Hw]; (split; [lia|]).
  - replace (d - (length p + S (length q) + 1))%nat
      with (d - (length p + 1) - (length q + 1))%nat by lia. done.
  - replace (d - (length p + 1) - (length q + 1))%nat
      with (d - (length p + S (length q) + 1))%nat by lia. done.
Qed.

Lemma within_set_child d t b x :
  within d t → (length (tpath t) + 1 ≤ d)%nat → within (d - (length (tpath t) + 1)) x →
  within d (set_child t b (Some x)).
Proof.
  destruct t as [p w l r]. intros (Hp & Hv & Hc)%within_inv Hlen Hx. cbn [tpath] in *.
  destruct b; (apply within_mk; [exact Hp|exact Hv|]); intros c [Heq|Heq]; cbn in Heq;
    first [injection Heq as <-; by split|apply Hc; auto].
Qed.

Lemma within_branch d c v b x :
  (length c + 1 ≤ d)%nat → value_fits v → within (d - (length c + 1)) x →
  within d (branch c v b (Some x) None).
Proof.
  intros Hc Hv Hx. destruct b; (apply within_mk; [lia|exact Hv|]); intros y [Heq|Heq];
    first [discriminate|injection Heq as <-; by split].
Qed.

Lemma within_child d t b c : within d t → child t b = Some c →
  within (d - (length (tpath t) + 1)) c.
Proof. destruct 1 as [d t _ _ _ Hch]. apply Hch. Qed.

Lemma within_tput t : ∀ d k v, within d t → (length k ≤ d)%nat → value_fits (Some v) →
  within d (tput t k v).
Proof.
  induction t as [p w l r IHl IHr] using tree_rect'. intros d k v Hw Hk Hv.
  pose proof (within_inv _ _ _ _ _ Hw) as (Hp & Hwv & Hc).
  destruct (strip p k) as [[|b rest]|] eqn:Hs.
  - rewrite tput_here by done. by apply within_mk.
  - rewrite (tput_below _ _ _ b rest) by done. apply strip_Some in Hs. subst k.
    rewrite length_app in Hk. cbn [length] in Hk.
    apply within_set_child; [exact Hw|cbn [tpath]; lia|]. cbn [tpath].
    pose proof (λ c, within_child d _ b c Hw) as Hwc. cbn [tpath] in Hwc.
    destruct (child (mkTree p w l r) b) as [c|] eqn:Hch.
    + destruct b; [apply IHr|apply IHl]; try exact Hch; try exact Hv; try lia; by apply Hwc.
    + apply within_leaf; [lia|exact Hv].
  - destruct (strip_None_split _ _ Hs) as (c & b & p' & Hlc & Hpath & Hkey).
    rewrite (tput_split _ k v c b p') by done. cbn [tpath tval tleft tright].
    rewrite <- tput_branch by exact Hkey. cbn [tpath] in Hpath. subst p.
    rewrite length_app in Hp. cbn [length] in Hp.
    assert (within (d - (length c + 1)) (mkTree p' w l r)) as Hpushed
      by (apply (within_repath d c b); [lia|exact Hw]).
    assert (within d (branch c None b (Some (mkTree p' w l r)) None)) as Hbr
      by (apply within_branch; [lia|apply value_fits_none|exact Hpushed]).
    assert (tpath (branch c None b (Some (mkTree p' w l r)) None) = c) as Hpc by by destruct b.
    destruct Hkey as [->|[k' ->]].
    + rewrite tput_here by by rewrite Hpc, strip_self. rewrite Hpc.
      destruct b; [apply (within_branch d c (Some v) true)|apply (within_branch d c (Some v) false)];
        try lia; try exact Hv; exact Hpushed.
    + rewrite (tput_below _ _ _ (negb b) k') by by rewrite Hpc, strip_app.
      rewrite length_app in Hk. cbn [length] in Hk.
      apply within_set_child; rewrite ?Hpc; [exact Hbr|lia|].
      replace (child _ (negb b)) with (@None tree) by by destruct b.
      apply within_leaf; [lia|exact Hv].
Qed.

Lemma within_merge d p v l r b c :
  within d (mkTree p v l r) → child (mkTree p v l r) b = Some c →
  within d (mkTree (p ++ b :: tpath c) (tval c) (tleft c) (tright c)).
Proof.
  intros Hw Hch. destruct c as [pc vc lc rc]. cbn [tpath tval tleft tright].
  inversion_clear Hw as [? ? _ _ Hlen Hchild].
  apply within_repath; [exact (Hlen b _ Hch)|exact (Hchild b _ Hch)].
Qed.

Lemma owithin_collapse d p v l r : within d (mkTree p v l r) → owithin d (collapse p v l r).
Proof.
  intros Hw t Ht. destruct v as [v|], l as [cl|], r as [cr|]; cbn [collapse] in Ht;
    try discriminate Ht; injection Ht as <-; try exact Hw;
    [exact (within_merge d p None (Some cl) None false cl Hw eq_refl)
    |exact (within_merge d p None None (Some cr) true cr Hw eq_refl)].
Qed.

Lemma owithin_tdelete rd t : ∀ d k, within d t → owithin d (tdelete_with rd t k).
Proof.
  induction t as [p w l r IHl IHr] using tree_rect'. intros d k Hw.
  pose proof (within_inv _ _ _ _ _ Hw) as (Hp & Hwv & Hc).
  destruct (strip p k) as [[|b rest]|] eqn:Hs.
  - rewrite tdelete_here by done. cbn [tval tpath tleft tright].
    destruct w as [w|]; [|by intros t [= <-]]. destruct rd; [discriminate|].
    apply owithin_collapse, within_mk; [exact Hp|apply value_fits_none|exact Hc].
  - rewrite (tdelete_below _ _ _ b rest) by done. cbn zeta. cbn [tval tpath tleft tright child].
    apply owithin_collapse, within_mk; [exact Hp|exact Hwv|]. intros c.
    destruct b; [destruct r as [r|]|destruct l as [l|]]; intros [Heq|Heq];
      try discriminate Heq; try (apply Hc; auto; fail); (split; [eapply Hc; auto|]).
    + eapply IHr; [reflexivity| |exact Heq]. apply Hc; auto.
    + eapply IHl; [reflexivity| |exact Heq]. apply Hc; auto.
  - rewrite tdelete_outside by done. intros t [= <-]. exact Hw.
Qed.

Lemma within_bounds d t : within d t → (d ≤ 1024)%nat → tree_bounds t.
Proof.
  induction 1 as [d t Hp Hv Hlen Hch IH]. intros Hd. constructor.
  - split; [unfold MAX_SHARED_PATH_BITS; lia|exact Hv].
  - intros b c Hc. apply (IH b); [exact Hc|lia].
Qed.

(** ** The machine *)

Inductive op :=
  | OpPut (key : list bool) (v : bytes)
  | OpDelete (key : list bool)
  | OpDeleteRecursive (key : list bool)
  | OpSave
  | OpReload.

(** The contract. *)
Definition spec_step (m : contents) (o : op) : contents :=
  match o with
  | OpPut k v => <[k := v]> m
  | OpDelete k => base.delete k m
  | OpDeleteRecursive k =>
      match m !! k with
      | Some _ => filter (λ kv, ¬ k `prefix_of` kv.1) m
      | None => m
      end
  | OpSave | OpReload => m
  end.

Definition spec_run (ops : list op) : contents := foldl spec_step ∅ ops.

(** What a put may add to the recorded sizes. *)
Definition op_cost (o : op) : Z :=
  match o with OpPut k v => 400 + Z.of_nat (length k) + Z.of_nat (length v) | _ => 0 end.

Definition cost (ops : list op) : Z := foldr (λ o c, op_cost o + c) 0 ops.

Section moves.
Context {St : Type} `{TrieStore St}.

(** A client's moves.  Keys are at most [MAX_SHARED_PATH_BITS] long and values
    fill their three-byte length; a save meets no hash collision; a reload
    forgets the nodes in memory and reads the saved root back by its hash. *)
Inductive step : St * TrieNode → op → St * TrieNode → Prop :=
  | step_put s n k v :
      Z.of_nat (length k) ≤ MAX_SHARED_PATH_BITS → v ≠ [] → fits 24 (Z.of_nat (length v)) →
      step (s, n) (OpPut k v) (s, put s n k v)
  | step_delete s n k : step (s, n) (OpDelete k) (s, delete s n k)
  | step_delete_recursive s n k :
      step (s, n) (OpDeleteRecursive k) (s, delete_recursive s n k)
  | step_save s n :
      no_collision s (collect_for_save n true).2 →
      step (s, n) OpSave ((save s n true).2, (save s n true).1)
  | step_reload s n n' :
      saved n = true → is_empty_trie n = false →
      try_resolve s (RefHash (compute_hash n)) = Found n' →
      step (s, n) OpReload (s, n').

Inductive steps : St * TrieNode → list op → St * TrieNode → Prop :=
  | steps_nil st : steps st [] st
  | steps_snoc st ops st' o st'' :
      steps st ops st' → step st' o st'' → steps st (ops ++ [o]) st''.

End moves.

Section invariant.
Context {St : Type} `{TrieStore St}.

(** What holds of every state: the node stands for a canonical tree with the
    contents of the map. *)
Record Inv (w : Z) (s : St) (n : TrieNode) (m : contents) (o : option tree) : Prop := {
  inv_rep : RepRoot s n o;
  inv_canonical : ocanonical o;
  inv_within : owithin 1024 o;
  inv_weight : oweight o ≤ w;
  inv_lookup : ∀ k, olookup o k = m !! k;
  inv_own : ∀ t, o = Some t → saved n = true → Own s t;
}.

End invariant.

Section saved.
Context {St : Type} `{TrieStore St}.

(** A node that an update returns is the node it was given or not saved. *)
Lemma coalesce_saved s v n n' : coalesce (St:=St) s v n = Some n' → n' = n ∨ saved n' = false.
Proof.
  unfold coalesce. destruct (is_none v); [|naive_solver].
  repeat case_match; try (by intros [= <-]; left); try done;
    intros (c & _ & [= <-])%bind_Some; by right.
Qed.

Lemma internal_put_saved s fuel : ∀ n k v rd n',
  internal_put (St:=St) fuel s n k v rd = Some (Some n') → n' = n ∨ saved n' = false.
Proof.
  induction fuel as [|fuel IH]; intros n k v rd n'; [done|]. cbn [internal_put].
  destruct (length (common n k) <? length (shared_path n))%nat.
  { destruct (is_none _); [naive_solver|]. unfold put_impl_with.
    intros (t & Ht & [= Hco])%bind_Some. apply bind_Some in Hco as (x & -> & Hco).
    apply IH in Ht. apply coalesce_saved in Hco as [->|]; [|by right].
    destruct Ht as [->|]; by right. }
  destruct (length k <=? length (shared_path n))%nat.
  { repeat case_match; naive_solver. }
  destruct (is_empty_trie n); [naive_solver|].
  intros (t & _ & Hx)%bind_Some. cbn zeta in Hx.
  destruct (is_empty_trie_params _ _ _); [done|]. injection Hx as <-. by right.
Qed.

Lemma put_impl_saved s n k v rd n' :
  put_impl (St:=St) s n k v rd = Some (Some n') → n' = n ∨ saved n' = false.
Proof.
  unfold put_impl, put_impl_with. intros (t & Ht & [= Hco])%bind_Some.
  apply bind_Some in Hco as (x & -> & Hco). apply internal_put_saved in Ht.
  apply coalesce_saved in Hco as [->|]; naive_solver.
Qed.

End saved.

Section machine.
Context {St : Type} `{TrieStoreLaws St}.
Implicit Types s : St.

Lemma inv_nowrap w s n m o t : Inv w s n m o → w < 2 ^ 64 → o = Some t → nowrap t.
Proof. intros [_ _ _ Hw _ _] Hlt ->. apply weight_nowrap. simpl in Hw. lia. Qed.

Lemma or_empty_saved (r : option (option TrieNode)) n :
  (∀ n', r = Some (Some n') → n' = n ∨ saved n' = false) →
  or_empty r = n ∨ saved (or_empty r) = false.
Proof. intros Hr. destruct r as [[n'|]|]; simpl; auto. Qed.

(** The message a saved root is filed under outlives an update that returns it. *)
Lemma own_update s n n' (o : option tree) t :
  RepRoot s n o → (∀ t, o = Some t → saved n = true → Own s t) →
  n' = n ∨ saved n' = false → Rep s n' t → saved n' = true → canonical t → Own s t.
Proof.
  intros HR Hown [->|Hs] HR' Hsv Hc; [|congruence].
  destruct o as [t0|]; simpl in HR.
  - unfold Own. rewrite <- (rep_to_message _ _ _ HR'), (rep_to_message _ _ _ HR). by apply Hown.
  - destruct HR as (_ & Hv & Hll & Hl & Hr & _).
    pose proof (rep_not_empty _ _ _ HR' Hc) as He. unfold is_empty_trie in He.
    by rewrite Hv, Hll, Hl, Hr in He.
Qed.

Lemma olookup_oput o k v k' :
  olookup (oput o k v) k' = if decide (k = k') then Some v else olookup o k'.
Proof. destruct o; simpl; [apply tlookup_tput|apply tlookup_leaf]. Qed.

Lemma lookup_spec_delete (rd : bool) (m : contents) t k k' :
  (∀ k, tlookup t k = m !! k) →
  olookup (tdelete_with rd t k) k'
  = spec_step m (if rd then OpDeleteRecursive k else OpDelete k) !! k'.
Proof.
  intros Hm. rewrite olookup_tdelete_with.
  assert (removed rd t k k' ↔ k = k' ∨ (rd = true ∧ is_Some (m !! k) ∧ k `prefix_of` k')) as Hrem
    by (unfold removed; by rewrite Hm).
  rewrite Hm. destruct (decide (removed rd t k k')) as [Hr|Hr]; rewrite Hrem in Hr; clear Hrem.
  - symmetry. destruct rd; cbn [spec_step].
    + destruct (m !! k) as [v|] eqn:Hk; [|destruct Hr as [->|(_ & [? ?] & _)]; congruence].
      apply map_lookup_filter_None_2. right. intros v' Hv' Hn. apply Hn. simpl.
      destruct Hr as [->|(_ & _ & ?)]; done.
    + destruct Hr as [->|(? & _)]; [by rewrite lookup_delete_eq|done].
  - destruct rd; cbn [spec_step]; [|rewrite lookup_delete_ne; auto].
    destruct (m !! k) as [v|] eqn:Hk; [|done].
    rewrite map_lookup_filter. destruct (m !! k') eqn:Hk'; simpl; [|done].
    rewrite option_guard_True; [done|]. simpl. intros ?. apply Hr. eauto.
Qed.

(** The operations, reading through a store that holds more than the node rests on. *)
Lemma inv_put_via {Rd} `{TrieStore Rd} (reader : Rd) w s n m o k v :
  extends s reader → Inv w s n m o → w < 2 ^ 64 →
  Z.of_nat (length k) ≤ MAX_SHARED_PATH_BITS → v ≠ [] → fits 24 (Z.of_nat (length v)) →
  Inv (w + op_cost (OpPut k v)) s (put reader n k v) (<[k := v]> m) (oput o k v).
Proof.
  intros Hext HI Hw Hk Hv Hf. pose proof (λ t, inv_nowrap _ _ _ _ _ t HI Hw) as Hnw.
  pose proof HI as [HR Hc Hwi Hwe Hlk Hown].
  assert (RepRoot s (put reader n k v) (oput o k v)) as HR'
    by (by apply put_root_via).
  assert (value_fits (Some v)) as Hvf by by apply value_fits_some.
  assert (ocanonical (oput o k v)) as Hc'.
  { apply ocanonical_oput; [|done]. intros t ->. inversion_clear Hc. by apply canonical_tput. }
  constructor; [exact HR'|exact Hc'|..].
  - unfold MAX_SHARED_PATH_BITS in Hk. intros t Ht. destruct o as [t0|]; injection Ht as <-.
    + apply within_tput; [by apply Hwi|lia|exact Hvf].
    + apply within_leaf; [lia|exact Hvf].
  - simpl. destruct o as [t0|]; simpl in *.
    + pose proof (weight_tput t0 k v). lia.
    + unfold leaf. rewrite weight_eq. simpl. lia.
  - intros k'. rewrite olookup_oput, Hlk. destruct (decide (k = k')) as [->|];
      [by rewrite lookup_insert_eq|by rewrite lookup_insert_ne].
  - intros t Ht Hsv. rewrite Ht in HR', Hc'. inversion_clear Hc'.
    eapply (own_update s n _ o t HR Hown); [|exact HR'|exact Hsv|done].
    apply or_empty_saved. intros n'. apply internal_put_saved.
Qed.

Lemma inv_delete_via {Rd} `{TrieStore Rd} (reader : Rd) w s n m o k (rd : bool) :
  extends s reader → Inv w s n m o → w < 2 ^ 64 →
  Inv w s (or_empty (put_impl reader n k None rd))
    (spec_step m (if rd then OpDeleteRecursive k else OpDelete k))
    (match o with Some t => tdelete_with rd t k | None => None end).
Proof.
  intros Hext HI Hw. pose proof HI as [HR Hc Hwi Hwe Hlk Hown].
  pose proof (delete_with_root_via s reader Hext n o k rd HR Hc (λ t, inv_nowrap _ _ _ _ _ t HI Hw)) as HR'.
  assert (ocanonical (match o with Some t => tdelete_with rd t k | None => None end)) as Hc'.
  { destruct Hc; [constructor|by apply canonical_tdelete]. }
  constructor; [exact HR'|exact Hc'|..].
  - destruct o as [t0|]; [|discriminate]. apply owithin_tdelete. by apply Hwi.
  - destruct o as [t0|]; [|done]. simpl in Hwe. pose proof (weight_tdelete rd t0 k). lia.
  - intros k'. destruct o as [t0|]; simpl in Hlk; [by apply lookup_spec_delete|].
    assert (m = ∅) as -> by (apply map_eq; intros k0; by rewrite <- Hlk, lookup_empty).
    destruct rd; cbn [spec_step]; by rewrite ?delete_empty, lookup_empty.
  - intros t Ht Hsv. rewrite Ht in HR', Hc'. inversion_clear Hc'.
    eapply (own_update s n _ o t HR Hown); [|exact HR'|exact Hsv|done].
    apply or_empty_saved. intros n'. apply put_impl_saved.
Qed.

Lemma is_empty_root_empty n : is_empty_root n → is_empty_trie n = true.
Proof. intros (_ & Hv & Hll & Hl & Hr & _). unfold is_empty_trie. by rewrite Hv, Hll, Hl, Hr. Qed.

Lemma collect_sets_saved n is_root : saved (collect_for_save n is_root).1 = true.
Proof.
  rewrite collect_for_save_eq. destruct (saved n) eqn:Hs; [done|].
  destruct (collect_ref (left_ref n)), (collect_ref (right_ref n)).
  by destruct (is_embeddable n && negb is_root).
Qed.

Lemma save_fst s n is_root : (save (St:=St) s n is_root).1 = (collect_for_save n is_root).1.
Proof. unfold save. by destruct (collect_for_save n is_root). Qed.

Lemma save_sets_saved s n is_root : saved (save (St:=St) s n is_root).1 = true.
Proof. rewrite save_fst. apply collect_sets_saved. Qed.

Lemma collect_empty_root n : is_empty_root n → is_empty_root (collect_for_save n true).1.
Proof.
  destruct n as [p v vh lvl l r cs sv]. intros (Hp & Hv & Hll & Hl & Hr & Hcs). cbn [shared_path value long_value_len left_ref right_ref children_size] in *. subst.
  rewrite collect_for_save_eq. cbn [saved left_ref right_ref].
  destruct sv; [done|]. cbn [collect_ref]. by rewrite andb_false_r.
Qed.

(** The invariant is about what the store can read. *)
Lemma inv_extends w s s' n m o : Inv w s n m o → extends s s' → Inv w s' n m o.
Proof.
  intros [HR Hc Hwi Hwe Hlk Hown] Hext. constructor; try done.
  - destruct o; [by apply (Rep_extends s)|done].
  - intros t Ht Hsv. apply (Own_extends s); [done|]. by apply Hown.
Qed.

(** A save, whatever way the batch gets into the store. *)
Lemma inv_collected {St'} `{TrieStore St'} w s (s' : St') n m o :
  Inv w s n m o → extends s s' → written s' (collect_for_save n true).2 →
  Inv w s' (collect_for_save n true).1 m o ∧
  ∀ t, o = Some t → Stored s' t ∧ Own s' t.
Proof.
  intros [HR Hc Hwi Hwe Hlk Hown] Hext Hw. destruct o as [t|]; simpl in HR.
  - inversion_clear Hc. assert (tree_bounds t) by (eapply (within_bounds 1024); [by apply Hwi|lia]).
    destruct (collect_persisted s s' Hext n t true) as (HR' & Hst & Ho); auto.
    assert (Own s' t) by by apply Ho.
    split; [|by intros ? [= <-]]. constructor; auto with rustock. by intros ? [= <-] _.
  - split; [|done]. constructor; auto; [by apply collect_empty_root|done].
Qed.

Lemma inv_save w s n m o :
  Inv w s n m o → no_collision s (collect_for_save n true).2 →
  Inv w (save s n true).2 (save s n true).1 m o.
Proof using Type*.
  intros HI Hnc. rewrite save_fst. unfold save.
  destruct (collect_for_save n true) as [n' batch] eqn:Hcol.
  pose proof (inv_collected w s (match batch with [] => s | _ => ts_put_many s batch end) n m o HI) as Hi.
  rewrite Hcol in Hi. apply Hi; (destruct batch; [by intros h m' ?%elem_of_nil || by intros h m'|]).
  - by apply batch_extends.
  - by apply batch_written.
Qed.

Lemma inv_reload_via {Rd} `{TrieStore Rd} (reader : Rd) w s n m o :
  extends s reader → Inv w s n m o → saved n = true → is_empty_trie n = false →
  ∃ n', try_resolve reader (RefHash (compute_hash n)) = Found n' ∧ Inv w s n' m o.
Proof.
  intros Hext [HR Hc Hwi Hwe Hlk Hown] Hsv He. destruct o as [t|]; simpl in HR.
  - assert (Stored s t) as Hst by (destruct HR as [? ? _ _ _ _ _ Hs _ _]; by apply Hs).
    destruct (stored_parse_via s reader Hext t Hst) as (n' & Hparse & HR').
    exists n'. rewrite (rep_compute_hash _ _ _ HR). unfold compute_hash.
    rewrite <- (proj1 (proj2 (proj2 (proj2 (rep_fields _ _ _ HR))))), He.
    split; [simpl; by rewrite (Hext _ _ (Hown t eq_refl Hsv)), Hparse|].
    constructor; auto.
  - exfalso. destruct HR as (_ & Hv & Hll & Hl & Hr & _). unfold is_empty_trie in He.
    by rewrite Hv, Hll, Hl, Hr in He.
Qed.

Lemma inv_reload w s n m o :
  Inv w s n m o → saved n = true → is_empty_trie n = false →
  ∃ n', try_resolve s (RefHash (compute_hash n)) = Found n' ∧ Inv w s n' m o.
Proof. apply inv_reload_via. by intros h m'. Qed.

Lemma root_get s n o key : RepRoot s n o →
  get s n key = olookup o key ∧ try_get s n key = Ok (olookup o key).
Proof.
  intros HR. assert (get s n key = olookup o key) as Hget.
  { destruct o as [t|]; simpl in *; [by apply get_rep|].
    destruct HR as (Hp & Hv & Hll & Hl & Hr & _). unfold get, find. cbn [find_fuel].
    unfold common, select_child. rewrite Hp, Hl, Hr, lcp_nil_r.
    destruct key as [|[] ?]; simpl; rewrite ?Hv; done. }
  split; [done|]. rewrite <- Hget. apply try_get_get.
  destruct o as [t|]; cbn [RepRoot] in HR; [intros h; by eapply try_find_rep|].
  destruct HR as (Hp & Hv & Hll & Hl & Hr & _). intros h. cbn [try_find_fuel].
  unfold common, select_child. rewrite Hp, Hl, Hr, lcp_nil_r. by destruct key as [|[] ?].
Qed.

Lemma spec_run_snoc ops o : spec_run (ops ++ [o]) = spec_step (spec_run ops) o.
Proof. unfold spec_run. by rewrite foldl_app. Qed.

Lemma op_cost_nonneg o : 0 ≤ op_cost o.
Proof. destruct o; simpl; lia. Qed.

Lemma cost_snoc ops o : cost (ops ++ [o]) = cost ops + op_cost o.
Proof.
  induction ops as [|o' ops IH]; [change (op_cost o + 0 = 0 + op_cost o); lia|].
  change (op_cost o' + cost (ops ++ [o]) = op_cost o' + cost ops + op_cost o). lia.
Qed.

Lemma inv_weaken w w' s n m o : Inv w s n m o → w ≤ w' → Inv w' s n m o.
Proof. intros [] ?. constructor; auto. lia. Qed.

(** A move that leaves the store alone. *)
Lemma step_inv_via {Rd} `{TrieStore Rd} (reader : Rd) w s n m o a n' :
  extends s reader → Inv w s n m o → w < 2 ^ 64 → a ≠ OpSave → step (reader, n) a (reader, n') →
  ∃ o', Inv (w + op_cost a) s n' (spec_step m a) o'.
Proof.
  intros Hext HI Hw Hne Hstep.
  inversion Hstep as [? ? k v Hk Hv Hf|? ? k|? ? k|? ? Hnc|? ? ? Hsv He Hres]; subst; [..|done|];
    cbn [op_cost spec_step]; rewrite ?Z.add_0_r.
  - eexists. by apply inv_put_via.
  - eexists. exact (inv_delete_via reader _ _ _ _ _ k false Hext HI Hw).
  - eexists. exact (inv_delete_via reader _ _ _ _ _ k true Hext HI Hw).
  - destruct (inv_reload_via reader _ _ _ _ _ Hext HI Hsv He) as (n2 & Hres' & HI').
    rewrite Hres in Hres'. injection Hres' as <-. by eexists.
Qed.

Lemma step_inv w s n m o a s' n' :
  Inv w s n m o → w < 2 ^ 64 → step (s, n) a (s', n') →
  ∃ o', Inv (w + op_cost a) s' n' (spec_step m a) o'.
Proof using Type*.
  intros HI Hw Hstep. assert (a = OpSave ∨ a ≠ OpSave) as [->|Hne] by (destruct a; auto).
  - inversion Hstep; subst. eexists. cbn [op_cost spec_step]. rewrite Z.add_0_r. by apply inv_save.
  - assert (s' = s) as -> by (by inversion Hstep).
    eapply (step_inv_via s); [by intros h m'|done..].
Qed.

Lemma inv_init s : Inv 0 s empty_node ∅ None.
Proof. constructor; try done. constructor. Qed.

Lemma steps_inv s0 ops s n :
  steps (s0, empty_node) ops (s, n) → cost ops < 2 ^ 64 →
  ∃ o, Inv (cost ops) s n (spec_run ops) o.
Proof using Type*.
  intros Hsteps. remember (s0, empty_node) as st0 eqn:H0'. remember (s, n) as st eqn:Hst.
  revert s n Hst. induction Hsteps as [st|st ops [s1 n1] a st' Hs IH Hstep]; intros s n Hst Hc.
  - rewrite H0' in Hst. injection Hst as <- <-. eexists. apply inv_init.
  - rewrite cost_snoc, spec_run_snoc in *. pose proof (op_cost_nonneg a).
    destruct (IH H0' s1 n1 eq_refl) as [o HI]; [lia|]. subst st'. eapply step_inv; eauto. lia.
Qed.

(** ** Properties *)

(** C1: refinement.  Whatever a client does from the empty trie ([put] with a
    value, [delete], [delete_recursive], [save], reloading from the store), [get]
    and [try_get] answer as a finite map would.  [delete_recursive] takes away
    every key below [key] if [key] itself is bound, and nothing otherwise.  The
    size bound keeps the recorded [u64] subtree sizes from wrapping. *)
Theorem trie_refines_map s0 ops s n key
    (Hsteps : steps (s0, empty_node) ops (s, n)) (Hcost : cost ops < 2 ^ 64) :
  get s n key = spec_run ops !! key
  ∧ try_get s n key = Ok (spec_run ops !! key)
  ∧ (∀ v, get s n key = Some v → v ≠ []).
Proof using Type*.
  destruct (steps_inv _ _ _ _ Hsteps Hcost) as [o [HR Hc Hwi _ Hlk _]].
  destruct (root_get s n o key HR) as [-> ->]. rewrite Hlk. split; [done|]. split; [done|].
  rewrite <- Hlk. intros v. destruct o as [t|]; [|done]. simpl.
  inversion_clear Hc. by apply canonical_value_nonempty.
Qed.

(** C12: the root hash is a commitment to the contents: two tries with the same
    keys and values have the same root hash, whatever order of operations,
    saves, reloads and stores they come from. *)
Theorem root_hash_history_independent s0 s0' ops ops' s s' n n'
    (Hs1 : steps (s0, empty_node) ops (s, n)) (Hs2 : steps (s0', empty_node) ops' (s', n'))
    (Hc1 : cost ops < 2 ^ 64) (Hc2 : cost ops' < 2 ^ 64)
    (Heq : spec_run ops = spec_run ops') :
  compute_hash n = compute_hash n' ∧ (is_empty_trie n = false → to_message n = to_message n').
Proof using Type*.
  destruct (steps_inv _ _ _ _ Hs1 Hc1) as [o HI]. destruct (steps_inv _ _ _ _ Hs2 Hc2) as [o' HI'].
  rewrite Heq in HI. destruct HI as [HR Hc _ _ Hlk _]. destruct HI' as [HR' Hc' _ _ Hlk' _].
  assert (o = o') as <- by (apply ocanonical_unique; [done|done|intros k; by rewrite Hlk, Hlk']).
  destruct o as [t|]; simpl in *.
  - by rewrite (rep_compute_hash _ _ _ HR), (rep_compute_hash _ _ _ HR'),
      (rep_to_message _ _ _ HR), (rep_to_message _ _ _ HR').
  - unfold compute_hash. by rewrite !is_empty_root_empty.
Qed.

(** C10: what was saved can be read back.  After a save, the root of a trie that
    is not empty is found in the store under its hash, and the trie read from
    there has the contents and the hash of the one in memory. *)
Theorem save_then_reload s0 ops s n
    (Hsteps : steps (s0, empty_node) ops (s, n)) (Hcost : cost ops < 2 ^ 64)
    (Hnc : no_collision s (collect_for_save n true).2) (Hne : is_empty_trie n = false) :
  let s' := (save s n true).2 in
  ∃ n', try_resolve s' (RefHash (compute_hash n)) = Found n'
        ∧ compute_hash n' = compute_hash n
        ∧ ∀ key, get s' n' key = spec_run ops !! key.
Proof using Type*.
  destruct (steps_inv _ _ _ _ Hsteps Hcost) as [o HI]. cbn zeta.
  pose proof (inv_save _ _ _ _ _ HI Hnc) as HIs.
  assert (saved (save s n true).1 = true) as Hsv by apply save_sets_saved.
  destruct o as [t|]; [|by rewrite (is_empty_root_empty n (inv_rep _ _ _ _ _ HI)) in Hne].
  pose proof (inv_rep _ _ _ _ _ HI) as HR. pose proof (inv_rep _ _ _ _ _ HIs) as HRs.
  simpl in HR, HRs.
  assert (compute_hash n = compute_hash (save s n true).1) as Hh
    by by rewrite (rep_compute_hash _ _ _ HR), (rep_compute_hash _ _ _ HRs).
  destruct (inv_reload _ _ _ _ _ HIs Hsv) as (n' & Hres & HI').
  { rewrite (proj1 (proj2 (proj2 (proj2 (rep_fields _ _ _ HRs))))).
    by rewrite <- (proj1 (proj2 (proj2 (proj2 (rep_fields _ _ _ HR))))). }
  pose proof (inv_rep _ _ _ _ _ HI') as HR'. simpl in HR'.
  exists n'. split_and!; [by rewrite Hh| |].
  - by rewrite (rep_compute_hash _ _ _ HR'), (rep_compute_hash _ _ _ HR).
  - intros key. rewrite (get_rep _ _ _ _ HR'). apply (inv_lookup _ _ _ _ _ HI' key).
Qed.

End machine.

(** ** Saved tries *)

(** A saved trie: its root hash, and what it holds. *)
Definition Held {St} `{TrieStore St} (s : St) (root : bytes) (m : contents) : Prop :=
  ∃ t, Stored s t ∧ Own s t ∧ canonical t ∧ root = compute_hash (mem t) ∧ ∀ k, tlookup t k = m !! k.

Lemma Held_extends {St St'} `{TrieStore St} `{TrieStore St'} (s : St) (s' : St') root m :
  extends s s' → Held s root m → Held s' root m.
Proof.
  intros Hext (t & Hst & Hown & Hrest). exists t.
  split; [by apply (Stored_extends s)|]. split; [by apply (Own_extends s)|done].
Qed.

(** It is read back by its hash. *)
Lemma Held_reload {St} `{TrieStore St} (s : St) root m : Held s root m →
  ∃ n, try_resolve s (RefHash root) = Found n ∧ compute_hash n = root ∧ ∀ key, get s n key = m !! key.
Proof.
  intros (t & Hst & Hown & Hc & -> & Hlk). destruct (stored_parse s t Hst) as (n & Hparse & HR).
  exists n. split_and!.
  - unfold compute_hash. rewrite mem_not_empty by done. simpl. by rewrite Hown, Hparse.
  - by apply (rep_compute_hash _ _ _ HR).
  - intros key. rewrite (get_rep _ _ _ _ HR). apply Hlk.
Qed.

(** The batch of a trie is content addressed. *)
Lemma root_addressed {St} `{TrieStore St} (s : St) n o : RepRoot s n o → Forall addressed (collect_for_save n true).2.
Proof.
  destruct o as [t|]; simpl; intros HR; [by eapply collect_addressed|].
  destruct HR as (_ & Hv & Hll & Hl & Hr & _). rewrite collect_for_save_eq, Hl, Hr.
  destruct (saved n); [done|]. cbn [collect_ref]. rewrite andb_false_r. cbn [snd].
  unfold long_value_entry, has_long_value, value_length. rewrite Hv, Hll. simpl. by repeat constructor.
Qed.

Lemma empty_contents (o : option tree) (m : contents) : (∀ k, olookup o k = m !! k) → m ≠ ∅ → ∃ t, o = Some t.
Proof.
  intros Hlk Hne. destruct o as [t|]; [by exists t|]. destruct Hne. apply map_eq. intros k. by rewrite <- Hlk, lookup_empty.
Qed.

(** A save leaves its root [Held]. *)
Lemma saved_held {St} `{TrieStore St} w (s : St) n m o :
  Inv w s n m o → (∀ t, o = Some t → Stored s t ∧ Own s t) → m ≠ ∅ → Held s (compute_hash n) m.
Proof.
  intros HI Hst Hne. destruct (empty_contents o m (inv_lookup _ _ _ _ _ HI) Hne) as [t ->].
  destruct (Hst t eq_refl) as [Hs Ho]. pose proof (inv_canonical _ _ _ _ _ HI) as Hc. inversion_clear Hc.
  exists t. split_and!; [done|done|done| |apply (inv_lookup _ _ _ _ _ HI)].
  by apply (rep_compute_hash s), (inv_rep _ _ _ _ _ HI).
Qed.

(** The part of a store's contents under a set of keys. *)
Definition snapshot {St} `{TrieStore St} (s : St) (S : gset bytes) : MemoryTrieStore :=
  mkMemory (map_imap (λ h _, ts_get s h) (gset_to_gmap () S)).

Lemma snapshot_get {St} `{TrieStore St} (s : St) S h m : ts_get (snapshot s S) h = Some m ↔ h ∈ S ∧ ts_get s h = Some m.
Proof.
  simpl. unfold memory_get, snapshot. simpl. rewrite map_lookup_imap, lookup_gset_to_gmap.
  destruct (decide (h ∈ S)); [rewrite option_guard_True by done|rewrite option_guard_False by done]; simpl; naive_solver.
Qed.

Lemma snapshot_extends {St St'} `{TrieStore St} `{TrieStore St'} (s : St) (s' : St') S S' : extends s s' → S ⊆ S' → extends (snapshot s S) (snapshot s' S').
Proof. intros Hext Hsub h m [Hh Hm]%snapshot_get. apply snapshot_get. split; [by apply Hsub|by apply Hext]. Qed.

(** ** Strings without collisions *)

(** No two of the strings [V] have one hash. *)
Definition distinct (V : gset bytes) : Prop := ∀ a b, a ∈ V → b ∈ V → keccak a = keccak b → a = b.

Lemma distinct_list (V : list bytes) : NoDup (keccak <$> V) → distinct (list_to_set V).
Proof.
  intros Hnd a b Ha%elem_of_list_to_set Hb%elem_of_list_to_set Heq.
  apply list_elem_of_lookup_1 in Ha as [i Hi], Hb as [j Hj].
  assert (i = j) as <-; [|congruence].
  eapply NoDup_lookup; [exact Hnd|rewrite list_lookup_fmap, Hi; reflexivity|]. rewrite list_lookup_fmap, Hj. cbn. by rewrite Heq.
Qed.

(** A store holds only strings of [V]. *)
Definition held_in {St} `{TrieStore St} (V : gset bytes) (s : St) : Prop := ∀ h m, ts_get s h = Some m → m ∈ V.

(** Two keys under one branch, as [TrieKeySlice::from_key] expands them. *)
Definition key_a : list bool := Path.key_bits [1; 2].
Definition key_b : list bool := Path.key_bits [1; 3].

(** Writing an empty value is not [delete].  [put] with an empty value takes
    the key away but, unlike [delete], leaves a root with one child and no value
    unmerged, so the two tries have different messages and root hashes although
    every [get] agrees (node.rs:766-772 calls [internal_put] and skips the merge
    of [put_impl]). *)
Theorem put_empty_value_is_not_delete {St} `{TrieStore St} (store : St) :
  let n := put store (put store empty_node key_a [7]) key_b [8] in
  (∀ k, k = key_a ∨ k = key_b →
     get store (put store n key_a []) k = get store (delete store n key_a) k)
  ∧ to_message (put store n key_a []) ≠ to_message (delete store n key_a).
Proof.
  cbv zeta. split.
  - intros k [-> | ->]; vm_compute; reflexivity.
  - vm_compute. discriminate.
Qed.

End trie.

(** ** Witnesses *)

Section collision_check.
Context {St : Type} `{TrieStore St}.

(** [no_collision] as a test. *)
Definition collides (s : St) (batch : list (bytes * bytes)) : bool :=
  existsb (λ e, existsb (λ e', bool_decide (e.1 = e'.1) && bool_decide (e.2 ≠ e'.2)) batch
                || match ts_get s e.1 with Some m => bool_decide (m ≠ e.2) | None => false end)
    batch.

Lemma collides_sound s batch : collides s batch = false → no_collision s batch.
Proof.
  intros Hc h m m' Hin Hor. apply list_elem_of_In in Hin.
  destruct (decide (m' = m)) as [|Hne]; [done|]. exfalso.
  assert (collides s batch = true) as Ht; [|congruence].
  apply existsb_exists. exists (h, m). split; [done|]. apply orb_true_iff. simpl.
  destruct Hor as [Hin'| ->]; [left|right; by apply bool_decide_eq_true_2].
  apply existsb_exists. exists (h, m'). split; [by apply list_elem_of_In|]. simpl.
  rewrite !bool_decide_eq_true_2; [done|congruence|done].
Qed.

End collision_check.

#[local] Existing Instance poly_keccak.

Definition long_value : bytes := replicate 40 9.
Definition key_c : list bool := Path.key_bits [1; 2; 77].

Definition run_ops : list op :=
  [OpPut key_a [7]; OpPut key_b long_value; OpPut key_c [3]; OpSave; OpReload; OpDelete key_b].

Definition state1 : TrieNode :=
  put memory_new (put memory_new (put memory_new empty_node key_a [7]) key_b long_value) key_c [3].
Definition store2 : MemoryTrieStore := (save memory_new state1 true).2.
Definition state2 : TrieNode := (save memory_new state1 true).1.
Definition state3 : TrieNode :=
  match try_resolve store2 (RefHash (compute_hash state2)) with Found n => n | _ => empty_node end.
Definition state4 : TrieNode := delete store2 state3 key_b.

Lemma run_puts : steps (memory_new, empty_node)
  [OpPut key_a [7]; OpPut key_b long_value; OpPut key_c [3]] (memory_new, state1).
Proof.
  assert (∀ k v s n, bool_decide (Z.of_nat (length k) ≤ 1024) = true →
    bool_decide (v ≠ []) = true → (0 <=? Z.of_nat (length v)) && (Z.of_nat (length v) <? 2 ^ 24) = true →
    step (St:=MemoryTrieStore) (s, n) (OpPut k v) (s, put s n k v)) as Hput.
  { intros k v s n Hk%bool_decide_eq_true Hv%bool_decide_eq_true
      [Hl%Z.leb_le Hu%Z.ltb_lt]%andb_true_iff. constructor; [exact Hk|exact Hv|split; assumption]. }
  apply (steps_snoc _ [_; _] (memory_new, put memory_new (put memory_new empty_node key_a [7])
                                            key_b long_value));
    [|apply Hput; vm_compute; reflexivity].
  apply (steps_snoc _ [_] (memory_new, put memory_new empty_node key_a [7]));
    [|apply Hput; vm_compute; reflexivity].
  apply (steps_snoc _ [] (memory_new, empty_node)); [constructor|].
  apply Hput; vm_compute; reflexivity.
Qed.

Lemma run_no_collision : no_collision memory_new (collect_for_save state1 true).2.
Proof. apply collides_sound. vm_compute. reflexivity. Qed.

Lemma run_all : steps (memory_new, empty_node) run_ops (store2, state4).
Proof.
  unfold state4. apply (steps_snoc _ [_; _; _; _; _] (store2, state3)); [|apply step_delete].
  apply (steps_snoc _ [_; _; _; _] (store2, state2)).
  - apply (steps_snoc _ [_; _; _] (memory_new, state1)); [exact run_puts|].
    apply step_save. exact run_no_collision.
  - apply step_reload; vm_compute; reflexivity.
Qed.

Lemma run_cost : cost run_ops < 2 ^ 64.
Proof. vm_compute. reflexivity. Qed.

Lemma trie_refines_map_witness :
  get store2 state4 key_c = Some [3] ∧ get store2 state4 key_b = None.
Proof.
  split.
  - rewrite (proj1 (trie_refines_map _ _ _ _ key_c run_all run_cost)). vm_compute. reflexivity.
  - rewrite (proj1 (trie_refines_map _ _ _ _ key_b run_all run_cost)). vm_compute. reflexivity.
Defined.

Definition direct_ops : list op := [OpPut key_c [3]; OpPut key_a [7]].
Definition direct : TrieNode :=
  put memory_new (put memory_new empty_node key_c [3]) key_a [7].

Lemma run_direct : steps (memory_new, empty_node) direct_ops (memory_new, direct).
Proof.
  apply (steps_snoc _ [_] (memory_new, put memory_new empty_node key_c [3])).
  - apply (steps_snoc _ [] (memory_new, empty_node)); [constructor|].
    constructor; [vm_compute; discriminate|discriminate|split; vm_compute; [discriminate|reflexivity]].
  - constructor; [vm_compute; discriminate|discriminate|split; vm_compute; [discriminate|reflexivity]].
Qed.

Lemma root_hash_history_independent_witness : compute_hash state4 = compute_hash direct.
Proof.
  apply (root_hash_history_independent _ _ _ _ _ _ _ _ run_all run_direct run_cost);
    vm_compute; reflexivity.
Defined.

Lemma save_then_reload_witness :
  ∃ n', try_resolve store2 (RefHash (compute_hash state1)) = Found n'
        ∧ compute_hash n' = compute_hash state1 ∧ get store2 n' key_b = Some long_value.
Proof.
  assert (cost [OpPut key_a [7]; OpPut key_b long_value; OpPut key_c [3]] < 2 ^ 64) as Hc
    by (vm_compute; reflexivity).
  destruct (save_then_reload _ _ _ _ run_puts Hc run_no_collision)
    as (n' & Hres & Hh & Hget); [vm_compute; reflexivity|].
  exists n'. split; [exact Hres|]. split; [exact Hh|].
  transitivity (spec_run [OpPut key_a [7]; OpPut key_b long_value; OpPut key_c [3]] !! key_b);
    [exact (Hget key_b)|vm_compute; reflexivity].
Defined.

End Trie.
