(* ===== verification/BulkPut.v ===== *)
(** * Bulk insertion: crates/trie/src/bulk_put.rs

    [put_bulk] inserts a sorted batch in one descent.  Keys are the bit lists
    of their [TrieKeySlice]s and [depth] counts the bits that the ancestors
    have consumed.  The theorem is the contract stated by the module: the root
    is the one that [put], once per entry in any order, arrives at. *)
From S2P Require Import Prelude Path Varint Store Node Unitrie NodeCodec NodeRefine NodeSave Trie.
From Stdlib Require Import Sorted.
From stdpp Require Import options.

Module BulkPut.
Import Store Node Unitrie NodeCodec NodeRefine NodeSave Trie.
Local Open Scope Z_scope.

(** ** Definitions *)

Abbreviation Entry := (list bool * bytes)%type.

(** The loop of [cmp_keys] over the bits [i..n] of both keys. *)
Fixpoint cmp_bits (a b : list bool) (i n : nat) : comparison :=
  match n with
  | O => Eq
  | S n' =>
      match Bool.compare (key_bit a i) (key_bit b i) with
      | Eq => cmp_bits a b (S i) n'
      | other => other
      end
  end.

Definition cmp_keys (a b : list bool) : comparison :=
  match cmp_bits a b 0 (Nat.min (length a) (length b)) with
  | Eq => Nat.compare (length a) (length b)
  | other => other
  end.

(** The two [debug_assert]s of [put_bulk], as a test. *)
Fixpoint sorted_keys (entries : list Entry) : bool :=
  match entries with
  | e1 :: (e2 :: _) as rest =>
      match cmp_keys e1.1 e2.1 with Lt => sorted_keys rest | _ => false end
  | _ => true
  end.

Definition no_empty_value (entries : list Entry) : bool :=
  forallb (λ e, negb (length e.2 =? 0)%nat) entries.

(** The [while] loop of [match_len], from [n] on; [todo] is [available - n]. *)
Fixpoint match_loop (key : list bool) (depth : nat) (path : list bool) (n todo : nat) : nat :=
  match todo with
  | O => n
  | S todo' =>
      if Bool.eqb (key_bit key (depth + n)) (key_bit path n)
      then match_loop key depth path (S n) todo' else n
  end.

Definition match_len (key : list bool) (depth : nat) (path : list bool) : nat :=
  let available := Nat.min (length key - depth) (length path) in
  match_loop key depth path 0 available.

Definition take_terminating (entries : list Entry) (at_ : nat)
    : option bytes * list Entry :=
  match entries with
  | e :: rest => if (length e.1 =? at_)%nat then (Some e.2, rest) else (None, entries)
  | [] => (None, entries)
  end.

(** [slice::partition_point] on a slice that is partitioned by [p]. *)
Fixpoint partition_point {A} (p : A → bool) (l : list A) : nat :=
  match l with
  | x :: l' => if p x then S (partition_point p l') else 0
  | [] => 0
  end.

Definition bit_is_zero (at_ : nat) (e : Entry) : bool := negb (key_bit e.1 at_).

Definition split_at_bit (rest : list Entry) (at_ : nat) : list Entry * list Entry :=
  let split := partition_point (bit_is_zero at_) rest in (take split rest, drop split rest).

(** [TrieKeySlice::slice(from, to)] *)
Definition sub (k : list bool) (from to : nat) : list bool := take (to - from) (drop from k).

(** The [while] loop of [build] that measures the common prefix. *)
Fixpoint common_loop (first last : list bool) (n todo : nat) : nat :=
  match todo with
  | O => n
  | S todo' =>
      if Bool.eqb (key_bit first n) (key_bit last n)
      then common_loop first last (S n) todo' else n
  end.

Section bulk.
Context `{Keccak} {St : Type} `{TrieStore St} (store : St).

Definition with_children_size (n : TrieNode) (size : Z) : TrieNode :=
  mkTrieNode (shared_path n) (value n) (value_hash n) (long_value_len n) (left_ref n)
    (right_ref n) size (saved n).

(** A node whose size is the sum of its children's. *)
Definition sized (path : list bool) (v : option bytes) (l r : NodeRef TrieNode) : TrieNode :=
  with_children_size (from_parts path v (keccak <$> v) l r)
    (u64 (reference_size store l + reference_size store r)).

(** [None] is "out of fuel". *)
Fixpoint build (fuel : nat) (entries : list Entry) (depth : nat)
    : option (NodeRef TrieNode) :=
  match entries with
  | [] => Some RefEmpty
  | [(key, v)] => Some (RefNode (new_leaf (sub key depth (length key)) v))
  | (first, _) :: _ =>
      match fuel with
      | O => None
      | S fuel' =>
          let last := (List.last entries (first, [])).1 in
          let limit := Nat.min (length first) (length last) in
          let n := common_loop first last depth (limit - depth) in
          let '(v, rest) := take_terminating entries n in
          let '(zeros, ones) := split_at_bit rest n in
          l ← build fuel' zeros (n + 1);
          r ← build fuel' ones (n + 1);
          Some (RefNode (sized (sub first depth n) v l r))
      end
  end.

Definition rebuild (node : TrieNode) (path : list bool) (v : option bytes)
    (new_left new_right : NodeRef TrieNode) (left_untouched right_untouched : bool) : TrieNode :=
  let cs := children_size node in
  let cs := if left_untouched then cs
            else u64 (sat_sub cs (reference_size store (left_ref node))
                      + reference_size store new_left) in
  let cs := if right_untouched then cs
            else u64 (sat_sub cs (reference_size store (right_ref node))
                      + reference_size store new_right) in
  with_children_size (from_parts path v (keccak <$> v) new_left new_right) cs.

Definition is_nil (entries : list Entry) : bool := match entries with [] => true | _ => false end.

Definition merge_with (merge_node : TrieNode → list Entry → nat → option TrieNode)
    (fuel : nat) (child : NodeRef TrieNode) (entries : list Entry) (depth : nat)
    : option (NodeRef TrieNode) :=
  if is_nil entries then Some child
  else
    match resolve store child with
    | Some node => n ← merge_node node entries depth; Some (RefNode n)
    | None => build fuel entries depth
    end.

Fixpoint merge_node (fuel : nat) (node : TrieNode) (entries : list Entry) (depth : nat)
    : option TrieNode :=
  match fuel, entries with
  | S fuel', (first, _) :: _ =>
      let merge := merge_with (merge_node fuel') fuel' in
      let path := shared_path node in
      let p := length path in
      let last := (List.last entries (first, [])).1 in
      let agree := Nat.min (match_len first depth path) (match_len last depth path) in
      if (agree =? p)%nat then
        let '(v, rest) := take_terminating entries (depth + p) in
        let at_ := (depth + p)%nat in
        let '(zeros, ones) := split_at_bit rest at_ in
        l ← merge (left_ref node) zeros (at_ + 1)%nat;
        r ← merge (right_ref node) ones (at_ + 1)%nat;
        Some (rebuild node path (match v with Some _ => v | None => value node end) l r
                (is_nil zeros) (is_nil ones))
      else
        let pushed :=
          with_children_size
            (from_parts (sub path (agree + 1) p) (value node) (value_hash node)
               (left_ref node) (right_ref node)) (children_size node) in
        let pushed_bit := key_bit path agree in
        let '(v, rest) := take_terminating entries (depth + agree) in
        let at_ := (depth + agree)%nat in
        let '(zeros, ones) := split_at_bit rest at_ in
        let old_ref := RefNode pushed in
        l ← (if pushed_bit then build fuel' zeros (at_ + 1) else merge old_ref zeros (at_ + 1)%nat);
        r ← (if pushed_bit then merge old_ref ones (at_ + 1)%nat
             else build fuel' ones (at_ + 1));
        Some (sized (sub path 0 agree) v l r)
  | _, _ => None
  end.

Definition merge (fuel : nat) : NodeRef TrieNode → list Entry → nat → option (NodeRef TrieNode) :=
  merge_with (merge_node fuel) fuel.

(** Each call descends at least one bit of every key it is given. *)
Definition bulk_fuel (entries : list Entry) : nat := S (foldr (λ e, Nat.max (length e.1)) 0%nat entries).

Definition put_bulk_opt (root : TrieNode) (entries : list Entry) : option TrieNode :=
  if is_nil entries then Some root
  else if is_empty_trie root then
    r ← build (bulk_fuel entries) entries 0;
    Some (match r with RefNode n => n | _ => empty_node end)
  else merge_node (bulk_fuel entries) root entries 0.

Definition put_bulk (root : TrieNode) (entries : list Entry) : TrieNode :=
  default empty_node (put_bulk_opt root entries).

End bulk.
(** ** The order of keys *)

(** Lexicographic, a prefix before what extends it. *)
Fixpoint bcmp (a b : list bool) : comparison :=
  match a, b with
  | [], [] => Eq
  | [], _ => Lt
  | _, [] => Gt
  | x :: a', y :: b' => match Bool.compare x y with Eq => bcmp a' b' | other => other end
  end.

Lemma key_bit_cons_app (p : list bool) x a : key_bit (p ++ x :: a) (length p) = x.
Proof. apply key_bit_app. Qed.

Lemma cmp_bits_bcmp a : ∀ b p q, length p = length q →
  match cmp_bits (p ++ a) (q ++ b) (length p) (Nat.min (length a) (length b)) with
  | Eq => Nat.compare (length a) (length b)
  | other => other
  end = bcmp a b.
Proof.
  induction a as [|x a IH]; intros [|y b] p q Hpq; simpl; try done.
  rewrite (key_bit_app p). rewrite Hpq at 1. rewrite (key_bit_app q).
  specialize (IH b (p ++ [x]) (q ++ [y])). rewrite !length_app, <- !app_assoc in IH. simpl in IH.
  rewrite Nat.add_1_r in IH. specialize (IH ltac:(lia)).
  destruct (Bool.compare x y); [exact IH|done..].
Qed.

Lemma cmp_keys_bcmp a b : cmp_keys a b = bcmp a b.
Proof. exact (cmp_bits_bcmp a b [] [] eq_refl). Qed.

Lemma bool_compare_refl x : Bool.compare x x = Eq.
Proof. by destruct x. Qed.

Lemma bcmp_trans a : ∀ b c, bcmp a b = Lt → bcmp b c = Lt → bcmp a c = Lt.
Proof.
  induction a as [|x a IH]; intros [|y b] [|z c]; simpl; try done.
  destruct x, y, z; simpl; try done; apply IH.
Qed.

Lemma bcmp_app p a b : bcmp (p ++ a) (p ++ b) = bcmp a b.
Proof. induction p as [|x p IH]; simpl; [done|]. by rewrite bool_compare_refl. Qed.

Lemma bcmp_refl a : bcmp a a = Eq.
Proof. induction a as [|x a IH]; simpl; [done|]. by rewrite bool_compare_refl. Qed.

(** What lies between two keys shares their common prefix. *)
Lemma bcmp_between q : ∀ a x b,
  q `prefix_of` a → q `prefix_of` b → bcmp a x ≠ Gt → bcmp x b ≠ Gt → q `prefix_of` x.
Proof.
  induction q as [|y q IH]; intros a x b [a' ->] [b' ->] Ha Hb; [apply prefix_nil|].
  destruct x as [|z x]; simpl in *; [done|].
  assert (z = y) as -> by by destruct y, z.
  rewrite bool_compare_refl in Ha, Hb. apply prefix_cons.
  by apply (IH (q ++ a') x (q ++ b')); [apply prefix_app_r|apply prefix_app_r|..].
Qed.

Definition elt (e e' : Entry) : Prop := bcmp e.1 e'.1 = Lt.

Lemma sorted_keys_strong entries : sorted_keys entries = true → StronglySorted elt entries.
Proof.
  intros Hs. apply Sorted_StronglySorted.
  { intros e1 e2 e3. apply bcmp_trans. }
  induction entries as [|e [|e' rest] IH]; [constructor|by repeat constructor|].
  cbn [sorted_keys] in Hs. rewrite cmp_keys_bcmp in Hs.
  destruct (bcmp e.1 e'.1) eqn:Hc; [done| |done].
  constructor; [by apply IH|]. by constructor.
Qed.

(** ** Entries below a prefix *)

Definition under (q : list bool) : list Entry → Prop := Forall (λ e, q `prefix_of` e.1).

Lemma under_weaken p q E : under (p ++ q) E → under p E.
Proof. intros Hu. eapply Forall_impl; [exact Hu|]. intros e. simpl. by apply prefix_app_l. Qed.

Lemma last_in {A} (x : A) l d : List.last (x :: l) d ∈ x :: l.
Proof. revert x. induction l as [|y l IH]; intros x; [by left|]. right. apply IH. Qed.

Lemma under_head_last e E d :
  StronglySorted elt (e :: E) → ∀ q, q `prefix_of` e.1 →
  q `prefix_of` (List.last (e :: E) d).1 → under q (e :: E).
Proof.
  intros Hs q He Hl. apply Forall_forall. intros x Hx.
  assert (∀ l d, StronglySorted elt l → x ∈ l → bcmp x.1 (List.last l d).1 ≠ Gt) as Hlast.
  { clear. induction l as [|y [|z l] IH]; intros d' Hs Hx; [by apply elem_of_nil in Hx|..].
    - apply list_elem_of_singleton in Hx as ->. simpl. by rewrite bcmp_refl.
    - inversion_clear Hs as [|? ? Hs' Hy]. apply elem_of_cons in Hx as [->|Hx]; [|by apply IH].
      pose proof (last_in z l d' : List.last (y :: z :: l) d' ∈ z :: l) as Hin.
      rewrite Forall_forall in Hy. by rewrite (Hy _ Hin). }
  apply (bcmp_between q e.1 x.1 (List.last (e :: E) d).1 He Hl); [|by apply Hlast].
  inversion_clear Hs as [|? ? _ Hall]. apply elem_of_cons in Hx as [->|Hx].
  - by rewrite bcmp_refl.
  - rewrite Forall_forall in Hall. by rewrite (Hall x Hx).
Qed.

(** A sorted range below [q]: first the entry at [q], if any, then those whose
    next bit is zero, then those whose next bit is one. *)
Definition entry_at (q : list bool) (v : option bytes) : list Entry :=
  match v with Some w => [(q, w)] | None => [] end.

Lemma sorted_split q E : StronglySorted elt E → under q E →
  ∃ v Z O, E = entry_at q v ++ Z ++ O ∧ under (q ++ [false]) Z ∧ under (q ++ [true]) O.
Proof.
  induction 1 as [|[k w] E Hs IH Hlt]; intros Hu; [by exists None, [], []; repeat constructor|].
  inversion_clear Hu as [|? ? [k' Hk] Hu']. simpl in Hk. subst k.
  destruct (IH Hu') as (v & Zs & Os & -> & HZ & HO). rewrite !Forall_app in Hlt.
  destruct Hlt as (Hv & HltZ & HltO).
  assert (v = None) as ->.
  { destruct v as [v|]; [|done]. exfalso. inversion_clear Hv as [|? ? He _].
    unfold elt in He. simpl in He. rewrite <- (app_nil_r q) in He at 2. rewrite bcmp_app in He.
    by destruct k'. }
  destruct k' as [|[] k'].
  - exists (Some w), Zs, Os. by rewrite app_nil_r.
  - assert (Zs = []) as ->.
    { destruct Zs as [|[kz wz] Zs]; [done|]. exfalso.
      inversion_clear HZ as [|? ? [z Hz] _]. inversion_clear HltZ as [|? ? Hz' _].
      simpl in *. subst kz. unfold elt in Hz'. simpl in Hz'. rewrite <- app_assoc, bcmp_app in Hz'.
      done. }
    exists None, [], ((q ++ true :: k', w) :: Os). split; [done|]. split; [constructor|].
    constructor; [|done]. exists k'. by rewrite <- app_assoc.
  - exists None, ((q ++ false :: k', w) :: Zs), Os. split; [done|]. split; [|done].
    constructor; [|done]. exists k'. by rewrite <- app_assoc.
Qed.

Lemma sorted_app_inv E1 E2 :
  StronglySorted elt (E1 ++ E2) → StronglySorted elt E1 ∧ StronglySorted elt E2.
Proof.
  induction E1 as [|e E1 IH]; simpl; [intros; split; [constructor|done]|].
  inversion_clear 1 as [|? ? Hs Hlt]. destruct (IH Hs) as [H1 H2].
  split; [|done]. constructor; [done|]. by apply Forall_app in Hlt as [? _].
Qed.

(** ** The helper loops *)

Lemma match_loop_lcp k : ∀ pre path done_,
  match_loop (pre ++ done_ ++ k) (length pre) (done_ ++ path) (length done_)
    (Nat.min (length k) (length path)) = (length done_ + length (lcp k path))%nat.
Proof.
  induction k as [|x k IH]; intros pre [|y path] d; simpl; try lia.
  rewrite <- length_app. rewrite app_assoc, key_bit_app, (key_bit_app d).
  destruct (Bool.eqb_spec x y) as [->|Hne].
  - rewrite decide_True by done. specialize (IH pre path (d ++ [y])).
    rewrite length_app, <- !app_assoc in IH. simpl in *. rewrite Nat.add_1_r in IH.
    rewrite <- app_assoc. rewrite IH. lia.
  - rewrite decide_False by done. simpl. lia.
Qed.

Lemma match_len_lcp pre k path :
  match_len (pre ++ k) (length pre) path = length (lcp k path).
Proof.
  unfold match_len. rewrite length_app.
  replace (length pre + length k - length pre)%nat with (length k) by lia.
  exact (match_loop_lcp k pre path []).
Qed.

Lemma common_loop_lcp a : ∀ b pre,
  common_loop (pre ++ a) (pre ++ b) (length pre) (Nat.min (length a) (length b))
  = (length pre + length (lcp a b))%nat.
Proof.
  induction a as [|x a IH]; intros [|y b] pre; simpl; try lia.
  rewrite !key_bit_app. destruct (Bool.eqb_spec x y) as [->|Hne].
  - rewrite decide_True by done. specialize (IH b (pre ++ [y])).
    rewrite length_app, <- !app_assoc in IH. simpl in *. rewrite Nat.add_1_r in IH.
    rewrite IH. lia.
  - rewrite decide_False by done. simpl. lia.
Qed.

Lemma under_bit q b e E : under (q ++ [b]) (e :: E) →
  key_bit e.1 (length q) = b ∧ (length q < length e.1)%nat.
Proof.
  intros Hu. apply Forall_cons in Hu as [[k Hk] _]. rewrite Hk, <- app_assoc. simpl. split.
  - apply key_bit_app.
  - rewrite length_app. simpl. lia.
Qed.

Lemma take_terminating_split q v Zs Os :
  under (q ++ [false]) Zs → under (q ++ [true]) Os →
  take_terminating (entry_at q v ++ Zs ++ Os) (length q) = (v, Zs ++ Os).
Proof.
  intros HZ HO. destruct v as [v|]; simpl; [by rewrite Nat.eqb_refl|].
  destruct Zs as [|e Zs]; simpl; [destruct Os as [|e Os]; simpl; [done|]|].
  - destruct (under_bit _ _ _ _ HO) as [_ Hl].
    destruct (Nat.eqb_spec (length e.1) (length q)); [lia|done].
  - destruct (under_bit _ _ _ _ HZ) as [_ Hl].
    destruct (Nat.eqb_spec (length e.1) (length q)); [lia|done].
Qed.

Lemma partition_point_split q Zs Os :
  under (q ++ [false]) Zs → under (q ++ [true]) Os →
  partition_point (bit_is_zero (length q)) (Zs ++ Os) = length Zs.
Proof.
  intros HZ HO. induction Zs as [|e Zs IH]; simpl.
  - destruct Os as [|e Os]; simpl; [done|]. unfold bit_is_zero.
    by destruct (under_bit _ _ _ _ HO) as [-> _].
  - unfold bit_is_zero at 1. destruct (under_bit _ _ _ _ HZ) as [-> _]. simpl.
    inversion_clear HZ. by rewrite IH.
Qed.

Lemma split_at_bit_split q Zs Os :
  under (q ++ [false]) Zs → under (q ++ [true]) Os →
  split_at_bit (Zs ++ Os) (length q) = (Zs, Os).
Proof.
  intros HZ HO. unfold split_at_bit. rewrite (partition_point_split q) by done.
  by rewrite take_app_length, drop_app_length.
Qed.

(** ** Inserting a list of entries into a tree *)

Definition oput_all : option tree → list Entry → option tree :=
  foldl (λ o e, oput o e.1 e.2).

Definition elook (k : list bool) : option bytes → list Entry → option bytes :=
  foldl (λ a e, if decide (e.1 = k) then Some e.2 else a).

Definition values_nonempty : list Entry → Prop := Forall (λ e, e.2 ≠ []).

Lemma olookup_oput_all E : ∀ o k, olookup (oput_all o E) k = elook k (olookup o k) E.
Proof.
  induction E as [|e E IH]; intros o k; simpl; [done|]. rewrite IH. f_equal. apply olookup_oput.
Qed.

Lemma ocanonical_oput_all E : ∀ o, ocanonical o → values_nonempty E → ocanonical (oput_all o E).
Proof.
  induction E as [|e E IH]; intros o Hc; simpl; [done|].
  inversion_clear 1 as [|? ? He HE]. apply IH; [|done].
  apply ocanonical_oput; [|done]. intros t ->. inversion_clear Hc. by apply canonical_tput.
Qed.

Lemma oput_all_some E : ∀ o, is_Some o ∨ E ≠ [] → is_Some (oput_all o E).
Proof.
  induction E as [|e E IH]; intros o Ho; simpl; [by destruct Ho|].
  apply IH. left. by eexists.
Qed.

Lemma elook_app k a E1 E2 : elook k a (E1 ++ E2) = elook k (elook k a E1) E2.
Proof. apply foldl_app. Qed.

Lemma elook_notin k E : ∀ a, Forall (λ e, e.1 ≠ k) E → elook k a E = a.
Proof.
  induction E as [|e E IH]; intros a HE; [done|]. inversion_clear HE. simpl.
  rewrite decide_False by done. by apply IH.
Qed.

Definition pref (x : list bool) (E : list Entry) : list Entry := (λ e, (x ++ e.1, e.2)) <$> E.

Definition rel (d : nat) (E : list Entry) : list Entry := (λ e, (drop d e.1, e.2)) <$> E.

Lemma rel_pref pre x E : under (pre ++ x) E →
  rel (length pre) E = pref x (rel (length (pre ++ x)) E).
Proof.
  unfold rel, pref. induction 1 as [|e E [k He] _ IH]; [done|]. rewrite !fmap_cons, IH. f_equal.
  f_equal. simpl. rewrite He at 1. rewrite <- app_assoc, drop_app_length. f_equal.
  by rewrite He, drop_app_length.
Qed.

Lemma elook_pref x E k : ∀ a,
  elook k a (pref x E) = match strip x k with Some r => elook r a E | None => a end.
Proof.
  destruct (strip x k) as [r|] eqn:Hs; intros a.
  - apply strip_Some in Hs. subst k. revert a. induction E as [|e E IH]; intros a; [done|].
    simpl. destruct (decide (e.1 = r)) as [->|Hne].
    + rewrite decide_True by done. apply IH.
    + rewrite decide_False; [apply IH|]. intros Heq. by apply app_inv_head in Heq.
  - apply elook_notin. apply Forall_fmap, Forall_true. intros e. simpl. intros Heq.
    rewrite <- Heq, strip_app in Hs. done.
Qed.

Lemma values_rel d E : values_nonempty E → values_nonempty (rel d E).
Proof. intros HE. by apply Forall_fmap. Qed.

(** A node over its two sides takes the entries that end at it and hands the
    rest to the sides. *)
Definition new_value (v bv : option bytes) : option bytes :=
  match v with Some _ => v | None => bv end.

Lemma node_lookup q v bv bl br Zs Os k :
  tlookup (mkTree q (new_value v bv) (oput_all bl Zs) (oput_all br Os)) k
  = elook k (tlookup (mkTree q bv bl br) k)
      (entry_at q v ++ pref (q ++ [false]) Zs ++ pref (q ++ [true]) Os).
Proof.
  rewrite !elook_app, !elook_pref, !tlookup_unfold. cbn [tpath tval].
  rewrite !strip_app_bind. destruct (strip q k) as [[|b r]|] eqn:Hs; simpl.
  - apply strip_Some in Hs. rewrite app_nil_r in Hs. subst k.
    destruct v as [v|]; simpl; [|done]. by rewrite decide_True.
  - assert (elook k (olookup (if b then br else bl) r) (entry_at q v)
            = olookup (if b then br else bl) r) as Hv.
    { apply elook_notin. destruct v; simpl; repeat constructor. simpl. intros ->.
      by rewrite strip_self in Hs. }
    destruct b; simpl in *; rewrite Hv; apply olookup_oput_all.
  - symmetry. apply elook_notin. destruct v; simpl; repeat constructor. simpl. intros ->.
    by rewrite strip_self in Hs.
Qed.

Lemma assemble (o : option tree) q v bv bl br Zs Os :
  ocanonical o → (∀ k, olookup o k = tlookup (mkTree q bv bl br) k) →
  bv ≠ Some [] → ocanonical bl → ocanonical br →
  values_nonempty (entry_at q v) → values_nonempty Zs → values_nonempty Os →
  is_Some (new_value v bv) ∨ is_Some (oput_all bl Zs) ∧ is_Some (oput_all br Os) →
  canonical (mkTree q (new_value v bv) (oput_all bl Zs) (oput_all br Os))
  ∧ Some (mkTree q (new_value v bv) (oput_all bl Zs) (oput_all br Os))
    = oput_all o (entry_at q v ++ pref (q ++ [false]) Zs ++ pref (q ++ [true]) Os).
Proof.
  intros Ho Hlk Hbv Hbl Hbr Hv HZ HO Hs.
  assert (canonical (mkTree q (new_value v bv) (oput_all bl Zs) (oput_all br Os))) as Hc.
  { apply canonical_mk; [|by apply ocanonical_oput_all..|done].
    destruct v as [w|]; [|done]. apply Forall_cons in Hv as [Hv _]. simpl in Hv |- *. congruence. }
  split; [done|]. apply ocanonical_unique; [by constructor| |].
  - apply ocanonical_oput_all; [done|]. unfold values_nonempty, pref in *.
    rewrite !Forall_app, !Forall_fmap. split_and!; [done|..]; eapply Forall_impl; try done.
  - intros k. rewrite olookup_oput_all, Hlk. simpl. apply node_lookup.
Qed.

Definition ecost (E : list Entry) : Z := cost ((λ e, OpPut e.1 e.2) <$> E).

Lemma ecost_cons e E :
  ecost (e :: E) = 400 + Z.of_nat (length e.1) + Z.of_nat (length e.2) + ecost E.
Proof. done. Qed.

Lemma ecost_nonneg E : 0 ≤ ecost E.
Proof. induction E as [|e E IH]; [done|]. rewrite ecost_cons. lia. Qed.

Lemma ecost_app E1 E2 : ecost (E1 ++ E2) = ecost E1 + ecost E2.
Proof. induction E1 as [|e E1 IH]; simpl; [done|]. rewrite !ecost_cons. lia. Qed.

Lemma ecost_pref x E : ecost E ≤ ecost (pref x E).
Proof.
  induction E as [|e E IH]; [done|]. unfold pref in *. rewrite fmap_cons, !ecost_cons.
  simpl. rewrite length_app. lia.
Qed.

Lemma oweight_oput_all E : ∀ o, oweight (oput_all o E) ≤ oweight o + ecost E.
Proof.
  induction E as [|e E IH]; intros o; simpl; [unfold ecost; simpl; lia|].
  etransitivity; [apply IH|]. rewrite ecost_cons.
  assert (oweight (oput o e.1 e.2)
          ≤ oweight o + (400 + Z.of_nat (length e.1) + Z.of_nat (length e.2))); [|lia].
  destruct o as [t|]; simpl.
  - pose proof (weight_tput t e.1 e.2). lia.
  - unfold leaf. rewrite weight_eq. simpl. lia.
Qed.

Lemma lcp_greatest (x : list bool) : ∀ a b, x `prefix_of` a → x `prefix_of` b → x `prefix_of` lcp a b.
Proof.
  induction x as [|y x IH]; intros a b [a' ->] [b' ->]; [apply prefix_nil|]. simpl.
  rewrite decide_True by done. apply prefix_cons, IH; by apply prefix_app_r.
Qed.

Lemma sub_drop k d : sub k d (length k) = drop d k.
Proof. unfold sub. apply take_ge. rewrite length_drop. lia. Qed.

Lemma sub_prefix pre c a : c `prefix_of` a → sub (pre ++ a) (length pre) (length (pre ++ c)) = c.
Proof.
  intros [a' ->]. unfold sub. rewrite drop_app_length, length_app.
  replace (length pre + length c - length pre)%nat with (length c) by lia. by rewrite take_app_length.
Qed.

(** The pieces of a split range, relative to what it is split at. *)
Lemma rel_split pre c v Zs Os :
  under ((pre ++ c) ++ [false]) Zs → under ((pre ++ c) ++ [true]) Os →
  rel (length pre) (entry_at (pre ++ c) v ++ Zs ++ Os)
  = entry_at c v ++ pref (c ++ [false]) (rel (length (pre ++ c) + 1) Zs)
    ++ pref (c ++ [true]) (rel (length (pre ++ c) + 1) Os).
Proof.
  rewrite <- !app_assoc. intros HZ HO. unfold rel at 1. rewrite !fmap_app. f_equal.
  - destruct v; simpl; [|done]. by rewrite drop_app_length.
  - fold (rel (length pre) Zs) (rel (length pre) Os).
    rewrite (rel_pref pre (c ++ [false]) Zs), (rel_pref pre (c ++ [true]) Os) by done.
    rewrite !length_app. simpl. f_equal; f_equal; f_equal; lia.
Qed.

Lemma values_split q v Zs Os : values_nonempty (entry_at q v ++ Zs ++ Os) →
  (∀ q', values_nonempty (entry_at q' v)) ∧ values_nonempty Zs ∧ values_nonempty Os.
Proof.
  unfold values_nonempty. rewrite !Forall_app. intros (Hv & HZ & HO). split_and!; [|done..].
  intros q'. destruct v; [|done]. inversion_clear Hv. by repeat constructor.
Qed.

(** The keys of a range are shorter than what the fuel reaches. *)
Definition fuelled (d fuel : nat) : list Entry → Prop := Forall (λ e, (length e.1 < d + fuel)%nat).

Lemma fuelled_pos pre e E fuel : under pre (e :: E) → fuelled (length pre) fuel (e :: E) →
  (0 < fuel)%nat.
Proof.
  intros [[k Hk] _]%Forall_cons [Hf _]%Forall_cons. rewrite Hk, length_app in Hf. lia.
Qed.

Lemma fuelled_split pre c v Zs Os fuel :
  fuelled (length pre) (S fuel) (entry_at (pre ++ c) v ++ Zs ++ Os) →
  fuelled (length (pre ++ c) + 1) fuel Zs ∧ fuelled (length (pre ++ c) + 1) fuel Os.
Proof.
  unfold fuelled. rewrite !Forall_app, length_app. intros (_ & HZ & HO).
  split; eapply Forall_impl; try done; simpl; lia.
Qed.

Section bulk_rep.
Context `{Keccak} {St : Type} `{TrieStore St} (store : St).

Lemma rep_sized p v l r tl tr :
  RepRef store l tl → RepRef store r tr → Rep store (sized store p v l r) (mkTree p v tl tr).
Proof.
  intros Hl Hr. unfold sized, with_children_size, from_parts. simpl.
  constructor; cbn [shared_path value value_hash long_value_len saved left_ref right_ref tleft
    tright tpath tval children_size]; [done|done|done|by left| |done|exact Hl|exact Hr].
  rewrite (repref_size _ _ _ Hl), (repref_size _ _ _ Hr). by rewrite children_size_mem.
Qed.

(** Both keys of a branch cannot go on with the same bit past their common
    prefix. *)
Lemma both_sides pre a b (E Zs Os : list Entry) (first : list bool) v0 d E' :
  E = (first, v0) :: E' → first = pre ++ a → (List.last E d).1 = pre ++ b →
  E = Zs ++ Os → under ((pre ++ lcp a b) ++ [false]) Zs → under ((pre ++ lcp a b) ++ [true]) Os →
  Zs ≠ [] ∧ Os ≠ [].
Proof.
  intros HE Hf Hl Hsplit HZ HO.
  assert (∀ x, ¬ under ((pre ++ lcp a b) ++ [x]) E) as Hno.
  { intros x Hu. rewrite <- app_assoc in Hu. unfold under in Hu. rewrite Forall_forall in Hu.
    assert ((first, v0) ∈ E) as H1 by (rewrite HE; left).
    assert (List.last E d ∈ E) as H2 by (rewrite HE; apply last_in).
    apply Hu in H1, H2. simpl in H1. rewrite Hf in H1. rewrite Hl in H2.
    apply prefix_app_inv in H1, H2. pose proof (lcp_greatest _ _ _ H1 H2) as Hx.
    apply prefix_length in Hx. rewrite length_app in Hx. simpl in Hx. lia. }
  split; intros ->; [apply (Hno true)|apply (Hno false)]; by rewrite Hsplit, ?app_nil_r.
Qed.

Lemma build_rep fuel : ∀ E pre,
  under pre E → StronglySorted elt E → values_nonempty E → fuelled (length pre) fuel E →
  ∃ r, build store fuel E (length pre) = Some r
       ∧ RepRef store r (oput_all None (rel (length pre) E)).
Proof.
  induction fuel as [|fuel IH]; intros E pre Hu Hs Hv Hf.
  { destruct E as [|e E]; [eexists; split; [done|constructor]|].
    pose proof (fuelled_pos _ _ _ _ Hu Hf). lia. }
  destruct E as [|[first v1] [|e2 E']]; [eexists; split; [done|constructor]|..].
  { cbn [build]. eexists. split; [done|]. rewrite sub_drop. apply rep_mem. apply rep_leaf. }
  destruct (Forall_inv Hu) as [a Ha]. simpl in Ha. subst first.
  cbn [build]. cbn zeta. set (E := (pre ++ a, v1) :: e2 :: E') in *.
  assert (pre `prefix_of` (List.last E (pre ++ a, [])).1) as [b Hb].
  { unfold under in Hu. rewrite Forall_forall in Hu. apply Hu. apply last_in. }
  rewrite Hb, !length_app.
  replace (Nat.min (length pre + length a) (length pre + length b) - length pre)%nat
    with (Nat.min (length a) (length b)) by lia.
  rewrite common_loop_lcp, <- length_app. set (c := lcp a b).
  assert (under (pre ++ c) E) as Huq.
  { apply (under_head_last _ _ (pre ++ a, [])); [done|..]; fold E; rewrite ?Hb; simpl;
      apply prefix_app; [apply lcp_prefix_l|apply lcp_prefix_r]. }
  destruct (sorted_split _ _ Hs Huq) as (v & Zs & Os & HE & HZ & HO).
  rewrite sub_prefix by apply lcp_prefix_l. rewrite HE in Hs, Hv, Hf |- *.
  rewrite take_terminating_split, split_at_bit_split by done.
  destruct (fuelled_split _ _ _ _ _ _ Hf) as [HfZ HfO].
  apply sorted_app_inv in Hs as [_ Hs]. apply sorted_app_inv in Hs as [HsZ HsO].
  destruct (values_split _ _ _ _ Hv) as (Hv0 & HvZ & HvO).
  pose proof (IH Zs ((pre ++ c) ++ [false])) as IHZ. pose proof (IH Os ((pre ++ c) ++ [true])) as IHO.
  rewrite (length_app (pre ++ c)) in IHZ, IHO. simpl in IHZ, IHO.
  destruct (IHZ HZ HsZ HvZ HfZ) as (l & -> & Hl). destruct (IHO HO HsO HvO HfO) as (r & -> & Hr).
  cbn [mbind option_bind]. eexists. split; [done|].
  rewrite rel_split by done.
  destruct (assemble None c v None None None (rel (length (pre ++ c) + 1) Zs)
    (rel (length (pre ++ c) + 1) Os)) as [_ <-]; auto using values_rel with rustock.
  - intros k. rewrite tlookup_unfold. simpl. by destruct (strip c k) as [[|[] ?]|].
  - destruct v as [v|]; [left; by eexists|right].
    destruct (both_sides pre a b E Zs Os (pre ++ a) v1 (pre ++ a, []) (e2 :: E')) as [HZn HOn]; try done.
    split; apply oput_all_some; right; by destruct Zs, Os.
  - apply rep_mem. replace (new_value v None) with v by by destruct v. by apply rep_sized.
Qed.

Lemma build_not_hash fuel E d h : build store fuel E d ≠ Some (RefHash h).
Proof.
  destruct fuel; destruct E as [|[k v] [|e E]]; cbn [build]; try done. cbn zeta.
  destruct (take_terminating _ _) as [w rest]. destruct (split_at_bit rest _) as [zs os].
  intros (? & _ & (? & _ & [=])%bind_Some)%bind_Some.
Qed.

(** The subtract-then-add update of [rebuild] is exact while nothing wraps. *)
Lemma rep_rebuild n t v l r tl tr lu ru :
  Rep store n t → RepRef store l tl → RepRef store r tr →
  (lu = true → tl = tleft t) → (ru = true → tr = tright t) →
  oweight (tleft t) + oweight (tright t) < 2 ^ 64 → oweight tl + oweight (tright t) < 2 ^ 64 →
  Rep store (rebuild store n (tpath t) v l r lu ru) (mkTree (tpath t) v tl tr).
Proof.
  intros HR Hl Hr Hlu Hru Hw1 Hw2. destruct HR as [n t Hp Hv Hvh Hlvl Hcs Hsv Hnl Hnr].
  unfold rebuild, with_children_size, from_parts. simpl.
  constructor; cbn [shared_path value value_hash long_value_len saved left_ref right_ref tleft
    tright tpath tval children_size]; [done|done|done|by left| |done|exact Hl|exact Hr].
  rewrite (repref_size _ _ _ Hl), (repref_size _ _ _ Hr), (repref_size _ _ _ Hnl),
    (repref_size _ _ _ Hnr), Hcs, !children_size_mem. cbn [tleft tright].
  pose proof (size_of_weight (tleft t)). pose proof (size_of_weight (tright t)).
  pose proof (size_of_weight tl).
  pose proof (size_of_fits (tleft t)) as [? _]. pose proof (size_of_fits (tright t)) as [? _].
  pose proof (size_of_fits tl) as [? _]. pose proof (size_of_fits tr) as [? _].
  unfold u64. rewrite (wrap_small 64 (size_of (tleft t) + size_of (tright t)))
    by (unfold fits; lia).
  assert ((if lu then size_of (tleft t) + size_of (tright t)
           else wrap 64 (sat_sub (size_of (tleft t) + size_of (tright t)) (size_of (tleft t))
                         + size_of tl))
          = size_of tl + size_of (tright t)) as ->.
  { destruct lu; [by rewrite Hlu|]. rewrite sat_sub_exact by lia.
    rewrite wrap_small by (unfold fits; lia). lia. }
  destruct ru; [rewrite Hru by done; rewrite wrap_small by (unfold fits; lia); lia|].
  rewrite sat_sub_exact by lia. f_equal. lia.
Qed.

(** What the calls on the two sides of a node are given and give back. *)
Definition merges (mn : TrieNode → list Entry → nat → option TrieNode) (fuel : nat) : Prop :=
  ∀ n t e E pre,
    Rep store n t → canonical t → under pre (e :: E) → StronglySorted elt (e :: E) →
    values_nonempty (e :: E) → fuelled (length pre) fuel (e :: E) →
    weight t + ecost (rel (length pre) (e :: E)) < 2 ^ 64 →
    ∃ n' t', mn n (e :: E) (length pre) = Some n' ∧ Rep store n' t'
             ∧ Some t' = oput_all (Some t) (rel (length pre) (e :: E)).

Lemma merge_rep mn fuel child o E pre :
  merges mn fuel → RepRef store child o → ocanonical o →
  under pre E → StronglySorted elt E → values_nonempty E → fuelled (length pre) fuel E →
  oweight o + ecost (rel (length pre) E) < 2 ^ 64 →
  ∃ r, merge_with store mn fuel child E (length pre) = Some r
       ∧ RepRef store r (oput_all o (rel (length pre) E)).
Proof.
  intros Hmn HR Hc Hu Hs Hv Hf Hw. unfold merge_with.
  destruct E as [|e E]; [by eexists|]. cbn [is_nil].
  pose proof (repref_resolve _ _ _ HR) as Hres. destruct o as [t|].
  - destruct Hres as (n & -> & Hn). inversion_clear Hc.
    destruct (Hmn n t e E pre) as (n' & t' & -> & Hn' & <-); auto.
    eexists. split; [done|]. by constructor.
  - rewrite Hres. by apply build_rep.
Qed.

Lemma min_last pre a b path :
  Nat.min (match_len (pre ++ a) (length pre) path) (match_len (pre ++ b) (length pre) path)
  = Nat.min (length (lcp a path)) (length (lcp b path)).
Proof. by rewrite !match_len_lcp. Qed.

Lemma weight_sides q v Zs Os t w :
  weight t + ecost (entry_at q v ++ pref (q ++ [false]) Zs ++ pref (q ++ [true]) Os) < w →
  oweight (tleft t) + ecost Zs + oweight (tright t) + ecost Os < w
  ∧ weight t + ecost Zs + ecost Os < w.
Proof.
  rewrite !ecost_app. pose proof (ecost_pref (q ++ [false]) Zs).
  pose proof (ecost_pref (q ++ [true]) Os). pose proof (ecost_nonneg (entry_at q v)).
  destruct t as [p tv l r]. rewrite weight_eq. pose proof (val_len_nonneg tv). simpl. lia.
Qed.

(** Every entry passes through the whole shared path. *)
Lemma merge_through fuel n t e E pre :
  merges (merge_node store fuel) fuel →
  Rep store n t → canonical t → StronglySorted elt (e :: E) → values_nonempty (e :: E) →
  fuelled (length pre) (S fuel) (e :: E) → under (pre ++ tpath t) (e :: E) →
  weight t + ecost (rel (length pre) (e :: E)) < 2 ^ 64 →
  let '(v, rest) := take_terminating (e :: E) (length pre + length (tpath t)) in
  let '(zeros, ones) := split_at_bit rest (length pre + length (tpath t)) in
  ∃ l r t', merge_with store (merge_node store fuel) fuel (left_ref n) zeros
              (length pre + length (tpath t) + 1) = Some l
    ∧ merge_with store (merge_node store fuel) fuel (right_ref n) ones
              (length pre + length (tpath t) + 1) = Some r
    ∧ Rep store (rebuild store n (tpath t) (new_value v (value n)) l r (is_nil zeros) (is_nil ones)) t'
    ∧ Some t' = oput_all (Some t) (rel (length pre) (e :: E)).
Proof.
  intros Hmn HR Hc Hs Hv Hf Huq Hw.
  destruct (sorted_split _ _ Hs Huq) as (v & Zs & Os & HE & HZ & HO).
  rewrite HE in Hs, Hv, Hf, Hw |- *. rewrite <- length_app.
  rewrite take_terminating_split, split_at_bit_split by done.
  rewrite rel_split in Hw |- * by done.
  destruct (weight_sides _ _ _ _ _ _ Hw) as [Hw1 Hw2].
  set (at_ := (length (pre ++ tpath t) + 1)%nat) in *.
  pose proof (ecost_nonneg (rel at_ Zs)). pose proof (ecost_nonneg (rel at_ Os)).
  pose proof (oweight_nonneg (tleft t)). pose proof (oweight_nonneg (tright t)).
  pose proof (oweight_oput_all (rel at_ Zs) (tleft t)).
  destruct (fuelled_split _ _ _ _ _ _ Hf) as [HfZ HfO]. fold at_ in HfZ, HfO.
  apply sorted_app_inv in Hs as [_ Hs]. apply sorted_app_inv in Hs as [HsZ HsO].
  destruct (values_split _ _ _ _ Hv) as (Hv0 & HvZ & HvO).
  pose proof (canonical_inv _ Hc) as (Htv & Hcl & Hcr & Hshape).
  pose proof (merge_rep _ fuel (left_ref n) (tleft t) Zs ((pre ++ tpath t) ++ [false]) Hmn) as HL.
  pose proof (merge_rep _ fuel (right_ref n) (tright t) Os ((pre ++ tpath t) ++ [true]) Hmn) as HO'.
  rewrite (length_app (pre ++ tpath t)) in HL, HO'. simpl in HL, HO'. fold at_ in HL, HO'.
  destruct HL as (l & Hl & HRl); [by apply (rep_child _ n t false)|done..|lia|].
  destruct HO' as (r & Hr & HRr); [by apply (rep_child _ n t true)|done..|lia|].
  assert (value n = tval t) as -> by by destruct HR.
  destruct (assemble (Some t) (tpath t) v (tval t) (tleft t) (tright t) (rel at_ Zs) (rel at_ Os))
    as [Hcan Heq]; auto using values_rel with rustock.
  { by destruct t. }
  { destruct v; [left; by eexists|]. destruct Hshape as [|[? ?]]; [by left|right].
    split; apply oput_all_some; by left. }
  exists l, r. eexists. split; [done|]. split; [done|]. split; [|exact Heq].
  apply rep_rebuild; auto; [by intros; destruct Zs|by intros; destruct Os|lia|lia].
Qed.

Lemma tlookup_pushed t c b p' k : tpath t = c ++ b :: p' →
  tlookup t k = tlookup (branch c None b (Some (mkTree p' (tval t) (tleft t) (tright t))) None) k.
Proof.
  intros Hp. destruct t as [p w l r]. simpl in Hp. subst p.
  rewrite tlookup_cut, tlookup_branch. destruct (strip c k) as [[|b' r']|]; [done| |done].
  simpl. by destruct (Bool.eqb b b').
Qed.

(** The entries leave the shared path at [c]: the old node, pushed below bit [b],
    and the entries on its side are merged, the other side is new. *)
Lemma merge_diverge fuel t e E pre c b p' (pushed : TrieNode) :
  merges (merge_node store fuel) fuel →
  let pt := mkTree p' (tval t) (tleft t) (tright t) in
  canonical t → tpath t = c ++ b :: p' → Rep store pushed pt →
  StronglySorted elt (e :: E) → values_nonempty (e :: E) →
  fuelled (length pre) (S fuel) (e :: E) → under (pre ++ c) (e :: E) →
  ¬ under ((pre ++ c) ++ [b]) (e :: E) →
  weight t + ecost (rel (length pre) (e :: E)) < 2 ^ 64 →
  let '(v, rest) := take_terminating (e :: E) (length pre + length c) in
  let '(zeros, ones) := split_at_bit rest (length pre + length c) in
  let at_ := (length pre + length c + 1)%nat in
  let merge := merge_with store (merge_node store fuel) fuel (RefNode pushed) in
  ∃ l r t', (if b then build store fuel zeros at_ else merge zeros at_) = Some l
    ∧ (if b then merge ones at_ else build store fuel ones at_) = Some r
    ∧ Rep store (sized store c v l r) t'
    ∧ Some t' = oput_all (Some t) (rel (length pre) (e :: E)).
Proof.
  intros Hmn pt Hc Hpath Hpush Hs Hv Hf Huq Hdiv Hw.
  destruct (sorted_split _ _ Hs Huq) as (v & Zs & Os & HE & HZ & HO).
  rewrite HE in Hs, Hv, Hf, Hw, Hdiv |- *. rewrite <- length_app.
  rewrite take_terminating_split, split_at_bit_split by done.
  rewrite rel_split in Hw |- * by done. cbn zeta.
  destruct (weight_sides _ _ _ _ _ _ Hw) as [_ Hw2].
  set (at_ := (length (pre ++ c) + 1)%nat) in *.
  pose proof (ecost_nonneg (rel at_ Zs)). pose proof (ecost_nonneg (rel at_ Os)).
  assert (weight pt ≤ weight t).
  { destruct t as [p w l r]. simpl in Hpath. subst p pt. simpl. rewrite !weight_eq, length_app.
    simpl. lia. }
  destruct (fuelled_split _ _ _ _ _ _ Hf) as [HfZ HfO]. fold at_ in HfZ, HfO.
  apply sorted_app_inv in Hs as [_ Hs]. apply sorted_app_inv in Hs as [HsZ HsO].
  destruct (values_split _ _ _ _ Hv) as (Hv0 & HvZ & HvO).
  assert (canonical pt) as Hcpt by (destruct t; by eapply canonical_repath).
  pose proof (λ E x, merge_rep _ fuel (RefNode pushed) (Some pt) E ((pre ++ c) ++ [x]) Hmn) as HM.
  pose proof (λ E x, build_rep fuel E ((pre ++ c) ++ [x])) as HB.
  assert (∀ x : bool, length ((pre ++ c) ++ [x]) = at_) as Hat
    by (intros x; by rewrite length_app).
  setoid_rewrite Hat in HM. setoid_rewrite Hat in HB.
  assert (v = None → if b then Zs ≠ [] else Os ≠ []) as Hother.
  { intros ->. destruct b; intros ->; apply Hdiv; simpl; by rewrite ?app_nil_r. }
  pose proof (rep_mem _ _ _ Hpush) as Hpr.
  assert (∃ l r, (if b then build store fuel Zs at_
                  else merge_with store (merge_node store fuel) fuel (RefNode pushed) Zs at_) = Some l
    ∧ (if b then merge_with store (merge_node store fuel) fuel (RefNode pushed) Os at_
       else build store fuel Os at_) = Some r
    ∧ RepRef store l (oput_all (if b then None else Some pt) (rel at_ Zs))
    ∧ RepRef store r (oput_all (if b then Some pt else None) (rel at_ Os))) as (l & r & Hl & Hr & HRl & HRr).
  { destruct b.
    - destruct (HB Zs false) as (l & ? & ?); [done..|].
      destruct (HM Os true) as (r & ? & ?); auto with rustock; [simpl; lia|]. by exists l, r.
    - destruct (HM Zs false) as (l & ? & ?); auto with rustock; [simpl; lia|].
      destruct (HB Os true) as (r & ? & ?); [done..|]. by exists l, r. }
  exists l, r, (mkTree c v (oput_all (if b then None else Some pt) (rel at_ Zs))
               (oput_all (if b then Some pt else None) (rel at_ Os))).
  split; [done|]. split; [done|]. split; [by apply rep_sized|].
  destruct (assemble (Some t) c v None (if b then None else Some pt) (if b then Some pt else None)
    (rel at_ Zs) (rel at_ Os)) as [_ <-]; auto using values_rel with rustock.
  - intros k. simpl. rewrite (tlookup_pushed t c b p' k Hpath). by destruct b.
  - by destruct b; constructor.
  - by destruct b; constructor.
  - destruct v as [v|]; [left; by eexists|right]. specialize (Hother eq_refl).
    destruct b; split; apply oput_all_some;
      first [left; by eexists|right; by destruct Zs|right; by destruct Os].
  - by destruct v.
Qed.

Lemma prefix_of_lcp (c k p : list bool) :
  c `prefix_of` p → (length c ≤ length (lcp k p))%nat → c `prefix_of` k.
Proof.
  intros Hc Hk. etransitivity; [|apply (lcp_prefix_l k p)].
  destruct (prefix_weak_total c (lcp k p) p) as [?|Hpr]; [done|apply lcp_prefix_r|done|].
  replace (lcp k p) with c; [done|]. symmetry. apply prefix_length_eq; [done|lia].
Qed.

(** Entries that agree with a path for [length c] bits only do not all go on
    along it. *)
Lemma diverges pre a b c x p' path v1 E d :
  path = c ++ x :: p' → (List.last ((pre ++ a, v1) :: E) d).1 = pre ++ b →
  length c = Nat.min (length (lcp a path)) (length (lcp b path)) →
  ¬ under ((pre ++ c) ++ [x]) ((pre ++ a, v1) :: E).
Proof.
  intros Hpath Hb Hmin Hux. rewrite <- app_assoc in Hux. pose proof (Forall_inv Hux) as Hxa.
  simpl in Hxa. unfold under in Hux. rewrite Forall_forall in Hux.
  pose proof (Hux _ (last_in _ E d)) as Hxb.
  cbv beta in Hxb. rewrite Hb in Hxb. apply prefix_app_inv in Hxa, Hxb.
  assert (c ++ [x] `prefix_of` path) as Hxp by (exists p'; by rewrite <- app_assoc).
  pose proof (prefix_length _ _ (lcp_greatest _ _ _ Hxa Hxp)) as Hla.
  pose proof (prefix_length _ _ (lcp_greatest _ _ _ Hxb Hxp)) as Hlb.
  rewrite !length_app in Hla, Hlb. simpl in Hla, Hlb. lia.
Qed.

Lemma merge_node_rep fuel : merges (merge_node store fuel) fuel.
Proof.
  induction fuel as [|fuel IH]; intros n t e E pre HR Hc Hu Hs Hv Hf Hw.
  { pose proof (fuelled_pos _ _ _ _ Hu Hf). lia. }
  destruct (Forall_inv Hu) as [a Ha]. destruct e as [first v1]. simpl in Ha. subst first.
  cbn [merge_node]. cbn zeta.
  assert (pre `prefix_of` (List.last ((pre ++ a, v1) :: E) (pre ++ a, [])).1) as [b Hb].
  { unfold under in Hu. rewrite Forall_forall in Hu. apply Hu. apply last_in. }
  assert (shared_path n = tpath t) as Hp by by destruct HR.
  rewrite Hb, Hp, min_last. set (agree := Nat.min _ _).
  assert (∀ x, x `prefix_of` a → x `prefix_of` b → under (pre ++ x) ((pre ++ a, v1) :: E)) as Hends.
  { intros x Hxa Hxb. apply (under_head_last _ _ (pre ++ a, [])); [done|..]; rewrite ?Hb; simpl;
      by apply prefix_app. }
  destruct (Nat.eqb_spec agree (length (tpath t))) as [Hag|Hag].
  - assert (under (pre ++ tpath t) ((pre ++ a, v1) :: E)) as Huq
      by (apply Hends; apply lcp_full_r; lia).
    pose proof (merge_through fuel n t _ E pre IH HR Hc Hs Hv Hf Huq Hw) as Hm.
    destruct (take_terminating _ _) as [v rest], (split_at_bit _ _) as [zeros ones].
    destruct Hm as (l & r & t' & -> & -> & HR' & Heq). cbn [mbind option_bind].
    eexists _, _. split; [done|]. by split.
  - assert (agree < length (tpath t))%nat as Hlt.
    { pose proof (lcp_length_r a (tpath t)). pose proof (lcp_length_r b (tpath t)). lia. }
    set (c := take agree (tpath t)). destruct (lookup_lt_is_Some_2 _ _ Hlt) as [x Hx].
    pose proof (take_drop_middle _ _ _ Hx) as Hpath. fold c in Hpath. symmetry in Hpath.
    set (p' := drop (S agree) (tpath t)) in *.
    assert (length c = agree) as Hcl by (unfold c; rewrite length_take; lia).
    assert (under (pre ++ c) ((pre ++ a, v1) :: E)) as Huq
      by (apply Hends; apply (prefix_of_lcp _ _ (tpath t)); [by exists (x :: p')|lia|by exists (x :: p')|lia]).
    assert (¬ under ((pre ++ c) ++ [x]) ((pre ++ a, v1) :: E)) as Hdiv.
    { apply (diverges pre a b c x p' (tpath t) _ _ (pre ++ a, [])); [done..|]. unfold agree in Hcl. lia. }
    pose proof (rep_pushed store n t p' HR) as Hpush.
    pose proof (merge_diverge fuel t _ E pre c x p' _ IH Hc Hpath Hpush Hs Hv Hf Huq Hdiv Hw) as Hm.
    rewrite Hcl in Hm. cbn zeta in Hm.
    replace (key_bit (tpath t) agree) with x
      by (symmetry; unfold key_bit; by apply nth_lookup_Some).
    replace (sub (tpath t) 0 agree) with c by by unfold sub, c; rewrite Nat.sub_0_r, drop_0.
    replace (sub (tpath t) (agree + 1) (length (tpath t))) with p'
      by (rewrite sub_drop; unfold p'; f_equal; lia).
    destruct (take_terminating _ _) as [v rest], (split_at_bit _ _) as [zeros ones].
    destruct Hm as (l & r & t' & Hl & Hr & HR' & Heq).
    unfold with_children_size, from_parts. cbn [shared_path value value_hash long_value_len
      left_ref right_ref saved]. rewrite Hl, Hr. cbn [mbind option_bind].
    eexists _, _. split; [done|]. by split.
Qed.

Lemma bulk_fuelled E : fuelled 0 (bulk_fuel E) E.
Proof.
  unfold bulk_fuel, fuelled. induction E as [|e E IH]; constructor; simpl; [lia|].
  eapply Forall_impl; [exact IH|]. simpl. lia.
Qed.

Lemma rel_0 E : rel 0 E = E.
Proof. unfold rel. induction E as [|[k v] E IH]; [done|]. by rewrite fmap_cons, IH. Qed.

Lemma no_empty_value_spec E : no_empty_value E = true → values_nonempty E.
Proof.
  unfold no_empty_value, values_nonempty. rewrite forallb_forall. intros HE.
  apply Forall_forall. intros e He%list_elem_of_In%HE. by destruct e.2.
Qed.

Lemma put_bulk_root n o E :
  RepRoot store n o → ocanonical o → sorted_keys E = true → no_empty_value E = true →
  oweight o + ecost E < 2 ^ 64 →
  ∃ n', put_bulk_opt store n E = Some n' ∧ RepRoot store n' (oput_all o E).
Proof.
  intros HR Hc Hs Hv%no_empty_value_spec Hw. apply sorted_keys_strong in Hs.
  unfold put_bulk_opt. destruct E as [|e E]; [by eexists|]. cbn [is_nil].
  assert (under [] (e :: E)) as Hu by (apply Forall_true; intros; apply prefix_nil).
  pose proof (bulk_fuelled (e :: E)) as Hf. destruct o as [t|].
  - cbn [RepRoot] in HR. inversion_clear Hc. rewrite (rep_not_empty _ _ _ HR) by done.
    destruct (merge_node_rep (bulk_fuel (e :: E)) n t e E [] HR) as (n' & t' & Hm & HR' & Heq); auto.
    { cbn [length]. by rewrite rel_0. }
    cbn [length] in Hm, Heq. rewrite rel_0 in Heq. exists n'. split; [done|]. by rewrite <- Heq.
  - rewrite (is_empty_root_empty n HR).
    destruct (build_rep (bulk_fuel (e :: E)) (e :: E) []) as (r & Hb & Hr); auto.
    cbn [length] in Hb. rewrite Hb. cbn [mbind option_bind]. eexists. split; [done|].
    cbn [length] in Hr. rewrite rel_0 in Hr.
    destruct (oput_all_some (e :: E) None) as [t Ht]; [by right|]. rewrite Ht in Hr |- *.
    cbn [RepRoot]. inversion Hr as [| |t' Hown Hst He Hne]; subst; [done|].
    exfalso. by apply (build_not_hash _ _ _ _ Hb).
Qed.

Definition put_all (n : TrieNode) (E : list Entry) : TrieNode :=
  foldl (λ n e, put store n e.1 e.2) n E.

Lemma put_all_root E : ∀ n o,
  RepRoot store n o → ocanonical o → values_nonempty E → oweight o + ecost E < 2 ^ 64 →
  RepRoot store (put_all n E) (oput_all o E).
Proof.
  induction E as [|e E IH]; intros n o HR Hc Hv Hw; [done|]. inversion_clear Hv as [|? ? He HE].
  simpl. pose proof (oweight_oput_all [e] o) as Hw1. rewrite ecost_cons in Hw, Hw1.
  pose proof (ecost_nonneg E). change (ecost []) with 0 in Hw1.
  change (oput_all o [e]) with (oput o e.1 e.2) in Hw1. apply IH.
  - apply put_root; auto. intros t ->. apply weight_nowrap. simpl in Hw. lia.
  - apply (ocanonical_oput_all [e]); [done|by constructor].
  - done.
  - lia.
Qed.

End bulk_rep.
(** ** Any order *)

Lemma sorted_nodup E : StronglySorted elt E → NoDup E.*1.
Proof.
  induction 1 as [|e E Hs IH Hlt]; simpl; constructor; [|done].
  intros (e' & Heq & Hin)%list_elem_of_fmap. rewrite Forall_forall in Hlt.
  pose proof (Hlt _ Hin) as Hl. unfold elt in Hl. by rewrite Heq, bcmp_refl in Hl.
Qed.

Lemma elook_map E : ∀ a k, NoDup E.*1 →
  elook k a E = match (list_to_map E : contents) !! k with Some v => Some v | None => a end.
Proof.
  induction E as [|[k' v'] E IH]; intros a k Hnd; simpl in *; [done|].
  inversion_clear Hnd as [|? ? Hk' Hnd']. rewrite IH by done.
  destruct (decide (k' = k)) as [->|Hne].
  - rewrite lookup_insert_eq, not_elem_of_list_to_map_1; done.
  - by rewrite lookup_insert_ne.
Qed.

Lemma oput_all_perm o E E' : ocanonical o → values_nonempty E → NoDup E.*1 → E ≡ₚ E' →
  oput_all o E = oput_all o E'.
Proof.
  intros Hc Hv Hnd Hp.
  apply ocanonical_unique; [by apply ocanonical_oput_all|apply ocanonical_oput_all; [done|]|].
  - unfold values_nonempty. by rewrite <- Hp.
  - intros k. rewrite !olookup_oput_all, !elook_map; [|by rewrite <- Hp|done].
    by rewrite (list_to_map_proper E E').
Qed.

Section bulk_props.
Context `{Keccak} {St : Type} `{TrieStoreLaws St}.

(** ** Properties *)

(** C13: [put_bulk] of a sorted batch without duplicates and without empty values
    arrives at the trie that [put], once per entry in any order, arrives at: the
    same root hash and the same message, and [get] answers from the batch first
    and from the old trie otherwise.  The recursion finishes within [bulk_fuel]. *)
Theorem put_bulk_equals_puts s0 ops s n E E'
    (Hsteps : steps (s0, empty_node) ops (s, n))
    (Hsorted : sorted_keys E = true) (Hvalues : no_empty_value E = true)
    (Hperm : E ≡ₚ E') (Hcost : cost ops + ecost E < 2 ^ 64) :
  is_Some (put_bulk_opt s n E)
  ∧ compute_hash (put_bulk s n E) = compute_hash (put_all s n E')
  ∧ (E ≠ [] → to_message (put_bulk s n E) = to_message (put_all s n E'))
  ∧ ∀ k, get s (put_bulk s n E) k = ((list_to_map E : contents) ∪ spec_run ops) !! k.
Proof using Type*.
  pose proof (ecost_nonneg E). pose proof (no_empty_value_spec E Hvalues) as Hv.
  pose proof (sorted_nodup _ (sorted_keys_strong E Hsorted)) as Hnd.
  destruct (steps_inv _ _ _ _ Hsteps) as [o [HR Hc _ Hw Hlk _]]; [lia|].
  destruct (put_bulk_root s n o E HR Hc Hsorted Hvalues) as (n' & Hn' & HR'); [lia|].
  assert (RepRoot s (put_all s n E') (oput_all o E)) as HRa.
  { rewrite (oput_all_perm o E E') by done. apply put_all_root; auto.
    - unfold values_nonempty. by rewrite <- Hperm.
    - assert (ecost E' = ecost E) as ->; [|lia]. clear -Hperm.
      induction Hperm; rewrite ?ecost_cons; try done; lia. }
  unfold put_bulk. rewrite Hn'. change (default empty_node (Some n')) with n'.
  split; [by eexists|].
  split_and!.
  - destruct (oput_all o E) as [t|]; cbn [RepRoot] in HR', HRa.
    + by rewrite (rep_compute_hash _ _ _ HR'), (rep_compute_hash _ _ _ HRa).
    + unfold compute_hash. by rewrite !is_empty_root_empty.
  - intros HE. destruct (oput_all_some E o) as [t Ht]; [by right|]. rewrite Ht in HR', HRa.
    cbn [RepRoot] in HR', HRa. by rewrite (rep_to_message _ _ _ HR'), (rep_to_message _ _ _ HRa).
  - intros k. rewrite (proj1 (root_get _ _ _ k HR')), olookup_oput_all, Hlk, elook_map by done.
    rewrite lookup_union. destruct (list_to_map E !! k), (spec_run ops !! k); done.
Qed.

End bulk_props.

#[local] Existing Instance poly_keccak.

Definition batch_entries : list Entry :=
  [(Path.key_bits [1], [5]); (Path.key_bits [1; 2; 77; 0], long_value); (key_b, [6])].

Lemma put_bulk_equals_puts_witness :
  compute_hash (put_bulk store2 state4 batch_entries)
  = compute_hash (put_all store2 state4 (rev batch_entries)).
Proof.
  refine (proj1 (proj2 (put_bulk_equals_puts _ _ _ _ batch_entries (rev batch_entries)
    run_all _ _ _ _))).
  - vm_compute. reflexivity.
  - vm_compute. reflexivity.
  - apply Permutation_rev.
  - vm_compute. reflexivity.
Defined.

End BulkPut.
