(* ===== verification/KeyMapper.v ===== *)
(** * Unitrie keys: crates/trie/src/key_mapper.rs

    Accounts, code and storage live in one trie under keys that start with ten
    bytes of a hash.  [classify_key] is the inverse of the key builders; that
    makes the keys of distinct cells distinct whatever the hash function does,
    and the subtree below an account's key that account's alone. *)
From S2P Require Import Prelude Path.
From stdpp Require Import options.

Module KeyMapper.
Local Open Scope Z_scope.

Section keys.
Context `{Keccak}.

(** ** Definitions *)

Definition SECURE_KEY_SIZE : nat := 10.
Definition DOMAIN_PREFIX : Z := 0x00.
Definition STORAGE_PREFIX : Z := 0x00.
Definition CODE_PREFIX : Z := 0x80.

Definition secure_prefix (data : bytes) : bytes := take SECURE_KEY_SIZE (keccak data).

(** The suffix from the first byte that is not zero, if there is one. *)
Fixpoint from_nonzero (data : bytes) : option bytes :=
  match data with
  | [] => None
  | b :: rest => if decide (b = 0) then from_nonzero rest else Some data
  end.

Definition strip_leading_zeros (data : bytes) : bytes :=
  match from_nonzero data with
  | Some rest => rest
  | None => drop (length data - 1) data
  end.

Definition account_key_from_bytes (addr : bytes) : bytes :=
  DOMAIN_PREFIX :: secure_prefix addr ++ addr.

(** [Address] is twenty bytes, so [as_slice] is the identity here. *)
Definition account_key (addr : bytes) : bytes := account_key_from_bytes addr.

Definition storage_prefix_key (addr : bytes) : bytes := account_key addr ++ [STORAGE_PREFIX].

Definition code_key_from_bytes (addr : bytes) : bytes :=
  account_key_from_bytes addr ++ [CODE_PREFIX].

Definition code_key (addr : bytes) : bytes := code_key_from_bytes addr.

Definition storage_key_from_bytes (addr slot : bytes) : bytes :=
  account_key_from_bytes addr ++ STORAGE_PREFIX :: secure_prefix slot ++ strip_leading_zeros slot.

Definition storage_key (addr slot : bytes) : bytes := storage_key_from_bytes addr slot.

Inductive TrieKeyKind :=
  | KAccount (address : bytes)
  | KCode (address : bytes)
  | KStoragePrefix (address : bytes)
  | KStorage (address : bytes) (slot : option bytes) (tail : bytes)
  | KUnknown.

Definition MAX_ADDR_LEN : nat := 20.

(** [(1..=len).rev().find(p)] *)
Fixpoint find_down (p : nat → bool) (len : nat) : option nat :=
  match len with
  | O => None
  | S len' => if p len then Some len else find_down p len'
  end.

Definition recover_address (key : bytes) : option bytes :=
  if bool_decide (head key ≠ Some DOMAIN_PREFIX) || (length key <? 1 + SECURE_KEY_SIZE + 1)%nat
  then None
  else
    let body := drop (1 + SECURE_KEY_SIZE) key in
    let claimed := slice key 1 (1 + SECURE_KEY_SIZE) in
    let max := Nat.min MAX_ADDR_LEN (length body) in
    len ← find_down (λ len, bool_decide (secure_prefix (take len body) = claimed)) max;
    Some (take len body).

Definition recover_slot (claimed tail : bytes) : option bytes :=
  if (32 <? length tail)%nat then None
  else
    let word := replicate (32 - length tail) 0 ++ tail in
    if decide (secure_prefix word = claimed) then Some word else None.

Definition classify_key (key : bytes) : TrieKeyKind :=
  match recover_address key with
  | None => KUnknown
  | Some address =>
      let rest := drop (1 + SECURE_KEY_SIZE + length address) key in
      match rest with
      | [] => KAccount address
      | p :: slot_part =>
          if bool_decide (rest = [CODE_PREFIX]) then KCode address
          else if bool_decide (rest = [STORAGE_PREFIX]) then KStoragePrefix address
          else if bool_decide (p = STORAGE_PREFIX) && (SECURE_KEY_SIZE <? length slot_part)%nat then
            let claimed := take SECURE_KEY_SIZE slot_part in
            let tail := drop SECURE_KEY_SIZE slot_part in
            KStorage address (recover_slot claimed tail) tail
          else KUnknown
      end
  end.

(** ** Lemmas *)

Lemma length_secure_prefix d : length (secure_prefix d) = 10%nat.
Proof. unfold secure_prefix. rewrite length_take, length_keccak. done. Qed.

Lemma length_account_key addr : length (account_key addr) = (11 + length addr)%nat.
Proof.
  unfold account_key, account_key_from_bytes. simpl. rewrite length_app, length_secure_prefix. lia.
Qed.

Lemma find_down_Some p n len : find_down p n = Some len → p len = true ∧ (1 ≤ len ≤ n)%nat.
Proof.
  induction n as [|n IH]; cbn [find_down]; [done|]. destruct (p (S n)) eqn:Hp.
  - intros [= <-]. split; [done|lia].
  - intros ?%IH. lia || (split; [tauto|lia]).
Qed.

Lemma recover_address_key addr rest : length addr = 20%nat →
  recover_address (account_key addr ++ rest) = Some addr.
Proof.
  intros Hlen. unfold recover_address. rewrite length_app, length_account_key, Hlen.
  unfold account_key, account_key_from_bytes, SECURE_KEY_SIZE, slice.
  cbn [app head]. rewrite bool_decide_eq_false_2 by tauto. cbn [orb].
  destruct (Nat.ltb_spec (11 + 20 + length rest) (1 + 10 + 1)); [lia|].
  assert (∀ x l l', drop (1 + 10) (x :: (secure_prefix addr ++ l) ++ l') = l ++ l') as ->.
  { intros. cbn [drop Nat.add]. rewrite <- app_assoc.
    apply (drop_app_length' _ _ 10). by rewrite length_secure_prefix. }
  assert (∀ x l l', take (1 + 10 - 1) (drop 1 (x :: (secure_prefix addr ++ l) ++ l'))
                    = secure_prefix addr) as ->.
  { intros. cbn [drop]. rewrite drop_0, <- app_assoc.
    apply (take_app_length' _ _ 10). by rewrite length_secure_prefix. }
  rewrite length_app, Hlen.
  replace (Nat.min MAX_ADDR_LEN (20 + length rest)) with 20%nat by (unfold MAX_ADDR_LEN; lia).
  cbn [find_down]. replace 20%nat with (length addr) by done. rewrite take_app_length.
  rewrite bool_decide_eq_true_2 by done. cbn [mbind option_bind]. by rewrite take_app_length.
Qed.

Lemma drop_account_key addr rest :
  drop (1 + SECURE_KEY_SIZE + length addr) (account_key addr ++ rest) = rest.
Proof.
  replace (1 + SECURE_KEY_SIZE + length addr)%nat with (length (account_key addr))
    by (rewrite length_account_key; unfold SECURE_KEY_SIZE; lia).
  apply drop_app_length.
Qed.

(** What a recovered address says of the key. *)
Lemma recover_address_sound key addr : recover_address key = Some addr →
  ∃ rest, key = account_key addr ++ rest ∧ (1 ≤ length addr ≤ 20)%nat.
Proof.
  unfold recover_address. destruct (bool_decide _ || _) eqn:Hg; [done|].
  apply orb_false_iff in Hg as [Hh%bool_decide_eq_false Hl%Nat.ltb_ge].
  intros (len & Hf & [= <-])%bind_Some. apply find_down_Some in Hf as [Hp Hlen].
  apply bool_decide_eq_true in Hp. unfold MAX_ADDR_LEN, SECURE_KEY_SIZE in *.
  rewrite length_drop in Hlen. exists (drop len (drop (1 + 10) key)).
  rewrite length_take, length_drop. split; [|lia].
  unfold account_key, account_key_from_bytes. change (1 + 10)%nat with 11%nat in *.
  rewrite Hp. unfold slice. destruct key as [|b key]; [simpl in Hl; lia|]. simpl in Hh.
  destruct (decide (b = DOMAIN_PREFIX)) as [->|]; [|naive_solver]. simpl. f_equal.
  rewrite <- app_assoc, take_drop. symmetry. apply (take_drop 10).
Qed.

Lemma from_nonzero_pad data :
  match from_nonzero data with
  | Some rest => data = replicate (length data - length rest) 0 ++ rest ∧ rest ≠ []
                 ∧ (length rest ≤ length data)%nat
  | None => data = replicate (length data) 0
  end.
Proof.
  induction data as [|b data IH]; simpl; [done|]. case_decide as Hb.
  - subst b. destruct (from_nonzero data) as [rest|].
    + destruct IH as (Hd & Hne & Hle). split_and!; [|done|simpl; lia].
      replace (S (length data) - length rest)%nat with (S (length data - length rest)) by lia.
      simpl. by f_equal.
    + by rewrite IH at 1.
  - split_and!; [|done|simpl; lia]. simpl. by rewrite Nat.sub_diag.
Qed.

Lemma strip_leading_zeros_pad slot : slot ≠ [] →
  slot = replicate (length slot - length (strip_leading_zeros slot)) 0 ++ strip_leading_zeros slot
  ∧ (1 ≤ length (strip_leading_zeros slot) ≤ length slot)%nat.
Proof.
  intros Hne. unfold strip_leading_zeros. pose proof (from_nonzero_pad slot) as Hp.
  destruct (from_nonzero slot) as [rest|].
  - destruct Hp as (Hs & Hr & Hl). split; [done|]. destruct rest; [done|]. simpl in *. lia.
  - rewrite length_drop. assert (1 ≤ length slot)%nat by (destruct slot; [done|simpl; lia]).
    split; [|lia]. remember (length slot) as m eqn:Hm. clear Hm. subst slot.
    rewrite drop_replicate, <- replicate_add. f_equal. lia.
Qed.

Lemma recover_slot_strip slot : length slot = 32%nat →
  recover_slot (secure_prefix slot) (strip_leading_zeros slot) = Some slot.
Proof.
  intros Hlen. destruct (strip_leading_zeros_pad slot) as [Hs Hl]; [by destruct slot|].
  unfold recover_slot. destruct (Nat.ltb_spec 32 (length (strip_leading_zeros slot))); [lia|].
  rewrite Hlen in Hs. rewrite <- Hs. by rewrite decide_True.
Qed.

(** The keys under which the state of the account [addr] is kept. *)
Definition key_of (addr k : bytes) : Prop :=
  k = account_key addr ∨ k = code_key addr ∨ k = storage_prefix_key addr
  ∨ ∃ slot, length slot = 32%nat ∧ k = storage_key addr slot.

Lemma key_of_app addr k : key_of addr k → ∃ rest, k = account_key addr ++ rest.
Proof.
  intros [->|[->|[->|(slot & _ & ->)]]];
    [exists []; by rewrite app_nil_r|by exists [CODE_PREFIX]|by exists [STORAGE_PREFIX]|].
  by eexists.
Qed.

Lemma account_key_ok addr : bytes_ok addr → bytes_ok (account_key addr).
Proof.
  intros Ha. apply Forall_cons. split; [done|]. apply Forall_app. split; [|done].
  apply Forall_take, keccak_ok.
Qed.

Lemma classify_storage addr slot : length addr = 20%nat → length slot = 32%nat →
  classify_key (storage_key addr slot) = KStorage addr (Some slot) (strip_leading_zeros slot).
Proof.
  intros Ha Hs. unfold classify_key, storage_key, storage_key_from_bytes.
  fold (account_key addr). rewrite recover_address_key, drop_account_key by done.
  destruct (strip_leading_zeros_pad slot) as [_ Hl]; [by destruct slot|].
  pose proof (length_secure_prefix slot) as Hp.
  assert (∀ x, STORAGE_PREFIX :: secure_prefix slot ++ strip_leading_zeros slot ≠ [x]) as Hne.
  { intros x [= _ Heq]. apply (f_equal length) in Heq. rewrite length_app in Heq. simpl in Heq. lia. }
  rewrite !bool_decide_eq_false_2 by apply Hne. rewrite bool_decide_eq_true_2 by done.
  rewrite length_app, Hp. unfold SECURE_KEY_SIZE.
  destruct (Nat.ltb_spec 10 (10 + length (strip_leading_zeros slot))); [|lia]. cbn [andb].
  rewrite (take_app_length' _ _ 10), (drop_app_length' _ _ 10) by done.
  by rewrite recover_slot_strip.
Qed.

(** ** Properties *)

(** C35: [classify_key] undoes every key builder on twenty-byte addresses and
    thirty-two-byte slots (slot zero and slots with leading zeros included),
    whatever the hash function. *)
Theorem classify_inverts_builders addr slot
    (Haddr : length addr = 20%nat) (Hslot : length slot = 32%nat) :
  classify_key (account_key addr) = KAccount addr
  ∧ classify_key (code_key addr) = KCode addr
  ∧ classify_key (storage_prefix_key addr) = KStoragePrefix addr
  ∧ classify_key (storage_key addr slot)
    = KStorage addr (Some slot) (strip_leading_zeros slot).
Proof.
  split_and!; [| | |by apply classify_storage]; unfold classify_key.
  - rewrite <- (app_nil_r (account_key addr)).
    by rewrite recover_address_key, drop_account_key by done.
  - unfold code_key, code_key_from_bytes. fold (account_key addr).
    by rewrite recover_address_key, drop_account_key by done.
  - unfold storage_prefix_key. by rewrite recover_address_key, drop_account_key by done.
Qed.

(** [classify_key] never invents an address: whatever bytes it is given, the
    key it names starts with the account key of the address it reports, and a
    reported slot hashes to the prefix in the key and pads its tail. *)
Theorem classify_sound key :
  match classify_key key with
  | KAccount a => key = account_key_from_bytes a
  | KCode a => key = code_key_from_bytes a
  | KStoragePrefix a => key = account_key_from_bytes a ++ [STORAGE_PREFIX]
  | KStorage a slot tail =>
      (∃ claimed, key = account_key_from_bytes a ++ STORAGE_PREFIX :: claimed ++ tail
                  ∧ length claimed = SECURE_KEY_SIZE
                  ∧ ∀ w, slot = Some w → claimed = secure_prefix w)
      ∧ ∀ w, slot = Some w → length w = 32%nat ∧ w = replicate (32 - length tail) 0 ++ tail
  | KUnknown => True
  end.
Proof.
  unfold classify_key. destruct (recover_address key) as [a|] eqn:Hr; [|done].
  apply recover_address_sound in Hr as (rest & -> & Ha). rewrite drop_account_key.
  destruct rest as [|p sp]; [by rewrite app_nil_r|].
  destruct (bool_decide (p :: sp = [CODE_PREFIX])) eqn:H1.
  { apply bool_decide_eq_true in H1 as ->. done. }
  destruct (bool_decide (p :: sp = [STORAGE_PREFIX])) eqn:H2.
  { apply bool_decide_eq_true in H2 as ->. done. }
  destruct (bool_decide (p = STORAGE_PREFIX) && (SECURE_KEY_SIZE <? length sp)%nat) eqn:H3; [|done].
  apply andb_true_iff in H3 as [->%bool_decide_eq_true Hl%Nat.ltb_lt].
  assert (∀ w, recover_slot (take SECURE_KEY_SIZE sp) (drop SECURE_KEY_SIZE sp) = Some w →
    length w = 32%nat ∧ w = replicate (32 - length (drop SECURE_KEY_SIZE sp)) 0
                            ++ drop SECURE_KEY_SIZE sp
    ∧ take SECURE_KEY_SIZE sp = secure_prefix w) as Hslot.
  { intros w. unfold recover_slot.
    destruct (Nat.ltb_spec 32 (length (drop SECURE_KEY_SIZE sp))) as [|Hle]; [done|].
    destruct (decide _) as [Hsp|]; [|discriminate]. intros [= <-]. split_and!; [|done|done].
    rewrite length_app, length_replicate. lia. }
  split; [|intros w Hw; apply Hslot in Hw; tauto].
  exists (take SECURE_KEY_SIZE sp). rewrite length_take, take_drop.
  split_and!; [done|lia|]. intros w Hw. by apply Hslot in Hw as (_ & _ & ->).
Qed.

(** Cells do not share keys, and the subtree below an account's key is that
    account's: with no assumption on the hash function, storage keys determine
    their address and slot, and an account key is a prefix (as a trie path) of no
    key of another account.  Deleting an account's subtree cannot reach another. *)
Theorem key_spaces_disjoint a b (Ha : length a = 20%nat) (Hb : length b = 20%nat) :
  (∀ s t, length s = 32%nat → length t = 32%nat → storage_key a s = storage_key b t →
     a = b ∧ s = t)
  ∧ (bytes_ok a → bytes_ok b → ∀ k, key_of b k →
     Path.key_bits (account_key a) `prefix_of` Path.key_bits k → a = b).
Proof.
  split.
  - intros s t Hs Ht Heq. apply (f_equal classify_key) in Heq.
    rewrite !classify_storage in Heq by done. by injection Heq as -> ->.
  - intros Hoka Hokb k [rest ->]%key_of_app [q Hq]. rewrite Path.key_bits_app in Hq.
    apply app_inj_1 in Hq as [Hq _];
      [|rewrite !Path.length_key_bits, !length_account_key; lia].
    apply (f_equal Path.encode) in Hq.
    rewrite !Path.encode_key_bits in Hq by by apply account_key_ok.
    pose proof (recover_address_key a [] Ha) as Hra. pose proof (recover_address_key b [] Hb) as Hrb.
    rewrite Hq in Hrb. congruence.
Qed.

(** The inverse is not exact in the other direction.  A storage key whose tail
    keeps a leading zero is reported as the slot it pads to, although no builder
    produces it. *)
Theorem classify_accepts_unstripped_tail :
  let a := replicate 20 1 in
  let word := replicate 31 0 ++ [5] in
  let key := account_key a ++ STORAGE_PREFIX :: secure_prefix word ++ [0; 5] in
  classify_key key = KStorage a (Some word) [0; 5] ∧ storage_key a word ≠ key.
Proof.
  cbv zeta. set (a := replicate 20 1). set (word := replicate 31 0 ++ [5]).
  assert (length a = 20%nat) as Ha by done. split.
  - unfold classify_key. rewrite recover_address_key, drop_account_key by done.
    pose proof (length_secure_prefix word) as Hp.
    assert (∀ x, STORAGE_PREFIX :: secure_prefix word ++ [0; 5] ≠ [x]) as Hne.
    { intros x [= _ Heq]. apply (f_equal length) in Heq. rewrite length_app in Heq. simpl in Heq. lia. }
    rewrite !bool_decide_eq_false_2 by apply Hne. rewrite bool_decide_eq_true_2 by done.
    rewrite length_app, Hp. unfold SECURE_KEY_SIZE.
    rewrite (take_app_length' _ _ 10), (drop_app_length' _ _ 10) by done.
    cbn [length Nat.add Nat.ltb Nat.leb andb]. unfold recover_slot.
    cbn [length Nat.ltb Nat.leb Nat.sub]. by rewrite decide_True.
  - unfold storage_key, storage_key_from_bytes. fold (account_key a).
    intros Heq%app_inv_head. injection Heq as Heq%app_inv_head. done.
Qed.

End keys.

#[local] Existing Instance poly_keccak.

Definition addr_1 : bytes := replicate 19 0 ++ [1].
Definition addr_2 : bytes := replicate 19 0 ++ [2].
Definition slot_0 : bytes := replicate 32 0.

Lemma classify_inverts_builders_witness :
  classify_key (storage_key addr_1 slot_0) = KStorage addr_1 (Some slot_0) [0].
Proof.
  destruct (classify_inverts_builders addr_1 slot_0 eq_refl eq_refl) as (_ & _ & _ & H).
  exact H.
Defined.

Lemma key_spaces_disjoint_witness :
  ¬ Path.key_bits (account_key addr_1) `prefix_of` Path.key_bits (code_key addr_2).
Proof.
  intros Hp. destruct (key_spaces_disjoint addr_1 addr_2 eq_refl eq_refl) as [_ H].
  assert (addr_1 = addr_2) as Heq; [|discriminate Heq].
  assert (bytes_ok addr_1 ∧ bytes_ok addr_2) as [H1 H2].
  { split; apply (bool_decide_eq_true_1 (bytes_ok _)); vm_compute; reflexivity. }
  apply (H H1 H2 (code_key addr_2)); [right; left; reflexivity|exact Hp].
Defined.

End KeyMapper.
