(* ===== verification/RawStorage.v ===== *)
(** * Raw contract storage: crates/execution/src/raw_storage.rs

    The write log a block's precompile calls leave outside the journal: writes of
    the call in flight, writes of the calls that succeeded, and the mark of the
    transaction's start.  The specification is a stack of three snapshots of one
    finite map, and [overlay_refines] shows that the log behaves like it. *)
From S2P Require Import Prelude Path Varint Store Node KeyMapper.
From stdpp Require Import gmap options.

Module RawStorage.
Import Store Node KeyMapper.
Local Open Scope Z_scope.

(** [(Address, U256, Option<Vec<u8>>)]: [None] deletes the cell. *)
Definition RawWrite : Type := bytes * Z * option bytes.

Section raw.
Context {St : Type} `{TrieStore St} `{Keccak}.

Record RawStorage := mkRaw {
  committed : list RawWrite;
  pending : list RawWrite;
  tx_start : nat;
  reader : option (St * TrieNode);
}.

Definition default_raw : RawStorage := mkRaw [] [] 0 None.

Definition set_reader (r : RawStorage) (store : St) (root : TrieNode) : RawStorage :=
  mkRaw (committed r) (pending r) (tx_start r) (Some (store, root)).

(** The first write to the cell in the order of iteration. *)
Fixpoint first_write (writes : list RawWrite) (addr : bytes) (key : Z) : option (option bytes) :=
  match writes with
  | [] => None
  | (a, k, v) :: rest =>
      if decide (a = addr) then if decide (k = key) then Some v else first_write rest addr key
      else first_write rest addr key
  end.

Definition get_overlay (r : RawStorage) (addr : bytes) (key : Z) : option (option bytes) :=
  first_write (reverse (pending r) ++ reverse (committed r)) addr key.

Definition get_from_trie (r : RawStorage) (addr : bytes) (key : Z) : option bytes :=
  '(store, root) ← reader r;
  let trie_key := storage_key addr (be_bytes 32 key) in
  Node.get store root (Path.key_bits trie_key).

Definition raw_get (r : RawStorage) (addr : bytes) (key : Z) : option bytes :=
  match get_overlay r addr key with
  | Some v => v
  | None => get_from_trie r addr key
  end.

Definition not_empty (value : option bytes) : option bytes :=
  match value with Some [] => None | _ => value end.

Definition raw_put (r : RawStorage) (addr : bytes) (key : Z) (value : option bytes) : RawStorage :=
  mkRaw (committed r) (pending r ++ [(addr, key, not_empty value)]) (tx_start r) (reader r).

Definition commit_call (r : RawStorage) : RawStorage :=
  mkRaw (committed r ++ pending r) [] (tx_start r) (reader r).

Definition discard_call (r : RawStorage) : RawStorage :=
  mkRaw (committed r) [] (tx_start r) (reader r).

Definition begin_tx (r : RawStorage) : RawStorage :=
  mkRaw (committed r) (pending r) (length (committed r)) (reader r).

Definition discard_tx (r : RawStorage) : RawStorage :=
  mkRaw (take (tx_start r) (committed r)) [] (tx_start r) (reader r).

(** [None]: the slice [tx_start..] is out of range. *)
Definition tx_writes (r : RawStorage) : option (list RawWrite) :=
  if (tx_start r <=? length (committed r))%nat then Some (drop (tx_start r) (committed r)) else None.

Definition drain (r : RawStorage) : list RawWrite * RawStorage :=
  (committed r, mkRaw [] [] 0 (reader r)).

(** ** The specification *)

(** The cells a block has written so far, [None] for a deleted one, as seen by
    the call in flight, by the calls after it if it fails, and by the transactions
    after this one if it fails. *)
Abbreviation cells := (gmap (bytes * Z) (option bytes)).

Record Snapshots := mkSnapshots { at_call : cells; at_commit : cells; at_tx : cells }.

Definition cells_of (writes : list RawWrite) : cells :=
  foldl (λ m w, <[w.1 := w.2]> m) ∅ writes.

Inductive raw_op :=
  | RPut (addr : bytes) (key : Z) (value : option bytes)
  | RCommitCall
  | RDiscardCall
  | RBeginTx
  | RDiscardTx
  | RDrain.

Definition raw_step (r : RawStorage) (o : raw_op) : RawStorage :=
  match o with
  | RPut a k v => raw_put r a k v
  | RCommitCall => commit_call r
  | RDiscardCall => discard_call r
  | RBeginTx => begin_tx r
  | RDiscardTx => discard_tx r
  | RDrain => (drain r).2
  end.

Definition spec_step (s : Snapshots) (o : raw_op) : Snapshots :=
  match o with
  | RPut a k v => mkSnapshots (<[(a, k) := not_empty v]> (at_call s)) (at_commit s) (at_tx s)
  | RCommitCall => mkSnapshots (at_call s) (at_call s) (at_tx s)
  | RDiscardCall => mkSnapshots (at_commit s) (at_commit s) (at_tx s)
  | RBeginTx => mkSnapshots (at_call s) (at_commit s) (at_commit s)
  | RDiscardTx => mkSnapshots (at_tx s) (at_tx s) (at_tx s)
  | RDrain => mkSnapshots ∅ ∅ ∅
  end.

(** The read the specification promises: the cell if the block wrote it, the
    parent block's state if not. *)
Definition spec_get (s : Snapshots) (r : RawStorage) (addr : bytes) (key : Z) : option bytes :=
  match at_call s !! (addr, key) with
  | Some v => v
  | None => get_from_trie r addr key
  end.

Definition tracks (r : RawStorage) (s : Snapshots) : Prop :=
  at_call s = cells_of (committed r ++ pending r)
  ∧ at_commit s = cells_of (committed r)
  ∧ at_tx s = cells_of (take (tx_start r) (committed r))
  ∧ (tx_start r ≤ length (committed r))%nat.

Lemma cells_of_snoc ws w : cells_of (ws ++ [w]) = <[w.1 := w.2]> (cells_of ws).
Proof. unfold cells_of. by rewrite foldl_app. Qed.

Lemma first_write_cells ws addr key : first_write (reverse ws) addr key = cells_of ws !! (addr, key).
Proof.
  induction ws as [|[[a k] v] ws IH] using rev_ind; [done|].
  rewrite cells_of_snoc, reverse_snoc. cbn [first_write fst snd].
  destruct (decide (a = addr)) as [->|Ha]; [destruct (decide (k = key)) as [->|Hk]|].
  - by rewrite lookup_insert_eq.
  - rewrite lookup_insert_ne by congruence. apply IH.
  - rewrite lookup_insert_ne by congruence. apply IH.
Qed.

Lemma get_overlay_cells r addr key :
  get_overlay r addr key = cells_of (committed r ++ pending r) !! (addr, key).
Proof. unfold get_overlay. by rewrite <- reverse_app, first_write_cells. Qed.

Lemma step_tracks r s o : tracks r s → tracks (raw_step r o) (spec_step s o).
Proof.
  intros (Hcall & Hcommit & Htx & Hle). unfold tracks.
  destruct o as [a k v| | | | |]; cbn [raw_step spec_step raw_put commit_call discard_call begin_tx
    discard_tx drain committed pending tx_start at_call at_commit at_tx snd].
  - split_and!; [|done..]. by rewrite app_assoc, cells_of_snoc, <- Hcall.
  - rewrite app_nil_r, length_app. split_and!; [done|done| |lia]. by rewrite take_app_le.
  - by rewrite app_nil_r.
  - rewrite firstn_all. by split_and!.
  - rewrite app_nil_r, length_take, take_take, Nat.min_id. split_and!; [done|done|done|lia].
  - by split_and!.
Qed.

Lemma steps_track ops r s : tracks r s → tracks (foldl raw_step r ops) (foldl spec_step s ops).
Proof.
  revert r s. induction ops as [|o ops IH]; intros r s Ht; [done|]. apply IH. by apply step_tracks.
Qed.

Lemma steps_reader ops r : reader (foldl raw_step r ops) = reader r.
Proof. revert r. induction ops as [|o ops IH]; intros r; [done|]. simpl. rewrite IH. by destruct o. Qed.

(** C32: whatever puts, commits, discards, transaction starts and drains a block
    performs, the write log reads like a stack of three snapshots of one map over the
    parent block's state: a failed call is undone to the last commit, a failed
    transaction to its start.  The writes a transaction reports are always in range,
    and replaying them on the snapshot of its start gives the committed cells. *)
Theorem overlay_refines (ops : list raw_op) rd :
  let r := foldl raw_step (mkRaw [] [] 0 rd) ops in
  let s := foldl spec_step (mkSnapshots ∅ ∅ ∅) ops in
  (∀ addr key, raw_get r addr key = spec_get s r addr key)
  ∧ ∃ ws, tx_writes r = Some ws ∧ at_commit s = foldl (λ m w, <[w.1 := w.2]> m) (at_tx s) ws.
Proof.
  intros r s. assert (tracks r s) as (Hcall & Hcommit & Htx & Hle)
    by (apply steps_track; by split_and!).
  split.
  - intros addr key. unfold raw_get, spec_get. by rewrite get_overlay_cells, Hcall.
  - unfold tx_writes. destruct (Nat.leb_spec (tx_start r) (length (committed r))); [|lia].
    eexists. split; [done|]. rewrite Hcommit, Htx. unfold cells_of.
    by rewrite <- foldl_app, take_drop.
Qed.

End raw.
Arguments RawStorage : clear implicits.
End RawStorage.
