(* ===== verification/Bulk.v ===== *)
(** * Building a trie bottom-up: crates/trie/src/bulk.rs

    [build_sorted] writes a trie from sorted keys of one length, each node once.
    The theorem: its root hash is that of inserting the entries one by one, and
    the trie can be read back from the store by that hash. *)
From S2P Require Import Prelude Path Varint Store Node Unitrie NodeCodec NodeRefine NodeSave Trie.
From S2P Require Import BulkPut.
From Stdlib Require Import Sorted.
From stdpp Require Import options.

Module Bulk.
Import Store Node Unitrie NodeCodec NodeRefine NodeSave Trie BulkPut.
Local Open Scope Z_scope.

(** ** Definitions *)

Record Written := mkWritten { reference : NodeRef TrieNode; wsize : Z }.

(** [(key[i / 8] >> (7 - (i % 8))) & 1] *)
Definition bit_at (key : bytes) (i : nat) : bool :=
  from_option (λ b, Path.bit_of_byte b i) false (key !! (i / 8)%nat).

(** The loop of [common_prefix_len], from [n] on. *)
Fixpoint common_prefix_loop (a b : bytes) (depth n todo : nat) : nat :=
  match todo with
  | O => n
  | S todo' =>
      if Bool.eqb (bit_at a (depth + n)) (bit_at b (depth + n))
      then common_prefix_loop a b depth (S n) todo' else n
  end.

Definition common_prefix_len (a b : bytes) (depth total_bits : nat) : nat :=
  common_prefix_loop a b depth 0 (total_bits - depth).

(** The two [debug_assert]s of [build_sorted]. *)
Fixpoint sorted_bytes (keys : list bytes) : bool :=
  match keys with
  | k1 :: (k2 :: _) as rest =>
      match bytes_cmp k1 k2 with Lt => sorted_bytes rest | _ => false end
  | _ => true
  end.

Definition same_length (n : nat) (keys : list bytes) : bool :=
  forallb (λ k, length k =? n)%nat keys.

Section bulk.
Context `{Keccak} {St : Type} `{TrieStore St}.

Definition finish (s : St) (node : TrieNode) : Written * St :=
  let message := to_message node in
  let external := if has_long_value node then Z.of_nat (value_length node) else 0 in
  let size := u64 (u64 (children_size node + external) + Z.of_nat (length message)) in
  let s := if has_long_value node then
             match value node with Some v => ts_put s (get_value_hash node) v | None => s end
           else s in
  if is_embeddable node then (mkWritten (RefNode node) size, s)
  else
    let hash := compute_hash node in
    (mkWritten (RefHash hash) size, ts_put s hash message).

(** [None] is "out of fuel". *)
Fixpoint build (fuel : nat) (s : St) (keys : list bytes) (depth total_bits : nat)
    (value_of : bytes → bytes) : option (Written * St) :=
  match keys with
  | [] => None
  | [key] =>
      let path := sub (Path.key_bits key) depth total_bits in
      Some (finish s (new_leaf path (value_of key)))
  | first :: _ =>
      match fuel with
      | O => None
      | S fuel' =>
          let branch_at :=
            (depth + common_prefix_len first (List.last keys first) depth total_bits)%nat in
          let split := partition_point (λ k, negb (bit_at k branch_at)) keys in
          '(left_, s) ← build fuel' s (take split keys) (branch_at + 1) total_bits value_of;
          '(right_, s) ← build fuel' s (drop split keys) (branch_at + 1) total_bits value_of;
          let node := from_parts (sub (Path.key_bits first) depth branch_at) None None
                        (reference left_) (reference right_) in
          Some (finish s (with_children_size node (u64 (wsize left_ + wsize right_))))
      end
  end.

Definition build_sorted_opt (s : St) (keys : list bytes) (value_of : bytes → bytes)
    : option (bytes * St) :=
  match keys with
  | [] => Some (empty_trie_hash, s)
  | first :: _ =>
      let total_bits := (length first * 8)%nat in
      '(written, s) ← build total_bits s keys 0 total_bits value_of;
      let '(hash, s) :=
        match reference written with
        | RefNode node => (compute_hash node, ts_put s (compute_hash node) (to_message node))
        | RefHash hash => (hash, s)
        | RefEmpty => (empty_trie_hash, s)
        end in
      Some (hash, ts_flush s)
  end.

Definition build_sorted (s : St) (keys : list bytes) (value_of : bytes → bytes) : bytes * St :=
  default (empty_trie_hash, s) (build_sorted_opt s keys value_of).

End bulk.

(** ** Keys as bits *)

Lemma bit_at_key_bits key i : (i < length key * 8)%nat → bit_at key i = key_bit (Path.key_bits key) i.
Proof.
  intros Hi. unfold key_bit, Path.key_bits. symmetry. apply nth_lookup_Some.
  rewrite list_lookup_fmap, lookup_seq_lt by done. done.
Qed.

Definition byte_bits (b : Z) : list bool := Path.key_bits [b].

Lemma key_bits_cons b l : Path.key_bits (b :: l) = byte_bits b ++ Path.key_bits l.
Proof. apply (Path.key_bits_app [b]). Qed.

Lemma byte_bits_cmp x y : fits 8 x → fits 8 y → bcmp (byte_bits x) (byte_bits y) = (x ?= y).
Proof.
  assert (forallb (λ a, forallb (λ b,
      bool_decide (bcmp (byte_bits (Z.of_nat a)) (byte_bits (Z.of_nat b)) = (Z.of_nat a ?= Z.of_nat b)))
    (seq 0 256)) (seq 0 256) = true) as Hall by (vm_compute; reflexivity).
  intros [Hx Hx'] [Hy Hy']. rewrite forallb_forall in Hall.
  specialize (Hall (Z.to_nat x)). rewrite forallb_forall in Hall.
  assert (∀ z, 0 ≤ z < 2 ^ 8 → In (Z.to_nat z) (seq 0 256)) as Hin by (intros z Hz; apply in_seq; lia).
  specialize (Hall (Hin x ltac:(lia)) (Z.to_nat y) (Hin y ltac:(lia))).
  apply bool_decide_eq_true in Hall. by rewrite !Z2Nat.id in Hall by lia.
Qed.

Lemma bcmp_app_same_length a b : ∀ a' b', length a = length b →
  bcmp (a ++ a') (b ++ b') = match bcmp a b with Eq => bcmp a' b' | other => other end.
Proof.
  revert b. induction a as [|x a IH]; intros [|y b] a' b' Hl; try done. simpl.
  injection Hl as Hl. rewrite (IH b) by done. by destruct (Bool.compare x y).
Qed.

Lemma key_bits_cmp a : ∀ b, bytes_ok a → bytes_ok b →
  bcmp (Path.key_bits a) (Path.key_bits b) = bytes_cmp a b.
Proof.
  induction a as [|x a IH]; intros [|y b] Ha Hb; [done|done..|].
  apply Forall_cons in Ha as [Hx Ha]. apply Forall_cons in Hb as [Hy Hb].
  rewrite !key_bits_cons, bcmp_app_same_length by done. cbn [bytes_cmp].
  rewrite byte_bits_cmp by done. destruct (x ?= y); [by apply IH|done..].
Qed.

Lemma common_prefix_len_lcp a b pre x y :
  Path.key_bits a = pre ++ x → Path.key_bits b = pre ++ y → length a = length b →
  common_prefix_len a b (length pre) (length a * 8) = length (lcp x y).
Proof.
  intros Ha Hb Hl. unfold common_prefix_len.
  assert (length x = length y ∧ length pre + length x = length a * 8)%nat as [Hxy Hn].
  { apply (f_equal length) in Ha, Hb. rewrite Path.length_key_bits, length_app in Ha, Hb. lia. }
  replace (length a * 8 - length pre)%nat with (length x) by lia.
  assert (∀ d x y, length x = length y → Path.key_bits a = pre ++ d ++ x →
    Path.key_bits b = pre ++ d ++ y →
    common_prefix_loop a b (length pre) (length d) (length x) = (length d + length (lcp x y))%nat) as Hgen;
    [|by apply (Hgen [])].
  clear x y Ha Hb Hxy Hn. intros d x. revert d.
  induction x as [|u x IH]; intros d [|w y] Hxy Ha Hb; try discriminate Hxy; simpl; [lia|].
  assert (length pre + length d < length a * 8)%nat as Hlt.
  { apply (f_equal length) in Ha. rewrite Path.length_key_bits, !length_app in Ha. simpl in Ha. lia. }
  rewrite !bit_at_key_bits by lia. rewrite Ha, Hb, !app_assoc, <- length_app, !key_bit_app.
  destruct (Bool.eqb_spec u w) as [->|Hne].
  - rewrite decide_True by done. specialize (IH (d ++ [w]) y).
    rewrite length_app in IH. simpl in IH. rewrite Nat.add_1_r in IH. rewrite IH; [simpl; lia|..].
    + by injection Hxy.
    + by rewrite Ha, <- app_assoc.
    + by rewrite Hb, <- app_assoc.
  - rewrite decide_False by done. simpl. lia.
Qed.

(** ** What [finish] writes *)

Section finish.
Context `{Keccak} {St : Type} `{TrieStore St}.

Definition finish_log (n : TrieNode) : list (bytes * bytes) :=
  long_value_entry n ++ (if is_embeddable n then [] else [(compute_hash n, to_message n)]).

Definition finish_written (n : TrieNode) : Written :=
  mkWritten (if is_embeddable n then RefNode n else RefHash (compute_hash n))
    (u64 (u64 (children_size n + external_value_length n) + Z.of_nat (length (to_message n)))).

Lemma finish_eq (s : St) n : finish s n = (finish_written n, put_many s (finish_log n)).
Proof.
  unfold finish, finish_written, finish_log, long_value_entry, external_value_length.
  destruct (has_long_value n), (value n), (is_embeddable n); done.
Qed.

(** A finished subtree: its size, and that the store holds it. *)
Definition built (sf : St) (w : Written) (t : tree) : Prop :=
  wsize w = size_of (Some t) ∧ persisted_ref sf (reference w) (Some t).

Lemma finish_built sf n t l r :
  Rep sf n t → canonical t → tree_bounds t →
  persisted_ref sf l (tleft t) → persisted_ref sf r (tright t) →
  written sf (finish_log n) → built sf (finish_written n) t.
Proof.
  intros HR Hc Hb Hl Hr [Hwv Hw]%written_app.
  assert (Stored sf t) as Hst by (eapply stored_of_children; eauto).
  pose proof (mem_not_empty t Hc) as Hne.
  assert (compute_hash n = keccak (to_message (mem t))) as Hh
    by (rewrite (rep_compute_hash _ _ _ HR); unfold compute_hash; by rewrite Hne).
  unfold built, finish_written. cbn [wsize reference].
  rewrite (rep_to_message _ _ _ HR), length_message_mem, (rep_embeddable _ _ _ HR) in *. split.
  - cbn [size_of]. rewrite <- (rep_node_size _ _ _ HR). unfold node_size. by rewrite (rep_message_length _ _ _ HR).
  - destruct (is_embeddable (mem t)) eqn:He.
    + split; [by constructor|]. intros c [= <-]. split; [done|congruence].
    + rewrite Hh in *. apply written_cons in Hw as [Hown _].
      split; [by constructor|]. intros c [= <-]. by split.
Qed.

End finish.

(** ** The build *)

Section build.
Context `{Keccak} (value_of : bytes → bytes) (L : nat).

Definition entries (keys : list bytes) : list Entry := (λ k, (Path.key_bits k, value_of k)) <$> keys.

(** Keys of one length with values a message can carry. *)
Definition key_ok (k : bytes) : Prop :=
  length k = L ∧ value_of k ≠ [] ∧ fits 24 (Z.of_nat (length (value_of k))).

Lemma entries_values keys : Forall key_ok keys → values_nonempty (entries keys).
Proof. intros Hk. apply Forall_fmap. eapply Forall_impl; [exact Hk|]. by intros k (_ & ? & _). Qed.

Lemma entries_length keys e : Forall key_ok keys → e ∈ entries keys → length e.1 = (L * 8)%nat.
Proof.
  intros Hk (k & -> & Hin)%list_elem_of_fmap. simpl. rewrite Path.length_key_bits.
  rewrite Forall_forall in Hk. by destruct (Hk k Hin) as [-> _].
Qed.

Lemma partition_point_entries keys i : (i < L * 8)%nat → Forall key_ok keys →
  partition_point (λ k, negb (bit_at k i)) keys = partition_point (bit_is_zero i) (entries keys).
Proof.
  intros Hi. induction 1 as [|k keys (Hl & _) _ IH]; [done|].
  unfold entries in *. rewrite fmap_cons. cbn [partition_point]. unfold bit_is_zero at 1. cbn [fst].
  rewrite <- bit_at_key_bits by (rewrite Hl; done). by rewrite IH.
Qed.

Lemma last_entries k keys d : (List.last (entries (k :: keys)) d).1 = Path.key_bits (List.last (k :: keys) k).
Proof.
  assert (∀ d' : bytes, (List.last (entries (k :: keys)) d).1 = Path.key_bits (List.last (k :: keys) d'))
    as Hg; [|apply Hg].
  revert k. induction keys as [|k' keys IH]; intros k d'; [done|]. exact (IH k' d').
Qed.

(** The two sides of a branch over keys of one length. *)
Lemma build_split pre first k2 keys :
  let ks := first :: k2 :: keys in
  under pre (entries ks) → StronglySorted elt (entries ks) → Forall key_ok ks →
  ∃ a b kz ko, Path.key_bits first = pre ++ a ∧ Path.key_bits (List.last ks first) = pre ++ b
    ∧ ks = kz ++ ko ∧ kz ≠ [] ∧ ko ≠ []
    ∧ under ((pre ++ lcp a b) ++ [false]) (entries kz) ∧ under ((pre ++ lcp a b) ++ [true]) (entries ko)
    ∧ (length pre + length (lcp a b) < L * 8)%nat.
Proof.
  intros ks Hu Hs Hok. destruct (Forall_inv Hu) as [a Ha]. simpl in Ha.
  assert (pre `prefix_of` Path.key_bits (List.last ks first)) as [b Hb].
  { unfold under in Hu. rewrite Forall_forall in Hu. unfold ks. rewrite <- (last_entries _ _ ([], [])).
    apply Hu. apply last_in. }
  assert (under (pre ++ lcp a b) (entries ks)) as Huq.
  { apply (under_head_last _ _ ([], [])); [done|..].
    - simpl. rewrite Ha. apply prefix_app, lcp_prefix_l.
    - change (pre ++ lcp a b `prefix_of` (List.last (entries ks) ([], [])).1).
      unfold ks. rewrite last_entries. fold ks. rewrite Hb. apply prefix_app, lcp_prefix_r. }
  destruct (sorted_split _ _ Hs Huq) as (v & Zs & Os & HE & HZ & HO).
  assert (∀ e, e ∈ entries ks → length e.1 = (L * 8)%nat) as Hlen by (intros; by eapply entries_length).
  assert (v = None) as ->.
  { destruct v as [v|]; [|done]. exfalso.
    pose proof (Hlen (pre ++ lcp a b, v)) as H1. rewrite HE in H1. specialize (H1 ltac:(by left)).
    assert (∃ e x, e ∈ entries ks ∧ (pre ++ lcp a b) ++ [x] `prefix_of` e.1) as (e & x & He & Hp).
    { destruct Zs as [|z Zs]; [destruct Os as [|o Os]; [by apply (f_equal length) in HE|]|].
      - exists o, true. rewrite HE. split; [right; left|by apply Forall_inv in HO].
      - exists z, false. rewrite HE. split; [right; left|by apply Forall_inv in HZ]. }
    apply Hlen in He. apply prefix_length in Hp. rewrite length_app in Hp. simpl in *. lia. }
  destruct (both_sides pre a b (entries ks) Zs Os (Path.key_bits first) (value_of first) ([], [])
    (entries (k2 :: keys))) as [HZn HOn]; try done.
  { unfold ks. by rewrite last_entries. }
  assert (length pre + length (lcp a b) < L * 8)%nat.
  { destruct Os as [|o Os]; [done|]. apply Forall_inv in HO. apply prefix_length in HO.
    rewrite !length_app in HO. simpl in HO.
    rewrite (Hlen o) in HO; [lia|]. rewrite HE, !elem_of_app. right. right. left. }
  cbn [entry_at app] in HE. apply fmap_app_inv in HE as (kz & ko & -> & -> & Hks).
  exists a, b, kz, ko. split_and!; try done; by intros ->.
Qed.

Lemma tree_bounds_mk p v l r : node_bounds (mkTree p v l r) →
  (∀ c, l = Some c → tree_bounds c) → (∀ c, r = Some c → tree_bounds c) →
  tree_bounds (mkTree p v l r).
Proof. intros Hb Hl Hr. constructor; [done|]. intros [] c; simpl; auto. Qed.

(** [build] gives the same answer on every store, writes a fixed list of entries,
    and in any store that holds them has built the tree of the entries. *)
Definition builds (fuel : nat) (ks : list bytes) (pre : list bool) : Prop :=
  ∃ w log, (∀ St (HS : TrieStore St) (s : St),
              build fuel s ks (length pre) (L * 8) value_of = Some (w, put_many s log))
    ∧ ∀ St (HS : TrieStore St) (sf : St), written sf log →
      ∃ t, built sf w t ∧ tree_bounds t ∧ canonical t
           ∧ Some t = oput_all None (rel (length pre) (entries ks)).

Lemma persisted_ref_none {St} `{TrieStore St} (sf : St) : persisted_ref sf RefEmpty None.
Proof. split; [constructor|done]. Qed.

Lemma build_leaf fuel k pre : (L * 8 ≤ 1024)%nat → key_ok k → builds fuel [k] pre.
Proof.
  intros HL (Hl & Hv & Hvf). pose (path := drop (length pre) (Path.key_bits k)).
  assert (sub (Path.key_bits k) (length pre) (L * 8) = path) as Hpath
    by (rewrite <- Hl, <- Path.length_key_bits; apply sub_drop).
  pose (n := new_leaf path (value_of k)).
  exists (finish_written n), (finish_log n). split.
  { intros St HS s. rewrite <- finish_eq. unfold n. rewrite <- Hpath. by destruct fuel. }
  intros St HS sf Hw. exists (leaf path (value_of k)).
  assert (canonical (leaf path (value_of k))) as Hc by by apply canonical_leaf.
  assert (tree_bounds (leaf path (value_of k))) as Hb.
  { apply tree_bounds_mk; try done. split.
    - unfold path, MAX_SHARED_PATH_BITS. cbn [tpath]. rewrite length_drop, Path.length_key_bits. lia.
    - intros v [= <-]. by split. }
  refine (conj _ (conj Hb (conj Hc eq_refl))).
  exact (finish_built sf n _ RefEmpty RefEmpty (rep_leaf sf path (value_of k)) Hc Hb
    (persisted_ref_none sf) (persisted_ref_none sf) Hw).
Qed.

Lemma build_branch fuel first k2 keys pre :
  let ks := first :: k2 :: keys in
  (L * 8 ≤ 1024)%nat → under pre (entries ks) → StronglySorted elt (entries ks) →
  Forall key_ok ks →
  (∀ k ks' x pre', pre' = pre ++ x → x ≠ [] → under pre' (entries (k :: ks')) →
     StronglySorted elt (entries (k :: ks')) → Forall key_ok (k :: ks') →
     builds fuel (k :: ks') pre') →
  builds (S fuel) ks pre.
Proof.
  intros ks HL Hu Hs Hok IH.
  destruct (build_split pre first k2 keys Hu Hs Hok)
    as (a & b & kz & ko & Ha & Hb & Hks & HZn & HOn & HZ & HO & Hlt).
  fold ks in Hb, Hks. set (c := lcp a b) in *.
  assert (entries ks = entries kz ++ entries ko) as HE
    by (rewrite Hks; unfold entries; apply fmap_app).
  assert (length first = length (List.last ks first)) as Hll.
  { rewrite Forall_forall in Hok. destruct (Hok first) as [-> _]; [by left|].
    destruct (Hok (List.last ks first)) as [-> _]; [apply last_in|done]. }
  assert (length first = L) as Hfl by by destruct (Forall_inv Hok).
  pose proof (common_prefix_len_lcp _ _ _ _ _ Ha Hb Hll) as Hcp. fold c in Hcp. rewrite Hfl in Hcp.
  assert (partition_point (λ k, negb (bit_at k (length pre + length c))) ks = length kz) as Hpp.
  { rewrite partition_point_entries, HE by done. rewrite <- length_app.
    rewrite (partition_point_split (pre ++ c)) by done. unfold entries. apply length_fmap. }
  rewrite HE in Hs. apply sorted_app_inv in Hs as [HsZ HsO].
  rewrite Hks in Hok. apply Forall_app in Hok as [HokZ HokO].
  assert (builds fuel kz ((pre ++ c) ++ [false])) as (wl & logl & Hbl & Hfl').
  { destruct kz as [|k kz]; [done|].
    apply (IH _ _ (c ++ [false])); try done; [by rewrite app_assoc|by destruct c]. }
  assert (builds fuel ko ((pre ++ c) ++ [true])) as (wr & logr & Hbr & Hfr).
  { destruct ko as [|k ko]; [done|].
    apply (IH _ _ (c ++ [true])); try done; [by rewrite app_assoc|by destruct c]. }
  rewrite !(length_app (pre ++ c)) in *. cbn [length] in *.
  assert (sub (Path.key_bits first) (length pre) (length (pre ++ c)) = c) as Hsub
    by (rewrite Ha; apply sub_prefix, lcp_prefix_l).
  pose (n := with_children_size (from_parts c None None (reference wl) (reference wr))
               (u64 (wsize wl + wsize wr))).
  exists (finish_written n), (logl ++ logr ++ finish_log n). split.
  { intros St HS s. unfold ks. cbn [build]. cbn zeta. fold ks. rewrite Hcp, Hpp, <- length_app.
    rewrite Hks, take_app_length, drop_app_length, Hbl. cbn [mbind option_bind].
    rewrite Hbr, Hsub. cbn [mbind option_bind]. rewrite finish_eq.
    by rewrite <- !put_many_app. }
  intros St HS sf Hw. rewrite !written_app in Hw. destruct Hw as (Hwl & Hwr & Hwn).
  destruct (Hfl' _ _ sf Hwl) as (tl & [Hszl Hpl] & Hbdl & Hcl & Htl).
  destruct (Hfr _ _ sf Hwr) as (tr & [Hszr Hpr] & Hbdr & Hcr & Htr).
  destruct (assemble None c None None None None (rel (length (pre ++ c) + 1) (entries kz))
    (rel (length (pre ++ c) + 1) (entries ko))) as [Hcan Heq];
    [constructor| |discriminate|constructor|constructor|constructor
    |by apply values_rel, entries_values|by apply values_rel, entries_values|..].
  { intros k. rewrite tlookup_unfold. simpl. by destruct (strip c k) as [[|[] ?]|]. }
  { right. rewrite <- Htl, <- Htr. eauto. }
  rewrite <- Htl, <- Htr in Hcan, Heq. cbn [new_value] in Hcan, Heq.
  exists (mkTree c None (Some tl) (Some tr)).
  assert (tree_bounds (mkTree c None (Some tl) (Some tr))) as Hbd.
  { apply tree_bounds_mk; [|by intros ? [= <-]..]. split; [|done].
    unfold MAX_SHARED_PATH_BITS. cbn [tpath]. lia. }
  refine (conj _ (conj Hbd (conj Hcan _))).
  - apply (finish_built sf n _ (reference wl) (reference wr)); [|exact Hcan|exact Hbd|exact Hpl|exact Hpr|exact Hwn].
    destruct Hpl as [Hrl _], Hpr as [Hrr _].
    constructor; [reflexivity|reflexivity|reflexivity|by left| |discriminate|exact Hrl|exact Hrr].
    rewrite children_size_mem. unfold n. cbn [children_size with_children_size tleft tright].
    by rewrite Hszl, Hszr.
  - rewrite HE. change (entries kz ++ entries ko) with (entry_at (pre ++ c) None ++ entries kz ++ entries ko).
    by rewrite rel_split.
Qed.

Lemma build_ok fuel : (L * 8 ≤ 1024)%nat → ∀ first keys pre,
  under pre (entries (first :: keys)) → StronglySorted elt (entries (first :: keys)) →
  Forall key_ok (first :: keys) → (L * 8 ≤ length pre + fuel)%nat →
  builds fuel (first :: keys) pre.
Proof.
  intros HL. induction fuel as [|fuel IH]; intros first [|k2 keys] pre Hu Hs Hok Hf;
    try (apply build_leaf; [done|by destruct (Forall_inv Hok)]).
  - exfalso. destruct (build_split pre first k2 keys Hu Hs Hok)
      as (a & b & kz & ko & _ & _ & _ & _ & _ & _ & _ & Hlt). lia.
  - apply build_branch; try done. intros k ks' x pre' -> Hx Hu' Hs' Hok'. apply IH; try done.
    rewrite length_app. destruct x; [done|]. simpl. lia.
Qed.

End build.

(** ** The whole build *)

(** A store that keeps a log, to name what a build writes. *)
Definition Recorder : Type := list (bytes * bytes).

#[global] Instance recorder_store : TrieStore Recorder := {
  ts_get l k := snd <$> head (filter (λ e, e.1 = k) (reverse l));
  ts_put l k v := l ++ [(k, v)];
  ts_put_many l log := l ++ log;
  ts_flush l := l;
  ts_collected_below _ := None;
}.

Lemma put_many_recorder log : ∀ l : Recorder, put_many l log = l ++ log.
Proof.
  induction log as [|[k v] log IH]; intros l; [by rewrite app_nil_r|].
  change (put_many (l ++ [(k, v)]) log = l ++ (k, v) :: log).
  rewrite IH, <- app_assoc. done.
Qed.

Definition writes `{Keccak} (keys : list bytes) (value_of : bytes → bytes) : list (bytes * bytes) :=
  (build_sorted ([] : Recorder) keys value_of).2.

Section whole.
Context `{Keccak} (value_of : bytes → bytes) (L : nat).

Lemma sorted_entries keys : Forall bytes_ok keys → sorted_bytes keys = true →
  StronglySorted elt (entries value_of keys).
Proof.
  intros Hok Hs. apply sorted_keys_strong. revert Hs.
  induction Hok as [|k1 keys Hk1 Hok IH]; [done|]. destruct keys as [|k2 keys]; [done|].
  cbn [sorted_bytes]. change (entries value_of (k1 :: k2 :: keys))
    with ((Path.key_bits k1, value_of k1) :: (Path.key_bits k2, value_of k2) :: entries value_of keys).
  cbn [sorted_keys fst]. rewrite cmp_keys_bcmp, key_bits_cmp by (by inversion_clear Hok || done).
  destruct (bytes_cmp k1 k2); [done| |done]. exact IH.
Qed.

(** What a build leaves in a store that holds its writes. *)
Definition whole_built {St} `{TrieStore St} (sf : St) (hash : bytes) (keys : list bytes) : Prop :=
  ∃ t, hash = compute_hash (mem t) ∧ Stored sf t ∧ Own sf t ∧ canonical t
       ∧ Some t = oput_all None (entries value_of keys).

Lemma build_sorted_whole first keys :
  (L * 8 ≤ 1024)%nat → StronglySorted elt (entries value_of (first :: keys)) →
  Forall (key_ok value_of L) (first :: keys) →
  ∃ hash log,
    (∀ St (HS : TrieStore St) (s : St),
       build_sorted_opt s (first :: keys) value_of = Some (hash, ts_flush (put_many s log)))
    ∧ ∀ St (HS : TrieStore St) (sf : St), written sf log → whole_built sf hash (first :: keys).
Proof.
  intros HL Hs Hok.
  destruct (build_ok value_of L (L * 8) HL first keys []) as (w & log & Hb & Hw); try done.
  { apply Forall_true. intros. apply prefix_nil. }
  assert (length first = L) as Hl by by destruct (Forall_inv Hok).
  exists (match reference w with
          | RefNode n => compute_hash n | RefHash h => h | RefEmpty => empty_trie_hash end),
         (log ++ match reference w with RefNode n => [(compute_hash n, to_message n)] | _ => [] end).
  split.
  - intros St HS s. unfold build_sorted_opt. rewrite Hl. cbn zeta.
    change 0%nat with (length (@nil bool)). rewrite Hb. cbn [mbind option_bind].
    by rewrite put_many_app; destruct (reference w).
  - intros St HS sf [Hwl Hwr]%written_app.
    destruct (Hw _ _ sf Hwl) as (t & [_ [Href Hst]] & Hbd & Hc & Ht).
    destruct (Hst t eq_refl) as [Hst1 Hown]. rewrite rel_0 in Ht. exists t.
    pose proof (mem_not_empty t Hc) as Hne.
    assert (compute_hash (mem t) = keccak (to_message (mem t))) as Hh
      by (unfold compute_hash; by rewrite Hne).
    destruct (reference w) as [|h|n]; [by inversion Href|..].
    + inversion Href; subst. split_and!; [done|exact Hst1|by apply Hown|done|done].
    + assert (Rep sf n t) as HR by by inversion Href. apply written_cons in Hwr as [Hwr _].
      rewrite (rep_compute_hash _ _ _ HR), (rep_to_message _ _ _ HR), Hh in *.
      split_and!; [done|exact Hst1|exact Hwr|done|done].
Qed.

End whole.

Section bulk_props.
Context `{Keccak} {St : Type} `{TrieStoreLaws St}.

Lemma stored_flush (s : St) t : Stored s t → Own s t → Stored (ts_flush s) t ∧ Own (ts_flush s) t.
Proof using Type*.
  intros Hst Ho. assert (extends s (ts_flush s)) as Hext
    by (intros h m Hm; by rewrite ts_get_flush).
  split; [by apply (Stored_extends s)|by apply (Own_extends s)].
Qed.

(** ** Properties *)

(** C31: [build_sorted] agrees with inserting the entries one by one: its root hash
    is that of the trie [put] builds from them, and the trie read from the store
    under that hash holds the entries and nothing else.  The keys are sorted,
    distinct, of one length of at most 128 bytes; the hash function does not
    collide on what the build writes. *)
Theorem build_sorted_correct (s : St) keys value_of L
    (Hne : keys ≠ []) (Hlen : same_length L keys = true) (Hbits : (L * 8 ≤ 1024)%nat)
    (Hbytes : Forall bytes_ok keys) (Hsorted : sorted_bytes keys = true)
    (Hvalues : Forall (λ k, value_of k ≠ [] ∧ fits 24 (Z.of_nat (length (value_of k)))) keys)
    (Hcost : ecost (entries value_of keys) < 2 ^ 64)
    (Hnc : no_collision s (writes keys value_of)) :
  is_Some (build_sorted_opt s keys value_of)
  ∧ let '(hash, s') := build_sorted s keys value_of in
    hash = compute_hash (put_all s empty_node (entries value_of keys))
    ∧ ∃ n, try_resolve s' (RefHash hash) = Found n
           ∧ ∀ k, get s' n k = (list_to_map (entries value_of keys) : contents) !! k.
Proof using Type*.
  destruct keys as [|first keys]; [done|]. clear Hne.
  pose proof (sorted_entries value_of _ Hbytes Hsorted) as Hs.
  assert (Forall (key_ok value_of L) (first :: keys)) as Hok.
  { unfold same_length in Hlen. rewrite forallb_forall in Hlen. rewrite Forall_forall in Hvalues.
    apply Forall_forall. intros k Hk. split; [|by apply Hvalues].
    apply Nat.eqb_eq, Hlen. by apply list_elem_of_In. }
  destruct (build_sorted_whole value_of L first keys Hbits Hs Hok) as (hash & log & Hb & Hw).
  assert (writes (first :: keys) value_of = log) as Hlog.
  { unfold writes, build_sorted. rewrite Hb. simpl. apply put_many_recorder. }
  rewrite Hlog in Hnc. unfold build_sorted. rewrite Hb. split; [by eexists|]. cbn [default].
  destruct (Hw _ _ _ (put_many_written s log Hnc)) as (t & -> & Hst & Hown & Hc & Ht).
  destruct (stored_flush _ t Hst Hown) as [Hst' Hown'].
  assert (compute_hash (mem t) = keccak (to_message (mem t))) as Hh
    by (unfold compute_hash; by rewrite mem_not_empty).
  pose proof (put_all_root s (entries value_of (first :: keys)) empty_node None) as Hp.
  rewrite <- Ht in Hp. cbn [RepRoot oweight] in Hp.
  change (default (empty_trie_hash, s) (Some (compute_hash (mem t), ts_flush (put_many s log))))
    with (compute_hash (mem t), ts_flush (put_many s log)). cbv iota beta. split.
  - rewrite (rep_compute_hash s (put_all s empty_node _) t); [done|].
    apply Hp; [by repeat constructor|constructor|by eapply entries_values|lia].
  - destruct (stored_parse _ _ Hst') as (n & Hparse & HR). exists n.
    split; [simpl; by rewrite Hh, Hown', Hparse|]. intros k.
    rewrite (get_rep _ _ _ _ HR). change (tlookup t k) with (olookup (Some t) k).
    rewrite Ht, olookup_oput_all, elook_map by by apply sorted_nodup. cbn [olookup].
    by destruct ((list_to_map (entries value_of (first :: keys)) : contents) !! k).
Qed.

End bulk_props.

#[local] Existing Instance poly_keccak.

Definition sample_keys : list bytes := [[1; 0]; [1; 2]; [1; 3]; [200; 0]].
Definition sample_value (k : bytes) : bytes := if decide (k = [1; 2]) then replicate 50 7 else k.

Lemma build_sorted_correct_witness :
  (build_sorted memory_new sample_keys sample_value).1
  = compute_hash (put_all memory_new empty_node (entries sample_value sample_keys)).
Proof.
  destruct (build_sorted_correct memory_new sample_keys sample_value 2) as [_ Hr].
  - discriminate.
  - vm_compute. reflexivity.
  - vm_compute. repeat constructor.
  - apply (bool_decide_eq_true_1 (Forall bytes_ok sample_keys)). vm_compute. reflexivity.
  - vm_compute. reflexivity.
  - apply (bool_decide_eq_true_1 (Forall _ sample_keys)). vm_compute. reflexivity.
  - vm_compute. reflexivity.
  - apply collides_sound. vm_compute. reflexivity.
  - destruct (build_sorted memory_new sample_keys sample_value) as [h s']. exact (proj1 Hr).
Defined.

End Bulk.
