(* ===== verification/Chain.v ===== *)
(** * Headers, blocks and chain parameters

    The data of crates/core/src/types (header.rs, block.rs, transaction.rs), of
    crates/core/src/config.rs and the error type of crates/core/src/validation.
    Two things outside the modelled sources are parameters: the hashes of a
    header, which are taken over its RLP encoding ([HeaderHash]), and the
    decoding of a Bitcoin block header by the bitcoin crate ([BtcDecode]). *)
From S2P Require Import Prelude.
From stdpp Require Import options.

Module Chain.
Local Open Scope Z_scope.

(** ** Configuration *)

Record ActivationHeights := mkActivations {
  orchid : Z;
  wasabi100 : Z;
  papyrus200 : Z;
  iris300 : Z;
  fingerroot500 : Z;
  hop400 : Z;
  rskip97 : option Z;
}.

Definition mainnet_heights : ActivationHeights :=
  mkActivations 729000 1591000 2392700 3614800 5468000 4598500 (Some 729000).
Definition testnet_heights : ActivationHeights :=
  mkActivations 0 0 863000 2060500 4015800 3103000 None.
Definition regtest_heights : ActivationHeights :=
  mkActivations 0 0 (2 ^ 64 - 1) 0 0 0 None.

Record ChainConfig := mkConfig {
  chain_id : Z;
  network_id : Z;
  duration_limit : Z;
  difficulty_divisor : Z;
  min_difficulty : Z;
  max_future_block_time : Z;
  gas_limit_bound_divisor : Z;
  min_gas_limit : Z;
  max_gas_limit : Z;
  min_sequential_set_gas_limit : Z;
  activation_heights : ActivationHeights;
}.

Definition mainnet : ChainConfig :=
  mkConfig 30 775 14 50 7000000000000000 60 1024 3000000 1000000000 10000000 mainnet_heights.
Definition testnet : ChainConfig :=
  mkConfig 31 8100 14 50 131072 540 1024 3000000 1000000000 10000000 testnet_heights.
Definition regtest : ChainConfig :=
  mkConfig 33 7771 10 2048 1 0 1024 3000000 10000000 6800000 regtest_heights.

(** ** Headers *)

Record HeaderVersionFields := mkVersionFields {
  version : Z;
  edges : option (list Z);
  base_event : option bytes;
}.

(** [u64] fields: [number], [gas_used], [timestamp], [uncle_count]; [U256]
    fields: [difficulty], [gas_limit], [paid_fees], [minimum_gas_price]. *)
Record Header := mkHeader {
  parent_hash : bytes;
  ommers_hash : bytes;
  beneficiary : bytes;
  state_root : bytes;
  transactions_root : bytes;
  receipts_root : bytes;
  logs_bloom : bytes;
  extension_data : option bytes;
  difficulty : Z;
  number : Z;
  gas_limit : Z;
  gas_used : Z;
  timestamp : Z;
  extra_data : bytes;
  paid_fees : Z;
  minimum_gas_price : Z;
  uncle_count : Z;
  umm_root : option bytes;
  version_fields : option HeaderVersionFields;
  bitcoin_merged_mining_header : option bytes;
  bitcoin_merged_mining_merkle_proof : option bytes;
  bitcoin_merged_mining_coinbase_transaction : option bytes;
  cached_hash : option bytes;
  cached_hash_for_merged_mining : option bytes;
}.

(** The typing discipline of the integer fields. *)
Definition header_ok (h : Header) : Prop :=
  fits 256 (difficulty h) ∧ fits 64 (number h) ∧ fits 256 (gas_limit h) ∧ fits 64 (gas_used h) ∧
  fits 64 (timestamp h) ∧ fits 256 (minimum_gas_price h) ∧ fits 64 (uncle_count h).

(** [Header::hash] and [Header::hash_for_merged_mining]. *)
Class HeaderHash := {
  header_hash : Header → bytes;
  merged_mining_hash : Header → bytes;
  length_merged_mining_hash h : length (merged_mining_hash h) = 32%nat;
}.

(** ** Transactions and blocks *)

Record Transaction := mkTransaction {
  tx_nonce : Z;
  tx_gas_price : Z;
  tx_gas_limit : Z;
  tx_to : bytes;
  tx_value : Z;
  tx_input : bytes;
  tx_v : Z;
  tx_r : Z;
  tx_s : Z;
}.

Record Block := mkBlock {
  header : Header;
  transactions : list Transaction;
  ommers : list Header;
}.

(** ** Bitcoin headers *)

(** What the validation rules read of a decoded Bitcoin block header: [time],
    [merkle_root.to_byte_array()] and [block_hash().as_byte_array()]. *)
Record BtcHeader := mkBtcHeader {
  btc_time : Z;
  btc_merkle_root : bytes;
  btc_block_hash : bytes;
}.

Class BtcDecode := { btc_decode : bytes → option BtcHeader }.

(** ** Errors *)

Inductive ValidationError :=
  | InvalidBlockNumber (expected got : Z)
  | ParentHashMismatch (expected got : bytes)
  | TimestampInFuture (current got : Z)
  | TimestampOlderThanParent (parent got : Z)
  | SystemTimeError
  | GasUsedExceedsLimit (used limit : Z)
  | GasLimitOverflow
  | GasLimitOutOfBounds (min max got : Z)
  | GasLimitInvalid (parent got : Z)
  | DifficultyMismatch (expected got : Z)
  | DifficultyZero
  | BitcoinHeaderDecodeError
  | BitcoinTimestampTooFar (rsk btc max : Z)
  | BitcoinCoinbaseDecodeError
  | BitcoinMerkleProofDecodeError
  | BitcoinPowInvalid (hash : bytes) (target : Z)
  | BitcoinMerkleProofInvalid
  | BitcoinCoinbaseTagInvalid
  | MerkleProofTooLarge (max got : nat)
  | TxGasPriceBelowMinimum (price block_minimum : Z)
  | TxGasPriceAboveCap (price cap : Z)
  | RemascTxMissing
  | ExtraDataTooLarge (max got : nat)
  | MinGasPriceOutOfRange (lower upper got : Z)
  | TooManyUncles (max got : nat)
  | UncleIsAncestor (hash : bytes)
  | UncleAlreadyUsed (hash : bytes)
  | UncleRepeated (hash : bytes)
  | UncleIsSiblingOrDescendant (hash : bytes)
  | UncleTooOld (hash : bytes) (limit : Z)
  | UncleHasNoCommonParent (hash : bytes)
  | ForkDetectionDataMismatch (expected got : bytes)
  | ForkDetectionDataUnreadable
  | InvalidSublistEdges (reason : bytes).

Abbreviation verdict := (result unit ValidationError).

(** [for x in xs { f(x)?; }] *)
Fixpoint for_each {A} (f : A → verdict) (xs : list A) : verdict :=
  match xs with
  | [] => Ok tt
  | x :: xs' => let? _ := f x in for_each f xs'
  end.

Lemma for_each_Ok {A} (f : A → verdict) xs : for_each f xs = Ok tt ↔ ∀ x, x ∈ xs → f x = Ok tt.
Proof.
  induction xs as [|x xs IH]; simpl.
  - split; [intros _ x Hx; by apply elem_of_nil in Hx|done].
  - split.
    + destruct (f x) as [[]|e] eqn:Hx; simpl; [|done]. intros Hxs y [->|Hy]%elem_of_cons; [done|].
      by apply IH.
    + intros Hall. rewrite (Hall x) by left. simpl. apply IH. intros y Hy. apply Hall. by right.
Qed.

(** The first failing element decides the error. *)
Lemma for_each_Err {A} (f : A → verdict) xs e : for_each f xs = Err e →
  ∃ pre x post, xs = pre ++ x :: post ∧ (∀ y, y ∈ pre → f y = Ok tt) ∧ f x = Err e.
Proof.
  induction xs as [|x xs IH]; simpl; [done|]. destruct (f x) as [[]|e'] eqn:Hx; simpl.
  - intros (pre & y & post & -> & Hpre & Hy)%IH. exists (x :: pre), y, post. split; [done|].
    split; [|done]. intros z [->|Hz]%elem_of_cons; [done|]. by apply Hpre.
  - intros [= ->]. exists [], x, xs. split; [done|]. split; [|done].
    intros y Hy. by apply elem_of_nil in Hy.
Qed.

Lemma let_ok_tt (r : verdict) (k : verdict) : (let? _ := r in k) = Ok tt ↔ r = Ok tt ∧ k = Ok tt.
Proof. destruct r as [[]|e]; simpl; naive_solver. Qed.

End Chain.
