(* ===== verification/Sha256.v ===== *)
(** * SHA-256 as crates/core/src/validation/merged_mining.rs writes it

    The compression function, absorbing whole blocks into a midstate, and
    finishing a digest from a midstate.  The theorem that matters to merged
    mining: a digest resumed from the midstate of a whole number of blocks is the
    digest of the whole message. *)
From S2P Require Import Prelude.
From stdpp Require Import options.

Module Sha256.
Local Open Scope Z_scope.

(** ** Definitions *)

Definition rotate_right (x : Z) (n : Z) : Z :=
  Z.lor (Z.shiftr x n) (u32 (Z.shiftl x (32 - n))).

Definition not32 (x : Z) : Z := Z.lxor x (2 ^ 32 - 1).

(** Row by row, as the source lays the table out. *)
Definition K256 : list Z := concat [
  [0x428a2f98; 0x71374491; 0xb5c0fbcf; 0xe9b5dba5];
  [0x3956c25b; 0x59f111f1; 0x923f82a4; 0xab1c5ed5];
  [0xd807aa98; 0x12835b01; 0x243185be; 0x550c7dc3];
  [0x72be5d74; 0x80deb1fe; 0x9bdc06a7; 0xc19bf174];
  [0xe49b69c1; 0xefbe4786; 0x0fc19dc6; 0x240ca1cc];
  [0x2de92c6f; 0x4a7484aa; 0x5cb0a9dc; 0x76f988da];
  [0x983e5152; 0xa831c66d; 0xb00327c8; 0xbf597fc7];
  [0xc6e00bf3; 0xd5a79147; 0x06ca6351; 0x14292967];
  [0x27b70a85; 0x2e1b2138; 0x4d2c6dfc; 0x53380d13];
  [0x650a7354; 0x766a0abb; 0x81c2c92e; 0x92722c85];
  [0xa2bfe8a1; 0xa81a664b; 0xc24b8b70; 0xc76c51a3];
  [0xd192e819; 0xd6990624; 0xf40e3585; 0x106aa070];
  [0x19a4c116; 0x1e376c08; 0x2748774c; 0x34b0bcb5];
  [0x391c0cb3; 0x4ed8aa4a; 0x5b9cca4f; 0x682e6ff3];
  [0x748f82ee; 0x78a5636f; 0x84c87814; 0x8cc70208];
  [0x90befffa; 0xa4506ceb; 0xbef9a3f7; 0xc67178f2]].

(** The state [a..h]. *)
Record state := mkState { sa : Z; sb : Z; sc : Z; sd : Z; se : Z; sf : Z; sg : Z; sh : Z }.

Definition SHA256_INITIAL_STATE : state :=
  mkState 0x6a09e667 0xbb67ae85 0x3c6ef372 0xa54ff53a 0x510e527f 0x9b05688c 0x1f83d9ab 0x5be0cd19.

(** [u32::from_be_bytes] of the four bytes at [4 * i]. *)
Definition word_at (block : bytes) (i : nat) : Z := of_be (slice block (4 * i) (4 * i + 4)).

(** The message schedule: [w] has [i] entries and the loop adds the next. *)
Fixpoint schedule (w : list Z) (todo : nat) : list Z :=
  match todo with
  | O => w
  | S todo' =>
      let i := length w in
      let w15 := nth (i - 15) w 0 in
      let w2 := nth (i - 2) w 0 in
      let s0 := Z.lxor (Z.lxor (rotate_right w15 7) (rotate_right w15 18)) (Z.shiftr w15 3) in
      let s1 := Z.lxor (Z.lxor (rotate_right w2 17) (rotate_right w2 19)) (Z.shiftr w2 10) in
      schedule (w ++ [u32 (u32 (u32 (nth (i - 16) w 0 + s0) + nth (i - 7) w 0) + s1)]) todo'
  end.

(** One round, with its round constant and schedule word. *)
Definition round (s : state) (k w : Z) : state :=
  let s1 := Z.lxor (Z.lxor (rotate_right (se s) 6) (rotate_right (se s) 11))
              (rotate_right (se s) 25) in
  let ch := Z.lxor (Z.land (se s) (sf s)) (Z.land (not32 (se s)) (sg s)) in
  let temp1 := u32 (u32 (u32 (u32 (sh s + s1) + ch) + k) + w) in
  let s0 := Z.lxor (Z.lxor (rotate_right (sa s) 2) (rotate_right (sa s) 13))
              (rotate_right (sa s) 22) in
  let maj := Z.lxor (Z.lxor (Z.land (sa s) (sb s)) (Z.land (sa s) (sc s))) (Z.land (sb s) (sc s)) in
  let temp2 := u32 (s0 + maj) in
  mkState (u32 (temp1 + temp2)) (sa s) (sb s) (sc s) (u32 (sd s + temp1)) (se s) (sf s) (sg s).

Definition sha256_compress (s : state) (block : bytes) : state :=
  let w := schedule (word_at block <$> seq 0 16) 48 in
  let r := foldl (λ s kw, round s kw.1 kw.2) s (zip K256 w) in
  mkState (u32 (sa s + sa r)) (u32 (sb s + sb r)) (u32 (sc s + sc r)) (u32 (sd s + sd r))
    (u32 (se s + se r)) (u32 (sf s + sf r)) (u32 (sg s + sg r)) (u32 (sh s + sh r)).

(** [data.chunks_exact(n)]: the whole chunks, in order. *)
Fixpoint chunks_exact_fuel {A} (fuel n : nat) (data : list A) : list (list A) :=
  match fuel with
  | O => []
  | S fuel' =>
      if (length data <? n)%nat then []
      else take n data :: chunks_exact_fuel fuel' n (drop n data)
  end.

Definition chunks_exact {A} (n : nat) (data : list A) : list (list A) :=
  chunks_exact_fuel (length data) n data.

Definition absorb (s : state) (data : bytes) : state :=
  foldl sha256_compress s (chunks_exact 64 data).

Definition state_words (s : state) : list Z := [sa s; sb s; sc s; sd s; se s; sf s; sg s; sh s].

Definition state_bytes (s : state) : bytes := concat (be_bytes 4 <$> state_words s).

(** The [while] loop pushes zeros until the total length is 56 modulo 64. *)
Fixpoint pad_loop (fuel : nat) (byte_count : Z) (padded : bytes) : bytes :=
  match fuel with
  | O => padded
  | S fuel' =>
      if decide (u64 (byte_count + Z.of_nat (length padded)) mod 64 = 56) then padded
      else pad_loop fuel' byte_count (padded ++ [0])
  end.

Definition sha256_from_midstate (s : state) (byte_count : Z) (tail : bytes) : bytes :=
  let total_len := u64 (byte_count + Z.of_nat (length tail)) in
  let total_bits := u64 (total_len * 8) in
  let padded := pad_loop 64 byte_count (tail ++ [0x80]) in
  state_bytes (absorb s (padded ++ be_bytes 8 total_bits)).

(** The digest of a whole message. *)
Definition sha256 (data : bytes) : bytes := sha256_from_midstate SHA256_INITIAL_STATE 0 data.

(** ** Lemmas *)

Lemma length_state_bytes s : length (state_bytes s) = 32%nat.
Proof. unfold state_bytes, state_words. cbn [fmap list_fmap concat]. by autorewrite with len. Qed.

Lemma chunks_fuel_enough {A} fuel1 n : ∀ fuel2 (data : list A), (0 < n)%nat →
  (length data ≤ fuel1)%nat → (length data ≤ fuel2)%nat →
  chunks_exact_fuel fuel1 n data = chunks_exact_fuel fuel2 n data.
Proof.
  induction fuel1 as [|f1 IH]; intros [|f2] data Hn H1 H2; simpl; try done.
  - destruct (Nat.ltb_spec (length data) n); [done|lia].
  - destruct (Nat.ltb_spec (length data) n); [done|lia].
  - destruct (Nat.ltb_spec (length data) n); [done|]. f_equal.
    apply IH; [done|rewrite length_drop; lia..].
Qed.

Lemma chunks_exact_short {A} n (data : list A) : (length data < n)%nat → chunks_exact n data = [].
Proof.
  intros Hl. unfold chunks_exact. destruct (length data) eqn:Hd; [done|]. cbn [chunks_exact_fuel].
  destruct (Nat.ltb_spec (length data) n); [done|lia].
Qed.

Lemma chunks_exact_cons {A} n (c rest : list A) : (0 < n)%nat → length c = n →
  chunks_exact n (c ++ rest) = c :: chunks_exact n rest.
Proof.
  intros Hn Hc. unfold chunks_exact. rewrite length_app.
  destruct (length c + length rest)%nat as [|f] eqn:Hf; [lia|]. cbn [chunks_exact_fuel].
  rewrite length_app. destruct (Nat.ltb_spec (length c + length rest) n); [lia|].
  rewrite take_app_length', drop_app_length' by done. f_equal.
  apply chunks_fuel_enough; lia.
Qed.

(** Whole blocks can be absorbed in two goes. *)
Lemma chunks_exact_app {A} n (a : list A) : ∀ k b, (0 < n)%nat → length a = (k * n)%nat →
  chunks_exact n (a ++ b) = chunks_exact n a ++ chunks_exact n b.
Proof.
  intros k. revert a. induction k as [|k IH]; intros a b Hn Ha.
  - destruct a; [done|simpl in Ha; lia].
  - rewrite <- (take_drop n a). assert (length (take n a) = n) as Ht by (rewrite length_take; lia).
    rewrite <- app_assoc, (chunks_exact_cons n (take n a) (drop n a ++ b)) by done.
    rewrite (chunks_exact_cons n (take n a) (drop n a)) by done. simpl. f_equal.
    apply IH; [done|]. rewrite length_drop. lia.
Qed.

Lemma absorb_app s a b k : length a = (k * 64)%nat → absorb s (a ++ b) = absorb (absorb s a) b.
Proof. intros Ha. unfold absorb. rewrite (chunks_exact_app 64 a k) by lia. apply foldl_app. Qed.

Lemma u64_mod_64 x : u64 x mod 64 = x mod 64.
Proof. unfold u64, wrap. symmetry. apply Znumtheory.Zmod_div_mod; [lia|lia|]. by exists (2 ^ 58). Qed.

(** The loop stops, after fewer than 64 zeros. *)
Lemma pad_loop_spec bc : ∀ fuel p,
  (56 - (bc + Z.of_nat (length p))) mod 64 < Z.of_nat fuel →
  pad_loop fuel bc p = p ++ replicate (Z.to_nat ((56 - (bc + Z.of_nat (length p))) mod 64)) 0.
Proof.
  induction fuel as [|fuel IH]; intros p Hf.
  { pose proof (Z.mod_pos_bound (56 - (bc + Z.of_nat (length p))) 64). lia. }
  cbn [pad_loop]. rewrite u64_mod_64. set (x := bc + Z.of_nat (length p)) in *.
  destruct (decide (x mod 64 = 56)) as [Hx|Hx].
  - replace ((56 - x) mod 64) with 0; [by rewrite app_nil_r|].
    rewrite Zminus_mod, Hx. done.
  - assert (bc + Z.of_nat (length (p ++ [0])) = x + 1) as Hlen
      by (unfold x; rewrite length_app; simpl; lia).
    pose proof (Z.mod_pos_bound (56 - x) 64). pose proof (Z_div_mod_eq_full (56 - x) 64).
    assert ((56 - x) mod 64 ≠ 0) as Hnz.
    { intros Hz. apply Hx. replace x with (56 - (56 - x)) by lia. rewrite Zminus_mod, Hz. done. }
    assert ((56 - (x + 1)) mod 64 = (56 - x) mod 64 - 1) as Hstep
      by (symmetry; apply (Z.mod_unique _ _ ((56 - x) / 64)); lia).
    pose proof (IH (p ++ [0])) as IH'. rewrite Hlen, Hstep in IH'. rewrite IH' by lia.
    replace (Z.to_nat ((56 - x) mod 64)) with (S (Z.to_nat ((56 - x) mod 64 - 1))) by lia.
    rewrite <- app_assoc. done.
Qed.

Lemma pad_64 bc p :
  pad_loop 64 bc p = p ++ replicate (Z.to_nat ((56 - (bc + Z.of_nat (length p))) mod 64)) 0.
Proof. apply pad_loop_spec. pose proof (Z.mod_pos_bound (56 - (bc + Z.of_nat (length p))) 64). lia. Qed.

Lemma resume_midstate s bc a k tail : length a = (k * 64)%nat →
  sha256_from_midstate (absorb s a) (bc + Z.of_nat (length a)) tail
  = sha256_from_midstate s bc (a ++ tail).
Proof.
  intros Ha. unfold sha256_from_midstate.
  rewrite !pad_64, <- !app_assoc, (absorb_app s a _ k) by done.
  rewrite !length_app. replace (bc + Z.of_nat (length a + (length tail + length [0x80])))
    with (bc + Z.of_nat (length a) + Z.of_nat (length tail + length [0x80])) by lia.
  by replace (bc + Z.of_nat (length a + length tail))
    with (bc + Z.of_nat (length a) + Z.of_nat (length tail)) by lia.
Qed.

(** The words of a state are [u32]s. *)
Definition state_ok (s : state) : Prop := Forall (fits 32) (state_words s).

Lemma compress_ok s block : state_ok (sha256_compress s block).
Proof.
  unfold state_ok, state_words, sha256_compress. cbn zeta. set (r := foldl _ _ _). clearbody r.
  cbn [sa sb sc sd se sf sg sh]. repeat (apply Forall_cons; split; [apply wrap_fits; lia|]).
  constructor.
Qed.

Lemma absorb_ok s data : state_ok s → state_ok (absorb s data).
Proof.
  intros Hs. unfold absorb. generalize (chunks_exact 64 data). intros l. revert s Hs.
  induction l as [|b l IH]; intros s Hs; simpl; [done|]. apply IH, compress_ok.
Qed.

Lemma initial_ok : state_ok SHA256_INITIAL_STATE.
Proof.
  unfold state_ok, state_words. cbn [sa sb sc sd se sf sg sh SHA256_INITIAL_STATE].
  repeat (apply Forall_cons; split; [unfold fits; lia|]). constructor.
Qed.

#[global] Opaque sha256_compress.

(** ** Properties *)

(** Resuming a digest from a midstate is hashing the whole message: whatever
    state [s] stands for [bc] absorbed bytes, absorbing [k] more blocks and
    finishing with [tail] gives what finishing from [s] with the blocks and the
    tail together gives. *)
Theorem midstate_resumes s bc a k tail (Ha : length a = (k * 64)%nat) :
  sha256_from_midstate (absorb s a) (bc + Z.of_nat (length a)) tail
  = sha256_from_midstate s bc (a ++ tail).
Proof.
  by apply (resume_midstate s bc a k).
Qed.

Lemma midstate_resumes_witness :
  sha256_from_midstate (absorb SHA256_INITIAL_STATE (replicate 128 97)) 128 [98; 99]
  = sha256 (replicate 128 97 ++ [98; 99]).
Proof.
  exact (midstate_resumes SHA256_INITIAL_STATE 0 (replicate 128 97) 2 [98; 99] eq_refl).
Defined.

(** The compression function is SHA-256's: the digests of the empty message,
    of "abc" and of the two-block message of FIPS 180-4 are the published ones. *)
Theorem sha256_test_vectors :
  sha256 [] = be_bytes 32 0xe3b0c44298fc1c149afbf4c8996fb92427ae41e4649b934ca495991b7852b855
  ∧ sha256 [97; 98; 99]
    = be_bytes 32 0xba7816bf8f01cfea414140de5dae2223b00361a396177a9cb410ff61f20015ad
  ∧ sha256 (concat ((λ i, [97 + i; 98 + i; 99 + i; 100 + i]) <$> (Z.of_nat <$> seq 0 14)))
    = be_bytes 32 0x248d6a61d20638b8e5c026930c3e6039a33ce45964ff2167f6ecedd419db06c1.
Proof. vm_compute. repeat split. Qed.

End Sha256.
