(* ===== verification/MergedMining.v ===== *)
(** * Merged mining: crates/core/src/validation/merged_mining.rs

    A header is accepted on the work of a Bitcoin block whose coinbase commits to
    it.  The coinbase travels compressed: a SHA-256 midstate of the blocks before
    the commitment, and the rest verbatim.  [sha2_digest] is the sha2 crate. *)
From S2P Require Import Prelude Chain Sha256.
From stdpp Require Import options.

Module MergedMining.
Import Chain Sha256.
Local Open Scope Z_scope.

(** ** Constants *)

(** The bytes of "RSKBLOCK:". *)
Definition RSK_TAG : bytes := [82; 83; 75; 66; 76; 79; 67; 75; 58].
Definition MIDSTATE_SIZE_TRIMMED : nat := 40.
Definition BLOCK_HEADER_HASH_SIZE : nat := 32.
Definition MAX_BYTES_AFTER_MERGED_MINING_HASH : nat := 128.
Definition HASH_FOR_MERGED_MINING_PREFIX_LENGTH : nat := 20.
Definition MAX_RSK_TAG_POSITION_IN_TAIL : nat := 64.
Definition MAX_MERGED_MINING_MERKLE_PROOF_LENGTH : nat := 960.
Definition FORK_DETECTION_DATA_LENGTH : nat := 12.

Class Sha2 := {
  sha2_digest : bytes → bytes;
  length_sha2_digest x : length (sha2_digest x) = 32%nat;
}.

(** ** Searching *)

Definition window_is (haystack needle : bytes) (i : nat) : bool :=
  bool_decide (slice haystack i (i + length needle) = needle).

(** [(0..=i).rposition(..)] *)
Fixpoint rposition (p : nat → bool) (i : nat) : option nat :=
  if p i then Some i else match i with O => None | S i' => rposition p i' end.

Definition find_last_subsequence (haystack needle : bytes) : option nat :=
  if (length haystack <? length needle)%nat then None
  else rposition (window_is haystack needle) (length haystack - length needle).

(** [position] over the windows from [i] on; [todo] of them are left. *)
Fixpoint position (p : nat → bool) (i todo : nat) : option nat :=
  match todo with
  | O => None
  | S todo' => if p i then Some i else position p (S i) todo'
  end.

Definition find_first_subsequence (haystack needle : bytes) : option nat :=
  if (length haystack <? length needle)%nat then None
  else position (window_is haystack needle) 0 (length haystack - length needle + 1).

Section merged_mining.
Context `{Sha2}.

(** ** Hashing the coinbase *)

Definition midstate_of (trimmed : bytes) : state :=
  let w i := of_be (slice trimmed (8 + 4 * i) (12 + 4 * i)) in
  mkState (w 0%nat) (w 1%nat) (w 2%nat) (w 3%nat) (w 4%nat) (w 5%nat) (w 6%nat) (w 7%nat).

Definition compute_coinbase_hash (compressed : bytes) : bytes :=
  let trimmed := take MIDSTATE_SIZE_TRIMMED compressed in
  let tail := drop MIDSTATE_SIZE_TRIMMED compressed in
  let byte_count := of_be (slice trimmed 0 8) in
  let one_round := sha256_from_midstate (midstate_of trimmed) byte_count tail in
  reverse (sha2_digest one_round).

Definition combine_left_right (l r : bytes) : bytes :=
  reverse (sha2_digest (sha2_digest (reverse l ++ reverse r))).

Definition rskip92_merkle_root (coinbase_hash proof_bytes : bytes) : bytes :=
  foldl combine_left_right coinbase_hash (chunks_exact 32 proof_bytes).

(** ** Compressing the coinbase *)

Inductive CoinbaseCompressionError :=
  | TagNotFound
  | TagTooDeepInTail (offset max : nat)
  | HashTruncated (available needed : nat)
  | TooMuchTrailingData (trailing max : nat).

Definition compress_coinbase (coinbase : bytes) (last_occurrence : bool)
    : result bytes CoinbaseCompressionError :=
  let? tag_position :=
    ok_or (if last_occurrence then find_last_subsequence coinbase RSK_TAG
           else find_first_subsequence coinbase RSK_TAG) TagNotFound in
  let after_tag := (tag_position + length RSK_TAG)%nat in
  let available := (length coinbase - after_tag)%nat in
  if (available <? BLOCK_HEADER_HASH_SIZE)%nat
  then Err (HashTruncated available BLOCK_HEADER_HASH_SIZE)
  else
    let trailing := (available - BLOCK_HEADER_HASH_SIZE)%nat in
    if (MAX_BYTES_AFTER_MERGED_MINING_HASH <? trailing)%nat
    then Err (TooMuchTrailingData trailing MAX_BYTES_AFTER_MERGED_MINING_HASH)
    else
      let bytes_to_hash := (tag_position / 64 * 64)%nat in
      let tail_tag_position := (tag_position - bytes_to_hash)%nat in
      if (MAX_RSK_TAG_POSITION_IN_TAIL <=? tail_tag_position)%nat
      then Err (TagTooDeepInTail tail_tag_position MAX_RSK_TAG_POSITION_IN_TAIL)
      else
        let st := absorb SHA256_INITIAL_STATE (take bytes_to_hash coinbase) in
        Ok (be_bytes 8 (u64 (Z.of_nat bytes_to_hash)) ++ state_bytes st
            ++ drop bytes_to_hash coinbase).

(** ** The rules *)

Section rules.
Context `{HeaderHash} `{BtcDecode} (config : ChainConfig).

Definition DEFAULT_MAX_TIMESTAMPS_DIFF_IN_SECS : Z := 5 * 60.
Definition TESTNET_MAX_TIMESTAMPS_DIFF_IN_SECS : Z := 120 * 60.
Definition TESTNET_CHAIN_ID : Z := 31.

Definition max_timestamps_diff (number : Z) : Z :=
  if (chain_id config =? TESTNET_CHAIN_ID) && (hop400 (activation_heights config) <=? number)
  then TESTNET_MAX_TIMESTAMPS_DIFF_IN_SECS
  else DEFAULT_MAX_TIMESTAMPS_DIFF_IN_SECS.

(** The merged-mining header of [h], decoded. *)
Definition decode_btc_header (h : Header) : result BtcHeader ValidationError :=
  let? raw := ok_or (bitcoin_merged_mining_header h) BitcoinHeaderDecodeError in
  ok_or (btc_decode raw) BitcoinHeaderDecodeError.

Definition validate_bitcoin_timestamp (h : Header) : verdict :=
  if number h <? iris300 (activation_heights config) then Ok tt
  else
    let? btc_header := decode_btc_header h in
    let btc := btc_time btc_header in
    let rsk := timestamp h in
    let max := max_timestamps_diff (number h) in
    if max <=? Z.abs (rsk - btc) then Err (BitcoinTimestampTooFar rsk btc max) else Ok tt.

(** Step 1: the Bitcoin hash, as a little-endian number, against the target. *)
Definition check_pow (difficulty : Z) (btc_hash : bytes) : verdict :=
  if difficulty =? 0 then Err DifficultyZero
  else
    let target := if 2 ^ 256 - 1 <? difficulty then 0 else (2 ^ 256 - 1) / difficulty in
    if target <? of_le btc_hash then Err (BitcoinPowInvalid btc_hash target) else Ok tt.

Definition expected_tag (h : Header) : bytes :=
  if wasabi100 (activation_heights config) <=? number h
  then RSK_TAG ++ take HASH_FOR_MERGED_MINING_PREFIX_LENGTH (merged_mining_hash h)
  else RSK_TAG ++ merged_mining_hash h.

(** Step 2: the commitment in the tail of the compressed coinbase. *)
Definition check_tag (tail expected : bytes) : verdict :=
  let? rsk_tag_position := ok_or (find_last_subsequence tail expected) BitcoinCoinbaseTagInvalid in
  if (MAX_RSK_TAG_POSITION_IN_TAIL <=? rsk_tag_position)%nat then Err BitcoinCoinbaseTagInvalid
  else
    let? last_tag := ok_or (find_last_subsequence tail RSK_TAG) BitcoinCoinbaseTagInvalid in
    if negb (rsk_tag_position =? last_tag)%nat then Err BitcoinCoinbaseTagInvalid
    else if (length tail <? rsk_tag_position + length RSK_TAG + BLOCK_HEADER_HASH_SIZE)%nat
    then Err BitcoinCoinbaseTagInvalid
    else
      let remaining :=
        (length tail - rsk_tag_position - length RSK_TAG - BLOCK_HEADER_HASH_SIZE)%nat in
      if (MAX_BYTES_AFTER_MERGED_MINING_HASH <? remaining)%nat
      then Err BitcoinCoinbaseTagInvalid else Ok tt.

(** Step 3: the coinbase is in the Bitcoin block. *)
Definition check_merkle (h : Header) (compressed root : bytes) : verdict :=
  let coinbase_hash := compute_coinbase_hash compressed in
  let? proof := ok_or (bitcoin_merged_mining_merkle_proof h) BitcoinMerkleProofDecodeError in
  if (iris300 (activation_heights config) <=? number h)
     && (MAX_MERGED_MINING_MERKLE_PROOF_LENGTH <? length proof)%nat
  then Err (MerkleProofTooLarge MAX_MERGED_MINING_MERKLE_PROOF_LENGTH (length proof))
  else if negb (length proof mod 32 =? 0)%nat then Err BitcoinMerkleProofDecodeError
  else
    let computed_root := rskip92_merkle_root coinbase_hash proof in
    if decide (computed_root = root) then Ok tt
    else if decide (reverse computed_root = root) then Ok tt
    else Err BitcoinMerkleProofInvalid.

Definition validate_merged_mining (h : Header) : verdict :=
  if number h <? orchid (activation_heights config) then Ok tt
  else
    let? btc_header := decode_btc_header h in
    let? _ := check_pow (difficulty h) (btc_block_hash btc_header) in
    let? compressed :=
      ok_or (bitcoin_merged_mining_coinbase_transaction h) BitcoinCoinbaseDecodeError in
    if (length compressed <? MIDSTATE_SIZE_TRIMMED + 1)%nat then Err BitcoinCoinbaseDecodeError
    else
      let tail := drop MIDSTATE_SIZE_TRIMMED compressed in
      let? _ := check_tag tail (expected_tag h) in
      check_merkle h compressed (btc_merkle_root btc_header).

Definition extract_fork_detection_data (h : Header) : option bytes :=
  compressed ← bitcoin_merged_mining_coinbase_transaction h;
  if (length compressed <? MIDSTATE_SIZE_TRIMMED + 1)%nat then None
  else
    let tail := drop MIDSTATE_SIZE_TRIMMED compressed in
    let prefix := RSK_TAG ++ take HASH_FOR_MERGED_MINING_PREFIX_LENGTH (merged_mining_hash h) in
    position ← find_last_subsequence tail prefix;
    let from := (position + length prefix)%nat in
    let to := (from + FORK_DETECTION_DATA_LENGTH)%nat in
    if (length tail <? to)%nat then None else Some (slice tail from to).

End rules.

(** ** Lemmas *)

Lemma rposition_Some p i j : rposition p i = Some j →
  p j = true ∧ (j ≤ i)%nat ∧ ∀ k, (j < k ≤ i)%nat → p k = false.
Proof.
  induction i as [|i IH]; cbn [rposition].
  - destruct (p 0%nat) eqn:Hp; [|done]. intros [= <-]. split_and!; [done|lia|lia].
  - destruct (p (S i)) eqn:Hp.
    + intros [= <-]. split_and!; [done|lia|lia].
    + intros (Hj & Hle & Hk)%IH. split_and!; [done|lia|]. intros k Hki.
      destruct (decide (k = S i)) as [->|]; [done|]. apply Hk. lia.
Qed.

Lemma rposition_exists p i j : p j = true → (j ≤ i)%nat →
  (∀ k, (j < k ≤ i)%nat → p k = false) → rposition p i = Some j.
Proof.
  induction i as [|i IH]; intros Hj Hle Hk; cbn [rposition].
  - replace j with 0%nat in * by lia. by rewrite Hj.
  - destruct (decide (j = S i)) as [->|]; [by rewrite Hj|].
    rewrite (Hk (S i)) by lia. apply IH; [done|lia|]. intros k Hki. apply Hk. lia.
Qed.

Definition occurs_at (haystack needle : bytes) (i : nat) : Prop :=
  (i + length needle ≤ length haystack)%nat ∧ slice haystack i (i + length needle) = needle.

(** The last occurrence, and only that. *)
Lemma find_last_spec haystack needle i : needle ≠ [] →
  find_last_subsequence haystack needle = Some i ↔
  occurs_at haystack needle i ∧ ∀ k, occurs_at haystack needle k → (k ≤ i)%nat.
Proof.
  intros Hne. unfold find_last_subsequence, occurs_at.
  destruct (Nat.ltb_spec (length haystack) (length needle)) as [Hlt|Hge].
  { split; [done|]. intros [[? _] _]. lia. }
  split.
  - intros (Hp & Hle & Hk)%rposition_Some. unfold window_is in Hp. apply bool_decide_eq_true in Hp.
    split; [split; [lia|done]|]. intros k [Hlen Hs].
    destruct (decide (k ≤ i)%nat); [done|]. assert (k ≤ length haystack - length needle)%nat by lia.
    specialize (Hk k ltac:(lia)). unfold window_is in Hk. by apply bool_decide_eq_false in Hk.
  - intros [[Hlen Hs] Hmax]. apply rposition_exists; [|lia|].
    + by apply bool_decide_eq_true_2.
    + intros k Hk. apply bool_decide_eq_false_2. intros Hs'.
      assert (k ≤ i)%nat by (apply Hmax; split; [lia|done]). lia.
Qed.

(** An occurrence in a suffix is one in the whole. *)
Lemma occurs_at_drop haystack needle b i : (b ≤ length haystack)%nat →
  occurs_at (drop b haystack) needle i ↔ occurs_at haystack needle (b + i).
Proof.
  intros Hb. unfold occurs_at, slice. rewrite length_drop, drop_drop.
  replace (i + length needle - i)%nat with (length needle) by lia.
  replace (b + i + length needle - (b + i))%nat with (length needle) by lia.
  split; intros [? ?]; split; try done; lia.
Qed.

Lemma occurs_at_prefix haystack n1 n2 i :
  occurs_at haystack (n1 ++ n2) i → occurs_at haystack n1 i.
Proof.
  unfold occurs_at, slice. rewrite length_app. intros [Hlen Hs]. split; [lia|].
  replace (i + (length n1 + length n2) - i)%nat with (length n1 + length n2)%nat in Hs by lia.
  replace (i + length n1 - i)%nat with (length n1) by lia.
  apply (f_equal (take (length n1))) in Hs. rewrite take_take, take_app_length in Hs.
  rewrite Nat.min_l in Hs by lia. done.
Qed.

(** ** Reading a compressed coinbase back *)

Lemma slice_app_mid {A} (a b c : list A) : slice (a ++ b ++ c) (length a) (length a + length b) = b.
Proof.
  unfold slice. rewrite drop_app_length.
  replace (length a + length b - length a)%nat with (length b) by lia. apply take_app_length.
Qed.

Lemma slice_words ws : ∀ pre i w, ws !! i = Some w →
  slice (pre ++ concat (be_bytes 4 <$> ws)) (length pre + 4 * i) (length pre + 4 * i + 4)
  = be_bytes 4 w.
Proof.
  induction ws as [|v ws IH]; intros pre [|i] w Hw; try done.
  - injection Hw as ->. cbn [fmap list_fmap concat].
    rewrite Nat.mul_0_r, Nat.add_0_r.
    replace (length pre + 4)%nat with (length pre + length (be_bytes 4 w))%nat
      by by rewrite length_be_bytes.
    apply slice_app_mid.
  - cbn [fmap list_fmap concat]. specialize (IH (pre ++ be_bytes 4 v) i w Hw).
    rewrite length_app, length_be_bytes, <- app_assoc in IH.
    replace (length pre + 4 * S i)%nat with (length pre + 4 + 4 * i)%nat by lia. exact IH.
Qed.

Lemma midstate_of_bytes n s : state_ok s → length n = 8%nat → midstate_of (n ++ state_bytes s) = s.
Proof.
  intros Hs Hn.
  assert (∀ i w, state_words s !! i = Some w →
    of_be (slice (n ++ state_bytes s) (8 + 4 * i) (12 + 4 * i)) = w) as Hw.
  { intros i w Hi. replace (12 + 4 * i)%nat with (8 + 4 * i + 4)%nat by lia.
    rewrite <- Hn. unfold state_bytes. rewrite (slice_words _ _ _ _ Hi).
    apply (of_be_be_bytes 4). unfold state_ok in Hs. rewrite Forall_forall in Hs.
    apply Hs. by eapply list_elem_of_lookup_2. }
  destruct s as [a b c d e f g h]. unfold midstate_of.
  rewrite (Hw 0%nat a eq_refl), (Hw 1%nat b eq_refl), (Hw 2%nat c eq_refl), (Hw 3%nat d eq_refl),
    (Hw 4%nat e eq_refl), (Hw 5%nat f eq_refl), (Hw 6%nat g eq_refl), (Hw 7%nat h eq_refl). done.
Qed.

(** The parts of a compressed coinbase. *)
Lemma compress_coinbase_Ok cb last_occurrence out :
  compress_coinbase cb last_occurrence = Ok out →
  ∃ tp, (if last_occurrence then find_last_subsequence cb RSK_TAG
         else find_first_subsequence cb RSK_TAG) = Some tp
    ∧ (tp + length RSK_TAG + BLOCK_HEADER_HASH_SIZE ≤ length cb)%nat
    ∧ (length cb ≤ tp + length RSK_TAG + BLOCK_HEADER_HASH_SIZE + MAX_BYTES_AFTER_MERGED_MINING_HASH)%nat
    ∧ let b := (tp / 64 * 64)%nat in
      out = (be_bytes 8 (u64 (Z.of_nat b))
             ++ state_bytes (absorb SHA256_INITIAL_STATE (take b cb))) ++ drop b cb.
Proof.
  unfold compress_coinbase.
  destruct (if last_occurrence then _ else _) as [tp|]; cbn [ok_or result_bind]; [|done].
  change (length RSK_TAG) with 9%nat. destruct (Nat.ltb_spec (length cb - (tp + 9)) BLOCK_HEADER_HASH_SIZE) as [|H1]; [done|].
  destruct (Nat.ltb_spec MAX_BYTES_AFTER_MERGED_MINING_HASH
              (length cb - (tp + 9) - BLOCK_HEADER_HASH_SIZE)) as [|H2]; [done|].
  destruct (MAX_RSK_TAG_POSITION_IN_TAIL <=? tp - tp / 64 * 64)%nat; [done|]. intros [= <-].
  exists tp. split; [done|]. unfold BLOCK_HEADER_HASH_SIZE, MAX_BYTES_AFTER_MERGED_MINING_HASH in *.
  split_and!; [lia|lia|]. by rewrite <- app_assoc.
Qed.

Lemma length_midstate n s : length (be_bytes 8 n ++ state_bytes s) = MIDSTATE_SIZE_TRIMMED.
Proof. by rewrite length_app, length_be_bytes, length_state_bytes. Qed.

Lemma compute_coinbase_hash_compressed cb b : (b ≤ length cb)%nat → (∃ k, b = k * 64)%nat →
  fits 64 (Z.of_nat (length cb)) →
  compute_coinbase_hash ((be_bytes 8 (u64 (Z.of_nat b))
    ++ state_bytes (absorb SHA256_INITIAL_STATE (take b cb))) ++ drop b cb)
  = reverse (sha2_digest (sha256 cb)).
Proof.
  intros Hb [k Hk] [_ Hfit]. unfold compute_coinbase_hash.
  rewrite take_app_length', drop_app_length' by by rewrite length_midstate.
  rewrite midstate_of_bytes; [|apply absorb_ok, initial_ok|apply length_be_bytes].
  assert (of_be (slice (be_bytes 8 (u64 (Z.of_nat b)) ++ state_bytes (absorb SHA256_INITIAL_STATE (take b cb))) 0 8)
          = Z.of_nat b) as ->.
  { unfold slice. rewrite drop_0, take_app_length' by by rewrite length_be_bytes.
    rewrite (of_be_be_bytes 8) by (apply wrap_fits; lia). unfold u64. apply wrap_small.
    unfold fits. lia. }
  assert (length (take b cb) = b) as Hlen by (rewrite length_take; lia).
  pose proof (resume_midstate SHA256_INITIAL_STATE 0 (take b cb) k (drop b cb)) as Hr.
  rewrite Hlen, take_drop in Hr. unfold sha256. rewrite <- Hr by done. by rewrite Z.add_0_l.
Qed.

Lemma rsk_tag_nonempty l : RSK_TAG ++ l ≠ [].
Proof. done. Qed.

(** The tag, found in the whole coinbase, is found at the same place of the tail. *)
Lemma find_last_in_tail cb tp b needle :
  find_last_subsequence cb RSK_TAG = Some tp → (b ≤ tp)%nat →
  occurs_at cb (RSK_TAG ++ needle) tp →
  find_last_subsequence (drop b cb) (RSK_TAG ++ needle) = Some (tp - b)%nat.
Proof.
  intros Hlast Hb Hocc. apply find_last_spec in Hlast as [Hat Hmax]; [|done].
  assert (b ≤ length cb)%nat by (destruct Hat; lia).
  apply find_last_spec; [done|]. split.
  - rewrite occurs_at_drop by done. by replace (b + (tp - b))%nat with tp by lia.
  - intros k Hk. rewrite occurs_at_drop in Hk by done. apply occurs_at_prefix in Hk.
    apply Hmax in Hk. lia.
Qed.

Lemma check_pow_Ok d hash : fits 256 d →
  check_pow d hash = Ok tt ↔ 0 < d ∧ of_le hash * d < 2 ^ 256.
Proof.
  intros [Hd0 Hd1]. unfold check_pow. destruct (Z.eqb_spec d 0) as [->|Hne].
  { split; [done|lia]. }
  destruct (Z.ltb_spec (2 ^ 256 - 1) d) as [Hx|_]; [lia|].
  destruct (Z.ltb_spec ((2 ^ 256 - 1) / d) (of_le hash)) as [Hlt|Hle].
  - split; [done|]. intros [_ Hmul]. exfalso.
    assert (of_le hash ≤ (2 ^ 256 - 1) / d); [|lia]. apply Z.div_le_lower_bound; lia.
  - split; [|done]. intros _. split; [lia|].
    pose proof (Z.mul_div_le (2 ^ 256 - 1) d). nia.
Qed.

(** The commitment stands at [p] of the tail, at its last tag and near its end. *)
Definition commits_at (tail expected : bytes) (p : nat) : Prop :=
  occurs_at tail expected p ∧ (p < MAX_RSK_TAG_POSITION_IN_TAIL)%nat
  ∧ (∀ k, occurs_at tail RSK_TAG k → (k ≤ p)%nat)
  ∧ (p + length RSK_TAG + BLOCK_HEADER_HASH_SIZE ≤ length tail)%nat
  ∧ (length tail ≤ p + length RSK_TAG + BLOCK_HEADER_HASH_SIZE + MAX_BYTES_AFTER_MERGED_MINING_HASH)%nat.

Lemma check_tag_Ok tail committed :
  check_tag tail (RSK_TAG ++ committed) = Ok tt ↔ ∃ p, commits_at tail (RSK_TAG ++ committed) p.
Proof.
  unfold check_tag, commits_at. split.
  - destruct (find_last_subsequence tail (RSK_TAG ++ committed)) as [p|] eqn:Hp;
      cbn [ok_or result_bind]; [|done].
    destruct (Nat.leb_spec MAX_RSK_TAG_POSITION_IN_TAIL p) as [|Hlt]; [done|].
    destruct (find_last_subsequence tail RSK_TAG) as [q|] eqn:Hq; cbn [ok_or result_bind]; [|done].
    destruct (Nat.eqb_spec p q) as [<-|]; cbn [negb]; [|done].
    destruct (Nat.ltb_spec (length tail) (p + length RSK_TAG + BLOCK_HEADER_HASH_SIZE)) as [|Hmin];
      [done|].
    destruct (Nat.ltb_spec MAX_BYTES_AFTER_MERGED_MINING_HASH
      (length tail - p - length RSK_TAG - BLOCK_HEADER_HASH_SIZE)) as [|Hmax]; [done|]. intros _.
    apply find_last_spec in Hp as [Hp _]; [|done]. apply find_last_spec in Hq as [_ Hq]; [|done].
    exists p. split_and!; try done. lia.
  - intros (p & Hocc & Hlt & Hlast & Hmin & Hmax).
    assert (find_last_subsequence tail (RSK_TAG ++ committed) = Some p) as ->.
    { apply find_last_spec; [done|]. split; [done|]. intros k Hk. apply Hlast.
      by eapply occurs_at_prefix. }
    assert (find_last_subsequence tail RSK_TAG = Some p) as ->.
    { apply find_last_spec; [done|]. split; [by eapply occurs_at_prefix|done]. }
    cbn [ok_or result_bind].
    destruct (Nat.leb_spec MAX_RSK_TAG_POSITION_IN_TAIL p); [lia|]. rewrite Nat.eqb_refl. cbn [negb].
    destruct (Nat.ltb_spec (length tail) (p + length RSK_TAG + BLOCK_HEADER_HASH_SIZE)); [lia|].
    destruct (Nat.ltb_spec MAX_BYTES_AFTER_MERGED_MINING_HASH
      (length tail - p - length RSK_TAG - BLOCK_HEADER_HASH_SIZE)); [lia|done].
Qed.

(** The Merkle proof of [h] leads from the coinbase to [root], in either byte order. *)
Definition proves_inclusion (config : ChainConfig) (h : Header) (compressed root : bytes) : Prop :=
  ∃ proof, bitcoin_merged_mining_merkle_proof h = Some proof
    ∧ (iris300 (activation_heights config) ≤ number h →
       (length proof ≤ MAX_MERGED_MINING_MERKLE_PROOF_LENGTH)%nat)
    ∧ (length proof mod 32 = 0)%nat
    ∧ let computed := rskip92_merkle_root (compute_coinbase_hash compressed) proof in
      computed = root ∨ reverse computed = root.

Lemma check_merkle_Ok config h compressed root :
  check_merkle config h compressed root = Ok tt ↔ proves_inclusion config h compressed root.
Proof.
  unfold check_merkle, proves_inclusion. cbn zeta.
  destruct (bitcoin_merged_mining_merkle_proof h) as [proof|]; cbn [ok_or result_bind];
    [|split; [done|by intros (? & ? & _)]].
  destruct (Z.leb_spec (iris300 (activation_heights config)) (number h)) as [Hi|Hi],
    (Nat.ltb_spec MAX_MERGED_MINING_MERKLE_PROOF_LENGTH (length proof)) as [Hl|Hl];
    cbn [andb];
    [split; [done|intros (? & [= <-] & Hx & _); specialize (Hx Hi); lia]|..];
    (destruct (Nat.eqb_spec (length proof mod 32) 0) as [Hm|Hm]; cbn [negb];
     [|split; [done|by intros (? & [= <-] & _ & ? & _)]]);
    repeat case_decide; (split; [try done; intros _; exists proof; split_and!; auto; lia|]);
    intros (? & [= <-] & _ & _ & [|]); done.
Qed.

(** ** Properties *)

(** C26: what a miner compresses, a verifier accepts.  If the coinbase has the
    commitment at its last tag, then the compressed form is long enough to be
    read, its tail passes every tag check, and hashing it from the midstate gives
    the double SHA-256 of the whole coinbase. *)
Theorem compressed_coinbase_verifies cb out tp committed
    (Hcompress : compress_coinbase cb true = Ok out)
    (Hlast : find_last_subsequence cb RSK_TAG = Some tp)
    (Hcommit : occurs_at cb (RSK_TAG ++ committed) tp)
    (Hlen : fits 64 (Z.of_nat (length cb))) :
  (MIDSTATE_SIZE_TRIMMED < length out)%nat
  ∧ check_tag (drop MIDSTATE_SIZE_TRIMMED out) (RSK_TAG ++ committed) = Ok tt
  ∧ compute_coinbase_hash out = reverse (sha2_digest (sha256 cb)).
Proof.
  apply compress_coinbase_Ok in Hcompress as (tp' & Htp & Hmin & Hmax & Hout).
  rewrite Hlast in Htp. injection Htp as <-. cbn zeta in Hout.
  set (b := (tp / 64 * 64)%nat) in *.
  assert (b ≤ tp ∧ tp < b + 64)%nat as [Hb Hb'].
  { unfold b. pose proof (Nat.div_mod_eq tp 64). pose proof (Nat.mod_upper_bound tp 64). lia. }
  change (length RSK_TAG) with 9%nat in *.
  unfold BLOCK_HEADER_HASH_SIZE, MAX_BYTES_AFTER_MERGED_MINING_HASH in *.
  assert (drop MIDSTATE_SIZE_TRIMMED out = drop b cb) as Htail
    by (rewrite Hout; apply drop_app_length'; by rewrite length_midstate).
  split_and!.
  - rewrite Hout, length_app, length_midstate, length_drop. lia.
  - rewrite Htail. unfold check_tag.
    rewrite (find_last_in_tail cb tp b committed) by done. cbn [ok_or result_bind].
    destruct (Nat.leb_spec MAX_RSK_TAG_POSITION_IN_TAIL (tp - b)) as [Hx|_];
      [unfold MAX_RSK_TAG_POSITION_IN_TAIL in Hx; lia|].
    pose proof (find_last_in_tail cb tp b []) as Ht. rewrite app_nil_r in Ht.
    rewrite Ht; [|done|done|by eapply occurs_at_prefix]. cbn [ok_or result_bind].
    rewrite Nat.eqb_refl, length_drop. cbn [negb]. change (length RSK_TAG) with 9%nat.
    unfold BLOCK_HEADER_HASH_SIZE, MAX_BYTES_AFTER_MERGED_MINING_HASH.
    destruct (Nat.ltb_spec (length cb - b) (tp - b + 9 + 32)); [lia|].
    destruct (Nat.ltb_spec 128 (length cb - b - (tp - b) - 9 - 32)); [lia|done].
  - rewrite Hout. apply compute_coinbase_hash_compressed; [lia|by eexists|done].
Qed.

(** Compression absorbs whole blocks up to the tag, so the tag is always in the
    first block of the tail: the error for a tag that lies too deep is never
    returned. *)
Theorem tag_never_too_deep cb last_occurrence offset max :
  compress_coinbase cb last_occurrence ≠ Err (TagTooDeepInTail offset max).
Proof.
  unfold compress_coinbase.
  destruct (if last_occurrence then _ else _) as [tp|]; cbn [ok_or result_bind]; [|done].
  destruct (_ <? _)%nat; [done|]. destruct (_ <? _)%nat; [done|].
  destruct (Nat.leb_spec MAX_RSK_TAG_POSITION_IN_TAIL (tp - tp / 64 * 64)) as [Hx|]; [|done].
  unfold MAX_RSK_TAG_POSITION_IN_TAIL in Hx.
  pose proof (Nat.div_mod_eq tp 64). pose proof (Nat.mod_upper_bound tp 64). lia.
Qed.

(** The proof-of-work test, free of its rounding: a nonzero difficulty and a
    hash, read as a little-endian number, whose product is below 2^256. *)
Theorem pow_accepts_iff d hash (Hd : fits 256 d) :
  check_pow d hash = Ok tt ↔ 0 < d ∧ of_le hash * d < 2 ^ 256.
Proof. by apply check_pow_Ok. Qed.

Lemma expected_tag_app `{HeaderHash} config h :
  ∃ committed, expected_tag config h = RSK_TAG ++ committed.
Proof. unfold expected_tag. case_match; by eexists. Qed.

(** C16: exactly which headers carry valid merged-mining work from orchid on: a
    decodable Bitcoin header whose hash meets the difficulty, a coinbase whose
    last tag, in the first 64 bytes of the tail and with at most 128 bytes after
    the hash, commits to the header's own merged-mining hash, and a Merkle proof
    of at most 960 bytes (from iris300) from that coinbase to the Bitcoin header's
    root. *)
Theorem merged_mining_accepts_iff `{HeaderHash} `{BtcDecode} config h
    (Hdiff : fits 256 (difficulty h)) (Hnum : orchid (activation_heights config) ≤ number h) :
  validate_merged_mining config h = Ok tt ↔
  ∃ raw btc compressed p,
    bitcoin_merged_mining_header h = Some raw ∧ btc_decode raw = Some btc
    ∧ 0 < difficulty h ∧ of_le (btc_block_hash btc) * difficulty h < 2 ^ 256
    ∧ bitcoin_merged_mining_coinbase_transaction h = Some compressed
    ∧ commits_at (drop MIDSTATE_SIZE_TRIMMED compressed) (expected_tag config h) p
    ∧ proves_inclusion config h compressed (btc_merkle_root btc).
Proof.
  unfold validate_merged_mining, decode_btc_header.
  destruct (Z.ltb_spec (number h) (orchid (activation_heights config))); [lia|].
  destruct (bitcoin_merged_mining_header h) as [raw|]; cbn [ok_or result_bind];
    [|split; [done|by intros (? & ? & ? & ? & ? & _)]].
  destruct (btc_decode raw) as [btc|] eqn:Hbtc; cbn [ok_or result_bind];
    [|split; [done|intros (? & ? & ? & ? & [= <-] & ? & _); congruence]].
  rewrite let_ok_tt, check_pow_Ok by done.
  destruct (bitcoin_merged_mining_coinbase_transaction h) as [c|]; cbn [ok_or result_bind];
    [|split; [by intros [_ ?]|by intros (? & ? & ? & ? & _ & _ & _ & _ & ? & _)]].
  destruct (expected_tag_app config h) as [committed Htag]. rewrite Htag.
  destruct (Nat.ltb_spec (length c) (MIDSTATE_SIZE_TRIMMED + 1)) as [Hs|Hs].
  - split; [by intros [_ ?]|]. intros (? & ? & ? & p & _ & _ & _ & _ & [= <-] & (_ & _ & _ & Hmin & _) & _).
    rewrite length_drop in Hmin. unfold MIDSTATE_SIZE_TRIMMED, BLOCK_HEADER_HASH_SIZE in *. lia.
  - rewrite let_ok_tt, check_tag_Ok, check_merkle_Ok. split.
    + intros ([? ?] & [p Hp] & Hm). by exists raw, btc, c, p.
    + intros (? & ? & ? & p & [= <-] & Hb & ? & ? & [= <-] & Hp & Hm).
      rewrite Hbtc in Hb. injection Hb as <-. eauto.
Qed.

(** The fork-detection bytes a miner writes after the twenty bytes of the hash are
    the bytes a verifier extracts from the compressed coinbase. *)
Lemma extract_compressed `{HeaderHash} cb out tp h data
    (Hcompress : compress_coinbase cb true = Ok out)
    (Hlast : find_last_subsequence cb RSK_TAG = Some tp)
    (Hdata : length data = FORK_DETECTION_DATA_LENGTH)
    (Hcommit : occurs_at cb ((RSK_TAG ++ take HASH_FOR_MERGED_MINING_PREFIX_LENGTH
                                          (merged_mining_hash h)) ++ data) tp)
    (Htx : bitcoin_merged_mining_coinbase_transaction h = Some out) :
  extract_fork_detection_data h = Some data.
Proof.
  apply compress_coinbase_Ok in Hcompress as (tp' & Htp & Hmin & Hmax & Hout).
  rewrite Hlast in Htp. injection Htp as <-. cbn zeta in Hout.
  set (b := (tp / 64 * 64)%nat) in *. set (prefix := RSK_TAG ++ take _ _) in *.
  assert (b ≤ tp)%nat as Hb by (unfold b; pose proof (Nat.div_mod_eq tp 64); lia).
  assert (drop MIDSTATE_SIZE_TRIMMED out = drop b cb) as Htail
    by (rewrite Hout; apply drop_app_length'; by rewrite length_midstate).
  unfold extract_fork_detection_data. rewrite Htx. cbn [mbind option_bind]. rewrite Htail.
  destruct (Nat.ltb_spec (length out) (MIDSTATE_SIZE_TRIMMED + 1)) as [Hx|_].
  { rewrite Hout, length_app, length_midstate, length_drop in Hx.
    unfold BLOCK_HEADER_HASH_SIZE in *. lia. }
  assert (find_last_subsequence (drop b cb) prefix = Some (tp - b)%nat) as Hf
    by (apply find_last_in_tail; [done|done|by eapply occurs_at_prefix]).
  cbn zeta. fold prefix. rewrite Hf. cbn [mbind option_bind]. destruct Hcommit as [Hlen Hs].
  rewrite length_app, Hdata in Hlen, Hs. rewrite length_drop.
  destruct (Nat.ltb_spec (length cb - b) (tp - b + length prefix + FORK_DETECTION_DATA_LENGTH)); [lia|].
  f_equal. unfold slice in *. rewrite drop_drop.
  apply (f_equal (drop (length prefix))) in Hs. rewrite drop_app_length in Hs. rewrite <- Hs.
  rewrite skipn_firstn_comm, drop_drop. f_equal; [lia|]. f_equal. lia.
Qed.

End merged_mining.

(** ** Witnesses *)

(** The sha2 crate computes SHA-256. *)
#[local] Instance sha2_sha256 : Sha2 := {
  sha2_digest := sha256;
  length_sha2_digest x := length_state_bytes _;
}.

#[local] Instance demo_hashes : HeaderHash := {
  header_hash h := be_bytes 32 (number h);
  merged_mining_hash h := be_bytes 32 (number h + 7);
  length_merged_mining_hash h := length_be_bytes 32 (number h + 7);
}.

Definition demo_data : bytes := replicate 12 9.
Definition demo_hash : bytes := be_bytes 32 2000007.
Definition demo_coinbase : bytes :=
  replicate 70 1 ++ RSK_TAG ++ take 20 demo_hash ++ demo_data ++ [0; 0].
Definition demo_compressed : bytes :=
  match compress_coinbase demo_coinbase true with Ok out => out | Err _ => [] end.

Definition demo_header : Header :=
  mkHeader [] [] [] [] [] [] [] None 1000 2000000 0 0 0 [] 0 0 0 None None
    (Some [1]) (Some (replicate 64 3)) (Some demo_compressed) None None.

#[local] Instance demo_btc : BtcDecode := {
  btc_decode raw :=
    if decide (raw = [1])
    then Some (mkBtcHeader 0 (rskip92_merkle_root (compute_coinbase_hash demo_compressed)
                                (replicate 64 3)) [5; 6])
    else None
}.

Lemma demo_occurs needle : window_is demo_coinbase needle 70 = true →
  (70 + length needle ≤ length demo_coinbase)%nat → occurs_at demo_coinbase needle 70.
Proof. intros Hw Hl. split; [exact Hl|]. by apply bool_decide_eq_true in Hw. Qed.

Lemma compressed_coinbase_verifies_witness :
  compute_coinbase_hash demo_compressed = reverse (sha2_digest (sha256 demo_coinbase)).
Proof.
  refine (proj2 (proj2 (compressed_coinbase_verifies demo_coinbase demo_compressed 70
    (take 20 demo_hash) _ _ _ _))).
  - vm_compute. reflexivity.
  - vm_compute. reflexivity.
  - apply demo_occurs; [vm_compute; reflexivity|vm_compute; lia].
  - split; vm_compute; [discriminate|reflexivity].
Defined.

Lemma pow_accepts_iff_witness : check_pow (2 ^ 200) (replicate 7 255) = Ok tt.
Proof.
  apply (pow_accepts_iff (2 ^ 200) (replicate 7 255)).
  - split; vm_compute; [discriminate|reflexivity].
  - split; vm_compute; reflexivity.
Defined.

Lemma merged_mining_accepts_iff_witness :
  ∃ raw btc compressed p,
    bitcoin_merged_mining_header demo_header = Some raw ∧ btc_decode raw = Some btc
    ∧ 0 < difficulty demo_header ∧ of_le (btc_block_hash btc) * difficulty demo_header < 2 ^ 256
    ∧ bitcoin_merged_mining_coinbase_transaction demo_header = Some compressed
    ∧ commits_at (drop MIDSTATE_SIZE_TRIMMED compressed) (expected_tag mainnet demo_header) p
    ∧ proves_inclusion mainnet demo_header compressed (btc_merkle_root btc).
Proof.
  apply (merged_mining_accepts_iff mainnet demo_header).
  - split; vm_compute; [discriminate|reflexivity].
  - vm_compute. discriminate.
  - vm_compute. reflexivity.
Defined.

End MergedMining.
