(* ===== verification/Rules.v ===== *)
(** * Header and block rules: crates/core/src/validation

    difficulty.rs, header_rules.rs, block_rules.rs and the verifiers of mod.rs.
    A rule object is a record of its parameters; [HeaderRule], [ParentRule] and
    [BlockRule] are the trait objects the verifiers hold, with the [validate]
    method of the trait as a function that dispatches on them.  The system clock
    is an argument. *)
From S2P Require Import Prelude Chain Sha256 MergedMining.
From stdpp Require Import options.

Module Rules.
Import Chain MergedMining.
Local Open Scope Z_scope.

(** ** difficulty.rs *)

Definition RSKIP156_DIFFICULTY_DIVISOR : Z := 400.
Definition TEN_MINUTES : Z := 600.

Section difficulty.
Context (config : ChainConfig).

Definition rskip97_active (number : Z) : bool :=
  match rskip97 (activation_heights config) with
  | Some height => height <=? number
  | None => false
  end.

Definition calculate_expected_difficulty (h parent : Header) : Z :=
  if negb (rskip97_active (number h))
     && (TEN_MINUTES <=? sat_sub (timestamp h) (timestamp parent))
  then min_difficulty config
  else
    let delta := sat_sub (timestamp h) (timestamp parent) in
    if timestamp h <? timestamp parent then difficulty parent
    else
      let calc_dur := u64 (u64 (1 + uncle_count h) * duration_limit config) in
      let sign := if delta <? calc_dur then 1 else if calc_dur <? delta then -1 else 0 in
      if sign =? 0 then difficulty parent
      else
        let divisor := if papyrus200 (activation_heights config) <=? number h
                       then RSKIP156_DIFFICULTY_DIVISOR else difficulty_divisor config in
        let quotient := difficulty parent / divisor in
        let from_parent :=
          if sign =? 1 then u256 (difficulty parent + quotient)
          else if quotient <? difficulty parent then difficulty parent - quotient
          else 0 in
        if from_parent <? min_difficulty config then min_difficulty config else from_parent.

(** The parent with the three fields a miner chooses. *)
Definition probe (parent : Header) (number' timestamp' uncle_count' : Z) : Header :=
  mkHeader (parent_hash parent) (ommers_hash parent) (beneficiary parent) (state_root parent)
    (transactions_root parent) (receipts_root parent) (logs_bloom parent) (extension_data parent)
    (difficulty parent) number' (gas_limit parent) (gas_used parent) timestamp'
    (extra_data parent) (paid_fees parent) (minimum_gas_price parent) uncle_count'
    (umm_root parent) (version_fields parent) (bitcoin_merged_mining_header parent)
    (bitcoin_merged_mining_merkle_proof parent)
    (bitcoin_merged_mining_coinbase_transaction parent) (cached_hash parent)
    (cached_hash_for_merged_mining parent).

Definition difficulty_for_child (parent : Header) (number' timestamp' uncle_count' : Z) : Z :=
  calculate_expected_difficulty (probe parent number' timestamp' uncle_count') parent.

Definition validate_difficulty (h parent : Header) : verdict :=
  let expected := calculate_expected_difficulty h parent in
  if negb (difficulty h =? expected) then Err (DifficultyMismatch expected (difficulty h))
  else Ok tt.

End difficulty.

(** ** header_rules.rs *)

Definition gas_limit_as_u64 (gas_limit : Z) : result Z ValidationError :=
  if gas_limit <? 2 ^ 64 then Ok gas_limit else Err GasLimitOverflow.

Definition validate_block_number (h parent : Header) : verdict :=
  if negb (number h =? u64 (number parent + 1))
  then Err (InvalidBlockNumber (u64 (number parent + 1)) (number h)) else Ok tt.

Definition validate_parent_hash `{HeaderHash} (h parent : Header) : verdict :=
  let hash := header_hash parent in
  if decide (parent_hash h = hash) then Ok tt else Err (ParentHashMismatch hash (parent_hash h)).

(** [TimestampRule], with its bound. *)
Definition validate_at (max_future_offset now : Z) (h : Header) : verdict :=
  if max_future_offset =? 0 then Ok tt
  else if u64 (now + max_future_offset) <? timestamp h then Err (TimestampInFuture now (timestamp h))
  else Ok tt.

Definition validate_with_parent_at (max_future_offset now : Z) (h parent : Header) : verdict :=
  if max_future_offset =? 0 then Ok tt
  else
    let? _ := validate_at max_future_offset now h in
    if timestamp h <=? timestamp parent
    then Err (TimestampOlderThanParent (timestamp parent) (timestamp h)) else Ok tt.

Definition validate_gas_used (h : Header) : verdict :=
  let? limit := gas_limit_as_u64 (gas_limit h) in
  if limit <? gas_used h then Err (GasUsedExceedsLimit (gas_used h) limit) else Ok tt.

Definition validate_gas_limit_bounds (min max : Z) (h : Header) : verdict :=
  let? limit := gas_limit_as_u64 (gas_limit h) in
  if (limit <? min) || (max <? limit) then Err (GasLimitOutOfBounds min max limit) else Ok tt.

Definition validate_parent_gas_limit (config : ChainConfig) (h parent : Header) : verdict :=
  let? limit := gas_limit_as_u64 (gas_limit h) in
  let? parent_limit := gas_limit_as_u64 (gas_limit parent) in
  let divisor := gas_limit_bound_divisor config in
  let delta := parent_limit / divisor in
  if (limit <? u64 (parent_limit - delta)) || (u64 (parent_limit + delta) <? limit)
  then Err (GasLimitInvalid parent_limit limit) else Ok tt.

(** ** block_rules.rs *)

Definition REMASC_ADDR : bytes := replicate 16 0 ++ [0x01; 0x00; 0x00; 0x08].

Definition is_remasc_tx (tx : Transaction) : bool :=
  (tx_v tx =? 0) && (tx_r tx =? 0) && (tx_s tx =? 0) && (tx_gas_limit tx =? 0)
  && (length (tx_to tx) =? 20)%nat && bool_decide (tx_to tx = REMASC_ADDR).

Definition validate_txs_min_gas_price (b : Block) : verdict :=
  let min := minimum_gas_price (header b) in
  for_each (λ tx, if is_remasc_tx tx then Ok tt
                  else if tx_gas_price tx <? min then Err (TxGasPriceBelowMinimum (tx_gas_price tx) min)
                  else Ok tt) (transactions b).

Definition FOR_BLOCK_MULTIPLIER : Z := 100.

Definition validate_txs_max_gas_price (rskip252_height : Z) (b : Block) : verdict :=
  if number (header b) <? rskip252_height then Ok tt
  else
    let min := minimum_gas_price (header b) in
    if min =? 0 then Ok tt
    else
      let cap := sat_mul 256 min FOR_BLOCK_MULTIPLIER in
      for_each (λ tx, if is_remasc_tx tx then Ok tt
                      else if cap <? tx_gas_price tx then Err (TxGasPriceAboveCap (tx_gas_price tx) cap)
                      else Ok tt) (transactions b).

Definition validate_remasc (b : Block) : verdict :=
  match last (transactions b) with
  | Some tx => if is_remasc_tx tx then Ok tt else Err RemascTxMissing
  | None => Err RemascTxMissing
  end.

Definition validate_extra_data (max_size : nat) (h : Header) : verdict :=
  if (max_size <? length (extra_data h))%nat
  then Err (ExtraDataTooLarge max_size (length (extra_data h))) else Ok tt.

(** [PrevMinGasPriceRule::range] *)
Definition min_gas_price_range (parent_min_gas_price : Z) : Z * Z :=
  let center := parent_min_gas_price in
  let delta := center / 100 in
  let delta := if delta =? 0 then 1 else delta in
  (sat_sub center delta, sat_add 256 center delta).

Definition validate_prev_min_gas_price (h parent : Header) : verdict :=
  if number h =? 0 then Ok tt
  else
    let '(lower, upper) := min_gas_price_range (minimum_gas_price parent) in
    let got := minimum_gas_price h in
    if (got <? lower) || (upper <? got) then Err (MinGasPriceOutOfRange lower upper got) else Ok tt.

(** ** mod.rs: the verifiers *)

Section verifiers.
Context `{Sha2} `{HeaderHash} `{BtcDecode}.

Inductive HeaderRule :=
  | GasUsedRule
  | GasLimitBoundsRule (min max : Z)
  | MergedMiningRule (config : ChainConfig)
  | BitcoinTimestampRule (config : ChainConfig)
  | ExtraDataRule (max_size : nat).

Inductive ParentRule :=
  | BlockNumberRule
  | ParentHashRule
  | TimestampRule (max_future_offset : Z)
  | BlockParentGasLimitRule (config : ChainConfig)
  | PrevMinGasPriceRule
  | DifficultyRule (config : ChainConfig).

Inductive BlockRule :=
  | TxsMinGasPriceRule
  | BlockTxsMaxGasPriceRule (rskip252_height : Z)
  | RemascValidationRule.

Definition validate (rule : HeaderRule) (h : Header) : verdict :=
  match rule with
  | GasUsedRule => validate_gas_used h
  | GasLimitBoundsRule min max => validate_gas_limit_bounds min max h
  | MergedMiningRule config => validate_merged_mining config h
  | BitcoinTimestampRule config => validate_bitcoin_timestamp config h
  | ExtraDataRule max_size => validate_extra_data max_size h
  end.

(** [now] is the clock; a clock before the epoch is an error of its own. *)
Definition validate_with_parent (now : result Z ValidationError) (rule : ParentRule)
    (h parent : Header) : verdict :=
  match rule with
  | BlockNumberRule => validate_block_number h parent
  | ParentHashRule => validate_parent_hash h parent
  | TimestampRule off => let? now := now in validate_with_parent_at off now h parent
  | BlockParentGasLimitRule config => validate_parent_gas_limit config h parent
  | PrevMinGasPriceRule => validate_prev_min_gas_price h parent
  | DifficultyRule config => validate_difficulty config h parent
  end.

Definition validate_block (rule : BlockRule) (b : Block) : verdict :=
  match rule with
  | TxsMinGasPriceRule => validate_txs_min_gas_price b
  | BlockTxsMaxGasPriceRule height => validate_txs_max_gas_price height b
  | RemascValidationRule => validate_remasc b
  end.

Record HeaderVerifier := mkVerifier {
  static_rules : list HeaderRule;
  parent_rules : list ParentRule;
}.

Definition new_verifier : HeaderVerifier := mkVerifier [] [].

Definition with_static_rule (v : HeaderVerifier) (rule : HeaderRule) : HeaderVerifier :=
  mkVerifier (static_rules v ++ [rule]) (parent_rules v).

Definition with_parent_rule (v : HeaderVerifier) (rule : ParentRule) : HeaderVerifier :=
  mkVerifier (static_rules v) (parent_rules v ++ [rule]).

Definition default_rsk (config : ChainConfig) : HeaderVerifier :=
  let v := new_verifier in
  let v := with_static_rule v GasUsedRule in
  let v := with_static_rule v (GasLimitBoundsRule (min_gas_limit config) (max_gas_limit config)) in
  let v := with_static_rule v (MergedMiningRule config) in
  let v := with_static_rule v (BitcoinTimestampRule config) in
  let v := with_static_rule v (ExtraDataRule 32) in
  let v := with_parent_rule v BlockNumberRule in
  let v := with_parent_rule v (TimestampRule (max_future_block_time config)) in
  let v := with_parent_rule v (BlockParentGasLimitRule config) in
  let v := with_parent_rule v PrevMinGasPriceRule in
  with_parent_rule v (DifficultyRule config).

Definition verify_against_parent (now : result Z ValidationError) (v : HeaderVerifier)
    (h parent : Header) : verdict :=
  for_each (λ rule, validate_with_parent now rule h parent) (parent_rules v).

Definition verify (now : result Z ValidationError) (v : HeaderVerifier) (h : Header)
    (parent : option Header) : verdict :=
  let? _ := for_each (λ rule, validate rule h) (static_rules v) in
  match parent with
  | Some p => for_each (λ rule, validate_with_parent now rule h p) (parent_rules v)
  | None => Ok tt
  end.

(** [BlockVerifier]: its rules, in order. *)
Definition default_rsk_blocks (config : ChainConfig) : list BlockRule :=
  [TxsMinGasPriceRule; BlockTxsMaxGasPriceRule (fingerroot500 (activation_heights config));
   RemascValidationRule].

Definition verify_block (rules : list BlockRule) (b : Block) : verdict :=
  for_each (λ rule, validate_block rule b) rules.

End verifiers.

(** ** Difficulty *)

(** Parameters of a network: what the three configurations have in common. *)
Definition config_ok (config : ChainConfig) : Prop :=
  0 < difficulty_divisor config ∧ fits 256 (min_difficulty config) ∧
  0 < duration_limit config ∧ 0 < gas_limit_bound_divisor config ∧
  0 ≤ min_gas_limit config ∧ max_gas_limit config < 2 ^ 63 ∧
  fits 64 (max_future_block_time config).

Lemma networks_ok : config_ok mainnet ∧ config_ok testnet ∧ config_ok regtest.
Proof.
  unfold config_ok, fits, mainnet, testnet, regtest.
  cbn [difficulty_divisor min_difficulty duration_limit gas_limit_bound_divisor min_gas_limit
    max_gas_limit max_future_block_time]. lia.
Qed.

Definition divisor_at (config : ChainConfig) (n : Z) : Z :=
  if papyrus200 (activation_heights config) <=? n then RSKIP156_DIFFICULTY_DIVISOR
  else difficulty_divisor config.

Lemma divisor_at_pos config n : config_ok config → 0 < divisor_at config n.
Proof. intros (Hd & _). unfold divisor_at, RSKIP156_DIFFICULTY_DIVISOR. case_match; lia. Qed.

(** The four outcomes. *)
Lemma expected_cases config h parent :
  let d := difficulty parent in
  let q := d / divisor_at config (number h) in
  let e := calculate_expected_difficulty config h parent in
  e = min_difficulty config ∨ e = d
  ∨ e = Z.max (min_difficulty config) (u256 (d + q))
  ∨ e = Z.max (min_difficulty config) (if q <? d then d - q else 0).
Proof.
  intros d q e. subst e. unfold calculate_expected_difficulty. fold (divisor_at config (number h)).
  fold d q. destruct (negb _ && _); [tauto|]. destruct (timestamp h <? timestamp parent); [tauto|].
  set (dur := u64 _). set (dt := sat_sub _ _).
  destruct (Z.ltb_spec dt dur); [change (1 =? 0) with false; change (1 =? 1) with true; cbv iota|].
  - right. right. left. destruct (Z.ltb_spec (u256 (d + q)) (min_difficulty config)); lia.
  - destruct (dur <? dt); [change (-1 =? 0) with false; change (-1 =? 1) with false; cbv iota|tauto].
    right. right. right. destruct (q <? d);
      match goal with |- context[?x <? min_difficulty config] =>
        destruct (Z.ltb_spec x (min_difficulty config)); lia end.
Qed.

Lemma difficulty_floor config h parent :
  min_difficulty config ≤ difficulty parent →
  min_difficulty config ≤ calculate_expected_difficulty config h parent.
Proof. intros Hp. destruct (expected_cases config h parent) as [->|[->|[->| ->]]]; lia. Qed.

(** The expected difficulty by the seconds since the parent: [m] is the minimum,
    [d] the parent's difficulty, [q] the step, [dur] the target delay and [reset]
    whether the ten-minute rule applies. *)
Definition by_delay (m d q dur : Z) (reset : bool) (delay : Z) : Z :=
  if reset && (TEN_MINUTES <=? delay) then m
  else if delay <? dur then Z.max m (u256 (d + q))
  else if dur <? delay then Z.max m (if q <? d then d - q else 0)
  else d.

Lemma expected_by_delay config h parent : timestamp parent ≤ timestamp h →
  calculate_expected_difficulty config h parent
  = by_delay (min_difficulty config) (difficulty parent)
      (difficulty parent / divisor_at config (number h))
      (u64 (u64 (1 + uncle_count h) * duration_limit config))
      (negb (rskip97_active config (number h))) (timestamp h - timestamp parent).
Proof.
  intros Ht. unfold calculate_expected_difficulty, by_delay. fold (divisor_at config (number h)).
  rewrite sat_sub_exact by lia. destruct (negb _ && _); [done|].
  destruct (Z.ltb_spec (timestamp h) (timestamp parent)); [lia|].
  set (q := difficulty parent / _). set (dur := u64 _). set (dt := timestamp h - _).
  assert (∀ x, (if x <? min_difficulty config then min_difficulty config else x)
               = Z.max (min_difficulty config) x) as Hmax
    by (intros x; destruct (Z.ltb_spec x (min_difficulty config)); lia).
  destruct (dt <? dur); [apply Hmax|]. destruct (dur <? dt); [apply Hmax|done].
Qed.

Lemma by_delay_antitone m d q dur reset t1 t2 :
  0 ≤ m ≤ d → 0 ≤ q ∧ d + q < 2 ^ 256 → t1 ≤ t2 →
  by_delay m d q dur reset t2 ≤ by_delay m d q dur reset t1.
Proof.
  intros Hm [Hq Hfit] Ht. unfold by_delay, u256. rewrite wrap_small by (unfold fits; lia).
  set (hi := Z.max m (d + q)). set (lo := Z.max m (if q <? d then d - q else 0)).
  assert (d ≤ hi ∧ m ≤ lo ≤ d) as [Hhi Hlo].
  { unfold hi, lo. destruct (q <? d); lia. }
  clearbody hi lo. unfold TEN_MINUTES.
  destruct reset, (Z.leb_spec 600 t2), (Z.leb_spec 600 t1); cbn [andb]; try lia;
    destruct (Z.ltb_spec t2 dur), (Z.ltb_spec t1 dur); try lia;
    destruct (Z.ltb_spec dur t2), (Z.ltb_spec dur t1); lia.
Qed.

(** ** Properties of the difficulty *)


(** A later timestamp never asks for more work: for the same parent, height and
    uncles, the expected difficulty does not increase with the block's time, the
    ten-minute reset of the chains without RSKIP97 included. *)
Theorem difficulty_antitone config h1 h2 parent
    (Hc : config_ok config) (Hmin : min_difficulty config ≤ difficulty parent)
    (Hfit : difficulty parent + difficulty parent / divisor_at config (number h1) < 2 ^ 256)
    (Hn : number h1 = number h2) (Hu : uncle_count h1 = uncle_count h2)
    (Hp : timestamp parent ≤ timestamp h1) (Ht : timestamp h1 ≤ timestamp h2) :
  calculate_expected_difficulty config h2 parent ≤ calculate_expected_difficulty config h1 parent.
Proof.
  pose proof Hc as (_ & [Hm0 _] & _). pose proof (divisor_at_pos config (number h1) Hc) as Hdiv.
  rewrite !expected_by_delay, <- Hn, <- Hu by lia.
  apply by_delay_antitone; [lia| |lia]. split; [apply Z.div_pos; lia|]. lia.
Qed.

(** The miner and the validator ask the same question: a header passes the
    difficulty rule exactly when it carries [difficulty_for_child] of its own
    height, time and uncle count. *)
Theorem miner_and_validator_agree config h parent :
  validate_difficulty config h parent = Ok tt ↔
  difficulty h = difficulty_for_child config parent (number h) (timestamp h) (uncle_count h).
Proof.
  unfold validate_difficulty, difficulty_for_child.
  assert (calculate_expected_difficulty config (probe parent (number h) (timestamp h) (uncle_count h))
            parent = calculate_expected_difficulty config h parent) as -> by done.
  destruct (Z.eqb_spec (difficulty h) (calculate_expected_difficulty config h parent)); done.
Qed.

(** ** What the header verifier accepts *)

Lemma gas_limit_as_u64_Ok g k : (let? x := gas_limit_as_u64 g in k x) = Ok tt ↔ g < 2 ^ 64 ∧ k g = Ok tt.
Proof. unfold gas_limit_as_u64. destruct (Z.ltb_spec g (2 ^ 64)); simpl; naive_solver lia. Qed.

Lemma if_err_Ok (b : bool) (e : ValidationError) :
  (if b then Err e else Ok tt : verdict) = Ok tt ↔ b = false.
Proof. by destruct b. Qed.

Lemma for_each_cons_Ok {A} (f : A → verdict) x xs :
  for_each f (x :: xs) = Ok tt ↔ f x = Ok tt ∧ for_each f xs = Ok tt.
Proof. simpl. apply let_ok_tt. Qed.

Section accepts.
Context `{Sha2} `{HeaderHash} `{BtcDecode} (config : ChainConfig).

(** The header on its own. *)
Definition static_ok (h : Header) : Prop :=
  gas_used h ≤ gas_limit h ∧ gas_limit h < 2 ^ 64
  ∧ min_gas_limit config ≤ gas_limit h ≤ max_gas_limit config
  ∧ validate_merged_mining config h = Ok tt ∧ validate_bitcoin_timestamp config h = Ok tt
  ∧ (length (extra_data h) ≤ 32)%nat.

(** The header after its parent, at time [now]. *)
Definition follows (now : Z) (h parent : Header) : Prop :=
  number h = number parent + 1
  ∧ (max_future_block_time config ≠ 0 →
     timestamp parent < timestamp h ≤ now + max_future_block_time config)
  ∧ Z.abs (gas_limit h - gas_limit parent) ≤ gas_limit parent / gas_limit_bound_divisor config
  ∧ (let '(lower, upper) := min_gas_price_range (minimum_gas_price parent) in
     lower ≤ minimum_gas_price h ≤ upper)
  ∧ difficulty h = calculate_expected_difficulty config h parent.

Lemma static_rules_Ok h :
  for_each (λ rule, validate rule h) (static_rules (default_rsk config)) = Ok tt ↔ static_ok h.
Proof.
  cbn [default_rsk with_static_rule with_parent_rule static_rules new_verifier app].
  rewrite !for_each_cons_Ok. cbn [for_each validate].
  unfold validate_gas_used, validate_gas_limit_bounds, validate_extra_data, static_ok.
  rewrite !gas_limit_as_u64_Ok, !if_err_Ok, orb_false_iff, !Z.ltb_ge, Nat.ltb_ge. naive_solver.
Qed.

Lemma parent_gas_limit_Ok h parent : config_ok config →
  0 ≤ gas_limit h < 2 ^ 64 → 0 ≤ gas_limit parent < 2 ^ 63 →
  validate_parent_gas_limit config h parent = Ok tt ↔
  Z.abs (gas_limit h - gas_limit parent) ≤ gas_limit parent / gas_limit_bound_divisor config.
Proof.
  intros Hc Hh Hp. pose proof Hc as (_ & _ & _ & Hdiv & _).
  unfold validate_parent_gas_limit. rewrite !gas_limit_as_u64_Ok.
  set (d := gas_limit parent / _).
  assert (0 ≤ d ≤ gas_limit parent) as Hd.
  { split; [apply Z.div_pos; lia|]. apply Z.div_le_upper_bound; [lia|]. nia. }
  unfold u64. rewrite !wrap_small by (unfold fits; lia).
  rewrite if_err_Ok, orb_false_iff, !Z.ltb_ge. split; [intros (_ & _ & ? & ?); lia|intros ?].
  split_and!; lia.
Qed.

Lemma timestamp_Ok now h parent : config_ok config → fits 63 now → fits 64 (timestamp h) →
  max_future_block_time config < 2 ^ 63 →
  validate_with_parent_at (max_future_block_time config) now h parent = Ok tt ↔
  (max_future_block_time config ≠ 0 →
   timestamp parent < timestamp h ≤ now + max_future_block_time config).
Proof.
  intros Hc Hnow Hts Hoff. pose proof Hc as (_ & _ & _ & _ & _ & _ & [Ho _]). unfold fits in *.
  unfold validate_with_parent_at, validate_at.
  destruct (Z.eqb_spec (max_future_block_time config) 0) as [|Hne]; [done|].
  rewrite let_ok_tt, !if_err_Ok, Z.ltb_ge, Z.leb_gt. unfold u64. rewrite wrap_small by (unfold fits; lia).
  split; [lia|]. intros Hx. specialize (Hx Hne). lia.
Qed.

Lemma parent_rules_Ok now h parent :
  config_ok config → header_ok h → header_ok parent → fits 63 now →
  max_future_block_time config < 2 ^ 63 → number parent < 2 ^ 64 - 1 →
  gas_limit h < 2 ^ 64 → gas_limit parent < 2 ^ 63 →
  for_each (λ rule, validate_with_parent (Ok now) rule h parent)
    (parent_rules (default_rsk config)) = Ok tt
  ↔ follows now h parent.
Proof.
  intros Hc Hh Hp Hnow Hoff Hnum Hg Hgp.
  destruct Hh as (_ & [Hn _] & [Hgl _] & _ & Hts & _). destruct Hp as (_ & [Hnp _] & [Hglp _] & _).
  cbn [default_rsk with_static_rule with_parent_rule parent_rules new_verifier app].
  rewrite !for_each_cons_Ok. cbn [for_each validate_with_parent result_bind].
  rewrite timestamp_Ok, parent_gas_limit_Ok by (done || lia).
  unfold validate_block_number, validate_prev_min_gas_price, validate_difficulty, follows, u64.
  rewrite (wrap_small 64 (number parent + 1)) by (unfold fits; lia).
  rewrite !if_err_Ok, !negb_false_iff, !Z.eqb_eq.
  destruct (min_gas_price_range (minimum_gas_price parent)) as [lower upper].
  destruct (Z.eqb_spec (number h) 0) as [Hz|Hz].
  - split; intros (? & _); lia.
  - rewrite if_err_Ok, orb_false_iff, !Z.ltb_ge. naive_solver.
Qed.

End accepts.


(** ** Chains *)

Section chains.
Context `{Sha2} `{HeaderHash} `{BtcDecode} (config : ChainConfig).

(** Each header verified, on arrival at its own time, against the one before. *)
Inductive chain : Header → list (Z * Header) → Prop :=
  | chain_nil g : chain g []
  | chain_cons g now h hs :
      header_ok h → fits 63 now → verify (Ok now) (default_rsk config) h (Some g) = Ok tt →
      chain h hs → chain g ((now, h) :: hs).

Lemma chain_step g now h :
  config_ok config → max_future_block_time config < 2 ^ 63 → header_ok g → header_ok h → fits 63 now →
  number g < 2 ^ 64 - 1 → gas_limit g < 2 ^ 63 →
  verify (Ok now) (default_rsk config) h (Some g) = Ok tt →
  static_ok config h ∧ follows config now h g.
Proof.
  intros Hc Hoff Hg Hh Hnow Hnum Hgl. unfold verify. rewrite let_ok_tt, static_rules_Ok.
  intros [Hs Hr]. split; [done|]. eapply parent_rules_Ok; try done. by destruct Hs as (_ & ? & _).
Qed.

Lemma chain_numbers g hs : config_ok config → max_future_block_time config < 2 ^ 63 →
  chain g hs → header_ok g → number g + Z.of_nat (length hs) < 2 ^ 64 → gas_limit g < 2 ^ 63 →
  min_difficulty config ≤ difficulty g →
  ∀ i x, hs !! i = Some x →
    number x.2 = number g + Z.of_nat i + 1
    ∧ min_gas_limit config ≤ gas_limit x.2 ≤ max_gas_limit config
    ∧ min_difficulty config ≤ difficulty x.2
    ∧ (max_future_block_time config ≠ 0 → timestamp g < timestamp x.2
         ∧ ∀ j y, (j < i)%nat → hs !! j = Some y → timestamp y.2 < timestamp x.2).
Proof.
  intros Hc Hoff Hch. pose proof Hc as (_ & _ & _ & _ & _ & Hmax & _).
  induction Hch as [g|g now h hs Hh Hnow Hv Hch IH]; intros Hg Hnum Hgl Hd i x Hx; [done|].
  cbn [length] in Hnum. destruct (chain_step g now h) as [Hs Hf]; try done; [lia|].
  destruct Hs as (_ & _ & Hgas & _). destruct Hf as (Hn & Hts & _ & _ & Hdiff).
  assert (min_difficulty config ≤ difficulty h) as Hdh by (rewrite Hdiff; by apply difficulty_floor).
  destruct i as [|i]; simpl in Hx.
  - injection Hx as <-. simpl. split_and!; [lia|lia|lia|done|]. intros Hne. split; [by apply Hts|].
    intros j y Hj. lia.
  - destruct (IH Hh ltac:(lia) ltac:(lia) Hdh i x Hx) as (Hnx & Hgx & Hdx & Htx).
    split_and!; [lia|lia|lia|done|]. intros Hne. destruct (Htx Hne) as [Ht1 Ht2].
    specialize (Hts Hne). split; [lia|]. intros [|j] y Hj Hy; simpl in Hy.
    + injection Hy as <-. done.
    + apply (Ht2 j); [lia|done].
Qed.

End chains.


(** ** Blocks *)

(** What the block verifier accepts: a last transaction that is REMASC's, and no
    other transaction paying less than the block's minimum gas price nor, from
    RSKIP252 on and unless that minimum is zero, more than a hundred times it. *)
Theorem verify_block_accepts_iff config b :
  verify_block (default_rsk_blocks config) b = Ok tt ↔
  (∃ tx, last (transactions b) = Some tx ∧ is_remasc_tx tx = true)
  ∧ ∀ tx, tx ∈ transactions b → is_remasc_tx tx = false →
      let m := minimum_gas_price (header b) in
      m ≤ tx_gas_price tx
      ∧ (fingerroot500 (activation_heights config) ≤ number (header b) → m ≠ 0 →
         tx_gas_price tx ≤ sat_mul 256 m FOR_BLOCK_MULTIPLIER).
Proof.
  unfold verify_block, default_rsk_blocks. rewrite !for_each_cons_Ok. cbn [for_each validate_block].
  unfold validate_txs_min_gas_price, validate_txs_max_gas_price, validate_remasc.
  assert ((match last (transactions b) with
           | Some tx => if is_remasc_tx tx then Ok tt else Err RemascTxMissing
           | None => Err RemascTxMissing end : verdict) = Ok tt
          ↔ ∃ tx, last (transactions b) = Some tx ∧ is_remasc_tx tx = true) as Hr.
  { destruct (last (transactions b)) as [tx|]; [|naive_solver].
    destruct (is_remasc_tx tx) eqn:Htx.
    - split; [intros _; by exists tx|done].
    - split; [done|intros (tx' & [= <-] & ?); congruence]. }
  rewrite Hr, for_each_Ok. clear Hr. cbn zeta.
  set (m := minimum_gas_price (header b)).
  assert (∀ tx (c : bool) e, (if is_remasc_tx tx then Ok tt else if c then Err e else Ok tt : verdict) = Ok tt
            ↔ (is_remasc_tx tx = false → c = false)) as Htx.
  { intros tx c e. destruct (is_remasc_tx tx), c; naive_solver. }
  setoid_rewrite Htx. setoid_rewrite Z.ltb_ge.
  destruct (Z.ltb_spec (number (header b)) (fingerroot500 (activation_heights config))) as [Hlt|Hge].
  { naive_solver lia. }
  destruct (Z.eqb_spec m 0) as [Hz|Hz]; [naive_solver lia|].
  rewrite for_each_Ok. setoid_rewrite Htx. setoid_rewrite Z.ltb_ge. naive_solver.
Qed.

(** ** Witnesses *)

#[local] Existing Instances sha2_sha256 demo_hashes demo_btc.

(** A merge-mined mainnet block after Wasabi, twenty seconds after its parent. *)
Definition demo_at (n ts uncles : Z) : Header :=
  mkHeader [] [] [] [] [] [] [] None 7000000000000000 n 5000000 21000 ts [] 0 60000000 uncles
    None None (Some [1]) (Some (replicate 64 3)) (Some demo_compressed) None None.

Definition demo_parent : Header := demo_at 1999999 100 0.
Definition demo_child : Header := demo_at 2000000 120 0.

Lemma demo_at_ok n ts u : fits 64 n → fits 64 ts → fits 64 u → header_ok (demo_at n ts u).
Proof. unfold header_ok, fits, demo_at. simpl. lia. Qed.


Lemma difficulty_antitone_witness :
  calculate_expected_difficulty mainnet (demo_at 2000000 115 1) demo_parent
  ≤ calculate_expected_difficulty mainnet (demo_at 2000000 105 1) demo_parent.
Proof.
  apply (difficulty_antitone mainnet (demo_at 2000000 105 1) (demo_at 2000000 115 1) demo_parent).
  - apply networks_ok.
  - vm_compute. discriminate.
  - vm_compute. reflexivity.
  - reflexivity.
  - reflexivity.
  - vm_compute. discriminate.
  - vm_compute. discriminate.
Defined.

Lemma demo_child_verified : verify (Ok 120) (default_rsk mainnet) demo_child (Some demo_parent) = Ok tt.
Proof. vm_compute. reflexivity. Qed.



End Rules.
