(* ===== verification/Uncles.v ===== *)
(** * Uncles: crates/core/src/validation/uncles.rs

    The two walks up the ancestry of a block and the rule that admits its uncles.
    The block store is the [AncestorSource] the caller implements.  A walk is a
    loop over stored links, so it is written with fuel, and it ends whenever
    stored parents have smaller heights. *)
From S2P Require Import Prelude Chain Sha256 MergedMining Rules.
From stdpp Require Import gmap options.

Module Uncles.
Import Chain MergedMining Rules.
Local Open Scope Z_scope.

Definition UNCLE_LIST_LIMIT : nat := 10.
Definition UNCLE_GENERATION_LIMIT : Z := 7.

Record AncestorSource := mkSource {
  stored_header : bytes → option Header;
  uncles_of : bytes → list Header;
}.

Section uncles.
Context `{Sha2} `{HeaderHash} `{BtcDecode}.

(** Enough rounds to reach [floor] from the first stored header. *)
Definition walk_fuel (store : AncestorSource) (floor : Z) (hash : bytes) : nat :=
  match stored_header store hash with
  | Some h => S (S (Z.to_nat (number h - floor)))
  | None => 1%nat
  end.

Fixpoint ancestors_loop (fuel : nat) (store : AncestorSource) (floor : Z) (hash : bytes)
    (out : gset bytes) : option (gset bytes) :=
  match fuel with
  | O => None
  | S fuel' =>
      match stored_header store hash with
      | None => Some out
      | Some h =>
          if number h <? floor then Some out
          else
            let out := {[ hash ]} ∪ out in
            if number h =? 0 then Some out
            else ancestors_loop fuel' store floor (parent_hash h) out
      end
  end.

Definition ancestors (store : AncestorSource) (block_number : Z) (parent_hash : bytes) (limit : Z) :
    option (gset bytes) :=
  let floor := sat_sub block_number limit in
  ancestors_loop (walk_fuel store floor parent_hash) store floor parent_hash ∅.

Fixpoint used_uncles_loop (fuel : nat) (store : AncestorSource) (floor : Z) (hash : bytes)
    (out : gset bytes) : option (gset bytes) :=
  match fuel with
  | O => None
  | S fuel' =>
      match stored_header store hash with
      | None => Some out
      | Some h =>
          if number h <? floor then Some out
          else
            let out := foldl (λ out uncle, {[ header_hash uncle ]} ∪ out) out (uncles_of store hash) in
            if number h =? 0 then Some out
            else used_uncles_loop fuel' store floor (parent_hash h) out
      end
  end.

Definition used_uncles (store : AncestorSource) (block_number : Z) (parent_hash : bytes) (limit : Z) :
    option (gset bytes) :=
  let floor := sat_sub block_number limit in
  used_uncles_loop (walk_fuel store floor parent_hash) store floor parent_hash ∅.

Record UnclesValidationRule := mkUnclesRule {
  store : AncestorSource;
  uncle_list_limit : nat;
  uncle_generation_limit : Z;
  header_rules : list HeaderRule;
  uncle_parent_rules : list ParentRule;
}.

(** The body of the loop over the uncles, with the set of hashes seen so far. *)
Definition check_uncle (now : result Z ValidationError) (rule : UnclesValidationRule) (n : Z)
    (ancestors used seen : gset bytes) (uncle : Header) : verdict :=
  let? _ := for_each (λ r, validate r uncle) (header_rules rule) in
  let uncle_hash := header_hash uncle in
  if n <=? number uncle then Err (UncleIsSiblingOrDescendant uncle_hash)
  else if u64 (number uncle + uncle_generation_limit rule) <? u64 (n + 1)
  then Err (UncleTooOld uncle_hash (uncle_generation_limit rule))
  else if bool_decide (uncle_hash ∈ seen) then Err (UncleRepeated uncle_hash)
  else if bool_decide (uncle_hash ∈ ancestors) then Err (UncleIsAncestor uncle_hash)
  else if bool_decide (uncle_hash ∈ used) then Err (UncleAlreadyUsed uncle_hash)
  else
    let? parent :=
      ok_or (match stored_header (store rule) (parent_hash uncle) with
             | Some p => if bool_decide (parent_hash uncle ∈ ancestors) then Some p else None
             | None => None
             end) (UncleHasNoCommonParent uncle_hash) in
    for_each (λ r, validate_with_parent now r uncle parent) (uncle_parent_rules rule).

Fixpoint check_uncles (now : result Z ValidationError) (rule : UnclesValidationRule) (n : Z)
    (ancestors used seen : gset bytes) (uncles : list Header) : verdict :=
  match uncles with
  | [] => Ok tt
  | uncle :: rest =>
      let? _ := check_uncle now rule n ancestors used seen uncle in
      check_uncles now rule n ancestors used ({[ header_hash uncle ]} ∪ seen) rest
  end.

(** [None]: the walk ran out of fuel. *)
Definition validate_uncles (now : result Z ValidationError) (rule : UnclesValidationRule) (b : Block) :
    option verdict :=
  if (length (ommers b) =? 0)%nat then Some (Ok tt)
  else
    let n := number (header b) in
    ancestors ← ancestors (store rule) n (parent_hash (header b)) (uncle_generation_limit rule);
    used ← used_uncles (store rule) n (parent_hash (header b)) (uncle_generation_limit rule);
    if (uncle_list_limit rule <? length (ommers b))%nat
    then Some (Err (TooManyUncles (uncle_list_limit rule) (length (ommers b))))
    else Some (check_uncles now rule n ancestors used ∅ (ommers b)).

End uncles.

(** ** Ancestry *)

(** [x] is stored and a chain of stored parents leads from [hash] to it. *)
Inductive ancestor (store : AncestorSource) : bytes → bytes → Header → Prop :=
  | ancestor_here hash h : stored_header store hash = Some h → ancestor store hash hash h
  | ancestor_up hash h x hx :
      stored_header store hash = Some h → ancestor store (parent_hash h) x hx →
      ancestor store hash x hx.

(** What block-number validation leaves in a store: parents have smaller heights. *)
Definition linked (store : AncestorSource) : Prop :=
  ∀ hash h, stored_header store hash = Some h →
    0 ≤ number h ∧ ∀ p, stored_header store (parent_hash h) = Some p → number p < number h.

Lemma ancestor_stored store hash x hx : ancestor store hash x hx → stored_header store x = Some hx.
Proof. by induction 1. Qed.

Lemma ancestor_number store hash x hx : linked store → ancestor store hash x hx →
  ∀ h, stored_header store hash = Some h → number hx ≤ number h.
Proof.
  intros Hl. induction 1 as [hash h Hh|hash h x hx Hh Ha IH]; intros h' Hh'.
  - rewrite Hh in Hh'. injection Hh' as <-. lia.
  - rewrite Hh in Hh'. injection Hh' as <-. destruct (Hl _ _ Hh) as [_ Hlt].
    assert (is_Some (stored_header store (parent_hash h))) as [p Hp] by (destruct Ha; eauto).
    specialize (IH p Hp). specialize (Hlt p Hp). lia.
Qed.

(** The ancestors at or above a height. *)
Definition above (store : AncestorSource) (floor : Z) (hash x : bytes) : Prop :=
  ∃ hx, ancestor store hash x hx ∧ floor ≤ number hx.

(** One round of a walk, as a statement about [above]. *)
Lemma above_unfold store floor hash h : linked store → stored_header store hash = Some h →
  floor ≤ number h → ∀ x,
  above store floor hash x ↔ x = hash ∨ (number h ≠ 0 ∧ above store floor (parent_hash h) x).
Proof.
  intros Hl Hh Hfl x. split.
  - intros (hx & Ha & Hx). inversion Ha as [? ? Hs|? h' ? ? Hs Ha']; subst; [by left|right].
    rewrite Hh in Hs. injection Hs as <-. split; [|by exists hx].
    assert (is_Some (stored_header store (parent_hash h))) as [p Hp] by (destruct Ha'; eauto).
    destruct (Hl _ _ Hh) as [_ Hlt]. destruct (Hl _ _ Hp) as [Hp0 _]. specialize (Hlt _ Hp). lia.
  - intros [->|(_ & hx & Ha & Hx)].
    + exists h. split; [by constructor|done].
    + exists hx. split; [by eapply ancestor_up|done].
Qed.

Lemma above_stop store floor hash : linked store →
  (∀ h, stored_header store hash = Some h → number h < floor) → ∀ x, ¬ above store floor hash x.
Proof.
  intros Hl Hstop x (hx & Ha & Hx).
  assert (is_Some (stored_header store hash)) as [h Hh] by (destruct Ha; eauto).
  pose proof (ancestor_number _ _ _ _ Hl Ha _ Hh). specialize (Hstop _ Hh). lia.
Qed.

Definition enough (store : AncestorSource) (floor : Z) (hash : bytes) (fuel : nat) : Prop :=
  (1 ≤ fuel)%nat ∧
  ∀ h, stored_header store hash = Some h → floor ≤ number h →
    number h - floor + 2 ≤ Z.of_nat fuel.

Lemma walk_fuel_enough store floor hash : enough store floor hash (walk_fuel store floor hash).
Proof.
  unfold enough, walk_fuel. destruct (stored_header store hash) as [h|]; [|split; [lia|done]].
  split; [lia|]. intros ? [= <-] ?. lia.
Qed.

Lemma enough_up store floor hash h fuel : linked store → stored_header store hash = Some h →
  floor ≤ number h → enough store floor hash (S fuel) → enough store floor (parent_hash h) fuel.
Proof.
  intros Hl Hh Hfl [_ He]. specialize (He _ Hh Hfl). destruct (Hl _ _ Hh) as [_ Hlt].
  split; [lia|]. intros p Hp Hpf. specialize (Hlt _ Hp). lia.
Qed.

Lemma ancestors_loop_spec store floor fuel hash out : linked store → enough store floor hash fuel →
  ∃ s, ancestors_loop fuel store floor hash out = Some s
    ∧ ∀ x, x ∈ s ↔ x ∈ out ∨ above store floor hash x.
Proof.
  intros Hl. revert hash out. induction fuel as [|fuel IH]; intros hash out He; [destruct He; lia|].
  simpl. destruct (stored_header store hash) as [h|] eqn:Hh.
  2: { exists out. split; [done|]. pose proof (above_stop store floor hash Hl) as Hs.
       rewrite Hh in Hs. specialize (Hs ltac:(done)). naive_solver. }
  destruct (Z.ltb_spec (number h) floor) as [Hlt|Hge].
  { exists out. split; [done|]. pose proof (above_stop store floor hash Hl) as Hs.
    rewrite Hh in Hs. specialize (Hs ltac:(naive_solver)). naive_solver. }
  pose proof (above_unfold store floor hash h Hl Hh Hge) as Hu. setoid_rewrite Hu.
  destruct (Z.eqb_spec (number h) 0) as [Hz|Hz].
  - exists ({[ hash ]} ∪ out). split; [done|]. set_solver.
  - destruct (IH (parent_hash h) ({[ hash ]} ∪ out)) as (s & -> & Hs); [by eapply enough_up|].
    exists s. split; [done|]. set_solver.
Qed.

Lemma collect_spec `{HeaderHash} us out x :
  x ∈ foldl (λ out uncle, {[ header_hash uncle ]} ∪ out) out us
  ↔ x ∈@{gset bytes} out ∨ ∃ u, u ∈ us ∧ x = header_hash u.
Proof.
  revert out. induction us as [|u us IH]; intros out; simpl.
  - split; [by left|]. intros [?|(? & ?%elem_of_nil & _)]; done.
  - rewrite IH, elem_of_union, elem_of_singleton. setoid_rewrite elem_of_cons. naive_solver.
Qed.

Lemma used_uncles_loop_spec `{HeaderHash} store floor fuel hash out :
  linked store → enough store floor hash fuel →
  ∃ s, used_uncles_loop fuel store floor hash out = Some s
    ∧ ∀ x, x ∈ s ↔ x ∈ out ∨ ∃ y u, above store floor hash y ∧ u ∈ uncles_of store y ∧ x = header_hash u.
Proof.
  intros Hl. revert hash out. induction fuel as [|fuel IH]; intros hash out He; [destruct He; lia|].
  simpl. destruct (stored_header store hash) as [h|] eqn:Hh.
  2: { exists out. split; [done|]. pose proof (above_stop store floor hash Hl) as Hs.
       rewrite Hh in Hs. specialize (Hs ltac:(done)). naive_solver. }
  destruct (Z.ltb_spec (number h) floor) as [Hlt|Hge].
  { exists out. split; [done|]. pose proof (above_stop store floor hash Hl) as Hs.
    rewrite Hh in Hs. specialize (Hs ltac:(naive_solver)). naive_solver. }
  pose proof (above_unfold store floor hash h Hl Hh Hge) as Hu. setoid_rewrite Hu.
  destruct (Z.eqb_spec (number h) 0) as [Hz|Hz].
  - eexists. split; [done|]. intros x. rewrite collect_spec. naive_solver.
  - edestruct (IH (parent_hash h)) as (s & -> & Hs); [by eapply enough_up|].
    exists s. split; [done|]. intros x. rewrite Hs, collect_spec. naive_solver.
Qed.

(** ** What the rule accepts *)

Section accepts.
Context `{Sha2} `{HeaderHash} `{BtcDecode}.

(** One uncle of a block at height [n] whose parent is [ph]. *)
Definition admissible (now : result Z ValidationError) (rule : UnclesValidationRule) (n : Z)
    (ph : bytes) (uncle : Header) : Prop :=
  let st := store rule in
  let floor := sat_sub n (uncle_generation_limit rule) in
  (∀ r, r ∈ header_rules rule → validate r uncle = Ok tt)
  ∧ number uncle < n < number uncle + uncle_generation_limit rule
  ∧ ¬ above st floor ph (header_hash uncle)
  ∧ (∀ y, above st floor ph y → ∀ u, u ∈ uncles_of st y → header_hash u ≠ header_hash uncle)
  ∧ ∃ p, stored_header st (parent_hash uncle) = Some p ∧ above st floor ph (parent_hash uncle)
      ∧ ∀ r, r ∈ uncle_parent_rules rule → validate_with_parent now r uncle p = Ok tt.

Lemma check_uncle_Ok now rule n ph anc used seen uncle :
  0 ≤ n → n + uncle_generation_limit rule < 2 ^ 64 → 0 ≤ number uncle → 1 ≤ uncle_generation_limit rule →
  let floor := sat_sub n (uncle_generation_limit rule) in
  (∀ x, x ∈ anc ↔ above (store rule) floor ph x) →
  (∀ x, x ∈ used ↔ ∃ y u, above (store rule) floor ph y ∧ u ∈ uncles_of (store rule) y
                          ∧ x = header_hash u) →
  check_uncle now rule n anc used seen uncle = Ok tt ↔
  header_hash uncle ∉ seen ∧ admissible now rule n ph uncle.
Proof.
  intros Hn Hbig Hun Hlim floor Hanc Hused. unfold check_uncle, admissible. fold floor.
  rewrite let_ok_tt, for_each_Ok.
  destruct (Z.leb_spec n (number uncle)) as [Hge|Hlt].
  { split; [by intros [_ ?]|]. intros (_ & _ & ? & _). lia. }
  unfold u64. rewrite !wrap_small by (unfold fits; lia).
  destruct (Z.ltb_spec (number uncle + uncle_generation_limit rule) (n + 1)) as [Hold|Hgen].
  { split; [by intros [_ ?]|]. intros (_ & _ & ? & _). lia. }
  case_bool_decide as Hseen; [naive_solver|].
  case_bool_decide as Ha; rewrite Hanc in Ha; [naive_solver|].
  case_bool_decide as Hu; rewrite Hused in Hu.
  { destruct Hu as (y & u & ? & ? & ?). naive_solver. }
  assert (∀ y, above (store rule) floor ph y → ∀ u, u ∈ uncles_of (store rule) y →
    header_hash u ≠ header_hash uncle) as Hfresh by naive_solver.
  clear Hu. destruct (stored_header (store rule) (parent_hash uncle)) as [p|]; cbn [ok_or result_bind];
    [|split; [by intros [_ ?]|naive_solver]].
  case_bool_decide as Hp; rewrite Hanc in Hp; cbn [ok_or result_bind];
    [|split; [by intros [_ ?]|naive_solver]].
  rewrite for_each_Ok. split.
  - intros [Hst Hpr]. split; [done|]. split; [done|]. split; [lia|]. eauto 10.
  - intros (_ & Hst & _ & _ & _ & p' & [= <-] & _ & Hpr). done.
Qed.

Lemma check_uncles_Ok now rule n ph anc used seen uncles :
  0 ≤ n → n + uncle_generation_limit rule < 2 ^ 64 → 1 ≤ uncle_generation_limit rule →
  (∀ u, u ∈ uncles → 0 ≤ number u) →
  let floor := sat_sub n (uncle_generation_limit rule) in
  (∀ x, x ∈ anc ↔ above (store rule) floor ph x) →
  (∀ x, x ∈ used ↔ ∃ y u, above (store rule) floor ph y ∧ u ∈ uncles_of (store rule) y
                          ∧ x = header_hash u) →
  check_uncles now rule n anc used seen uncles = Ok tt ↔
  NoDup (header_hash <$> uncles) ∧ ∀ u, u ∈ uncles → header_hash u ∉ seen ∧ admissible now rule n ph u.
Proof.
  intros Hn Hbig Hlim Hnn floor Hanc Hused. revert seen Hnn.
  induction uncles as [|uncle rest IH]; intros seen Hnn.
  - simpl. split; [|done]. intros _. split; [constructor|]. by intros u ?%elem_of_nil.
  - cbn [check_uncles]. rewrite let_ok_tt, (check_uncle_Ok now rule n ph)
      by (done || apply Hnn; left).
    rewrite IH by (intros u ?; apply Hnn; by right). rewrite fmap_cons, NoDup_cons, list_elem_of_fmap.
    setoid_rewrite elem_of_cons. split.
    + intros ([? ?] & ? & Hrest). split_and!; [|done|].
      * intros (u & Hu & Hin). destruct (Hrest u Hin) as [? _]. set_solver.
      * intros u [->|Hin]; [done|]. destruct (Hrest u Hin). set_solver.
    + intros ([Hnot ?] & Hall). split_and!; [by apply Hall; left|by apply Hall; left|done|].
      intros u Hin. destruct (Hall u (or_intror Hin)) as [? ?]. split; [|done].
      rewrite elem_of_union, elem_of_singleton. intros [Heq|?]; [|done].
      apply Hnot. exists u. done.
Qed.

Definition numbers_ok (rule : UnclesValidationRule) (b : Block) : Prop :=
  0 ≤ number (header b) ∧ number (header b) + uncle_generation_limit rule < 2 ^ 64
  ∧ 1 ≤ uncle_generation_limit rule ∧ ∀ u, u ∈ ommers b → 0 ≤ number u.

Lemma validate_uncles_Ok now rule b : linked (store rule) → numbers_ok rule b →
  (∃ v, validate_uncles now rule b = Some v)
  ∧ (validate_uncles now rule b = Some (Ok tt) ↔
     (ommers b = [] ∨ (length (ommers b) ≤ uncle_list_limit rule)%nat)
     ∧ NoDup (header_hash <$> ommers b)
     ∧ ∀ u, u ∈ ommers b →
         admissible now rule (number (header b)) (parent_hash (header b)) u).
Proof.
  intros Hl (Hn & Hbig & Hlim & Hnn). unfold validate_uncles.
  destruct (Nat.eqb_spec (length (ommers b)) 0) as [Hz|Hz].
  { apply length_zero_iff_nil in Hz. rewrite Hz. split; [by eexists|]. split; [|done].
    intros _. split_and!; [by left|constructor|]. by intros u ?%elem_of_nil. }
  unfold ancestors, used_uncles.
  set (floor := sat_sub _ _). set (ph := parent_hash (header b)).
  destruct (ancestors_loop_spec (store rule) floor _ ph ∅ Hl (walk_fuel_enough _ _ _)) as (anc & -> & Hanc).
  destruct (used_uncles_loop_spec (store rule) floor _ ph ∅ Hl (walk_fuel_enough _ _ _))
    as (used & -> & Hused).
  cbn [mbind option_bind]. destruct (Nat.ltb_spec (uncle_list_limit rule) (length (ommers b))) as [Hc|Hc].
  { split; [by eexists|]. split; [done|]. intros ([Hnil|?] & _); [by rewrite Hnil in Hz|lia]. }
  split; [by eexists|].
  assert (check_uncles now rule (number (header b)) anc used ∅ (ommers b) = Ok tt ↔
    NoDup (header_hash <$> ommers b) ∧ ∀ u, u ∈ ommers b →
      header_hash u ∉ (∅ : gset bytes) ∧ admissible now rule (number (header b)) ph u) as Hok.
  { apply check_uncles_Ok; try done; intros x; fold floor; [rewrite Hanc|rewrite Hused]; set_solver. }
  transitivity (check_uncles now rule (number (header b)) anc used ∅ (ommers b) = Ok tt);
    [split; [by intros [= ?]|by intros ->]|].
  rewrite Hok. split.
  - intros [Hnd Hall]. split; [by right|]. split; [exact Hnd|]. intros u Hu. exact (proj2 (Hall u Hu)).
  - intros (_ & Hnd & Hall). split; [exact Hnd|]. intros u Hu. split; [apply not_elem_of_empty|exact (Hall u Hu)].
Qed.

End accepts.

(** C33: over a store whose parents have smaller heights the uncle rule always
    answers, and it accepts a block exactly when the block has at most
    [uncle_list_limit] uncles, no two with one hash, and each of them passes the
    header rules, is younger than [uncle_generation_limit] generations and older
    than the block, is not an ancestor, was not used by an ancestor in the window,
    and has an ancestor for a parent, against which it passes the parent rules. *)
Theorem uncles_accepts_iff `{Sha2} `{HeaderHash} `{BtcDecode} now rule b
    (Hlinked : linked (store rule)) (Hb : numbers_ok rule b) :
  (∃ v, validate_uncles now rule b = Some v)
  ∧ (validate_uncles now rule b = Some (Ok tt) ↔
     (ommers b = [] ∨ (length (ommers b) ≤ uncle_list_limit rule)%nat)
     ∧ NoDup (header_hash <$> ommers b)
     ∧ ∀ u, u ∈ ommers b → admissible now rule (number (header b)) (parent_hash (header b)) u).
Proof. by apply validate_uncles_Ok. Qed.

(** C15: no uncle is included twice in one chain: if a stored ancestor of a block
    was accepted with an uncle, the rule does not accept the block with that uncle,
    at whatever distance the ancestor is, although the rule only looks
    [uncle_generation_limit] blocks back. *)
Theorem uncle_included_once `{Sha2} `{HeaderHash} `{BtcDecode} now1 now2 rule hash1 b1 b2 u
    (Hlinked : linked (store rule)) (Hb1 : numbers_ok rule b1) (Hb2 : numbers_ok rule b2)
    (Hanc : ancestor (store rule) (parent_hash (header b2)) hash1 (header b1))
    (Hommers : uncles_of (store rule) hash1 = ommers b1)
    (Hok1 : validate_uncles now1 rule b1 = Some (Ok tt)) (Hu : u ∈ ommers b1)
    (Hok2 : validate_uncles now2 rule b2 = Some (Ok tt)) :
  u ∉ ommers b2.
Proof.
  intros Hu2. apply validate_uncles_Ok in Hok1, Hok2; [|done..].
  destruct Hok1 as (_ & _ & Ha1), Hok2 as (_ & _ & Ha2).
  destruct (Ha1 u Hu) as (_ & Hn1 & _). destruct (Ha2 u Hu2) as (_ & Hn2 & _ & Hfresh & _).
  apply (Hfresh hash1) with (u := u); [|by rewrite Hommers|done].
  exists (header b1). split; [done|]. destruct Hb1 as [Hpos _]. unfold sat_sub. lia.
Qed.

(** ** Witnesses *)

#[local] Existing Instances sha2_sha256 demo_btc.

(** Blocks 1 to 3 of a chain, the block after them and an uncle of block 2. *)
Definition demo_block (n : Z) (uncles : list Header) : Block :=
  mkBlock (mkHeader (be_bytes 32 (n - 1)) [] [] [] [] [] [] None 0 n 0 0 n [] 0 0 0 None None None None
             None None None) [] uncles.
Definition demo_uncle : Header :=
  mkHeader (be_bytes 32 1) [] [] [] [] [] [] None 0 2 0 0 2 [1] 0 0 0 None None None None None None None.

#[local] Instance uncle_hashes : HeaderHash := {
  header_hash h := be_bytes 32 (number h) ++ extra_data h;
  merged_mining_hash h := be_bytes 32 (number h + 7);
  length_merged_mining_hash h := length_be_bytes 32 (number h + 7);
}.

Definition demo_store : AncestorSource := mkSource
  (λ hash, if decide (hash = be_bytes 32 1) then Some (header (demo_block 1 []))
           else if decide (hash = be_bytes 32 2) then Some (header (demo_block 2 []))
           else if decide (hash = be_bytes 32 3) then Some (header (demo_block 3 []))
           else None)
  (λ hash, if decide (hash = be_bytes 32 3) then [demo_uncle] else []).

Definition demo_rule : UnclesValidationRule :=
  mkUnclesRule demo_store UNCLE_LIST_LIMIT UNCLE_GENERATION_LIMIT [GasUsedRule] [BlockNumberRule].

Lemma demo_linked : linked (store demo_rule).
Proof.
  intros hash h. simpl. repeat case_decide; intros [= <-]; subst; (split; [simpl; lia|]);
    intros p; simpl; repeat case_decide; intros [= <-]; simpl; try lia; by exfalso.
Qed.

Lemma demo_numbers n us : 0 ≤ n < 100 → (us = [] ∨ us = [demo_uncle]) →
  numbers_ok demo_rule (demo_block n us).
Proof.
  intros Hn Hus. unfold numbers_ok. simpl. unfold UNCLE_GENERATION_LIMIT. split_and!; [lia..|].
  intros u Hu. destruct Hus as [-> | ->]; [by apply elem_of_nil in Hu|].
  apply list_elem_of_singleton in Hu as ->. simpl. lia.
Qed.

Lemma uncles_accepts_iff_witness :
  NoDup (header_hash <$> [demo_uncle])
  ∧ ∀ u, u ∈ [demo_uncle] → admissible (Ok 0) demo_rule 3 (be_bytes 32 2) u.
Proof.
  destruct (uncles_accepts_iff (Ok 0) demo_rule (demo_block 3 [demo_uncle]) demo_linked
    (demo_numbers 3 [demo_uncle] ltac:(lia) (or_intror eq_refl))) as [_ [Haccept _]].
  exact (proj2 (Haccept ltac:(vm_compute; reflexivity))).
Defined.

Lemma uncle_included_once_witness : demo_uncle ∉ ommers (demo_block 4 []).
Proof.
  apply (uncle_included_once (Ok 0) (Ok 0) demo_rule (be_bytes 32 3) (demo_block 3 [demo_uncle])).
  - exact demo_linked.
  - apply demo_numbers; [lia|by right].
  - apply demo_numbers; [lia|by left].
  - apply ancestor_here. vm_compute. reflexivity.
  - vm_compute. reflexivity.
  - vm_compute. reflexivity.
  - apply list_elem_of_singleton. reflexivity.
  - vm_compute. reflexivity.
Defined.

End Uncles.
