(* ===== verification/ForkDetection.v ===== *)
(** * Fork-detection data: crates/core/src/validation/fork_detection.rs

    The twelve bytes a miner commits to after the merged-mining hash, and the rule
    that compares them with those computed from the ancestors.  The rolling window
    of ancestors is the [MainchainView] the caller supplies. *)
From S2P Require Import Prelude Chain Sha256 MergedMining.
From stdpp Require Import options.

Module ForkDetection.
Import Chain MergedMining.
Local Open Scope Z_scope.

Definition CPV_SIZE : nat := 7.
Definition CPV_JUMP_FACTOR : Z := 64.
Definition NUMBER_OF_UNCLES : nat := 32.
Definition REQUIRED_BLOCKS : Z := Z.of_nat CPV_SIZE * CPV_JUMP_FACTOR + 1.

(** [headers_from from count]: at most [count] headers, newest first. *)
Record MainchainView := mkView { headers_from : bytes → Z → list Header }.

Section fork_detection.
Context `{BtcDecode}.

Definition btc_hash_least_significant_byte (h : Header) : option Z :=
  raw ← bitcoin_merged_mining_header h;
  btc ← btc_decode raw;
  btc_block_hash btc !! 0%nat.

(** The loop over the first [CPV_SIZE] slots, from slot [i] on. *)
Fixpoint cpv_loop (slots : nat) (headers : list Header) (best_height cpv_start i : Z) :
    option bytes :=
  match slots with
  | O => Some []
  | S slots' =>
      let index := u64 (best_height - cpv_start + i * CPV_JUMP_FACTOR) in
      h ← headers !! Z.to_nat index;
      slot ← btc_hash_least_significant_byte h;
      rest ← cpv_loop slots' headers best_height cpv_start (i + 1);
      Some (slot :: rest)
  end.

Definition uncle_sum (headers : list Header) : Z :=
  foldl (λ acc h, u64 (acc + uncle_count h)) 0 (take NUMBER_OF_UNCLES headers).

Definition calculate (headers : list Header) : option bytes :=
  if Z.of_nat (length headers) <? REQUIRED_BLOCKS then None
  else
    best ← headers !! 0%nat;
    let best_height := number best in
    let cpv_start := best_height / CPV_JUMP_FACTOR * CPV_JUMP_FACTOR in
    cpv ← cpv_loop CPV_SIZE headers best_height cpv_start 0;
    let height_being_mined := u32 (u64 (best_height + 1)) in
    Some (cpv ++ [Z.min (uncle_sum headers) 255] ++ be_bytes 4 height_being_mined).

Definition validate_fork_detection (h : Header) (actual : option bytes) (view : MainchainView)
    (rskip110_height : Z) : verdict :=
  if number h <? rskip110_height then Ok tt
  else if number h <? REQUIRED_BLOCKS then
    match actual with
    | Some _ => Err ForkDetectionDataUnreadable
    | None => Ok tt
    end
  else
    let? got := ok_or actual ForkDetectionDataUnreadable in
    let headers := headers_from view (parent_hash h) REQUIRED_BLOCKS in
    let? expected := ok_or (calculate headers) ForkDetectionDataUnreadable in
    if decide (expected = got) then Ok tt else Err (ForkDetectionDataMismatch expected got).

End fork_detection.

(** ** Properties *)

Section properties.
Context `{BtcDecode}.

(** Newest first and contiguous, down from height [top]. *)
Definition contiguous (headers : list Header) (top : Z) : Prop :=
  ∀ i h, headers !! i = Some h → number h = top - Z.of_nat i.

(** Every header carries a Bitcoin header that decodes, to a hash with a first byte. *)
Definition merge_mined (headers : list Header) : Prop :=
  ∀ h, h ∈ headers → is_Some (btc_hash_least_significant_byte h).

Definition byte_at_height (headers : list Header) (n : Z) (b : Z) : Prop :=
  ∃ h, h ∈ headers ∧ number h = n ∧ btc_hash_least_significant_byte h = Some b.

(** A slot never reads past the window. *)
Lemma cpv_index best i : 0 ≤ best → 0 ≤ i < 7 →
  let index := best - best / 64 * 64 + i * 64 in
  u64 index = index ∧ 0 ≤ index < 448.
Proof.
  intros Hb Hi index. pose proof (Z.mod_pos_bound best 64 ltac:(lia)) as Hm.
  rewrite (Z.mod_eq best 64) in Hm by lia. assert (0 ≤ index < 448) by (unfold index; lia).
  split; [|done]. unfold u64. apply wrap_small. unfold fits. lia.
Qed.

Lemma cpv_loop_spec headers best : 0 ≤ best → 449 ≤ Z.of_nat (length headers) →
  contiguous headers best → merge_mined headers →
  ∀ slots i, 0 ≤ i → i + Z.of_nat slots ≤ 7 →
  ∃ out, cpv_loop slots headers best (best / 64 * 64) i = Some out ∧ length out = slots
    ∧ ∀ k b, out !! k = Some b →
        byte_at_height headers (best / 64 * 64 - (i + Z.of_nat k) * 64) b.
Proof.
  intros Hb Hlen Hc Hm slots. induction slots as [|slots IH]; intros i Hi Hs.
  { exists []. split_and!; [done|done|]. by intros k b ?. }
  cbn [cpv_loop]. destruct (cpv_index best i Hb ltac:(lia)) as [Hu Hr]. unfold CPV_JUMP_FACTOR.
  cbn zeta in Hu, Hr |- *. rewrite Hu.
  destruct (lookup_lt_is_Some_2 headers (Z.to_nat (best - best / 64 * 64 + i * 64))) as [h Hh]; [lia|].
  rewrite Hh. cbn [mbind option_bind].
  destruct (Hm h) as [slot Hslot]; [by eapply list_elem_of_lookup_2|]. rewrite Hslot.
  cbn [mbind option_bind]. destruct (IH (i + 1)) as (rest & -> & Hl & Hrest); [lia..|].
  cbn [mbind option_bind]. exists (slot :: rest). split_and!; [done|simpl; lia|].
  intros [|k] b Hk; simpl in Hk.
  - injection Hk as <-. exists h. split; [by eapply list_elem_of_lookup_2|]. split; [|done].
    rewrite (Hc _ _ Hh). lia.
  - replace (i + Z.of_nat (S k)) with (i + 1 + Z.of_nat k) by lia. by apply Hrest.
Qed.

End properties.

(** A miner's view that is long enough, contiguous and merge-mined always yields
    fork-detection data, and it is the layout of RSKIP110: seven bytes from the
    Bitcoin hashes of the ancestors at the seven newest multiples of 64, one byte
    with the uncles of the last 32 blocks capped at 255, and the height being mined
    in four bytes. *)
Theorem fork_detection_layout `{BtcDecode} headers best
    (Hbest : 0 ≤ best < 2 ^ 64 - 1) (Hlen : REQUIRED_BLOCKS ≤ Z.of_nat (length headers))
    (Hcontiguous : contiguous headers best) (Hmined : merge_mined headers) :
  ∃ cpv, calculate headers
           = Some (cpv ++ [Z.min (uncle_sum headers) 255] ++ be_bytes 4 (u32 (best + 1)))
    ∧ length cpv = CPV_SIZE
    ∧ ∀ k b, cpv !! k = Some b →
        byte_at_height headers ((best / CPV_JUMP_FACTOR - Z.of_nat k) * CPV_JUMP_FACTOR) b.
Proof.
  unfold calculate. destruct (Z.ltb_spec (Z.of_nat (length headers)) REQUIRED_BLOCKS); [lia|].
  unfold REQUIRED_BLOCKS, CPV_SIZE, CPV_JUMP_FACTOR in *.
  destruct headers as [|h0 rest]; [simpl in *; lia|]. set (headers := h0 :: rest) in *.
  assert (number h0 = best) as Hh0 by (rewrite (Hcontiguous 0%nat h0) by done; lia).
  change (headers !! 0%nat) with (Some h0). cbn [mbind option_bind]. rewrite Hh0.
  destruct (cpv_loop_spec headers best ltac:(lia) ltac:(lia) Hcontiguous Hmined 7 0)
    as (cpv & -> & Hl & Hspec); [lia..|].
  cbn [mbind option_bind]. exists cpv. unfold u64. rewrite (wrap_small 64 (best + 1)) by (unfold fits; lia).
  split_and!; [done|done|]. intros k b Hk. apply Hspec in Hk.
  replace ((best / 64 - Z.of_nat k) * 64) with (best / 64 * 64 - (0 + Z.of_nat k) * 64) by lia. done.
Qed.

(** What the rule asks of a block from its activation on and past the first 449
    heights: readable bytes, equal to those computed from the view of its parent. *)
Lemma accepts_Ok `{BtcDecode} h actual view height :
  height ≤ number h → REQUIRED_BLOCKS ≤ number h →
  validate_fork_detection h actual view height = Ok tt ↔
  ∃ data, actual = Some data
    ∧ calculate (headers_from view (parent_hash h) REQUIRED_BLOCKS) = Some data.
Proof.
  intros Hactive Hdeep. unfold validate_fork_detection.
  destruct (Z.ltb_spec (number h) height); [lia|].
  destruct (Z.ltb_spec (number h) REQUIRED_BLOCKS); [lia|].
  destruct actual as [got|]; cbn [ok_or result_bind]; [|naive_solver].
  destruct (calculate _) as [expected|]; cbn [ok_or result_bind]; [|naive_solver].
  destruct (decide (expected = got)); naive_solver.
Qed.

Lemma length_cpv_loop `{BtcDecode} slots : ∀ headers best start i out,
  cpv_loop slots headers best start i = Some out → length out = slots.
Proof.
  induction slots as [|slots IH]; intros headers best start i out; cbn [cpv_loop].
  - by intros [= <-].
  - intros (h & _ & (b & _ & (rest & Hrest & [= <-])%bind_Some)%bind_Some)%bind_Some.
    simpl. f_equal. by eapply IH.
Qed.

Lemma length_calculate `{BtcDecode} headers data :
  calculate headers = Some data → length data = FORK_DETECTION_DATA_LENGTH.
Proof.
  unfold calculate. destruct (_ <? _); [done|].
  intros (best & _ & (cpv & Hcpv%length_cpv_loop & Hd)%bind_Some)%bind_Some.
  apply (inj Some) in Hd as <-. rewrite !length_app, length_be_bytes, Hcpv. done.
Qed.

(** C34: miner and verifier agree on the fork-detection data: a block whose miner
    wrote [calculate] of its ancestors after the merged-mining hash in the coinbase
    and shipped the compressed coinbase passes the rule when the verifier's view of
    the parent is the miner's, and with any other twelve bytes there it fails. *)
Theorem mined_block_passes_iff `{Sha2} `{HeaderHash} `{BtcDecode} view h cb out tp data height expected
    (Hactive : height ≤ number h) (Hdeep : REQUIRED_BLOCKS ≤ number h)
    (Hview : calculate (headers_from view (parent_hash h) REQUIRED_BLOCKS) = Some expected)
    (Hlast : find_last_subsequence cb RSK_TAG = Some tp)
    (Hlen : length data = FORK_DETECTION_DATA_LENGTH)
    (Hcommit : occurs_at cb ((RSK_TAG ++ take HASH_FOR_MERGED_MINING_PREFIX_LENGTH
                                          (merged_mining_hash h)) ++ data) tp)
    (Hcompress : compress_coinbase cb true = Ok out)
    (Htx : bitcoin_merged_mining_coinbase_transaction h = Some out) :
  validate_fork_detection h (extract_fork_detection_data h) view height = Ok tt ↔ data = expected.
Proof.
  rewrite (extract_compressed cb out tp h data) by done.
  rewrite accepts_Ok, Hview by done. naive_solver.
Qed.

(** ** Witnesses *)

#[local] Existing Instances sha2_sha256 demo_hashes demo_btc.

(** The 449 merge-mined ancestors of the demonstration block, and the coinbase its
    miner writes. *)
Definition demo_ancestor (n : Z) : Header :=
  mkHeader [] [] [] [] [] [] [] None 1000 n 0 0 0 [] 0 0 1 None None (Some [1]) None None None None.
Definition demo_headers : list Header :=
  (λ i, demo_ancestor (1999999 - Z.of_nat i)) <$> seq 0 449.
Definition demo_view : MainchainView := mkView (λ _ _, demo_headers).
Definition demo_commitment : bytes := replicate 7 5 ++ [32] ++ be_bytes 4 2000000.
Definition mined_coinbase : bytes :=
  replicate 70 1 ++ RSK_TAG ++ take 20 demo_hash ++ demo_commitment ++ [0; 0].
Definition mined_compressed : bytes :=
  match compress_coinbase mined_coinbase true with Ok out => out | Err _ => [] end.
Definition mined_header : Header :=
  mkHeader [] [] [] [] [] [] [] None 1000 2000000 0 0 0 [] 0 0 0 None None
    (Some [1]) (Some (replicate 64 3)) (Some mined_compressed) None None.

Lemma demo_headers_at i h : demo_headers !! i = Some h → h = demo_ancestor (1999999 - Z.of_nat i).
Proof.
  unfold demo_headers. rewrite list_lookup_fmap. intros (k & Hk & ->)%fmap_Some.
  by apply lookup_seq in Hk as [-> _].
Qed.

Lemma demo_btc_first : is_Some (b ← btc_decode [1]; btc_block_hash b !! 0%nat).
Proof. exists 5. vm_compute. reflexivity. Qed.

Lemma fork_detection_layout_witness :
  ∃ cpv, calculate demo_headers
           = Some (cpv ++ [Z.min (uncle_sum demo_headers) 255] ++ be_bytes 4 (u32 (1999999 + 1))).
Proof.
  destruct (fork_detection_layout demo_headers 1999999) as (cpv & Hcalc & _).
  - lia.
  - vm_compute. discriminate.
  - intros i h Hh. rewrite (demo_headers_at i h Hh). reflexivity.
  - intros h (i & Hi)%list_elem_of_lookup. rewrite (demo_headers_at i h Hi). exact demo_btc_first.
  - exists cpv. exact Hcalc.
Defined.

Lemma mined_block_passes_iff_witness :
  validate_fork_detection mined_header (extract_fork_detection_data mined_header) demo_view 1591000
  = Ok tt.
Proof.
  apply (mined_block_passes_iff demo_view mined_header mined_coinbase mined_compressed 70
           demo_commitment 1591000 demo_commitment).
  - vm_compute. discriminate.
  - vm_compute. discriminate.
  - vm_compute. reflexivity.
  - vm_compute. reflexivity.
  - reflexivity.
  - split; [vm_compute; lia|vm_compute; reflexivity].
  - vm_compute. reflexivity.
  - reflexivity.
  - reflexivity.
Defined.

End ForkDetection.
