(* ===== verification/Remasc.v ===== *)
(** * REMASC: crates/execution/src/remasc.rs

    The reward manager: the fees a block collected are paid out, [maturity] blocks
    later, to RSK Labs, to the federation, to the miner and to the miners and
    publishers of its siblings.  The EVM journal and the RLP encoder are interfaces
    ([Journal], [Rlp]) with the behaviour their crates document, the block store is
    the record of its three lookups, and the federation's addresses are an argument.

    RemascLedger proves the properties. *)
From S2P Require Import Prelude Path Varint Store Node KeyMapper RawStorage Chain.
From stdpp Require Import strings options.

Module Remasc.
Import Chain Store Node RawStorage.
Local Open Scope Z_scope.

Definition REMASC_ADDR : bytes := be_bytes 20 0x01000008.
Definition UNCLE_GENERATION_LIMIT : Z := 7.

(** ** Configuration *)

Record RemascConfig := mkRemasc {
  maturity : Z;
  synthetic_span : Z;
  rsk_labs_divisor : Z;
  federation_divisor : Z;
  punishment_divisor : Z;
  publishers_divisor : Z;
  late_uncle_inclusion_punishment_divisor : Z;
  rsk_labs_address : bytes;
  rsk_labs_address_rskip218 : bytes;
  rskip218_activation_height : Z;
  rskip85_activation_height : Z;
  minimum_payable_gas : Z;
  federator_minimum_payable_gas : Z;
  genesis_federation_public_keys : list string;
}.

Definition remasc_mainnet : RemascConfig :=
  mkRemasc 4000 10 5 100 10 10 20
    (be_bytes 20 0x14d3065c8Eb89895f4df12450EC6b130049F8034)
    (be_bytes 20 0xdcb12179ba4697350f66224c959bdd9c282818df) 3614800 729000 200000 50000 [
      "03b53899c390573471ba30e5054f78376c5f797fda26dde7a760789f02908cbad2"%string;
      "027319afb15481dbeb3c426bcc37f9a30e7f51ceff586936d85548d9395bcc2344"%string;
      "0355a2e9bf100c00fc0a214afd1bf272647c7824eb9cb055480962f0c382596a70"%string;
      "02566d5ded7c7db1aa7ee4ef6f76989fb42527fcfdcddcd447d6793b7d869e46f7"%string;
      "0294c817150f78607566e961b3c71df53a22022a80acbb982f83c0c8baac040adc"%string;
      "0372cd46831f3b6afd4c044d160b7667e8ebf659d6cb51a825a3104df6ee0638c6"%string;
      "0340df69f28d69eef60845da7d81ff60a9060d4da35c767f017b0dd4e20448fb44"%string;
      "02ac1901b6fba2c1dbd47d894d2bd76c8ba1d296d65f6ab47f1c6b22afb53e73eb"%string;
      "031aabbeb9b27258f98c2bf21f36677ae7bae09eb2d8c958ef41a20a6e88626d26"%string;
      "0245ef34f5ee218005c9c21227133e8568a4f3f11aeab919c66ff7b816ae1ffeea"%string;
      "02550cc87fa9061162b1dd395a16662529c9d8094c0feca17905a3244713d65fe8"%string;
      "02481f02b7140acbf3fcdd9f72cf9a7d9484d8125e6df7c9451cfa55ba3b077265"%string;
      "03f909ae15558c70cc751aff9b1f495199c325b13a9e5b934fd6299cd30ec50be8"%string;
      "02c6018fcbd3e89f3cf9c7f48b3232ea3638eb8bf217e59ee290f5f0cfb2fb9259"%string;
      "03b65694ccccda83cbb1e56b31308acd08e993114c33f66a456b627c2c1c68bed6"%string].

Definition remasc_testnet : RemascConfig :=
  mkRemasc 50 10 5 100 10 10 20
    (be_bytes 20 0xdabadabadabadabadabadabadabadabadaba0003)
    (be_bytes 20 0xdabadabadabadabadabadabadabadabadaba0003) 2060500 0 200000 50000 [
      "039a060badbeb24bee49eb2063f616c0f0f0765d4ca646b20a88ce828f259fcdb9"%string;
      "02afc230c2d355b1a577682b07bc2646041b5d0177af0f98395a46018da699b6da"%string;
      "0344a3c38cd59afcba3edcebe143e025574594b001700dec41e59409bdbd0f2a09"%string;
      "034844a99cd7028aa319476674cc381df006628be71bc5593b8b5fdb32bb42ef85"%string].

Definition remasc_regtest : RemascConfig :=
  mkRemasc 10 5 5 100 10 10 20
    (be_bytes 20 0xdabadabadabadabadabadabadabadabadaba0001)
    (be_bytes 20 0xdabadabadabadabadabadabadabadabadaba0001) 0 0 200000 50000 [].

Definition labs_address_at (config : RemascConfig) (block_number : Z) : bytes :=
  if rskip218_activation_height config <=? block_number
  then rsk_labs_address_rskip218 config else rsk_labs_address config.

(** ** Storage keys *)

Definition ascii_bytes (name : string) : bytes :=
  (λ c, Z.of_nat (Ascii.nat_of_ascii c)) <$> String.list_ascii_of_string name.

(** The name right-aligned in a 32-byte word; [None] is the slice out of range. *)
Definition remasc_storage_key_opt (name : string) : option Z :=
  let b := ascii_bytes name in
  if (length b <=? 32)%nat then Some (of_be (replicate (32 - length b) 0 ++ b)) else None.

Definition remasc_storage_key (name : string) : Z := default 0 (remasc_storage_key_opt name).

Definition REWARD_BALANCE_KEY : string := "rewardBalance".
Definition BURNED_BALANCE_KEY : string := "burnedBalance".
Definition BROKEN_SELECTION_RULE_KEY : string := "brokenSelectionRule".
Definition FEDERATION_BALANCE_KEY : string := "federationBalance".

(** ** Interfaces *)

Record Log := mkLog { log_address : bytes; log_topics : list bytes; log_data : bytes }.

(** The journal of the EVM, as far as REMASC uses it.  [sload] is [None] where the
    journal returns an error; [transfer] returns whether it answered [Ok(None)]. *)
Class Journal (J : Type) := {
  sload : J → bytes → Z → option Z;
  sstore : J → bytes → Z → Z → J;
  transfer : J → bytes → bytes → Z → bool * J;
  load_account : J → bytes → J;
  touch_account : J → bytes → J;
  log : J → Log → J;
  balance : J → bytes → Z;
  logs : J → list Log;
}.

(** What the journal documents: a store is read back, and each operation changes
    nothing else; a covered transfer that does not overflow the recipient moves the
    amount, and an uncovered one fails. *)
Class JournalLaws (J : Type) `{Journal J} := {
  balance_range j a : 0 ≤ balance j a;
  sload_sstore j a k v : sload (sstore j a k v) a k = Some v;
  sload_sstore_ne j a k v a' k' : (a, k) ≠ (a', k') → sload (sstore j a k v) a' k' = sload j a' k';
  balance_sstore j a k v a' : balance (sstore j a k v) a' = balance j a';
  logs_sstore j a k v : logs (sstore j a k v) = logs j;
  sload_load_account j b a k : sload (load_account j b) a k = sload j a k;
  balance_load_account j b a : balance (load_account j b) a = balance j a;
  logs_load_account j b : logs (load_account j b) = logs j;
  sload_touch_account j b a k : sload (touch_account j b) a k = sload j a k;
  balance_touch_account j b a : balance (touch_account j b) a = balance j a;
  logs_touch_account j b : logs (touch_account j b) = logs j;
  sload_log j l a k : sload (log j l) a k = sload j a k;
  balance_log j l a : balance (log j l) a = balance j a;
  logs_log j l : logs (log j l) = logs j ++ [l];
  sload_transfer j from to v a k : sload (transfer j from to v).2 a k = sload j a k;
  logs_transfer j from to v : logs (transfer j from to v).2 = logs j;
  transfer_uncovered j from to v : balance j from < v → (transfer j from to v).1 = false;
  transfer_covered j from to v : 0 ≤ v ≤ balance j from → (from ≠ to → balance j to + v < 2 ^ 256) →
    (transfer j from to v).1 = true
    ∧ ∀ a, balance (transfer j from to v).2 a
           = balance j a + (if decide (a = to) then v else 0) - (if decide (a = from) then v else 0);
}.

(** alloy_rlp, as far as the payment logs use it. *)
Class Rlp := {
  rlp_bytes : bytes → bytes;
  rlp_u256 : Z → bytes;
  rlp_list_header : nat → bytes;
}.

(** The block store's lookups; a database error carries its message. *)
Record BlockStore := mkBlockStore {
  canonical_hash : Z → result (option bytes) string;
  stored_header : bytes → result (option Header) string;
  stored_body : bytes → result (option (list Transaction * list Header)) string;
}.

Inductive PrecompileError := Other (message : string).

Definition map_err {A} (r : result A string) : result A PrecompileError :=
  match r with Ok a => Ok a | Err e => Err (Other ("REMASC: " +:+ e)) end.

Section remasc.
Context {J : Type} `{Journal J} {St : Type} `{TrieStore St} `{Keccak} `{Rlp} `{HeaderHash}.

(** What a call sees of the EVM context. *)
Record Ctx := mkCtx {
  journal : J;
  raw_storage : RawStorage St;
  block_number : Z;
  basefee : Z;
}.

Definition with_journal (c : Ctx) (j : J) : Ctx :=
  mkCtx j (raw_storage c) (block_number c) (basefee c).

Definition remasc_sload (c : Ctx) (key : Z) : Z := default 0 (sload (journal c) REMASC_ADDR key).

Definition remasc_sstore (c : Ctx) (key value : Z) : Ctx :=
  with_journal c (sstore (journal c) REMASC_ADDR key value).

Definition remasc_load_bool (c : Ctx) (key : Z) : bool := negb (remasc_sload c key =? 0).

Definition remasc_transfer (c : Ctx) (recipient : bytes) (amount : Z) : bool * Ctx :=
  if amount =? 0
  then (true, with_journal c (touch_account (load_account (journal c) recipient) recipient))
  else let '(ok, j) := transfer (journal c) REMASC_ADDR recipient amount in (ok, with_journal c j).

(** ** Siblings *)

Record Sibling := mkSibling {
  sib_hash : bytes;
  sib_coinbase : bytes;
  sib_paid_fees : Z;
  included_block_coinbase : bytes;
  included_height : Z;
  sib_uncle_count : Z;
}.

Definition siblings_in (candidate_number height : Z) (including_header : Header)
    (ommers : list Header) : list Sibling :=
  omap (λ o, if number o =? candidate_number
             then Some (mkSibling (header_hash o) (beneficiary o) (paid_fees o)
                          (beneficiary including_header) height (uncle_count o))
             else None) ommers.

Fixpoint collect_loop (store : BlockStore) (candidate_number : Z) (heights : list Z) :
    result (list Sibling) PrecompileError :=
  match heights with
  | [] => Ok []
  | height :: rest =>
      let? hash := map_err (canonical_hash store height) in
      match hash with
      | None => collect_loop store candidate_number rest
      | Some hash =>
          let? including_header := map_err (stored_header store hash) in
          match including_header with
          | None => collect_loop store candidate_number rest
          | Some including_header =>
              let? body := map_err (stored_body store hash) in
              let ommers := (default ([], []) body).2 in
              let? siblings := collect_loop store candidate_number rest in
              Ok (siblings_in candidate_number height including_header ommers ++ siblings)
          end
      end
  end.

Definition collect_siblings (store : BlockStore) (candidate_number current_number : Z) :
    result (list Sibling) PrecompileError :=
  let last := Z.min (u64 (candidate_number + UNCLE_GENERATION_LIMIT)) current_number in
  collect_loop store candidate_number (seqZ (u64 (candidate_number + 1)) (last - candidate_number)).

(** The loop of [is_broken_selection_rule], with [max_uncle_count] so far. *)
Fixpoint selection_loop (processing : Header) (siblings : list Sibling) (max_uncle_count : Z) : bool :=
  match siblings with
  | [] => uncle_count processing <? max_uncle_count
  | s :: rest =>
      let max_uncle_count := Z.max max_uncle_count (sib_uncle_count s) in
      if u256 (paid_fees processing * 2) <? sib_paid_fees s then true
      else if (paid_fees processing <? u256 (sib_paid_fees s * 2))
              && bytes_lt (sib_hash s) (header_hash processing) then true
      else selection_loop processing rest max_uncle_count
  end.

Definition is_broken_selection_rule (processing : Header) (siblings : list Sibling) : bool :=
  selection_loop processing siblings 0.

Record SiblingPayment := mkSiblingPayment {
  individual_publisher_reward : Z;
  publishers_surplus : Z;
  individual_miner_reward : Z;
  miners_surplus : Z;
  punishment : Z;
}.

Definition calculate (full_block_reward : Z) (previous_broken : bool) (siblings_count : Z)
    (config : RemascConfig) : SiblingPayment :=
  let publishers_reward := full_block_reward / publishers_divisor config in
  let miners_reward := u256 (full_block_reward - publishers_reward) in
  let n := siblings_count in
  let n_plus_1 := u64 (siblings_count + 1) in
  let individual_miner_base := miners_reward / n_plus_1 in
  let p := individual_miner_base / punishment_divisor config in
  mkSiblingPayment (publishers_reward / n) (publishers_reward mod n)
    (if previous_broken then u256 (individual_miner_base - p) else individual_miner_base)
    (miners_reward mod n_plus_1) (if previous_broken then p else 0).

(** ** Payments *)

Definition legacy_topic (name : string) : bytes := replicate (32 - length (ascii_bytes name)) 0 ++ ascii_bytes name.

Definition payment_log (processing_block_hash to : bytes) (value : Z) : Log :=
  let inner := rlp_bytes processing_block_hash ++ rlp_u256 value in
  mkLog REMASC_ADDR [legacy_topic "mining_fee_topic"; replicate 12 0 ++ to]
    (rlp_list_header (length inner) ++ inner).

Definition pay_mining_fees (c : Ctx) (processing_block_hash to : bytes) (value : Z) : Ctx :=
  let '(_, c) := remasc_transfer c to value in
  with_journal c (log (journal c) (payment_log processing_block_hash to value)).

Definition add_to_burned (c : Ctx) (amount : Z) : Ctx :=
  if amount =? 0 then c
  else
    let burned_key := remasc_storage_key BURNED_BALANCE_KEY in
    let burned := remasc_sload c burned_key in
    remasc_sstore c burned_key (u256 (burned + amount)).

(** [for (k, federator) in federators.iter().enumerate()], the last one apart. *)
Fixpoint pay_federators (c : Ctx) (hash : bytes) (federators : list bytes) (per_federator remainder : Z)
    : Ctx :=
  match federators with
  | [] => c
  | [federator] => pay_mining_fees c hash federator (u256 (per_federator + remainder))
  | federator :: rest =>
      pay_federators (pay_mining_fees c hash federator per_federator) hash rest per_federator remainder
  end.

(** [federators processing_number current_number]: [federation_rsk_addresses]. *)
Definition pay_to_federation (c : Ctx) (config : RemascConfig) (federators : Z → Z → list bytes)
    (processing_block_hash : bytes) (processing_block_number current_number synthetic_reward : Z)
    : Z * Ctx :=
  let federation_reward := synthetic_reward / federation_divisor config in
  let fed_key := remasc_storage_key FEDERATION_BALANCE_KEY in
  let pay_total := u256 (remasc_sload c fed_key + federation_reward) in
  let feds := federators processing_block_number current_number in
  if (length feds =? 0)%nat then (federation_reward, remasc_sstore c fed_key pay_total)
  else
    let n := Z.of_nat (length feds) in
    let per_federator := pay_total / n in
    let remainder := pay_total mod n in
    let active := rskip85_activation_height config <=? current_number in
    let min_payable := u256 (basefee c * federator_minimum_payable_gas config) in
    if active && (per_federator <? min_payable)
    then (federation_reward, remasc_sstore c fed_key pay_total)
    else
      let c := if active then remasc_sstore c fed_key 0 else c in
      (federation_reward, pay_federators c processing_block_hash feds per_federator remainder).

Fixpoint pay_publishers (c : Ctx) (hash : bytes) (siblings : list Sibling) (reward : Z) : Ctx :=
  match siblings with
  | [] => c
  | s :: rest => pay_publishers (pay_mining_fees c hash (included_block_coinbase s) reward) hash rest reward
  end.

Fixpoint pay_siblings (c : Ctx) (hash : bytes) (siblings : list Sibling) (reward late_divisor
    processing_number : Z) : Ctx :=
  match siblings with
  | [] => c
  | s :: rest =>
      let blocks_late := sat_sub (included_height s) (u64 (processing_number + 1)) in
      let late_punishment := u256 (reward * blocks_late) / late_divisor in
      let sibling_pay := u256 (reward - late_punishment) in
      let c := pay_mining_fees c hash (sib_coinbase s) sibling_pay in
      let c := add_to_burned c late_punishment in
      pay_siblings c hash rest reward late_divisor processing_number
  end.

Definition pay_with_siblings (c : Ctx) (config : RemascConfig) (processing_hash : bytes)
    (processing_header : Header) (full_block_reward : Z) (siblings : list Sibling)
    (previous_broken : bool) : Ctx :=
  let calc := calculate full_block_reward previous_broken (Z.of_nat (length siblings)) config in
  let c := pay_publishers c processing_hash siblings (individual_publisher_reward calc) in
  let c := add_to_burned c (publishers_surplus calc) in
  let c := add_to_burned c (miners_surplus calc) in
  let c := pay_siblings c processing_hash siblings (individual_miner_reward calc)
             (late_uncle_inclusion_punishment_divisor config) (number processing_header) in
  let c := if previous_broken
           then add_to_burned c (u256 (punishment calc * u64 (Z.of_nat (length siblings) + 1)))
           else c in
  pay_mining_fees c processing_hash (beneficiary processing_header) (individual_miner_reward calc).

(** ** processMinersFees *)

Definition checked_sub (x y : Z) : option Z := if y <=? x then Some (x - y) else None.

(** The part that pays out [synthetic_reward], already debited. *)
Definition distribute (c : Ctx) (config : RemascConfig) (federators : Z → Z → list bytes)
    (processing_hash : bytes) (processing_header : Header)
    (candidate_block_number current_number synthetic_reward : Z) (siblings : list Sibling)
    (previous_broken : bool) : Ctx :=
  let rsk_labs_pay := synthetic_reward / rsk_labs_divisor config in
  let labs_addr := labs_address_at config current_number in
  let c := pay_mining_fees c processing_hash labs_addr rsk_labs_pay in
  let remaining := u256 (synthetic_reward - rsk_labs_pay) in
  let '(federation_reward, c) :=
    pay_to_federation c config federators processing_hash candidate_block_number current_number
      remaining in
  let remaining := u256 (remaining - federation_reward) in
  if negb (length siblings =? 0)%nat
  then pay_with_siblings c config processing_hash processing_header remaining siblings previous_broken
  else
    let '(remaining, c) :=
      if previous_broken then
        let punishment := remaining / punishment_divisor config in
        (u256 (remaining - punishment), add_to_burned c punishment)
      else (remaining, c) in
    pay_mining_fees c processing_hash (beneficiary processing_header) remaining.

(** The part after the processing block has been found. *)
Definition process_block (c : Ctx) (config : RemascConfig) (federators : Z → Z → list bytes)
    (store : BlockStore) (candidate_block_number : Z) (processing_hash : bytes)
    (processing_header : Header) : Ctx * result unit PrecompileError :=
  let current_number := block_number c in
  let reward_key := remasc_storage_key REWARD_BALANCE_KEY in
  let reward_balance := u256 (remasc_sload c reward_key + paid_fees processing_header) in
  let c := remasc_sstore c reward_key reward_balance in
  if candidate_block_number <? synthetic_span config then (c, Ok tt)
  else
    match collect_siblings store candidate_block_number current_number with
    | Err e => (c, Err e)
    | Ok siblings =>
        let broken_key := remasc_storage_key BROKEN_SELECTION_RULE_KEY in
        let previous_broken := remasc_load_bool c broken_key in
        let broken := is_broken_selection_rule processing_header siblings in
        let broken_now := negb (length siblings =? 0)%nat && broken in
        let c := mkCtx (journal c)
                   (raw_put (raw_storage c) REMASC_ADDR broken_key (Some [if broken_now then 1 else 0]))
                   (block_number c) (basefee c) in
        let synthetic_reward := reward_balance / synthetic_span config in
        if (rskip85_activation_height config <=? current_number)
           && (synthetic_reward <? u256 (basefee c * minimum_payable_gas config))
        then (c, Ok tt)
        else
          let c := remasc_sstore c reward_key (u256 (reward_balance - synthetic_reward)) in
          (distribute c config federators processing_hash processing_header candidate_block_number
             current_number synthetic_reward siblings previous_broken, Ok tt)
    end.

Definition process_miners_fees (c : Ctx) (config : RemascConfig) (federators : Z → Z → list bytes)
    (block_store : option BlockStore) : Ctx * result unit PrecompileError :=
  match checked_sub (block_number c) (maturity config) with
  | None => (c, Ok tt)
  | Some candidate_block_number =>
      if candidate_block_number <? 1 then (c, Ok tt)
      else
        match block_store with
        | None => (c, Err (Other "REMASC: no block store configured"))
        | Some store =>
            match map_err (canonical_hash store candidate_block_number) with
            | Err e => (c, Err e)
            | Ok None => (c, Err (Other "REMASC: processing block not found"))
            | Ok (Some processing_hash) =>
                match map_err (stored_header store processing_hash) with
                | Err e => (c, Err e)
                | Ok None => (c, Err (Other "REMASC: processing header not found"))
                | Ok (Some processing_header) =>
                    process_block c config federators store candidate_block_number processing_hash
                      processing_header
                end
            end
        end
  end.

End remasc.
End Remasc.
