(* ===== verification/RemascLedger.v ===== *)
(** * REMASC's ledger: properties of crates/execution/src/remasc.rs

    [moved] relates a context to an earlier one by the payments made in between and
    the cells they left; every part of the distribution has a lemma in those terms.
    [process_conserves] shows that a call neither creates nor destroys coins and that
    every payment in it is covered, [remasc_solvent] lifts that to a chain, and
    [federation_paid_again] shows what happens before RSKIP85 when a federation
    balance has accumulated. *)
From S2P Require Import Prelude Path Varint Store Node KeyMapper RawStorage Chain Remasc.
From stdpp Require Import strings options.

Module RemascLedger.
Import Chain Store Node RawStorage Remasc.
Local Open Scope Z_scope.

(** ** Payments made and balances moved *)

Definition total (ps : list (bytes * Z)) : Z := foldr (λ p acc, p.2 + acc) 0 ps.

Definition received (a : bytes) (ps : list (bytes * Z)) : Z :=
  foldr (λ p acc, (if decide (p.1 = a) then p.2 else 0) + acc) 0 ps.

Definition nonneg (ps : list (bytes * Z)) : Prop := Forall (λ p, 0 ≤ p.2) ps.

Lemma total_app ps qs : total (ps ++ qs) = total ps + total qs.
Proof. unfold total. induction ps as [|p ps IH]; simpl; [lia|]. rewrite IH. lia. Qed.

Lemma received_app a ps qs : received a (ps ++ qs) = received a ps + received a qs.
Proof. unfold received. induction ps as [|p ps IH]; simpl; [lia|]. rewrite IH. lia. Qed.

Lemma total_one a v : total [(a, v)] = v.
Proof. simpl. lia. Qed.

Lemma received_one b a v : received b [(a, v)] = if decide (a = b) then v else 0.
Proof. simpl. case_decide; lia. Qed.

Lemma total_nonneg ps : nonneg ps → 0 ≤ total ps.
Proof. induction 1 as [|p ps Hp _ IH]; cbn [total foldr] in *; [lia|]. unfold total in IH. lia. Qed.

Lemma received_nonneg a ps : nonneg ps → 0 ≤ received a ps.
Proof.
  induction 1 as [|p ps Hp _ IH]; cbn [received foldr] in *; [lia|]. unfold received in IH.
  case_decide; lia.
Qed.

(** Two accounts together receive at most what is paid. *)
Lemma received_two a b ps : a ≠ b → nonneg ps → received a ps + received b ps ≤ total ps.
Proof.
  intros Hab. induction 1 as [|p ps Hp _ IH]; cbn [received total foldr] in *; [lia|].
  unfold received, total in IH. repeat case_decide; subst; try done; lia.
Qed.

Lemma received_le a ps : nonneg ps → received a ps ≤ total ps.
Proof.
  induction 1 as [|p ps Hp _ IH]; cbn [received total foldr] in *; [lia|].
  unfold received, total in IH. case_decide; lia.
Qed.

Definition upd (k v : Z) (f : Z → Z) : Z → Z := λ k', if k' =? k then v else f k'.

Abbreviation REWARD := (remasc_storage_key REWARD_BALANCE_KEY).
Abbreviation BURNED := (remasc_storage_key BURNED_BALANCE_KEY).
Abbreviation FEDERATION := (remasc_storage_key FEDERATION_BALANCE_KEY).

Lemma keys_distinct : REWARD ≠ BURNED ∧ REWARD ≠ FEDERATION ∧ BURNED ≠ FEDERATION.
Proof. vm_compute. split_and!; discriminate. Qed.

Lemma upd_eq k v f : upd k v f k = v.
Proof. unfold upd. by rewrite Z.eqb_refl. Qed.

Lemma upd_ne k k' v f : k' ≠ k → upd k v f k' = f k'.
Proof. unfold upd. intros Hk. by rewrite (proj2 (Z.eqb_neq k' k) Hk). Qed.

Section moves.
Context {J : Type} `{JournalLaws J} {St : Type} `{TrieStore St} `{Keccak} `{Rlp} `{HeaderHash}.
Context (c0 : Ctx (J := J) (St := St)) (hash : bytes).

(** From [c0], the payments [ps] were made and logged, and the cells of the
    contract hold [f]. *)
Record moved (c : Ctx (J := J) (St := St)) (ps : list (bytes * Z)) (f : Z → Z) : Prop := {
  moved_balance a : balance (journal c) a
    = balance (journal c0) a + received a ps - (if decide (a = REMASC_ADDR) then total ps else 0);
  moved_logs : logs (journal c)
    = logs (journal c0) ++ ((λ p, payment_log hash p.1 p.2) <$> ps);
  moved_cells k : remasc_sload c k = f k;
  moved_number : block_number c = block_number c0;
  moved_basefee : basefee c = basefee c0;
}.

(** No transfer out of REMASC can overflow a recipient. *)
Definition room : Prop := ∀ a, a ≠ REMASC_ADDR →
  balance (journal c0) a + balance (journal c0) REMASC_ADDR < 2 ^ 256.

Definition covered (ps : list (bytes * Z)) : Prop :=
  nonneg ps ∧ total ps ≤ balance (journal c0) REMASC_ADDR.

Lemma covered_prefix ps qs : covered (ps ++ qs) → covered ps.
Proof.
  intros [[Hps Hqs]%Forall_app Ht]. split; [done|]. rewrite total_app in Ht.
  pose proof (total_nonneg _ Hqs). lia.
Qed.

Lemma moved_start : moved c0 [] (λ k, remasc_sload c0 k).
Proof. split; try done; [intros a; simpl; case_decide; lia|]. simpl. by rewrite app_nil_r. Qed.

Lemma moved_ext c ps f g : moved c ps f → (∀ k, f k = g k) → moved c ps g.
Proof. intros [] Hfg. split; try done. intros k. by rewrite <- Hfg. Qed.

Lemma moved_sstore c ps f k v : moved c ps f → moved (remasc_sstore c k v) ps (upd k v f).
Proof using Type*.
  intros [Hb Hl Hc Hn Hf]. unfold remasc_sstore, with_journal. split; simpl; try done.
  - intros a. by rewrite balance_sstore.
  - by rewrite logs_sstore.
  - intros k'. unfold remasc_sload, upd in *. simpl. destruct (Z.eqb_spec k' k) as [->|Hk].
    + by rewrite sload_sstore.
    + rewrite sload_sstore_ne by congruence. apply Hc.
Qed.

Lemma moved_burn c ps f x : moved c ps f → 0 ≤ x → 0 ≤ f BURNED → f BURNED + x < 2 ^ 256 →
  moved (add_to_burned c x) ps (upd BURNED (f BURNED + x) f).
Proof using Type*.
  intros Hm Hx Hpos Hfit. unfold add_to_burned. destruct (Z.eqb_spec x 0) as [->|Hne].
  - apply (moved_ext _ _ f); [done|]. intros k. unfold upd. destruct (Z.eqb_spec k BURNED); subst; lia.
  - rewrite (moved_cells _ _ _ Hm). unfold u256. rewrite wrap_small by (unfold fits; lia).
    by apply moved_sstore.
Qed.

Lemma moved_pay c ps f a v : moved c ps f → room → covered (ps ++ [(a, v)]) →
  moved (pay_mining_fees c hash a v) (ps ++ [(a, v)]) f.
Proof using Type*.
  intros [Hb Hl Hc Hn Hf] Hroom [Hnn Ht].
  apply Forall_app in Hnn as [Hps Hv]. apply Forall_cons in Hv as [Hv _]. cbn in Hv.
  rewrite total_app, total_one in Ht.
  unfold pay_mining_fees, remasc_transfer.
  assert (∀ j, (∀ b, balance j b = balance (journal c) b + (if decide (b = a) then v else 0)
                                  - (if decide (b = REMASC_ADDR) then v else 0)) →
    logs j = logs (journal c) → (∀ k, sload j REMASC_ADDR k = sload (journal c) REMASC_ADDR k) →
    moved (with_journal c (log j (payment_log hash a v))) (ps ++ [(a, v)]) f) as Hgoal.
  { intros j Hjb Hjl Hjs. split; simpl; try done.
    - intros b. rewrite balance_log, Hjb, Hb, received_app, total_app, received_one, total_one.
      destruct (decide (a = b)) as [->|Hab]; destruct (decide (b = REMASC_ADDR)) as [->|];
        repeat case_decide; subst; try done; lia.
    - by rewrite logs_log, Hjl, Hl, fmap_app, app_assoc.
    - intros k. unfold remasc_sload. simpl. rewrite sload_log, Hjs. apply Hc. }
  destruct (Z.eqb_spec v 0) as [->|Hne].
  - cbn [with_journal journal]. apply Hgoal.
    + intros b. rewrite balance_touch_account, balance_load_account. repeat case_decide; lia.
    + by rewrite logs_touch_account, logs_load_account.
    + intros k. by rewrite sload_touch_account, sload_load_account.
  - destruct (transfer_covered (journal c) REMASC_ADDR a v) as [_ Hmv].
    + rewrite Hb, decide_True by done. pose proof (received_nonneg REMASC_ADDR ps Hps). lia.
    + intros Ha. rewrite Hb, decide_False by done.
      pose proof (received_two a REMASC_ADDR ps ltac:(done) Hps). pose proof (Hroom a ltac:(done)).
      pose proof (received_nonneg REMASC_ADDR ps Hps). lia.
    + pose proof (logs_transfer (journal c) REMASC_ADDR a v) as Hlt.
      pose proof (sload_transfer (journal c) REMASC_ADDR a v) as Hst.
      destruct (transfer (journal c) REMASC_ADDR a v) as [ok j]. cbn [with_journal journal].
      apply Hgoal; [exact Hmv|exact Hlt|]. intros k. apply Hst.
Qed.

(** Each part of the distribution, as the payments it makes and the cells it
    leaves. *)

Fixpoint fed_payments (feds : list bytes) (per_federator remainder : Z) : list (bytes * Z) :=
  match feds with
  | [] => []
  | [fed] => [(fed, per_federator + remainder)]
  | fed :: rest => (fed, per_federator) :: fed_payments rest per_federator remainder
  end.

Lemma total_fed feds per r : feds ≠ [] → total (fed_payments feds per r) = Z.of_nat (length feds) * per + r.
Proof.
  induction feds as [|fed [|fed' feds] IH]; intros Hne; [done|simpl; lia|].
  change (fed_payments (fed :: fed' :: feds) per r) with ((fed, per) :: fed_payments (fed' :: feds) per r).
  change (total (?x :: ?l)) with (x.2 + total l). rewrite IH by done. cbn [length snd]. lia.
Qed.

Lemma fed_nonneg feds per r : 0 ≤ per → 0 ≤ r → nonneg (fed_payments feds per r).
Proof.
  intros Hp Hr. induction feds as [|fed [|fed' feds] IH]; [constructor|repeat constructor; simpl; lia|].
  constructor; [done|]. exact IH.
Qed.

Lemma moved_federators feds per r : 0 ≤ per → 0 ≤ r → per + r < 2 ^ 256 → room → ∀ c ps f,
  moved c ps f → covered (ps ++ fed_payments feds per r) →
  moved (pay_federators c hash feds per r) (ps ++ fed_payments feds per r) f.
Proof using Type*.
  intros Hper Hr Hfit Hroom. induction feds as [|fed [|fed' feds] IH]; intros c ps f Hm Hcov.
  - simpl. by rewrite app_nil_r.
  - cbn [pay_federators fed_payments] in *. unfold u256. rewrite wrap_small by (unfold fits; lia).
    by apply moved_pay.
  - change (fed_payments (fed :: fed' :: feds) per r)
      with ([(fed, per)] ++ fed_payments (fed' :: feds) per r) in *.
    rewrite app_assoc in *. apply (IH (pay_mining_fees c hash fed per)); [|done].
    apply moved_pay; [done|done|]. by eapply covered_prefix.
Qed.

Lemma moved_publishers sibs r : room → ∀ c ps f,
  let qs := (λ s, (included_block_coinbase s, r)) <$> sibs in
  moved c ps f → covered (ps ++ qs) → moved (pay_publishers c hash sibs r) (ps ++ qs) f.
Proof using Type*.
  intros Hroom. induction sibs as [|s sibs IH]; intros c ps f qs Hm Hcov; subst qs.
  - simpl. by rewrite app_nil_r.
  - rewrite fmap_cons in *. rewrite cons_middle, app_assoc in *. cbn [pay_publishers].
    apply IH; [|done]. apply moved_pay; [done|done|]. by eapply covered_prefix.
Qed.

Lemma total_const {A} (g : A → bytes) r (l : list A) :
  total ((λ s, (g s, r)) <$> l) = Z.of_nat (length l) * r.
Proof.
  induction l as [|x l IH]; [done|]. rewrite fmap_cons. change (total (?x :: ?l)) with (x.2 + total l).
  rewrite IH. cbn [length snd]. lia.
Qed.

Lemma nonneg_fmap {A} (g : A → bytes * Z) (l : list A) : (∀ x, x ∈ l → 0 ≤ (g x).2) → nonneg (g <$> l).
Proof. intros Hg. apply Forall_fmap, Forall_forall. exact Hg. Qed.

(** The punishment of a sibling that was included late. *)
Definition late (num ld r : Z) (s : Sibling) : Z := r * sat_sub (included_height s) (num + 1) / ld.

Definition late_total (num ld r : Z) (sibs : list Sibling) : Z := foldr (λ s acc, late num ld r s + acc) 0 sibs.

Definition sib_payments (num ld r : Z) (sibs : list Sibling) : list (bytes * Z) :=
  (λ s, (sib_coinbase s, r - late num ld r s)) <$> sibs.

Lemma total_sib num ld r sibs :
  total (sib_payments num ld r sibs) + late_total num ld r sibs = Z.of_nat (length sibs) * r.
Proof.
  induction sibs as [|s sibs IH]; [done|]. unfold sib_payments in *. rewrite fmap_cons.
  change (total (?x :: ?l)) with (x.2 + total l). cbn [late_total foldr length snd].
  fold (late_total num ld r sibs). lia.
Qed.

(** A sibling is included at most seven blocks later. *)
Definition timely (num : Z) (s : Sibling) : Prop := num < included_height s ≤ num + 7.

Lemma late_range num ld r s : timely num s → 7 ≤ ld → 0 ≤ r →
  0 ≤ late num ld r s ≤ r ∧ 0 ≤ r * sat_sub (included_height s) (num + 1) ≤ r * 6.
Proof.
  unfold timely, late, sat_sub. intros Ht Hld Hr. set (k := Z.max _ _). assert (0 ≤ k ≤ 6) by lia.
  assert (0 ≤ r * k ≤ r * 6) by nia. split; [|done]. split; [apply Z.div_pos; lia|].
  apply Z.div_le_upper_bound; [lia|]. nia.
Qed.

Lemma late_total_range num ld r sibs : (∀ s, s ∈ sibs → timely num s) → 7 ≤ ld → 0 ≤ r →
  0 ≤ late_total num ld r sibs.
Proof.
  intros Ht Hld Hr. induction sibs as [|s sibs IH]; [done|]. cbn [late_total foldr].
  fold (late_total num ld r sibs). pose proof (late_range num ld r s (Ht s ltac:(left)) Hld Hr).
  specialize (IH (λ x Hx, Ht x (list_elem_of_further x s sibs Hx))). lia.
Qed.

Lemma moved_siblings num ld r sibs : room → 0 ≤ r → r * 6 < 2 ^ 256 → 7 ≤ ld → fits 64 (num + 1) →
  (∀ s, s ∈ sibs → timely num s) → ∀ c ps f,
  moved c ps f → covered (ps ++ sib_payments num ld r sibs) →
  0 ≤ f BURNED → f BURNED + late_total num ld r sibs < 2 ^ 256 →
  ∃ g, moved (pay_siblings c hash sibs r ld num) (ps ++ sib_payments num ld r sibs) g
    ∧ g BURNED = f BURNED + late_total num ld r sibs ∧ ∀ k, k ≠ BURNED → g k = f k.
Proof using Type*.
  intros Hroom Hr Hfit Hld Hnum. induction sibs as [|s sibs IH]; intros Ht c ps f Hm Hcov Hb Hbf.
  { exists f. simpl. rewrite app_nil_r. split_and!; [done|unfold late_total; simpl; lia|done]. }
  assert (∀ x, x ∈ sibs → timely num x) as Ht' by (intros x Hx; apply Ht; by right).
  destruct (late_range num ld r s (Ht s ltac:(left)) Hld Hr) as [Hl Hl'].
  pose proof (late_total_range num ld r sibs Ht' Hld Hr) as Hlt.
  unfold late_total in Hbf. cbn [foldr] in Hbf. fold (late_total num ld r sibs) in Hbf.
  unfold sib_payments in Hcov |- *. rewrite fmap_cons in Hcov |- *.
  rewrite cons_middle, app_assoc in Hcov |- *. fold (sib_payments num ld r sibs) in Hcov |- *.
  cbn [pay_siblings]. unfold u64, u256.
  rewrite (wrap_small 64 (num + 1)), (wrap_small 256 (r * _)) by (unfold fits in *; lia).
  fold (late num ld r s). rewrite (wrap_small 256 (r - late num ld r s)) by (unfold fits; lia).
  assert (moved (pay_mining_fees c hash (sib_coinbase s) (r - late num ld r s))
            (ps ++ [(sib_coinbase s, r - late num ld r s)]) f) as Hpay
    by (apply moved_pay; [done|done|by eapply covered_prefix]).
  apply (moved_burn _ _ _ (late num ld r s)) in Hpay; [|lia..].
  destruct (IH Ht' _ _ _ Hpay Hcov) as (g & Hg & Hgb & Hgk); rewrite ?upd_eq in *; [lia..|].
  exists g. split; [done|]. split.
  - rewrite Hgb. unfold late_total. cbn [foldr]. lia.
  - intros k Hk. rewrite Hgk, upd_ne by done. done.
Qed.

(** The split among publishers and miners loses nothing: what is not paid is
    surplus or punishment. *)
Lemma calculate_split full broken n config :
  0 < publishers_divisor config → 0 < punishment_divisor config →
  0 ≤ full < 2 ^ 256 → 1 ≤ n < 2 ^ 64 - 1 →
  let p := calculate full broken n config in
  0 ≤ individual_publisher_reward p ∧ 0 ≤ publishers_surplus p ∧ 0 ≤ individual_miner_reward p
  ∧ 0 ≤ miners_surplus p ∧ 0 ≤ punishment p ∧ (broken = false → punishment p = 0)
  ∧ n * individual_publisher_reward p + publishers_surplus p
    + (n + 1) * (individual_miner_reward p + punishment p) + miners_surplus p = full.
Proof.
  intros Hpd Hpu Hfull Hn. unfold calculate. cbn [individual_publisher_reward publishers_surplus
    individual_miner_reward miners_surplus punishment]. cbn zeta.
  set (pr := full / publishers_divisor config).
  assert (0 ≤ pr ≤ full) as Hpr.
  { split; [apply Z.div_pos; lia|]. apply Z.div_le_upper_bound; [lia|]. nia. }
  unfold u256, u64. rewrite (wrap_small 256 (full - pr)), (wrap_small 64 (n + 1)) by (unfold fits; lia).
  set (base := (full - pr) / (n + 1)).
  assert (0 ≤ base) as Hbase by (apply Z.div_pos; lia).
  pose proof (Z.div_mod (full - pr) (n + 1) ltac:(lia)) as Hdm. fold base in Hdm.
  pose proof (Z.mod_pos_bound (full - pr) (n + 1) ltac:(lia)) as Hmm.
  pose proof (Z.div_mod pr n ltac:(lia)) as Hdp. pose proof (Z.mod_pos_bound pr n ltac:(lia)) as Hmp.
  assert (0 ≤ pr / n) by (apply Z.div_pos; lia).
  set (pun := base / punishment_divisor config).
  assert (0 ≤ pun ≤ base) as Hpun.
  { split; [apply Z.div_pos; lia|]. apply Z.div_le_upper_bound; [lia|]. nia. }
  assert (base ≤ full) by nia.
  destruct broken; [rewrite wrap_small by (unfold fits; lia)|]; split_and!; try lia; intros [=].
Qed.

Lemma moved_with_siblings config h sibs broken full : room →
  0 < publishers_divisor config → 0 < punishment_divisor config →
  7 ≤ late_uncle_inclusion_punishment_divisor config →
  0 ≤ full → full * 6 < 2 ^ 256 → sibs ≠ [] → Z.of_nat (length sibs) < 2 ^ 64 - 1 →
  fits 64 (number h + 1) → (∀ s, s ∈ sibs → timely (number h) s) → ∀ c ps f,
  moved c ps f → nonneg ps → total ps + full ≤ balance (journal c0) REMASC_ADDR →
  0 ≤ f BURNED → f BURNED + full < 2 ^ 256 →
  ∃ qs g, moved (pay_with_siblings c config hash h full sibs broken) (ps ++ qs) g
    ∧ nonneg qs ∧ total qs + g BURNED = full + f BURNED ∧ f BURNED ≤ g BURNED
    ∧ ∀ k, k ≠ BURNED → g k = f k.
Proof using Type*.
  intros Hroom Hpd Hpu Hld Hfull Hfit Hne Hlen Hnum Ht c ps f Hm Hps Hcov Hb Hbf.
  unfold pay_with_siblings. set (n := Z.of_nat (length sibs)) in *.
  assert (1 ≤ n) as Hn by (unfold n; destruct sibs; [done|simpl; lia]).
  destruct (calculate_split full broken n config Hpd Hpu ltac:(lia) ltac:(lia))
    as (Hpub & Hpsur & Hmin & Hmsur & Hpun & Hpun0 & Hsum).
  set (calc := calculate full broken n config) in *. cbn zeta.
  set (num := number h) in *. set (ld := late_uncle_inclusion_punishment_divisor config) in *.
  set (r := individual_miner_reward calc) in *. set (pub := individual_publisher_reward calc) in *.
  assert (0 ≤ n * pub) by nia. assert (0 ≤ n * r) by nia. assert (0 ≤ (n + 1) * punishment calc) by nia.
  set (q1 := (λ s, (included_block_coinbase s, pub)) <$> sibs).
  set (q2 := sib_payments num ld r sibs). set (q3 := [(beneficiary h, r)]).
  pose proof (total_const included_block_coinbase pub sibs) as Ht1. fold q1 n in Ht1.
  pose proof (total_sib num ld r sibs) as Ht2. fold q2 n in Ht2.
  pose proof (late_total_range num ld r sibs Ht Hld Hmin) as Hlt.
  assert (nonneg q1) as Hn1 by (apply nonneg_fmap; intros; simpl; lia).
  assert (nonneg q2) as Hn2.
  { apply nonneg_fmap. intros x Hx. simpl. pose proof (late_range num ld r x (Ht x Hx) Hld Hmin). lia. }
  pose proof (total_nonneg _ Hn1). pose proof (total_nonneg _ Hn2).
  assert (nonneg q3) as Hn3 by (repeat constructor; simpl; lia).
  assert (covered ((ps ++ q1) ++ q2 ++ q3)) as Hall.
  { split; [by repeat apply Forall_app_2|]. rewrite !total_app. unfold q3. rewrite total_one. lia. }
  pose proof (moved_publishers sibs pub Hroom c ps f Hm (covered_prefix _ _ Hall)) as Hm1.
  apply (moved_burn _ _ _ (publishers_surplus calc)) in Hm1; [|lia..].
  apply (moved_burn _ _ _ (miners_surplus calc)) in Hm1; rewrite ?upd_eq in *; [|lia..].
  rewrite app_assoc in Hall.
  destruct (moved_siblings num ld r sibs Hroom Hmin ltac:(nia) Hld Hnum Ht _ _ _ Hm1
    (covered_prefix _ _ Hall)) as (g & Hg & Hgb & Hgk); rewrite ?upd_eq in *; [lia..|].
  match type of Hg with moved ?x _ _ => set (c3 := x) in * end.
  assert (∃ g', moved (if broken then add_to_burned c3 (u256 (punishment calc * u64 (n + 1))) else c3)
      ((ps ++ q1) ++ q2) g' ∧ g' BURNED = g BURNED + (n + 1) * punishment calc
      ∧ ∀ k, k ≠ BURNED → g' k = g k) as (g' & Hg' & Hgb' & Hgk').
  { destruct broken.
    - unfold u64, u256. rewrite (wrap_small 64 (n + 1)), (wrap_small 256 (_ * _)) by (unfold fits; nia).
      apply (moved_burn _ _ _ (punishment calc * (n + 1))) in Hg; [|nia..]. eexists. split; [exact Hg|].
      split; [rewrite upd_eq; lia|]. intros k Hk. by rewrite upd_ne.
    - exists g. rewrite (Hpun0 eq_refl). split_and!; [exact Hg|lia|done]. }
  exists (q1 ++ q2 ++ q3), g'. split_and!.
  - rewrite !app_assoc. apply moved_pay; [exact Hg'|exact Hroom|exact Hall].
  - by repeat apply Forall_app_2.
  - rewrite !total_app. unfold q3. rewrite total_one. lia.
  - lia.
  - intros k Hk. rewrite Hgk', Hgk, !upd_ne by done. done.
Qed.

Lemma div_range x d : 0 < d → 0 ≤ x → 0 ≤ x / d ≤ x.
Proof. intros Hd Hx. split; [apply Z.div_pos; lia|]. apply Z.div_le_upper_bound; [lia|]. nia. Qed.

(** Before RSKIP85 the accumulated balance is paid without being reset, so it has
    to be empty. *)
Definition federation_settled (config : RemascConfig) (cur : Z) (feds : list bytes) (fed_balance : Z) : Prop :=
  rskip85_activation_height config ≤ cur ∨ (fed_balance = 0 ∧ feds ≠ []).

Lemma moved_federation config federators cand cur reward : room →
  0 < federation_divisor config → 0 ≤ reward → ∀ c ps f,
  moved c ps f → nonneg ps → 0 ≤ f FEDERATION → f FEDERATION + reward < 2 ^ 256 →
  federation_settled config cur (federators cand cur) (f FEDERATION) →
  let fr := reward / federation_divisor config in
  total ps + fr + f FEDERATION ≤ balance (journal c0) REMASC_ADDR →
  ∃ c' qs g, pay_to_federation c config federators hash cand cur reward = (fr, c')
    ∧ moved c' (ps ++ qs) g ∧ nonneg qs ∧ total qs + g FEDERATION = fr + f FEDERATION
    ∧ 0 ≤ g FEDERATION ∧ (∀ k, k ≠ FEDERATION → g k = f k)
    ∧ (cur < rskip85_activation_height config → g FEDERATION = f FEDERATION).
Proof using Type*.
  intros Hroom Hfd Hr c ps f Hm Hps Hf Hfit Hset fr Hcov. unfold pay_to_federation.
  set (feds := federators cand cur) in *. fold fr. pose proof (div_range reward _ Hfd Hr) as Hfr. fold fr in Hfr.
  rewrite (moved_cells _ _ _ Hm).
  assert (u256 (f FEDERATION + fr) = f FEDERATION + fr) as -> by (apply wrap_small; unfold fits; lia).
  set (pt := f FEDERATION + fr) in *.
  assert (∃ g, moved (remasc_sstore c FEDERATION pt) (ps ++ []) g ∧ nonneg ([] : list (bytes * Z))
    ∧ total [] + g FEDERATION = fr + f FEDERATION ∧ 0 ≤ g FEDERATION
    ∧ (∀ k, k ≠ FEDERATION → g k = f k)) as (g0 & Hg0 & Hn0 & Hs0 & Hp0 & Hk0).
  { exists (upd FEDERATION pt f). rewrite app_nil_r. split_and!; [by apply moved_sstore|constructor| | |].
    - rewrite upd_eq. simpl. lia.
    - rewrite upd_eq. lia.
    - intros k Hk. by rewrite upd_ne. }
  unfold federation_settled in Hset.
  destruct (Nat.eqb_spec (length feds) 0) as [Hz|Hz].
  { exists (remasc_sstore c FEDERATION pt), [], g0. split_and!; try done. intros Hlt.
    destruct feds; [|done]. destruct Hset as [|[_ ?]]; [lia|done]. }
  set (n := Z.of_nat (length feds)) in *. set (active := _ <=? _).
  assert (active = true ↔ rskip85_activation_height config ≤ cur) as Hact by apply Z.leb_le.
  assert (0 < n) as Hn by lia. pose proof (div_range pt n Hn ltac:(lia)) as Hper.
  pose proof (Z.mod_pos_bound pt n Hn) as Hmod. pose proof (Z.div_mod pt n ltac:(lia)) as Hdm.
  destruct (active && _) eqn:Hlow.
  { apply andb_true_iff in Hlow as [Ha _]. exists (remasc_sstore c FEDERATION pt), [], g0.
    split_and!; try done. apply Hact in Ha. lia. }
  assert (∃ g, moved (if active then remasc_sstore c FEDERATION 0 else c) ps g
    ∧ g FEDERATION = 0 ∧ (∀ k, k ≠ FEDERATION → g k = f k)) as (g & Hg & Hgf & Hgk).
  { destruct active eqn:Ha.
    - exists (upd FEDERATION 0 f). split_and!; [by apply moved_sstore|apply upd_eq|].
      intros k Hk. by rewrite upd_ne.
    - exists f. split_and!; [done| |done]. destruct Hset as [Hs|[? _]]; [|done]. apply Hact in Hs. done. }
  assert (feds ≠ []) as Hne by (by destruct feds).
  pose proof (total_fed feds (pt / n) (pt mod n) Hne) as Htot. fold n in Htot.
  pose proof (fed_nonneg feds (pt / n) (pt mod n) ltac:(lia) ltac:(lia)) as Hnn.
  eexists _, (fed_payments feds (pt / n) (pt mod n)), g. split; [reflexivity|]. split_and!.
  - apply moved_federators; [lia|lia|nia|done|done|]. split; [by apply Forall_app_2|].
    rewrite total_app. lia.
  - done.
  - lia.
  - lia.
  - done.
  - intros Hlt. destruct Hset as [|[? _]]; lia.
Qed.

Record config_ok (config : RemascConfig) : Prop := {
  ok_maturity : 1 ≤ maturity config;
  ok_span : 0 < synthetic_span config;
  ok_labs : 0 < rsk_labs_divisor config;
  ok_federation : 0 < federation_divisor config;
  ok_punishment : 0 < punishment_divisor config;
  ok_publishers : 0 < publishers_divisor config;
  ok_late : 7 ≤ late_uncle_inclusion_punishment_divisor config;
}.

Lemma moved_distribute config federators h cand cur reward sibs broken :
  config_ok config → room → 0 ≤ reward → reward * 6 < 2 ^ 256 →
  Z.of_nat (length sibs) < 2 ^ 64 - 1 → fits 64 (number h + 1) →
  (∀ s, s ∈ sibs → timely (number h) s) → ∀ c ps f,
  moved c ps f → nonneg ps → 0 ≤ f FEDERATION → f FEDERATION + reward < 2 ^ 256 →
  0 ≤ f BURNED → f BURNED + reward < 2 ^ 256 →
  federation_settled config cur (federators cand cur) (f FEDERATION) →
  total ps + reward + f FEDERATION ≤ balance (journal c0) REMASC_ADDR →
  ∃ qs g, moved (distribute c config federators hash h cand cur reward sibs broken) (ps ++ qs) g
    ∧ nonneg qs ∧ total qs + g BURNED + g FEDERATION = reward + f BURNED + f FEDERATION
    ∧ 0 ≤ g BURNED ∧ 0 ≤ g FEDERATION ∧ g REWARD = f REWARD
    ∧ (cur < rskip85_activation_height config → g FEDERATION = f FEDERATION).
Proof using Type*.
  intros Hc Hroom Hr Hfit Hlen Hnum Ht c ps f Hm Hps Hf Hff Hb Hbf Hset Hcov. destruct Hc.
  destruct keys_distinct as (Hrb & Hrf & Hbfk). unfold distribute. cbn zeta.
  set (lp := reward / rsk_labs_divisor config). pose proof (div_range reward _ ok_labs0 Hr) as Hlp.
  fold lp in Hlp.
  assert (u256 (reward - lp) = reward - lp) as -> by (apply wrap_small; unfold fits; lia).
  set (la := labs_address_at config cur).
  assert (nonneg (ps ++ [(la, lp)])) as Hps1 by (apply Forall_app_2; [done|repeat constructor; simpl; lia]).
  assert (moved (pay_mining_fees c hash la lp) (ps ++ [(la, lp)]) f) as Hm1.
  { apply moved_pay; [done|done|]. split; [done|]. rewrite total_app, total_one. lia. }
  pose proof (div_range (reward - lp) _ ok_federation0 ltac:(lia)) as Hfr.
  destruct (moved_federation config federators cand cur (reward - lp) Hroom ok_federation0 ltac:(lia) _ _ _
    Hm1 Hps1 Hf ltac:(lia) Hset) as (c2 & q2 & g & -> & Hg & Hn2 & Hs2 & Hp2 & Hk2 & Hpre).
  { rewrite total_app, total_one. lia. }
  set (fr := (reward - lp) / federation_divisor config) in *.
  assert (u256 (reward - lp - fr) = reward - lp - fr) as -> by (apply wrap_small; unfold fits; lia).
  set (rem := reward - lp - fr) in *.
  assert (nonneg ((ps ++ [(la, lp)]) ++ q2)) as Hps2 by (by apply Forall_app_2).
  pose proof (Hk2 BURNED Hbfk) as Hgb. pose proof (Hk2 REWARD Hrf) as Hgr.
  assert (total ((ps ++ [(la, lp)]) ++ q2) + rem ≤ balance (journal c0) REMASC_ADDR) as Hcov2
    by (rewrite !total_app, total_one; lia).
  destruct (Nat.eqb_spec (length sibs) 0) as [Hz|Hz]; cbn [negb].
  - set (pun := rem / punishment_divisor config).
    pose proof (div_range rem _ ok_punishment0 ltac:(lia)) as Hpun. fold pun in Hpun.
    set (pay := if broken then rem - pun else rem). set (burn := if broken then pun else 0).
    assert (0 ≤ pay ∧ 0 ≤ burn ∧ pay + burn = rem) as (Hpay & Hburn & Hsum)
      by (unfold pay, burn; destruct broken; lia).
    exists ([(la, lp)] ++ q2 ++ [(beneficiary h, pay)]), (upd BURNED (g BURNED + burn) g).
    rewrite upd_eq, !upd_ne by done. rewrite !total_app, !total_one. split_and!; try lia; try done.
    + rewrite !app_assoc.
      assert (moved (if broken then add_to_burned c2 pun else c2) ((ps ++ [(la, lp)]) ++ q2)
                (upd BURNED (g BURNED + burn) g)) as Hm3.
      { unfold burn. destruct broken; [apply moved_burn; [done|lia..]|].
        apply (moved_ext _ _ g); [done|]. intros k. unfold upd. destruct (Z.eqb_spec k BURNED); subst; lia. }
      apply (moved_pay _ _ _ (beneficiary h) pay) in Hm3; [|done|].
      * unfold u256, pay in *. destruct broken; [|exact Hm3].
        rewrite wrap_small by (unfold fits; lia). exact Hm3.
      * split; [apply Forall_app_2; [done|repeat constructor; simpl; lia]|].
        rewrite total_app, total_one. lia.
    + repeat apply Forall_app_2; try done; repeat constructor; simpl; lia.
  - destruct (moved_with_siblings config h sibs broken rem Hroom ok_publishers0 ok_punishment0 ok_late0
      ltac:(lia) ltac:(lia) ltac:(by destruct sibs) Hlen Hnum Ht _ _ _ Hg Hps2 Hcov2 ltac:(lia) ltac:(lia))
      as (q3 & g3 & Hg3 & Hn3 & Hs3 & Hmono & Hk3).
    exists ([(la, lp)] ++ q2 ++ q3), g3. rewrite !app_assoc. rewrite (Hk3 FEDERATION), (Hk3 REWARD) by done.
    rewrite !total_app, total_one. split_and!; try lia; try done.
    repeat apply Forall_app_2; try done; repeat constructor; simpl; lia.
Qed.

End moves.
(** ** One call *)

Section process.
Context {J : Type} `{JournalLaws J} {St : Type} `{TrieStore St} `{Keccak} `{Rlp} `{HeaderHash}.

Definition owed (c : Ctx (J := J) (St := St)) : Z :=
  remasc_sload c REWARD + remasc_sload c BURNED + remasc_sload c FEDERATION.

Definition cells_nonneg (c : Ctx (J := J) (St := St)) : Prop :=
  0 ≤ remasc_sload c REWARD ∧ 0 ≤ remasc_sload c BURNED ∧ 0 ≤ remasc_sload c FEDERATION.

(** Canonical headers carry their own height, and bodies fit in memory. *)
Definition store_ok (store : BlockStore) : Prop :=
  (∀ n hash h, canonical_hash store n = Ok (Some hash) → stored_header store hash = Ok (Some h) →
     number h = n ∧ 0 ≤ paid_fees h)
  ∧ ∀ hash b, stored_body store hash = Ok (Some b) → Z.of_nat (length b.2) < 2 ^ 32.

Lemma siblings_in_spec cand height ih os :
  (∀ s, s ∈ siblings_in cand height ih os → included_height s = height)
  ∧ (length (siblings_in cand height ih os) ≤ length os)%nat.
Proof.
  unfold siblings_in. split.
  - intros s (o & _ & Ho)%list_elem_of_omap. case_match; [|done]. by injection Ho as <-.
  - induction os as [|o os IH]; [done|]. cbn [omap list_omap]. case_match; cbn [length].
    + exact (le_n_S _ _ IH).
    + exact (Nat.le_le_succ_r _ _ IH).
Qed.

Lemma collect_loop_spec store cand heights sibs : store_ok store →
  collect_loop store cand heights = Ok sibs →
  (∀ s, s ∈ sibs → included_height s ∈ heights)
  ∧ Z.of_nat (length sibs) ≤ Z.of_nat (length heights) * 2 ^ 32.
Proof.
  intros [_ Hbody]. revert sibs. induction heights as [|n heights IH]; intros sibs; cbn [collect_loop].
  { intros [= <-]. split; [by intros ? ?%elem_of_nil|simpl; lia]. }
  assert (∀ r, r = Ok sibs → r = collect_loop store cand heights →
    (∀ s, s ∈ sibs → included_height s ∈ n :: heights)
    ∧ Z.of_nat (length sibs) ≤ Z.of_nat (length (n :: heights)) * 2 ^ 32) as Hskip.
  { intros r Hr Hr'. subst r. destruct (IH sibs) as [IHa IHb]; [by rewrite <- Hr'|].
    split; [intros s Hs; right; by apply IHa|cbn [length]; lia]. }
  destruct (canonical_hash store n) as [[hash|]|e]; cbn [map_err result_bind]; [|by eauto|done].
  destruct (stored_header store hash) as [[ih|]|e]; cbn [map_err result_bind]; [|by eauto|done].
  destruct (stored_body store hash) as [b|e] eqn:Hb; cbn [map_err result_bind]; [|done].
  destruct (collect_loop store cand heights) as [rest|e]; cbn [result_bind]; [|done].
  intros [= <-]. destruct (IH rest eq_refl) as [IHa IHb]. clear Hskip IH.
  destruct (siblings_in_spec cand n ih (default ([], []) b).2) as [Ha Hl]. split.
  - intros s [Hs|Hs]%elem_of_app; [rewrite (Ha s Hs); left|right; by apply IHa].
  - rewrite length_app. cbn [length].
    assert (Z.of_nat (length (default ([], []) b).2) ≤ 2 ^ 32)
      by (destruct b as [b|]; [pose proof (Hbody _ _ Hb)|]; simpl; lia).
    lia.
Qed.

Lemma collect_siblings_spec store cand cur sibs : store_ok store → 0 ≤ cand → cand + 8 < 2 ^ 64 →
  collect_siblings store cand cur = Ok sibs →
  (∀ s, s ∈ sibs → timely cand s) ∧ Z.of_nat (length sibs) < 2 ^ 64 - 1.
Proof.
  intros Hst Hc Hfit. unfold collect_siblings, UNCLE_GENERATION_LIMIT, u64.
  rewrite !wrap_small by (unfold fits; lia). intros [Ha Hl]%collect_loop_spec; [|done]. split.
  - intros s Hs. specialize (Ha s Hs). apply elem_of_seqZ in Ha. unfold timely. lia.
  - rewrite length_seqZ in Hl. lia.
Qed.

Lemma moved_raw (c0 : Ctx (J := J) (St := St)) hash c ps f raw : moved c0 hash c ps f →
  moved c0 hash (mkCtx (journal c) raw (block_number c) (basefee c)) ps f.
Proof. intros []. by split. Qed.

Lemma process_block_moved config federators store c cand hash h :
  config_ok config → store_ok store → room c → cells_nonneg c →
  1 ≤ cand → cand + 8 < 2 ^ 64 → number h = cand → 0 ≤ paid_fees h →
  owed c + paid_fees h < 2 ^ 250 → owed c + paid_fees h ≤ balance (journal c) REMASC_ADDR →
  federation_settled config (block_number c) (federators cand (block_number c))
    (remasc_sload c FEDERATION) →
  ∃ ps g, moved c hash (process_block c config federators store cand hash h).1 ps g
    ∧ nonneg ps ∧ g REWARD + g BURNED + g FEDERATION + total ps = owed c + paid_fees h
    ∧ 0 ≤ g REWARD ∧ 0 ≤ g BURNED ∧ 0 ≤ g FEDERATION
    ∧ (block_number c < rskip85_activation_height config → g FEDERATION = remasc_sload c FEDERATION).
Proof using Type*.
  intros Hc Hst Hroom (Hr & Hb & Hf) Hcand Hfit Hnum Hpf Hbound Hsolv Hset.
  destruct keys_distinct as (Hrb & Hrf & Hbf). unfold owed in *.
  set (f0 := λ k, remasc_sload c k). unfold process_block.
  assert (u256 (remasc_sload c REWARD + paid_fees h) = remasc_sload c REWARD + paid_fees h) as ->
    by (apply wrap_small; unfold fits; lia).
  set (rb := remasc_sload c REWARD + paid_fees h) in *. cbn zeta.
  assert (moved c hash (remasc_sstore c REWARD rb) [] (upd REWARD rb f0)) as Hm1
    by (apply moved_sstore, moved_start).
  assert (∀ c1, moved c hash c1 [] (upd REWARD rb f0) → ∃ ps g, moved c hash c1 ps g ∧ nonneg ps
    ∧ g REWARD + g BURNED + g FEDERATION + total ps
      = remasc_sload c REWARD + remasc_sload c BURNED + remasc_sload c FEDERATION + paid_fees h
    ∧ 0 ≤ g REWARD ∧ 0 ≤ g BURNED ∧ 0 ≤ g FEDERATION
    ∧ (block_number c < rskip85_activation_height config → g FEDERATION = remasc_sload c FEDERATION))
    as Hstop.
  { intros c1 Hc1. exists [], (upd REWARD rb f0). split; [done|]. rewrite upd_eq, !upd_ne by done.
    unfold f0. change (total []) with 0. split_and!; try lia; try done. constructor. }
  destruct (cand <? synthetic_span config); [by apply Hstop|].
  destruct (collect_siblings store cand (block_number c)) as [sibs|e] eqn:Hcol; [|by apply Hstop].
  destruct (collect_siblings_spec store cand (block_number c) sibs Hst ltac:(lia) Hfit Hcol) as [Htimely Hlen].
  set (raw := raw_put _ _ _ _). set (c2 := mkCtx _ raw _ _).
  assert (moved c hash c2 [] (upd REWARD rb f0)) as Hm2 by (by apply moved_raw).
  destruct ((rskip85_activation_height config <=? _) && _); [by apply Hstop|].
  pose proof (div_range rb _ (ok_span _ Hc) ltac:(lia)) as Hsr. set (sr := rb / synthetic_span config) in *.
  assert (u256 (rb - sr) = rb - sr) as -> by (apply wrap_small; unfold fits; lia).
  apply (moved_sstore _ _ _ _ _ REWARD (rb - sr)) in Hm2. cbn [fst].
  set (f2 := upd REWARD (rb - sr) (upd REWARD rb f0)) in *.
  assert (f2 REWARD = rb - sr ∧ f2 BURNED = remasc_sload c BURNED ∧ f2 FEDERATION = remasc_sload c FEDERATION)
    as (Hf2r & Hf2b & Hf2f) by (unfold f2; rewrite upd_eq, !upd_ne by done; done).
  edestruct (moved_distribute c hash config federators h cand (block_number c) sr sibs)
    as (qs & g & Hg & Hnn & Hsum & Hgb & Hgf & Hgr & Hpre); [done|done|lia|lia|exact Hlen|unfold fits; lia
      |by rewrite Hnum|exact Hm2|constructor|lia|lia|lia|lia|by rewrite Hf2f|cbn [total foldr]; lia|].
  exists qs, g. rewrite app_nil_l in Hg. split; [exact Hg|]. split_and!; try lia; try done.
Qed.

(** The fees of the canonical block at height [k], if the store has it. *)
Definition fees_at (store : BlockStore) (k : Z) : Z :=
  match canonical_hash store k with
  | Ok (Some hash) => match stored_header store hash with
                      | Ok (Some h) => paid_fees h
                      | _ => 0
                      end
  | _ => 0
  end.

(** The fees of the block that matures at height [n]. *)
Definition accrued (config : RemascConfig) (store : BlockStore) (n : Z) : Z :=
  if n - maturity config <? 1 then 0 else fees_at store (n - maturity config).

(** What a call relies on: the journal's balance of the contract covers what its
    cells and the maturing block say it owes. *)
Record call_ok (config : RemascConfig) (federators : Z → Z → list bytes) (store : BlockStore)
    (c : Ctx (J := J) (St := St)) : Prop := {
  call_config : config_ok config;
  call_store : store_ok store;
  call_room : room c;
  call_cells : cells_nonneg c;
  call_number : 0 ≤ block_number c < 2 ^ 63;
  call_bound : owed c + accrued config store (block_number c) < 2 ^ 250;
  call_covered : owed c + accrued config store (block_number c) ≤ balance (journal c) REMASC_ADDR;
  call_federation : federation_settled config (block_number c)
    (federators (block_number c - maturity config) (block_number c)) (remasc_sload c FEDERATION);
}.

Lemma process_moved config federators store c : call_ok config federators store c →
  ∃ hash ps g, moved c hash (process_miners_fees c config federators (Some store)).1 ps g
    ∧ nonneg ps
    ∧ g REWARD + g BURNED + g FEDERATION + total ps = owed c + accrued config store (block_number c)
    ∧ 0 ≤ g REWARD ∧ 0 ≤ g BURNED ∧ 0 ≤ g FEDERATION
    ∧ (block_number c < rskip85_activation_height config → g FEDERATION = remasc_sload c FEDERATION).
Proof using Type*.
  intros [Hc Hst Hroom Hcells Hnum Hbound Hcov Hset]. pose proof (ok_maturity _ Hc) as Hmat.
  unfold process_miners_fees, checked_sub.
  assert (accrued config store (block_number c) = 0 → ∃ hash ps g, moved c hash c ps g ∧ nonneg ps
    ∧ g REWARD + g BURNED + g FEDERATION + total ps = owed c + accrued config store (block_number c)
    ∧ 0 ≤ g REWARD ∧ 0 ≤ g BURNED ∧ 0 ≤ g FEDERATION
    ∧ (block_number c < rskip85_activation_height config → g FEDERATION = remasc_sload c FEDERATION))
    as Hstop.
  { intros Hz. exists [], [], (λ k, remasc_sload c k). destruct Hcells as (? & ? & ?). unfold owed in *.
    split; [apply moved_start|]. change (total []) with 0. split_and!; try done; [constructor|lia]. }
  unfold accrued, fees_at in *.
  destruct (Z.leb_spec (maturity config) (block_number c)).
  2: { apply Hstop. destruct (Z.ltb_spec (block_number c - maturity config) 1); [done|lia]. }
  destruct (Z.ltb_spec (block_number c - maturity config) 1) as [|Hcand]; [by apply Hstop|].
  set (cand := block_number c - maturity config) in *.
  destruct (canonical_hash store cand) as [[hash|]|e] eqn:Hch; cbn [map_err]; [|by apply Hstop..].
  destruct (stored_header store hash) as [[h|]|e] eqn:Hh; cbn [map_err]; [|by apply Hstop..].
  destruct (proj1 Hst _ _ _ Hch Hh) as [Hhn Hpf]. exists hash.
  apply process_block_moved; try done. lia.
Qed.

End process.

(** C8: a call of REMASC is a set of covered payments.  It pays nonnegative amounts
    out of its own balance, each recipient gains exactly what the logs record, and what
    the contract's cells owe (accumulated rewards, burned coins and the federation's
    share) after the call, plus what was paid, is what they owed before plus the
    maturing block's fees: nothing is created or lost by the divisions, the surpluses,
    the punishments and the late-inclusion penalties. *)
Theorem process_conserves {J} `{JournalLaws J} {St} `{TrieStore St} `{Keccak} `{Rlp} `{HeaderHash}
    config federators store (c : Ctx (J := J) (St := St))
    (Hok : call_ok config federators store c) :
  let c' := (process_miners_fees c config federators (Some store)).1 in
  ∃ hash ps, nonneg ps
    ∧ (∀ a, balance (journal c') a = balance (journal c) a + received a ps
                                     - (if decide (a = REMASC_ADDR) then total ps else 0))
    ∧ logs (journal c') = logs (journal c) ++ ((λ p, payment_log hash p.1 p.2) <$> ps)
    ∧ owed c' + total ps = owed c + accrued config store (block_number c).
Proof.
  intros c'. destruct (process_moved config federators store c Hok)
    as (hash & ps & g & [Hb Hl Hc _ _] & Hnn & Hsum & _). exists hash, ps.
  split_and!; [done|done|done|]. unfold owed at 1. subst c'. rewrite !Hc. exact Hsum.
Qed.

(** ** A chain of blocks *)

(** The fees of blocks 1 to [n]. *)
Fixpoint cumulative (fees : Z → Z) (n : nat) : Z :=
  match n with
  | O => 0
  | S m => cumulative fees m + fees (Z.of_nat n)
  end.

(** What blocks have paid in and REMASC has not yet accounted for at height [n]. *)
Definition immature (config : RemascConfig) (fees : Z → Z) (n : nat) : Z :=
  cumulative fees n - cumulative fees (n - Z.to_nat (maturity config)).

Section chain.
Context {J : Type} `{JournalLaws J} {St : Type} `{TrieStore St} `{Keccak} `{Rlp} `{HeaderHash}.
Context (config : RemascConfig) (fees : Z → Z).

(** The transactions of the next block: they leave REMASC's cells alone and pay it
    at least the block's fees. *)
Record executed (c c1 : Ctx (J := J) (St := St)) : Prop := {
  executed_number : block_number c1 = block_number c + 1;
  executed_cells k : k ∈ [REWARD; BURNED; FEDERATION] → remasc_sload c1 k = remasc_sload c k;
  executed_paid : balance (journal c) REMASC_ADDR + fees (block_number c1)
                  ≤ balance (journal c1) REMASC_ADDR < 2 ^ 250;
  executed_room : room c1;
}.

(** The contexts after each block: its transactions, then REMASC's call, with the
    block store and the federation of that moment. *)
Inductive run : nat → Ctx (J := J) (St := St) → Prop :=
  | run_genesis c : block_number c = 0 →
      (∀ k, k ∈ [REWARD; BURNED; FEDERATION] → remasc_sload c k = 0) → run 0 c
  | run_block n c c1 c2 federators store : run n c → executed c c1 → store_ok store →
      (∀ hash h, stored_header store hash = Ok (Some h) → paid_fees h = fees (number h)) →
      (rskip85_activation_height config ≤ block_number c1
       ∨ federators (block_number c1 - maturity config) (block_number c1) ≠ []) →
      block_number c1 < 2 ^ 63 →
      process_miners_fees c1 config federators (Some store) = (c2, Ok tt) →
      run (S n) c2.

Lemma immature_step n : 1 ≤ maturity config → (∀ k, 0 ≤ fees k) →
  ∀ store, store_ok store →
  (∀ hash h, stored_header store hash = Ok (Some h) → paid_fees h = fees (number h)) →
  immature config fees (S n) + accrued config store (Z.of_nat (S n))
    ≤ immature config fees n + fees (Z.of_nat (S n))
  ∧ accrued config store (Z.of_nat (S n)) ≤ immature config fees n + fees (Z.of_nat (S n)).
Proof.
  intros Hmat Hf store [Hst _] Hfees. unfold immature, accrued.
  set (m := Z.to_nat (maturity config)).
  assert (∀ k, cumulative fees k ≤ cumulative fees (S k)) as Hmono
    by (intros k; cbn [cumulative]; pose proof (Hf (Z.of_nat (S k))); lia).
  assert (∀ k d, cumulative fees k ≤ cumulative fees (k + d)) as Hmono'.
  { intros k d. induction d as [|d IH]; [by rewrite Nat.add_0_r|].
    rewrite <- plus_n_Sm. pose proof (Hmono (k + d)%nat). lia. }
  change (cumulative fees (S n)) with (cumulative fees n + fees (Z.of_nat (S n))).
  destruct (Z.ltb_spec (Z.of_nat (S n) - maturity config) 1) as [Hlt|Hge].
  - replace (S n - m)%nat with 0%nat by lia. replace (n - m)%nat with 0%nat by lia.
    pose proof (Hmono' 0%nat n) as Hn. pose proof (Hf (Z.of_nat (S n))).
    cbn [cumulative Nat.add] in *. lia.
  - replace (S n - m)%nat with (S (n - m)) by lia.
    change (cumulative fees (S (n - m))) with (cumulative fees (n - m) + fees (Z.of_nat (S (n - m)))).
    replace (Z.of_nat (S n) - maturity config) with (Z.of_nat (S (n - m))) by lia.
    set (acc := fees_at _ _).
    assert (acc ≤ fees (Z.of_nat (S (n - m)))) as Hacc.
    { unfold acc, fees_at. destruct (canonical_hash store _) as [[hash|]|] eqn:Hch; [|apply Hf..].
      destruct (stored_header store hash) as [[h|]|] eqn:Hh; [|apply Hf..].
      destruct (Hst _ _ _ Hch Hh) as [Hn _]. by rewrite (Hfees _ _ Hh), Hn. }
    split; [lia|]. pose proof (Hmono' (S (n - m)) (m - 1)%nat) as Hn.
    replace (S (n - m) + (m - 1))%nat with n in Hn by lia.
    change (cumulative fees (S (n - m))) with (cumulative fees (n - m) + fees (Z.of_nat (S (n - m)))) in Hn.
    pose proof (Hf (Z.of_nat (S n))). lia.
Qed.

Lemma run_invariant n c : config_ok config → (∀ k, 0 ≤ fees k) → run n c →
  block_number c = Z.of_nat n ∧ cells_nonneg c
  ∧ (Z.of_nat n < rskip85_activation_height config → remasc_sload c FEDERATION = 0)
  ∧ owed c + immature config fees n ≤ balance (journal c) REMASC_ADDR.
Proof using Type*.
  intros Hc Hf. pose proof (ok_maturity _ Hc) as Hmat.
  induction 1 as [c Hn Hz|n c c1 c2 federators store Hrun IH Hex Hst Hfees Hfed Hnum Hproc].
  { unfold cells_nonneg, owed, immature. rewrite !Hz by set_solver. pose proof (balance_range (journal c) REMASC_ADDR).
    cbn [cumulative]. split_and!; try done; lia. }
  destruct IH as (IHn & IHc & IHf & IHb). destruct Hex as [Hnum1 Hcells Hpaid Hroom].
  assert (cells_nonneg c1) as Hc1 by (unfold cells_nonneg in *; by rewrite !Hcells by set_solver).
  assert (owed c1 = owed c) as Ho by (unfold owed; by rewrite !Hcells by set_solver).
  assert (block_number c1 = Z.of_nat (S n)) as Hn1 by lia.
  destruct (immature_step n Hmat Hf store Hst Hfees) as [Hstep Hacc]. rewrite Hn1 in *.
  assert (Z.of_nat (S n) < rskip85_activation_height config → remasc_sload c1 FEDERATION = 0) as Hf1
    by (intros ?; rewrite Hcells by set_solver; apply IHf; lia).
  destruct (process_moved config federators store c1) as (hash & ps & g & Hm & Hnn & Hsum & Hr & Hb & Hg & Hpre).
  { split; rewrite ?Hn1; try done; [lia..|]. unfold federation_settled.
    destruct (Z.le_gt_cases (rskip85_activation_height config) (Z.of_nat (S n))) as [|Hlt]; [by left|].
    destruct Hfed as [|Hfed]; [lia|]. right. split; [by apply Hf1|done]. }
  rewrite Hproc in Hm. cbn [fst] in Hm. destruct Hm as [Hbal _ Hcell Hnb _].
  unfold cells_nonneg, owed in *. rewrite !Hcell. rewrite Hn1 in *. split_and!; try done; try lia.
  rewrite Hbal, decide_True by done. pose proof (received_nonneg REMASC_ADDR ps Hnn). lia.
Qed.

End chain.

(** C17: REMASC can always pay what it owes.  After every block of a chain that
    starts with empty cells, the contract's balance covers its accumulated rewards, its
    burned coins, the federation's share and the fees of the blocks that have not
    matured yet. *)
Theorem remasc_solvent {J} `{JournalLaws J} {St} `{TrieStore St} `{Keccak} `{Rlp} `{HeaderHash}
    config fees n (c : Ctx (J := J) (St := St)) (Hc : config_ok config) (Hf : ∀ k, 0 ≤ fees k)
    (Hrun : run config fees n c) :
  owed c + immature config fees n ≤ balance (journal c) REMASC_ADDR.
Proof. by destruct (run_invariant config fees n c Hc Hf Hrun) as (_ & _ & _ & ?). Qed.

(** Before RSKIP85 an accumulated federation balance is paid on every call and
    never reset: with at least one federator, the call pays the whole of the stored
    balance on top of the block's share and leaves the stored balance as it was. *)
Theorem federation_paid_again {J} `{JournalLaws J} {St} `{TrieStore St} `{Keccak} `{Rlp}
    config federators hash cand cur reward (c : Ctx (J := J) (St := St))
    (Hpre : cur < rskip85_activation_height config) (Hfeds : federators cand cur ≠ [])
    (Hroom : room c) (Hd : 0 < federation_divisor config) (Hr : 0 ≤ reward)
    (Hf : 0 ≤ remasc_sload c FEDERATION)
    (Hcov : reward + remasc_sload c FEDERATION ≤ balance (journal c) REMASC_ADDR < 2 ^ 256) :
  let c' := (pay_to_federation c config federators hash cand cur reward).2 in
  remasc_sload c' FEDERATION = remasc_sload c FEDERATION
  ∧ ∃ ps, total ps = reward / federation_divisor config + remasc_sload c FEDERATION
    ∧ ∀ a, balance (journal c') a = balance (journal c) a + received a ps
                                    - (if decide (a = REMASC_ADDR) then total ps else 0).
Proof.
  unfold pay_to_federation. set (feds := federators cand cur) in *.
  pose proof (div_range reward _ Hd Hr) as Hfr. set (fr := reward / federation_divisor config) in *.
  assert (u256 (remasc_sload c FEDERATION + fr) = remasc_sload c FEDERATION + fr) as ->
    by (apply wrap_small; unfold fits; lia).
  set (pt := remasc_sload c FEDERATION + fr) in *. cbn zeta.
  destruct (Nat.eqb_spec (length feds) 0) as [Hz|Hz]; [by destruct feds|].
  destruct (Z.leb_spec (rskip85_activation_height config) cur); [lia|]. cbn [andb snd].
  set (n := Z.of_nat (length feds)) in *. pose proof (div_range pt n ltac:(lia) ltac:(lia)) as Hper.
  pose proof (Z.mod_pos_bound pt n ltac:(lia)) as Hmod. pose proof (Z.div_mod pt n ltac:(lia)) as Hdm.
  pose proof (total_fed feds (pt / n) (pt mod n) Hfeds) as Htot. fold n in Htot.
  destruct (moved_federators c hash feds (pt / n) (pt mod n) ltac:(lia) ltac:(lia) ltac:(nia) Hroom
    c [] (λ k, remasc_sload c k) (moved_start c hash)) as [Hb _ Hc _ _].
  { split; [apply fed_nonneg; lia|]. cbn [app]. lia. }
  split; [apply Hc|]. exists (fed_payments feds (pt / n) (pt mod n)). split; [lia|exact Hb].
Qed.

(** The selection rule is broken exactly when some sibling paid more than twice
    the block's fees, or paid more than half of them and has a smaller hash, or has more
    uncles than the block. *)
Theorem selection_rule_iff `{HeaderHash} processing siblings
    (Hp : 0 ≤ paid_fees processing < 2 ^ 255) (Hu : 0 ≤ uncle_count processing)
    (Hs : ∀ s, s ∈ siblings → 0 ≤ sib_paid_fees s < 2 ^ 255) :
  is_broken_selection_rule processing siblings = true ↔
  ∃ s, s ∈ siblings
    ∧ (2 * paid_fees processing < sib_paid_fees s
       ∨ (paid_fees processing < 2 * sib_paid_fees s
          ∧ bytes_lt (sib_hash s) (header_hash processing) = true)
       ∨ uncle_count processing < sib_uncle_count s).
Proof.
  unfold is_broken_selection_rule.
  assert (∀ m, selection_loop processing siblings m = true ↔
    uncle_count processing < m ∨ ∃ s, s ∈ siblings
      ∧ (2 * paid_fees processing < sib_paid_fees s
         ∨ (paid_fees processing < 2 * sib_paid_fees s
            ∧ bytes_lt (sib_hash s) (header_hash processing) = true)
         ∨ uncle_count processing < sib_uncle_count s)) as Hloop.
  2: { rewrite Hloop. split; [intros [?|?]; [lia|done]|by right]. }
  induction siblings as [|s siblings IH]; intros m; cbn [selection_loop].
  { rewrite Z.ltb_lt. split; [by left|]. intros [?|(? & ?%elem_of_nil & _)]; done. }
  setoid_rewrite elem_of_cons.
  pose proof (Hs s ltac:(left)) as Hss. unfold u256. rewrite !wrap_small by (unfold fits; lia).
  destruct (Z.ltb_spec (paid_fees processing * 2) (sib_paid_fees s)) as [Hbig|Hbig].
  { split; [|done]. intros _. right. exists s. split; [by left|]. left. lia. }
  destruct (Z.ltb_spec (paid_fees processing) (sib_paid_fees s * 2)) as [Hhalf|Hhalf]; cbn [andb].
  - destruct (bytes_lt (sib_hash s) (header_hash processing)) eqn:Hlt.
    { split; [|done]. intros _. right. exists s. split; [by left|]. right. left. split; [lia|done]. }
    rewrite IH by (intros x Hx; apply Hs; by right). split.
    + intros [Hm|(x & Hx & Hbr)]; [|right; exists x; eauto].
      destruct (Z.max_spec m (sib_uncle_count s)) as [[? He]|[? He]]; rewrite He in Hm; [|by left].
      right. exists s. eauto.
    + intros [Hm|(x & [->|Hx] & Hbr)]; [left; lia| |right; exists x; eauto].
      left. destruct Hbr as [?|[[_ ?]|?]]; [lia|congruence|lia].
  - rewrite IH by (intros x Hx; apply Hs; by right). split.
    + intros [Hm|(x & Hx & Hbr)]; [|right; exists x; eauto].
      destruct (Z.max_spec m (sib_uncle_count s)) as [[? He]|[? He]]; rewrite He in Hm; [|by left].
      right. exists s. eauto.
    + intros [Hm|(x & [->|Hx] & Hbr)]; [left; lia| |right; exists x; eauto].
      left. destruct Hbr as [?|[[? _]|?]]; lia.
Qed.

(** ** Witnesses *)

(** A journal of plain functions. *)
Record PlainJournal := mkPlain {
  plain_cells : bytes → Z → option Z;
  plain_balance : bytes → N;
  plain_logs : list Log;
}.

Definition plain_transfer (j : PlainJournal) (from to : bytes) (v : Z) : bool * PlainJournal :=
  if (Z.of_N (plain_balance j from) <? v) || (v <? 0)
     || (negb (bool_decide (from = to)) && (2 ^ 256 <=? Z.of_N (plain_balance j to) + v))
  then (false, j)
  else (true, mkPlain (plain_cells j)
    (λ a, Z.to_N (Z.of_N (plain_balance j a) + (if decide (a = to) then v else 0)
                  - (if decide (a = from) then v else 0))) (plain_logs j)).

#[local] Instance plain_journal : Journal PlainJournal := {
  sload j a k := plain_cells j a k;
  sstore j a k v := mkPlain (λ a' k', if decide ((a, k) = (a', k')) then Some v else plain_cells j a' k')
                      (plain_balance j) (plain_logs j);
  transfer := plain_transfer;
  load_account j _ := j;
  touch_account j _ := j;
  log j l := mkPlain (plain_cells j) (plain_balance j) (plain_logs j ++ [l]);
  balance j a := Z.of_N (plain_balance j a);
  logs := plain_logs;
}.

#[local] Instance plain_laws : JournalLaws PlainJournal.
Proof.
  split; simpl; try done.
  - intros. lia.
  - intros. by rewrite decide_True.
  - intros. by rewrite decide_False.
  - intros j from to v a k. unfold plain_transfer. by case_match.
  - intros j from to v. unfold plain_transfer. by case_match.
  - intros j from to v Hv. unfold plain_transfer. by rewrite (proj2 (Z.ltb_lt _ _) Hv).
  - intros j from to v Hv Hto. unfold plain_transfer.
    destruct (Z.ltb_spec (Z.of_N (plain_balance j from)) v); [lia|].
    destruct (Z.ltb_spec v 0); [lia|]. cbn [orb].
    destruct (negb (bool_decide (from = to)) && _) eqn:Ho.
    { apply andb_true_iff in Ho as [Hne Hbig]. apply negb_true_iff, bool_decide_eq_false in Hne.
      apply Z.leb_le in Hbig. specialize (Hto Hne). lia. }
    split; [done|]. intros a. cbn [snd plain_balance]. rewrite Z2N.id; [done|]. repeat case_decide; subst; lia.
Qed.

#[local] Existing Instance poly_keccak.
#[local] Instance plain_rlp : Rlp := {
  rlp_bytes b := (128 + Z.of_nat (length b)) :: b;
  rlp_u256 v := [v mod 256];
  rlp_list_header n := [192 + Z.of_nat n];
}.
#[local] Instance plain_hashes : HeaderHash := {
  header_hash h := be_bytes 32 (number h) ++ extra_data h;
  merged_mining_hash h := be_bytes 32 (number h);
  length_merged_mining_hash h := length_be_bytes 32 (number h);
}.

Definition plain_header (n fees : Z) (miner extra : bytes) : Header :=
  mkHeader [] [] miner [] [] [] [] None 0 n 0 0 0 extra fees 0 0 None None None None None None None.

(** Blocks 10 and 12, the second with an uncle of height 10. *)
Definition plain_store : BlockStore := mkBlockStore
  (λ n, Ok (if n =? 10 then Some [10] else if n =? 12 then Some [12] else None))
  (λ hash, Ok (if decide (hash = [10]) then Some (plain_header 10 1000000 [1] [])
               else if decide (hash = [12]) then Some (plain_header 12 500 [2] []) else None))
  (λ hash, Ok (if decide (hash = [12]) then Some ([], [plain_header 10 900000 [3] [7]]) else None)).

Definition plain_context (n : Z) (remasc : N) : Ctx (J := PlainJournal) (St := MemoryTrieStore) :=
  mkCtx (mkPlain (λ _ _, None) (λ a, if decide (a = REMASC_ADDR) then remasc else 0%N) [])
    default_raw n 1.

Definition plain_federators (_ _ : Z) : list bytes := [[4]; [5]].

Lemma plain_store_ok : store_ok plain_store.
Proof.
  split.
  - intros n hash h. simpl. intros Hn Hh. destruct (Z.eqb_spec n 10) as [->|]; [|destruct (Z.eqb_spec n 12) as [->|]];
      [injection Hn as <-..|done]; vm_compute in Hh; injection Hh as <-; simpl; lia.
  - intros hash b. simpl. case_decide; [|done]. intros [= <-]. simpl. lia.
Qed.

Lemma plain_room n v : (v < 2 ^ 250)%N → room (plain_context n v).
Proof.
  intros Hv a Ha. unfold plain_context, balance, plain_journal. cbn [journal plain_balance].
  rewrite decide_False, decide_True by done. lia.
Qed.

Lemma remasc_networks_ok : config_ok remasc_mainnet ∧ config_ok remasc_testnet ∧ config_ok remasc_regtest.
Proof. split_and!; split; vm_compute; done. Qed.

Lemma plain_call_ok : call_ok remasc_regtest plain_federators plain_store (plain_context 20 2000000).
Proof.
  split.
  - apply remasc_networks_ok.
  - exact plain_store_ok.
  - by apply plain_room.
  - vm_compute. split_and!; discriminate.
  - simpl. lia.
  - vm_compute. reflexivity.
  - vm_compute. discriminate.
  - left. vm_compute. discriminate.
Qed.

Lemma process_conserves_witness :
  ∃ hash ps, nonneg ps
    ∧ logs (journal (process_miners_fees (plain_context 20 2000000) remasc_regtest plain_federators
                       (Some plain_store)).1) = [] ++ ((λ p, payment_log hash p.1 p.2) <$> ps).
Proof.
  destruct (process_conserves remasc_regtest plain_federators plain_store (plain_context 20 2000000)
    plain_call_ok) as (hash & ps & Hnn & _ & Hlogs & _).
  exists hash, ps. split; [exact Hnn|exact Hlogs].
Defined.

(** Two blocks with a maturity of one block: the second call pays out the first
    block's fees. *)
Definition quick_config : RemascConfig := mkRemasc 1 1 5 100 10 10 20 [8] [8] 0 0 0 0 [].
Definition quick_store : BlockStore := mkBlockStore
  (λ n, Ok (if n =? 1 then Some [1] else None))
  (λ hash, Ok (if decide (hash = [1]) then Some (plain_header 1 1000 [1] []) else None))
  (λ _, Ok None).
Definition quick_fees (k : Z) : Z := if k =? 1 then 1000 else 7.
Definition after_call (c : Ctx (J := PlainJournal) (St := MemoryTrieStore)) :=
  (process_miners_fees c quick_config plain_federators (Some quick_store)).1.

Lemma quick_block n c c1 : run quick_config quick_fees n c → executed quick_fees c c1 →
  0 ≤ block_number c1 < 2 ^ 63 →
  (process_miners_fees c1 quick_config plain_federators (Some quick_store)).2 = Ok tt →
  run quick_config quick_fees (S n) (after_call c1).
Proof.
  intros Hrun Hex Hn Hok. eapply (run_block _ _ n c c1 _ plain_federators quick_store); try done.
  - split; [|done]. intros k hash h. simpl. intros Hk. destruct (Z.eqb_spec k 1) as [->|]; [|done].
    injection Hk as <-. vm_compute. intros [= <-]. split; [done|]. vm_compute. discriminate.
  - intros hash h. simpl. case_decide; [|done]. by intros [= <-].
  - right. done.
  - lia.
  - unfold after_call. by rewrite <- Hok, <- surjective_pairing.
Qed.

Lemma remasc_solvent_witness :
  owed (after_call (plain_context 2 1007)) + immature quick_config quick_fees 2
  ≤ balance (journal (after_call (plain_context 2 1007))) REMASC_ADDR.
Proof.
  apply (remasc_solvent quick_config quick_fees 2).
  - split; vm_compute; done.
  - intros k. unfold quick_fees. case_match; lia.
  - apply (quick_block 1 (after_call (plain_context 1 1000)) (plain_context 2 1007)).
    + apply (quick_block 0 (plain_context 0 0) (plain_context 1 1000)).
      * apply run_genesis; [reflexivity|]. intros k Hk. reflexivity.
      * split; [reflexivity|reflexivity|vm_compute; split; done|by apply plain_room].
      * simpl. lia.
      * vm_compute. reflexivity.
    + split; [reflexivity|reflexivity|vm_compute; split; done|by apply plain_room].
    + simpl. lia.
    + vm_compute. reflexivity.
Defined.

Lemma federation_paid_again_witness :
  remasc_sload (pay_to_federation (remasc_sstore (plain_context 20 5000) FEDERATION 300) remasc_mainnet
                  plain_federators [9] 10 20 1000).2 FEDERATION = 300.
Proof.
  refine (proj1 (federation_paid_again remasc_mainnet plain_federators [9] 10 20 1000
    (remasc_sstore (plain_context 20 5000) FEDERATION 300) _ _ _ _ _ _ _)).
  - vm_compute. reflexivity.
  - done.
  - exact (plain_room 20 5000 ltac:(lia)).
  - vm_compute. reflexivity.
  - lia.
  - vm_compute. discriminate.
  - vm_compute. split; [discriminate|reflexivity].
Defined.

Lemma selection_rule_iff_witness :
  is_broken_selection_rule (plain_header 10 100 [] [2]) [mkSibling [] [] 150 [] 11 0] = true.
Proof.
  apply (selection_rule_iff (plain_header 10 100 [] [2]) [mkSibling [] [] 150 [] 11 0]).
  - simpl. lia.
  - simpl. lia.
  - intros s ->%list_elem_of_singleton. simpl. lia.
  - exists (mkSibling [] [] 150 [] 11 0). split; [left|]. right. left. split; [simpl; lia|vm_compute; reflexivity].
Defined.

End RemascLedger.
