(* ===== verification/Pmt.v ===== *)
(** * Partial Merkle trees: crates/execution/src/bridge/pmt.rs

    The BIP37 proofs the Bridge receives: their wire format, the extraction of the
    matched transactions, and the single-path branches of
    [getBtcTransactionConfirmations].  MerkleTree relates them to Bitcoin's Merkle tree. *)
From S2P Require Import Prelude Chain Sha256 MergedMining.
From stdpp Require Import options.

Module Pmt.
Import MergedMining.
Local Open Scope Z_scope.

(** A computation that may panic. *)
Inductive outcome (A : Type) :=
  | Return (a : A)
  | Panic.
Arguments Return {_} _.
Arguments Panic {_}.

(** ** Parsing *)

Record PartialMerkleTree := mkPmt {
  tx_count : Z;
  hashes : list bytes;
  flag_bits : list bool;
}.

Definition read_varint (data : bytes) : option (Z * nat) :=
  match data with
  | [] => None
  | first :: rest =>
      if first <=? 0xFC then Some (first, 1%nat)
      else if first =? 0xFD then
        if (length data <? 3)%nat then None else Some (of_le (take 2 rest), 3%nat)
      else if first =? 0xFE then
        if (length data <? 5)%nat then None else Some (of_le (take 4 rest), 5%nat)
      else if (length data <? 9)%nat then None else Some (of_le (take 8 rest), 9%nat)
  end.

(** The loop over [n_hashes], stopping where the code returns [None]. *)
Fixpoint read_hashes (n : nat) (data : bytes) (offset : nat) : option (list bytes) :=
  match n with
  | O => Some []
  | S n' =>
      if (length data <? offset + 32)%nat then None
      else
        rest ← read_hashes n' data (offset + 32);
        Some (slice data offset (offset + 32) :: rest)
  end.

Definition byte_bits (byte : Z) : list bool :=
  (λ bit, Z.land (Z.shiftr byte (Z.of_nat bit)) 1 =? 1) <$> seq 0 8.

(** [Vec::with_capacity(n)] of [size]-byte elements. *)
Definition capacity_ok (n size : Z) : bool := n * size <? 2 ^ 63.

Definition parse (data : bytes) : outcome (option PartialMerkleTree) :=
  if (length data <? 4)%nat then Return None
  else
    let tx_count := of_le (take 4 data) in
    match read_varint (drop 4 data) with
    | None => Return None
    | Some (n_hashes, varint_len) =>
        let offset := (4 + varint_len)%nat in
        if negb (capacity_ok n_hashes 32) then Panic
        else
          match read_hashes (Z.to_nat n_hashes) data offset with
          | None => Return None
          | Some hashes =>
              let offset := (offset + 32 * Z.to_nat n_hashes)%nat in
              match read_varint (drop offset data) with
              | None => Return None
              | Some (n_flag_bytes, varint_len) =>
                  let offset := (offset + varint_len)%nat in
                  if Z.of_nat (length data) <? u64 (Z.of_nat offset + n_flag_bytes) then Return None
                  else if negb (capacity_ok (u64 (n_flag_bytes * 8)) 1) then Panic
                  else if Z.of_nat (length data) <? Z.of_nat offset + n_flag_bytes then Panic
                  else
                    let bytes := slice data offset (offset + Z.to_nat n_flag_bytes) in
                    Return (Some (mkPmt tx_count hashes (concat (byte_bits <$> bytes))))
              end
          end
    end.

Definition checked (x : Z) : option Z := if x <? 2 ^ 64 then Some x else None.

Definition has_expected_size (data : bytes) : bool :=
  if (length data <? 4)%nat then false
  else
    match read_varint (drop 4 data) with
    | None => false
    | Some (n_hashes, varint_len) =>
        let offset := 4 + Z.of_nat varint_len in
        match hb ← checked (n_hashes * 32); checked (offset + hb) with
        | None => false
        | Some offset =>
            if Z.of_nat (length data) <? offset then false
            else
              match read_varint (drop (Z.to_nat offset) data) with
              | None => false
              | Some (n_flag_bytes, varint_len) =>
                  match o ← checked (offset + Z.of_nat varint_len); checked (o + n_flag_bytes) with
                  | None => false
                  | Some offset => offset =? Z.of_nat (length data)
                  end
              end
        end
    end.

(** ** The shape of the tree *)

Fixpoint tree_height_loop (fuel : nat) (size : Z) (height : nat) : option nat :=
  match fuel with
  | O => None
  | S fuel' => if size >? 1 then tree_height_loop fuel' ((size + 1) / 2) (S height) else Some height
  end.

(** A [u32] halves to 1 in at most 32 rounds. *)
Definition tree_height (tx_count : Z) : option nat := tree_height_loop 33 tx_count 0.

(** Only called for the level below a node, so [height] is at most 31. *)
Definition tree_width (tx_count : Z) (height : nat) : Z :=
  Z.shiftr (u32 (u32 (tx_count + Z.shiftl 1 (Z.of_nat height)) - 1)) (Z.of_nat height).

Section hashing.
Context `{Sha2}.

Definition combine_hashes (l r : bytes) : bytes := sha2_digest (sha2_digest (l ++ r)).

(** ** Extraction *)

(** [bits_used], [hashes_used] and [matched]. *)
Record Cursor := mkCursor { bits_used : nat; hashes_used : nat; matched : list bytes }.

Fixpoint recursive_extract (t : PartialMerkleTree) (height : nat) (pos : Z) (s : Cursor) :
    option (bytes * Cursor) :=
  parent_of_match ← flag_bits t !! bits_used s;
  let s := mkCursor (bits_used s + 1) (hashes_used s) (matched s) in
  let consume (leaf_match : bool) : option (bytes * Cursor) :=
    hash ← hashes t !! hashes_used s;
    Some (hash, mkCursor (bits_used s) (hashes_used s + 1)
                  (if leaf_match then matched s ++ [hash] else matched s)) in
  match height with
  | O => consume parent_of_match
  | S h =>
      if negb parent_of_match then consume false
      else
        '(l, s) ← recursive_extract t h (u32 (pos * 2)) s;
        if u32 (u32 (pos * 2) + 1) <? tree_width (tx_count t) h then
          '(r, s) ← recursive_extract t h (u32 (u32 (pos * 2) + 1)) s;
          if decide (l = r) then None else Some (combine_hashes l r, s)
        else Some (combine_hashes l l, s)
  end.

Record PmtResult := mkResult { merkle_root : bytes; matched_hashes : list bytes }.

Definition div_ceil (x y : nat) : nat := (x + (y - 1)) / y.

Definition extract_matches (t : PartialMerkleTree) : option PmtResult :=
  if tx_count t =? 0 then None
  else if tx_count t <? Z.of_nat (length (hashes t)) then None
  else
    height ← tree_height (tx_count t);
    '(root, s) ← recursive_extract t height 0 (mkCursor 0 0 []);
    if negb (hashes_used s =? length (hashes t))%nat then None
    else if negb (div_ceil (bits_used s) 8 =? div_ceil (length (flag_bits t)) 8)%nat then None
    else Some (mkResult root (matched s)).

(** ** Branches *)

Record MerkleBranch := mkBranch { branch_hashes : list bytes; path : Z }.

(** The low four bytes of the ABI word at [offset]. *)
Definition abi_u32 (args : bytes) (offset : nat) : Z := of_be (slice args (offset + 28) (offset + 32)).

Fixpoint read_abi_hashes (n : nat) (args : bytes) (offset : nat) : option (list bytes) :=
  match n with
  | O => Some []
  | S n' =>
      if (length args <? offset + 32)%nat then None
      else
        rest ← read_abi_hashes n' args (offset + 32);
        Some (slice args offset (offset + 32) :: rest)
  end.

Definition from_abi_args (args : bytes) : option (MerkleBranch * bytes * bytes) :=
  if (length args <? 128)%nat then None
  else
    let tx_hash := slice args 0 32 in
    let block_hash := slice args 32 64 in
    let path := abi_u32 args 64 in
    let array_offset := Z.to_nat (abi_u32 args 96) in
    if (length args <? array_offset + 32)%nat then None
    else
      let count := abi_u32 args array_offset in
      hashes ← read_abi_hashes (Z.to_nat count) args (array_offset + 32);
      Some (mkBranch (reverse <$> hashes) path, reverse tx_hash, block_hash).

(** The shift amount of a 32-bit [>>] is taken modulo 32. *)
Fixpoint reduce_loop (hashes : list bytes) (path : Z) (i : nat) (current : bytes) : bytes :=
  match hashes with
  | [] => current
  | sibling :: rest =>
      let is_right := Z.land (Z.shiftr path (Z.of_nat (i mod 32))) 1 =? 1 in
      reduce_loop rest path (S i)
        (if is_right then combine_hashes sibling current else combine_hashes current sibling)
  end.

Definition reduce_from (b : MerkleBranch) (tx_hash : bytes) : bytes :=
  reduce_loop (branch_hashes b) (path b) 0 tx_hash.

End hashing.

End Pmt.
