(* ===== verification/MerkleTree.v ===== *)
(** * Properties of crates/execution/src/bridge/pmt.rs

    The reference is Bitcoin's Merkle tree, level by level.  A partial tree that
    extracts to the root of a block only matches transactions of the block, or the
    hash collides; the partial tree BIP37's traversal builds is accepted and matches
    exactly the selected transactions; a branch to the root starts at a transaction.

    The extraction computes widths in 32 bits, which is right below 2^31
    transactions; [tree_width_wraps] shows what happens above. *)
From S2P Require Import Prelude Path Varint Chain Sha256 MergedMining Pmt.
From stdpp Require Import options.

Module MerkleTree.
Import MergedMining Pmt.
Local Open Scope Z_scope.

(** ** The reference: Bitcoin's Merkle tree, level by level *)

Section reference.
Context `{Sha2}.

(** Pairs are hashed together, an odd last node with itself. *)
Fixpoint next_level (l : list bytes) : list bytes :=
  match l with
  | [] => []
  | [a] => [combine_hashes a a]
  | a :: b :: rest => combine_hashes a b :: next_level rest
  end.

Fixpoint level (txs : list bytes) (h : nat) : list bytes :=
  match h with
  | O => txs
  | S h' => next_level (level txs h')
  end.

(** The transactions below node [pos] of level [h]. *)
Definition leaves {A} (txs : list A) (h pos : nat) : list A := take (2 ^ h) (drop (pos * 2 ^ h) txs).

(** The strings that are hashed to build the next level, and all levels up to [h]. *)
Fixpoint level_inputs (l : list bytes) : list bytes :=
  match l with
  | [] => []
  | [a] => [a ++ a]
  | a :: b :: rest => (a ++ b) :: level_inputs rest
  end.

Fixpoint tree_inputs (txs : list bytes) (h : nat) : list bytes :=
  match h with
  | O => []
  | S h' => level_inputs (level txs h') ++ tree_inputs txs h'
  end.

(** The strings [recursive_extract] hashes. *)
Fixpoint extract_inputs (t : PartialMerkleTree) (h : nat) (pos : Z) (s : Cursor) : list bytes :=
  match h, flag_bits t !! bits_used s with
  | S h', Some true =>
      let s := mkCursor (bits_used s + 1) (hashes_used s) (matched s) in
      extract_inputs t h' (u32 (pos * 2)) s ++
      match recursive_extract t h' (u32 (pos * 2)) s with
      | Some (l, s) =>
          if u32 (u32 (pos * 2) + 1) <? tree_width (tx_count t) h' then
            extract_inputs t h' (u32 (u32 (pos * 2) + 1)) s ++
            match recursive_extract t h' (u32 (u32 (pos * 2) + 1)) s with
            | Some (r, _) => [l ++ r]
            | None => []
            end
          else [l ++ l]
      | None => []
      end
  | _, _ => []
  end.

(** The strings [reduce_loop] hashes. *)
Fixpoint reduce_inputs (hs : list bytes) (path : Z) (i : nat) (cur : bytes) : list bytes :=
  match hs with
  | [] => []
  | sibling :: rest =>
      let x := if Z.land (Z.shiftr path (Z.of_nat (i mod 32))) 1 =? 1 then sibling ++ cur else cur ++ sibling in
      x :: reduce_inputs rest path (S i) (sha2_digest (sha2_digest x))
  end.

(** What is hashed to evaluate a partial tree, and to build the tree of a block. *)
Definition proof_inputs (t : PartialMerkleTree) : list bytes :=
  match tree_height (tx_count t) with
  | Some h => extract_inputs t h 0 (mkCursor 0 0 [])
  | None => []
  end.

Definition block_inputs (txs : list bytes) : list bytes :=
  match tree_height (Z.of_nat (length txs)) with Some h => tree_inputs txs h | None => [] end.

(** Two different strings of the given lists have one double hash. *)
Definition clash (xs ys : list bytes) : Prop :=
  Exists (λ x, Exists (λ y, x ≠ y ∧ sha2_digest (sha2_digest x) = sha2_digest (sha2_digest y)) ys) xs.

Lemma clash_intro xs ys x y : x ∈ xs → y ∈ ys → x ≠ y →
  sha2_digest (sha2_digest x) = sha2_digest (sha2_digest y) → clash xs ys.
Proof. intros. apply Exists_exists. exists x. split; [done|]. apply Exists_exists. by exists y. Qed.

Lemma clash_mono xs ys xs' ys' : xs ⊆ xs' → ys ⊆ ys' → clash xs ys → clash xs' ys'.
Proof.
  intros Hx Hy (x & Hxs & (y & Hys & Hne & He)%Exists_exists)%Exists_exists.
  eapply clash_intro; [by apply Hx|by apply Hy|done|done].
Qed.

Lemma level_inputs_lookup l i :
  level_inputs l !! i = a ← l !! (2 * i)%nat; Some (a ++ default a (l !! (2 * i + 1)%nat)).
Proof.
  revert l. induction i as [|i IH]; intros [|a [|b l]]; try done.
  replace (2 * S i)%nat with (S (S (2 * i))) by lia.
  replace (S (S (2 * i)) + 1)%nat with (S (S (2 * i + 1))) by lia. apply IH.
Qed.

Lemma next_level_lookup l i :
  next_level l !! i = a ← l !! (2 * i)%nat; Some (combine_hashes a (default a (l !! (2 * i + 1)%nat))).
Proof.
  revert l. induction i as [|i IH]; intros [|a [|b l]]; try done.
  replace (2 * S i)%nat with (S (S (2 * i))) by lia.
  replace (S (S (2 * i)) + 1)%nat with (S (S (2 * i + 1))) by lia. apply IH.
Qed.

Lemma length_next_level l : Z.of_nat (length (next_level l)) = (Z.of_nat (length l) + 1) / 2.
Proof.
  assert (∀ n, (length l ≤ n)%nat →
    Z.of_nat (length (next_level l)) = (Z.of_nat (length l) + 1) / 2) as Hgen; [|by apply (Hgen (length l))].
  intros n. revert l. induction n as [|n IH]; intros [|a [|b l]] Hn; try done; [simpl in *; lia..|].
  cbn [next_level length] in *. rewrite Nat2Z.inj_succ, IH by lia.
  replace (Z.of_nat (S (S (length l))) + 1) with (Z.of_nat (length l) + 1 + 1 * 2) by lia.
  rewrite Z.div_add by lia. lia.
Qed.

Lemma length_level txs h :
  Z.of_nat (length (level txs h)) = (Z.of_nat (length txs) + 2 ^ Z.of_nat h - 1) / 2 ^ Z.of_nat h.
Proof.
  induction h as [|h IH]; cbn [level].
  - rewrite Z.div_1_r. lia.
  - rewrite length_next_level, IH. assert (0 < 2 ^ Z.of_nat h) by lia.
    replace ((Z.of_nat (length txs) + 2 ^ Z.of_nat h - 1) / 2 ^ Z.of_nat h + 1)
      with ((Z.of_nat (length txs) + 2 ^ Z.of_nat h - 1 + 1 * 2 ^ Z.of_nat h) / 2 ^ Z.of_nat h)
      by (rewrite Z.div_add by lia; lia).
    rewrite Z.div_div by lia. rewrite Nat2Z.inj_succ, Z.pow_succ_r by lia. f_equal; lia.
Qed.

Lemma tree_width_level txs h n : n = Z.of_nat (length txs) → 0 < n < 2 ^ 31 → (h ≤ 31)%nat →
  tree_width n h = Z.of_nat (length (level txs h)).
Proof.
  intros -> Hn Hh. unfold tree_width. rewrite length_level, Z.shiftl_1_l, Z.shiftr_div_pow2 by lia.
  assert (0 < 2 ^ Z.of_nat h ≤ 2 ^ 31) by (split; [lia|]; apply Z.pow_le_mono_r; lia).
  unfold u32. rewrite (wrap_small 32 (_ + _)) by (unfold fits; lia).
  by rewrite wrap_small by (unfold fits; lia).
Qed.

(** Nodes of a level and the leaves below them. *)
Lemma pow2_pos h : (0 < 2 ^ h)%nat.
Proof. pose proof (Nat.pow_nonzero 2 h). lia. Qed.

Lemma level_bound txs h pos : (pos < length (level txs h))%nat ↔ (pos * 2 ^ h < length txs)%nat.
Proof.
  pose proof (length_level txs h) as Hl. pose proof (pow2_pos h).
  replace (2 ^ Z.of_nat h) with (Z.of_nat (2 ^ h)) in Hl by (rewrite Nat2Z.inj_pow; done). set (p := (2 ^ h)%nat) in *.
  rewrite Nat2Z.inj_lt, Hl. rewrite (Nat2Z.inj_lt (pos * p)), Nat2Z.inj_mul. split; intros Hlt.
  - assert (Z.of_nat pos + 1 ≤ (Z.of_nat (length txs) + Z.of_nat p - 1) / Z.of_nat p) as Hle by lia.
    pose proof (Z.mul_div_le (Z.of_nat (length txs) + Z.of_nat p - 1) (Z.of_nat p) ltac:(lia)). nia.
  - apply Z.lt_le_trans with (Z.of_nat pos + 1); [lia|]. apply Z.div_le_lower_bound; [lia|]. nia.
Qed.

Lemma leaves_split {A} (txs : list A) h pos :
  leaves txs (S h) pos = leaves txs h (2 * pos) ++ leaves txs h (2 * pos + 1).
Proof.
  unfold leaves. rewrite Nat.pow_succ_r'.
  replace (2 * 2 ^ h)%nat with (2 ^ h + 2 ^ h)%nat by lia. rewrite <- take_take_drop, drop_drop.
  f_equal; f_equal; f_equal; lia.
Qed.

Lemma leaves_nil txs h pos : (length (level txs h) ≤ pos)%nat → leaves txs h pos = [].
Proof.
  intros Hp. unfold leaves. rewrite drop_ge; [by rewrite take_nil|].
  destruct (Nat.lt_ge_cases (pos * 2 ^ h) (length txs)) as [Hlt%level_bound|]; lia.
Qed.

Lemma leaves_zero {A} (txs : list A) pos a : txs !! pos = Some a → leaves txs 0 pos = [a].
Proof.
  intros Ha. unfold leaves. rewrite Nat.pow_0_r, Nat.mul_1_r.
  by rewrite (drop_S _ _ _ Ha).
Qed.

Definition all32 : list bytes → Prop := Forall (λ x, length x = 32%nat).

Lemma all32_lookup l i x : all32 l → l !! i = Some x → length x = 32%nat.
Proof. intros Hl Hx. exact (Forall_lookup_1 _ _ _ _ Hl Hx). Qed.

Lemma length_combine l r : length (combine_hashes l r) = 32%nat.
Proof. apply length_sha2_digest. Qed.

Lemma level32 txs h : all32 txs → all32 (level txs h).
Proof.
  intros Htx. induction h as [|h IH]; [done|]. cbn [level]. apply Forall_forall.
  intros x (i & Hi)%list_elem_of_lookup. rewrite next_level_lookup in Hi.
  apply bind_Some in Hi as (a & _ & [= <-]). apply length_combine.
Qed.

(** Equal parents have equal children, or the hash collides. *)
Lemma combine_inj xs ys l r l' r' : length l = length l' → l ++ r ∈ xs → l' ++ r' ∈ ys →
  combine_hashes l r = combine_hashes l' r' → clash xs ys ∨ (l = l' ∧ r = r').
Proof.
  intros Hl Hx Hy He. destruct (decide (l ++ r = l' ++ r')) as [Heq|Hne].
  - right. by apply app_inj_1 in Heq.
  - left. by eapply clash_intro.
Qed.

(** Two neighbours of a level, or the last node twice, are hashed. *)
Lemma tree_inputs_elem txs h i a : level txs h !! (2 * i)%nat = Some a →
  a ++ default a (level txs h !! (2 * i + 1)%nat) ∈ tree_inputs txs (S h).
Proof.
  intros Ha. cbn [tree_inputs]. apply elem_of_app. left. apply list_elem_of_lookup. exists i.
  by rewrite level_inputs_lookup, Ha.
Qed.

(** The root: levels until one node is left. *)
Fixpoint root_fuel (fuel : nat) (l : list bytes) : bytes :=
  match fuel, l with
  | S fuel', _ :: _ :: _ => root_fuel fuel' (next_level l)
  | _, _ => default [] (l !! 0%nat)
  end.

Definition bitcoin_root (txs : list bytes) : bytes := root_fuel (length txs) txs.

Lemma next_level_shrinks l : (1 < length l → 1 ≤ length (next_level l) < length l)%nat.
Proof.
  intros Hl. pose proof (length_next_level l) as Hn.
  pose proof (Z.div_mod (Z.of_nat (length l) + 1) 2 ltac:(lia)).
  pose proof (Z.mod_pos_bound (Z.of_nat (length l) + 1) 2 ltac:(lia)). lia.
Qed.

Lemma root_fuel_level txs d : ∀ k fuel, (length (level txs k) ≤ fuel)%nat →
  length (level txs (k + d)) = 1%nat → (∀ j, (k ≤ j < k + d)%nat → (1 < length (level txs j))%nat) →
  level txs (k + d) = [root_fuel fuel (level txs k)].
Proof.
  induction d as [|d IH]; intros k fuel Hf Hl Hj.
  - rewrite Nat.add_0_r in *. destruct (level txs k) as [|a [|]]; try done. by destruct fuel.
  - pose proof (Hj k ltac:(lia)) as Hk. pose proof (next_level_shrinks _ Hk) as Hsh.
    replace (k + S d)%nat with (S k + d)%nat in * by lia.
    destruct fuel as [|fuel]; [lia|]. rewrite (IH (S k) fuel); [|cbn [level]; lia|done|intros j ?; apply Hj; lia].
    destruct (level txs k) as [|a [|b l]] eqn:He; [simpl in Hk; lia..|]. cbn [level root_fuel].
    by rewrite He.
Qed.

Lemma bitcoin_root_level txs h : length (level txs h) = 1%nat →
  (∀ j, (j < h)%nat → (1 < length (level txs j))%nat) → level txs h = [bitcoin_root txs].
Proof.
  intros Hl Hj. apply (root_fuel_level txs h 0 (length txs)); [done|done|]. intros j ?. apply Hj. lia.
Qed.

End reference.

(** ** Soundness of extraction *)

Section soundness.
Context `{Sha2} (t : PartialMerkleTree) (txs : list bytes).
Context (Hcount : tx_count t = Z.of_nat (length txs)) (Hsize : 0 < tx_count t < 2 ^ 31).

Lemma tree_height_loop_spec fuel k :
  Z.of_nat (length (level txs k)) ≤ 2 ^ Z.of_nat fuel →
  ∃ h, tree_height_loop (S fuel) (Z.of_nat (length (level txs k))) k = Some h
    ∧ (k ≤ h ≤ k + fuel)%nat ∧ length (level txs h) = 1%nat
    ∧ ∀ j, (k ≤ j < h)%nat → (1 < length (level txs j))%nat.
Proof using Type*.
  revert k. induction fuel as [|fuel IH]; intros k Hle; cbn [tree_height_loop].
  all: assert (0 < length (level txs k))%nat as Hpos
    by (apply level_bound; lia).
  - destruct (Z.gtb_spec (Z.of_nat (length (level txs k))) 1); [change (2 ^ Z.of_nat 0) with 1 in Hle; lia|].
    exists k. split_and!; [done|lia..|]. intros j ?. lia.
  - destruct (Z.gtb_spec (Z.of_nat (length (level txs k))) 1) as [Hgt|]; [|exists k; split_and!; [done|lia..|intros j ?; lia]].
    rewrite <- length_next_level. change (next_level (level txs k)) with (level txs (S k)).
    destruct (IH (S k)) as (h & Hh & Hr & Hl & Hj).
    + cbn [level]. rewrite length_next_level. rewrite Nat2Z.inj_succ, Z.pow_succ_r in Hle by lia.
      apply Z.lt_succ_r, Z.div_lt_upper_bound; lia.
    + exists h. split_and!; [exact Hh|lia|lia|done|]. intros j Hjr.
      destruct (decide (j = k)) as [->|]; [lia|]. apply Hj. lia.
Qed.

Lemma tree_height_level : ∃ h, tree_height (tx_count t) = Some h ∧ (h ≤ 31)%nat
  ∧ level txs h = [bitcoin_root txs].
Proof using Type*.
  unfold tree_height. rewrite Hcount. change txs with (level txs 0) at 1.
  destruct (tree_height_loop_spec 31 0) as (h & Hh & Hr & Hl & Hj); [cbn [level]; lia|].
  exists h. split_and!; [|lia|apply bitcoin_root_level; [done|]; intros j ?; apply Hj; lia].
  assert (∀ f size k h, tree_height_loop f size k = Some h → tree_height_loop (S f) size k = Some h) as Hmono.
  { clear. induction f as [|f IH]; intros size k h; [done|]. cbn [tree_height_loop].
    destruct (size >? 1); [apply IH|done]. }
  by apply Hmono.
Qed.

(** The positions the extraction visits do not wrap. *)
Lemma child_pos h pos : (h ≤ 31)%nat → (pos < length (level txs (S h)))%nat →
  u32 (Z.of_nat pos * 2) = Z.of_nat (2 * pos) ∧ u32 (Z.of_nat (2 * pos) + 1) = Z.of_nat (2 * pos + 1)
  ∧ (u32 (Z.of_nat (2 * pos) + 1) <? tree_width (tx_count t) h)
    = (2 * pos + 1 <? length (level txs h))%nat.
Proof using Type*.
  intros Hh Hpos%level_bound. rewrite Nat.pow_succ_r' in Hpos. pose proof (pow2_pos h).
  assert (2 * pos < length txs)%nat by nia.
  assert (u32 (Z.of_nat pos * 2) = Z.of_nat (2 * pos)) as ->
    by (unfold u32; rewrite wrap_small by (unfold fits; lia); lia).
  assert (u32 (Z.of_nat (2 * pos) + 1) = Z.of_nat (2 * pos + 1)) as ->
    by (unfold u32; rewrite wrap_small by (unfold fits; lia); lia).
  split_and!; [done|done|]. rewrite (tree_width_level txs) by done.
  destruct (Nat.ltb_spec (2 * pos + 1) (length (level txs h))), (Z.ltb_spec (Z.of_nat (2 * pos + 1))
    (Z.of_nat (length (level txs h)))); (done || lia).
Qed.

Context (Htxs : all32 txs) (Hhashes : all32 (hashes t)).

Lemma recursive_extract_sound h : (h ≤ 32)%nat → ∀ pos s root s',
  (pos < length (level txs h))%nat →
  recursive_extract t h (Z.of_nat pos) s = Some (root, s') →
  length root = 32%nat
  ∧ (level txs h !! pos = Some root →
     clash (extract_inputs t h (Z.of_nat pos) s) (tree_inputs txs h)
     ∨ ∃ ms, matched s' = matched s ++ ms ∧ ms `sublist_of` leaves txs h pos).
Proof using Type*.
  induction h as [|h IH]; intros Hh pos s root s' Hpos; cbn [recursive_extract extract_inputs].
  - intros (b & _ & (hash & Hhash & [= <- <-])%bind_Some)%bind_Some.
    pose proof (all32_lookup _ _ _ Hhashes Hhash) as Hl.
    split; [done|]. intros Hroot. right. cbn [matched]. rewrite (leaves_zero txs pos hash Hroot). destruct b.
    + by exists [hash].
    + exists []. split; [by rewrite app_nil_r|apply sublist_nil_l].
  - intros (b & Hbit & Hx)%bind_Some. rewrite Hbit. destruct b; cbn [negb] in Hx.
    2: { apply bind_Some in Hx as (hash & Hhash & [= <- <-]).
         pose proof (all32_lookup _ _ _ Hhashes Hhash) as Hl.
         split; [done|]. intros _. right. exists []. split; [by rewrite app_nil_r|apply sublist_nil_l]. }
    destruct (child_pos h pos ltac:(lia) Hpos) as (Hp1 & Hp2 & Hw). rewrite Hp1, Hw, Hp2 in Hx.
    rewrite Hp1, Hw, Hp2. apply bind_Some in Hx as ([l s1] & Hl & Hx). rewrite Hl.
    assert (tree_inputs txs h ⊆ tree_inputs txs (S h)) as Hti by (intros x Hin; apply elem_of_app; by right).
    pose proof (tree_inputs_elem txs h pos) as Hte.
    pose proof (proj1 (level_bound _ _ _) Hpos) as Hpb. rewrite Nat.pow_succ_r' in Hpb.
    assert (2 * pos < length (level txs h))%nat as Hpl by (apply level_bound; lia).
    destruct (IH ltac:(lia) _ _ _ _ Hpl Hl) as [Hll Hlm]. cbn [matched] in Hlm.
    pose proof (next_level_lookup (level txs h) pos) as Hnl. change (next_level _) with (level txs (S h)) in Hnl.
    destruct (lookup_lt_is_Some_2 _ _ Hpl) as [a Ha]. rewrite Ha in Hnl. cbn [mbind option_bind] in Hnl.
    pose proof (all32_lookup _ _ _ (level32 txs h Htxs) Ha) as Hla.
    rewrite leaves_split. destruct (Nat.ltb_spec (2 * pos + 1) (length (level txs h))) as [Hr|Hr].
    + apply bind_Some in Hx as ([r s2] & Hrr & Hx). destruct (decide (l = r)); [done|].
      injection Hx as <- <-. split; [apply length_combine|]. intros Hroot.
      destruct (IH ltac:(lia) _ _ _ _ Hr Hrr) as [Hrl Hrm].
      destruct (lookup_lt_is_Some_2 _ _ Hr) as [b Hb]. rewrite Hb in Hnl. cbn [default] in Hnl.
      pose proof (all32_lookup _ _ _ (level32 txs h Htxs) Hb) as Hlb.
      rewrite Hroot in Hnl. injection Hnl as Hnl.
      specialize (Hte a Ha). rewrite Hb in Hte. rewrite Hrr. set (xs := _ ++ _).
      destruct (combine_inj xs (tree_inputs txs (S h)) l r a b) as [|[-> ->]];
        [congruence|subst xs; rewrite !elem_of_app; right; right; left|done|done|by left|].
      destruct (Hlm Ha) as [Hcl|(m1 & Hm1 & Hs1)].
      { left. eapply clash_mono; [|exact Hti|exact Hcl]. subst xs. intros x Hin. apply elem_of_app. by left. }
      destruct (Hrm Hb) as [Hcl|(m2 & Hm2 & Hs2)].
      { left. eapply clash_mono; [|exact Hti|exact Hcl]. subst xs. intros x Hin. rewrite !elem_of_app. auto. }
      right. exists (m1 ++ m2). rewrite Hm2, Hm1, app_assoc. split; [done|]. by apply sublist_app.
    + injection Hx as <- <-. split; [apply length_combine|]. intros Hroot.
      rewrite (lookup_ge_None_2 _ _ Hr) in Hnl. cbn [default] in Hnl.
      rewrite Hroot in Hnl. injection Hnl as Hnl.
      specialize (Hte a Ha). rewrite (lookup_ge_None_2 _ _ Hr) in Hte. set (xs := _ ++ _).
      destruct (combine_inj xs (tree_inputs txs (S h)) l l a a) as [|[-> _]];
        [congruence|subst xs; rewrite elem_of_app; right; left|done|done|by left|].
      destruct (Hlm Ha) as [Hcl|(m1 & Hm1 & Hs1)].
      { left. eapply clash_mono; [|exact Hti|exact Hcl]. subst xs. intros x Hin. apply elem_of_app. by left. }
      right. exists m1. split; [done|]. rewrite (leaves_nil _ _ _ Hr), app_nil_r. done.
Qed.

End soundness.

(** ** Completeness of extraction *)

(** The transactions selected by a list of flags. *)
Fixpoint pick (txs : list bytes) (sel : list bool) : list bytes :=
  match txs, sel with
  | tx :: txs', b :: sel' => if b then tx :: pick txs' sel' else pick txs' sel'
  | _, _ => []
  end.

Lemma pick_app txs1 txs2 sel1 sel2 : length txs1 = length sel1 →
  pick (txs1 ++ txs2) (sel1 ++ sel2) = pick txs1 sel1 ++ pick txs2 sel2.
Proof.
  revert sel1. induction txs1 as [|tx txs1 IH]; intros [|b sel1] Hl; try done.
  simpl in *. rewrite IH by lia. by destruct b.
Qed.

Lemma pick_none txs sel : existsb id sel = false → pick txs sel = [].
Proof.
  revert txs. induction sel as [|b sel IH]; intros [|tx txs] He; try done.
  simpl in He. apply orb_false_iff in He as [Hb He]. unfold id in Hb. simpl. rewrite Hb. by apply IH.
Qed.

Lemma length_leaves {A} (l : list A) h pos : length (leaves l h pos) = Nat.min (2 ^ h) (length l - pos * 2 ^ h).
Proof. unfold leaves. by rewrite length_take, length_drop. Qed.

Lemma lookup_middle_app {A} (l1 : list A) x l2 l3 : (l1 ++ (x :: l2) ++ l3) !! length l1 = Some x.
Proof. by apply list_lookup_middle. Qed.

Section completeness.
Context `{Sha2} (txs : list bytes) (sel : list bool).

Definition node (h pos : nat) : bytes := default [] (level txs h !! pos).

(** BIP37's traversal: a subtree without selected leaves is one hash. *)
Fixpoint build (h pos : nat) : list bool * list bytes :=
  let parent := existsb id (leaves sel h pos) in
  match h with
  | O => ([parent], [node 0 pos])
  | S h' =>
      if parent then
        let '(bl, hl) := build h' (2 * pos) in
        let '(br, hr) := if (2 * pos + 1 <? length (level txs h'))%nat then build h' (2 * pos + 1)
                         else ([], []) in
        (true :: bl ++ br, hl ++ hr)
      else ([false], [node (S h') pos])
  end.

Context (Hsel : length sel = length txs) (Hsize : 0 < Z.of_nat (length txs) < 2 ^ 31).

(** No two siblings of the tree have one hash. *)
Definition distinct_siblings : Prop := ∀ h pos a b,
  level txs h !! (2 * pos)%nat = Some a → level txs h !! (2 * pos + 1)%nat = Some b → a ≠ b.

Lemma length_build h : ∀ pos, (pos < length (level txs h))%nat →
  (length (build h pos).2 ≤ length (leaves txs h pos))%nat.
Proof using Type*.
  assert (∀ h pos, pos < length (level txs h) → 1 ≤ length (leaves txs h pos))%nat as Hone.
  { intros h' pos Hpos%level_bound. rewrite length_leaves. pose proof (pow2_pos h'). lia. }
  induction h as [|h IH]; intros pos Hpos; cbn [build]; [by apply Hone|].
  destruct (existsb id _); [|by apply Hone].
  pose proof (proj1 (level_bound _ _ _) Hpos) as Hpb. rewrite Nat.pow_succ_r' in Hpb.
  assert (2 * pos < length (level txs h))%nat as Hpl by (apply level_bound; lia).
  rewrite leaves_split, length_app. pose proof (IH _ Hpl) as Hl. destruct (build h (2 * pos)) as [bl hl].
  destruct (Nat.ltb_spec (2 * pos + 1) (length (level txs h))) as [Hr|Hr].
  - pose proof (IH _ Hr) as Hrr. destruct (build h (2 * pos + 1)) as [br hr]. cbn [snd] in *.
    rewrite length_app. lia.
  - cbn [snd] in *. rewrite length_app. simpl. lia.
Qed.

Lemma recursive_extract_build t : tx_count t = Z.of_nat (length txs) → distinct_siblings →
  ∀ h pos, (h ≤ 32)%nat → (pos < length (level txs h))%nat → ∀ b0 b1 h0 h1 ms,
  flag_bits t = b0 ++ (build h pos).1 ++ b1 → hashes t = h0 ++ (build h pos).2 ++ h1 →
  recursive_extract t h (Z.of_nat pos) (mkCursor (length b0) (length h0) ms)
  = Some (node h pos, mkCursor (length b0 + length (build h pos).1) (length h0 + length (build h pos).2)
                        (ms ++ pick (leaves txs h pos) (leaves sel h pos))).
Proof using Type*.
  intros Hcount Hdist. assert (0 < tx_count t < 2 ^ 31) as Hs by lia.
  induction h as [|h IH]; intros pos Hh Hpos b0 b1 h0 h1 ms Hb Hhs.
  - cbn [build fst snd] in *. cbn [recursive_extract bits_used hashes_used matched].
    rewrite Hb, lookup_middle_app. cbn [mbind option_bind]. rewrite Hhs, lookup_middle_app.
    cbn [mbind option_bind length]. do 3 f_equal.
    destruct (lookup_lt_is_Some_2 _ _ Hpos) as [a Ha]. cbn [level] in Ha.
    destruct (lookup_lt_is_Some_2 sel pos) as [f Hf]; [cbn [level] in Hpos; lia|].
    rewrite (leaves_zero sel pos f Hf), (leaves_zero txs pos a Ha). unfold node. cbn [level]. rewrite Ha.
    simpl. by destruct f; rewrite ?app_nil_r.
  - cbn [recursive_extract bits_used hashes_used matched].
    pose proof (proj1 (level_bound _ _ _) Hpos) as Hpb. rewrite Nat.pow_succ_r' in Hpb.
    cbn [build] in *. destruct (existsb id (leaves sel (S h) pos)) eqn:He.
    2: { cbn [fst snd] in *. rewrite Hb, lookup_middle_app. cbn [mbind option_bind negb].
         rewrite Hhs, lookup_middle_app. cbn [mbind option_bind length]. by rewrite pick_none, app_nil_r. }
    assert (2 * pos < length (level txs h))%nat as Hpl by (apply level_bound; lia).
    destruct (child_pos t txs Hcount Hs h pos ltac:(lia) Hpos) as (Hp1 & Hp2 & Hw).
    rewrite Hp1, Hw, Hp2. pose proof (IH (2 * pos)%nat ltac:(lia) Hpl) as IHl.
    pose proof (next_level_lookup (level txs h) pos) as Hnl. change (next_level _) with (level txs (S h)) in Hnl.
    destruct (lookup_lt_is_Some_2 _ _ Hpl) as [a Ha]. rewrite Ha in Hnl. cbn [mbind option_bind] in Hnl.
    assert (length (leaves txs h (2 * pos)) = length (leaves sel h (2 * pos))) as Hll
      by (rewrite !length_leaves; lia).
    rewrite !(leaves_split _ h pos), pick_app by done.
    destruct (build h (2 * pos)) as [bl hl] eqn:Hbl.
    destruct (Nat.ltb_spec (2 * pos + 1) (length (level txs h))) as [Hr|Hr].
    + pose proof (IH (2 * pos + 1)%nat ltac:(lia) Hr) as IHr.
      destruct (build h (2 * pos + 1)) as [br hr]. cbn [fst snd] in *.
      rewrite Hb, lookup_middle_app. cbn [mbind option_bind negb].
      replace (length b0 + 1)%nat with (length (b0 ++ [true])) by (rewrite length_app; done).
      rewrite (IHl _ (br ++ b1) _ (hr ++ h1)); [|rewrite Hb; by list_simplifier|rewrite Hhs; by list_simplifier].
      cbn [mbind option_bind].
      replace (length (b0 ++ [true]) + length bl)%nat with (length (b0 ++ [true] ++ bl))
        by (rewrite !length_app; lia).
      replace (length h0 + length hl)%nat with (length (h0 ++ hl)) by (rewrite length_app; lia).
      rewrite (IHr _ b1 _ h1); [|rewrite Hb; by list_simplifier|rewrite Hhs; by list_simplifier].
      cbn [mbind option_bind]. destruct (lookup_lt_is_Some_2 _ _ Hr) as [b Hbb]. rewrite Hbb in Hnl.
      change (default a (Some b)) with b in Hnl.
      assert (node h (2 * pos) = a ∧ node h (2 * pos + 1) = b ∧ node (S h) pos = combine_hashes a b)
        as (-> & -> & ->) by (unfold node; rewrite Ha, Hbb, Hnl; done).
      rewrite decide_False by (by eapply Hdist). do 3 f_equal; [rewrite !length_app; simpl; rewrite ?length_app; lia..|].
      by rewrite app_assoc.
    + cbn [fst snd] in *. rewrite Hb, lookup_middle_app. cbn [mbind option_bind negb].
      replace (length b0 + 1)%nat with (length (b0 ++ [true])) by (rewrite length_app; done).
      rewrite app_nil_r in Hb, Hhs.
      rewrite (IHl _ b1 _ h1); [|rewrite Hb; by list_simplifier|exact Hhs]. cbn [mbind option_bind].
      rewrite (lookup_ge_None_2 _ _ Hr) in Hnl. change (default a None) with a in Hnl.
      assert (node h (2 * pos) = a ∧ node (S h) pos = combine_hashes a a) as (-> & ->)
        by (unfold node; rewrite Ha, Hnl; done).
      rewrite !app_nil_r. rewrite (leaves_nil txs h (2 * pos + 1)) by lia. cbn [pick]. rewrite app_nil_r.
      do 3 f_equal. rewrite length_app. simpl. lia.
Qed.

End completeness.

(** ** The wire format *)

Definition byte_of (b0 b1 b2 b3 b4 b5 b6 b7 : bool) : Z :=
  Z.b2z b0 + 2 * Z.b2z b1 + 4 * Z.b2z b2 + 8 * Z.b2z b3 + 16 * Z.b2z b4 + 32 * Z.b2z b5
  + 64 * Z.b2z b6 + 128 * Z.b2z b7.

(** Eight flags to a byte, the first in the lowest bit. *)
Fixpoint pack8 (bits : list bool) : bytes :=
  match bits with
  | b0 :: b1 :: b2 :: b3 :: b4 :: b5 :: b6 :: b7 :: rest => byte_of b0 b1 b2 b3 b4 b5 b6 b7 :: pack8 rest
  | _ => []
  end.

Definition pad8 (bits : list bool) : list bool :=
  bits ++ replicate ((8 - length bits mod 8) mod 8) false.

Definition wire (t : PartialMerkleTree) : bytes :=
  le_bytes 4 (tx_count t)
  ++ Varint.encode_varint (Z.of_nat (length (hashes t))) ++ concat (hashes t)
  ++ Varint.encode_varint (Z.of_nat (length (pack8 (flag_bits t)))) ++ pack8 (flag_bits t).

Lemma byte_bits_of b0 b1 b2 b3 b4 b5 b6 b7 :
  byte_bits (byte_of b0 b1 b2 b3 b4 b5 b6 b7) = [b0; b1; b2; b3; b4; b5; b6; b7].
Proof. by destruct b0, b1, b2, b3, b4, b5, b6, b7. Qed.

Lemma pack8_bits k : ∀ bits, length bits = (8 * k)%nat →
  concat (byte_bits <$> pack8 bits) = bits ∧ length (pack8 bits) = k.
Proof.
  induction k as [|k IH]; intros bits Hk.
  - apply nil_length_inv in Hk as ->. done.
  - replace (8 * S k)%nat with (8 + 8 * k)%nat in Hk by lia.
    destruct bits as [|b0 [|b1 [|b2 [|b3 [|b4 [|b5 [|b6 [|b7 bits]]]]]]]]; try discriminate Hk.
    injection Hk as Hk. destruct (IH bits Hk) as [Hc Hl]. cbn [pack8]. rewrite fmap_cons. cbn [concat length].
    rewrite byte_bits_of, Hc, Hl. done.
Qed.

Lemma pad8_length bits : ∃ k, length (pad8 bits) = (8 * k)%nat
  ∧ div_ceil (length bits) 8 = k ∧ div_ceil (length (pad8 bits)) 8 = k.
Proof.
  unfold pad8, div_ceil. rewrite length_app, length_replicate. set (n := length bits). clearbody n.
  pose proof (Nat.div_mod_eq n 8) as Hn. pose proof (Nat.mod_upper_bound n 8 ltac:(lia)) as Hr.
  set (q := (n / 8)%nat) in *. set (r := (n mod 8)%nat) in *.
  destruct (decide (r = 0%nat)) as [Hz|Hz].
  - exists q. rewrite Hz. change ((8 - 0) mod 8)%nat with 0%nat.
    assert ((n + (8 - 1)) / 8 = q)%nat as Hd by (symmetry; apply (Nat.div_unique _ 8 q 7); lia).
    rewrite Nat.add_0_r, Hd. split_and!; lia.
  - exists (S q). rewrite (Nat.mod_small (8 - r)) by lia.
    split_and!; [lia|symmetry; apply (Nat.div_unique _ 8 (S q) (r - 1)); lia|].
    symmetry. apply (Nat.div_unique _ 8 (S q) 7); lia.
Qed.

Lemma read_varint_encode v rest : fits 64 v →
  read_varint (Varint.encode_varint v ++ rest) = Some (v, length (Varint.encode_varint v)).
Proof.
  intros Hv. unfold Varint.encode_varint, read_varint. unfold fits in Hv.
  destruct (Z.ltb_spec v 253).
  { unfold u8. rewrite wrap_small by (unfold fits; lia). cbn [app].
    destruct (Z.leb_spec v 0xFC); [done|lia]. }
  assert (∀ n x, take n (le_bytes n x ++ rest) = le_bytes n x) as Htake
    by (intros n x; apply take_app_length'; by rewrite length_le_bytes).
  destruct (Z.leb_spec v 0xFFFF); [|destruct (Z.leb_spec v 0xFFFFFFFF)]; cbn [app Z.leb Z.eqb Z.compare Pos.compare
    Pos.compare_cont Pos.eqb]; rewrite Htake; cbn [length]; rewrite length_app, !length_le_bytes.
  - destruct (Nat.ltb_spec (S (2 + length rest)) 3); [lia|]. unfold u16.
    rewrite wrap_small, of_le_le_bytes by (unfold fits; lia). done.
  - destruct (Nat.ltb_spec (S (4 + length rest)) 5); [lia|]. unfold u32.
    rewrite wrap_small, of_le_le_bytes by (unfold fits; lia). done.
  - destruct (Nat.ltb_spec (S (8 + length rest)) 9); [lia|].
    rewrite of_le_le_bytes by (unfold fits; lia). done.
Qed.

Lemma length_concat32 hs : all32 hs → length (concat hs) = (32 * length hs)%nat.
Proof. induction 1 as [|x hs Hx _ IH]; [done|]. cbn [concat length]. rewrite length_app. lia. Qed.

Lemma read_hashes_concat hs : all32 hs → ∀ pre post,
  read_hashes (length hs) (pre ++ concat hs ++ post) (length pre) = Some hs.
Proof.
  induction 1 as [|x hs Hx _ IH]; intros pre post; [done|]. cbn [length read_hashes concat].
  destruct (Nat.ltb_spec (length (pre ++ (x ++ concat hs) ++ post)) (length pre + 32)) as [Hlt|_].
  { rewrite !length_app in Hlt. lia. }
  specialize (IH (pre ++ x) post). rewrite length_app, Hx, <- !app_assoc in IH.
  rewrite <- app_assoc, IH. cbn [mbind option_bind]. do 2 f_equal.
  unfold slice. rewrite drop_app_length. apply take_app_length'. lia.
Qed.

Lemma parse_wire t k : 0 ≤ tx_count t < 2 ^ 32 → all32 (hashes t) → Z.of_nat (length (hashes t)) < 2 ^ 32 →
  length (flag_bits t) = (8 * k)%nat → Z.of_nat k < 2 ^ 40 →
  has_expected_size (wire t) = true ∧ parse (wire t) = Return (Some t).
Proof.
  intros Hn Hh Hhl Hb Hk. destruct (pack8_bits k _ Hb) as [Hbits Hfl].
  set (n := Z.of_nat (length (hashes t))) in *. set (v1 := Varint.encode_varint n).
  set (fb := pack8 (flag_bits t)) in *. set (v2 := Varint.encode_varint (Z.of_nat (length fb))).
  assert (wire t = le_bytes 4 (tx_count t) ++ v1 ++ concat (hashes t) ++ v2 ++ fb) as Hw by done.
  pose proof (length_concat32 _ Hh) as Hcl. pose proof (Varint.varint_size_bounds n) as Hs1.
  rewrite <- Varint.length_encode_varint in Hs1. fold v1 in Hs1.
  pose proof (Varint.varint_size_bounds (Z.of_nat (length fb))) as Hs2.
  rewrite <- Varint.length_encode_varint in Hs2. fold v2 in Hs2.
  assert (length (wire t) = 4 + length v1 + 32 * length (hashes t) + length v2 + length fb)%nat as Hlen
    by (rewrite Hw, !length_app, length_le_bytes, Hcl; lia).
  assert (take 4 (wire t) = le_bytes 4 (tx_count t)) as Ht4
    by (rewrite Hw; apply take_app_length'; by rewrite length_le_bytes).
  assert (read_varint (drop 4 (wire t)) = Some (n, length v1)) as Hv1.
  { rewrite Hw, drop_app_length' by (by rewrite length_le_bytes). apply read_varint_encode. unfold fits. lia. }
  assert (∀ o, o = (4 + length v1 + 32 * length (hashes t))%nat → drop o (wire t) = v2 ++ fb) as Hdrop.
  { intros o ->. rewrite Hw. rewrite (app_assoc v1), (app_assoc (le_bytes _ _)). apply drop_app_length'.
    rewrite !length_app, length_le_bytes, Hcl. lia. }
  assert (read_varint (v2 ++ fb) = Some (Z.of_nat (length fb), length v2)) as Hv2
    by (apply read_varint_encode; unfold fits; lia).
  split.
  - unfold has_expected_size. destruct (Nat.ltb_spec (length (wire t)) 4); [lia|]. rewrite Hv1.
    assert (checked (n * 32) = Some (n * 32)) as -> by (unfold checked; case_match eqn:Hc; [done|]; lia).
    cbn [mbind option_bind].
    assert (checked (4 + Z.of_nat (length v1) + n * 32) = Some (4 + Z.of_nat (length v1) + n * 32)) as ->
      by (unfold checked; case_match eqn:Hc; [done|]; lia).
    destruct (Z.ltb_spec (Z.of_nat (length (wire t))) (4 + Z.of_nat (length v1) + n * 32)); [lia|].
    rewrite Hdrop, Hv2 by lia. unfold checked.
    destruct (Z.ltb_spec (4 + Z.of_nat (length v1) + n * 32 + Z.of_nat (length v2)) (2 ^ 64)); [|lia].
    cbn [mbind option_bind].
    destruct (Z.ltb_spec (4 + Z.of_nat (length v1) + n * 32 + Z.of_nat (length v2) + Z.of_nat (length fb)) (2 ^ 64));
      [|lia]. apply Z.eqb_eq. lia.
  - unfold parse. destruct (Nat.ltb_spec (length (wire t)) 4); [lia|]. rewrite Hv1, Ht4.
    unfold capacity_ok. destruct (Z.ltb_spec (n * 32) (2 ^ 63)); [|lia]. cbn [negb].
    assert (read_hashes (Z.to_nat n) (wire t) (4 + length v1) = Some (hashes t)) as ->.
    { unfold n. rewrite Nat2Z.id, Hw, (app_assoc (le_bytes _ _)).
      replace (4 + length v1)%nat with (length (le_bytes 4 (tx_count t) ++ v1))
        by (rewrite length_app, length_le_bytes; done). by apply read_hashes_concat. }
    unfold n. rewrite Nat2Z.id, Hdrop, Hv2 by done. unfold u64.
    rewrite !wrap_small by (unfold fits; lia).
    destruct (Z.ltb_spec (Z.of_nat (length (wire t)))
      (Z.of_nat (4 + length v1 + 32 * length (hashes t) + length v2) + Z.of_nat (length fb))); [lia|].
    destruct (Z.ltb_spec (Z.of_nat (length fb) * 8 * 1) (2 ^ 63)); [|lia]. cbn [negb].
    rewrite Nat2Z.id, of_le_le_bytes by (unfold fits; lia). unfold slice.
    assert (drop (4 + length v1 + 32 * length (hashes t) + length v2) (wire t) = fb) as ->.
    { rewrite <- drop_drop, Hdrop by done. by apply drop_app_length'. }
    rewrite firstn_all2 by lia. rewrite Hbits. by destruct t.
Qed.

(** ** Parsing what has the expected size *)

Lemma read_varint_fits data v n : bytes_ok data → read_varint data = Some (v, n) → fits 64 v.
Proof.
  intros Hb. destruct data as [|first rest]; [done|]. apply Forall_cons in Hb as [Hf Hr]. cbn [read_varint].
  assert (∀ k, (k ≤ 8)%nat → fits 64 (of_le (take k rest))) as Htake.
  { intros k Hk. apply (fits_weaken (8 * Z.of_nat (length (take k rest)))).
    - rewrite length_take. lia.
    - apply of_le_fits. by apply Forall_take. }
  repeat case_match; intros [= <- <-]; try (apply Htake; lia). unfold fits in *. lia.
Qed.

Lemma read_hashes_total n : ∀ data offset, (offset + 32 * n ≤ length data)%nat →
  ∃ hs, read_hashes n data offset = Some hs ∧ all32 hs.
Proof.
  induction n as [|n IH]; intros data offset Hle; cbn [read_hashes].
  - exists []. split; [done|constructor].
  - destruct (Nat.ltb_spec (length data) (offset + 32)); [lia|].
    destruct (IH data (offset + 32)%nat) as (hs & -> & Hhs); [lia|]. cbn [mbind option_bind].
    eexists. split; [done|]. constructor; [|done]. rewrite length_slice; lia.
Qed.

(** The size check protects the parser: data that passes [has_expected_size]
    always parses, without a panic of a capacity or of an index, to a tree of 32-byte
    hashes. *)
Theorem sized_parse_total data (Hbytes : bytes_ok data) (Hlen : Z.of_nat (length data) < 2 ^ 60)
    (Hsized : has_expected_size data = true) :
  ∃ t, parse data = Return (Some t) ∧ all32 (hashes t) ∧ fits 32 (tx_count t).
Proof.
  unfold has_expected_size in Hsized. unfold parse.
  destruct (Nat.ltb_spec (length data) 4) as [|H4]; [done|].
  destruct (read_varint (drop 4 data)) as [[n v1]|] eqn:Hv1; [|done].
  apply read_varint_fits in Hv1; [|by apply Forall_drop]. unfold fits in Hv1.
  unfold checked in Hsized. destruct (Z.ltb_spec (n * 32) (2 ^ 64)); [|done]. cbn [mbind option_bind] in Hsized.
  destruct (Z.ltb_spec (4 + Z.of_nat v1 + n * 32) (2 ^ 64)); [|done].
  destruct (Z.ltb_spec (Z.of_nat (length data)) (4 + Z.of_nat v1 + n * 32)) as [|Hfit]; [done|].
  unfold capacity_ok. destruct (Z.ltb_spec (n * 32) (2 ^ 63)); [|lia]. cbn [negb].
  destruct (read_hashes_total (Z.to_nat n) data (4 + v1)) as (hs & -> & Hhs); [lia|].
  replace (4 + v1 + 32 * Z.to_nat n)%nat with (Z.to_nat (4 + Z.of_nat v1 + n * 32)) by lia.
  destruct (read_varint (drop _ data)) as [[fl v2]|] eqn:Hv2; [|done].
  apply read_varint_fits in Hv2; [|by apply Forall_drop]. unfold fits in Hv2.
  destruct (Z.ltb_spec (4 + Z.of_nat v1 + n * 32 + Z.of_nat v2) (2 ^ 64)); [|done]. cbn [mbind option_bind] in Hsized.
  destruct (Z.ltb_spec (4 + Z.of_nat v1 + n * 32 + Z.of_nat v2 + fl) (2 ^ 64)); [|done].
  apply Z.eqb_eq in Hsized. unfold u64.
  rewrite (wrap_small 64 (Z.of_nat _ + fl)) by (unfold fits; lia).
  destruct (Z.ltb_spec (Z.of_nat (length data)) (Z.of_nat (Z.to_nat (4 + Z.of_nat v1 + n * 32) + v2) + fl)); [lia|].
  pose proof (wrap_fits 64 (fl * 8) ltac:(lia)) as Hw.
  destruct (Z.ltb_spec (wrap 64 (fl * 8) * 1) (2 ^ 63)) as [_|Hbig].
  2: { rewrite wrap_small in Hbig by (unfold fits in *; lia). lia. }
  cbn [negb]. eexists. split; [done|]. split; [exact Hhs|].
  cbn [tx_count]. apply (fits_weaken (8 * Z.of_nat (length (take 4 data)))).
  - rewrite length_take. lia.
  - apply of_le_fits. by apply Forall_take.
Qed.

(** ** Branches *)

Section branches.
Context `{Sha2} (txs : list bytes) (Htxs : all32 txs).

Lemma tree_inputs_mono h h' : (h ≤ h')%nat → tree_inputs txs h ⊆ tree_inputs txs h'.
Proof using Type. induction 1 as [|h' _ IH]; [done|]. intros x Hx. apply elem_of_app. right. by apply IH. Qed.

(** One step of a branch, backwards. *)
Lemma reduce_step l r i xs ys : length l = 32%nat → combine_hashes l r ∈ level txs (S i) → l ++ r ∈ xs →
  tree_inputs txs (S i) ⊆ ys → clash xs ys ∨ (l ∈ level txs i ∧ r ∈ level txs i).
Proof using Type*.
  intros Hl (j & Hj)%list_elem_of_lookup Hx Hys. cbn [level] in Hj.
  rewrite next_level_lookup in Hj. apply bind_Some in Hj as (a & Ha & Heq). injection Heq as Heq.
  pose proof (all32_lookup _ _ _ (level32 txs i Htxs) Ha) as Hla.
  destruct (combine_inj xs ys l r a (default a (level txs i !! (2 * j + 1)%nat))) as [|[-> ->]];
    [congruence|done|by apply Hys, tree_inputs_elem|done|by left|right].
  split; [by eapply list_elem_of_lookup_2|].
  destruct (level txs i !! (2 * j + 1)%nat) as [x|] eqn:Hx'; by eapply list_elem_of_lookup_2.
Qed.

Lemma reduce_loop_sound path hs : all32 hs → ∀ i cur, length cur = 32%nat →
  reduce_loop hs path i cur ∈ level txs (i + length hs) →
  clash (reduce_inputs hs path i cur) (tree_inputs txs (i + length hs)) ∨ cur ∈ level txs i.
Proof using Type*.
  induction 1 as [|sib hs Hsib _ IH]; intros i cur Hcur; cbn [reduce_loop reduce_inputs length].
  { rewrite Nat.add_0_r. by right. }
  rewrite Nat.add_succ_r, <- Nat.add_succ_l. set (right := _ =? 1). set (x := if right then sib ++ cur else cur ++ sib).
  assert ((if right then combine_hashes sib cur else combine_hashes cur sib) = sha2_digest (sha2_digest x)) as ->
    by (subst x; by destruct right).
  intros Hin. apply IH in Hin as [Hcl|Hin]; [..|apply length_sha2_digest].
  { left. eapply clash_mono; [|done|exact Hcl]. intros y Hy. by right. }
  pose proof (tree_inputs_mono (S i) (S i + length hs) ltac:(lia)) as Hys.
  subst x. destruct right; (eapply reduce_step in Hin; [|done|left|exact Hys]); naive_solver.
Qed.

(** The sibling of node [pos], itself if it has none. *)
Definition sibling (k pos : nat) : bytes :=
  if Nat.even pos then default (node txs k pos) (level txs k !! (pos + 1)%nat) else node txs k (pos - 1).

Fixpoint branch_at (k todo pos : nat) : list bytes :=
  match todo with
  | O => []
  | S todo' => sibling k pos :: branch_at (S k) todo' (pos / 2)
  end.

Lemma path_bit i k : (k < 32)%nat →
  (Z.land (Z.shiftr (Z.of_nat i) (Z.of_nat (k mod 32))) 1 =? 1) = Nat.odd (i / 2 ^ k).
Proof using Type.
  intros Hk. rewrite Nat.mod_small by done.
  rewrite Z.shiftr_div_pow2 by lia. change 1 with (Z.ones 1) at 1. rewrite Z.land_ones by lia.
  replace (2 ^ Z.of_nat k) with (Z.of_nat (2 ^ k)) by (rewrite Nat2Z.inj_pow; done).
  rewrite <- Nat2Z.inj_div. set (q := (i / 2 ^ k)%nat). change (2 ^ 1) with 2.
  rewrite <- Nat.negb_even. destruct (Nat.even q) eqn:He.
  - apply Nat.even_spec in He as [m ->]. rewrite Nat2Z.inj_mul, Z.mul_comm, Z.mod_mul by lia. done.
  - assert (Nat.odd q = true) as Ho by (by rewrite <- Nat.negb_even, He).
    apply Nat.odd_spec in Ho as [m ->]. replace (Z.of_nat (2 * m + 1)) with (1 + Z.of_nat m * 2) by lia.
    by rewrite Z.mod_add by lia.
Qed.

Lemma node_up k pos : (pos < length (level txs k))%nat →
  node txs (S k) (pos / 2)
  = if Nat.odd pos then combine_hashes (sibling k pos) (node txs k pos)
    else combine_hashes (node txs k pos) (sibling k pos).
Proof using Type.
  intros Hpos. unfold node at 1. cbn [level]. rewrite next_level_lookup. unfold sibling.
  rewrite <- Nat.negb_even. destruct (Nat.even pos) eqn:He; cbn [negb].
  - apply Nat.even_spec in He as [m ->].
    assert (2 * m / 2 = m)%nat as -> by (symmetry; apply (Nat.div_unique _ 2 m 0); lia).
    destruct (lookup_lt_is_Some_2 _ _ Hpos) as [a Ha]. unfold node. by rewrite Ha.
  - assert (Nat.odd pos = true) as Ho by (by rewrite <- Nat.negb_even, He).
    apply Nat.odd_spec in Ho as [m ->].
    assert ((2 * m + 1) / 2 = m)%nat as -> by (symmetry; apply (Nat.div_unique _ 2 m 1); lia).
    destruct (lookup_lt_is_Some_2 (level txs k) (2 * m)) as [a Ha]; [lia|].
    destruct (lookup_lt_is_Some_2 _ _ Hpos) as [b Hb]. replace (2 * m + 1 - 1)%nat with (2 * m)%nat by lia.
    unfold node. by rewrite Ha, Hb.
Qed.

Lemma reduce_branch_at i todo : ∀ k, (k + todo ≤ 32)%nat → (i / 2 ^ k < length (level txs k))%nat →
  reduce_loop (branch_at k todo (i / 2 ^ k)) (Z.of_nat i) k (node txs k (i / 2 ^ k))
  = node txs (k + todo) (i / 2 ^ (k + todo)).
Proof using Type.
  induction todo as [|todo IH]; intros k Hk32 Hk; cbn [branch_at reduce_loop]; [by rewrite Nat.add_0_r|].
  rewrite path_bit, <- node_up by first [done|lia].
  assert (i / 2 ^ k / 2 = i / 2 ^ S k)%nat as ->
    by (rewrite Nat.Div0.div_div, Nat.pow_succ_r', Nat.mul_comm; done).
  rewrite IH, Nat.add_succ_r; [done|lia|]. cbn [level].
  pose proof (length_next_level (level txs k)) as Hl.
  assert (i / 2 ^ S k < length (next_level (level txs k)))%nat; [|done].
  apply Nat2Z.inj_lt. rewrite Hl. rewrite Nat.pow_succ_r', (Nat.mul_comm 2), <- Nat.Div0.div_div.
  set (q := (i / 2 ^ k)%nat) in *. pose proof (Nat.div_mod_eq q 2). pose proof (Nat.mod_upper_bound q 2 ltac:(lia)).
  assert (Z.of_nat (q / 2) + 1 ≤ (Z.of_nat (length (level txs k)) + 1) / 2); [|lia].
  apply Z.div_le_lower_bound; lia.
Qed.

Lemma branch_at32 todo : ∀ k pos, (pos < length (level txs k))%nat → all32 (branch_at k todo pos).
Proof using Type*.
  assert (∀ k j x, level txs k !! j = Some x → length x = 32%nat) as H32
    by (intros k j x; apply all32_lookup, level32, Htxs).
  induction todo as [|todo IH]; intros k pos Hpos; cbn [branch_at]; [constructor|].
  destruct (lookup_lt_is_Some_2 _ _ Hpos) as [a Ha]. constructor.
  - unfold sibling, node. rewrite Ha. destruct (Nat.even pos).
    + destruct (level txs k !! (pos + 1)%nat) as [b|] eqn:Hb; simpl; by eapply H32.
    + destruct (lookup_lt_is_Some_2 (level txs k) (pos - 1)) as [b Hb]; [lia|]. rewrite Hb. simpl. by eapply H32.
  - apply IH. cbn [level]. pose proof (length_next_level (level txs k)) as Hl. apply Nat2Z.inj_lt. rewrite Hl.
    pose proof (Nat.div_mod_eq pos 2). pose proof (Nat.mod_upper_bound pos 2 ltac:(lia)).
    assert (Z.of_nat (pos / 2) + 1 ≤ (Z.of_nat (length (level txs k)) + 1) / 2); [|lia].
    apply Z.div_le_lower_bound; lia.
Qed.

Lemma length_branch_at todo : ∀ k pos, length (branch_at k todo pos) = todo.
Proof using Type. induction todo as [|todo IH]; intros k pos; [done|]. cbn [branch_at length]. by rewrite IH. Qed.

End branches.

Lemma length_build_bits `{Sha2} txs sel h : ∀ pos, (length (build txs sel h pos).1 < 2 ^ S h)%nat.
Proof.
  induction h as [|h IH]; intros pos; cbn [build]; [simpl; lia|].
  assert (1 < 2 ^ S (S h))%nat by (pose proof (pow2_pos h); rewrite !Nat.pow_succ_r'; lia).
  destruct (existsb id _); [|done]. pose proof (IH (2 * pos)%nat) as Hl. pose proof (IH (2 * pos + 1)%nat) as Hr.
  destruct (build txs sel h (2 * pos)) as [bl hl], (build txs sel h (2 * pos + 1)) as [br hr].
  cbn [fst] in *. rewrite (Nat.pow_succ_r' 2 (S h)). destruct (_ <? _)%nat; cbn [fst length]; rewrite length_app; cbn [length]; lia.
Qed.

Lemma build32 `{Sha2} txs sel h : all32 txs → ∀ pos, (pos < length (level txs h))%nat →
  all32 (build txs sel h pos).2.
Proof.
  intros Htxs.
  assert (∀ h pos, (pos < length (level txs h))%nat → all32 [node txs h pos]) as Hone.
  { intros k pos Hpos. constructor; [|constructor]. destruct (lookup_lt_is_Some_2 _ _ Hpos) as [a Ha].
    unfold node. rewrite Ha. exact (all32_lookup _ _ _ (level32 txs k Htxs) Ha). }
  induction h as [|h IH]; intros pos Hpos; cbn [build]; [by apply Hone|].
  destruct (existsb id _); [|by apply Hone].
  pose proof (proj1 (level_bound _ _ _) Hpos) as Hpb. rewrite Nat.pow_succ_r' in Hpb.
  assert (2 * pos < length (level txs h))%nat as Hpl by (apply level_bound; lia).
  pose proof (IH _ Hpl) as Hl. destruct (build txs sel h (2 * pos)) as [bl hl]. cbn [snd] in *.
  destruct (Nat.ltb_spec (2 * pos + 1) (length (level txs h))) as [Hr|Hr].
  - pose proof (IH _ Hr) as Hrr. destruct (build txs sel h (2 * pos + 1)) as [br hr]. cbn [snd] in *.
    by apply Forall_app_2.
  - cbn [snd]. by rewrite app_nil_r.
Qed.

(** ** Properties *)

(** C9: what a partial tree proves.  If a tree with the transaction count of a block
    extracts to the block's Merkle root, every transaction it matches is one of the
    block's, in the block's order, unless one of the strings the extraction hashes and a
    different one of those the block's tree is built from have one double SHA-256. *)
Theorem pmt_sound `{Sha2} t txs r (Hcount : tx_count t = Z.of_nat (length txs))
    (Hsize : 0 < tx_count t < 2 ^ 31) (Htxs : all32 txs) (Hhashes : all32 (hashes t))
    (Hextract : extract_matches t = Some r) (Hroot : merkle_root r = bitcoin_root txs) :
  clash (proof_inputs t) (block_inputs txs) ∨ matched_hashes r `sublist_of` txs.
Proof.
  unfold extract_matches in Hextract. destruct (tx_count t =? 0); [done|].
  destruct (tx_count t <? _); [done|].
  destruct (tree_height_level t txs Hcount Hsize) as (h & Hh & Hle & Hl). rewrite Hh in Hextract.
  cbn [mbind option_bind] in Hextract. apply bind_Some in Hextract as ([root s] & Hx & Hextract).
  destruct (negb _) in Hextract; [done|]. destruct (negb _) in Hextract; [done|].
  injection Hextract as <-. cbn [merkle_root matched_hashes] in *. subst root.
  destruct (recursive_extract_sound t txs Hcount Hsize Htxs Hhashes h ltac:(lia) 0 (mkCursor 0 0 []) _ _
    ltac:(rewrite Hl; simpl; lia) Hx) as [_ Hs].
  destruct (Hs ltac:(by rewrite Hl)) as [Hcl|(ms & Hms & Hsub)].
  { left. unfold proof_inputs, block_inputs. by rewrite <- Hcount, Hh. }
  right. rewrite Hms. simpl.
  unfold leaves in Hsub. rewrite Nat.mul_0_l, drop_0 in Hsub. etrans; [exact Hsub|]. apply sublist_take.
Qed.


(** A branch of the tree's height reduces to the root exactly from the block's
    transactions: each of them has one, and a hash that has one is a transaction of the
    block, unless one of the strings the branch hashes and a different one of those of the
    block's tree have one double SHA-256. *)
Theorem branch_exact `{Sha2} txs tx h (Hsize : 0 < Z.of_nat (length txs) < 2 ^ 31) (Htxs : all32 txs)
    (Hh : tree_height (Z.of_nat (length txs)) = Some h) (Htx : length tx = 32%nat) :
  (tx ∈ txs → ∃ b, length (branch_hashes b) = h ∧ all32 (branch_hashes b) ∧ reduce_from b tx = bitcoin_root txs)
  ∧ ∀ b, length (branch_hashes b) = h → all32 (branch_hashes b) → reduce_from b tx = bitcoin_root txs →
      clash (reduce_inputs (branch_hashes b) (path b) 0 tx) (block_inputs txs) ∨ tx ∈ txs.
Proof.
  destruct (tree_height_level (mkPmt (Z.of_nat (length txs)) [] []) txs eq_refl Hsize) as (h' & Hh' & H31 & Hl).
  cbn [tx_count] in Hh'. rewrite Hh in Hh'. injection Hh' as <-. split.
  - intros (i & Hi)%list_elem_of_lookup. pose proof (lookup_lt_Some _ _ _ Hi) as Hlt.
    exists (mkBranch (branch_at txs 0 h i) (Z.of_nat i)). cbn [branch_hashes].
    split_and!; [apply length_branch_at|by apply branch_at32|]. unfold reduce_from. cbn [branch_hashes path].
    pose proof (reduce_branch_at txs i h 0) as Hr. rewrite Nat.pow_0_r, Nat.div_1_r in Hr.
    unfold node at 1 in Hr. cbn [level] in Hr. rewrite Hi in Hr. change (default [] (Some tx)) with tx in Hr.
    rewrite Hr by first [done|lia]. rewrite Nat.add_0_l. unfold node.
    assert (i / 2 ^ h = 0)%nat as ->; [|by rewrite Hl].
    destruct (decide (i / 2 ^ h = 0)%nat) as [|Hne]; [done|].
    pose proof (Nat.Div0.mul_div_le i (2 ^ h)). pose proof (pow2_pos h).
    pose proof (proj2 (level_bound txs h 1) ltac:(nia)) as Hone. rewrite Hl in Hone. simpl in Hone. lia.
  - intros b Hb Hb32 Hr. unfold block_inputs. rewrite Hh, <- Hb. apply (reduce_loop_sound txs Htxs (path b) (branch_hashes b) Hb32 0 tx Htx).
    unfold reduce_from in Hr. rewrite Hr, Nat.add_0_l, Hb, Hl. left.
Qed.

(** Above 2^31 transactions the 32-bit width is wrong: with a count of 2^32 - 1,
    which nothing rejects, the level above the leaves has 2^31 nodes and the code
    computes 0. *)
Theorem tree_width_wraps :
  tree_width (2 ^ 32 - 1) 1 = 0 ∧ (2 ^ 32 - 1 + 2 ^ 1 - 1) / 2 ^ 1 = 2 ^ 31.
Proof. split; vm_compute; reflexivity. Qed.

(** ** Witnesses *)

#[local] Existing Instance sha2_sha256.

Definition three_txs : list bytes := [replicate 32 1; replicate 32 2; replicate 32 3].

Lemma three_txs32 : all32 three_txs.
Proof. repeat constructor. Qed.

Lemma three_distinct : distinct_siblings three_txs.
Proof.
  intros [|[|h]] pos a b.
  - destruct pos as [|pos]; [intros [= <-] [= <-]; discriminate|intros _ Hb%lookup_lt_Some; simpl in Hb; lia].
  - destruct pos as [|pos]; [|intros _ Hb%lookup_lt_Some; simpl in Hb; lia].
    vm_compute. intros [= <-] [= <-]. discriminate.
  - intros _ Hb%lookup_lt_Some. exfalso. revert Hb. apply Nat.le_ngt.
    pose proof (length_level three_txs (S (S h))) as Hl. cbn [length three_txs] in Hl.
    rewrite !Nat2Z.inj_succ, !Z.pow_succ_r in Hl by lia. pose proof (Z.pow_pos_nonneg 2 (Z.of_nat h)).
    rewrite <- (Z.div_unique _ _ 1 2) in Hl by lia. lia.
Qed.


Definition one_match : PartialMerkleTree := mkPmt 2 [replicate 32 1; replicate 32 2] [true; false; true].

Lemma pmt_sound_witness : [replicate 32 2] `sublist_of` [replicate 32 1; replicate 32 2].
Proof.
  destruct (pmt_sound one_match [replicate 32 1; replicate 32 2]
    (mkResult (bitcoin_root [replicate 32 1; replicate 32 2]) [replicate 32 2])) as [Hclash|Hsub].
  - reflexivity.
  - simpl. lia.
  - repeat constructor.
  - repeat constructor.
  - vm_compute. reflexivity.
  - reflexivity.
  - exfalso. revert Hclash. apply (bool_decide_unpack (¬ clash _ _)). vm_compute. exact I.
  - exact Hsub.
Defined.

Lemma sized_parse_total_witness :
  ∃ t, parse (wire (mkPmt 2 [replicate 32 1; replicate 32 2] (replicate 8 true))) = Return (Some t).
Proof.
  destruct (sized_parse_total (wire (mkPmt 2 [replicate 32 1; replicate 32 2] (replicate 8 true)))) as (t & Ht & _).
  - apply (bool_decide_unpack (bytes_ok _)). vm_compute. exact I.
  - vm_compute. reflexivity.
  - vm_compute. reflexivity.
  - exists t. exact Ht.
Defined.

Lemma branch_exact_witness :
  ∃ b, length (branch_hashes b) = 2%nat ∧ reduce_from b (replicate 32 3) = bitcoin_root three_txs.
Proof.
  destruct (branch_exact three_txs (replicate 32 3) 2) as [Hex _].
  - simpl. lia.
  - exact three_txs32.
  - reflexivity.
  - reflexivity.
  - destruct Hex as (b & Hb & _ & Hr); [apply list_elem_of_lookup; by exists 2%nat|].
    exists b. split; [exact Hb|exact Hr].
Defined.

End MerkleTree.
