(* ===== verification/FlatHeap.v ===== *)
(** * FlatDB: the heap

    The value store of [flatdb/src/heap.rs]: an append-only sequence of records over
    memory-mapped segments, addressed by a flat byte offset.

    The mapped files are one byte string, segment after segment ([mem]), next to what
    of it the device holds ([durable]); [segments] says how many of the files are mapped.
    The definitions are those of one thread: the atomics are fields, and the loops that
    wait for another thread ([publish]) do not return when that thread is not there
    ([Hangs]).  The operating system's answer to opening a file is a parameter
    ([Host]). *)
From S2P Require Import Prelude.
From stdpp Require Import strings.
From stdpp Require Import options.

Local Open Scope Z_scope.

Module FlatHeap.

(** What a call comes to: a value, an [io::Error], or a loop that never ends. *)
Inductive io (A : Type) :=
  | Done (a : A)
  | Fails (e : string)
  | Hangs.
Arguments Done {_}. Arguments Fails {_}. Arguments Hangs {_}.

(** The error of opening segment file [i] or the index file of a capacity, if any; that a
    file does not exist is one when the database is opened read-only. *)
Class Host := {
  map_error : nat → option string;
  table_error : nat → option string;
}.

Definition DEFAULT_SEGMENT_SIZE : Z := Z.shiftl 1 29.
Definition MAX_SIZE : Z := Z.shiftl 1 48 - 1.
Definition MAGIC : Z := 0x654A.
Definition MAGIC_LENGTH : nat := 2.
Definition SHORT_LENGTH_MAX : nat := 127.
Definition LONG_FORM_BIT : Z := Z.shiftl 1 31.
Definition KEY_STORED_BIT : Z := Z.shiftl 1 30.
Definition LENGTH_MASK : Z := KEY_STORED_BIT - 1.

(** [Record]. *)
Record HeapRecord := mkRecord { rec_key : option bytes; rec_data : bytes; rec_total : nat }.

(** [Heap].  [first_dirty] is [None] for [NOTHING_DIRTY]. *)
Record Heap := mkHeap {
  mem : bytes;
  durable : bytes;
  segments : nat;
  segment_size : nat;
  alloc : nat;
  size : nat;
  first_dirty : option nat;
}.

Definition set_alloc (h : Heap) (a : nat) : Heap :=
  mkHeap (mem h) (durable h) (segments h) (segment_size h) a (size h) (first_dirty h).
Definition set_mem (h : Heap) (m : bytes) : Heap :=
  mkHeap m (durable h) (segments h) (segment_size h) (alloc h) (size h) (first_dirty h).

(** A record to append: key, data, and whether the key is stored. *)
Abbreviation entry := (bytes * bytes * bool)%type.

(** ** Mapping segments *)

Section mapping.
Context `{Host}.

(** [segments.push(self.map_segment(segments.len())?)]: the file is mapped as it is,
    or created, full of zeros. *)
Definition map_segment (h : Heap) : Heap :=
  let room := (S (segments h) * segment_size h - length (mem h))%nat in
  mkHeap (mem h ++ replicate room 0) (durable h ++ replicate room 0) (S (segments h))
    (segment_size h) (alloc h) (size h) (first_dirty h).

Fixpoint map_loop (n : nat) (h : Heap) : Heap * option string :=
  match n with
  | O => (h, None)
  | S n' =>
      match map_error (segments h) with
      | Some e => (h, Some e)
      | None => map_loop n' (map_segment h)
      end
  end.

Definition map_up_to (h : Heap) (segment : nat) : Heap * option string :=
  map_loop (S segment - segments h) h.

Definition is_power_of_two (n : nat) : bool := (0 <? n)%nat && (2 ^ Nat.log2 n =? n)%nat.

Definition div_ceil (a b : nat) : nat := ((a + (b - 1)) / b)%nat.

(** [Heap::open] on the files [disk]. *)
Definition open_heap (disk : bytes) (committed_size segment_size : nat) : io Heap :=
  if negb (is_power_of_two segment_size) then Fails "segment size must be a power of two"
  else
    let needed := Nat.max (div_ceil committed_size segment_size) 1 in
    match map_loop needed (mkHeap disk disk 0 segment_size committed_size committed_size None) with
    | (h, None) => Done h
    | (_, Some e) => Fails e
    end.

(** ** Appending *)

Definition length_field_size (data_length : nat) (store_key : bool) : nat :=
  if (data_length <=? SHORT_LENGTH_MAX)%nat && negb store_key then 1%nat else 4%nat.

Definition record_size (data_length : nat) (store_key : bool) (key_length : nat) : nat :=
  (MAGIC_LENGTH + length_field_size data_length store_key
   + (if store_key then key_length else 0) + data_length)%nat.

Definition length_field (data_length : nat) (store_key : bool) : bytes :=
  if (length_field_size data_length store_key =? 1)%nat then [u8 (Z.of_nat data_length)]
  else be_bytes 4 (Z.lor (Z.lor LONG_FORM_BIT (if store_key then KEY_STORED_BIT else 0))
                         (u32 (Z.of_nat data_length))).

(** The bytes [write_record] copies. *)
Definition record_bytes (key data : bytes) (store_key : bool) : bytes :=
  be_bytes 2 MAGIC ++ length_field (length data) store_key ++ (if store_key then key else []) ++ data.

Definition write_at (m : bytes) (offset : nat) (bs : bytes) : bytes :=
  take offset m ++ bs ++ drop (offset + length bs) m.

Definition write_record (h : Heap) (at_ : nat) (key data : bytes) (store_key : bool) : Heap :=
  set_mem h (write_at (mem h) at_ (record_bytes key data store_key)).

(** The loop of [reserve_run]: how many bytes and records fit in [room]. *)
Fixpoint fit_run (room used count : nat) (sizes : list nat) : nat * nat :=
  match sizes with
  | [] => (used, count)
  | s :: rest => if (room <? used + s)%nat then (used, count) else fit_run room (used + s) (S count) rest
  end.

(** The reservation of the thread that wins the compare-exchange: the frontier it
    claimed from, where the records start, how many they are, and the new frontier. *)
Definition reserve_run (h : Heap) (sizes : list nat) : result (nat * nat * nat * nat) string :=
  let segment_size := segment_size h in
  let from := alloc h in
  let room := (segment_size - from mod segment_size)%nat in
  let '(start, room) :=
    if (room <? default 0%nat (head sizes))%nat
    then ((from / segment_size + 1) * segment_size, segment_size)%nat else (from, room) in
  let '(used, count) := fit_run room 0 0 sizes in
  let end_ := (start + used)%nat in
  if MAX_SIZE <? Z.of_nat end_ then Err "heap would exceed the addressable limit"%string
  else Ok (from, start, count, end_).

(** [None]: the loop waits for a writer that reserved earlier. *)
Definition publish (h : Heap) (from to : nat) : option Heap :=
  if (size h =? from)%nat
  then Some (mkHeap (mem h) (durable h) (segments h) (segment_size h) (alloc h) to (first_dirty h))
  else None.

Definition fetch_min (dirty : option nat) (segment : nat) : option nat :=
  Some (match dirty with Some d => Nat.min d segment | None => segment end).

Definition size_of (r : entry) : nat := let '(key, data, store_key) := r in record_size (length data) store_key (length key).

Fixpoint write_run (h : Heap) (at_ : nat) (records : list entry) : list nat * Heap :=
  match records with
  | [] => ([], h)
  | (key, data, store_key) :: rest =>
      let h := write_record h at_ key data store_key in
      let '(offsets, h) := write_run h (at_ + size_of (key, data, store_key)) rest in
      (at_ :: offsets, h)
  end.

(** The [while done < records.len()] loop. *)
Fixpoint append_loop (fuel : nat) (h : Heap) (records : list entry) : io (list nat) * Heap :=
  match records, fuel with
  | [], _ => (Done [], h)
  | _, O => (Hangs, h)
  | _, S fuel' =>
      match reserve_run h (size_of <$> records) with
      | Err e => (Fails e, h)
      | Ok (from, start, count, end_) =>
          let h := set_alloc h end_ in
          let segment := (start / segment_size h)%nat in
          match map_up_to h segment with
          | (h, Some e) =>
              match publish h from end_ with
              | None => (Hangs, h)
              | Some h => (Fails e, h)
              end
          | (h, None) =>
              let '(offsets, h) := write_run h start (take count records) in
              let h := mkHeap (mem h) (durable h) (segments h) (segment_size h) (alloc h) (size h)
                         (fetch_min (first_dirty h) segment) in
              match publish h from end_ with
              | None => (Hangs, h)
              | Some h =>
                  match append_loop fuel' h (drop count records) with
                  | (Done rest, h) => (Done (offsets ++ rest), h)
                  | (Fails e, h) => (Fails e, h)
                  | (Hangs, h) => (Hangs, h)
                  end
              end
          end
      end
  end.

Definition append_many (h : Heap) (records : list entry) : io (list nat) * Heap :=
  if existsb (λ r, segment_size h <? size_of r)%nat records
  then (Fails "record exceeds the segment size", h)
  else append_loop (length records) h records.

Definition append (h : Heap) (key data : bytes) (store_key : bool) : io nat * Heap :=
  match append_many h [(key, data, store_key)] with
  | (Done offsets, h) => (Done (default 0%nat (head offsets)), h)
  | (Fails e, h) => (Fails e, h)
  | (Hangs, h) => (Hangs, h)
  end.
End mapping.

(** ** Reading *)

(** The record [with_record] hands to its closure. *)
Definition with_record (h : Heap) (offset key_length : nat) : option HeapRecord :=
  if (size h <=? offset)%nat then None
  else
    let segment_index := (offset / segment_size h)%nat in
    let start := (offset mod segment_size h)%nat in
    let base := (segment_index * segment_size h)%nat in
    let limit := segment_size h in
    if negb (segment_index <? segments h)%nat then None
    else if (limit <? start + MAGIC_LENGTH)%nat then None
    else if negb (of_be (slice (mem h) (base + start) (base + start + 2)) =? MAGIC) then None
    else
      let p := (start + MAGIC_LENGTH)%nat in
      if (limit <=? p)%nat then None
      else
        let first := default 0 (mem h !! (base + p)%nat) in
        let short := Z.land first 0x80 =? 0 in
        if negb short && (limit <? p + 4)%nat then None
        else
          let '(p, data_length, key_stored) :=
            if short then ((p + 1)%nat, Z.to_nat first, false)
            else
              let header := of_be (slice (mem h) (base + p) (base + p + 4)) in
              ((p + 4)%nat, Z.to_nat (Z.land header LENGTH_MASK), negb (Z.land header KEY_STORED_BIT =? 0)) in
          let key_bytes := if key_stored then key_length else 0%nat in
          if (limit <? p + key_bytes + data_length)%nat then None
          else
            let total := (p - start + key_bytes + data_length)%nat in
            if (size h <? offset + total)%nat then None
            else
              let key := if key_stored then Some (slice (mem h) (base + p) (base + p + key_length)) else None in
              let p := (p + key_bytes)%nat in
              Some (mkRecord key (slice (mem h) (base + p) (base + p + data_length)) total).

(** What [scan] visits; [None] when the fuel runs out. *)
Fixpoint scan_loop (fuel : nat) (h : Heap) (key_length offset : nat) : option (list HeapRecord) :=
  if (size h <=? offset)%nat then Some []
  else
    match fuel with
    | O => None
    | S fuel' =>
        let skip := scan_loop fuel' h key_length ((offset / segment_size h + 1) * segment_size h) in
        match with_record h offset key_length with
        | Some r =>
            if (0 <? rec_total r)%nat
            then cons r <$> scan_loop fuel' h key_length (offset + rec_total r)
            else cons r <$> skip
        | None => skip
        end
    end.

(** Every step moves at least a byte. *)
Definition scan (h : Heap) (key_length : nat) : option (list HeapRecord) :=
  scan_loop (size h) h key_length 0.

(** ** Durability *)

Definition force (h : Heap) : Heap :=
  match first_dirty h with
  | None => h
  | Some first =>
      let from := (first * segment_size h)%nat in
      let to := (segments h * segment_size h)%nat in
      mkHeap (mem h) (take from (durable h) ++ slice (mem h) from to ++ drop (Nat.max from to) (durable h))
        (segments h) (segment_size h) (alloc h) (size h) None
  end.

Definition truncate_to (h : Heap) (committed_size : nat) : Heap :=
  mkHeap (mem h) (durable h) (segments h) (segment_size h) committed_size committed_size (first_dirty h).

(** ** Well-formed heaps *)

(** What the device does not hold lies in mapped segments from [first_dirty] on.  A
    record's length has to fit in the thirty bits of its header. *)
Record heap_wf (h : Heap) : Prop := {
  ok_segment : (0 < segment_size h)%nat;
  ok_header : Z.of_nat (segment_size h) ≤ 2 ^ 30;
  ok_durable : length (durable h) = length (mem h);
  ok_mapped : (segments h * segment_size h ≤ length (mem h))%nat;
  ok_clean : ∀ o, mem h !! o ≠ durable h !! o →
    (o < segments h * segment_size h)%nat ∧ ∃ f, first_dirty h = Some f ∧ (f * segment_size h ≤ o)%nat;
}.

(** Between calls both cursors agree, at a mapped place.  (After a failed append they
    may stand in the segment that could not be mapped.) *)
Record heap_ok (h : Heap) : Prop := {
  ok_wf : heap_wf h;
  ok_cursors : alloc h = size h;
  ok_limit : Z.of_nat (size h) ≤ MAX_SIZE;
}.

(** [h'] has everything below the frontier of [h]. *)
Record extends (h h' : Heap) : Prop := {
  ext_segment : segment_size h' = segment_size h;
  ext_size : (size h ≤ size h')%nat;
  ext_segments : (segments h ≤ segments h')%nat;
  ext_mem : take (size h) (mem h) `prefix_of` mem h';
}.

(** What the device holds below the frontier of [h], it still holds. *)
Definition keeps (h h' : Heap) : Prop :=
  ∀ o, (o < size h)%nat → mem h !! o = durable h !! o → mem h' !! o = durable h' !! o.

#[global] Instance keeps_refl : Reflexive keeps.
Proof. by intros h o. Qed.

Lemma prefix_take {A} (l m : list A) n : l `prefix_of` m → (length l ≤ n)%nat → l `prefix_of` take n m.
Proof. intros [k ->] Hl. rewrite take_app_ge by done. by apply prefix_app_r. Qed.

#[global] Instance extends_preorder : PreOrder extends.
Proof.
  split.
  - intros h. constructor; try done. exists (drop (size h) (mem h)). by rewrite take_drop.
  - intros h1 h2 h3 [Ha Hb Hc Hd] [Ha' Hb' Hc' Hd']. constructor; [congruence|lia|lia|].
    etrans; [|exact Hd']. apply prefix_take; [done|]. rewrite length_take. lia.
Qed.

(** The record [r] lies at [offset], in one mapped segment and below the frontier. *)
Definition record_at (h : Heap) (offset : nat) (r : entry) : Prop :=
  let bs := record_bytes r.1.1 r.1.2 r.2 in
  (offset / segment_size h < segments h)%nat
  ∧ (offset mod segment_size h + length bs ≤ segment_size h)%nat
  ∧ (offset + length bs ≤ size h)%nat
  ∧ slice (mem h) offset (offset + length bs) = bs.

(** *** Bytes *)

Lemma length_length_field n sk : length (length_field n sk) = length_field_size n sk.
Proof. unfold length_field, length_field_size. destruct (_ && _); [done|]. apply length_be_bytes. Qed.

Lemma length_record_bytes key data sk : length (record_bytes key data sk) = record_size (length data) sk (length key).
Proof.
  unfold record_bytes, record_size, MAGIC_LENGTH. rewrite !length_app, length_be_bytes, length_length_field.
  destruct sk; simpl; lia.
Qed.

Lemma size_of_pos r : (0 < size_of r)%nat.
Proof. destruct r as [[key data] sk]. unfold size_of, record_size, MAGIC_LENGTH. lia. Qed.

Lemma length_entry_bytes r : length (record_bytes r.1.1 r.1.2 r.2) = size_of r.
Proof. destruct r as [[key data] sk]. apply length_record_bytes. Qed.

Lemma length_write_at m o bs : (o + length bs ≤ length m)%nat → length (write_at m o bs) = length m.
Proof. intros. unfold write_at. rewrite !length_app, length_take, length_drop. lia. Qed.

Lemma take_write_at m o bs n : (n ≤ o ≤ length m)%nat → take n (write_at m o bs) = take n m.
Proof.
  intros [Hn Ho]. unfold write_at. rewrite take_app_le by (rewrite length_take; lia).
  rewrite take_take. f_equal. lia.
Qed.

Lemma slice_write_at m o bs : (o ≤ length m)%nat → slice (write_at m o bs) o (o + length bs) = bs.
Proof.
  intros Ho. unfold slice, write_at. rewrite drop_app_length' by (rewrite length_take; lia).
  rewrite Nat.add_comm, Nat.add_sub. by rewrite take_app_length.
Qed.

Lemma lookup_write_at m o bs i : (o + length bs ≤ length m)%nat → (i < o ∨ o + length bs ≤ i)%nat →
  write_at m o bs !! i = m !! i.
Proof.
  intros Hm Hi. unfold write_at. destruct (decide (i < o)%nat) as [Hlt|Hge].
  - rewrite lookup_app_l by (rewrite length_take; lia). by apply lookup_take_lt.
  - rewrite lookup_app_r, length_take, lookup_app_r, lookup_drop by (rewrite ?length_take; lia). f_equal. lia.
Qed.

Lemma slice_take {A} (m : list A) a b n : (b ≤ n)%nat → slice (take n m) a b = slice m a b.
Proof. intros Hb. unfold slice. rewrite skipn_firstn_comm, take_take. f_equal. lia. Qed.

Lemma slice_app_l {A} (l k : list A) a b : (b ≤ length l)%nat → slice (l ++ k) a b = slice l a b.
Proof.
  intros Hb. unfold slice. destruct (decide (a ≤ b)%nat) as [Hab|Hab].
  - rewrite drop_app_le by lia. by rewrite take_app_le by (rewrite length_drop; lia).
  - replace (b - a)%nat with 0%nat by lia. done.
Qed.

Lemma record_at_extends h h' o r : extends h h' → record_at h o r → record_at h' o r.
Proof.
  intros [Hs Hsz Hsg Hm] (Hmp & Hseg & Hfr & Hb). unfold record_at. rewrite Hs. split_and!; [lia|done|lia|].
  assert (offset_end_ok : (o + length (record_bytes r.1.1 r.1.2 r.2) ≤ length (mem h))%nat).
  { apply (f_equal length) in Hb. unfold slice in Hb. rewrite length_take, length_drop, length_entry_bytes in *.
    pose proof (size_of_pos r). lia. }
  destruct Hm as [k ->]. rewrite slice_app_l by (rewrite length_take; lia). by rewrite slice_take by lia.
Qed.

Lemma slice_slice {A} (m : list A) a b i j : (a + j ≤ b)%nat → slice (slice m a b) i j = slice m (a + i) (a + j).
Proof.
  intros Hj. unfold slice. rewrite skipn_firstn_comm, drop_drop, take_take. f_equal. lia.
Qed.

(** *** Headers *)

Lemma land_pow2_small x k : 0 ≤ k → 0 ≤ x < 2 ^ k → Z.land x (2 ^ k) = 0.
Proof.
  intros Hk Hx. apply Z.bits_inj'. intros i Hi. rewrite Z.land_spec, Z.bits_0, Z.pow2_bits_eqb by done.
  destruct (Z.eqb_spec k i) as [<-|]; [|apply andb_false_r].
  by rewrite (testbit_high k).
Qed.

(** The header of a long record. *)
Definition long_header (n : nat) (sk : bool) : Z :=
  Z.lor (Z.lor LONG_FORM_BIT (if sk then KEY_STORED_BIT else 0)) (u32 (Z.of_nat n)).

Section header.
Context (n : nat) (sk : bool) (Hn : Z.of_nat n < 2 ^ 30).

Lemma long_header_sum : long_header n sk = (if sk then 3 else 2) * 2 ^ 30 + Z.of_nat n.
Proof using Hn.
  unfold long_header. assert (u32 (Z.of_nat n) = Z.of_nat n) as -> by (apply wrap_small; unfold fits; lia).
  rewrite <- lor_shiftl by (unfold fits; lia). by destruct sk.
Qed.

Lemma long_header_fits : fits (8 * Z.of_nat 4) (long_header n sk).
Proof using Hn. rewrite long_header_sum. unfold fits. change (8 * Z.of_nat 4) with 32. destruct sk; lia. Qed.

Lemma long_header_length : Z.to_nat (Z.land (long_header n sk) LENGTH_MASK) = n.
Proof using Hn.
  change LENGTH_MASK with (Z.ones 30). rewrite Z.land_ones, long_header_sum by lia.
  rewrite Z.add_comm, Z.mod_add, Z.mod_small by lia. lia.
Qed.

Lemma long_header_key : negb (Z.land (long_header n sk) KEY_STORED_BIT =? 0) = sk.
Proof using Hn.
  unfold long_header. assert (u32 (Z.of_nat n) = Z.of_nat n) as -> by (apply wrap_small; unfold fits; lia).
  rewrite !Z.land_lor_distr_l. change (Z.land (Z.of_nat n) KEY_STORED_BIT) with (Z.land (Z.of_nat n) (2 ^ 30)).
  rewrite land_pow2_small by lia.
  by destruct sk.
Qed.

Lemma long_header_first : (Z.land (default 0 (be_bytes 4 (long_header n sk) !! 0%nat)) 0x80 =? 0) = false.
Proof using Hn.
  apply Z.eqb_neq. intros Hz. change 0x80 with (2 ^ 7) in Hz.
  assert (Z.testbit (Z.land (default 0 (be_bytes 4 (long_header n sk) !! 0%nat)) (2 ^ 7)) 7 = false) as Hb
    by (by rewrite Hz, Z.bits_0).
  rewrite Z.land_spec, Z.pow2_bits_true, andb_true_r in Hb by lia.
  change (default 0 _) with (long_header n sk / 256 / 256 / 256 mod 256) in Hb.
  assert (∀ x, x / 256 / 256 / 256 = x / 2 ^ 24) as Hd by (intros; rewrite !Z.div_div by lia; done).
  rewrite Hd in Hb.
  change 256 with (2 ^ 8) in Hb. rewrite Z.mod_pow2_bits_low, Z.div_pow2_bits in Hb by lia.
  unfold long_header in Hb. rewrite !Z.lor_spec in Hb. discriminate.
Qed.
End header.

Lemma length_field_long n sk : length_field_size n sk = 4%nat → length_field n sk = be_bytes 4 (long_header n sk).
Proof. intros Hl. unfold length_field. by rewrite Hl. Qed.

(** Reading the record at an offset gives it back. *)
Lemma with_record_at h o key data sk key_length :
  heap_wf h → record_at h o (key, data, sk) → (sk = true → length key = key_length) →
  with_record h o key_length = Some (mkRecord (if sk then Some key else None) data (size_of (key, data, sk))).
Proof.
  intros Hok (Hmapped & Hseg & Hfr & Hb) Hkey. cbn [fst snd] in *. pose proof (length_record_bytes key data sk) as Hlen.
  change (record_size _ _ _) with (size_of (key, data, sk)) in Hlen. pose proof (size_of_pos (key, data, sk)) as Hpos.
  set (bs := record_bytes key data sk) in *. set (ss := segment_size h) in *.
  pose proof (ok_segment h Hok) as Hss. fold ss in Hss. pose proof (Nat.div_mod_eq o ss) as Hdm.
  assert (∀ i j, (j ≤ length bs)%nat → slice (mem h) (o + i) (o + j) = slice bs i j) as Hsl.
  { intros i j Hj. rewrite <- Hb at 1. by rewrite slice_slice by lia. }
  assert (∀ i, (i < length bs)%nat → mem h !! (o + i)%nat = bs !! i) as Hlk.
  { intros i Hi. rewrite <- Hb at 1. unfold slice. by rewrite lookup_take_lt, lookup_drop by lia. }
  assert (2 < length bs)%nat as H2.
  { rewrite Hlen. unfold size_of, record_size, MAGIC_LENGTH, length_field_size. case_match; lia. }
  unfold with_record. fold ss. destruct (Nat.leb_spec (size h) o); [lia|].
  destruct (Nat.ltb_spec (o / ss) (segments h)); [|lia]. cbn [negb].
  set (base := (o / ss * ss)%nat). set (start := (o mod ss)%nat) in *.
  assert (o = base + start)%nat as Ho by (subst base; lia). clearbody base start. subst o.
  unfold MAGIC_LENGTH. destruct (Nat.ltb_spec ss (start + 2)); [lia|].
  rewrite <- (Nat.add_0_r (base + start)) at 1. rewrite Hsl by lia.
  change (slice bs 0 2) with (be_bytes 2 MAGIC). change (of_be (be_bytes 2 MAGIC) =? MAGIC) with true. cbn [negb].
  destruct (Nat.leb_spec ss (start + 2)); [lia|]. rewrite (Nat.add_assoc base start 2), Hlk by done.
  unfold size_of, record_size, MAGIC_LENGTH in Hlen |- *.
  destruct (length_field_size (length data) sk =? 1)%nat eqn:Hf.
  - assert ((length data ≤ 127)%nat ∧ sk = false) as [Hd ->].
    { unfold length_field_size in Hf. destruct (Nat.leb_spec (length data) SHORT_LENGTH_MAX), sk; done. }
    apply Nat.eqb_eq in Hf. rewrite Hf in Hlen |- *.
    assert (bs = be_bytes 2 MAGIC ++ [Z.of_nat (length data)] ++ data) as Hbs.
    { subst bs. unfold record_bytes, length_field. rewrite Hf, app_nil_l. cbn [Nat.eqb].
      by assert (u8 (Z.of_nat (length data)) = Z.of_nat (length data)) as -> by (apply wrap_small; unfold fits; lia). }
    assert (default 0 (bs !! 2%nat) = Z.of_nat (length data)) as -> by by rewrite Hbs.
    change 0x80 with (2 ^ 7). rewrite land_pow2_small by lia. cbn [Z.eqb negb andb].
    rewrite Nat2Z.id. destruct (Nat.ltb_spec ss (start + 2 + 1 + 0 + length data)); [lia|].
    destruct (Nat.ltb_spec (size h) (base + start + (start + 2 + 1 - start + 0 + length data))); [lia|].
    do 2 f_equal; [|lia]. replace (base + (start + 2 + 1 + 0))%nat with (base + start + 3)%nat by lia.
    rewrite <- (Nat.add_assoc (base + start) 3), Hsl, Hbs by lia. unfold slice. rewrite Nat.add_comm, Nat.add_sub.
    apply firstn_all.
  - assert (length_field_size (length data) sk = 4%nat) as Hf4
      by (unfold length_field_size in *; destruct (_ && _); done).
    assert (Z.of_nat (length data) < 2 ^ 30) as Hd by (pose proof (ok_header h Hok) as Hh; fold ss in Hh; lia).
    set (hd := be_bytes 4 (long_header (length data) sk)).
    assert (bs = be_bytes 2 MAGIC ++ hd ++ (if sk then key else []) ++ data) as Hbs
      by (subst bs hd; unfold record_bytes; by rewrite length_field_long).
    assert (length hd = 4%nat) as Hhd by apply length_be_bytes. rewrite Hf4 in Hlen |- *.
    assert (default 0 (bs !! 2%nat) = default 0 (hd !! 0%nat)) as ->.
    { rewrite Hbs, lookup_app_r by (rewrite length_be_bytes; lia). rewrite length_be_bytes, lookup_app_l by lia. done. }
    assert ((Z.land (default 0 (hd !! 0%nat)) 0x80 =? 0) = false) as -> by (by apply long_header_first).
    cbn [negb andb].
    destruct (Nat.ltb_spec ss (start + 2 + 4)); [lia|].
    rewrite <- (Nat.add_assoc (base + start) 2 4), Hsl by lia.
    assert (slice bs 2 (2 + 4) = hd) as ->.
    { rewrite Hbs. unfold slice. rewrite drop_app_length' by (rewrite length_be_bytes; lia).
      rewrite take_app_length' by lia. done. }
    assert (of_be hd = long_header (length data) sk) as -> by (by apply of_be_be_bytes, long_header_fits).
    rewrite long_header_length, long_header_key by done.
    assert ((if sk then key_length else 0) = length (if sk then key else []))%nat as Hkl
      by (destruct sk; [by rewrite Hkey|done]).
    assert (length (if sk then key else []) = if sk then length key else 0%nat) as Hkl2 by by destruct sk.
    rewrite Hkl. set (k := if sk then key else []) in *.
    destruct (Nat.ltb_spec ss (start + 2 + 4 + length k + length data)); [lia|].
    destruct (Nat.ltb_spec (size h) (base + start + (start + 2 + 4 - start + length k + length data))); [lia|].
    replace (base + (start + 2 + 4))%nat with (base + start + 6)%nat by lia.
    replace (base + (start + 2 + 4 + length k))%nat with (base + start + (6 + length k))%nat by lia.
    do 2 f_equal; [| |lia].
    + destruct sk; [|done]. f_equal. rewrite <- (Hkey eq_refl).
      rewrite <- (Nat.add_assoc (base + start)), Hsl, Hbs by (subst k; lia). unfold slice.
      rewrite (app_assoc _ hd), drop_app_length', Nat.add_comm, Nat.add_sub
        by (rewrite length_app, length_be_bytes; lia).
      by apply take_app_length.
    + rewrite <- (Nat.add_assoc (base + start)), Hsl, Hbs by lia. unfold slice.
      rewrite !(app_assoc _ hd), !(app_assoc _ k), drop_app_length', Nat.add_comm, Nat.add_sub
        by (rewrite !length_app, length_be_bytes; lia).
      apply firstn_all.
Qed.

Lemma slice_ext {A} (l l' : list A) a b : (∀ i, (a ≤ i < b)%nat → l' !! i = l !! i) → slice l' a b = slice l a b.
Proof.
  intros Heq. apply list_eq. intros i. unfold slice. destruct (decide (i < b - a)%nat) as [Hlt|Hge].
  - rewrite !lookup_take_lt, !lookup_drop by done. apply Heq. lia.
  - by rewrite !lookup_take_ge by lia.
Qed.

(** A record reads the same in another heap that maps its segment, has published it and
    holds the same bytes there. *)
Lemma with_record_transfer h h' o kl r : (0 < segment_size h)%nat → segment_size h' = segment_size h →
  with_record h o kl = Some r → (o / segment_size h < segments h')%nat → (o + rec_total r ≤ size h')%nat →
  (∀ i, (o ≤ i < o + rec_total r)%nat → mem h' !! i = mem h !! i) → with_record h' o kl = Some r.
Proof.
  intros Hpos Hs. unfold with_record. rewrite Hs. set (ss := segment_size h) in *.
  pose proof (Nat.div_mod_eq o ss) as Hdm. pose proof (Nat.mod_upper_bound o ss ltac:(lia)) as Hmod.
  set (start := (o mod ss)%nat) in *. set (q := (o / ss)%nat) in *. unfold MAGIC_LENGTH.
  destruct (Nat.leb_spec (size h) o) as [|H1]; [done|].
  destruct (Nat.ltb_spec q (segments h)) as [H2|]; [|done]. cbn [negb].
  destruct (Nat.ltb_spec ss (start + 2)) as [|H3]; [done|].
  destruct (negb (of_be (slice (mem h) (q * ss + start) (q * ss + start + 2)) =? MAGIC)) eqn:Hmg; [done|].
  destruct (Nat.leb_spec ss (start + 2)) as [|H4]; [done|].
  destruct (Z.land (default 0 (mem h !! (q * ss + (start + 2))%nat)) 0x80 =? 0) eqn:Hshort; cbn [negb andb].
  - set (n := Z.to_nat (default 0 (mem h !! (q * ss + (start + 2))%nat))).
    destruct (Nat.ltb_spec ss (start + 2 + 1 + 0 + n)) as [|H5]; [done|].
    destruct (Nat.ltb_spec (size h) (o + (start + 2 + 1 - start + 0 + n))) as [|H6]; [done|].
    intros [= <-] Hsg Hsz Heq. cbn [rec_total] in *.
    assert (∀ a b, (o ≤ a)%nat → (b ≤ o + (start + 2 + 1 - start + 0 + n))%nat → slice (mem h') a b = slice (mem h) a b)
      as Hsl by (intros a b Ha Hb; apply slice_ext; intros i Hi; apply Heq; lia).
    destruct (Nat.leb_spec (size h') o); [lia|]. destruct (Nat.ltb_spec q (segments h')); [|lia]. cbn [negb].
    rewrite (Hsl (q * ss + start)%nat), Hmg, (Heq (q * ss + (start + 2))%nat), Hshort by lia. cbn [negb andb]. fold n.
    destruct (Nat.ltb_spec ss (start + 2 + 1 + 0 + n)); [lia|].
    destruct (Nat.ltb_spec (size h') (o + (start + 2 + 1 - start + 0 + n))); [lia|]. by rewrite Hsl by lia.
  - destruct (Nat.ltb_spec ss (start + 2 + 4)) as [|H5]; [done|].
    set (header := of_be (slice (mem h) (q * ss + (start + 2)) (q * ss + (start + 2) + 4))).
    set (dl := Z.to_nat (Z.land header LENGTH_MASK)). set (ks := negb (Z.land header KEY_STORED_BIT =? 0)).
    destruct (Nat.ltb_spec ss (start + 2 + 4 + (if ks then kl else 0) + dl)) as [|H6]; [done|].
    destruct (Nat.ltb_spec (size h) (o + (start + 2 + 4 - start + (if ks then kl else 0) + dl))) as [|H7]; [done|].
    intros [= <-] Hsg Hsz Heq. cbn [rec_total] in *.
    assert (∀ a b, (o ≤ a)%nat → (b ≤ o + (start + 2 + 4 - start + (if ks then kl else 0) + dl))%nat →
      slice (mem h') a b = slice (mem h) a b)
      as Hsl by (intros a b Ha Hb; apply slice_ext; intros i Hi; apply Heq; lia).
    destruct (Nat.leb_spec (size h') o); [lia|]. destruct (Nat.ltb_spec q (segments h')); [|lia]. cbn [negb].
    rewrite (Hsl (q * ss + start)%nat), Hmg, (Heq (q * ss + (start + 2))%nat), Hshort by lia. cbn [negb andb].
    rewrite (Hsl (q * ss + (start + 2))%nat) by lia. fold header. fold dl. fold ks.
    destruct (Nat.ltb_spec ss (start + 2 + 4 + (if ks then kl else 0) + dl)); [lia|].
    destruct (Nat.ltb_spec (size h') (o + (start + 2 + 4 - start + (if ks then kl else 0) + dl))); [lia|].
    destruct ks; by rewrite !Hsl by lia.
Qed.

(** Where the records that can be read are. *)
Lemma with_record_range h o kl r : (0 < segment_size h)%nat → with_record h o kl = Some r →
  (o < size h ∧ o / segment_size h < segments h ∧ o + rec_total r ≤ size h
   ∧ 0 < rec_total r ∧ o mod segment_size h + rec_total r ≤ segment_size h)%nat.
Proof.
  intros Hpos. unfold with_record. set (ss := segment_size h) in *. pose proof (Nat.mod_upper_bound o ss ltac:(lia)) as Hmod.
  set (start := (o mod ss)%nat) in *. unfold MAGIC_LENGTH.
  destruct (Nat.leb_spec (size h) o); [done|]. destruct (Nat.ltb_spec (o / ss) (segments h)); [|done]. cbn [negb].
  repeat case_match; try done; intros [= <-]; cbn [rec_total]; simplify_eq;
    repeat match goal with Hx : (_ <? _)%nat = false |- _ => apply Nat.ltb_ge in Hx end; split_and!; lia.
Qed.

(** A record that can be read stays readable as the heap grows. *)
Lemma with_record_extends h h' o kl r : heap_wf h → extends h h' →
  with_record h o kl = Some r → with_record h' o kl = Some r.
Proof.
  intros Hwf [Hs Hsz Hsg [k Hm]] Hr. pose proof (ok_mapped h Hwf) as Hlen. pose proof (ok_segment h Hwf) as Hpos.
  pose proof (with_record_range h o kl r Hpos Hr) as (Ho & Hseg & Hfr & _ & Hin).
  eapply with_record_transfer; [done|done|exact Hr|lia|lia|]. intros i Hi.
  assert (i < length (mem h))%nat as Hil.
  { pose proof (Nat.div_mod_eq o (segment_size h)). nia. }
  rewrite Hm, lookup_app_l by (rewrite length_take; lia). apply lookup_take_lt. lia.
Qed.

(** The heap as it is below [n]: what a reader sees whose frontier is there. *)
Definition view (h : Heap) (n : nat) : Heap :=
  mkHeap (mem h) (mem h) (Nat.min (segments h) (div_ceil n (segment_size h))) (segment_size h) n n None.

Lemma view_wf h n : heap_wf h → heap_wf (view h n).
Proof. intros [Hs Hh Hd Hm Hc]. constructor; cbn; try done. nia. Qed.

Lemma div_ceil_mul a b : (0 < b → a ≤ div_ceil a b * b)%nat.
Proof.
  intros Hb. unfold div_ceil. pose proof (Nat.div_mod_eq (a + (b - 1)) b) as Hd.
  pose proof (Nat.mod_upper_bound (a + (b - 1)) b ltac:(lia)). nia.
Qed.

Lemma div_ceil_le a b k : (0 < b → a ≤ k * b → div_ceil a b ≤ k)%nat.
Proof. intros Hb Ha. unfold div_ceil. apply Nat.lt_succ_r, Nat.Div0.div_lt_upper_bound. nia. Qed.

Lemma view_extends h n : (n ≤ size h)%nat → extends (view h n) h.
Proof. intros Hn. constructor; cbn; [done|done|lia|]. exists (drop n (mem h)). by rewrite take_drop. Qed.

Lemma view_view_extends h h' n : extends h h' → (n ≤ size h)%nat → extends (view h n) (view h' n).
Proof.
  intros [Hs Hsz Hsg Hm] Hn. constructor; cbn; [done|done|rewrite Hs; lia|].
  etrans; [|exact Hm]. apply prefix_take; [|rewrite length_take; lia].
  exists (drop n (mem h)). by rewrite take_drop.
Qed.

Lemma with_record_view h n o kl r : (0 < segment_size h)%nat → with_record h o kl = Some r →
  (o + rec_total r ≤ n)%nat → with_record (view h n) o kl = Some r.
Proof.
  intros Hpos Hr Hn. pose proof (with_record_range h o kl r Hpos Hr) as (Ho & Hseg & Hfr & Hp & Hin).
  eapply with_record_transfer; [done|done|exact Hr| |done|done]. cbn [view segments].
  apply Nat.min_glb_lt; [done|]. apply Nat.Div0.div_lt_upper_bound.
  pose proof (div_ceil_mul n (segment_size h) Hpos). lia.
Qed.

(** *** Appending *)

Section append.
Context `{Host}.

Lemma map_segment_wf h : heap_wf h → heap_wf (map_segment h).
Proof.
  intros [Hs Hh Hd Hm Hc]. constructor; cbn [map_segment mem durable segments segment_size first_dirty]; try done.
  - rewrite !length_app, !length_replicate. lia.
  - rewrite length_app, length_replicate. lia.
  - intros o Ho. destruct (decide (o < length (mem h))%nat) as [Hlt|Hge].
    + rewrite !lookup_app_l in Ho by lia. destruct (Hc o Ho) as [Hb Hf]. split; [lia|done].
    + rewrite !lookup_app_r, Hd in Ho by lia. done.
Qed.

Lemma map_loop_spec n : ∀ h h' e, heap_wf h → map_loop n h = (h', e) →
  heap_wf h' ∧ segment_size h' = segment_size h ∧ alloc h' = alloc h ∧ size h' = size h
  ∧ first_dirty h' = first_dirty h ∧ (segments h ≤ segments h')%nat ∧ mem h `prefix_of` mem h'
  ∧ (e = None → segments h' = segments h + n)%nat
  ∧ ∀ o, mem h !! o = durable h !! o → mem h' !! o = durable h' !! o.
Proof.
  induction n as [|n IH]; intros h h' e Hwf; cbn [map_loop].
  { intros [= <- <-]. split_and!; try done; lia. }
  destruct (map_error (segments h)) eqn:He.
  { intros [= <- <-]. split_and!; try done. }
  intros Hl. apply IH in Hl; [|by apply map_segment_wf]. cbn [map_segment segment_size alloc size first_dirty
    segments mem durable] in Hl. destruct Hl as (? & ? & ? & ? & ? & Hsg & Hp & Hn & Hk).
  split_and!; try done; [lia| |intros; rewrite Hn by done; lia|].
  - etrans; [|exact Hp]. by apply prefix_app_r.
  - intros o Ho. apply Hk. pose proof (ok_durable h Hwf) as Hd. destruct (decide (o < length (mem h))%nat).
    + by rewrite !lookup_app_l by lia.
    + by rewrite !lookup_app_r, Hd by lia.
Qed.

Definition bytes_of (r : entry) : bytes := record_bytes r.1.1 r.1.2 r.2.
Definition total_size (records : list entry) : nat := sum_list (size_of <$> records).

Lemma total_size_cons r records : total_size (r :: records) = (size_of r + total_size records)%nat.
Proof. done. Qed.

Lemma total_size_take k records : sum_list (take k (size_of <$> records)) = total_size (take k records).
Proof. unfold total_size. by rewrite <- fmap_take. Qed.

(** The offsets of records that follow each other from [start] on. *)
Fixpoint run_offsets (start : nat) (records : list entry) : list nat :=
  match records with [] => [] | r :: rest => start :: run_offsets (start + size_of r) rest end.

Fixpoint placed (m : bytes) (start : nat) (records : list entry) : Prop :=
  match records with
  | [] => True
  | r :: rest => slice m start (start + size_of r) = bytes_of r ∧ placed m (start + size_of r) rest
  end.

(** A run writes its records one after the other, from [start] on, and nothing else. *)
Lemma write_run_spec records : ∀ h start offsets h',
  (start + total_size records ≤ length (mem h))%nat → write_run h start records = (offsets, h') →
  h' = set_mem h (mem h') ∧ length (mem h') = length (mem h)
  ∧ take start (mem h') = take start (mem h)
  ∧ drop (start + total_size records) (mem h') = drop (start + total_size records) (mem h)
  ∧ offsets = run_offsets start records ∧ placed (mem h') start records.
Proof.
  induction records as [|[[key data] sk] records IH]; intros h start offsets h' Hfit; cbn [write_run].
  { intros [= <- <-]. split_and!; try done. by destruct h. }
  set (r := (key, data, sk)) in *. rewrite total_size_cons in Hfit |- *.
  pose proof (length_record_bytes key data sk) as Hl. change (record_size _ _ _) with (size_of r) in Hl.
  set (m := write_at (mem h) start (record_bytes key data sk)).
  assert (length m = length (mem h)) as Hm by (apply length_write_at; lia).
  change (write_record h start key data sk) with (set_mem h m).
  destruct (write_run (set_mem h m) (start + size_of r) records) as [offs hf] eqn:Hrun.
  intros [= <- <-]. apply IH in Hrun; [|cbn [set_mem mem]; lia]. cbn [set_mem mem] in Hrun.
  destruct Hrun as (Heq & Hlen & Htake & Hdrop & Hoffs & Hall).
  assert (start + size_of r + total_size records = start + (size_of r + total_size records))%nat as Hassoc by lia.
  rewrite Hassoc in Hdrop. split_and!.
  - rewrite Heq. done.
  - lia.
  - rewrite <- (Nat.min_l start (start + size_of r)) at 1 by lia. rewrite <- take_take, Htake, take_take, Nat.min_l by lia.
    apply take_write_at. lia.
  - rewrite Hdrop. subst m. unfold write_at. rewrite app_assoc, drop_app, length_app, length_take, Hl.
    rewrite drop_ge, app_nil_l, drop_drop by (rewrite length_app, length_take; lia). f_equal. lia.
  - by rewrite Hoffs.
  - split; [|done]. rewrite <- (slice_take _ _ _ (start + size_of r)), Htake, slice_take by lia.
    subst m. rewrite <- Hl. apply slice_write_at. lia.
Qed.

Lemma fit_run_spec room sizes : ∀ used count used' count', (used ≤ room)%nat →
  fit_run room used count sizes = (used', count') →
  ∃ k, count' = (count + k)%nat ∧ (k ≤ length sizes)%nat ∧ used' = (used + sum_list (take k sizes))%nat
    ∧ (used' ≤ room)%nat ∧ (∀ s rest, sizes = s :: rest → used + s ≤ room → 1 ≤ k)%nat.
Proof.
  induction sizes as [|s sizes IH]; intros used count used' count' Hu; cbn [fit_run].
  { intros [= <- <-]. exists 0%nat. split_and!; simpl; try lia. done. }
  destruct (Nat.ltb_spec room (used + s)).
  { intros [= <- <-]. exists 0%nat. split_and!; simpl; try lia. intros ? ? [= -> ->]. lia. }
  intros (k & -> & Hk & -> & Hr & _)%IH; [|lia]. exists (S k). split_and!; simpl; try lia.
Qed.

(** *** The layout *)

(** From [o] on, the heap holds the records [rs] up to the frontier, one after the other
    except where a segment's tail was skipped. *)
Inductive laid (h : Heap) : nat → list entry → Prop :=
  | laid_end : laid h (size h) []
  | laid_record o r rs : record_at h o r → laid h (o + size_of r) rs → laid h o (r :: rs)
  | laid_skip o rs : ((o / segment_size h + 1) * segment_size h ≤ size h)%nat →
      laid h ((o / segment_size h + 1) * segment_size h) rs → laid h o rs.

Lemma laid_extends h h' o rs rs' : extends h h' → laid h o rs → laid h' (size h) rs' → laid h' o (rs ++ rs').
Proof.
  intros He Hl Hl'. induction Hl as [|o r rs Hr _ IH|o rs Hs _ IH]; [done| |].
  - apply laid_record; [by eapply record_at_extends|done].
  - pose proof (ext_segment _ _ He) as Hss. pose proof (ext_size _ _ He). apply laid_skip; rewrite Hss; [lia|done].
Qed.

Lemma reserve_run_spec h r records from start count end_ :
  heap_ok h → (0 < segment_size h)%nat → (size_of r ≤ segment_size h)%nat →
  reserve_run h (size_of <$> r :: records) = Ok (from, start, count, end_) →
  from = size h ∧ (start = size h ∨ start = (size h / segment_size h + 1) * segment_size h)%nat
  ∧ (1 ≤ count ≤ length (r :: records))%nat ∧ end_ = (start + total_size (take count (r :: records)))%nat
  ∧ (start mod segment_size h + total_size (take count (r :: records)) ≤ segment_size h)%nat
  ∧ Z.of_nat end_ ≤ MAX_SIZE ∧ (size h ≤ start)%nat.
Proof.
  intros [_ Hc _] Hss Hr. unfold reserve_run. rewrite Hc. cbn [fmap list_fmap head].
  set (ss := segment_size h) in *. pose proof (Nat.mod_upper_bound (size h) ss ltac:(lia)) as Hmod.
  pose proof (Nat.div_mod_eq (size h) ss) as Hdm.
  assert (∀ st room, (size_of r ≤ room)%nat → (st mod ss + room ≤ ss)%nat →
    (st = size h ∨ st = (size h / ss + 1) * ss)%nat → (size h ≤ st)%nat →
    (let '(used, count) := fit_run room 0 0 (size_of r :: (size_of <$> records)) in
     if MAX_SIZE <? Z.of_nat (st + used) then Err "heap would exceed the addressable limit"%string
     else Ok (size h, st, count, (st + used)%nat)) = Ok (from, start, count, end_) →
    from = size h ∧ (start = size h ∨ start = (size h / ss + 1) * ss)%nat
    ∧ (1 ≤ count ≤ length (r :: records))%nat ∧ end_ = (start + total_size (take count (r :: records)))%nat
    ∧ (start mod ss + total_size (take count (r :: records)) ≤ ss)%nat
    ∧ Z.of_nat end_ ≤ MAX_SIZE ∧ (size h ≤ start)%nat) as Hgo.
  { intros st room Hfit Hroom Hst Hle. destruct (fit_run room 0 0 _) as [used cnt] eqn:Hfr.
    apply fit_run_spec in Hfr as (k & -> & Hk & -> & Hu & H1); [|lia].
    change (size_of r :: (size_of <$> records)) with (size_of <$> r :: records) in *.
    rewrite total_size_take in *. rewrite length_fmap in Hk. specialize (H1 _ _ eq_refl ltac:(lia)).
    destruct (Z.ltb_spec MAX_SIZE (Z.of_nat (st + (0 + total_size (take k (r :: records)))))); [done|].
    intros [= <- <- <- <-]. split_and!; try done; lia. }
  cbn [from_option]. change (id (size_of r)) with (size_of r).
  destruct (Nat.ltb_spec (ss - size h mod ss) (size_of r)) as [Hskip|Hnoskip];
    [refine (Hgo ((size h / ss + 1) * ss)%nat ss _ _ _ _)|refine (Hgo (size h) (ss - size h mod ss)%nat _ _ _ _)].
  - lia.
  - rewrite Nat.Div0.mod_mul. lia.
  - by right.
  - nia.
  - lia.
  - lia.
  - by left.
  - lia.
Qed.

(** The records of a published run are records of the heap. *)
Lemma placed_records h records : ∀ start,
  (0 < segment_size h)%nat → (start / segment_size h < segments h)%nat →
  (start mod segment_size h + total_size records ≤ segment_size h)%nat →
  (start + total_size records ≤ size h)%nat → placed (mem h) start records →
  Forall2 (record_at h) (run_offsets start records) records
  ∧ ∀ rs, laid h (start + total_size records) rs → laid h start (records ++ rs).
Proof.
  induction records as [|r records IH]; intros start Hss Hseg Hfit Hsz Hp.
  { split; [constructor|]. intros rs. unfold total_size. cbn. by rewrite Nat.add_0_r. }
  destruct Hp as [Hr Hp]. rewrite total_size_cons in *. cbn [run_offsets app].
  assert (record_at h start r) as Hrec.
  { unfold record_at. rewrite length_entry_bytes. split_and!; [done|lia|lia|done]. }
  pose proof (size_of_pos r). destruct records as [|r' records].
  { split; [by constructor; [|constructor]|]. intros rs Hl. apply laid_record; [done|]. cbn [app].
    change (total_size []) with 0%nat in Hl. by rewrite Nat.add_0_r in Hl. }
  pose proof (size_of_pos r') as Hpos'. rewrite total_size_cons in *.
  assert (start mod segment_size h + size_of r < segment_size h)%nat as Hin by lia.
  assert ((start + size_of r) / segment_size h = start / segment_size h)%nat as Hdiv.
  { symmetry. apply (Nat.div_unique _ _ _ (start mod segment_size h + size_of r)%nat); [done|].
    pose proof (Nat.div_mod_eq start (segment_size h)). lia. }
  assert ((start + size_of r) mod segment_size h = start mod segment_size h + size_of r)%nat as Hmod.
  { symmetry. apply (Nat.mod_unique _ _ (start / segment_size h)%nat); [done|].
    pose proof (Nat.div_mod_eq start (segment_size h)). lia. }
  destruct (IH (start + size_of r)%nat) as [Hall Hlaid]; [done|lia|lia|lia|done|].
  split; [by constructor|]. intros rs Hl. apply laid_record; [done|]. apply Hlaid. by rewrite <- Nat.add_assoc.
Qed.

(** One run of the loop, mapped, written and published. *)
Lemma run_published h h2 start count end_ records offsets h3 segment :
  heap_ok h → heap_wf h2 → segment_size h2 = segment_size h → size h2 = size h → alloc h2 = end_ →
  (segments h ≤ segments h2)%nat → mem h `prefix_of` mem h2 → keeps h h2 →
  (size h ≤ start)%nat → (start / segment_size h < segments h2)%nat → segment = (start / segment_size h)%nat →
  end_ = (start + total_size (take count records))%nat → Z.of_nat end_ ≤ MAX_SIZE →
  (start mod segment_size h + total_size (take count records) ≤ segment_size h)%nat →
  write_run h2 start (take count records) = (offsets, h3) →
  let h4 := mkHeap (mem h3) (durable h3) (segments h3) (segment_size h3) (alloc h3) end_
              (fetch_min (first_dirty h3) segment) in
  heap_ok h4 ∧ extends h h4 ∧ keeps h h4 ∧ offsets = run_offsets start (take count records)
  ∧ placed (mem h4) start (take count records) ∧ size h3 = size h ∧ segments h3 = segments h2
  ∧ segment_size h3 = segment_size h.
Proof.
  intros Hok Hwf Hss Hsz Hal Hsg Hpre Hkp Hle Hmap -> Hend Hlim Hfit Hw h4. pose proof Hwf as [Hs2 Hh2 Hd2 Hm2 Hc2].
  rewrite Hss in *. set (ss := segment_size h) in *. set (seg := (start / ss)%nat) in *.
  pose proof (Nat.div_mod_eq start ss) as Hdm. fold seg in Hdm.
  assert (start + total_size (take count records) ≤ length (mem h2))%nat as Hroom by nia.
  destruct (write_run_spec _ _ _ _ _ Hroom Hw) as (Heq & Hlen & Htake & Hdrop & Hoffs & Hpl).
  set (m3 := mem h3) in *. clearbody m3. subst h3. cbn [set_mem mem durable segments segment_size alloc size first_dirty] in *.
  subst h4. split_and!; try done; cbn [mem]; try done.
  - split; cbn [alloc size]; [|done|done].
    constructor; cbn [mem durable segments segment_size first_dirty]; rewrite ?Hss; try done; [lia|lia|].
    intros o Ho. destruct (decide (mem h2 !! o = durable h2 !! o)) as [He|Hne].
    + assert (m3 !! o ≠ mem h2 !! o) as Hch by congruence.
      destruct (decide (o < start)%nat) as [Hlt|Hge].
      { exfalso. apply Hch. rewrite <- (lookup_take_lt m3 start), Htake, lookup_take_lt by done. done. }
      destruct (decide (start + total_size (take count records) ≤ o)%nat) as [Hge'|Hlt].
      { exfalso. apply Hch. replace o with (start + total_size (take count records)
          + (o - (start + total_size (take count records))))%nat by lia. rewrite <- !lookup_drop. by rewrite Hdrop. }
      split; [nia|]. unfold fetch_min. eexists. split; [done|]. case_match; nia.
    + destruct (Hc2 o Hne) as (Hb & f & Hf & Hfo). split; [done|]. unfold fetch_min. rewrite Hf.
      eexists. split; [done|]. nia.
  - constructor; cbn [mem durable segments segment_size size]; [done|lia|done|].
    destruct Hpre as [k Hk]. exists (drop (length (take (size h) (mem h))) m3).
    rewrite <- (take_drop (length (take (size h) (mem h))) m3) at 1. f_equal.
    rewrite length_take. replace (take (size h `min` length (mem h)) m3)
      with (take (size h `min` length (mem h)) (take start m3)) by (rewrite take_take; f_equal; lia).
    rewrite Htake, Hk, take_take. rewrite take_app_le by lia. 
    destruct (Nat.le_ge_cases (size h) (length (mem h))); [f_equal; lia|]. by rewrite !firstn_all2 by lia.
  - intros o Ho Hd. cbn [mem durable]. rewrite <- (lookup_take_lt m3 start), Htake, lookup_take_lt by lia.
    by apply Hkp.
Qed.

Lemma run_offsets_ge records : ∀ start, Forall (λ o, (start ≤ o)%nat) (run_offsets start records).
Proof.
  induction records as [|r records IH]; intros start; cbn [run_offsets]; constructor; [lia|].
  eapply Forall_impl; [apply IH|]. simpl. lia.
Qed.

(** What an append comes to: an error, or every record in place.  Either way nothing
    below the old frontier moves, and it never hangs. *)
Definition appended (h : Heap) (records : list entry) (res : io (list nat)) (h' : Heap) : Prop :=
  heap_ok h' ∧ extends h h' ∧ keeps h h'
  ∧ match res with
    | Done offsets => Forall2 (record_at h') offsets records ∧ Forall (λ o, (size h ≤ o)%nat) offsets
                      ∧ laid h' (size h) records
    | Fails _ => True
    | Hangs => False
    end.

Lemma appended_nil h : heap_ok h → appended h [] (Done []) h.
Proof. intros Hok. split_and!; [done|done|done|constructor..]. Qed.

Lemma append_loop_spec fuel : ∀ h records, (length records ≤ fuel)%nat → heap_ok h →
  Forall (λ r, (size_of r ≤ segment_size h)%nat) records →
  ∃ res h', append_loop fuel h records = (res, h') ∧ appended h records res h'.
Proof.
  induction fuel as [|fuel IH]; intros h [|r records] Hlen Hok Hall; try (simpl in Hlen; lia).
  1, 2: by eexists _, _; split; [done|apply appended_nil].
  pose proof (ok_wf h Hok) as Hwf. pose proof (ok_segment h Hwf) as Hss. cbn [append_loop].
  destruct (reserve_run h _) as [[[[from start] count] end_]|e] eqn:Hres.
  2: { eexists _, _. split; [done|]. split_and!; done. }
  destruct (reserve_run_spec _ _ _ _ _ _ _ Hok Hss (Forall_inv Hall) Hres)
    as (-> & Hstart & [H1 Hcnt] & Hend & Hfit & Hlim & Hle).
  set (recs := r :: records) in *. change (segment_size (set_alloc h end_)) with (segment_size h).
  unfold map_up_to. destruct (map_loop _ (set_alloc h end_)) as [h2 e] eqn:Hmap.
  assert (heap_wf (set_alloc h end_)) as Hwf1 by (destruct Hwf; by constructor).
  destruct (map_loop_spec _ _ _ _ Hwf1 Hmap) as (Hwf2 & Hss2 & Hal2 & Hsz2 & Hfd2 & Hsg2 & Hpre & Hnone & Hkp2).
  cbn [set_alloc segment_size alloc size first_dirty segments mem] in *.
  destruct e as [e|].
  - unfold publish. rewrite Hsz2, Nat.eqb_refl. eexists _, _. split; [done|]. split_and!; [| |by intros o _; apply Hkp2|done].
    + split; cbn [alloc size]; [by destruct Hwf2; constructor|done|done].
    + constructor; cbn [segment_size size segments mem]; [done|lia|done|]. etrans; [|exact Hpre].
      exists (drop (size h) (mem h)). by rewrite take_drop.
  - specialize (Hnone eq_refl). destruct (write_run h2 start (take count recs)) as [offs h3] eqn:Hw.
    assert (start / segment_size h < segments h2)%nat as Hmapped by lia.
    destruct (run_published h h2 start count end_ recs offs h3 (start / segment_size h) Hok Hwf2 Hss2 Hsz2 Hal2
      Hsg2 Hpre (λ o _, Hkp2 o) Hle Hmapped eq_refl Hend Hlim Hfit Hw) as (Hok4 & Hext4 & Hkp4 & Hoffs & Hpl & Hsz3 & Hsg3 & Hss3).
    unfold publish. cbn [size]. rewrite Hsz3, Nat.eqb_refl. cbn [mem durable segments segment_size alloc first_dirty].
    set (h4 := mkHeap _ _ _ _ _ _ _) in *.
    destruct (IH h4 (drop count recs)) as (res & h5 & Hloop & Hok5 & Hext5 & Hkp5 & Hres5).
    { rewrite length_drop. subst recs. simpl in *. lia. }
    { done. }
    { apply Forall_drop. by rewrite (ext_segment _ _ Hext4). }
    destruct (placed_records h4 (take count recs) start) as [Hrec Hlaid];
      [subst h4; simpl; rewrite ?Hss3, ?Hsg3; lia..|done|].
    rewrite Hloop. assert (extends h h5) as Hext by (etrans; done).
    assert (keeps h h5) as Hkp.
    { intros o Ho Hd. pose proof (ext_size _ _ Hext4). apply Hkp5; [lia|]. by apply Hkp4. }
    destruct res as [rest|e|]; [|by eexists _, _|done]. destruct Hres5 as (Hr5 & Hge5 & Hl5).
    eexists _, _. split; [done|]. split_and!; [done|done|done| | |].
    + rewrite <- (take_drop count recs), Hoffs. apply Forall2_app; [|done].
      eapply Forall2_impl; [exact Hrec|]. intros o x. by apply record_at_extends.
    + rewrite Hoffs. apply Forall_app_2.
      * eapply Forall_impl; [apply run_offsets_ge|]. simpl. lia.
      * eapply Forall_impl; [exact Hge5|]. intros o. simpl. pose proof (ext_size _ _ Hext4). lia.
    + rewrite <- (take_drop count recs).
      assert (laid h5 start (take count recs ++ drop count recs)) as Hl.
      { apply (laid_extends h4); [done| |done]. rewrite <- (app_nil_r (take _ _)). apply Hlaid.
        rewrite <- Hend. apply (laid_end h4). }
      destruct Hstart as [->|Hst]; [done|]. apply laid_skip; rewrite (ext_segment _ _ Hext); rewrite <- Hst; [|done].
      pose proof (ext_size _ _ Hext5). subst h4. simpl in *. lia.
Qed.

Lemma append_many_spec h records : heap_ok h →
  ∃ res h', append_many h records = (res, h') ∧ appended h records res h'.
Proof.
  intros Hok. unfold append_many. destruct (existsb _ records) eqn:Hbig; [by eexists _, _|].
  apply append_loop_spec; [done|done|]. apply Forall_forall. intros r Hr. apply Nat.le_ngt. intros Hlt.
  assert (existsb (λ r, segment_size h <? size_of r)%nat records = true); [|congruence].
  apply existsb_exists. exists r. split; [by apply list_elem_of_In|]. by apply Nat.ltb_lt.
Qed.

(** *** Scanning *)

Definition record_of (r : entry) : HeapRecord := mkRecord (if r.2 then Some r.1.1 else None) r.1.2 (size_of r).

Section scan.
Context (h : Heap) (kl : nat) (Hwf : heap_wf h).

Definition scans (o : nat) (l : list HeapRecord) : Prop :=
  ∀ fuel, (size h - o ≤ fuel)%nat → ∃ l', scan_loop fuel h kl o = Some l' ∧ l `sublist_of` l'.

(** Whatever bytes a skipped tail holds, the scan is back in step at the next segment. *)
Lemma scans_gap o l : let next := ((o / segment_size h + 1) * segment_size h)%nat in
  (next ≤ size h)%nat → scans next l → scans o l.
Proof using Hwf.
  intros next Hnext Hscan. pose proof (ok_segment h Hwf) as Hss.
  assert (∀ fuel o', (o' / segment_size h = o / segment_size h ∨ o' = next)%nat → (size h - o' ≤ fuel)%nat →
    ∃ l', scan_loop fuel h kl o' = Some l' ∧ l `sublist_of` l') as Hgo; [|intros fuel; apply Hgo; by left].
  induction fuel as [|fuel IH]; intros o' [Hseg| ->] Hf; try by apply Hscan.
  - pose proof (Nat.div_mod_eq o' (segment_size h)). pose proof (Nat.mod_upper_bound o' (segment_size h)). nia.
  - assert (o' < next)%nat as Hlt.
    { pose proof (Nat.div_mod_eq o' (segment_size h)). pose proof (Nat.mod_upper_bound o' (segment_size h)). nia. }
    cbn [scan_loop]. destruct (Nat.leb_spec (size h) o'); [lia|]. rewrite Hseg. fold next.
    destruct (with_record h o' kl) as [r|] eqn:Hr; [|apply IH; [by right|lia]].
    apply with_record_range in Hr as (_ & _ & _ & Hpos & Hin); [|done]. destruct (Nat.ltb_spec 0 (rec_total r)); [|lia].
    destruct (IH (o' + rec_total r)%nat) as (l' & -> & Hsub).
    { destruct (decide (o' mod segment_size h + rec_total r = segment_size h)%nat) as [He|Hne].
      - right. subst next. rewrite <- Hseg. pose proof (Nat.div_mod_eq o' (segment_size h)). nia.
      - left. rewrite <- Hseg. symmetry.
        apply (Nat.div_unique _ _ _ (o' mod segment_size h + rec_total r)%nat); [lia|].
        pose proof (Nat.div_mod_eq o' (segment_size h)). lia. }
    { lia. }
    exists (r :: l'). split; [done|]. by apply sublist_cons.
Qed.

Lemma scans_laid o rs : (∀ r, r ∈ rs → r.2 = true → length r.1.1 = kl) → laid h o rs → scans o (record_of <$> rs).
Proof using Hwf.
  intros Hkeys Hl. induction Hl as [|o r rs Hr Hl IH|o rs Hs Hl IH].
  - intros fuel _. exists []. destruct fuel; cbn [scan_loop]; by rewrite Nat.leb_refl.
  - intros fuel Hf. pose proof (size_of_pos r). assert (o + size_of r ≤ size h)%nat as Hb
      by (destruct Hr as (_ & _ & Hb & _); by rewrite length_entry_bytes in Hb).
    destruct fuel as [|fuel]; [lia|]. cbn [scan_loop]. destruct (Nat.leb_spec (size h) o); [lia|].
    destruct r as [[key data] sk]. rewrite (with_record_at h o key data sk kl) by (done || apply (Hkeys (key, data, sk)); left).
    cbn [rec_total]. destruct (Nat.ltb_spec 0 (size_of (key, data, sk))); [|lia].
    destruct (IH ltac:(intros r Hin; apply Hkeys; by right) fuel ltac:(lia)) as (l' & -> & Hsub).
    eexists. split; [done|]. cbn [fmap list_fmap]. by apply sublist_skip.
  - apply scans_gap; [done|]. by apply IH.
Qed.
End scan.

(** *** Opening and forcing *)

Lemma open_heap_spec disk committed ss h :
  Z.of_nat ss ≤ 2 ^ 30 → Z.of_nat committed ≤ MAX_SIZE → open_heap disk committed ss = Done h →
  heap_ok h ∧ size h = committed ∧ segment_size h = ss ∧ disk `prefix_of` mem h ∧ mem h = durable h
  ∧ (committed ≤ segments h * ss)%nat.
Proof.
  intros Hss Hc. unfold open_heap. destruct (is_power_of_two ss) eqn:Hp; [|done]. cbn [negb].
  apply andb_true_iff in Hp as [Hpos%Nat.ltb_lt _].
  destruct (map_loop _ _) as [h' e] eqn:Hm. destruct e; [done|]. intros [= <-].
  assert (heap_wf (mkHeap disk disk 0 ss committed committed None)) as Hwf by (constructor; simpl; try done; lia).
  pose proof (map_loop_spec _ _ _ _ Hwf Hm) as (Hwf' & Hs & Ha & Hsz & Hfd & _ & Hpre & Hn & _).
  cbn [segment_size alloc size first_dirty segments mem] in *. split_and!; try done.
  - split; [done|congruence|by rewrite Hsz].
  - apply list_eq. intros i. destruct (decide (mem h' !! i = durable h' !! i)) as [|Hne]; [done|].
    destruct (ok_clean _ Hwf' i Hne) as (_ & f & Hf & _). congruence.
  - rewrite Hn by done. pose proof (div_ceil_mul committed ss Hpos). nia.
Qed.

Lemma force_spec h : heap_wf h → durable (force h) = mem h ∧ mem (force h) = mem h ∧ heap_wf (force h).
Proof.
  intros Hwf. pose proof Hwf as [Hs Hh Hd Hm Hc].
  assert (durable (force h) = mem h) as Hdur.
  { apply list_eq. intros o. unfold force. destruct (first_dirty h) as [f|] eqn:Hf; cbn [durable].
    2: { destruct (decide (mem h !! o = durable h !! o)) as [|Hne]; [done|]. destruct (Hc o Hne) as (_ & ? & ? & _). done. }
    set (from := (f * segment_size h)%nat). set (to := (segments h * segment_size h)%nat) in *.
    assert (∀ o, (o < from ∨ Nat.max from to ≤ o)%nat → durable h !! o = mem h !! o) as Heq.
    { intros o' Ho'. destruct (decide (mem h !! o' = durable h !! o')) as [|Hne]; [done|].
      destruct (Hc o' Hne) as (Hb & f' & [= <-] & Hfo). lia. }
    destruct (decide (o < from)%nat) as [Hlt|Hge].
    { destruct (decide (o < length (mem h))%nat) as [Hin|Hout].
      - rewrite lookup_app_l, lookup_take_lt by (rewrite ?length_take; lia). apply Heq. lia.
      - rewrite (lookup_ge_None_2 (mem h)) by lia. apply lookup_ge_None_2. unfold slice.
        rewrite !length_app, !length_take, !length_drop. lia. }
    destruct (decide (from < length (mem h))%nat) as [Hin|Hout].
    2: { rewrite (lookup_ge_None_2 (mem h)) by lia. apply lookup_ge_None_2. unfold slice.
         rewrite !length_app, !length_take, !length_drop. lia. }
    rewrite lookup_app_r by (rewrite length_take; lia). rewrite length_take, Nat.min_l by lia.
    destruct (decide (o < to)%nat) as [Hto|Hto].
    - rewrite lookup_app_l by (unfold slice; rewrite length_take, length_drop; lia).
      unfold slice. rewrite lookup_take_lt, lookup_drop by lia. f_equal. lia.
    - rewrite lookup_app_r by (unfold slice; rewrite length_take, length_drop; lia).
      unfold slice. rewrite length_take, length_drop, lookup_drop. rewrite <- Heq by lia. f_equal. lia. }
  assert (mem (force h) = mem h) as Hmem by (unfold force; by case_match).
  split_and!; [done|done|]. constructor; try (unfold force; by case_match).
  - by rewrite Hdur, Hmem.
  - intros o. by rewrite Hdur, Hmem.
Qed.

(** ** Properties *)

(** Batches appended one after the other, all with success. *)
Fixpoint append_batches (h : Heap) (batches : list (list entry)) : option Heap :=
  match batches with
  | [] => Some h
  | b :: rest => match append_many h b with (Done _, h') => append_batches h' rest | _ => None end
  end.

Lemma append_batches_laid batches : ∀ h h' o rs, heap_ok h → laid h o rs → append_batches h batches = Some h' →
  heap_ok h' ∧ laid h' o (rs ++ concat batches).
Proof.
  induction batches as [|b batches IH]; intros h h' o rs Hok Hl; cbn [append_batches concat].
  { intros [= <-]. by rewrite app_nil_r. }
  destruct (append_many_spec h b Hok) as (res & h1 & -> & Hok1 & Hext & _ & Hres). destruct res as [offs| |]; [|done..].
  destruct Hres as (_ & _ & Hlaid). rewrite app_assoc. apply IH; [done|]. by eapply laid_extends.
Qed.

(** C29: a scan visits every record of a heap whose appends all succeeded, in order and
    each as it was appended, whatever stale bytes of an earlier run lie in the tails of
    the segments: it may see those too, but never loses its way in them. *)
Theorem scan_complete h0 batches h key_length (Hok : heap_ok h0) (Hempty : size h0 = 0%nat)
    (Hrun : append_batches h0 batches = Some h)
    (Hkeys : ∀ r, r ∈ concat batches → r.2 = true → length r.1.1 = key_length) :
  ∃ l, scan h key_length = Some l ∧ (record_of <$> concat batches) `sublist_of` l.
Proof.
  destruct (append_batches_laid batches h0 h 0 [] Hok) as [Hok' Hl]; [rewrite <- Hempty; apply laid_end|done|].
  apply (scans_laid h key_length (ok_wf h Hok') 0 (concat batches) Hkeys Hl). lia.
Qed.
End append.

(** A host on which segment 1 can or cannot be mapped. *)
Definition host (full : bool) : Host :=
  {| map_error := λ i, if full && (i =? 1)%nat then Some "no space left on device"%string else None;
     table_error := λ _, None |}.

(** A failed append hides later records from the scan.  When a segment cannot be
    mapped the reservation is published as dead space at its start; once the segment can
    be mapped again, records are appended behind the dead space, where reads by offset
    find them but a scan, which takes the dead space for a skipped tail, does not. *)
Theorem failed_append_hides_records :
  let h := mkHeap (replicate 16 7) (replicate 16 7) 1 16 16 16 None in
  ∃ e h1 o h2, append_many (H := host true) h [([], [1; 2; 3], false)] = (Fails e, h1)
    ∧ append_many (H := host false) h1 [([], [4; 5; 6], false)] = (Done [o], h2)
    ∧ with_record h2 o 32 = Some (mkRecord None [4; 5; 6] 6)
    ∧ scan h2 32 = Some [].
Proof.
  intros h. eexists _, _, _, _. split; [vm_compute; reflexivity|]. split; [vm_compute; reflexivity|].
  split; vm_compute; reflexivity.
Qed.

Lemma scan_complete_witness :
  ∃ l, scan (default (mkHeap [] [] 0 0 0 0 None)
        (append_batches (H := host false) (mkHeap (replicate 16 0x65) (replicate 16 0x65) 1 16 0 0 None)
           [[([], [1; 2; 3], false); ([], [4; 5; 6; 7; 8], false)]; [([], [9; 9], false)]])) 32 = Some l
    ∧ [mkRecord None [1; 2; 3] 6; mkRecord None [4; 5; 6; 7; 8] 8; mkRecord None [9; 9] 5] `sublist_of` l.
Proof.
  apply (scan_complete (H := host false) (mkHeap (replicate 16 0x65) (replicate 16 0x65) 1 16 0 0 None)
    [[([], [1; 2; 3], false); ([], [4; 5; 6; 7; 8], false)]; [([], [9; 9], false)]]).
  - split; [constructor|reflexivity|vm_compute; discriminate]; vm_compute; try done; lia.
  - reflexivity.
  - vm_compute. reflexivity.
  - intros r Hr%list_elem_of_In Hs. repeat (destruct Hr as [<-|Hr]; [discriminate|]). destruct Hr.
Defined.

End FlatHeap.
