(* ===== verification/FlatIndex.v ===== *)
(** * FlatDB: the index

    The open-addressed hash table of [flatdb/src/index.rs].  A slot holds a heap offset
    plus one, or zero; the table stores no keys, so every probe reads the candidate
    record back from the heap.

    A table is its slots as the mapping shows them and as the device holds them
    ([synced]); the directory's index files are a map from capacity to table.  The
    definitions are those of one thread: a compare-exchange finds what the load before
    it found.  [get] and [grow] loop without a bound, which [Hangs] stands for: a lap of
    the whole table without an exit changes nothing and so never ends. *)
From S2P Require Import Prelude FlatHeap.
From stdpp Require Import strings gmap.
From stdpp Require Import options.
Import FlatHeap.

Local Open Scope Z_scope.

Module FlatIndex.

Definition SLOT_SIZE : Z := 8.
Definition MAX_CAPACITY : Z := Z.shiftl 1 31.
Definition STORE_KEY_THRESHOLD : nat := 1024.
Definition EMPTY : nat := 0.

(** The trait [Keys]. *)
Class Keys := {
  compute_key : bytes → bytes;
  key_hash : bytes → Z;
  key_length : nat;
}.

Record Table := mkTable { slots : list nat; synced : list nat }.

Record Index := mkIndex {
  tables : gmap nat Table;
  capacity : nat;
  entries : nat;
  dirty : bool;
  index_read_only : bool;
  verify_long_records : bool;
}.

Definition live (idx : Index) : Table := default (mkTable [] []) (tables idx !! capacity idx).

Section index.
Context `{Keys} `{Host}.

Definition fresh_table (capacity : nat) : Table := mkTable (replicate capacity EMPTY) (replicate capacity EMPTY).

(** [map_table]: the file of that capacity as it is, or a new one. *)
Definition map_table (files : gmap nat Table) (capacity : nat) : result Table string :=
  match table_error capacity with
  | Some e => Err e
  | None => Ok (default (fresh_table capacity) (files !! capacity))
  end.

Fixpoint table_size_loop (fuel : nat) (c wanted : Z) : Z :=
  match fuel with
  | O => c
  | S fuel' => if (c <? wanted) && (c <? MAX_CAPACITY) then table_size_loop fuel' (Z.shiftl c 1) wanted else c
  end.

(** From 16 to [MAX_CAPACITY] is 27 doublings. *)
Definition table_size_for (wanted : Z) : Z := Z.min (table_size_loop 27 16 wanted) MAX_CAPACITY.

Definition open_index (files : gmap nat Table) (read_only : bool) (committed_capacity committed_size : nat)
    (expected_keys : Z) (verify : bool) : result Index string :=
  let capacity := if (0 <? committed_capacity)%nat then committed_capacity
                  else Z.to_nat (table_size_for (Z.max (sat_mul 64 expected_keys 2) 16)) in
  let? table := map_table files capacity in
  Ok (mkIndex (<[capacity := table]> files) capacity committed_size (committed_capacity =? 0)%nat
        read_only verify).

Definition modified (idx : Index) : bool := dirty idx.

(** ** Probing *)

Definition key_of (record : HeapRecord) : bytes :=
  match rec_key record with Some stored => stored | None => compute_key (rec_data record) end.

Definition long_record_is_intact (verify : bool) (record : HeapRecord) (key : bytes) : bool :=
  if negb verify || match rec_key record with None => true | Some _ => false end then true
  else bool_decide (compute_key (rec_data record) = key).

(** [keys.hash(key) as u64 & mask] and [(i + 1) & mask]. *)
Definition first_slot (capacity : nat) (key : bytes) : nat :=
  Z.to_nat (Z.land (key_hash key) (Z.of_nat capacity - 1)).
Definition next_slot (capacity i : nat) : nat := Nat.land (i + 1) (capacity - 1).

Definition slot_at (t : list nat) (i : nat) : nat := default EMPTY (t !! i).

(** Does the record a slot points at have this key? *)
Definition same_key (heap : Heap) (slot : nat) (key : bytes) : bool :=
  match with_record heap (slot - 1) key_length with
  | Some record => bool_decide (key_of record = key)
  | None => false
  end.

(** What [get]'s closure makes of a slot. *)
Definition matching (verify : bool) (heap : Heap) (slot : nat) (key : bytes) : option bytes :=
  match with_record heap (slot - 1) key_length with
  | Some record =>
      if bool_decide (key_of record = key) && long_record_is_intact verify record key
      then Some (rec_data record) else None
  | None => None
  end.

Fixpoint get_loop (fuel : nat) (verify : bool) (heap : Heap) (t : list nat) (key : bytes) (i : nat) : io (option bytes) :=
  match fuel with
  | O => Hangs
  | S fuel' =>
      let slot := slot_at t i in
      if (slot =? EMPTY)%nat then Done None
      else
        match matching verify heap slot key with
        | Some data => Done (Some data)
        | None => get_loop fuel' verify heap t key (next_slot (length t) i)
        end
  end.

Definition get (idx : Index) (heap : Heap) (key : bytes) : io (option bytes) :=
  if (capacity idx =? 0)%nat then Done None
  else
    let t := slots (live idx) in
    get_loop (length t) (verify_long_records idx) heap t key (first_slot (length t) key).

Inductive Seen := Dead | Same | Conflict | Other.

Definition seen (heap : Heap) (slot : nat) (key data : bytes) : Seen :=
  match with_record heap (slot - 1) key_length with
  | None => Dead
  | Some record =>
      if negb (bool_decide (key_of record = key)) then Other
      else if match rec_key record with Some _ => true | None => false end && negb (bool_decide (rec_data record = data))
      then Conflict else Same
  end.

(** How the probe of [try_put] ends: where to insert, or why not. *)
Inductive Probe :=
  | InsertAt (target : nat)
  | AlreadySame
  | Clash
  | Full.

Fixpoint put_probe (fuel : nat) (heap : Heap) (t : list nat) (key data : bytes) (i : nat) (reusable : option nat)
    : Probe :=
  match fuel with
  | O => match reusable with Some target => InsertAt target | None => Full end
  | S fuel' =>
      let slot := slot_at t i in
      if (slot =? EMPTY)%nat then InsertAt (default i reusable)
      else
        let continue := put_probe fuel' heap t key data (next_slot (length t) i) in
        match seen heap slot key data with
        | Dead => continue (match reusable with None => Some i | r => r end)
        | Same => AlreadySame
        | Conflict => Clash
        | Other => continue reusable
        end
  end.

(** ** Growing *)

(** The inner loop of [grow]: the first empty slot of the chain, [None] for a duplicate. *)
Fixpoint place (fuel : nat) (heap : Heap) (fresh : list nat) (key : bytes) (i : nat) : io (option nat) :=
  match fuel with
  | O => Hangs
  | S fuel' =>
      let occupant := slot_at fresh i in
      if (occupant =? EMPTY)%nat then Done (Some i)
      else if same_key heap occupant key then Done None
      else place fuel' heap fresh key (next_slot (length fresh) i)
  end.

Fixpoint rehash (heap : Heap) (old fresh : list nat) (moved : nat) : io (list nat * nat) :=
  match old with
  | [] => Done (fresh, moved)
  | slot :: rest =>
      if (slot =? EMPTY)%nat then rehash heap rest fresh moved
      else
        match with_record heap (slot - 1) key_length with
        | None => rehash heap rest fresh moved
        | Some record =>
            let key := key_of record in
            match place (length fresh) heap fresh key (first_slot (length fresh) key) with
            | Done (Some i) => rehash heap rest (<[i := slot]> fresh) (S moved)
            | Done None => rehash heap rest fresh moved
            | Fails e => Fails e
            | Hangs => Hangs
            end
        end
  end.

Definition grow (idx : Index) (heap : Heap) : io unit * Index :=
  let new_capacity := if (capacity idx =? 0)%nat then 16%nat else (capacity idx * 2)%nat in
  if MAX_CAPACITY <? Z.of_nat new_capacity then (Fails "index cannot grow", idx)
  else
    match map_table (tables idx) new_capacity with
    | Err e => (Fails e, idx)
    | Ok fresh =>
        match rehash heap (slots (live idx)) (slots fresh) 0 with
        | Done (t, moved) =>
            (Done tt, mkIndex (<[new_capacity := mkTable t (synced fresh)]> (tables idx)) new_capacity moved true
                        (index_read_only idx) (verify_long_records idx))
        | Fails e => (Fails e, idx)
        | Hangs => (Hangs, idx)
        end
    end.

(** ** Inserting *)

Definition store_slots (idx : Index) (t : list nat) (added : nat) : Index :=
  mkIndex (<[capacity idx := mkTable t (synced (live idx))]> (tables idx)) (capacity idx) (entries idx + added) true
    (index_read_only idx) (verify_long_records idx).

(** The append and the release store of [try_put]. *)
Definition insert_at (idx : Index) (heap : Heap) (target : nat) (key data : bytes) : io bool * Index * Heap :=
  let store_key := (STORE_KEY_THRESHOLD <? length data)%nat in
  match append heap key data store_key with
  | (Done offset, heap) => (Done true, store_slots idx (<[target := (offset + 1)%nat]> (slots (live idx))) 1, heap)
  | (Fails e, heap) => (Fails e, idx, heap)
  | (Hangs, heap) => (Hangs, idx, heap)
  end.

Definition try_put (idx : Index) (heap : Heap) (key data : bytes) : io bool * Index * Heap :=
  let '(grown, idx) :=
    if (capacity idx / 2 <? entries idx + 1)%nat then grow idx heap else (Done tt, idx) in
  match grown with
  | Fails e => (Fails e, idx, heap)
  | Hangs => (Hangs, idx, heap)
  | Done _ =>
      let t := slots (live idx) in
      match put_probe (length t) heap t key data (first_slot (length t) key) None with
      | InsertAt target => insert_at idx heap target key data
      | AlreadySame => (Done true, idx, heap)
      | Clash => (Fails "two distinct values stored under one key", idx, heap)
      | Full => (Done false, idx, heap)
      end
  end.

Fixpoint put_rounds (rounds : nat) (idx : Index) (heap : Heap) (key data : bytes) : io unit * Index * Heap :=
  match rounds with
  | O => (Fails "index remained full after growing", idx, heap)
  | S rounds' =>
      match try_put idx heap key data with
      | (Done true, idx, heap) => (Done tt, idx, heap)
      | (Done false, idx, heap) =>
          match grow idx heap with
          | (Done _, idx) => put_rounds rounds' idx heap key data
          | (Fails e, idx) => (Fails e, idx, heap)
          | (Hangs, idx) => (Hangs, idx, heap)
          end
      | (Fails e, idx, heap) => (Fails e, idx, heap)
      | (Hangs, idx, heap) => (Hangs, idx, heap)
      end
  end.

Definition put (idx : Index) (heap : Heap) (key data : bytes) : io unit * Index * Heap :=
  put_rounds 2 idx heap key data.

(** ** Inserting many *)

Fixpoint probe_loop (fuel : nat) (heap : Heap) (t : list nat) (key : bytes) (i : nat) : bool :=
  match fuel with
  | O => false
  | S fuel' =>
      let slot := slot_at t i in
      if (slot =? EMPTY)%nat then false
      else if same_key heap slot key then true
      else probe_loop fuel' heap t key (next_slot (length t) i)
  end.

Definition probe_finds (t : list nat) (heap : Heap) (key : bytes) : bool :=
  probe_loop (length t) heap t key (first_slot (length t) key).

(** The slot the chain of [key] can claim for [offset], if any. *)
Fixpoint claim_loop (fuel : nat) (heap : Heap) (t : list nat) (key : bytes) (offset i : nat) : bool * list nat :=
  match fuel with
  | O => (false, t)
  | S fuel' =>
      let slot := slot_at t i in
      if (slot =? EMPTY)%nat then (true, <[i := (offset + 1)%nat]> t)
      else if same_key heap slot key then (false, t)
      else claim_loop fuel' heap t key offset (next_slot (length t) i)
  end.

Definition claim_slot (t : list nat) (heap : Heap) (key : bytes) (offset : nat) : bool * list nat :=
  claim_loop (length t) heap t key offset (first_slot (length t) key).

Fixpoint claim_all (t : list nat) (heap : Heap) (fresh : list (entry * nat)) (added : nat) : nat * list nat :=
  match fresh with
  | [] => (added, t)
  | ((key, _, _), offset) :: rest =>
      let '(claimed, t) := claim_slot t heap key offset in
      claim_all t heap rest (if claimed then S added else added)
  end.

(** [while size + rows.len() > capacity / 2 { grow }]: the capacity doubles up to
    [MAX_CAPACITY], so 33 rounds are enough. *)
Fixpoint make_room (fuel : nat) (idx : Index) (heap : Heap) (rows : nat) : io unit * Index :=
  if (capacity idx / 2 <? entries idx + rows)%nat then
    match fuel with
    | O => (Hangs, idx)
    | S fuel' =>
        match grow idx heap with
        | (Done _, idx) => make_room fuel' idx heap rows
        | (Fails e, idx) => (Fails e, idx)
        | (Hangs, idx) => (Hangs, idx)
        end
    end
  else (Done tt, idx).

Definition fresh_rows (t : list nat) (heap : Heap) (rows : list (bytes * bytes)) : list entry :=
  omap (λ '(key, data), if probe_finds t heap key then None
                        else Some (key, data, (STORE_KEY_THRESHOLD <? length data)%nat)) rows.

Definition put_many (idx : Index) (heap : Heap) (rows : list (bytes * bytes)) : io unit * Index * Heap :=
  match rows with
  | [] => (Done tt, idx, heap)
  | _ =>
      match make_room 33 idx heap (length rows) with
      | (Fails e, idx) => (Fails e, idx, heap)
      | (Hangs, idx) => (Hangs, idx, heap)
      | (Done _, idx) =>
          let t := slots (live idx) in
          let fresh := fresh_rows t heap rows in
          match fresh with
          | [] => (Done tt, idx, heap)
          | _ =>
              match append_many heap fresh with
              | (Fails e, heap) => (Fails e, idx, heap)
              | (Hangs, heap) => (Hangs, idx, heap)
              | (Done offsets, heap) =>
                  let '(added, t) := claim_all t heap (zip fresh offsets) 0 in
                  (Done tt, store_slots idx t added, heap)
              end
          end
      end
  end.

(** ** The rest *)

Definition for_each_key (idx : Index) (heap : Heap) : list bytes :=
  omap (λ slot, if (slot =? EMPTY)%nat then None
                else key_of <$> with_record heap (slot - 1) key_length) (slots (live idx)).

(** The two steps of [save]: the pages are written back, then the flag is cleared. *)
Definition save_sync (idx : Index) : Index :=
  mkIndex (<[capacity idx := mkTable (slots (live idx)) (slots (live idx))]> (tables idx)) (capacity idx) (entries idx)
    (dirty idx) (index_read_only idx) (verify_long_records idx).

Definition save_clear (idx : Index) : Index :=
  mkIndex (tables idx) (capacity idx) (entries idx) false (index_read_only idx) (verify_long_records idx).

Definition save (idx : Index) : Index :=
  if index_read_only idx || negb (modified idx) then idx else save_clear (save_sync idx).

Definition remove_stale_files (idx : Index) : Index :=
  if index_read_only idx then idx
  else mkIndex {[capacity idx := live idx]} (capacity idx) (entries idx) (dirty idx) (index_read_only idx)
         (verify_long_records idx).

End index.

(** ** Probe chains *)

(** What the code relies on of the key functions: a digest has the key's length, and a
    hash is a [u32]. *)
Class KeysLaws `{Keys} := {
  length_compute_key d : length (compute_key d) = key_length;
  key_hash_nonneg k : 0 ≤ key_hash k;
}.

Definition pow2 (n : nat) : Prop := ∃ k, n = (2 ^ k)%nat.

Lemma pow2_positive n : pow2 n → (0 < n)%nat.
Proof. intros [k ->]. pose proof (Nat.pow_nonzero 2 k). lia. Qed.

Lemma pow2_double n : pow2 n → pow2 (n * 2).
Proof. intros [k ->]. exists (S k). rewrite Nat.pow_succ_r'. lia. Qed.

Lemma next_slot_mod n i : pow2 n → next_slot n i = ((i + 1) mod n)%nat.
Proof.
  intros [k ->]. unfold next_slot. rewrite Nat.sub_1_r.
  assert (Nat.pred (2 ^ k) = Nat.ones k) as -> by (by rewrite Nat.ones_equiv). apply Nat.land_ones.
Qed.

Section chains.
Context `{Keys} `{!KeysLaws}.

(** The [j]th slot of the chain of [key]. *)
Definition chain (t : list nat) (key : bytes) (j : nat) : nat := ((first_slot (length t) key + j) mod length t)%nat.

Lemma first_slot_lt n key : pow2 n → (first_slot n key < n)%nat.
Proof using Type*.
  intros [k ->]. unfold first_slot. rewrite Nat2Z.inj_pow. change (Z.of_nat 2) with 2.
  rewrite Z.sub_1_r, <- Z.ones_equiv, Z.land_ones by lia.
  pose proof (Z.mod_pos_bound (key_hash key) (2 ^ Z.of_nat k) ltac:(lia)).
  apply Nat2Z.inj_lt. rewrite Nat2Z.inj_pow. rewrite Z2Nat.id by lia. lia.
Qed.

Lemma chain_0 t key : pow2 (length t) → chain t key 0 = first_slot (length t) key.
Proof using Type*. intros Hp. unfold chain. rewrite Nat.add_0_r. apply Nat.mod_small. by apply first_slot_lt. Qed.

Lemma chain_next t key j : pow2 (length t) → next_slot (length t) (chain t key j) = chain t key (S j).
Proof using Type.
  intros Hp. rewrite next_slot_mod by done. unfold chain.
  rewrite Nat.Div0.add_mod_idemp_l. f_equal. lia.
Qed.

Lemma chain_lt t key j : pow2 (length t) → (chain t key j < length t)%nat.
Proof using Type. intros Hp%pow2_positive. apply Nat.mod_upper_bound. lia. Qed.

(** The chain passes every slot. *)
Lemma chain_covers t key i : pow2 (length t) → (i < length t)%nat → ∃ j, (j < length t)%nat ∧ chain t key j = i.
Proof using Type*.
  intros Hp Hi. pose proof (first_slot_lt _ key Hp) as Hf. unfold chain. set (f := first_slot _ key) in *.
  destruct (Nat.le_gt_cases f i).
  - exists (i - f)%nat. split; [lia|]. rewrite Nat.mod_small; lia.
  - exists (i + length t - f)%nat. split; [lia|]. replace (f + (i + length t - f))%nat with (i + 1 * length t)%nat by lia.
    rewrite Nat.Div0.mod_add. by apply Nat.mod_small.
Qed.

(** Every slot of the chain before the [j]th is taken. *)
Definition taken (t : list nat) (key : bytes) (j : nat) : Prop :=
  ∀ j', (j' < j)%nat → slot_at t (chain t key j') ≠ EMPTY.

Lemma taken_0 t key : taken t key 0.
Proof using Type. intros j'. lia. Qed.

Lemma taken_S t key j : taken t key j → slot_at t (chain t key j) ≠ EMPTY → taken t key (S j).
Proof using Type. intros Ht Hj j' Hj'. destruct (decide (j' = j)) as [->|]; [done|]. apply Ht. lia. Qed.

(** The slot points at a record of this key whose data hashes to it. *)
Definition good (h : Heap) (slot : nat) (key : bytes) : Prop :=
  slot ≠ EMPTY ∧ ∃ r, with_record h (slot - 1) key_length = Some r ∧ key_of r = key ∧ compute_key (rec_data r) = key.

(** The chain of [key] reaches a record of it. *)
Definition findable (h : Heap) (t : list nat) (key : bytes) : Prop :=
  ∃ j, (j < length t)%nat ∧ good h (slot_at t (chain t key j)) key ∧ taken t key j.

Definition unused (h : Heap) (t : list nat) (i : nat) : Prop :=
  slot_at t i = EMPTY ∨ with_record h (slot_at t i - 1) key_length = None.

Lemma good_extends h h' slot key : heap_wf h → extends h h' → good h slot key → good h' slot key.
Proof using Type.
  intros Hwf He (Hs & r & Hr & ?). split; [done|]. exists r. split; [|done]. by eapply with_record_extends.
Qed.

Lemma findable_extends h h' t key : heap_wf h → extends h h' → findable h t key → findable h' t key.
Proof using Type. intros Hwf He (j & Hj & Hg & Ht). exists j. split_and!; [done| |done]. by eapply good_extends. Qed.

Lemma slot_at_insert t i s : (i < length t)%nat → slot_at (<[i := s]> t) i = s.
Proof using Type. intros Hi. unfold slot_at. by rewrite list_lookup_insert_eq. Qed.

Lemma slot_at_insert_ne t i k s : i ≠ k → slot_at (<[i := s]> t) k = slot_at t k.
Proof using Type. intros Hi. unfold slot_at. by rewrite list_lookup_insert_ne. Qed.

Lemma chain_insert t i s key j : chain (<[i := s]> t) key j = chain t key j.
Proof using Type. unfold chain. by rewrite length_insert. Qed.

Lemma taken_insert t i s key j : s ≠ EMPTY → (i < length t)%nat → taken t key j → taken (<[i := s]> t) key j.
Proof using Type.
  intros Hs Hi Ht j' Hj'. rewrite chain_insert. destruct (decide (i = chain t key j')) as [->|Hne].
  - by rewrite slot_at_insert.
  - rewrite slot_at_insert_ne by done. by apply Ht.
Qed.

(** Filling an unused slot hides nothing. *)
Lemma findable_insert h t i s key :
  s ≠ EMPTY → (i < length t)%nat → unused h t i → findable h t key → findable h (<[i := s]> t) key.
Proof using Type.
  intros Hs Hi Hu (j & Hj & Hg & Ht). exists j. rewrite length_insert, chain_insert.
  split_and!; [done| |by apply taken_insert].
  rewrite slot_at_insert_ne; [done|]. intros ->. destruct Hg as (Hne & r & Hr & _). destruct Hu; congruence.
Qed.

(** ** Reading *)

Lemma matching_sound h slot key d : matching true h slot key = Some d → compute_key d = key.
Proof using Type.
  unfold matching, key_of, long_record_is_intact. destruct (with_record h _ _) as [r|]; [|done]. cbn [negb orb].
  destruct (rec_key r); case_bool_decide as Hk; try done; cbn [andb]; [|by intros [= <-]].
  case_bool_decide; [by intros [= <-]|done].
Qed.

Lemma matching_good v h slot key : good h slot key → ∃ d, matching v h slot key = Some d.
Proof using Type.
  intros (_ & r & Hr & Hk & Hd). unfold matching. rewrite Hr, bool_decide_true by done. cbn [andb].
  unfold long_record_is_intact. destruct (negb v || _); [by eexists|]. rewrite bool_decide_true by done. by eexists.
Qed.

Lemma get_loop_sound fuel h t key : ∀ i d, get_loop fuel true h t key i = Done (Some d) → compute_key d = key.
Proof using Type.
  induction fuel as [|fuel IH]; intros i d; cbn [get_loop]; [done|]. destruct (_ =? EMPTY)%nat; [done|].
  destruct (matching true h _ key) eqn:Hm; [|apply IH]. intros [= ->]. by eapply matching_sound.
Qed.

Lemma get_loop_findable h t key v : pow2 (length t) → findable h t key →
  ∃ d, get_loop (length t) v h t key (first_slot (length t) key) = Done (Some d).
Proof using Type*.
  intros Hp (j & Hj & Hg & Ht). rewrite <- (chain_0 t key Hp).
  assert (∀ n j0, (j0 + n = j)%nat → ∀ fuel, (n < fuel)%nat →
    ∃ d, get_loop fuel v h t key (chain t key j0) = Done (Some d)) as Hgo; [|apply (Hgo j 0%nat); lia].
  induction n as [|n IH]; intros j0 Hj0 [|fuel] Hf; try lia; cbn [get_loop].
  - rewrite Nat.add_0_r in Hj0. subst j0. destruct (Nat.eqb_spec (slot_at t (chain t key j)) EMPTY); [by destruct Hg|].
    destruct (matching_good v _ _ _ Hg) as [d ->]. by exists d.
  - destruct (Nat.eqb_spec (slot_at t (chain t key j0)) EMPTY) as [He|]; [exfalso; by apply (Ht j0); [lia|]|].
    destruct (matching v h _ key) as [d|]; [by exists d|]. rewrite chain_next by done. apply IH; lia.
Qed.

(** Every slot taken and none matching: the loop runs as long as it is let. *)
Lemma get_loop_hangs v h t key : pow2 (length t) → (∀ i, (i < length t)%nat → slot_at t i ≠ EMPTY) →
  (∀ i, (i < length t)%nat → matching v h (slot_at t i) key = None) →
  ∀ fuel i, (i < length t)%nat → get_loop fuel v h t key i = Hangs.
Proof using Type.
  intros Hp Hne Hm. induction fuel as [|fuel IH]; intros i Hi; cbn [get_loop]; [done|].
  destruct (Nat.eqb_spec (slot_at t i) EMPTY); [by destruct (Hne i)|]. rewrite Hm by done. apply IH.
  rewrite next_slot_mod by done. apply Nat.mod_upper_bound. apply pow2_positive in Hp. lia.
Qed.

Lemma get_loop_absent v h t key : pow2 (length t) → (∃ i, (i < length t)%nat ∧ slot_at t i = EMPTY) →
  (∀ i, slot_at t i ≠ EMPTY → matching v h (slot_at t i) key = None) →
  get_loop (length t) v h t key (first_slot (length t) key) = Done None.
Proof using Type*.
  intros Hp (i & Hi & He) Hm. destruct (chain_covers t key i Hp Hi) as (j & Hj & <-). rewrite <- (chain_0 t key Hp).
  assert (∀ n j0, (j0 + n = j)%nat → ∀ fuel, (n < fuel)%nat → get_loop fuel v h t key (chain t key j0) = Done None)
    as Hgo; [|apply (Hgo j 0%nat); lia].
  induction n as [|n IH]; intros j0 Hj0 [|fuel] Hf; try lia; cbn [get_loop].
  - rewrite Nat.add_0_r in Hj0. subst j0. by rewrite He.
  - destruct (Nat.eqb_spec (slot_at t (chain t key j0)) EMPTY) as [|Hne]; [done|]. rewrite Hm by done.
    rewrite chain_next by done. apply IH; lia.
Qed.

(** ** Inserting *)

(** The slot [i] is where the chain of [key] may put a record. *)
Definition insertable (h : Heap) (t : list nat) (key : bytes) (i : nat) : Prop :=
  ∃ j, (j < length t)%nat ∧ i = chain t key j ∧ taken t key j ∧ unused h t i.

Lemma seen_same h slot key data : compute_key data = key → slot ≠ EMPTY → seen h slot key data = Same → good h slot key.
Proof using Type.
  intros Hk Hs. unfold seen. destruct (with_record h _ _) as [r|] eqn:Hr; [|done].
  case_bool_decide as Hkey; [|done]. cbn [negb]. intros Hsame. split; [done|]. exists r. split_and!; [done..|].
  unfold key_of in Hkey. destruct (rec_key r); [|done]. case_bool_decide as Hd; [|done]. by rewrite Hd.
Qed.

Lemma put_probe_spec h t key data : pow2 (length t) → compute_key data = key →
  match put_probe (length t) h t key data (first_slot (length t) key) None with
  | InsertAt target => insertable h t key target
  | AlreadySame => findable h t key
  | _ => True
  end.
Proof using Type*.
  intros Hp Hk. rewrite <- (chain_0 t key Hp).
  assert (∀ fuel j reusable, (j + fuel = length t)%nat → taken t key j →
    (∀ i, reusable = Some i → insertable h t key i) →
    match put_probe fuel h t key data (chain t key j) reusable with
    | InsertAt target => insertable h t key target
    | AlreadySame => findable h t key
    | _ => True
    end) as Hgo; [|apply Hgo; [lia|apply taken_0|done]].
  induction fuel as [|fuel IH]; intros j reusable Hj Ht Hr; cbn [put_probe].
  { destruct reusable as [i|]; [|done]. by apply Hr. }
  destruct (Nat.eqb_spec (slot_at t (chain t key j)) EMPTY) as [He|Hne].
  { destruct reusable as [i|]; [by apply Hr|]. exists j. split_and!; [lia|done|done|by left]. }
  rewrite chain_next by done. pose proof (taken_S _ _ _ Ht Hne) as HtS.
  destruct (seen h _ key data) eqn:Hs; [| |done|apply IH; [lia|done|done]].
  - apply IH; [lia|done|]. destruct reusable as [i|]; [done|]. intros i [= <-]. exists j.
    split_and!; [lia|done|done|]. right. unfold seen in Hs. destruct (with_record h _ _); [|done].
    destruct (negb _); [done|]. by destruct (_ && _).
  - exists j. split_and!; [lia| |done]. by eapply seen_same.
Qed.

(** The record [try_put] and [put_many] append. *)
Definition row_entry (key data : bytes) : entry := (key, data, (STORE_KEY_THRESHOLD <? length data)%nat).

Lemma good_appended h o key data : heap_wf h → compute_key data = key → record_at h o (row_entry key data) →
  good h (o + 1) key.
Proof using Type*.
  intros Hwf Hk Hr. unfold row_entry in Hr. split; [unfold EMPTY; lia|]. rewrite Nat.add_sub.
  eexists. split; [apply (with_record_at h o key data _ key_length Hwf Hr)|].
  - intros _. rewrite <- Hk. apply length_compute_key.
  - unfold key_of. cbn [rec_key rec_data]. by destruct (_ <? _)%nat.
Qed.

Lemma findable_inserted h h' t key i s : insertable h t key i → good h' s key →
  findable h' (<[i := s]> t) key.
Proof using Type.
  intros (j & Hj & -> & Ht & Hu) Hg. assert (chain t key j < length t)%nat as Hlt
    by (apply Nat.mod_upper_bound; lia).
  exists j. rewrite length_insert, chain_insert, slot_at_insert by done.
  split_and!; [done|done|]. apply taken_insert; [by destruct Hg|done|done].
Qed.

End chains.
End FlatIndex.
