(* ===== verification/FlatIndexFacts.v ===== *)
(** * FlatDB: what the index operations preserve

    Growing, inserting and inserting in batches, as relations between the index before
    and after: which keys stay findable, which slots may change, and how the number of
    taken slots relates to the entry count.  [FlatDb] builds its refinement and its
    crash theorem on them. *)
From S2P Require Import Prelude FlatHeap FlatIndex.
From stdpp Require Import strings gmap.
From stdpp Require Import options.
Import FlatHeap FlatIndex.

Local Open Scope nat_scope.

Module FlatIndexFacts.

(** ** Counting taken slots *)

Definition used (t : list nat) : nat := length (filter (λ s, s ≠ EMPTY) t).

Lemma used_cons s t : used (s :: t) = (if decide (s = EMPTY) then used t else S (used t)).
Proof. unfold used. rewrite filter_cons. by repeat case_decide. Qed.

Lemma used_le t : used t ≤ length t.
Proof. apply length_filter. Qed.

Lemma used_replicate n : used (replicate n EMPTY) = 0.
Proof. induction n as [|n IH]; [done|]. cbn [replicate]. by rewrite used_cons, IH. Qed.

Lemma used_insert t i s : i < length t → slot_at t i = EMPTY → s ≠ EMPTY → used (<[i := s]> t) = S (used t).
Proof.
  unfold slot_at. revert i. induction t as [|x t IH]; intros i Hi He Hs; [simpl in Hi; lia|].
  destruct i as [|i]; cbn [insert list_insert]; rewrite !used_cons.
  - simpl in He. subst x. by rewrite decide_False, decide_True.
  - change (list_insert i s t) with (<[i := s]> t). rewrite IH by (simpl in *; lia || done). by case_decide.
Qed.

Lemma used_lt_empty t : used t < length t → ∃ i, i < length t ∧ slot_at t i = EMPTY.
Proof.
  induction t as [|x t IH]; simpl; [lia|]. rewrite used_cons. case_decide as Hx.
  - intros _. exists 0. split; [lia|done].
  - intros Hl. destruct IH as (i & Hi & He); [lia|]. exists (S i). split; [lia|done].
Qed.

Lemma slot_at_elem t i : slot_at t i ≠ EMPTY → slot_at t i ∈ t.
Proof.
  unfold slot_at. intros Hs. destruct (t !! i) as [s|] eqn:Hi; [|done]. simpl. by apply list_elem_of_lookup_2 in Hi.
Qed.

Section facts.
Context `{Keys} `{!KeysLaws} `{Host}.

(** ** Filling slots *)

(** [t'] is [t] with some unused slots filled. *)
Definition fills (h : Heap) (t t' : list nat) : Prop :=
  length t' = length t ∧ ∀ i, slot_at t' i = slot_at t i ∨ (unused h t i ∧ slot_at t' i ≠ EMPTY).

Lemma fills_refl h t : fills h t t.
Proof using Type. split; [done|]. by left. Qed.

Lemma unused_extends h h' t i : heap_wf h → extends h h' → unused h' t i → unused h t i.
Proof using Type.
  intros Hwf He [Hu|Hu]; [by left|right]. destruct (with_record h _ _) as [r|] eqn:Hr; [|done].
  by rewrite (with_record_extends h h' _ _ r) in Hu.
Qed.

Lemma fills_trans h h' t t' t'' : heap_wf h → extends h h' → fills h t t' → fills h' t' t'' → fills h t t''.
Proof using Type.
  intros Hwf He [Hl Hf] [Hl' Hf']. split; [congruence|]. intros i.
  destruct (Hf' i) as [Hi|[Hu Hi]], (Hf i) as [Hi'|[Hu' Hi']].
  - left. congruence.
  - right. split; [done|congruence].
  - right. split; [|done]. apply (unused_extends h h') in Hu; [|done..]. unfold unused in *. by rewrite <- Hi'.
  - right. done.
Qed.

Lemma fills_insert h t i s : i < length t → unused h t i → s ≠ EMPTY → fills h t (<[i := s]> t).
Proof using Type.
  intros Hi Hu Hs. split; [by rewrite length_insert|]. intros k. destruct (decide (i = k)) as [->|Hne].
  - right. split; [done|]. by rewrite slot_at_insert.
  - left. by apply slot_at_insert_ne.
Qed.

Lemma fills_taken h t t' key j : fills h t t' → taken t key j → taken t' key j.
Proof using Type.
  intros [Hl Hf] Ht j' Hj'. unfold chain. rewrite Hl. fold (chain t key j').
  destruct (Hf (chain t key j')) as [->|[_ Hi]]; [by apply Ht|done].
Qed.

Lemma fills_good h t t' i key : fills h t t' → good h (slot_at t i) key → slot_at t' i = slot_at t i.
Proof using Type.
  intros [_ Hf] (Hne & r & Hr & _). destruct (Hf i) as [|[[Hu|Hu] _]]; congruence.
Qed.

Lemma fills_findable h t t' key : fills h t t' → findable h t key → findable h t' key.
Proof using Type.
  intros Hf (j & Hj & Hg & Ht). pose proof (proj1 Hf) as Hl. exists j. rewrite Hl. split_and!; [done| |].
  - unfold chain. rewrite Hl. fold (chain t key j). by rewrite (fills_good h t t' _ key).
  - by eapply fills_taken.
Qed.

(** ** Growing *)

(** Every record the table points at hashes to the key it is filed under. *)
Definition intact (h : Heap) (t : list nat) : Prop :=
  ∀ s r, s ∈ t → s ≠ EMPTY → with_record h (s - 1) key_length = Some r → compute_key (rec_data r) = key_of r.

Lemma same_key_good h t i key : intact h t → slot_at t i ≠ EMPTY → same_key h (slot_at t i) key = true →
  good h (slot_at t i) key.
Proof using Type.
  intros Hin Hs. unfold same_key. destruct (with_record h _ _) as [r|] eqn:Hr; [|done].
  intros Hk%bool_decide_eq_true. split; [done|]. exists r. split_and!; [done..|]. rewrite <- Hk.
  eapply Hin; [by apply slot_at_elem|done|done].
Qed.

(** A chain with an empty slot ends, at it or at a record of the key. *)
Lemma place_spec h t key : pow2 (length t) → used t < length t →
  (∃ i, place (length t) h t key (first_slot (length t) key) = Done (Some i)
        ∧ insertable h t key i ∧ slot_at t i = EMPTY ∧ i < length t)
  ∨ (place (length t) h t key (first_slot (length t) key) = Done None
     ∧ ∃ j, j < length t ∧ taken t key j ∧ slot_at t (chain t key j) ≠ EMPTY
            ∧ same_key h (slot_at t (chain t key j)) key = true).
Proof using Type*.
  intros Hp Hu. destruct (used_lt_empty t Hu) as (e & He & Hee).
  destruct (chain_covers t key e Hp He) as (je & Hje & <-). rewrite <- (chain_0 t key Hp).
  assert (∀ n j, j + n = je → taken t key j → ∀ fuel, n < fuel →
    (∃ i, place fuel h t key (chain t key j) = Done (Some i)
          ∧ insertable h t key i ∧ slot_at t i = EMPTY ∧ i < length t)
    ∨ (place fuel h t key (chain t key j) = Done None
       ∧ ∃ j, j < length t ∧ taken t key j ∧ slot_at t (chain t key j) ≠ EMPTY
              ∧ same_key h (slot_at t (chain t key j)) key = true)) as Hgo;
    [|apply (Hgo je 0); [lia|apply taken_0|lia]].
  induction n as [|n IH]; intros j Hj Ht [|fuel] Hf; try lia; cbn [place].
  - rewrite Nat.add_0_r in Hj. subst j. rewrite Hee, Nat.eqb_refl. left. exists (chain t key je).
    split_and!; [done| |done|by apply chain_lt]. exists je. split_and!; [done..|by left].
  - destruct (Nat.eqb_spec (slot_at t (chain t key j)) EMPTY) as [Hem|Hne].
    + left. exists (chain t key j). split_and!; [done| |done|by apply chain_lt].
      exists j. split_and!; [lia|done|done|by left].
    + destruct (same_key h _ key) eqn:Hsk.
      * right. split; [done|]. exists j. split_and!; [lia|done..].
      * rewrite chain_next by done. apply IH; [lia|by apply taken_S|lia].
Qed.

Lemma rehash_spec h old : ∀ fresh moved, pow2 (length fresh) → intact h old → intact h fresh →
  used fresh + length old < length fresh →
  ∃ t moved', rehash h old fresh moved = Done (t, moved') ∧ length t = length fresh ∧ intact h t
    ∧ (∀ key, findable h fresh key → findable h t key)
    ∧ (∀ s key, s ∈ old → good h s key → findable h t key)
    ∧ used t + moved = used fresh + moved' ∧ moved' ≤ moved + used old
    ∧ (∀ s, s ∈ t → s ∈ fresh ∨ s ∈ old).
Proof using Type*.
  induction old as [|s old IH]; intros fresh moved Hp Hio Hif Hu; cbn [rehash].
  { exists fresh, moved. split_and!; try done; [|unfold used; simpl; lia|by left]. intros ? ? Hn%not_elem_of_nil. done. }
  simpl in Hu.
  assert (intact h old) as Hio' by (intros s' r Hs'; apply Hio; by right).
  assert (∀ t moved', length t = length fresh → intact h t →
    (∀ key, findable h fresh key → findable h t key) → (∀ key, good h s key → findable h t key) →
    used t + moved = used fresh + moved' → moved' ≤ moved + (if decide (s = EMPTY) then 0 else 1) →
    (∀ s', s' ∈ t → s' ∈ fresh ∨ s' ∈ s :: old) →
    ∃ t' m', rehash h old t moved' = Done (t', m') ∧ length t' = length fresh ∧ intact h t'
    ∧ (∀ key, findable h fresh key → findable h t' key)
    ∧ (∀ s' key, s' ∈ s :: old → good h s' key → findable h t' key)
    ∧ used t' + moved = used fresh + m' ∧ m' ≤ moved + used (s :: old)
    ∧ (∀ s', s' ∈ t' → s' ∈ fresh ∨ s' ∈ s :: old)) as Hstep.
  { intros t moved' Hl Hit Hft Hst Hut Hm Hsub. rewrite used_cons.
    destruct (IH t moved') as (t' & m' & Hr & Hl' & Hi' & Hf' & Hg' & Hu' & Hm' & Hs'); [by rewrite Hl|done|done| |].
    { rewrite Hl. case_decide; lia. }
    exists t', m'. split_and!; try done; [congruence| | |lia|case_decide; lia|].
    - intros key Hk. by apply Hf', Hft.
    - intros s' key [->|Hs]%elem_of_cons Hg; [by apply Hf', Hst|by eapply Hg'].
    - intros s'' [Hin|Hin]%Hs'; [by apply Hsub|]. right. by right. }
  destruct (Nat.eqb_spec s EMPTY) as [Hs|Hs].
  { apply Hstep; try done; [|lia|by left]. intros key [? _]. done. }
  destruct (with_record h (s - 1) key_length) as [r|] eqn:Hr.
  2: { apply Hstep; try done; [|lia|by left]. intros key (_ & r & Hr' & _). congruence. }
  assert (good h s (key_of r)) as Hgs.
  { split; [done|]. exists r. split_and!; [done..|]. eapply Hio; [left|done|done]. }
  assert (∀ key, good h s key → key = key_of r) as Huniq.
  { intros key (_ & r' & Hr' & Hk & _). congruence. }
  destruct (place_spec h fresh (key_of r) Hp ltac:(lia)) as [(i & -> & Hins & Hemp & Hi)|[-> (j & Hj & Ht & Hne & Hsk)]].
  - apply Hstep; [by rewrite length_insert| | | | | |].
    + intros s' r' Hs' Hne' Hr'. apply list_elem_of_lookup in Hs' as (k & Hk).
      apply list_lookup_insert_Some in Hk as [(-> & -> & _)|(_ & Hk)]; [by eapply Hio; [left|..]|].
      eapply Hif; [|done|done]. by eapply list_elem_of_lookup_2.
    + intros key. apply findable_insert; [done|done|by left].
    + intros key ->%Huniq. by eapply findable_inserted.
    + rewrite used_insert by done. lia.
    + rewrite decide_False by done. lia.
    + intros s' (k & Hk)%list_elem_of_lookup.
      apply list_lookup_insert_Some in Hk as [(-> & -> & _)|(_ & Hk)]; [right; left|left].
      by eapply list_elem_of_lookup_2.
  - apply Hstep; try done; [|lia|by left]. intros key ->%Huniq. exists j. split_and!; [done| |done].
    by apply same_key_good.
Qed.

(** ** Well-formed indexes *)

(** The live table has a power of two of slots, and its file is the largest. *)
Record idx_ok (idx : Index) : Prop := {
  idx_pow2 : pow2 (capacity idx);
  idx_live : tables idx !! capacity idx = Some (live idx);
  idx_slots : length (slots (live idx)) = capacity idx;
  idx_synced : length (synced (live idx)) = capacity idx;
  idx_newest : ∀ c, is_Some (tables idx !! c) → c ≤ capacity idx;
  idx_max : (Z.of_nat (capacity idx) ≤ MAX_CAPACITY)%Z;
}.

Definition finds (h : Heap) (idx : Index) (key : bytes) : Prop := findable h (slots (live idx)) key.

(** What every operation does to an index: it stays well formed, no key is lost, what
    the device holds stays, and of the tables only unused slots are filled. *)
Record evolves (h : Heap) (idx : Index) (h' : Heap) (idx' : Index) : Prop := {
  ev_ok : idx_ok idx';
  ev_finds : ∀ key, finds h idx key → finds h' idx' key;
  ev_tables : ∀ c T, tables idx !! c = Some T →
    ∃ T', tables idx' !! c = Some T' ∧ synced T' = synced T ∧ fills h (slots T) (slots T');
  ev_capacity : capacity idx ≤ capacity idx';
  ev_read_only : index_read_only idx' = index_read_only idx;
  ev_verify : verify_long_records idx' = verify_long_records idx;
  ev_dirty : dirty idx' = true ∨ (dirty idx' = dirty idx ∧ tables idx' = tables idx ∧ capacity idx' = capacity idx);
}.

Lemma evolves_refl h h' idx : idx_ok idx → heap_wf h → extends h h' → evolves h idx h' idx.
Proof using Type.
  intros Hok Hwf He. constructor; try done; [|intros c T HT|by right].
  - intros key. by apply findable_extends.
  - exists T. split_and!; [done..|apply fills_refl].
Qed.

Lemma evolves_trans h idx h' idx' h'' idx'' : heap_wf h → extends h h' →
  evolves h idx h' idx' → evolves h' idx' h'' idx'' → evolves h idx h'' idx''.
Proof using Type.
  intros Hwf He [? Hf Ht ? ? ? Hd] [? Hf' Ht' ? ? ? Hd']. constructor; try done; [|intros c T HT|lia|congruence..|].
  - intros key Hk. by apply Hf', Hf.
  - destruct (Ht c T HT) as (T1 & HT1 & Hs1 & Hfl1). destruct (Ht' c T1 HT1) as (T2 & HT2 & Hs2 & Hfl2).
    exists T2. split_and!; [done|congruence|]. by eapply fills_trans.
  - destruct Hd' as [|(Hd1 & Hd2 & Hd3)]; [by left|]. destruct Hd as [|(? & ? & ?)]; [left; congruence|right].
    split_and!; congruence.
Qed.

Lemma live_store idx t added : live (store_slots idx t added) = mkTable t (synced (live idx)).
Proof using Type. unfold live at 1, store_slots. cbn [tables capacity]. by rewrite lookup_insert_eq. Qed.

(** Filling slots of the live table. *)
Lemma evolves_store h h' idx t added : idx_ok idx → heap_wf h → extends h h' → fills h (slots (live idx)) t →
  evolves h idx h' (store_slots idx t added).
Proof using Type.
  intros [Hp Hl Hsl Hsy Hn Hmx] Hwf He Hf. pose proof (proj1 Hf) as Hlen.
  constructor; unfold finds; rewrite ?live_store; cbn [store_slots capacity index_read_only verify_long_records dirty slots];
    try done; [constructor| |intros c T HT|by left].
  - done.
  - rewrite live_store. cbn [store_slots tables capacity]. by rewrite lookup_insert_eq.
  - rewrite live_store. cbn [store_slots capacity slots]. congruence.
  - rewrite live_store. done.
  - cbn [store_slots tables capacity]. intros c [T HT]. destruct (decide (c = capacity idx)) as [->|Hne]; [done|].
    rewrite lookup_insert_ne in HT by done. by apply Hn.
  - done.
  - intros key Hk. eapply findable_extends; [done|done|]. by eapply fills_findable.
  - cbn [store_slots tables]. destruct (decide (c = capacity idx)) as [->|Hne].
    + rewrite lookup_insert_eq. eexists. split; [done|]. cbn [synced slots]. rewrite Hl in HT. by injection HT as <-.
    + rewrite lookup_insert_ne by done. exists T. split_and!; [done..|apply fills_refl].
Qed.

(** The live table of [idx'] points only where that of [idx] does. *)
Definition within (idx idx' : Index) : Prop :=
  ∀ s, s ∈ slots (live idx') → s ≠ EMPTY → s ∈ slots (live idx).

Lemma within_trans idx idx' idx'' : within idx idx' → within idx' idx'' → within idx idx''.
Proof using Type. intros Hw Hw' s Hs Hne. apply Hw; [by apply Hw'|done]. Qed.

Lemma intact_fresh h n : intact h (replicate n EMPTY).
Proof using Type. intros s r Hs%elem_of_replicate_inv Hne. done. Qed.

Lemma grow_spec h idx : heap_wf h → idx_ok idx → intact h (slots (live idx)) →
  ∃ res idx', grow idx h = (res, idx') ∧ evolves h idx h idx' ∧ intact h (slots (live idx'))
    ∧ match res with
      | Done _ => capacity idx' = capacity idx * 2 ∧ entries idx' ≤ used (slots (live idx))
                  ∧ used (slots (live idx')) = entries idx'
                  ∧ within idx idx'
      | Fails _ => idx' = idx
      | Hangs => False
      end.
Proof using Type*.
  intros Hwf Hok Hin. pose proof Hok as [Hp Hl Hsl Hsy Hn Hmx]. pose proof (pow2_positive _ Hp) as Hpos.
  unfold grow. rewrite (proj2 (Nat.eqb_neq (capacity idx) 0)) by lia.
  destruct (Z.ltb_spec MAX_CAPACITY (Z.of_nat (capacity idx * 2))) as [|Hmax];
    [eexists _, _; split; [done|]; split_and!; [by apply evolves_refl|done..]|].
  unfold map_table. destruct (table_error _); [eexists _, _; split; [done|]; split_and!; [by apply evolves_refl|done..]|].
  assert (tables idx !! (capacity idx * 2) = None) as Hnew.
  { apply eq_None_not_Some. intros Hc%Hn. lia. }
  rewrite Hnew. cbn [default from_option id]. change (slots (fresh_table ?n)) with (replicate n EMPTY).
  cbn [fresh_table slots synced]. set (n := capacity idx * 2) in *.
  destruct (rehash_spec h (slots (live idx)) (replicate n EMPTY) 0)
    as (t & moved & -> & Hlen & Hit & _ & Hg & Hu & Hm & Hsub);
    rewrite ?length_replicate, ?used_replicate in *; [by apply pow2_double|done|apply intact_fresh|lia|].
  eexists _, _. split; [done|].
  set (idx' := mkIndex _ _ _ _ _ _).
  assert (live idx' = mkTable t (replicate n EMPTY)) as Hlive
    by (unfold live, idx'; cbn [tables capacity]; by rewrite lookup_insert_eq).
  split; [|rewrite !Hlive; cbn [slots]; split_and!; [done|done|subst idx'; cbn [entries]; lia|subst idx'; cbn [entries]; lia|]].
  - constructor; unfold finds; rewrite ?Hlive; try done; [constructor| |intros c T HT| |by left].
    + by apply pow2_double.
    + rewrite Hlive. unfold idx'. cbn [tables capacity]. by rewrite lookup_insert_eq.
    + rewrite Hlive. done.
    + rewrite Hlive. cbn [synced]. by rewrite length_replicate.
    + unfold idx'. cbn [tables capacity]. intros c [T HT]. destruct (decide (c = n)) as [->|Hne]; [done|].
      rewrite lookup_insert_ne in HT by done. etrans; [by apply Hn; eexists|]. subst n. lia.
    + done.
    + intros key (j & Hj & Hgd & _). eapply Hg; [|done]. apply slot_at_elem. by destruct Hgd.
    + unfold idx'. cbn [tables]. rewrite lookup_insert_ne by congruence.
      exists T. split_and!; [done..|apply fills_refl].
    + subst idx' n. cbn [capacity]. lia.
  - intros s. rewrite Hlive. intros [Hs|Hs]%Hsub Hne; [|done]. by apply elem_of_replicate_inv in Hs.
Qed.

(** ** Exact indexes *)

(** Without stale slots: the entry count counts the taken slots, the table is at most
    half full, and the slots point at the records of exactly the keys of [S]. *)
Record exact (h : Heap) (idx : Index) (S : gset bytes) : Prop := {
  ex_counted : used (slots (live idx)) = entries idx;
  ex_half : 2 * entries idx ≤ capacity idx;
  ex_two : 2 ≤ capacity idx;
  ex_slots : ∀ s, s ∈ slots (live idx) → s ≠ EMPTY → ∃ key, key ∈ S ∧ good h s key;
  ex_finds : ∀ key, key ∈ S → finds h idx key;
}.

Lemma good_key h s key key' : good h s key → good h s key' → key = key'.
Proof using Type. intros (_ & r & Hr & Hk & _) (_ & r' & Hr' & Hk' & _). congruence. Qed.

Lemma exact_intact h idx S : exact h idx S → intact h (slots (live idx)).
Proof using Type.
  intros He s r Hs Hne Hr. destruct (ex_slots _ _ _ He s Hs Hne) as (key & _ & _ & r' & Hr' & Hk & Hd). congruence.
Qed.

Lemma exact_unused h idx S i : exact h idx S → unused h (slots (live idx)) i → slot_at (slots (live idx)) i = EMPTY.
Proof using Type.
  intros He [|Hu]; [done|]. destruct (decide (slot_at (slots (live idx)) i = EMPTY)) as [|Hne]; [done|].
  destruct (ex_slots _ _ _ He _ (slot_at_elem _ _ Hne) Hne) as (key & _ & _ & r & Hr & _). congruence.
Qed.

Lemma exact_extends h h' idx S : heap_wf h → extends h h' → exact h idx S → exact h' idx S.
Proof using Type.
  intros Hwf He [Hc Hh H2 Hs Hf]. constructor; try done.
  - intros s Hin Hne. destruct (Hs s Hin Hne) as (key & ? & Hg). exists key. split; [done|]. by eapply good_extends.
  - intros key Hk. eapply findable_extends; [done|done|]. by apply Hf.
Qed.

Lemma exact_known h idx S key : exact h idx S → finds h idx key → key ∈ S.
Proof using Type.
  intros He (j & _ & Hg & _). pose proof Hg as [Hne _].
  destruct (ex_slots _ _ _ He _ (slot_at_elem _ _ Hne) Hne) as (key' & Hin & Hg').
  by rewrite (good_key h _ key key' Hg Hg').
Qed.

(** A grow keeps an exact index exact, with room for one more. *)
Lemma exact_grow h idx S idx' u : heap_wf h → idx_ok idx → exact h idx S → grow idx h = (Done u, idx') →
  exact h idx' S ∧ 2 * (entries idx' + 1) ≤ capacity idx'.
Proof using Type*.
  intros Hwf Hok He Hg. destruct (grow_spec h idx Hwf Hok (exact_intact _ _ _ He)) as (res & idx1 & Hg1 & Hev & Hin & Hr).
  rewrite Hg in Hg1. injection Hg1 as <- <-. destruct Hr as (Hc & Hle & Hu & Hsub). destruct He as [Hcn Hh H2 Hs Hf].
  split; [|lia]. constructor; [done|lia|lia| |].
  - intros s Hin' Hne. apply Hs; [by apply Hsub|done].
  - intros key Hk. by apply (ev_finds _ _ _ _ Hev), Hf.
Qed.

(** ** Single insertions *)

Lemma append_spec h key data sk : heap_ok h →
  ∃ res h', append h key data sk = (res, h') ∧ heap_ok h' ∧ extends h h' ∧ keeps h h'
    ∧ match res with Done o => record_at h' o (key, data, sk) | Fails _ => True | Hangs => False end.
Proof using Type.
  intros Hok. unfold append. destruct (append_many_spec h [(key, data, sk)] Hok) as (res & h' & -> & Hok' & He & Hkp & Hr).
  destruct res as [offs|e|]; [|by eexists _, _|done]. destruct Hr as (Hr & _ & _).
  apply Forall2_cons_inv_r in Hr as (o & offs' & Hr & _ & ->). by eexists _, _.
Qed.

Lemma exact_insert h h' idx S i s key : heap_wf h → extends h h' → idx_ok idx → exact h idx S →
  2 * (entries idx + 1) ≤ capacity idx → insertable h (slots (live idx)) key i → good h' s key →
  exact h' (store_slots idx (<[i := s]> (slots (live idx))) 1) (S ∪ {[key]}).
Proof using Type*.
  intros Hwf Hext Hok He Hroom Hins Hg. pose proof Hins as (j & Hj & Hi & Ht & Hu).
  pose proof (exact_unused _ _ _ _ He Hu) as Hemp. pose proof Hg as [Hsne _].
  assert (i < length (slots (live idx))) as Hlt
    by (rewrite Hi; apply chain_lt; rewrite (idx_slots _ Hok); apply (idx_pow2 _ Hok)).
  destruct (exact_extends h h' idx S Hwf Hext He) as [Hc Hh H2 Hs Hf].
  constructor; unfold finds; rewrite ?live_store; cbn [store_slots slots entries capacity]; [|lia|done| |].
  - rewrite used_insert by done. lia.
  - intros s' (k & Hk)%list_elem_of_lookup Hne.
    apply list_lookup_insert_Some in Hk as [(-> & -> & _)|(_ & Hk)]; [exists key; split; [set_solver|done]|].
    destruct (Hs s') as (key' & ? & ?); [by eapply list_elem_of_lookup_2|done|]. exists key'. split; [set_solver|done].
  - intros key' [Hk|Hk]%elem_of_union.
    + apply findable_insert; [done|done|by left|]. by apply Hf.
    + apply elem_of_singleton in Hk as ->. eapply findable_inserted; [|done]. exact Hins.
Qed.

(** The outcomes of a call that inserts [key]. *)
Definition put_result (h : Heap) (idx : Index) (key : bytes) (done : bool) (h' : Heap) (idx' : Index) : Prop :=
  heap_ok h' ∧ extends h h' ∧ keeps h h' ∧ evolves h idx h' idx' ∧ (done = true → finds h' idx' key)
  ∧ (done = false → within idx idx')
  ∧ ∀ S, exact h idx S → exact h' idx' (if done then S ∪ {[key]} else S).

Lemma try_put_spec h idx key data : heap_ok h → idx_ok idx → intact h (slots (live idx)) → compute_key data = key →
  ∃ res idx' h', try_put idx h key data = (res, idx', h')
    ∧ put_result h idx key (match res with Done b => b | _ => false end) h' idx'
    ∧ (res = Done false → h' = h ∧ intact h (slots (live idx'))) ∧ res ≠ Hangs.
Proof using Type*.
  intros Hhok Hok Hin Hk. pose proof (ok_wf h Hhok) as Hwf. unfold try_put.
  assert (∃ res idx1, (if capacity idx / 2 <? entries idx + 1 then grow idx h else (Done tt, idx)) = (res, idx1)
    ∧ res ≠ Hangs ∧ evolves h idx h idx1 ∧ intact h (slots (live idx1)) ∧ within idx idx1
    ∧ ∀ S, exact h idx S → exact h idx1 S
      ∧ (res = Done tt → 2 * (entries idx1 + 1) ≤ capacity idx1)) as (res & idx1 & -> & Hnh & Hev & Hin1 & Hwi & Hex).
  { destruct (Nat.ltb_spec (capacity idx / 2) (entries idx + 1)) as [Hlt|Hge].
    - destruct (grow_spec h idx Hwf Hok Hin) as (res & idx1 & Hg & Hev & Hin1 & Hr). rewrite Hg.
      exists res, idx1. split_and!; [done|by destruct res|done|done|by destruct res; [apply Hr|subst; intros s|]|]. intros S HS. destruct res as [[]|e|]; [|by subst|done].
      destruct (exact_grow h idx S idx1 tt Hwf Hok HS Hg). done.
    - eexists _, _. split_and!; [done|done|by apply evolves_refl|done|by intros s|]. intros S HS. split; [done|]. intros _.
      pose proof (Nat.div_mod_eq (capacity idx) 2). lia. }
  pose proof (ev_ok _ _ _ _ Hev) as Hok1.
  unfold put_result. destruct res as [[]|e|]; [| |done].
  2: { eexists _, _, _. split; [done|]. split_and!; try done. intros S HS. by apply Hex. }
  pose proof (idx_pow2 _ Hok1) as Hp. rewrite <- (idx_slots _ Hok1) in Hp.
  pose proof (put_probe_spec h (slots (live idx1)) key data Hp Hk) as Hprobe.
  destruct (put_probe _ _ _ _ _ _ _) as [target| | |].
  - unfold insert_at. destruct (append_spec h key data (STORE_KEY_THRESHOLD <? length data) Hhok)
      as (res & h' & -> & Hok' & Hext & Hkp & Hr).
    destruct res as [o|e|]; [| |done].
    + pose proof (good_appended h' o key data (ok_wf _ Hok') Hk Hr) as Hg.
      eexists _, _, _. split; [done|]. split_and!; try done.
      * apply (evolves_trans h idx h idx1); [done|done|exact Hev|].
        apply evolves_store; [done..|]. destruct Hprobe as (j & Hj & -> & Ht & Hu).
        apply fills_insert; [by apply chain_lt|done|by destruct Hg].
      * intros _. unfold finds. rewrite live_store. by eapply findable_inserted.
      * intros S HS. destruct (Hex S HS) as [HS1 Hroom]. apply (exact_insert h h'); try done. by apply Hroom.
    + eexists _, _, _. split; [done|]. split_and!; try done.
      * apply (evolves_trans h idx h idx1); [done|done|exact Hev|]. by apply evolves_refl.
      * intros S HS. eapply exact_extends; [done|done|]. by apply Hex.
  - eexists _, _, _. split; [done|]. split_and!; try done. intros S HS. destruct (Hex S HS) as [HS1 _].
    pose proof (exact_known _ _ _ _ HS1 Hprobe) as Hkey. replace (S ∪ {[key]}) with S by set_solver. done.
  - eexists _, _, _. split; [done|]. split_and!; try done. intros S HS. by apply Hex.
  - eexists _, _, _. split; [done|]. split_and!; try done. intros S HS. by apply Hex.
Qed.

Lemma put_rounds_spec rounds h idx key data : heap_ok h → idx_ok idx → intact h (slots (live idx)) →
  compute_key data = key →
  ∃ res idx' h', put_rounds rounds idx h key data = (res, idx', h')
    ∧ put_result h idx key (match res with Done _ => true | _ => false end) h' idx' ∧ res ≠ Hangs.
Proof using Type*.
  intros Hhok Hok Hin Hk. pose proof (ok_wf h Hhok) as Hwf. revert idx Hok Hin.
  induction rounds as [|rounds IH]; intros idx Hok Hin; cbn [put_rounds].
  { eexists _, _, _. split; [done|]. split; [|done]. unfold put_result. split_and!; try done; [by apply evolves_refl|by intros _ s]. }
  destruct (try_put_spec h idx key data Hhok Hok Hin Hk) as (res & idx1 & h1 & -> & Hr & Hfull & Hnh).
  destruct res as [[|]|e|]; [by eexists _, _, _| |by eexists _, _, _|done].
  destruct (Hfull eq_refl) as [-> Hin1]. destruct Hr as (_ & _ & _ & Hev & _ & Hwi & Hex). specialize (Hwi eq_refl).
  destruct (grow_spec h idx1 Hwf (ev_ok _ _ _ _ Hev) Hin1) as (res & idx2 & Hg & Hev2 & Hin2 & Hr2). rewrite Hg.
  assert (evolves h idx h idx2) as Hev12 by (by apply (evolves_trans h idx h idx1)).
  destruct res as [[]|e|]; [| |done].
  - destruct (IH idx2 (ev_ok _ _ _ _ Hev2) Hin2) as (res & idx3 & h3 & -> & (Hok3 & He3 & Hkp3 & Hev3 & Hf3 & Hwi3 & Hex3) & Hnh3).
    eexists _, _, _. split; [done|]. split; [|done]. unfold put_result. split_and!; try done.
    + by apply (evolves_trans h idx h idx2).
    + intros Hd. apply (within_trans idx idx1); [done|]. apply (within_trans idx1 idx2); [apply Hr2|by apply Hwi3].
    + intros S HS. apply Hex3. by apply (exact_grow h idx1 S idx2 tt Hwf (ev_ok _ _ _ _ Hev) (Hex S HS)).
  - subst idx2. eexists _, _, _. split; [done|]. split; [|done]. unfold put_result. by split_and!.
Qed.

(** ** Batches *)

Lemma claim_slot_spec h t key o : pow2 (length t) →
  (∃ i, claim_slot t h key o = (true, <[i := o + 1]> t) ∧ insertable h t key i ∧ slot_at t i = EMPTY ∧ i < length t)
  ∨ (claim_slot t h key o = (false, t)
     ∧ (used t < length t → ∃ j, j < length t ∧ taken t key j ∧ slot_at t (chain t key j) ≠ EMPTY
                                 ∧ same_key h (slot_at t (chain t key j)) key = true)).
Proof using Type*.
  intros Hp. unfold claim_slot. rewrite <- (chain_0 t key Hp).
  assert (∀ fuel j, j + fuel = length t → taken t key j →
    (∃ i, claim_loop fuel h t key o (chain t key j) = (true, <[i := o + 1]> t)
          ∧ insertable h t key i ∧ slot_at t i = EMPTY ∧ i < length t)
    ∨ (claim_loop fuel h t key o (chain t key j) = (false, t)
       ∧ (used t < length t → ∃ j, j < length t ∧ taken t key j ∧ slot_at t (chain t key j) ≠ EMPTY
                                   ∧ same_key h (slot_at t (chain t key j)) key = true))) as Hgo;
    [|apply Hgo; [lia|apply taken_0]].
  induction fuel as [|fuel IH]; intros j Hj Ht; cbn [claim_loop].
  { right. split; [done|]. intros Hu. destruct (used_lt_empty t Hu) as (e & He & Hee). exfalso.
    destruct (chain_covers t key e Hp He) as (je & Hje & <-). apply (Ht je); [lia|done]. }
  destruct (Nat.eqb_spec (slot_at t (chain t key j)) EMPTY) as [Hem|Hne].
  { left. exists (chain t key j). split_and!; [done| |done|by apply chain_lt].
    exists j. split_and!; [lia|done|done|by left]. }
  destruct (same_key h _ key) eqn:Hsk.
  - right. split; [done|]. intros _. exists j. split_and!; [lia|done..].
  - rewrite chain_next by done. apply IH; [lia|by apply taken_S].
Qed.

(** The records a batch claims slots for: good ones, at their offsets. *)
Definition claims_good (h : Heap) (fresh : list (entry * nat)) : Prop :=
  Forall (λ x, good h (x.2 + 1) x.1.1.1) fresh.

Lemma claim_all_spec h fresh : heap_wf h → claims_good h fresh → ∀ t added, pow2 (length t) →
  ∃ added' t', claim_all t h fresh added = (added', t') ∧ fills h t t'
    ∧ used t' + added = used t + added' ∧ added' ≤ added + length fresh
    ∧ (∀ s, s ∈ t' → s ∈ t ∨ ∃ x, x ∈ fresh ∧ s = x.2 + 1)
    ∧ (intact h t → used t + length fresh ≤ length t → ∀ x, x ∈ fresh → findable h t' x.1.1.1).
Proof using Type*.
  intros Hwf. induction 1 as [|[[[key data] sk] o] fresh Hg Hall IH]; intros t added Hp; cbn [claim_all].
  { exists added, t. split_and!; try done; [apply fills_refl|lia|by left|]. intros _ _ x Hx%not_elem_of_nil. done. }
  cbn [fst snd] in Hg. pose proof Hg as [Hne _].
  destruct (claim_slot_spec h t key o Hp) as [(i & -> & Hins & Hem & Hi)|[-> Hfull]].
  - set (t1 := <[i := o + 1]> t). assert (fills h t t1) as Hf1 by (apply fills_insert; [done|by left|done]).
    assert (used t1 = S (used t)) as Hu1 by (by apply used_insert).
    destruct (IH t1 (S added)) as (a & t' & -> & Hf & Hu & Ha & Hsub & Hfind); [by rewrite (proj1 Hf1)|].
    exists a, t'. cbn [length]. split_and!; [done| |lia|lia| |].
    + by apply (fills_trans h h t t1).
    + intros s [Hs|(x & Hx & ->)]%Hsub; [|right; exists x; split; [by right|done]].
      apply list_elem_of_lookup in Hs as (k & Hk).
      apply list_lookup_insert_Some in Hk as [(-> & <- & _)|(_ & Hk)].
      * right. exists (key, data, sk, o). split; [left|done].
      * left. by eapply list_elem_of_lookup_2.
    + intros Hin Hroom. assert (intact h t1) as Hin1.
      { intros s r (k & Hk)%list_elem_of_lookup Hs Hr.
        apply list_lookup_insert_Some in Hk as [(-> & <- & _)|(_ & Hk)].
        - destruct Hg as (_ & r' & Hr' & Hk & Hd). congruence.
        - eapply Hin; [by eapply list_elem_of_lookup_2|done|done]. }
      intros x [->|Hx]%elem_of_cons; cbn [fst].
      * eapply fills_findable; [exact Hf|]. by eapply findable_inserted.
      * apply Hfind; [done|rewrite (proj1 Hf1); lia|done].
  - destruct (IH t added Hp) as (a & t' & -> & Hf & Hu & Ha & Hsub & Hfind).
    exists a, t'. cbn [length]. split_and!; [done|done|lia|lia| |].
    + intros s [Hs|(x & Hx & ->)]%Hsub; [by left|right]. exists x. split; [by right|done].
    + intros Hin Hroom x [->|Hx]%elem_of_cons; cbn [fst].
      * destruct (Hfull ltac:(lia)) as (j & Hj & Ht & Hn & Hsk). eapply fills_findable; [exact Hf|].
        exists j. split_and!; [done| |done]. by apply same_key_good.
      * apply Hfind; [done|lia|done].
Qed.

Lemma make_room_spec h rows fuel : heap_wf h → ∀ idx, idx_ok idx → intact h (slots (live idx)) →
  (MAX_CAPACITY < Z.of_nat (capacity idx) * 2 ^ Z.of_nat fuel)%Z →
  ∃ res idx', make_room fuel idx h rows = (res, idx') ∧ evolves h idx h idx' ∧ intact h (slots (live idx'))
    ∧ res ≠ Hangs ∧ (res = Done tt → entries idx' + rows ≤ capacity idx' / 2) ∧ within idx idx'
    ∧ ∀ S, exact h idx S → exact h idx' S.
Proof using Type*.
  intros Hwf. induction fuel as [|fuel IH]; intros idx Hok Hin Hfuel; cbn [make_room];
    (destruct (Nat.ltb_spec (capacity idx / 2) (entries idx + rows));
     [|eexists _, _; split; [done|]; split_and!; try done; [by apply evolves_refl|by intros s]]).
  { pose proof (idx_max _ Hok). lia. }
  destruct (grow_spec h idx Hwf Hok Hin) as (res & idx1 & Hg & Hev & Hin1 & Hr). rewrite Hg.
  destruct res as [[]|e|]; [| |done].
  2: { subst idx1. eexists _, _. split; [done|]. split_and!; try done. by intros s. }
  destruct (IH idx1 (ev_ok _ _ _ _ Hev) Hin1) as (res & idx2 & -> & Hev2 & Hin2 & Hnh & Hroom & Hwi & Hex).
  { destruct Hr as (-> & _). rewrite Nat2Z.inj_succ, Z.pow_succ_r in Hfuel by lia. lia. }
  eexists _, _. split; [done|]. split_and!; try done;
    [by apply (evolves_trans h idx h idx1)|apply (within_trans idx idx1); [apply Hr|done]|].
  intros S HS. apply Hex. by apply (exact_grow h idx S idx1 tt Hwf Hok HS).
Qed.

Lemma probe_finds_spec h t key : pow2 (length t) → intact h t → probe_finds t h key = true → findable h t key.
Proof using Type*.
  intros Hp Hin. unfold probe_finds. rewrite <- (chain_0 t key Hp).
  assert (∀ fuel j, j + fuel = length t → taken t key j →
    probe_loop fuel h t key (chain t key j) = true → findable h t key) as Hgo; [|apply Hgo; [lia|apply taken_0]].
  induction fuel as [|fuel IH]; intros j Hj Ht; cbn [probe_loop]; [done|].
  destruct (Nat.eqb_spec (slot_at t (chain t key j)) EMPTY) as [|Hne]; [done|].
  destruct (same_key h _ key) eqn:Hsk.
  - intros _. exists j. split_and!; [lia| |done]. by apply same_key_good.
  - rewrite chain_next by done. apply IH; [lia|by apply taken_S].
Qed.

Definition row_keys (rows : list (bytes * bytes)) : gset bytes := list_to_set rows.*1.

Lemma elem_of_fresh_rows t h rows x : x ∈ fresh_rows t h rows →
  ∃ key data, (key, data) ∈ rows ∧ x = row_entry key data.
Proof using Type.
  unfold fresh_rows. intros ([key data] & Hin & Hx)%list_elem_of_omap.
  destruct (probe_finds t h key); [done|]. injection Hx as <-. by exists key, data.
Qed.

Lemma fresh_rows_complete t h rows key data : (key, data) ∈ rows → probe_finds t h key = false →
  row_entry key data ∈ fresh_rows t h rows.
Proof using Type.
  intros Hin Hp. unfold fresh_rows. apply list_elem_of_omap. exists (key, data). split; [done|]. by rewrite Hp.
Qed.

Lemma length_fresh_rows t h rows : length (fresh_rows t h rows) ≤ length rows.
Proof using Type.
  unfold fresh_rows. induction rows as [|[key data] rows IH]; [done|]. cbn [omap list_omap length] in *.
  destruct (probe_finds t h key); simpl; lia.
Qed.

Lemma zip_records {A B} (P : B → A → Prop) offs l : Forall2 P offs l →
  length (zip l offs) = length l ∧ (∀ x, x ∈ l → ∃ o, (x, o) ∈ zip l offs) ∧ Forall (λ x, P x.2 x.1 ∧ x.1 ∈ l) (zip l offs).
Proof using Type.
  induction 1 as [|o x offs l Hp _ (Hl & Hin & Hall)]; [split_and!; [done|by intros ? ?%not_elem_of_nil|constructor]|].
  cbn [zip zip_with length]. split_and!; [lia| |].
  - intros y [->|Hy]%elem_of_cons; [exists o; left|]. destruct (Hin y Hy) as [o' Ho']. exists o'. by right.
  - constructor; [split; [done|left]|]. eapply Forall_impl; [exact Hall|]. intros y [? ?]. split; [done|by right].
Qed.

(** A batch claimed on an exact index with room for it. *)
Lemma exact_claimed h h' idx S rows fresh added t' : heap_wf h → extends h h' → idx_ok idx → exact h idx S →
  entries idx + length rows ≤ capacity idx / 2 → length fresh ≤ length rows →
  claims_good h' fresh → fills h' (slots (live idx)) t' →
  used t' = used (slots (live idx)) + added → added ≤ length fresh →
  (∀ s, s ∈ t' → s ∈ slots (live idx) ∨ ∃ x, x ∈ fresh ∧ s = x.2 + 1) →
  (∀ x, x ∈ fresh → findable h' t' x.1.1.1) → (∀ x, x ∈ fresh → x.1.1.1 ∈ row_keys rows) →
  (∀ key, key ∈ row_keys rows → key ∈ S ∨ ∃ x, x ∈ fresh ∧ x.1.1.1 = key) →
  exact h' (store_slots idx t' added) (S ∪ row_keys rows).
Proof using Type*.
  intros Hwf Hext Hok HS Hroom Hfr Hcl Hf Hu Ha Hsub Hfind Hin Hall.
  destruct (exact_extends h h' idx S Hwf Hext HS) as [Hc Hh H2 Hs Hfi].
  pose proof (Nat.div_mod_eq (capacity idx) 2).
  constructor; unfold finds; rewrite ?live_store; cbn [store_slots slots entries capacity]; [lia|lia|done| |].
  - intros s [Hs'|(x & Hx & ->)]%Hsub Hne.
    + destruct (Hs s Hs' Hne) as (key & ? & ?). exists key. split; [set_solver|done].
    + exists x.1.1.1. split; [specialize (Hin x Hx); set_solver|]. by apply (proj1 (Forall_forall _ _) Hcl).
  - intros key [Hk|Hk]%elem_of_union; [|destruct (Hall key Hk) as [HkS|(x & Hx & <-)]; [|by apply Hfind]].
    + eapply fills_findable; [exact Hf|]. by apply Hfi.
    + eapply fills_findable; [exact Hf|]. by apply Hfi.
Qed.

Lemma put_many_spec h idx rows : heap_ok h → idx_ok idx → intact h (slots (live idx)) →
  (∀ key data, (key, data) ∈ rows → compute_key data = key) →
  ∃ res idx' h', put_many idx h rows = (res, idx', h') ∧ heap_ok h' ∧ extends h h' ∧ keeps h h'
    ∧ evolves h idx h' idx' ∧ res ≠ Hangs
    ∧ (res ≠ Done tt → within idx idx')
    ∧ ∀ S, exact h idx S → exact h' idx' (match res with Done _ => S ∪ row_keys rows | _ => S end).
Proof using Type*.
  intros Hhok Hok Hin Hkeys. pose proof (ok_wf h Hhok) as Hwf. unfold put_many.
  destruct rows as [|row0 rows0].
  { eexists _, _, _. split; [done|]. split_and!; try done; [by apply evolves_refl|]. intros S HS.
    change (row_keys []) with (∅ : gset bytes). by rewrite union_empty_r_L. }
  set (rows := row0 :: rows0) in *.
  destruct (make_room_spec h (length rows) 33 Hwf idx Hok Hin) as (res & idx1 & -> & Hev & Hin1 & Hnh & Hroom & Hwi & Hex).
  { pose proof (pow2_positive _ (idx_pow2 _ Hok)). change MAX_CAPACITY with (2 ^ 31)%Z.
    change (Z.of_nat 33) with 33%Z. lia. }
  destruct res as [[]|e|]; [| |done].
  2: { eexists _, _, _. split; [done|]. by split_and!. }
  specialize (Hroom eq_refl). pose proof (ev_ok _ _ _ _ Hev) as Hok1. set (t := slots (live idx1)) in *.
  pose proof (idx_pow2 _ Hok1) as Hp. rewrite <- (idx_slots _ Hok1) in Hp. fold t in Hp.
  assert (∀ key data, (key, data) ∈ rows → probe_finds t h key = true → finds h idx1 key) as Hold.
  { intros key data _ Hpf. by apply probe_finds_spec. }
  destruct (fresh_rows t h rows) as [|f0 fs] eqn:Hfresh.
  { eexists _, _, _. split; [done|]. split_and!; try done. intros S HS. pose proof (Hex S HS) as HS1.
    replace (S ∪ row_keys rows) with S; [done|]. apply set_eq. intros key. rewrite elem_of_union. split; [by left|].
    intros [|Hk]; [done|]. unfold row_keys in Hk. rewrite elem_of_list_to_set in Hk.
    apply list_elem_of_fmap in Hk as ([key' data] & -> & Hrow). cbn [fst].
    destruct (probe_finds t h key') eqn:Hpf.
    - eapply exact_known; [exact HS1|]. by eapply Hold.
    - pose proof (fresh_rows_complete t h rows key' data Hrow Hpf) as Hx. rewrite Hfresh in Hx.
      by apply not_elem_of_nil in Hx. }
  rewrite <- Hfresh. clear f0 fs Hfresh. set (fresh := fresh_rows t h rows) in *.
  destruct (append_many_spec h fresh Hhok) as (res & h' & -> & Hok' & Hext & Hkp & Hres).
  destruct res as [offs|e|]; [| |done].
  2: { eexists _, _, _. split; [done|]. split_and!; try done.
       - apply (evolves_trans h idx h idx1); [done|done|done|]. by apply evolves_refl.
       - intros S HS. eapply exact_extends; [done|done|]. by apply Hex. }
  destruct Hres as (Hrecs & _ & _). pose proof (ok_wf _ Hok') as Hwf'.
  destruct (zip_records _ _ _ Hrecs) as (Hzl & Hzin & Hzall).
  assert (∀ x, x ∈ zip fresh offs → ∃ key data, (key, data) ∈ rows ∧ x.1 = row_entry key data ∧ good h' (x.2 + 1) key)
    as Hx.
  { intros x Hx. destruct (proj1 (Forall_forall _ _) Hzall x Hx) as [Hr Hxin].
    destruct (elem_of_fresh_rows _ _ _ _ Hxin) as (key & data & Hrow & He). exists key, data. split_and!; [done|done|].
    rewrite He in Hr. apply (good_appended h' x.2 key data); [done|by apply Hkeys|done]. }
  assert (claims_good h' (zip fresh offs)) as Hcl.
  { apply Forall_forall. intros x Hin'. destruct (Hx x Hin') as (key & data & _ & -> & Hg). done. }
  destruct (claim_all_spec h' (zip fresh offs) Hwf' Hcl t 0 Hp) as (added & t' & -> & Hf & Hu & Ha & Hsub & Hfind).
  eexists _, _, _. split; [done|]. split_and!; try done.
  - apply (evolves_trans h idx h idx1); [done..|]. apply evolves_store; [done..|].
    by apply (fills_trans h h' t t t'); [..|apply fills_refl|].
  - intros S HS. pose proof (Hex S HS) as HS1. pose proof (length_fresh_rows t h rows) as Hlf. fold fresh in Hlf.
    pose proof (ex_counted _ _ _ HS1) as Hcnt. fold t in Hcnt. pose proof (idx_slots _ Hok1) as Hlen. fold t in Hlen.
    pose proof (Nat.div_mod_eq (capacity idx1) 2) as Hdm.
    apply (exact_claimed h h' idx1 S rows (zip fresh offs) added t'); try done; fold t; [lia|lia| | |].
    + apply Hfind; [|lia]. apply (exact_intact h' idx1 S). by apply (exact_extends h).
    + intros x Hin'. destruct (Hx x Hin') as (key & data & Hrow & -> & _). cbn [row_entry fst]. unfold row_keys.
      rewrite elem_of_list_to_set. apply list_elem_of_fmap. by exists (key, data).
    + intros key Hk. unfold row_keys in Hk. rewrite elem_of_list_to_set in Hk.
      apply list_elem_of_fmap in Hk as ([key' data] & -> & Hrow). cbn [fst].
      destruct (probe_finds t h key') eqn:Hpf.
      * left. eapply exact_known; [exact HS1|]. by eapply Hold.
      * right. destruct (Hzin _ (fresh_rows_complete t h rows key' data Hrow Hpf)) as [o Ho]. by eexists.
Qed.

End facts.
End FlatIndexFacts.
