(* ===== verification/FlatCheckpoint.v ===== *)
(** * FlatDB: the checkpoint

    [flatdb/src/checkpoint.rs]: the one record that says what of the heap and the index
    is real, written alternately into the two slots of a file.  The CRC of the
    [crc32fast] crate is a parameter ([Crc]). *)
From S2P Require Import Prelude FlatHeap.
From stdpp Require Import options.
Import FlatHeap.

Local Open Scope Z_scope.

Module FlatCheckpoint.

Class Crc := {
  crc32 : bytes → Z;
  crc32_fits l : fits 32 (crc32 l);
}.

Definition SLOT_SIZE : nat := 4096.
Definition FILE_SIZE : nat := 2 * SLOT_SIZE.
Definition CHECKPOINT_MAGIC : Z := 0x464C4154.
Definition VERSION : Z := 1.
Definition BODY_LENGTH : nat := 48.
Definition RECORD_LENGTH : nat := 56.

Record Checkpoint := mkCheckpoint {
  sequence : Z;
  heap_committed_size : Z;
  index_capacity : Z;
  index_size : Z;
  ckpt_segment_size : Z;
}.

Definition initial : Checkpoint := mkCheckpoint 0 0 0 0 0.

Definition next (c : Checkpoint) (heap_committed_size index_capacity index_size segment_size : Z) : Checkpoint :=
  mkCheckpoint (u64 (sequence c + 1)) heap_committed_size index_capacity index_size segment_size.

Section crc.
Context `{Crc}.

Definition body (c : Checkpoint) : bytes :=
  le_bytes 4 CHECKPOINT_MAGIC ++ le_bytes 4 VERSION ++ le_bytes 8 (sequence c) ++ le_bytes 8 (heap_committed_size c)
  ++ le_bytes 8 (index_capacity c) ++ le_bytes 8 (index_size c) ++ le_bytes 8 (ckpt_segment_size c).

Definition encode (c : Checkpoint) : bytes := body c ++ le_bytes 8 (crc32 (body c)).

Definition u32_at (slot : bytes) (i : nat) : Z := of_le (slice slot i (i + 4)).
Definition u64_at (slot : bytes) (i : nat) : Z := of_le (slice slot i (i + 8)).

Definition decode (slot : bytes) : option Checkpoint :=
  if (length slot <? RECORD_LENGTH)%nat then None
  else if negb (u32_at slot 0 =? CHECKPOINT_MAGIC) || negb (u32_at slot 4 =? VERSION) then None
  else if negb (u64_at slot 48 =? crc32 (slice slot 0 BODY_LENGTH)) then None
  else Some (mkCheckpoint (u64_at slot 8) (u64_at slot 16) (u64_at slot 24) (u64_at slot 32) (u64_at slot 40)).

(** The file, created or extended to its size, before a write. *)
Definition prepared (file : option bytes) : bytes :=
  let f := default [] file in f ++ replicate (FILE_SIZE - length f) 0.

Definition slot_offset (sequence : Z) : nat := (Z.to_nat (Z.land sequence 1) * SLOT_SIZE)%nat.

Definition write (c : Checkpoint) (file : option bytes) : bytes :=
  write_at (prepared file) (slot_offset (sequence c)) (encode c).

(** One round of the loop of [read]. *)
Definition better (file : bytes) (best : option Checkpoint) (i : nat) : option Checkpoint :=
  let from := (i * SLOT_SIZE)%nat in
  if (length file <? from + RECORD_LENGTH)%nat then best
  else
    match decode (slice file from (from + RECORD_LENGTH)) with
    | None => best
    | Some candidate =>
        match best with
        | None => Some candidate
        | Some b => if sequence b <? sequence candidate then Some candidate else best
        end
    end.

Definition read (file : option bytes) : Checkpoint :=
  match file with
  | None => initial
  | Some f => default initial (better f (better f None 0) 1)
  end.

(** ** The record *)

Definition checkpoint_ok (c : Checkpoint) : Prop :=
  fits 64 (sequence c) ∧ fits 64 (heap_committed_size c) ∧ fits 64 (index_capacity c) ∧ fits 64 (index_size c)
  ∧ fits 64 (ckpt_segment_size c).

Lemma length_body c : length (body c) = BODY_LENGTH.
Proof. unfold body. by rewrite !length_app, !length_le_bytes. Qed.

Lemma length_encode_checkpoint c : length (encode c) = RECORD_LENGTH.
Proof. unfold encode. by rewrite length_app, length_body, length_le_bytes. Qed.

Lemma decode_encode_checkpoint c : checkpoint_ok c → decode (encode c) = Some c.
Proof.
  intros (H1 & H2 & H3 & H4 & H5). unfold decode. rewrite length_encode_checkpoint. cbn [Nat.ltb].
  change (u32_at (encode c) 0) with CHECKPOINT_MAGIC. change (u32_at (encode c) 4) with VERSION.
  change (slice (encode c) 0 BODY_LENGTH) with (body c).
  change (u64_at (encode c) 48) with (of_le (le_bytes 8 (crc32 (body c)))).
  change (u64_at (encode c) 8) with (of_le (le_bytes 8 (sequence c))).
  change (u64_at (encode c) 16) with (of_le (le_bytes 8 (heap_committed_size c))).
  change (u64_at (encode c) 24) with (of_le (le_bytes 8 (index_capacity c))).
  change (u64_at (encode c) 32) with (of_le (le_bytes 8 (index_size c))).
  change (u64_at (encode c) 40) with (of_le (le_bytes 8 (ckpt_segment_size c))).
  assert (fits 64 (crc32 (body c))) as Hc by (eapply fits_weaken; [|apply crc32_fits]; lia).
  rewrite !of_le_le_bytes by done. rewrite !Z.eqb_refl. by destruct c.
Qed.

(** ** The file *)

Lemma length_prepared file : (FILE_SIZE ≤ length (prepared file))%nat.
Proof. unfold prepared. rewrite length_app, length_replicate. lia. Qed.

Lemma slot_offset_cases s : slot_offset s = 0%nat ∨ slot_offset s = SLOT_SIZE.
Proof.
  unfold slot_offset. change 1 with (Z.ones 1). rewrite Z.land_ones by lia.
  pose proof (Z.mod_pos_bound s (2 ^ 1) ltac:(lia)) as Hb. change (2 ^ 1) with 2 in *.
  assert (s mod 2 = 0 ∨ s mod 2 = 1) as [-> | ->] by lia; [by left|right]. simpl. lia.
Qed.

Lemma slot_offset_next s : slot_offset (s + 1) ≠ slot_offset s.
Proof.
  unfold slot_offset, SLOT_SIZE. change 1 with (Z.ones 1) at 2 3. rewrite !Z.land_ones by lia. change (2 ^ 1) with 2.
  pose proof (Z.mod_pos_bound s 2). pose proof (Z.mod_pos_bound (s + 1) 2).
  assert (s mod 2 = 0 ∧ (s + 1) mod 2 = 1 ∨ s mod 2 = 1 ∧ (s + 1) mod 2 = 0) as [[-> ->]|[-> ->]]; [|simpl; lia..].
  pose proof (Z.div_mod s 2 ltac:(lia)). pose proof (Z.div_mod (s + 1) 2 ltac:(lia)). lia.
Qed.

(** The record in the slot at [from]. *)
Definition slot_record (file : bytes) (from : nat) : option Checkpoint :=
  decode (slice file from (from + RECORD_LENGTH)).

Lemma slot_record_eq f from : decode (slice f from (from + RECORD_LENGTH)) = slot_record f from.
Proof. done. Qed.

Lemma read_slots f c from : (FILE_SIZE ≤ length f)%nat → from = 0%nat ∨ from = SLOT_SIZE →
  slot_record f from = Some c →
  (∀ from' c', (from' = 0%nat ∨ from' = SLOT_SIZE) → from' ≠ from → slot_record f from' = Some c' →
    sequence c' < sequence c) → read (Some f) = c.
Proof.
  intros Hf Hfrom Hc Hother. unfold read, better.
  destruct (Nat.ltb_spec (length f) (0 * SLOT_SIZE + RECORD_LENGTH)); [unfold FILE_SIZE, SLOT_SIZE, RECORD_LENGTH in *; lia|].
  destruct (Nat.ltb_spec (length f) (1 * SLOT_SIZE + RECORD_LENGTH)); [unfold FILE_SIZE, SLOT_SIZE, RECORD_LENGTH in *; lia|].
  rewrite Nat.mul_0_l, Nat.mul_1_l. rewrite !slot_record_eq.
  destruct Hfrom as [-> | ->]; rewrite Hc.
  - destruct (slot_record f SLOT_SIZE) as [c'|] eqn:Hc'; [|done].
    specialize (Hother SLOT_SIZE c' (or_intror eq_refl) ltac:(done) Hc'). by destruct (Z.ltb_spec (sequence c) (sequence c')); [lia|].
  - destruct (slot_record f 0) as [c'|] eqn:Hc'; [|done].
    specialize (Hother 0%nat c' (or_introl eq_refl) ltac:(done) Hc'). by destruct (Z.ltb_spec (sequence c') (sequence c)); [|lia].
Qed.

(** Writing fifty-six bytes at one slot leaves the other's alone. *)
Lemma slot_record_other f x from from' : (FILE_SIZE ≤ length f)%nat → length x = RECORD_LENGTH →
  (from = 0%nat ∨ from = SLOT_SIZE) → (from' = 0%nat ∨ from' = SLOT_SIZE) → from' ≠ from →
  slot_record (write_at f from x) from' = slot_record f from'.
Proof.
  intros Hf Hx Hfr Hfr' Hne. unfold slot_record. f_equal.
  assert (from + length x ≤ length f)%nat as Hin by (rewrite Hx; unfold FILE_SIZE, SLOT_SIZE, RECORD_LENGTH in *; lia).
  apply list_eq. intros i. unfold slice. destruct (decide (i < from' + RECORD_LENGTH - from')%nat) as [Hlt|Hge].
  - rewrite !lookup_take_lt, !lookup_drop by done. apply lookup_write_at; [done|].
    rewrite Hx. unfold SLOT_SIZE, RECORD_LENGTH in *. lia.
  - rewrite !lookup_take_ge by lia. done.
Qed.

Lemma slot_record_written f c : (FILE_SIZE ≤ length f)%nat → checkpoint_ok c →
  slot_record (write_at f (slot_offset (sequence c)) (encode c)) (slot_offset (sequence c)) = Some c.
Proof.
  intros Hf Hok. unfold slot_record. rewrite <- (length_encode_checkpoint c), slice_write_at; [by apply decode_encode_checkpoint|].
  destruct (slot_offset_cases (sequence c)) as [-> | ->]; unfold FILE_SIZE, SLOT_SIZE in *; lia.
Qed.

(** The file says [c]: it is in its slot, and the other slot is older or unreadable. *)
Definition holds (f : bytes) (c : Checkpoint) : Prop :=
  (FILE_SIZE ≤ length f)%nat ∧ slot_record f (slot_offset (sequence c)) = Some c
  ∧ ∀ from c', (from = 0%nat ∨ from = SLOT_SIZE) → from ≠ slot_offset (sequence c) → slot_record f from = Some c' →
      sequence c' < sequence c.

Lemma holds_read f c : holds f c → read (Some f) = c.
Proof. intros (Hf & Hc & Ho). eapply read_slots; [done|apply slot_offset_cases|done|done]. Qed.

Lemma other_slot a b from : (from = 0%nat ∨ from = SLOT_SIZE) → slot_offset a ≠ slot_offset b →
  from ≠ slot_offset a → from = slot_offset b.
Proof.
  intros Hf Hab Ha. destruct (slot_offset_cases a) as [Hsa|Hsa], (slot_offset_cases b) as [Hsb|Hsb]; intuition congruence.
Qed.

(** Writing the checkpoint after [c]: once it is down the file says the new one, and at
    any moment before that, with the slot torn, it says [c]. *)
Lemma holds_write f c c' : holds f c → checkpoint_ok c' → sequence c' = sequence c + 1 → holds (write c' (Some f)) c'.
Proof.
  intros (Hf & Hc & Ho) Hok Hseq. unfold write, prepared. cbn [default from_option id].
  replace (FILE_SIZE - length f)%nat with 0%nat by lia. rewrite app_nil_r.
  assert (slot_offset (sequence c') ≠ slot_offset (sequence c)) as Hne by (rewrite Hseq; apply slot_offset_next).
  assert (slot_offset (sequence c') + length (encode c') ≤ length f)%nat as Hin.
  { rewrite length_encode_checkpoint. unfold FILE_SIZE, RECORD_LENGTH in *.
    destruct (slot_offset_cases (sequence c')) as [-> | ->]; unfold SLOT_SIZE in *; lia. }
  split_and!.
  - by rewrite length_write_at.
  - by apply slot_record_written.
  - intros from c1 Hfrom Hfne Hc1. rewrite slot_record_other in Hc1 by (done || apply length_encode_checkpoint || apply slot_offset_cases).
    rewrite (other_slot _ _ _ Hfrom Hne Hfne), Hc in Hc1. injection Hc1 as <-. lia.
Qed.

Lemma holds_torn f c x s : holds f c → length x = RECORD_LENGTH → decode x = None → s = sequence c + 1 →
  holds (write_at f (slot_offset s) x) c.
Proof.
  intros (Hf & Hc & Ho) Hx Hd ->. pose proof (slot_offset_next (sequence c)) as Hne.
  assert (slot_offset (sequence c + 1) + length x ≤ length f)%nat as Hin.
  { rewrite Hx. unfold FILE_SIZE, RECORD_LENGTH in *.
    destruct (slot_offset_cases (sequence c + 1)) as [-> | ->]; unfold SLOT_SIZE in *; lia. }
  split_and!.
  - by rewrite length_write_at.
  - rewrite slot_record_other by (done || apply slot_offset_cases). done.
  - intros from c1 Hfrom Hfne. assert (slot_offset (sequence c) ≠ slot_offset (sequence c + 1)) as Hne' by done.
    rewrite (other_slot _ _ _ Hfrom Hne' Hfne). unfold slot_record. rewrite <- Hx, slice_write_at by lia. by rewrite Hd.
Qed.

(** The same for a file that may not exist yet, or hold no checkpoint. *)
Definition says (file : option bytes) (c : Checkpoint) : Prop :=
  match file with
  | None => c = initial
  | Some f => holds f c
              ∨ (c = initial ∧ (FILE_SIZE ≤ length f)%nat ∧ slot_record f 0 = None ∧ slot_record f SLOT_SIZE = None)
  end.

Lemma better_none f best i : slot_record f (i * SLOT_SIZE) = None → better f best i = best.
Proof. unfold better, slot_record. intros ->. by case_match. Qed.

Lemma says_read file c : says file c → read file = c.
Proof.
  destruct file as [f|]; cbn [says]; [|by intros ->]. intros [Hh|(-> & Hf & H0 & H1)]; [by apply holds_read|].
  unfold read. rewrite !better_none; [done|..].
  - by rewrite Nat.mul_0_l.
  - by rewrite Nat.mul_1_l.
Qed.

(** Files without a readable slot: the one a first write creates. *)
Lemma blank_prepared : slot_record (prepared None) 0 = None ∧ slot_record (prepared None) SLOT_SIZE = None.
Proof. split; reflexivity. Qed.

Lemma prepared_id f : (FILE_SIZE ≤ length f)%nat → prepared (Some f) = f.
Proof. intros Hf. unfold prepared. cbn [default from_option id]. replace (FILE_SIZE - length f)%nat with 0%nat by lia. apply app_nil_r. Qed.

Lemma says_cases file c : says file c →
  (∃ f, file = Some f ∧ holds f c)
  ∨ (c = initial ∧ slot_record (prepared file) 0 = None ∧ slot_record (prepared file) SLOT_SIZE = None).
Proof.
  destruct file as [f|]; cbn [says].
  - intros [Hh|(-> & Hf & ?)]; [left; by exists f|right]. by rewrite prepared_id.
  - intros ->. right. split; [done|]. apply blank_prepared.
Qed.

Lemma says_write file c c' : says file c → checkpoint_ok c' → sequence c' = sequence c + 1 →
  says (Some (write c' file)) c'.
Proof.
  intros [(f & -> & Hh)|(-> & H0 & H1)]%says_cases Hok Hseq; left; [by eapply holds_write|].
  pose proof (length_prepared file) as Hlen. unfold write.
  assert (slot_offset (sequence c') + length (encode c') ≤ length (prepared file))%nat as Hin.
  { rewrite length_encode_checkpoint. unfold FILE_SIZE, RECORD_LENGTH in *.
    destruct (slot_offset_cases (sequence c')) as [-> | ->]; unfold SLOT_SIZE in *; lia. }
  split_and!.
  - by rewrite length_write_at.
  - by apply slot_record_written.
  - intros from c1 Hfrom Hfne Hc1. rewrite slot_record_other in Hc1 by (done || apply length_encode_checkpoint || apply slot_offset_cases).
    destruct Hfrom as [-> | ->]; congruence.
Qed.

Lemma says_torn file c x s : says file c → length x = RECORD_LENGTH → decode x = None → s = sequence c + 1 →
  says (Some (write_at (prepared file) (slot_offset s) x)) c.
Proof.
  intros [(f & -> & Hh)|(-> & H0 & H1)]%says_cases Hx Hd Hs.
  - left. rewrite prepared_id by apply Hh. by apply holds_torn.
  - right. pose proof (length_prepared file) as Hlen.
    assert (slot_offset s + length x ≤ length (prepared file))%nat as Hin.
    { rewrite Hx. unfold FILE_SIZE, RECORD_LENGTH in *.
      destruct (slot_offset_cases s) as [-> | ->]; unfold SLOT_SIZE in *; lia. }
    assert (∀ from, from = 0%nat ∨ from = SLOT_SIZE → slot_record (write_at (prepared file) (slot_offset s) x) from = None) as Hnone.
    { intros from Hfrom. destruct (decide (from = slot_offset s)) as [->|Hne].
      - unfold slot_record. by rewrite <- Hx, slice_write_at by lia.
      - rewrite slot_record_other by (done || apply slot_offset_cases). by destruct Hfrom as [-> | ->]. }
    split_and!; [done|by rewrite length_write_at|apply Hnone; by left|apply Hnone; by right].
Qed.

End crc.
End FlatCheckpoint.
