(* ===== verification/FlatDb.v ===== *)
(** * FlatDB: the database

    [flatdb/src/lib.rs]: the heap, the index and the checkpoint as one store, and what
    it promises.  [FlatDb] is the state of an open database together with the files it
    maps; a crash ([crash]) keeps what the device holds and an arbitrary part of what
    was written since.  A flush is the composition of its steps ([flush_force],
    [flush_save], [flush_write], [flush_clean]), so that a crash can fall between them
    and another thread's steps can be interleaved with them.  Writing back pages and the
    checkpoint does not fail here: a failure would leave one of the states between the
    steps.  The statistics counters and the directory lock are left out. *)
From S2P Require Import Prelude FlatHeap FlatIndex FlatIndexFacts FlatCheckpoint.
From stdpp Require Import strings gmap.
From stdpp Require Import options.
Import FlatHeap FlatIndex FlatIndexFacts FlatCheckpoint.

Local Open Scope nat_scope.

Module FlatDb.

(** [KeccakKeys]. *)
#[global] Instance KeccakKeys `{Keccak} : Keys := {|
  compute_key := keccak;
  key_hash key := u32 (of_be (drop (length key - 4) key));
  key_length := 32;
|}.

#[global] Instance keccak_keys_laws `{Keccak} : KeysLaws.
Proof.
  split; cbn [compute_key key_hash key_length].
  - intros d. apply length_keccak.
  - intros k. apply (wrap_fits 32). lia.
Qed.

Record Options := mkOptions {
  expected_keys : Z;
  opt_read_only : bool;
  opt_sync_writes : bool;
  opt_verify_long_records : bool;
  opt_segment_size : nat;
}.

Definition default_options : Options := mkOptions 16000000 false false true (Z.to_nat DEFAULT_SEGMENT_SIZE).

Record FlatDb := mkDb {
  heap : Heap;
  index : Index;
  committed_heap_size : nat;
  checkpoint : Checkpoint;
  ckpt_file : option bytes;
  read_only : bool;
  sync_writes : bool;
}.

(** The files of a database that is not open. *)
Record Disk := mkDisk {
  disk_heap : bytes;
  disk_index : gmap nat (list nat);
  disk_ckpt : option bytes;
}.

Definition empty_disk : Disk := mkDisk [] ∅ None.

Definition with_heap (db : FlatDb) (h : Heap) : FlatDb :=
  mkDb h (index db) (committed_heap_size db) (checkpoint db) (ckpt_file db) (read_only db) (sync_writes db).
Definition with_index (db : FlatDb) (idx : Index) : FlatDb :=
  mkDb (heap db) idx (committed_heap_size db) (checkpoint db) (ckpt_file db) (read_only db) (sync_writes db).
Definition with_both (db : FlatDb) (h : Heap) (idx : Index) : FlatDb := with_index (with_heap db h) idx.
Definition with_committed (db : FlatDb) (n : nat) : FlatDb :=
  mkDb (heap db) (index db) n (checkpoint db) (ckpt_file db) (read_only db) (sync_writes db).

Section db.
Context `{Keccak} `{Crc} `{Host}.

Definition open_db (d : Disk) (options : Options) : io FlatDb :=
  let checkpoint := read (disk_ckpt d) in
  if negb (ckpt_segment_size checkpoint =? 0)%Z
     && negb (ckpt_segment_size checkpoint =? Z.of_nat (opt_segment_size options))%Z
  then Fails "written with another segment size"
  else
    match open_heap (disk_heap d) (Z.to_nat (heap_committed_size checkpoint)) (opt_segment_size options) with
    | Fails e => Fails e
    | Hangs => Hangs
    | Done h =>
        match open_index ((λ t, mkTable t t) <$> disk_index d) (opt_read_only options)
                (Z.to_nat (index_capacity checkpoint)) (Z.to_nat (index_size checkpoint)) (expected_keys options)
                (opt_verify_long_records options) with
        | Err e => Fails e
        | Ok idx =>
            Done (mkDb h (remove_stale_files idx) (Z.to_nat (heap_committed_size checkpoint)) checkpoint (disk_ckpt d)
                    (opt_read_only options) (opt_sync_writes options))
        end
    end.

Definition db_get (db : FlatDb) (key : bytes) : io (option bytes) := FlatIndex.get (index db) (heap db) key.

(** ** Flushing *)

Definition flush_force (db : FlatDb) : FlatDb := with_heap db (force (heap db)).
Definition flush_save (db : FlatDb) : FlatDb := with_index db (save (index db)).

(** The checkpoint of the watermarks read at the start of the flush, written and adopted. *)
Definition flush_write (heap_size capacity size : nat) (db : FlatDb) : FlatDb :=
  let c := next (checkpoint db) (Z.of_nat heap_size) (Z.of_nat capacity) (Z.of_nat size)
             (Z.of_nat (segment_size (heap db))) in
  mkDb (heap db) (index db) (committed_heap_size db) c (Some (write c (ckpt_file db))) (read_only db) (sync_writes db).

Definition flush_clean (db : FlatDb) : FlatDb := with_index db (remove_stale_files (index db)).

(** Is there nothing to make durable? *)
Definition flush_unneeded (db : FlatDb) : bool :=
  (Z.of_nat (committed_heap_size db) =? heap_committed_size (checkpoint db))%Z && negb (modified (index db)).

Definition flush (db : FlatDb) : FlatDb :=
  if read_only db then db
  else
    let heap_size := committed_heap_size db in
    let cap := capacity (index db) in
    let size := entries (index db) in
    if flush_unneeded db then db
    else flush_clean (flush_write heap_size cap size (flush_save (flush_force db))).

(** ** Writing *)

Definition put_unsynced (db : FlatDb) (key value : bytes) : io unit * FlatDb :=
  if read_only db then (Fails "database opened read-only", db)
  else
    match FlatIndex.put (index db) (heap db) key value with
    | (Done _, idx, h) => (Done tt, with_committed (with_both db h idx) (size h))
    | (Fails e, idx, h) => (Fails e, with_both db h idx)
    | (Hangs, idx, h) => (Hangs, with_both db h idx)
    end.

Definition batch_unsynced (db : FlatDb) (rows : list (bytes * bytes)) : io unit * FlatDb :=
  if read_only db then (Fails "database opened read-only", db)
  else
    match put_many (index db) (heap db) rows with
    | (Done _, idx, h) => (Done tt, with_committed (with_both db h idx) (Nat.max (committed_heap_size db) (size h)))
    | (Fails e, idx, h) => (Fails e, with_both db h idx)
    | (Hangs, idx, h) => (Hangs, with_both db h idx)
    end.

Definition then_sync (r : io unit * FlatDb) : io unit * FlatDb :=
  match r with
  | (Done u, db) => (Done u, if sync_writes db then flush db else db)
  | _ => r
  end.

Definition db_put (db : FlatDb) (key value : bytes) : io unit * FlatDb := then_sync (put_unsynced db key value).
Definition update_batch (db : FlatDb) (rows : list (bytes * bytes)) : io unit * FlatDb :=
  then_sync (batch_unsynced db rows).

(** ** Enumerating *)

Definition db_keys (db : FlatDb) : gset bytes := list_to_set (for_each_key (index db) (heap db)).

Definition visited (r : HeapRecord) : bytes * bytes := (key_of r, rec_data r).

Definition for_each_record (db : FlatDb) : option (list (bytes * bytes)) :=
  (λ rs : list HeapRecord, visited <$> rs) <$> scan (heap db) key_length.

(** [slice::chunks]. *)
Fixpoint chunks {A} (fuel n : nat) (l : list A) : list (list A) :=
  match fuel, l with
  | S fuel', _ :: _ => take n l :: chunks fuel' n (drop n l)
  | _, _ => []
  end.

(** Each thread fills the chunk of the output that stands beside its chunk of the keys. *)
Definition get_many_on (db : FlatDb) (keys : list bytes) (threads : nat) : list (io (option bytes)) :=
  let threads := Nat.max threads 1 in
  if (threads =? 1) || (length keys <? threads * 2) then db_get db <$> keys
  else
    let out : list (io (option bytes)) := replicate (length keys) (Done None) in
    let chunk := div_ceil (length keys) threads in
    concat (zip_with (zip_with (λ key _, db_get db key)) (chunks (length keys) chunk keys)
              (chunks (length out) chunk out)).

Lemma zip_with_fst {A B C} (f : A → C) (l : list A) (out : list B) :
  length l = length out → zip_with (λ a _, f a) l out = f <$> l.
Proof. revert out. induction l as [|a l IH]; intros [|b out] [=]; [done|]. cbn. by rewrite IH. Qed.

Lemma chunks_fill {A B C} (f : A → C) n : 0 < n → ∀ fuel fuel' (l : list A) (out : list B),
  length l = length out → length l ≤ fuel → length l ≤ fuel' →
  concat (zip_with (zip_with (λ a _, f a)) (chunks fuel n l) (chunks fuel' n out)) = f <$> l.
Proof.
  intros Hn. induction fuel as [|fuel IH]; intros fuel' l out Hlo Hf Hf'.
  - destruct l; [done|simpl in Hf; lia].
  - destruct l as [|a l]; destruct out as [|b out]; try done. destruct fuel' as [|fuel']; [simpl in Hf'; lia|].
    cbn [chunks zip_with concat]. rewrite (IH fuel').
    + rewrite <- (take_drop n (a :: l)) at 3. rewrite fmap_app. f_equal.
      apply zip_with_fst. by rewrite !length_take, Hlo.
    + rewrite !length_drop. by rewrite Hlo.
    + rewrite length_drop. simpl in *. lia.
    + rewrite length_drop. simpl in *. lia.
Qed.

(** Fanning the reads out gives what reading one key after the other gives. *)
Lemma get_many_on_gets db keys threads : get_many_on db keys threads = db_get db <$> keys.
Proof using Type.
  unfold get_many_on. set (n := Nat.max threads 1). destruct (_ || _) eqn:Hc; [done|].
  apply orb_false_iff in Hc as [Hn%Nat.eqb_neq Hl%Nat.ltb_ge].
  apply chunks_fill; rewrite ?length_replicate; try done.
  unfold div_ceil. apply Nat.div_str_pos. lia.
Qed.

Definition get_many (db : FlatDb) (keys : list bytes) : list (io (option bytes)) := get_many_on db keys 1.

Definition size_bytes (db : FlatDb) : nat := size (heap db).
Definition disk_bytes (db : FlatDb) : Z := (Z.of_nat (size (heap db)) + Z.of_nat (capacity (index db)) * FlatIndex.SLOT_SIZE)%Z.

(** ** Crashes *)

(** Slots are eight aligned bytes, which a device writes whole: each survives as the
    mapping had it or as the device did. *)
Definition mixes (T : Table) (t : list nat) : Prop :=
  length t = length (slots T) ∧ ∀ i, slot_at t i = slot_at (slots T) i ∨ slot_at t i = slot_at (synced T) i.

(** What may be on the disk after a crash: the bytes the device held, anything where
    the mapping differed. *)
Record crash (db : FlatDb) (d : Disk) : Prop := {
  crash_length : length (disk_heap d) = length (mem (heap db));
  crash_heap : ∀ o, mem (heap db) !! o = durable (heap db) !! o → disk_heap d !! o = mem (heap db) !! o;
  crash_index : ∀ c T, tables (index db) !! c = Some T → ∃ t, disk_index d !! c = Some t ∧ mixes T t;
  crash_ckpt : disk_ckpt d = ckpt_file db;
}.

(** The disk when everything written had reached it. *)
Definition persisted (db : FlatDb) : Disk := mkDisk (mem (heap db)) (slots <$> tables (index db)) (ckpt_file db).

(** The disk when nothing but what was synced had. *)
Definition unwritten (db : FlatDb) : Disk := mkDisk (durable (heap db)) (synced <$> tables (index db)) (ckpt_file db).

Lemma crash_persisted db : crash db (persisted db).
Proof using Type.
  constructor; try done. intros c T HT. exists (slots T). cbn [persisted disk_index]. rewrite lookup_fmap, HT.
  split; [done|]. split; [done|]. by left.
Qed.

End db.

(** ** Evaluating *)

(** A checksum of 32 bits, for evaluating the model on concrete inputs. *)
Program Definition sum_crc : Crc := {| crc32 l := u32 (foldl (λ acc b, acc * 31 + b)%Z 0%Z l) |}.
Next Obligation. intros. apply wrap_fits. lia. Qed.

(** Sixteen slots and segments of 64 bytes. *)
Definition small_options : Options := mkOptions 8 false false true 64.

Definition closed_db : FlatDb :=
  mkDb (mkHeap [] [] 0 0 0 0 None) (mkIndex ∅ 0 0 false false true) 0 initial None true false.

Definition result_of (r : io FlatDb) : FlatDb := match r with Done db => db | _ => closed_db end.

End FlatDb.
