(* ===== verification/FlatSafety.v ===== *)
(** * FlatDB: refinement and crash safety

    The database refines a set of keys: after any sequence of writes and flushes a key
    reads as a value that hashes to it if it was written, and as absent otherwise, and no
    call runs forever.  Every key a flush has covered survives a crash at any moment,
    also one that falls into a later flush. *)
From S2P Require Import Prelude FlatHeap FlatIndex FlatIndexFacts FlatCheckpoint FlatDb.
From stdpp Require Import strings gmap.
From stdpp Require Import options.
Import FlatHeap FlatIndex FlatIndexFacts FlatCheckpoint FlatDb.

Local Open Scope nat_scope.

Module FlatSafety.

Section safety.
Context `{Keccak} `{Crc} `{Host}.

(** ** Keys that survive *)

(** The chain of [key] reaches a record of it in the table as mapped, as synced, and in
    any mixture of the two. *)
Definition secure (h : Heap) (T : Table) (key : bytes) : Prop :=
  ∃ j, j < length (slots T) ∧ good h (slot_at (slots T) (chain (slots T) key j)) key
    ∧ slot_at (synced T) (chain (slots T) key j) = slot_at (slots T) (chain (slots T) key j)
    ∧ taken (slots T) key j ∧ taken (synced T) key j.

Lemma chain_same (t t' : list nat) key j : length t' = length t → chain t' key j = chain t key j.
Proof using Type. unfold chain. by intros ->. Qed.

Lemma secure_fills h h0 T T' key : heap_wf h0 → extends h0 h → length (synced T) = length (slots T) →
  synced T' = synced T → fills h (slots T) (slots T') → secure h0 T key → secure h0 T' key.
Proof using Type.
  intros Hwf He Hl Hs Hf (j & Hj & Hg & Hsy & Ht & Hts). pose proof (proj1 Hf) as Hlen.
  assert (slot_at (slots T') (chain (slots T) key j) = slot_at (slots T) (chain (slots T) key j)) as Heq.
  { eapply fills_good; [exact Hf|]. by eapply good_extends. }
  exists j. rewrite (chain_same (slots T) (slots T')), Heq, Hs, Hlen by done.
  split_and!; [done|done|done|by eapply fills_taken|done].
Qed.

Lemma secure_mix h T t key : length (synced T) = length (slots T) → mixes T t → secure h T key → findable h t key.
Proof using Type.
  intros Hl [Hlen Hmix] (j & Hj & Hg & Hsy & Ht & Hts). exists j. rewrite Hlen. split_and!; [done| |].
  - rewrite (chain_same (slots T) t) by done. destruct (Hmix (chain (slots T) key j)) as [->|Hm]; [done|].
    by rewrite Hm, Hsy.
  - intros j' Hj'. rewrite (chain_same (slots T) t) by done.
    destruct (Hmix (chain (slots T) key j')) as [->|Hm]; [by apply Ht|].
    rewrite Hm. rewrite <- (chain_same (slots T) (synced T)) by done. by apply Hts.
Qed.

Lemma secure_synced h t key : findable h t key → secure h (mkTable t t) key.
Proof using Type. intros (j & Hj & Hg & Ht). exists j. by split_and!. Qed.

Lemma secure_saved h T key : length (synced T) = length (slots T) → secure h T key →
  secure h (mkTable (slots T) (slots T)) key.
Proof using Type. intros Hl (j & Hj & Hg & Hsy & Ht & Hts). exists j. by split_and!. Qed.

(** A crash now would leave the keys of [S] readable: they are below the frontier of the
    checkpoint the file says, on the device, and secure in the table it names. *)
Record covers (db : FlatDb) (c : Checkpoint) (S : gset bytes) : Prop := {
  cov_wf : heap_wf (heap db);
  cov_says : says (ckpt_file db) c;
  cov_ok : checkpoint_ok c;
  cov_frontier : Z.to_nat (heap_committed_size c) ≤ size (heap db);
  cov_limit : (heap_committed_size c ≤ MAX_SIZE)%Z;
  cov_durable : ∀ o, o < Z.to_nat (heap_committed_size c) → mem (heap db) !! o = durable (heap db) !! o;
  cov_segment : ckpt_segment_size c = 0%Z ∨ ckpt_segment_size c = Z.of_nat (segment_size (heap db));
  cov_table : (index_capacity c = 0%Z ∧ S = ∅)
    ∨ (pow2 (Z.to_nat (index_capacity c)) ∧ ∃ T, tables (index db) !! Z.to_nat (index_capacity c) = Some T
        ∧ length (slots T) = Z.to_nat (index_capacity c) ∧ length (synced T) = length (slots T)
        ∧ ∀ key, key ∈ S → secure (view (heap db) (Z.to_nat (heap_committed_size c))) T key);
}.

(** ** Reopening *)

Lemma get_finds h idx key : pow2 (length (slots (live idx))) → verify_long_records idx = true → capacity idx ≠ 0 →
  finds h idx key → ∃ v, FlatIndex.get idx h key = Done (Some v) ∧ keccak v = key.
Proof using Type.
  intros Hp Hv Hc Hf. unfold FlatIndex.get. rewrite (proj2 (Nat.eqb_neq _ _) Hc), Hv.
  destruct (get_loop_findable h (slots (live idx)) key true Hp Hf) as [v Hg]. exists v. split; [done|].
  by apply get_loop_sound in Hg.
Qed.

Lemma live_removed idx : live (remove_stale_files idx) = live idx.
Proof using Type.
  unfold remove_stale_files. case_match; [done|]. unfold live at 1. cbn [tables capacity]. by rewrite lookup_singleton_eq.
Qed.

Lemma capacity_removed idx : capacity (remove_stale_files idx) = capacity idx.
Proof using Type. unfold remove_stale_files. by case_match. Qed.

Lemma verify_removed idx : verify_long_records (remove_stale_files idx) = verify_long_records idx.
Proof using Type. unfold remove_stale_files. by case_match. Qed.

(** Reopening after a crash finds every covered key. *)
Lemma covers_reopen db c S d options db' : covers db c S → crash db d →
  opt_segment_size options = segment_size (heap db) → opt_verify_long_records options = true →
  open_db d options = Done db' →
  ∀ key, key ∈ S → ∃ v, db_get db' key = Done (Some v) ∧ keccak v = key.
Proof using Type.
  intros [Hwf Hsays Hcok Hfr Hlim Hdur Hseg Htab] [Hlen Hheap Hidx Hck] Hss Hver Hopen key Hkey.
  unfold open_db in Hopen. rewrite Hck, (says_read _ _ Hsays) in Hopen.
  destruct (_ && _); [done|]. set (hs := Z.to_nat (heap_committed_size c)) in *.
  destruct (open_heap (disk_heap d) hs (opt_segment_size options)) as [h'| |] eqn:Hoh; [|done..].
  apply open_heap_spec in Hoh as (Hok' & Hsz' & Hss' & Hpre' & _ & Hseg');
    [|rewrite Hss; apply (ok_header _ Hwf)|destruct Hcok as (_ & Hf & _); unfold fits in Hf; lia].
  destruct Htab as [[_ ->]|(Hp & T & HT & Hsl & Hsy & Hsec)]; [by apply not_elem_of_empty in Hkey|].
  destruct (Hidx _ _ HT) as (t & Ht & Hmix). unfold open_index in Hopen.
  assert (0 < Z.to_nat (index_capacity c)) as Hpos by (by apply pow2_positive).
  rewrite (proj2 (Nat.ltb_lt _ _) Hpos) in Hopen. unfold map_table in Hopen.
  destruct (table_error _); [done|]. rewrite lookup_fmap, Ht in Hopen. cbn [fmap option_fmap option_map default from_option id
    result_bind] in Hopen. injection Hopen as <-. unfold db_get. cbn [index heap].
  set (idx := mkIndex _ _ _ _ _ _).
  assert (live idx = mkTable t t) as Hlive by (unfold live, idx; cbn [tables capacity]; by rewrite lookup_insert_eq).
  apply get_finds; rewrite ?live_removed, ?verify_removed, ?capacity_removed, ?Hlive; cbn [slots].
  - destruct Hmix as [-> _]. by rewrite Hsl.
  - done.
  - unfold idx. cbn [capacity]. lia.
  - unfold finds. rewrite live_removed, Hlive. cbn [slots].
    apply (findable_extends (view (heap db) hs)).
    + by apply view_wf.
    + constructor; cbn [view segment_size size segments mem]; [congruence|lia| |].
      * etrans; [apply Nat.le_min_r|]. apply div_ceil_le; [apply (ok_segment _ Hwf)|]. by rewrite <- Hss.
      * etrans; [|exact Hpre']. exists (drop hs (disk_heap d)). rewrite <- (take_drop hs (disk_heap d)) at 1. f_equal.
        apply list_eq. intros o. destruct (decide (o < hs)) as [Hlt|Hge].
        -- rewrite !lookup_take_lt by done. apply Hheap. by apply Hdur.
        -- by rewrite !lookup_take_ge by lia.
    + eapply secure_mix; [done|done|]. by apply Hsec.
Qed.

(** ** Writing *)

Lemma good_view h s key n : heap_wf h → good h s key →
  (∀ r, with_record h (s - 1) key_length = Some r → s - 1 + rec_total r ≤ n) → good (view h n) s key.
Proof using Type.
  intros Hwf (Hs & r & Hr & Hk) Hn. split; [done|]. exists r. split; [|done].
  apply with_record_view; [apply (ok_segment _ Hwf)|done|by apply Hn].
Qed.

Lemma exact_view h idx S : heap_wf h → exact h idx S → exact (view h (size h)) idx S.
Proof using Type.
  intros Hwf [Hc Hh H2' Hs Hf].
  assert (∀ s key, good h s key → good (view h (size h)) s key) as Hg.
  { intros s key Hg. apply good_view; [done|done|]. intros r Hr.
    by apply (with_record_range _ _ _ _ (ok_segment _ Hwf)) in Hr as (_ & _ & ? & _). }
  constructor; try done.
  - intros s Hin Hne. destruct (Hs s Hin Hne) as (key & ? & ?). exists key. split; [done|by apply Hg].
  - intros key (j & Hj & Hgd & Ht)%Hf. exists j. split_and!; [done|by apply Hg|done].
Qed.

(** An exact index whose slots all read below [n] is exact in that view. *)
Lemma exact_restrict h hv idx S : heap_wf hv → extends hv h → exact h idx S →
  (∀ s, s ∈ slots (live idx) → s ≠ EMPTY → ∃ key, good hv s key) → exact hv idx S.
Proof using Type.
  intros Hwf He [Hc Hh H2' Hs Hf] Hv.
  assert (∀ s key, s ∈ slots (live idx) → good h s key → good hv s key) as Hg.
  { intros s key Hin Hg. destruct (Hv s Hin) as (key' & Hg'); [by destruct Hg|].
    by rewrite (good_key h s key key' Hg (good_extends hv h s key' Hwf He Hg')). }
  constructor; try done.
  - intros s Hin Hne. destruct (Hs s Hin Hne) as (key & ? & ?). exists key. split; [done|by apply Hg].
  - intros key (j & Hj & Hgd & Ht)%Hf. exists j. split_and!; [done| |done].
    apply Hg; [|done]. apply slot_at_elem. by destruct Hgd.
Qed.

Lemma exact_unique h idx S S' : exact h idx S → exact h idx S' → S = S'.
Proof using Type.
  intros He He'. apply set_eq. intros key. split; intros Hk.
  - eapply exact_known; [exact He'|]. by apply (ex_finds _ _ _ He).
  - eapply exact_known; [exact He|]. by apply (ex_finds _ _ _ He').
Qed.

(** The invariant of a database that was opened empty: [S] is what it holds, [S0] what
    the last flush covered. *)
Record db_ok (db : FlatDb) (S0 S : gset bytes) : Prop := {
  d_heap : heap_ok (heap db);
  d_idx : idx_ok (index db);
  d_committed : committed_heap_size db ≤ size (heap db);
  d_exact : exact (view (heap db) (committed_heap_size db)) (index db) S;
  d_covers : covers db (checkpoint db) S0;
  d_below : Z.to_nat (heap_committed_size (checkpoint db)) ≤ committed_heap_size db;
  d_sub : S0 ⊆ S;
  d_clean : dirty (index db) = false → S0 = S ∧ synced (live (index db)) = slots (live (index db));
  d_writable : read_only db = false ∧ index_read_only (index db) = false;
  d_verify : verify_long_records (index db) = true;
}.

Lemma d_exact_heap db S0 S : db_ok db S0 S → exact (heap db) (index db) S.
Proof using Type.
  intros Hd. eapply exact_extends; [apply view_wf, (d_heap _ _ _ Hd)|apply view_extends, (d_committed _ _ _ Hd)|].
  apply (d_exact _ _ _ Hd).
Qed.

(** Writes do not touch what a checkpoint covers. *)
Lemma covers_write db c S h' idx' n : covers db c S → heap_ok h' → extends (heap db) h' → keeps (heap db) h' →
  evolves (heap db) (index db) h' idx' → covers (with_committed (with_both db h' idx') n) c S.
Proof using Type.
  intros [Hwf Hsays Hcok Hfr Hlim Hdur Hseg Htab] Hok He Hkp Hev.
  constructor; cbn [with_committed with_both with_index with_heap heap index ckpt_file]; try done.
  - apply (ok_wf _ Hok).
  - pose proof (ext_size _ _ He). lia.
  - intros o Ho. apply Hkp; [lia|]. by apply Hdur.
  - by rewrite (ext_segment _ _ He).
  - destruct Htab as [?|(Hp & T & HT & Hsl & Hsy & Hsec)]; [by left|right]. split; [done|].
    destruct (ev_tables _ _ _ _ Hev _ _ HT) as (T' & HT' & Hs' & Hf). pose proof (proj1 Hf) as Hlen.
    exists T'. split_and!; [done|congruence|congruence|]. intros key Hk.
    set (hs := Z.to_nat (heap_committed_size c)) in *.
    assert (secure (view (heap db) hs) T' key) as (j & Hj & Hg & Hj1 & Hj2 & Hj3).
    { eapply (secure_fills (heap db)); [by apply view_wf|by apply view_extends|done|done|done|by apply Hsec]. }
    exists j. split_and!; [done| |done..]. eapply good_extends; [|by apply view_view_extends|done]. by apply view_wf.
Qed.

(** A write that succeeded or failed, as the index sees it. *)
Lemma db_ok_write db S0 S S' h' idx' (done : bool) : db_ok db S0 S → heap_ok h' → extends (heap db) h' →
  keeps (heap db) h' → evolves (heap db) (index db) h' idx' → exact h' idx' S' → S ⊆ S' →
  (done = false → within (index db) idx' ∧ S' = S) →
  db_ok (with_committed (with_both db h' idx') (if done then size h' else committed_heap_size db)) S0 S'.
Proof using Type.
  intros Hd Hok He Hkp Hev Hex Hsub Hfail. pose proof (d_exact_heap _ _ _ Hd) as HeS.
  destruct Hd as [Hh Hi Hcm Hx Hcov Hbl Hsb Hcl [Hw1 Hw2] Hv]. pose proof (ext_size _ _ He) as Hsz.
  constructor; cbn [with_committed with_both with_index with_heap heap index committed_heap_size checkpoint read_only].
  - done.
  - apply (ev_ok _ _ _ _ Hev).
  - destruct done; lia.
  - destruct done; [by apply exact_view; [apply (ok_wf _ Hok)|]|]. destruct (Hfail eq_refl) as [Hwi ->].
    eapply exact_restrict; [apply view_wf, (ok_wf _ Hok)|apply view_extends; lia|done|].
    intros s Hs Hne. destruct (ex_slots _ _ _ Hx s (Hwi s Hs Hne) Hne) as (key & _ & Hg). exists key.
    eapply good_extends; [apply view_wf, (ok_wf _ Hh)|by apply view_view_extends|done].
  - by apply covers_write.
  - destruct done; lia.
  - set_solver.
  - destruct (ev_dirty _ _ _ _ Hev) as [->|(-> & Ht & Hc)]; [done|]. intros Hdt. destruct (Hcl Hdt) as [-> Hsy].
    assert (live idx' = live (index db)) as Hl by (unfold live; by rewrite Ht, Hc). rewrite Hl. split; [|done].
    assert (exact h' idx' S) as HxS; [|by eapply exact_unique].
    destruct HeS as [H1' H2' H3' H4' H5']. pose proof (ok_wf _ Hh) as Hwf. pose proof Hex as [E1 E2 E3 _ _].
    constructor; try done.
    + rewrite Hl. intros s Hs Hne. destruct (H4' s Hs Hne) as (key & ? & Hg). exists key. split; [done|].
      by eapply good_extends.
    + intros key Hk. apply (ev_finds _ _ _ _ Hev). by apply H5'.
  - split; [done|]. by rewrite (ev_read_only _ _ _ _ Hev).
  - by rewrite (ev_verify _ _ _ _ Hev).
Qed.

Definition added (res : io unit) (S new : gset bytes) : gset bytes := match res with Done _ => S ∪ new | _ => S end.

Lemma put_unsynced_ok db S0 S key value : db_ok db S0 S → keccak value = key →
  ∃ res db', put_unsynced db key value = (res, db') ∧ res ≠ Hangs ∧ db_ok db' S0 (added res S {[key]})
    ∧ checkpoint db' = checkpoint db.
Proof using Type.
  intros Hd Hk. pose proof (d_exact_heap _ _ _ Hd) as Hx. unfold put_unsynced. rewrite (proj1 (d_writable _ _ _ Hd)).
  destruct (put_rounds_spec 2 (heap db) (index db) key value (d_heap _ _ _ Hd) (d_idx _ _ _ Hd)
    (exact_intact _ _ _ Hx) Hk) as (res & idx' & h' & Hput & (Hok & He & Hkp & Hev & _ & Hwi & Hex) & Hnh).
  unfold FlatIndex.put. rewrite Hput. specialize (Hex S Hx). destruct res as [[]|e|]; [| |done].
  - eexists _, _. split; [done|]. split_and!; [done| |done].
    apply (db_ok_write db S0 S (S ∪ {[key]}) h' idx' true); [done..|set_solver|done].
  - eexists _, _. split; [done|]. split_and!; [done| |done].
    apply (db_ok_write db S0 S S h' idx' false); [done..|]. intros _. split; [by apply Hwi|done].
Qed.

Lemma batch_unsynced_ok db S0 S rows : db_ok db S0 S → (∀ key data, (key, data) ∈ rows → keccak data = key) →
  ∃ res db', batch_unsynced db rows = (res, db') ∧ res ≠ Hangs ∧ db_ok db' S0 (added res S (row_keys rows))
    ∧ checkpoint db' = checkpoint db.
Proof using Type.
  intros Hd Hk. pose proof (d_exact_heap _ _ _ Hd) as Hx. unfold batch_unsynced. rewrite (proj1 (d_writable _ _ _ Hd)).
  destruct (put_many_spec (heap db) (index db) rows (d_heap _ _ _ Hd) (d_idx _ _ _ Hd)
    (exact_intact _ _ _ Hx) Hk) as (res & idx' & h' & -> & Hok & He & Hkp & Hev & Hnh & Hwi & Hex).
  specialize (Hex S Hx). destruct res as [[]|e|]; [| |done].
  - eexists _, _. split; [done|]. split_and!; [done| |done].
    rewrite Nat.max_r by (pose proof (d_committed _ _ _ Hd); pose proof (ext_size _ _ He); lia).
    apply (db_ok_write db S0 S (S ∪ row_keys rows) h' idx' true); [done..|set_solver|done].
  - eexists _, _. split; [done|]. split_and!; [done| |done].
    apply (db_ok_write db S0 S S h' idx' false); [done..|]. intros _. split; [by apply Hwi|done].
Qed.

(** ** Flushing *)

Lemma view_force h n : heap_wf h → view (force h) n = view h n.
Proof using Type. intros _. unfold force, view. by case_match. Qed.

Lemma covers_force db c S : covers db c S → covers (flush_force db) c S.
Proof using Type.
  intros [Hwf Hsays Hcok Hfr Hlim Hdur Hseg Htab]. destruct (force_spec (heap db) Hwf) as (Hd & Hm & Hwf').
  constructor; unfold flush_force; cbn [with_heap heap index ckpt_file]; try done.
  - unfold force. by case_match.
  - intros o Ho. by rewrite Hd, Hm.
  - unfold force. by case_match.
  - by rewrite view_force.
Qed.

Lemma live_save idx : idx_ok idx → index_read_only idx = false →
  (dirty idx = false → synced (live idx) = slots (live idx)) →
  live (save idx) = mkTable (slots (live idx)) (slots (live idx)).
Proof using Type.
  intros Hok Hro Hcl. unfold save, modified. rewrite Hro. cbn [orb]. destruct (dirty idx) eqn:Hd; cbn [negb].
  - unfold live at 1. cbn [save_clear save_sync tables capacity]. by rewrite lookup_insert_eq.
  - rewrite <- (Hcl eq_refl) at 2. by destruct (live idx).
Qed.

Lemma save_fields idx : capacity (save idx) = capacity idx ∧ entries (save idx) = entries idx
  ∧ index_read_only (save idx) = index_read_only idx ∧ verify_long_records (save idx) = verify_long_records idx.
Proof using Type. unfold save. by case_match. Qed.

Lemma save_tables idx c T : tables idx !! c = Some T → length (synced T) = length (slots T) → idx_ok idx →
  tables (save idx) !! c = Some T ∨ tables (save idx) !! c = Some (mkTable (slots T) (slots T)).
Proof using Type.
  intros HT Hl Hok. unfold save. case_match; [by left|]. cbn [save_clear save_sync tables]. destruct (decide (c = capacity idx)) as [->|Hne].
  - right. rewrite lookup_insert_eq. rewrite (idx_live _ Hok) in HT. by injection HT as <-.
  - left. by rewrite lookup_insert_ne.
Qed.

Lemma covers_save db c S : idx_ok (index db) → covers db c S → covers (flush_save db) c S.
Proof using Type.
  intros Hok [Hwf Hsays Hcok Hfr Hlim Hdur Hseg Htab].
  constructor; unfold flush_save; cbn [with_index heap index ckpt_file]; try done.
  destruct Htab as [?|(Hp & T & HT & Hsl & Hsy & Hsec)]; [by left|right]. split; [done|].
  destruct (save_tables _ _ _ HT Hsy Hok) as [HT'|HT']; eexists; split; try exact HT'; [by split_and!|].
  cbn [slots synced]. split_and!; [done|done|]. intros key Hk. by apply secure_saved, Hsec.
Qed.

Lemma save_ok idx : idx_ok idx → idx_ok (save idx).
Proof using Type.
  intros Hok. unfold save. case_match; [done|]. destruct Hok as [Hp Hl Hsl Hsy Hn Hm].
  set (idx' := save_clear (save_sync idx)). assert (live idx' = mkTable (slots (live idx)) (slots (live idx))) as Hlive
    by (unfold live at 1, idx'; cbn [save_clear save_sync tables capacity]; by rewrite lookup_insert_eq).
  constructor; rewrite ?Hlive; try done; unfold idx'; cbn [save_clear save_sync tables capacity].
  - by rewrite lookup_insert_eq.
  - intros c [T HT]. destruct (decide (c = capacity idx)) as [->|Hne]; [done|].
    rewrite lookup_insert_ne in HT by done. by apply Hn.
Qed.

(** The checkpoint a flush writes. *)
Definition flushed_checkpoint (db : FlatDb) : Checkpoint :=
  next (checkpoint db) (Z.of_nat (committed_heap_size db)) (Z.of_nat (capacity (index db)))
    (Z.of_nat (entries (index db))) (Z.of_nat (segment_size (heap db))).

Lemma flushed_checkpoint_ok db S0 S : db_ok db S0 S → (sequence (checkpoint db) + 1 < 2 ^ 64)%Z →
  checkpoint_ok (flushed_checkpoint db) ∧ sequence (flushed_checkpoint db) = (sequence (checkpoint db) + 1)%Z.
Proof using Type.
  intros Hd Hseq. pose proof (cov_ok _ _ _ (d_covers _ _ _ Hd)) as ((Hs & _) & _).
  assert (u64 (sequence (checkpoint db) + 1) = sequence (checkpoint db) + 1)%Z as Hu by (apply wrap_small; unfold fits; lia).
  split; [|exact Hu]. pose proof (ok_limit _ (d_heap _ _ _ Hd)) as Hlim. pose proof (d_committed _ _ _ Hd) as Hcm.
  pose proof (idx_max _ (d_idx _ _ _ Hd)) as Hmax. pose proof (ok_header _ (ok_wf _ (d_heap _ _ _ Hd))) as Hh.
  pose proof (ex_half _ _ _ (d_exact _ _ _ Hd)) as Hhalf.
  change MAX_SIZE with (2 ^ 48 - 1)%Z in Hlim. change MAX_CAPACITY with (2 ^ 31)%Z in Hmax.
  unfold checkpoint_ok, flushed_checkpoint, next, fits.
  cbn [sequence heap_committed_size index_capacity index_size ckpt_segment_size]. rewrite Hu. split_and!; lia.
Qed.

Definition before_write (db : FlatDb) : FlatDb := flush_save (flush_force db).

Definition after_write (db : FlatDb) : FlatDb :=
  flush_write (committed_heap_size db) (capacity (index db)) (entries (index db)) (before_write db).

Lemma covers_written db S0 S : db_ok db S0 S → (sequence (checkpoint db) + 1 < 2 ^ 64)%Z →
  covers (after_write db) (flushed_checkpoint db) S.
Proof using Type.
  intros Hd Hseq. destruct (flushed_checkpoint_ok db S0 S Hd Hseq) as [Hcok Hcs].
  pose proof (covers_save _ _ _ (d_idx _ _ _ Hd : idx_ok (index (flush_force db))) (covers_force _ _ _ (d_covers _ _ _ Hd)))
    as [Hwf Hsays _ _ _ _ _ _]. pose proof Hd as [Hh Hi Hcm Hx Hcov Hbl Hsb Hcl [Hw1 Hw2] Hv].
  destruct (force_spec (heap db) (ok_wf _ Hh)) as (Hdu & Hm & _).
  assert (segment_size (force (heap db)) = segment_size (heap db)) as Hss by (unfold force; by case_match).
  assert (heap (after_write db) = force (heap db)) as Hhp by done.
  assert (checkpoint (after_write db) = flushed_checkpoint db) as Hck.
  { unfold after_write, flush_write, flushed_checkpoint. cbn [checkpoint]. by rewrite <- Hss. }
  assert (size (force (heap db)) = size (heap db)) as Hsz by (unfold force; by case_match).
  constructor; rewrite ?Hhp; unfold flushed_checkpoint; cbn [next heap_committed_size index_capacity ckpt_segment_size];
    rewrite ?Nat2Z.id.
  - exact Hwf.
  - fold (flushed_checkpoint db). assert (ckpt_file (after_write db) = Some (write (flushed_checkpoint db) (ckpt_file db))) as ->.
    { unfold after_write, flush_write, flushed_checkpoint. cbn [ckpt_file]. by rewrite <- Hss. }
    by eapply says_write; [apply Hcov| |].
  - exact Hcok.
  - lia.
  - pose proof (ok_limit _ Hh). lia.
  - intros o _. by rewrite Hdu, Hm.
  - right. by rewrite Hss.
  - right. split; [apply (idx_pow2 _ Hi)|].
    assert (index (after_write db) = save (index db)) as -> by done.
    pose proof (live_save (index db) Hi Hw2 (λ Hdt, proj2 (Hcl Hdt))) as Hlive.
    pose proof (idx_live _ (save_ok _ Hi)) as Hl. rewrite (proj1 (save_fields _)), Hlive in Hl.
    eexists. split; [exact Hl|]. cbn [slots synced]. split_and!; [apply (idx_slots _ Hi)|done|].
    intros key Hk. apply secure_synced. rewrite view_force by apply Hh. by apply (ex_finds _ _ _ Hx).
Qed.

Lemma covers_clean db c S : index_capacity c = Z.of_nat (capacity (index db)) → idx_ok (index db) →
  covers db c S → covers (flush_clean db) c S.
Proof using Type.
  intros Hc Hok [Hwf Hsays Hcok Hfr Hlim Hdur Hseg Htab].
  constructor; unfold flush_clean; cbn [with_index heap index ckpt_file]; try done.
  destruct Htab as [?|(Hp & T & HT & Hsl & Hsy & Hsec)]; [by left|right]. split; [done|]. exists T. split; [|done].
  unfold remove_stale_files. case_match; [done|]. cbn [tables]. rewrite Hc, Nat2Z.id in HT |- *.
  rewrite (idx_live _ Hok) in HT. by rewrite lookup_singleton_eq.
Qed.

Lemma remove_ok idx : idx_ok idx → idx_ok (remove_stale_files idx).
Proof using Type.
  intros [Hp Hl Hsl Hsy Hn Hm]. constructor; rewrite ?live_removed, ?capacity_removed; try done.
  - unfold remove_stale_files. case_match; [done|]. cbn [tables capacity]. by rewrite lookup_singleton_eq.
  - intros c. unfold remove_stale_files. case_match; [apply Hn|]. cbn [tables]. intros [T HT].
    apply lookup_singleton_Some in HT as [<- _]. done.
Qed.

(** Afterwards everything is covered. *)
Lemma flush_ok db S0 S : db_ok db S0 S → (sequence (checkpoint db) + 1 < 2 ^ 64)%Z → db_ok (flush db) S S.
Proof using Type.
  intros Hd Hseq. unfold flush. rewrite (proj1 (d_writable _ _ _ Hd)). destruct (flush_unneeded db) eqn:Hun.
  { apply andb_true_iff in Hun as [_ Hm%negb_true_iff]. destruct (d_clean _ _ _ Hd Hm) as [-> _]. done. }
  change (flush_write _ _ _ _) with (after_write db). pose proof (covers_written db S0 S Hd Hseq) as Hcov.
  pose proof (d_idx _ _ _ Hd) as Hi. pose proof (save_fields (index db)) as (Hf1 & Hf2 & Hf3 & Hf4).
  assert (idx_ok (index (after_write db))) as Hok by (by apply save_ok).
  assert (checkpoint (flush_clean (after_write db)) = flushed_checkpoint db) as Hck.
  { unfold flush_clean, after_write, flush_write, flushed_checkpoint, before_write, flush_save, flush_force.
    cbn. f_equal. unfold force. by case_match. }
  assert (live (index (flush_clean (after_write db))) = mkTable (slots (live (index db))) (slots (live (index db)))) as Hlive.
  { change (index (flush_clean (after_write db))) with (remove_stale_files (save (index db))). rewrite live_removed.
    apply live_save; [done|apply (d_writable _ _ _ Hd)|]. intros Hdt. by apply (d_clean _ _ _ Hd). }
  pose proof Hd as [Hh _ Hcm Hx _ Hbl Hsb Hcl [Hw1 Hw2] Hv].
  constructor; rewrite ?Hck.
  - change (heap (flush_clean (after_write db))) with (force (heap db)).
    destruct (force_spec (heap db) (ok_wf _ Hh)) as (_ & _ & Hwf). destruct Hh as [_ Ha Hl].
    constructor; [done|unfold force; by case_match..].
  - by apply remove_ok.
  - change (heap (flush_clean (after_write db))) with (force (heap db)). unfold force. by case_match.
  - change (heap (flush_clean (after_write db))) with (force (heap db)). rewrite view_force by apply Hh.
    change (committed_heap_size (flush_clean (after_write db))) with (committed_heap_size db).
    destruct Hx as [E1 E2 E3 E4 E5].
    assert (capacity (index (flush_clean (after_write db))) = capacity (index db)) as Hcap.
    { change (index (flush_clean (after_write db))) with (remove_stale_files (save (index db))). by rewrite capacity_removed. }
    assert (entries (index (flush_clean (after_write db))) = entries (index db)) as Hent.
    { change (index (flush_clean (after_write db))) with (remove_stale_files (save (index db))).
      unfold remove_stale_files. by case_match. }
    constructor; unfold finds; rewrite ?Hlive, ?Hcap, ?Hent; cbn [slots]; done.
  - apply covers_clean; [|done|done]. change (index (after_write db)) with (save (index db)). by rewrite Hf1.
  - unfold flushed_checkpoint. cbn [next heap_committed_size]. by rewrite Nat2Z.id.
  - done.
  - intros _. by rewrite Hlive.
  - split; [done|]. change (index (flush_clean (after_write db))) with (remove_stale_files (save (index db))).
    unfold remove_stale_files. by rewrite Hf3, Hw2.
  - change (index (flush_clean (after_write db))) with (remove_stale_files (save (index db))).
    by rewrite verify_removed, Hf4.
Qed.

(** ** Opening *)

Lemma table_size_loop_pow2 fuel : ∀ a wanted, 0 ≤ a →
  ∃ b, table_size_loop fuel (2 ^ Z.of_nat a) wanted = (2 ^ Z.of_nat b)%Z ∧ a ≤ b ≤ a + fuel.
Proof using Type.
  induction fuel as [|fuel IH]; intros a wanted Ha; cbn [table_size_loop]; [exists a; split; [done|lia]|].
  destruct (_ && _); [|exists a; split; [done|lia]].
  destruct (IH (S a) wanted ltac:(lia)) as (b & Hb & Hr). exists b. split; [|lia]. rewrite <- Hb. f_equal.
  rewrite Z.shiftl_mul_pow2, Nat2Z.inj_succ, Z.pow_succ_r by lia. lia.
Qed.

Lemma table_size_for_pow2 wanted : ∃ k, Z.to_nat (table_size_for wanted) = 2 ^ k ∧ 4 ≤ k ≤ 31.
Proof using Type.
  unfold table_size_for. destruct (table_size_loop_pow2 27 4 wanted ltac:(lia)) as (b & Hb & Hr).
  change (2 ^ Z.of_nat 4)%Z with 16%Z in Hb. rewrite Hb. exists b. split; [|lia].
  assert (2 ^ Z.of_nat b ≤ MAX_CAPACITY)%Z as Hle by (change MAX_CAPACITY with (2 ^ 31)%Z; apply Z.pow_le_mono_r; lia).
  rewrite Z.min_l by done. apply Nat2Z.inj. rewrite Z2Nat.id, Nat2Z.inj_pow by lia. done.
Qed.

Lemma open_empty_ok options db : opt_read_only options = false → opt_verify_long_records options = true →
  (Z.of_nat (opt_segment_size options) ≤ 2 ^ 30)%Z → open_db empty_disk options = Done db → db_ok db ∅ ∅.
Proof using Type.
  intros Hro Hver Hss. unfold open_db, empty_disk. cbn [disk_ckpt disk_heap disk_index read initial ckpt_segment_size
    heap_committed_size index_capacity index_size]. cbn [Z.eqb negb andb]. change (Z.to_nat 0) with 0.
  destruct (open_heap [] 0 (opt_segment_size options)) as [h| |] eqn:Hoh; [|done..].
  apply open_heap_spec in Hoh as (Hok & Hsz & Hseg & _ & Hmd & _); [|done|done].
  unfold open_index. cbn [Nat.ltb Nat.leb]. destruct (table_size_for_pow2 (Z.max (sat_mul 64 (expected_keys options) 2) 16))
    as (k & Hk & Hk4 & Hk31). rewrite Hk. unfold map_table. destruct (table_error (2 ^ k)); [done|].
  rewrite fmap_empty, lookup_empty. cbn [default from_option result_bind]. intros [= <-]. rewrite Hro, Hver.
  set (n := 2 ^ k) in *. set (idx := mkIndex _ _ _ _ _ _).
  assert (live idx = fresh_table n) as Hlive by (unfold live, idx; cbn [tables capacity]; by rewrite lookup_insert_eq).
  assert (idx_ok idx) as Hidx.
  { constructor; rewrite ?Hlive; unfold idx; cbn [tables capacity fresh_table slots synced].
    - by exists k.
    - by rewrite lookup_insert_eq.
    - by rewrite length_replicate.
    - by rewrite length_replicate.
    - intros c [T HT]. destruct (decide (c = n)) as [->|Hne]; [done|].
      rewrite lookup_insert_ne, lookup_empty in HT by done. done.
    - change MAX_CAPACITY with (2 ^ 31)%Z. subst n. rewrite Nat2Z.inj_pow. apply Z.pow_le_mono_r; lia. }
  constructor; cbn [heap index committed_heap_size checkpoint read_only].
  - done.
  - by apply remove_ok.
  - lia.
  - constructor; unfold finds; rewrite ?live_removed, ?Hlive, ?capacity_removed; cbn [fresh_table slots].
    + by rewrite used_replicate.
    + cbn. lia.
    + cbn. subst n. pose proof (Nat.pow_le_mono_r 2 1 k). simpl in *. lia.
    + intros s Hs%elem_of_replicate_inv Hne. done.
    + intros key Hkey%not_elem_of_empty. done.
  - constructor; cbn [heap index ckpt_file initial heap_committed_size index_capacity ckpt_segment_size]; try done.
    + apply (ok_wf _ Hok).
    + lia.
    + intros o _. by rewrite Hmd.
    + by left.
    + by left.
  - done.
  - done.
  - rewrite ?live_removed. unfold remove_stale_files. by case_match.
  - split; [done|]. unfold remove_stale_files. by case_match.
  - rewrite verify_removed. done.
Qed.

(** ** Runs *)

(** A database opened empty, written to and flushed; [S0] are the keys the last flush
    covered and [S] all the keys of writes that succeeded. *)
Inductive reach (options : Options) : FlatDb → gset bytes → gset bytes → Prop :=
  | reach_open db : open_db empty_disk options = Done db → reach options db ∅ ∅
  | reach_put db S0 S key value res db' : reach options db S0 S → keccak value = key →
      put_unsynced db key value = (res, db') → reach options db' S0 (added res S {[key]})
  | reach_batch db S0 S rows res db' : reach options db S0 S → (∀ key data, (key, data) ∈ rows → keccak data = key) →
      batch_unsynced db rows = (res, db') → reach options db' S0 (added res S (row_keys rows))
  | reach_flush db S0 S : reach options db S0 S → (sequence (checkpoint db) + 1 < 2 ^ 64)%Z →
      reach options (flush db) S S.

Definition options_ok (options : Options) : Prop :=
  opt_read_only options = false ∧ opt_verify_long_records options = true
  ∧ (Z.of_nat (opt_segment_size options) ≤ 2 ^ 30)%Z.

Lemma reach_ok options db S0 S : options_ok options → reach options db S0 S → db_ok db S0 S.
Proof using Type.
  intros (Hro & Hver & Hss). induction 1 as [db Hop|db S0 S key value res db' _ IH Hk Hput|db S0 S rows res db' _ IH Hk Hput|
    db S0 S _ IH Hseq].
  - by eapply open_empty_ok.
  - destruct (put_unsynced_ok db S0 S key value IH Hk) as (res' & db1 & Hp & _ & Hd & _). rewrite Hput in Hp.
    by injection Hp as <- <-.
  - destruct (batch_unsynced_ok db S0 S rows IH Hk) as (res' & db1 & Hp & _ & Hd & _). rewrite Hput in Hp.
    by injection Hp as <- <-.
  - by eapply flush_ok.
Qed.

Lemma db_get_spec db S0 S key : db_ok db S0 S →
  (key ∈ S → ∃ v, db_get db key = Done (Some v) ∧ keccak v = key) ∧ (key ∉ S → db_get db key = Done None).
Proof using Type.
  intros Hd. pose proof (d_exact_heap _ _ _ Hd) as Hx. pose proof (d_idx _ _ _ Hd) as Hi.
  pose proof (idx_slots _ Hi) as Hsl. pose proof (idx_pow2 _ Hi) as Hp. pose proof (pow2_positive _ Hp) as Hpos.
  rewrite <- Hsl in Hp. split; intros Hk; unfold db_get.
  - apply get_finds; [done|apply (d_verify _ _ _ Hd)|lia|]. by apply (ex_finds _ _ _ Hx).
  - unfold FlatIndex.get. rewrite (proj2 (Nat.eqb_neq (capacity (index db)) 0)) by lia.
    apply get_loop_absent; [done| |].
    + apply used_lt_empty. rewrite (ex_counted _ _ _ Hx). pose proof (ex_half _ _ _ Hx). lia.
    + intros i Hne. rewrite (d_verify _ _ _ Hd). destruct (matching true _ _ key) as [v|] eqn:Hm; [|done].
      destruct (ex_slots _ _ _ Hx _ (slot_at_elem _ _ Hne) Hne) as (key' & Hin & _ & r & Hr & Hkr & _).
      unfold matching in Hm. rewrite Hr in Hm. case_bool_decide as Heq; [|done]. congruence.
Qed.

(** ** Properties *)

(** C11: the database refines a set of keys.  After any sequence of puts, batches and
    flushes on a database opened empty, a key whose write succeeded reads as a value that
    hashes to it and any other key as absent; no call hangs, through collisions in the
    table, growth, segment boundaries and failed writes. *)
Theorem flatdb_refines_set options db S0 S key (Hopt : options_ok options) (Hr : reach options db S0 S) :
  (key ∈ S → ∃ v, db_get db key = Done (Some v) ∧ keccak v = key)
  ∧ (key ∉ S → db_get db key = Done None)
  ∧ (∀ value, keccak value = key → (put_unsynced db key value).1 ≠ Hangs)
  ∧ ∀ rows, (∀ k data, (k, data) ∈ rows → keccak data = k) → (batch_unsynced db rows).1 ≠ Hangs.
Proof using Type.
  pose proof (reach_ok options db S0 S Hopt Hr) as Hd. destruct (db_get_spec db S0 S key Hd) as [Hin Hout].
  split_and!; [done|done|intros value Hk|intros rows Hrows].
  - destruct (put_unsynced_ok db S0 S key value Hd Hk) as (res & db' & -> & Hnh & _). done.
  - destruct (batch_unsynced_ok db S0 S rows Hd Hrows) as (res & db' & -> & Hnh & _). done.
Qed.

(** The moments of a flush a crash can fall into: before and after each of its steps, and
    while the checkpoint is being written, when its slot may hold anything that does not
    verify. *)
Inductive interrupted (db : FlatDb) : FlatDb → Prop :=
  | at_rest : interrupted db db
  | after_force : interrupted db (flush_force db)
  | after_save : interrupted db (before_write db)
  | torn_write x : length x = RECORD_LENGTH → decode x = None →
      interrupted db (mkDb (heap (before_write db)) (index (before_write db)) (committed_heap_size db) (checkpoint db)
        (Some (write_at (prepared (ckpt_file db)) (slot_offset (sequence (checkpoint db) + 1)) x))
        (read_only db) (sync_writes db))
  | written : interrupted db (after_write db)
  | cleaned : interrupted db (flush db).

Lemma interrupted_covers db S0 S p : db_ok db S0 S → (sequence (checkpoint db) + 1 < 2 ^ 64)%Z → interrupted db p →
  ∃ c S', covers p c S' ∧ S0 ⊆ S' ∧ segment_size (heap p) = segment_size (heap db).
Proof using Type.
  intros Hd Hseq Hp. pose proof (d_covers _ _ _ Hd) as Hc. pose proof (covers_force _ _ _ Hc) as Hcf.
  pose proof (covers_save _ _ _ (d_idx _ _ _ Hd : idx_ok (index (flush_force db))) Hcf) as Hcs.
  assert (segment_size (force (heap db)) = segment_size (heap db)) as Hss by (unfold force; by case_match).
  destruct Hp as [| | |x Hx Hdx| |].
  - by exists (checkpoint db), S0.
  - by exists (checkpoint db), S0.
  - by exists (checkpoint db), S0.
  - exists (checkpoint db), S0. split_and!; [|done|done]. destruct Hcs as [Hwf Hsays Hcok Hfr Hlim Hdur Hseg Htab].
    constructor; try done. by apply says_torn.
  - exists (flushed_checkpoint db), S. split_and!; [by eapply covers_written|apply (d_sub _ _ _ Hd)|done].
  - pose proof (flush_ok db S0 S Hd Hseq) as Hd'. exists (checkpoint (flush db)), S.
    split_and!; [apply (d_covers _ _ _ Hd')|apply (d_sub _ _ _ Hd)|]. unfold flush. by repeat case_match.
Qed.

(** A key that a flush covered, read after a crash. *)
Lemma reopened_reads options db S0 S p d options' db' key : options_ok options → reach options db S0 S →
  (sequence (checkpoint db) + 1 < 2 ^ 64)%Z → interrupted db p → crash p d →
  opt_segment_size options' = segment_size (heap db) → opt_verify_long_records options' = true →
  open_db d options' = Done db' → key ∈ S0 → ∃ v, db_get db' key = Done (Some v) ∧ keccak v = key.
Proof using Type.
  intros Hopt Hr Hseq Hp Hc Hss Hv Hopen Hk.
  pose proof (reach_ok options db S0 S Hopt Hr) as Hd.
  destruct (interrupted_covers db S0 S p Hd Hseq Hp) as (c & S' & Hcov & Hsub & Hseg).
  apply (covers_reopen p c S' d options' db' Hcov Hc); [by rewrite Hss, Hseg|done|done|set_solver].
Qed.


(** No read returns bytes that do not hash to the key that was asked for, whatever the
    heap and the index hold: torn pages, stale slots, corrupted or forged records. *)
Theorem reads_are_verified db key v (Hv : verify_long_records (index db) = true)
    (Hget : db_get db key = Done (Some v)) : keccak v = key.
Proof using Type.
  unfold db_get, FlatIndex.get in Hget. rewrite Hv in Hget. destruct (_ =? _); [done|].
  by apply get_loop_sound in Hget.
Qed.

End safety.
(** ** Witnesses *)

#[local] Existing Instances poly_keccak sum_crc.
#[local] Instance roomy : Host := host false.

(** A database with one flushed key and one that is only written. *)
Definition first_db : FlatDb := result_of (open_db empty_disk small_options).
Definition second_db : FlatDb := flush (put_unsynced first_db (keccak [1%Z]) [1%Z]).2.
Definition third_db : FlatDb := (put_unsynced second_db (keccak [2%Z]) [2%Z]).2.

Lemma third_reach : reach small_options third_db (∅ ∪ {[keccak [1%Z]]}) (∅ ∪ {[keccak [1%Z]]} ∪ {[keccak [2%Z]]}).
Proof.
  apply (reach_put small_options second_db _ (∅ ∪ {[keccak [1%Z]]}) (keccak [2%Z]) [2%Z] (Done tt)).
  - apply (reach_flush small_options _ ∅ (∅ ∪ {[keccak [1%Z]]})); [|vm_compute; reflexivity].
    apply (reach_put small_options first_db ∅ ∅ (keccak [1%Z]) [1%Z] (Done tt)).
    + apply reach_open. vm_compute. reflexivity.
    + reflexivity.
    + vm_compute. reflexivity.
  - reflexivity.
  - vm_compute. reflexivity.
Qed.

Lemma small_options_ok : options_ok small_options.
Proof. split_and!; [done|done|simpl; lia]. Qed.

Lemma flatdb_refines_set_witness :
  (∃ v, db_get third_db (keccak [2%Z]) = Done (Some v) ∧ keccak v = keccak [2%Z])
  ∧ db_get third_db (keccak [3%Z]) = Done None.
Proof.
  split.
  - apply (flatdb_refines_set small_options third_db _ _ (keccak [2%Z]) small_options_ok third_reach). set_solver.
  - apply (flatdb_refines_set small_options third_db _ _ (keccak [3%Z]) small_options_ok third_reach).
    vm_compute. discriminate.
Defined.


Lemma reads_are_verified_witness : keccak [2%Z] = keccak [2%Z].
Proof.
  apply (reads_are_verified third_db (keccak [2%Z]) [2%Z]).
  - vm_compute. reflexivity.
  - vm_compute. reflexivity.
Defined.

End FlatSafety.
