(* ===== verification/FlatTrie.v ===== *)
(** * A trie over the flat database: storage/src/flat_trie_store.rs

    [FlatTrieStore] is the [TrieStore] that keeps a trie's nodes in a [FlatDb].  A trie
    that lives in one is followed through its operations, its saves and the store's
    flushes, to a crash and the database opened after it: every root that was saved before
    the last flush is found again by its hash, with the contents it had.

    The theorem is the composition of the trie's refinement (Trie) with the database's
    crash safety (FlatSafety).  The database promises a value with the right hash, the trie
    needs the value it wrote: that the two are one is assumed of the finitely many strings
    the stores of the run hold and the trie saves. *)
From S2P Require Import Prelude Path Varint Store Node Unitrie NodeCodec NodeRefine NodeSave Trie.
From S2P Require Import FlatHeap FlatIndex FlatIndexFacts FlatCheckpoint FlatDb FlatSafety.
From stdpp Require Import strings gmap.
From stdpp Require Import options.

Module FlatTrie.
Import Store Node Unitrie NodeCodec NodeRefine NodeSave Trie.
Local Open Scope Z_scope.

(** ** The store *)

Record FlatTrieStore := mkFlatTrieStore { flat_db : FlatDb.FlatDb; write_failed : bool }.

Section store.
Context `{Keccak} `{FlatCheckpoint.Crc} `{FlatHeap.Host}.

Definition flat_open (d : FlatDb.Disk) (options : FlatDb.Options) : FlatHeap.io FlatTrieStore :=
  match FlatDb.open_db d options with
  | FlatHeap.Done db => FlatHeap.Done (mkFlatTrieStore db false)
  | FlatHeap.Fails e => FlatHeap.Fails e
  | FlatHeap.Hangs => FlatHeap.Hangs
  end.

(** A lookup that does not return has no result; [FlatSafety] shows when there is none. *)
Definition flat_get (s : FlatTrieStore) (key : bytes) : option bytes :=
  match FlatDb.db_get (flat_db s) key with FlatHeap.Done r => r | _ => None end.

(** An error is remembered, and not returned. *)
Definition noted (s : FlatTrieStore) (r : FlatHeap.io unit * FlatDb.FlatDb) : FlatTrieStore :=
  mkFlatTrieStore r.2 (match r.1 with FlatHeap.Done _ => write_failed s | _ => true end).

Definition flat_put (s : FlatTrieStore) (key value : bytes) : FlatTrieStore :=
  noted s (FlatDb.db_put (flat_db s) key value).

Definition flat_put_many (s : FlatTrieStore) (entries : list (bytes * bytes)) : FlatTrieStore :=
  noted s (FlatDb.update_batch (flat_db s) entries).

Definition flat_flush (s : FlatTrieStore) : FlatTrieStore :=
  mkFlatTrieStore (FlatDb.flush (flat_db s)) (write_failed s).

#[global] Instance flat_store : TrieStore FlatTrieStore := {
  ts_get := flat_get;
  ts_put := flat_put;
  ts_put_many := flat_put_many;
  ts_flush := flat_flush;
  ts_collected_below _ := None;
}.

(** ** Runs *)

Section runs.
Context (options : FlatDb.Options) (Hopt : FlatSafety.options_ok options) (V : gset bytes) (Hinj : distinct V).

(** The sequence number of the next checkpoint is a [u64]. *)
Definition sequence_room (s : FlatTrieStore) : Prop :=
  FlatCheckpoint.sequence (FlatDb.checkpoint (flat_db s)) + 1 < 2 ^ 64.

(** A trie and the store it lives in, from an empty database on; [ops] is what was done to
    the trie, [R] the roots saved so far with what they held, [F] those the last flush
    covered.  What is saved and held is among [V]. *)
Inductive run : FlatTrieStore → TrieNode → list op → list (bytes * contents) → list (bytes * contents) → Prop :=
  | run_open s : flat_open FlatDb.empty_disk options = FlatHeap.Done s → run s empty_node [] [] []
  | run_trie s n ops R F a n' : run s n ops R F → a ≠ OpSave → step (s, n) a (s, n') →
      run s n' (ops ++ [a]) R F
  | run_save s n ops R F : run s n ops R F → sequence_room s → write_failed (save s n true).2 = false →
      Forall (λ e, e.2 ∈ V) (collect_for_save n true).2 → held_in V (save s n true).2 →
      run (save s n true).2 (save s n true).1 (ops ++ [OpSave])
        ((compute_hash (save s n true).1, spec_run ops) :: R) F
  | run_flush s n ops R F : run s n ops R F → sequence_room s → held_in V (ts_flush s) →
      run (ts_flush s) n ops R R.

Abbreviation reach := (FlatSafety.reach options).

Lemma flat_get_spec s S0 S h : reach (flat_db s) S0 S →
  (h ∈ S → ∃ m, ts_get s h = Some m ∧ keccak m = h) ∧ (h ∉ S → ts_get s h = None).
Proof using Type*.
  intros Hr. pose proof (FlatSafety.reach_ok options _ S0 S Hopt Hr) as Hd.
  destruct (FlatSafety.db_get_spec _ S0 S h Hd) as [Hin Hout]. simpl. unfold flat_get. split.
  - intros Hh. destruct (Hin Hh) as (v & -> & Hk). by exists v.
  - intros Hh. by rewrite (Hout Hh).
Qed.

Lemma flat_get_key s S0 S h m : reach (flat_db s) S0 S → ts_get s h = Some m → h ∈ S ∧ keccak m = h.
Proof using Type*.
  intros Hr Hm. destruct (flat_get_spec s S0 S h Hr) as [Hin Hout].
  destruct (decide (h ∈ S)) as [Hh|Hh]; [|by rewrite Hout in Hm].
  destruct (Hin Hh) as (m' & Hm' & Hk). split; [done|]. congruence.
Qed.

(** A store of more keys reads those of the smaller one alike. *)
Lemma grown_extends s S0 S s' S0' S' : reach (flat_db s) S0 S → reach (flat_db s') S0' S' → S ⊆ S' →
  held_in V s → held_in V s' → extends s s'.
Proof using Type*.
  intros Hr Hr' Hsub HV HV' h m Hm. destruct (flat_get_key s S0 S h m Hr Hm) as [Hh Hk].
  destruct (proj1 (flat_get_spec s' S0' S' h Hr') (Hsub h Hh)) as (m' & Hm' & Hk').
  rewrite Hm'. f_equal. apply Hinj; [by eapply HV'|by eapply HV|congruence].
Qed.

Lemma reach_flush_incl s S0 S : reach (flat_db s) S0 S → S0 ⊆ S.
Proof using Type*. intros Hr. by apply (FlatSafety.d_sub _ _ _ (FlatSafety.reach_ok options _ S0 S Hopt Hr)). Qed.

(** A batch that did not fail. *)
Lemma batch_reach s S0 S rows : reach (flat_db s) S0 S → sequence_room s → Forall addressed rows →
  write_failed (ts_put_many s rows) = false →
  ∃ S0', S0 ⊆ S0' ∧ reach (flat_db (ts_put_many s rows)) S0' (S ∪ FlatIndexFacts.row_keys rows).
Proof using Type*.
  intros Hr Hseq Hrows. pose proof (FlatSafety.reach_ok options _ S0 S Hopt Hr) as Hd.
  assert (∀ key data, (key, data) ∈ rows → keccak data = key) as Hk.
  { intros key data Hin. rewrite Forall_forall in Hrows. symmetry. exact (Hrows _ Hin). }
  destruct (FlatSafety.batch_unsynced_ok _ S0 S rows Hd Hk) as (res & db' & Hb & Hnh & _ & Hck).
  simpl. unfold flat_put_many, noted, FlatDb.update_batch. rewrite Hb. unfold FlatDb.then_sync.
  destruct res as [[]|e|]; [|done|done]. intros _. cbn [snd fst flat_db].
  pose proof (FlatSafety.reach_batch options _ S0 S rows _ _ Hr Hk Hb) as Hr'. cbn [FlatSafety.added] in Hr'.
  destruct (FlatDb.sync_writes db'); [|by exists S0].
  exists (S ∪ FlatIndexFacts.row_keys rows). split; [pose proof (reach_flush_incl s S0 S Hr); set_solver|].
  eapply FlatSafety.reach_flush; [exact Hr'|]. by rewrite Hck.
Qed.

(** What is written is what is read. *)
Lemma batch_reads s S0 S rows : reach (flat_db s) S0 S → Forall addressed rows →
  FlatIndexFacts.row_keys rows ⊆ S → held_in V s → Forall (λ e, e.2 ∈ V) rows → written s rows.
Proof using Type*.
  intros Hr Hrows Hsub HV HB h m Hin. rewrite Forall_forall in Hrows, HB.
  destruct (proj1 (flat_get_spec s S0 S h Hr)) as (m' & Hm' & Hk).
  { apply Hsub. unfold FlatIndexFacts.row_keys. apply elem_of_list_to_set, list_elem_of_fmap. by exists (h, m). }
  rewrite Hm'. f_equal. apply Hinj; [by eapply HV|exact (HB _ Hin)|]. rewrite Hk. exact (Hrows _ Hin).
Qed.

(** A state of a run: the database is one of [FlatSafety]'s, the trie stands for the map
    of its contract, the saved roots can be read, and the flushed ones from the flushed
    keys alone. *)
Definition good (s : FlatTrieStore) (n : TrieNode) (ops : list op) (R F : list (bytes * contents)) : Prop :=
  held_in V s ∧ ∃ S0 S o, reach (flat_db s) S0 S ∧ Inv (cost ops) s n (spec_run ops) o
    ∧ (∀ root m, (root, m) ∈ R → m ≠ ∅ → Held s root m)
    ∧ (∀ root m, (root, m) ∈ F → m ≠ ∅ → Held (snapshot s S0) root m).

(** A step of the trie that leaves the store alone. *)
Lemma good_trie s n ops R F a n' : good s n ops R F → a ≠ OpSave → step (s, n) a (s, n') →
  cost (ops ++ [a]) < 2 ^ 64 → good s n' (ops ++ [a]) R F.
Proof.
  intros (HV & S0 & S & o & Hr & HI & HR & HF) Hne Hstep Hc. pose proof (op_cost_nonneg a) as Hnn.
  rewrite cost_snoc in Hc. assert (cost ops < 2 ^ 64) as Hw by lia.
  destruct (step_inv_via s (cost ops) s n (spec_run ops) o a n') as [o' HI']; [by intros h m|done..|].
  split; [done|]. exists S0, S, o'. by rewrite cost_snoc, spec_run_snoc.
Qed.

Lemma save_reach s n S0 S : reach (flat_db s) S0 S → sequence_room s → Forall addressed (collect_for_save n true).2 →
  write_failed (save s n true).2 = false →
  ∃ S0', S0 ⊆ S0' ∧ reach (flat_db (save s n true).2) S0' (S ∪ FlatIndexFacts.row_keys (collect_for_save n true).2).
Proof using Type*.
  intros Hr Hseq. unfold save. destruct (collect_for_save n true) as [n' [|e batch]]; cbn [snd].
  - intros _ _. exists S0. split; [done|]. unfold FlatIndexFacts.row_keys. cbn. by rewrite union_empty_r_L.
  - by apply batch_reach.
Qed.

Lemma good_save s n ops R F : good s n ops R F → sequence_room s → write_failed (save s n true).2 = false →
  Forall (λ e, e.2 ∈ V) (collect_for_save n true).2 → held_in V (save s n true).2 →
  good (save s n true).2 (save s n true).1 (ops ++ [OpSave])
    ((compute_hash (save s n true).1, spec_run ops) :: R) F.
Proof using Type*.
  intros (HV & S0 & S & o & Hr & HI & HR & HF) Hseq Hok HB HV'. split; [done|].
  pose proof (root_addressed s n o (inv_rep _ _ _ _ _ HI)) as Haddr.
  destruct (save_reach s n S0 S Hr Hseq Haddr Hok) as (S0' & Hsub & Hr').
  set (s' := (save s n true).2) in *. set (batch := (collect_for_save n true).2) in *.
  assert (extends s s') as Hext by (eapply (grown_extends s S0 S s' _ _ Hr Hr'); [set_solver|done|done]).
  assert (written s' batch) as Hw by (eapply (batch_reads s' _ _ batch Hr'); [done|set_solver|done|done]).
  destruct (inv_collected _ s s' n _ o HI Hext Hw) as [HI' Hst].
  exists S0', (S ∪ FlatIndexFacts.row_keys batch), o. rewrite cost_snoc, spec_run_snoc, Z.add_0_r.
  rewrite save_fst. split_and!; [done|done|..].
  - intros root m [[= -> ->]|Hin]%elem_of_cons Hne.
    + by apply (saved_held (cost ops) s' _ _ o).
    + by apply (Held_extends s), HR.
  - intros root m Hin Hne. apply (Held_extends (snapshot s S0)); [by apply snapshot_extends|by apply HF].
Qed.

Lemma good_flush s n ops R F : good s n ops R F → sequence_room s → held_in V (ts_flush s) →
  good (ts_flush s) n ops R R.
Proof using Type*.
  intros (HV & S0 & S & o & Hr & HI & HR & HF) Hseq HV'. split; [done|].
  assert (reach (flat_db (ts_flush s)) S S) as Hr' by by eapply FlatSafety.reach_flush.
  assert (extends s (ts_flush s)) as Hext by by eapply (grown_extends s S0 S (ts_flush s) S S Hr Hr').
  exists S, S, o. split_and!; [done|by apply (inv_extends _ s)|..].
  - intros root m Hin Hne. by apply (Held_extends s), HR.
  - intros root m Hin Hne. apply (Held_extends s); [|by apply HR].
    intros h m' Hm'. apply snapshot_get. split; [by apply (flat_get_key s S0 S h m' Hr Hm')|by apply Hext].
Qed.

Lemma open_reach s : flat_open FlatDb.empty_disk options = FlatHeap.Done s → reach (flat_db s) ∅ ∅.
Proof using Type.
  unfold flat_open. destruct (FlatDb.open_db _ _) as [db| |] eqn:Hdb; [|done|done].
  intros [= <-]. by apply FlatSafety.reach_open.
Qed.

Lemma run_good s n ops R F : run s n ops R F → cost ops < 2 ^ 64 → good s n ops R F.
Proof using Type*.
  induction 1 as [s Hopen|s n ops R F a n' _ IH Hne Hstep|s n ops R F _ IH Hseq Hok HB HV|s n ops R F _ IH Hseq HV];
    intros Hc.
  - pose proof (open_reach s Hopen) as Hr. split.
    + intros h m Hm. by destruct (flat_get_key s ∅ ∅ h m Hr Hm) as [?%not_elem_of_empty _].
    + exists ∅, ∅, None. split_and!; [done|apply inv_init|by intros ? ? ?%elem_of_nil..].
  - pose proof Hc as Hc'. rewrite cost_snoc in Hc. pose proof (op_cost_nonneg a).
    eapply good_trie; [apply IH; lia|done..].
  - rewrite cost_snoc in Hc. cbn [op_cost] in Hc. apply good_save; [apply IH; lia|done..].
  - eapply good_flush; [by apply IH|done..].
Qed.

(** What was flushed, after a crash. *)
Lemma reopened_extends s S0 S p d options' s' : reach (flat_db s) S0 S → sequence_room s →
  FlatSafety.interrupted (flat_db s) p → FlatDb.crash p d →
  FlatDb.opt_segment_size options' = FlatHeap.segment_size (FlatDb.heap (flat_db s)) →
  FlatDb.opt_verify_long_records options' = true → flat_open d options' = FlatHeap.Done s' →
  held_in V s → held_in V s' → extends (snapshot s S0) s'.
Proof using Type*.
  intros Hr Hseq Hp Hc Hss Hv Hopen HV HV' h m [Hh Hm]%snapshot_get.
  destruct (flat_get_key s S0 S h m Hr Hm) as [_ Hk'].
  assert (∃ v, ts_get s' h = Some v ∧ keccak v = h) as (v & Hget & Hk).
  { unfold flat_open in Hopen. destruct (FlatDb.open_db d options') as [db'| |] eqn:Hdb; [|done|done].
    injection Hopen as <-.
    destruct (FlatSafety.reopened_reads options _ S0 S p d options' db' h Hopt Hr Hseq Hp Hc Hss Hv Hdb Hh)
      as (v & Hget & Hk). exists v. split; [|done]. simpl. unfold flat_get. cbn [flat_db]. by rewrite Hget. }
  rewrite Hget. f_equal. apply Hinj; [by eapply HV'|by eapply HV|congruence].
Qed.

End runs.


(** The values the slots of a table point at: what a lookup can return. *)
Definition slot_values (db : FlatDb.FlatDb) : list bytes :=
  omap (λ slot, FlatHeap.rec_data <$> FlatHeap.with_record (FlatDb.heap db) (slot - 1)%nat FlatIndex.key_length)
    (FlatIndex.slots (FlatIndex.live (FlatDb.index db))).

Lemma held_slot_values V s : Forall (λ v, v ∈ V) (slot_values (flat_db s)) → held_in V s.
Proof.
  intros HV h m. simpl. unfold flat_get, FlatDb.db_get, FlatIndex.get.
  destruct (_ =? _)%nat; [done|]. rewrite Forall_forall in HV. unfold slot_values in HV.
  set (t := FlatIndex.slots _) in *. generalize (length t) at 1 as fuel, (FlatIndex.first_slot (length t) h) as i.
  induction fuel as [|fuel IH]; intros i; cbn [FlatIndex.get_loop]; [done|].
  destruct (Nat.eqb_spec (FlatIndex.slot_at t i) FlatIndex.EMPTY) as [|Hne]; [done|].
  destruct (FlatIndex.matching _ _ _ h) as [v|] eqn:Hm; [|apply IH]. intros [= ->].
  unfold FlatIndex.matching in Hm. case_match eqn:Hrec; [|done]. case_match; [|done]. injection Hm as <-.
  apply HV, list_elem_of_omap. exists (FlatIndex.slot_at t i). split; [|by rewrite Hrec].
  unfold FlatIndex.slot_at in *. destruct (t !! i) eqn:Hi; [by eapply list_elem_of_lookup_2|done].
Qed.

End store.

(** ** Witness *)

Section witness.
#[local] Existing Instances poly_keccak FlatDb.sum_crc.
#[local] Instance roomy : FlatHeap.Host := FlatHeap.host false.

Definition opened (r : FlatHeap.io FlatTrieStore) : FlatTrieStore :=
  match r with FlatHeap.Done s => s | _ => mkFlatTrieStore FlatDb.closed_db true end.

(** One value put, saved and flushed, and the database opened again. *)
Definition store_0 : FlatTrieStore := opened (flat_open FlatDb.empty_disk FlatDb.small_options).
Definition node_1 : TrieNode := put store_0 empty_node key_a [7].
Definition store_2 : FlatTrieStore := (save store_0 node_1 true).2.
Definition node_2 : TrieNode := (save store_0 node_1 true).1.
Definition store_3 : FlatTrieStore := ts_flush store_2.
Definition disk_3 : FlatDb.Disk := FlatDb.persisted (flat_db store_3).
Definition store_4 : FlatTrieStore := opened (flat_open disk_3 FlatDb.small_options).
Definition strings : gset bytes := {[to_message node_1]}.
Definition saved_root : bytes * contents := (compute_hash node_2, spec_run [OpPut key_a [7]]).

#[local] Ltac evaluate := match goal with |- ?P => apply (bool_decide_unpack P); vm_compute; exact I end.

Lemma run_3 : run FlatDb.small_options strings store_3 node_2 [OpPut key_a [7]; OpSave] [saved_root] [saved_root].
Proof.
  unfold store_3. apply (run_flush _ _ store_2 node_2 _ [saved_root] []).
  - apply (run_save _ _ store_0 node_1 [OpPut key_a [7]] [] []).
    + apply (run_trie _ _ store_0 empty_node [] [] [] (OpPut key_a [7])).
      * apply run_open. vm_compute. reflexivity.
      * discriminate.
      * constructor; [vm_compute; discriminate|discriminate|evaluate].
    + evaluate.
    + vm_compute. reflexivity.
    + evaluate.
    + apply held_slot_values. evaluate.
  - evaluate.
  - apply held_slot_values. evaluate.
Qed.


End witness.
End FlatTrie.
