(* ===== verification/FlatRaces.v ===== *)
(** * FlatDB: writers beside each other, and what goes wrong

    First the protocol of the heap's two cursors, which is safe: writers reserve space
    concurrently, write it in any order and publish it in the order of reservation.
    Then interleavings and crash histories the database does not survive: its batches
    take no lock, while [flush] and [put] rely on nothing changing under them, and [get]
    and [put_many] rely on a table that stale slots have not filled. *)
From S2P Require Import Prelude FlatHeap FlatIndex FlatIndexFacts FlatCheckpoint FlatDb.
From stdpp Require Import strings gmap.
From stdpp Require Import options.
Import FlatHeap FlatIndex FlatIndexFacts FlatCheckpoint FlatDb.

Local Open Scope nat_scope.

Module FlatRaces.

(** ** Reserving and publishing *)

(** The heap and the reservations in flight: from where, up to where, and whether the
    records are written. *)
Record Pool := mkPool { pool_heap : Heap; inflight : list (nat * nat * bool) }.

Inductive pool_step : Pool → Pool → Prop :=
  | step_reserve h rs sizes from start count to :
      sizes ≠ [] → Forall (λ s, 0 < s ≤ segment_size h) sizes →
      reserve_run h sizes = Ok (from, start, count, to) →
      pool_step (mkPool h rs) (mkPool (set_alloc h to) (rs ++ [(from, to, false)]))
  | step_write h rs1 from to rs2 m : take (size h) m = take (size h) (mem h) →
      pool_step (mkPool h (rs1 ++ (from, to, false) :: rs2)) (mkPool (set_mem h m) (rs1 ++ (from, to, true) :: rs2))
  | step_publish h rs1 from to rs2 h' : publish h from to = Some h' →
      pool_step (mkPool h (rs1 ++ (from, to, true) :: rs2)) (mkPool h' (rs1 ++ rs2)).

(** The reservations tile the space between the cursors. *)
Fixpoint tiles (a : nat) (rs : list (nat * nat * bool)) (b : nat) : Prop :=
  match rs with
  | [] => a = b
  | (from, to, _) :: rest => from = a ∧ a < to ∧ tiles to rest b
  end.

Definition pool_ok (p : Pool) : Prop :=
  0 < segment_size (pool_heap p) ∧ tiles (size (pool_heap p)) (inflight p) (alloc (pool_heap p)).

Lemma tiles_snoc a rs b c : tiles a rs b → b < c → tiles a (rs ++ [(b, c, false)]) c.
Proof.
  revert a. induction rs as [|[[f t] w] rs IH]; intros a; cbn [tiles app].
  - intros <- Hbc. by split_and!.
  - intros (-> & Hat & Ht) Hbc. split_and!; [done|done|by apply IH].
Qed.

Lemma tiles_mark a rs1 f t w w' rs2 b : tiles a (rs1 ++ (f, t, w) :: rs2) b → tiles a (rs1 ++ (f, t, w') :: rs2) b.
Proof.
  revert a. induction rs1 as [|[[f1 t1] w1] rs1 IH]; intros a; cbn [tiles app]; [done|].
  intros (-> & Hat & Ht). split_and!; [done|done|by apply IH].
Qed.

Lemma tiles_above a rs b f t w : tiles a rs b → (f, t, w) ∈ rs → a ≤ f.
Proof.
  revert a. induction rs as [|[[f1 t1] w1] rs IH]; intros a; cbn [tiles]; [by intros _ ?%not_elem_of_nil|].
  intros (-> & Hat & Ht) [[= -> -> ->]|Hin]%elem_of_cons; [done|]. specialize (IH _ Ht Hin). lia.
Qed.

(** Only the oldest reservation starts at the frontier. *)
Lemma tiles_front a rs1 t w rs2 b : tiles a (rs1 ++ (a, t, w) :: rs2) b → rs1 = [].
Proof.
  destruct rs1 as [|[[f1 t1] w1] rs1]; [done|]. cbn [tiles app]. intros (-> & Hat & Ht).
  assert (t1 ≤ a); [|lia]. eapply tiles_above; [exact Ht|]. apply elem_of_app. right. left.
Qed.

Lemma fit_run_first room s sizes : 0 < s ≤ room → 0 < (fit_run room 0 0 (s :: sizes)).1.
Proof.
  intros Hs. destruct (fit_run room 0 0 (s :: sizes)) as [used count] eqn:Hf.
  destruct (fit_run_spec room (s :: sizes) 0 0 used count ltac:(lia) Hf) as (k & -> & _ & -> & _ & H1).
  specialize (H1 s sizes eq_refl ltac:(lia)). destruct k as [|k]; [lia|]. simpl. lia.
Qed.

Lemma reserve_advances h sizes from start count to : 0 < segment_size h → sizes ≠ [] →
  Forall (λ s, 0 < s ≤ segment_size h) sizes → reserve_run h sizes = Ok (from, start, count, to) →
  from = alloc h ∧ from < to.
Proof.
  intros Hss Hne Hall. destruct sizes as [|s sizes]; [done|]. apply Forall_cons in Hall as [Hs _].
  unfold reserve_run. cbn [head from_option]. change (id s) with s. set (ss := segment_size h) in *.
  pose proof (Nat.mod_upper_bound (alloc h) ss ltac:(lia)). pose proof (Nat.div_mod_eq (alloc h) ss).
  destruct (Nat.ltb_spec (ss - alloc h mod ss) s) as [Hlt|Hge].
  - pose proof (fit_run_first ss s sizes ltac:(lia)) as Hu. destruct (fit_run ss 0 0 (s :: sizes)) as [used cnt].
    cbn [fst] in Hu. case_match; [done|]. intros [= <- <- <- <-]. split; [done|nia].
  - pose proof (fit_run_first (ss - alloc h mod ss) s sizes ltac:(lia)) as Hu.
    destruct (fit_run _ 0 0 (s :: sizes)) as [used cnt]. cbn [fst] in Hu. case_match; [done|].
    intros [= <- <- <- <-]. split; [done|lia].
Qed.

Lemma pool_step_ok p p' : pool_step p p' → pool_ok p → pool_ok p'.
Proof.
  intros [h rs sizes from start count to Hne Hall Hr|h rs1 from to rs2 m _|h rs1 from to rs2 h' Hpub] [Hss Ht];
    unfold pool_ok; cbn [pool_heap inflight] in *.
  - destruct (reserve_advances _ _ _ _ _ _ Hss Hne Hall Hr) as [-> Hlt].
    split; [done|]. by apply tiles_snoc.
  - split; [done|]. by eapply tiles_mark.
  - unfold publish in Hpub. destruct (Nat.eqb_spec (size h) from) as [<-|]; [|done]. injection Hpub as <-.
    split; [done|]. cbn [size alloc]. pose proof (tiles_front _ _ _ _ _ _ Ht) as ->. cbn [app tiles] in *. apply Ht.
Qed.

Lemma pool_reach_ok p p' : rtc pool_step p p' → pool_ok p → pool_ok p'.
Proof. induction 1 as [|p1 p2 p3 Hs _ IH]; [done|]. intros Hok. apply IH. by eapply pool_step_ok. Qed.

(** C30: any number of writers may reserve, write and publish at once.  The published
    frontier never passes a reservation that is still in flight, so no reader sees bytes
    before they are written; and the writers cannot block each other for good: once the
    oldest reservation is written it can be published. *)
Theorem frontier_protocol p p' (Hok : pool_ok p) (Hsteps : rtc pool_step p p') :
  (∀ from to w, (from, to, w) ∈ inflight p' → size (pool_heap p') ≤ from)
  ∧ ∀ from to rest, inflight p' = (from, to, true) :: rest → publish (pool_heap p') from to ≠ None.
Proof.
  pose proof (pool_reach_ok _ _ Hsteps Hok) as [_ Ht]. split.
  - intros from to w Hin. by eapply tiles_above.
  - intros from to rest Hin. rewrite Hin in Ht. destruct Ht as (-> & _). unfold publish. by rewrite Nat.eqb_refl.
Qed.

Lemma frontier_protocol_witness :
  let h := mkHeap (replicate 16 0%Z) (replicate 16 0%Z) 1 16 0 0 None in
  let p' := mkPool (set_alloc (set_alloc h 6) 10) [(0, 6, true); (6, 10, false)] in
  publish (pool_heap p') 0 6 ≠ None.
Proof.
  intros h p'. apply (frontier_protocol (mkPool h []) p') with (rest := [(6, 10, false)]); [..|reflexivity].
  - split; [simpl; lia|reflexivity].
  - eapply rtc_l; [eapply (step_reserve h [] [6]); [done|repeat constructor; simpl; lia|vm_compute; reflexivity]|].
    eapply rtc_l; [eapply (step_reserve _ _ [4]); [done|repeat constructor; simpl; lia|vm_compute; reflexivity]|].
    eapply rtc_l; [apply (step_write _ [] 0 6 [(6, 10, false)] (mem h)); reflexivity|]. apply rtc_refl.
Defined.

(** ** Histories the database does not survive *)

Section histories.
#[local] Existing Instance poly_keccak.
#[local] Existing Instance sum_crc.
#[local] Instance no_failures : Host := host false.

Lemma crash_unwritten db : length (durable (heap db)) = length (mem (heap db)) →
  map_Forall (λ _ T, length (synced T) = length (slots T)) (tables (index db)) → crash db (unwritten db).
Proof using Type.
  intros Hl Ht. constructor; [done|by intros o ->| |done].
  intros c T HT. exists (synced T). cbn [unwritten disk_index]. rewrite lookup_fmap, HT.
  split; [done|]. split; [by apply (Ht c)|]. by right.
Qed.

#[local] Ltac decide_goal := match goal with |- ?P => apply (bool_decide_unpack P); vm_compute; exact I end.

Definition reopen (d : Disk) : FlatDb := result_of (open_db d small_options).
Definition row (v : bytes) : bytes * bytes := (keccak v, v).
Definition stored (db : FlatDb) (vs : list bytes) : FlatDb := (batch_unsynced db (row <$> vs)).2.
Definition lookup (db : FlatDb) (v : bytes) : io (option bytes) := db_get db (keccak v).

(** A new database of sixteen slots, with a checkpoint of its own. *)
Definition fresh_db : FlatDb := flush (stored (reopen empty_disk) [[100]])%Z.

(** [save] takes no lock against batches: a batch between the write back of the pages and
    the clearing of the flag. *)
Definition flush_with_batch (db : FlatDb) (vs : list bytes) : FlatDb :=
  let heap_size := committed_heap_size db in
  let cap := capacity (index db) in
  let size := entries (index db) in
  let db := flush_force db in
  let db := with_index db (save_sync (index db)) in
  let db := stored db vs in
  let db := with_index db (save_clear (index db)) in
  flush_clean (flush_write heap_size cap size db).

(** A batch that runs between the two steps of [Index::save] has its dirty flag
    cleared by the flush that did not write its slots.  The next flush returns success
    without writing them either, and a crash after it loses the batch. *)
Theorem flush_races_batch :
  let v := [1; 2; 3]%Z in
  let raced := flush_with_batch (stored fresh_db [[7]%Z]) [v] in
  let flushed := flush raced in
  lookup flushed v = Done (Some v)
  ∧ checkpoint flushed ≠ checkpoint raced
  ∧ crash flushed (unwritten flushed)
  ∧ lookup (reopen (unwritten flushed)) v = Done None.
Proof.
  intros v raced flushed.
  split; [vm_compute; reflexivity|]. split; [vm_compute; discriminate|].
  split; [apply crash_unwritten; [vm_compute; reflexivity|by decide_goal]|].
  vm_compute. reflexivity.
Qed.

(** A batch that grows the table between the watermarks a flush read and its clean-up. *)
Definition flush_with_growth (db : FlatDb) (vs : list bytes) : FlatDb :=
  let heap_size := committed_heap_size db in
  let cap := capacity (index db) in
  let size := entries (index db) in
  let db := flush_save (flush_force db) in
  let db := stored db vs in
  flush_clean (flush_write heap_size cap size db).

(** The eight values of one byte each from [n]. *)
Definition eight (n : Z) : list bytes := (λ i, [n + Z.of_nat i]%Z) <$> seq 0 8.

(** A batch that grows the table while a flush runs leaves a checkpoint naming the
    old table, whose file that flush then removes.  A crash at that point loses every key,
    also those an earlier flush had made durable. *)
Theorem flush_races_growth :
  let raced := flush_with_growth (stored fresh_db [[7]%Z]) (eight 0) in
  lookup fresh_db [100%Z] = Done (Some [100%Z])
  ∧ lookup raced [100%Z] = Done (Some [100%Z])
  ∧ crash raced (persisted raced)
  ∧ db_keys (reopen (persisted raced)) = ∅.
Proof.
  intros raced. split; [vm_compute; reflexivity|]. split; [vm_compute; reflexivity|].
  split; [apply crash_persisted|]. vm_compute. reflexivity.
Qed.

(** [put] holds the writer mutex, which batches do not take: a batch between its probe
    and its store. *)
Definition put_with_batch (db : FlatDb) (key value : bytes) (vs : list bytes) : FlatDb :=
  let t := slots (live (index db)) in
  match put_probe (length t) (heap db) t key value (first_slot (length t) key) None with
  | InsertAt target =>
      let db := stored db vs in
      let '(_, idx, h) := insert_at (index db) (heap db) target key value in
      with_both db h idx
  | _ => db
  end.

(** A batch that claims the slot a concurrent [put] has chosen is overwritten by that
    [put]'s plain store: the batch returned success and its key is gone. *)
Theorem put_races_batch :
  let raced := put_with_batch fresh_db (keccak [0%Z]) [0%Z] [[16%Z]] in
  lookup raced [0%Z] = Done (Some [0%Z])
  ∧ lookup raced [16%Z] = Done None
  ∧ lookup (stored fresh_db [[16%Z]]) [16%Z] = Done (Some [16%Z]).
Proof. intros raced. split_and!; vm_compute; reflexivity. Qed.

(** *** Stale slots *)

(** A batch that is never flushed, and a crash that kept its slots. *)
Definition lost_batch (db : FlatDb) (vs : list bytes) : FlatDb := reopen (persisted (stored db vs)).

(** Two such batches fill the sixteen slots. *)
Definition stale_db : FlatDb := lost_batch (lost_batch (flush (reopen empty_disk)) (eight 0)) (eight 8).

(** The loop of [FlatDb::get] on this state, for any number of turns. *)
Definition get_turns (fuel : nat) (db : FlatDb) (key : bytes) : io (option bytes) :=
  let t := slots (live (index db)) in
  get_loop fuel (verify_long_records (index db)) (heap db) t key (first_slot (length t) key).

(** The slots of batches that crashes discarded stay in the table, and [get] stops
    only at an empty slot or at the key.  After two such batches of eight no slot of
    sixteen is empty, and looking up any absent key never returns. *)
Theorem get_never_returns (fuel : nat) (key : bytes) : get_turns fuel stale_db key = Hangs.
Proof.
  unfold get_turns. apply get_loop_hangs.
  - exists 4. vm_compute. reflexivity.
  - set (t := slots (live (index stale_db))). assert (Forall (λ s, s ≠ EMPTY) t) as Ht by decide_goal.
    intros i Hi. destruct (lookup_lt_is_Some_2 t i Hi) as [s Hs]. unfold slot_at. rewrite Hs.
    by apply (Forall_lookup_1 _ _ _ _ Ht Hs).
  - intros i _. assert (size (heap stale_db) = 0) as Hsize by (vm_compute; reflexivity).
    unfold matching, with_record. by rewrite Hsize.
  - apply first_slot_lt. exists 4. vm_compute. reflexivity.
Qed.

(** On the same table a batch returns success and loses a row: no slot is empty for
    it, [claim_slot] gives up after one turn around the table, and [put_many] takes that
    for a row another writer has published. *)
Theorem batch_loses_rows :
  let v := [1; 2; 3]%Z in
  let w := [4; 5; 6]%Z in
  let result := update_batch stale_db [row v; row w] in
  result.1 = Done tt ∧ keccak w ∉ db_keys result.2.
Proof. intros v w result. split; [vm_compute; reflexivity|decide_goal]. Qed.

(** *** Damaged records *)

(** A value longer than [STORE_KEY_THRESHOLD], stored, flushed, and one byte of it
    damaged on the device. *)
Definition long_value : bytes := replicate 1025 7%Z.
Definition wide_options : Options := mkOptions 8 false false true 2048.
Definition damaged_db : FlatDb :=
  let d := persisted (flush (stored (result_of (open_db empty_disk wide_options)) [long_value])) in
  result_of (open_db (mkDisk (<[500 := 255%Z]> (disk_heap d)) (disk_index d) (disk_ckpt d)) wide_options).

(** [get] reports a damaged long record as missing, and the value cannot be written
    again: a batch takes the record for present and does nothing, and [put] fails. *)
Theorem damage_is_permanent :
  lookup damaged_db long_value = Done None
  ∧ update_batch damaged_db [row long_value] = (Done tt, damaged_db)
  ∧ ∃ e, (db_put damaged_db (keccak long_value) long_value).1 = Fails e.
Proof.
  split; [vm_compute; reflexivity|]. split; [vm_compute; reflexivity|]. eexists. vm_compute. reflexivity.
Qed.

End histories.

End FlatRaces.
