(* ===== verification/EpochStore.v ===== *)
(** * The epoch store and its collector: storage/src/epoch_store.rs

    A trie store split into epochs, each a database of its own.  Only the newest is
    written; a collection cycle marks what a buried state root reaches, copies the marked
    entries of the oldest epoch into the newest, and deletes the oldest.

    This file holds the definitions: the trait of a backend ([epoch_backend.rs]), the
    store's state, its reads and writes, the walk that marks, the drain, the sweep and the
    cycle made of them.  EpochMark proves the walk, EpochGc the cycle.

    The databases, the directory they live in and the removal of one are parameters.  The
    atomic counters of reads and writes and the durations of [CollectStats] are left out:
    nothing reads them. *)
From S2P Require Import Prelude Store Node.
From stdpp Require Import strings gmap sorting.
From stdpp Require Import options.

Module EpochStore.
Import Store Node.
Local Open Scope Z_scope.

(** ** One epoch's storage: the trait [EpochBackend]

    A write returns its outcome with the database after it; a scan, the entries it visited
    and the error that ended it, if one did. *)
Class EpochBackend (B : Type) := {
  eb_get : B → bytes → option bytes;
  eb_get_many : B → list bytes → list (option bytes);
  eb_put : B → bytes → bytes → result unit string * B;
  eb_put_many : B → list (bytes * bytes) → result unit string * B;
  eb_flush : B → result unit string * B;
  eb_is_empty : B → bool;
  eb_for_each : B → list (bytes * bytes) * option string;
  eb_size_bytes : B → Z;
}.

(** The trait's default [get_many]. *)
Definition default_get_many {B} (get : B → bytes → option bytes) (b : B) (keys : list bytes)
    : list (option bytes) := get b <$> keys.

(** What the store relies on, for entries filed under the hash of their content.  A read
    gives bytes with the hash asked for; a write that reports success keeps what was there
    and adds what it was given, and one that fails loses nothing; a scan that ends without
    an error visits every key.  [eb_ok] is the backend's own invariant. *)
Class EpochBackendLaws (B : Type) `{Keccak} `{EpochBackend B} := {
  eb_ok : B → Prop;
  eb_get_hash b k v : eb_ok b → eb_get b k = Some v → keccak v = k;
  eb_get_many_eq b keys : eb_ok b → eb_get_many b keys = eb_get b <$> keys;
  eb_put_many_done b l b' :
    eb_ok b → (∀ k v, (k, v) ∈ l → keccak v = k) → eb_put_many b l = (Ok tt, b') →
    eb_ok b' ∧ ∀ k, is_Some (eb_get b k) ∨ k ∈ l.*1 → is_Some (eb_get b' k);
  eb_put_many_failed b l e b' :
    eb_ok b → (∀ k v, (k, v) ∈ l → keccak v = k) → eb_put_many b l = (Err e, b') →
    (∀ k v, eb_get b' k = Some v → keccak v = k) ∧ ∀ k, is_Some (eb_get b k) → is_Some (eb_get b' k);
  eb_flush_done b res b' :
    eb_ok b → eb_flush b = (res, b') → eb_ok b' ∧ ∀ k, is_Some (eb_get b' k) ↔ is_Some (eb_get b k);
  eb_for_each_hash b k v : eb_ok b → (k, v) ∈ (eb_for_each b).1 → keccak v = k;
  eb_for_each_done b l k : eb_ok b → eb_for_each b = (l, None) → is_Some (eb_get b k) → k ∈ l.*1;
}.

(** The factory and the directory: opening the epoch of a sequence number, the error of
    removing its directory, and whether a small record of the store can be written. *)
Class EpochHost (B : Type) := {
  factory_open : Z → result B string;
  remove_dir_all : Z → option string;
  record_writable : string → bool;
}.

Definition COLLECTED_BELOW : string := "collected-below".
Definition SWEEP_LOG : string := "sweep-log".

(** ** State *)

Record EpochConfig := mkEpochConfig {
  cfg_epochs : nat;
  burial_depth : Z;
  rotate_bytes : Z;
}.

Definition default_config : EpochConfig := mkEpochConfig 4 4000 (Z.shiftl 1 30).

Definition config_validate (c : EpochConfig) : result unit string :=
  if (cfg_epochs c <? 3)%nat then Err "epochs must be at least 3"%string else Ok tt.

Record Epoch (B : Type) := mkEpoch {
  seq : Z;
  backend : B;
  last_block : option Z;
}.
Arguments mkEpoch {_}. Arguments seq {_}. Arguments backend {_}. Arguments last_block {_}.

Record SweepRecord := mkSweepRecord {
  sw_seq : Z;
  sw_last_block : Z;
  swept_at : Z;
  sw_reclaimed_bytes : Z;
}.

Record CollectStats := mkCollectStats {
  marked : Z;
  scanned : Z;
  drained : Z;
  drained_bytes : Z;
  reclaimed_bytes : Z;
  pinned : Z;
  unservable : list bytes;
}.

Definition default_stats : CollectStats := mkCollectStats 0 0 0 0 0 0 [].

(** [epochs] is oldest first.  The two records of the store's directory are fields. *)
Record EpochTrieStore (B : Type) := mkEpochStore {
  config : EpochConfig;
  epochs : list (Epoch B);
  next_seq : Z;
  newest_written : Z;
  read_only : bool;
  collecting : bool;
  last_collect : option CollectStats;
  collected_below : option Z;
  sweep_log : list SweepRecord;
}.
Arguments mkEpochStore {_}. Arguments config {_}. Arguments epochs {_}.
Arguments next_seq {_}. Arguments newest_written {_}. Arguments read_only {_}.
Arguments collecting {_}. Arguments last_collect {_}. Arguments collected_below {_}.
Arguments sweep_log {_}.

(** How the walk ends: the marks and how many entries were missing, or the panic of
    [from_message] on bytes that are not a node. *)
Inductive walked :=
  | Walked (live : gset bytes) (missing : nat)
  | WalkPanics
  | WalkUnfinished.

(** What a cycle gives: a value or an error, the panic, or a walk the fuel cut short. *)
Inductive outcome (A : Type) :=
  | Returns (r : result A string)
  | Panics
  | Unfinished.
Arguments Returns {_}. Arguments Panics {_}. Arguments Unfinished {_}.

(** A drain on its way: the counts, the batch not yet written, the first failure and the
    epoch written into. *)
Record Draining (B : Type) := mkDraining {
  dr_scanned : Z;
  dr_drained : Z;
  dr_bytes : Z;
  dr_pending : list (bytes * bytes);
  dr_failure : option string;
  dr_newest : B;
}.
Arguments mkDraining {_}. Arguments dr_scanned {_}. Arguments dr_drained {_}.
Arguments dr_bytes {_}. Arguments dr_pending {_}. Arguments dr_failure {_}.
Arguments dr_newest {_}.

Section store.
Context `{Keccak}.
Context {B : Type} `{EpochBackend B} `{EpochHost B}.
Implicit Types (s : EpochTrieStore B) (es : list (Epoch B)) (b : B).

Definition with_epochs s es : EpochTrieStore B :=
  mkEpochStore (config s) es (next_seq s) (newest_written s) (read_only s) (collecting s)
    (last_collect s) (collected_below s) (sweep_log s).
Definition with_written s (n : Z) : EpochTrieStore B :=
  mkEpochStore (config s) (epochs s) (next_seq s) n (read_only s) (collecting s)
    (last_collect s) (collected_below s) (sweep_log s).
Definition with_next_seq s (n : Z) : EpochTrieStore B :=
  mkEpochStore (config s) (epochs s) n (newest_written s) (read_only s) (collecting s)
    (last_collect s) (collected_below s) (sweep_log s).
Definition with_collecting s (c : bool) : EpochTrieStore B :=
  mkEpochStore (config s) (epochs s) (next_seq s) (newest_written s) (read_only s) c
    (last_collect s) (collected_below s) (sweep_log s).
Definition with_last_collect s (c : option CollectStats) : EpochTrieStore B :=
  mkEpochStore (config s) (epochs s) (next_seq s) (newest_written s) (read_only s)
    (collecting s) c (collected_below s) (sweep_log s).
Definition with_records s (w : option Z) (l : list SweepRecord) : EpochTrieStore B :=
  mkEpochStore (config s) (epochs s) (next_seq s) (newest_written s) (read_only s)
    (collecting s) (last_collect s) w l.

Definition with_backend (e : Epoch B) b : Epoch B := mkEpoch (seq e) b (last_block e).
Definition closed_at (e : Epoch B) (n : Z) : Epoch B := mkEpoch (seq e) (backend e) (Some n).

(** A change to the last element of a list, where there is one. *)
Fixpoint alter_last {A} (f : A → A) (l : list A) : list A :=
  match l with
  | [] => []
  | [x] => [f x]
  | x :: l' => x :: alter_last f l'
  end.

(** ** Reads *)

(** The epochs are asked in turn, up to the first that has the key. *)
Fixpoint probe es (key : bytes) : option bytes :=
  match es with
  | [] => None
  | e :: rest =>
      match eb_get (backend e) key with
      | Some v => Some v
      | None => probe rest key
      end
  end.

Definition es_get s (key : bytes) : option bytes := probe (rev (epochs s)) key.

(** One epoch's answers: they fill their positions, and what is still missing is carried
    on. *)
Fixpoint fill (outstanding : list nat) (found out : list (option bytes))
    : list (option bytes) * list nat :=
  match outstanding, found with
  | index :: outstanding', value :: found' =>
      match value with
      | Some v => fill outstanding' found' (<[index := Some v]> out)
      | None =>
          let '(out, still_missing) := fill outstanding' found' out in
          (out, index :: still_missing)
      end
  | _, _ => (out, [])
  end.

Fixpoint get_many_rounds es (keys : list bytes) (outstanding : list nat)
    (out : list (option bytes)) : list (option bytes) :=
  match es with
  | [] => out
  | e :: rest =>
      if decide (outstanding = []) then out
      else
        let wanted := (λ i, nth i keys []) <$> outstanding in
        let '(out, outstanding) := fill outstanding (eb_get_many (backend e) wanted) out in
        get_many_rounds rest keys outstanding out
  end.

Definition es_get_many s (keys : list bytes) : list (option bytes) :=
  get_many_rounds (rev (epochs s)) keys (List.seq 0 (length keys)) (replicate (length keys) None).

(** ** Writes

    [None] is the panic of a write to a store opened read-only.  An error of the database
    is logged, and not returned. *)

Definition entry_bytes (entries : list (bytes * bytes)) : Z :=
  foldl (λ n e, u64 (n + Z.of_nat (length e.1 + length e.2))) 0 entries.

Definition es_put s (key value : bytes) : option (EpochTrieStore B) :=
  if read_only s then None
  else
    let s := with_written s (u64 (newest_written s + Z.of_nat (length key + length value))) in
    Some (with_epochs s
            (alter_last (λ e, with_backend e (eb_put (backend e) key value).2) (epochs s))).

Definition es_put_many s (entries : list (bytes * bytes)) : option (EpochTrieStore B) :=
  if read_only s then None
  else if decide (entries = []) then Some s
  else
    let s := with_written s (u64 (newest_written s + entry_bytes entries)) in
    Some (with_epochs s
            (alter_last (λ e, with_backend e (eb_put_many (backend e) entries).2) (epochs s))).

(** Every epoch is flushed; the first error is the one returned. *)
Fixpoint flush_each es : option string * list (Epoch B) :=
  match es with
  | [] => (None, [])
  | e :: rest =>
      let '(res, b) := eb_flush (backend e) in
      let '(later, rest) := flush_each rest in
      (match res with Err err => Some err | Ok _ => later end, with_backend e b :: rest)
  end.

Definition es_flush s : result unit string * EpochTrieStore B :=
  let '(first_error, es) := flush_each (epochs s) in
  (match first_error with Some e => Err e | None => Ok tt end, with_epochs s es).

#[global] Instance epoch_trie_store : TrieStore (EpochTrieStore B) := {
  ts_get := es_get;
  ts_put s k v := default s (es_put s k v);
  ts_put_many s l := default s (es_put_many s l);
  ts_flush s := (es_flush s).2;
  ts_collected_below := collected_below;
}.

(** ** Sizes and the trigger *)

Definition newest_bytes s : Z :=
  match last (epochs s) with Some e => eb_size_bytes (backend e) | None => 0 end.

Definition total_bytes s : Z :=
  foldl (λ n e, u64 (n + eb_size_bytes (backend e))) 0 (epochs s).

Definition epoch_count s : nat := length (epochs s).

Definition should_collect s : bool := rotate_bytes (config s) <=? newest_written s.

(** ** Opening *)

(** An epoch behind the newest that has no record of its highest block is closed at the
    block execution resumes from, where that is known. *)
Definition close_inherited (resume_at : option Z) (e : Epoch B) : Epoch B :=
  match last_block e, resume_at with
  | None, Some n => closed_at e n
  | _, _ => e
  end.

Fixpoint close_behind_newest (resume_at : option Z) es : list (Epoch B) :=
  match es with
  | [] => []
  | [e] => [e]
  | e :: rest => close_inherited resume_at e :: close_behind_newest resume_at rest
  end.

Fixpoint open_epochs (read_last_block : Z → option Z) (seqs : list Z)
    : result (list (Epoch B)) string :=
  match seqs with
  | [] => Ok []
  | q :: rest =>
      let? b := factory_open q in
      let? es := open_epochs read_last_block rest in
      Ok (mkEpoch q b (read_last_block q) :: es)
  end.

(** [listing] is the sequence numbers of the directories found, [read_last_block] the
    record each holds, [records] the two of the store. *)
Definition open_with (listing : list Z) (read_last_block : Z → option Z)
    (records : option Z * list SweepRecord) (cfg : EpochConfig) (resume_at : option Z)
    : result (EpochTrieStore B) string :=
  let? _ := config_validate cfg in
  let seqs := merge_sort Z.le listing in
  let seqs := if decide (seqs = []) then [0] else seqs in
  let? es := open_epochs read_last_block seqs in
  let next := u64 (default 0 (last seqs) + 1) in
  let? opened :=
    (match es with
     | [e] =>
         if eb_is_empty (backend e) then Ok (es, next)
         else
           let? b := factory_open next in
           Ok ([e; mkEpoch next b None], u64 (next + 1))
     | _ => Ok (es, next)
     end) in
  let '(es, next) := opened in
  let es := close_behind_newest resume_at es in
  let written := match last es with Some e => eb_size_bytes (backend e) | None => 0 end in
  Ok (mkEpochStore cfg es next written false false None records.1 records.2).

(** ** Marking *)

(** What one node keeps alive: its long value, its children by hash, and what an embedded
    child points at.  A child is queued when its hash was not yet marked. *)
Fixpoint mark_node (node : TrieNode) (live : gset bytes) (next : list bytes)
    : gset bytes * list bytes :=
  let live :=
    if has_long_value node then
      match value_hash node with Some vh => {[vh]} ∪ live | None => live end
    else live in
  let mark_child (child : NodeRef TrieNode) (acc : gset bytes * list bytes) :=
    let '(live, next) := acc in
    match child with
    | RefHash h => if decide (h ∈ live) then (live, next) else ({[h]} ∪ live, next ++ [h])
    | RefNode embedded => mark_node embedded live next
    | RefEmpty => (live, next)
    end in
  mark_child (right_ref node) (mark_child (left_ref node) (live, next)).

(** [frontier.retain(|h| live.insert(h))]. *)
Fixpoint retain_new (frontier : list bytes) (live : gset bytes) : list bytes * gset bytes :=
  match frontier with
  | [] => ([], live)
  | h :: rest =>
      if decide (h ∈ live) then retain_new rest live
      else let '(kept, live) := retain_new rest ({[h]} ∪ live) in (h :: kept, live)
  end.

(** One level: [None] is the panic. *)
Fixpoint mark_level s (values : list (option bytes)) (live : gset bytes) (next : list bytes)
    (missing : nat) : option (gset bytes * list bytes * nat) :=
  match values with
  | [] => Some (live, next, missing)
  | None :: rest => mark_level s rest live next (S missing)
  | Some data :: rest =>
      match try_from_message s data with
      | None => None
      | Some node => let '(live, next) := mark_node node live next in mark_level s rest live next missing
      end
  end.

Fixpoint walk_levels (fuel : nat) s (live : gset bytes) (frontier : list bytes) (missing : nat)
    : walked :=
  match frontier with
  | [] => Walked live missing
  | _ =>
      match fuel with
      | O => WalkUnfinished
      | S fuel' =>
          match mark_level s (es_get_many s frontier) live [] missing with
          | None => WalkPanics
          | Some (live, next, missing) => walk_levels fuel' s live next missing
          end
      end
  end.

Definition walk (fuel : nat) s (live : gset bytes) (frontier : list bytes) : walked :=
  let '(frontier, live) := retain_new frontier live in walk_levels fuel s live frontier 0.

(** The pins, one after the other: those that miss entries are reported. *)
Fixpoint mark_pins (fuel : nat) s (live : gset bytes) (pins lost : list bytes)
    : outcome (gset bytes * list bytes) :=
  match pins with
  | [] => Returns (Ok (live, lost))
  | pin :: rest =>
      match walk fuel s live [pin] with
      | Walked live missing =>
          mark_pins fuel s live rest (if (0 <? missing)%nat then lost ++ [pin] else lost)
      | WalkPanics => Panics
      | WalkUnfinished => Unfinished
      end
  end.

Definition mark (fuel : nat) s (root_hash : bytes) (pins : list bytes)
    : outcome (gset bytes * list bytes * Z) :=
  match walk fuel s ∅ [root_hash] with
  | Walked live missing =>
      if (0 <? missing)%nat then Returns (Err "mark found referenced entries missing"%string)
      else
        let base := size live in
        match mark_pins fuel s live pins [] with
        | Returns (Ok (live, lost)) => Returns (Ok (live, lost, Z.of_nat (size live - base)))
        | Returns (Err e) => Returns (Err e)
        | Panics => Panics
        | Unfinished => Unfinished
        end
  | WalkPanics => Panics
  | WalkUnfinished => Unfinished
  end.

(** ** Draining *)

Definition DRAIN_BATCH : Z := 10000.

(** The visitor of [for_each].  After a failed write it counts, and writes no more. *)
Definition drain_visit (live : gset bytes) (d : Draining B) (entry : bytes * bytes) : Draining B :=
  let '(k, v) := entry in
  let scanned := u64 (dr_scanned d + 1) in
  if decide (length k = 32%nat ∧ k ∈ live) then
    let drained := u64 (dr_drained d + 1) in
    let bytes := u64 (dr_bytes d + Z.of_nat (length v)) in
    match dr_failure d with
    | Some _ =>
        mkDraining scanned drained bytes (dr_pending d) (dr_failure d) (dr_newest d)
    | None =>
        let pending := dr_pending d ++ [(k, v)] in
        if DRAIN_BATCH <=? Z.of_nat (length pending) then
          let '(res, newest) := eb_put_many (dr_newest d) pending in
          mkDraining scanned drained bytes []
            (match res with Err e => Some e | Ok _ => None end) newest
        else mkDraining scanned drained bytes pending None (dr_newest d)
    end
  else
    mkDraining scanned (dr_drained d) (dr_bytes d) (dr_pending d) (dr_failure d) (dr_newest d).

Definition set_newest s b : EpochTrieStore B :=
  with_epochs s (alter_last (λ e, with_backend e b) (epochs s)).

Definition drain s (live : gset bytes) : result (Z * Z * Z) string * EpochTrieStore B :=
  match head (epochs s), last (epochs s) with
  | Some oldest, Some newest =>
      let '(visited, scan_error) := eb_for_each (backend oldest) in
      let d := foldl (drain_visit live) (mkDraining 0 0 0 [] None (backend newest)) visited in
      match scan_error, dr_failure d with
      | Some e, _ | None, Some e => (Err e, set_newest s (dr_newest d))
      | None, None =>
          let '(res, b) := eb_put_many (dr_newest d) (dr_pending d) in
          match res with
          | Err e => (Err e, set_newest s b)
          | Ok _ =>
              let '(res, b) := eb_flush b in
              (match res with
               | Err e => Err e
               | Ok _ => Ok (dr_scanned d, dr_drained d, dr_bytes d)
               end, set_newest s b)
          end
      end
  | _, _ => (Ok (0, 0, 0), s)
  end.

(** ** Sweeping and rotating *)

(** The two records are small files; a write that fails is logged. *)
Definition record_sweep s (r : SweepRecord) : EpochTrieStore B :=
  with_records s
    (if decide (default 0 (collected_below s) < sw_last_block r
                ∧ record_writable COLLECTED_BELOW = true)
     then Some (sw_last_block r) else collected_below s)
    (if record_writable SWEEP_LOG then sweep_log s ++ [r] else sweep_log s).

Definition close_newest es (current_block : Z) : list (Epoch B) :=
  alter_last (λ e, match last_block e with
                   | None => closed_at e current_block
                   | Some _ => e
                   end) es.

(** A failed [open] returns after the newest epoch was closed and a number taken. *)
Definition rotate_only s (current_block : Z) : result unit string * EpochTrieStore B :=
  let s := with_epochs s (close_newest (epochs s) current_block) in
  let q := next_seq s in
  let s := with_next_seq s (u64 (q + 1)) in
  match factory_open q with
  | Err e => (Err e, s)
  | Ok b => (Ok tt, with_written (with_epochs s (epochs s ++ [mkEpoch q b None])) 0)
  end.

(** The oldest epoch leaves the list before its directory is removed. *)
Definition sweep_and_rotate s (current_block : Z) : result Z string * EpochTrieStore B :=
  let rotate s reclaimed :=
    let '(res, s) := rotate_only s current_block in
    (match res with Ok _ => Ok reclaimed | Err e => Err e end, s) in
  match epochs s with
  | old :: rest =>
      if (cfg_epochs (config s) <=? length (epochs s))%nat then
        let size := eb_size_bytes (backend old) in
        let s := with_epochs s rest in
        match remove_dir_all (seq old) with
        | Some e => (Err e, s)
        | None =>
            let s :=
              match last_block old with
              | Some n => record_sweep s (mkSweepRecord (seq old) n current_block size)
              | None => s
              end in
            rotate s size
        end
      else rotate s 0
  | [] => rotate s 0
  end.

(** ** The cycle *)

(** What [collect_inner] requires of the oldest epoch before it marks. *)
Definition may_sweep s (root_block : Z) : result unit string :=
  match head (epochs s) with
  | None => Err "no epochs"%string
  | Some oldest =>
      match last_block oldest with
      | Some b =>
          if b <=? root_block then Ok tt
          else Err "the oldest epoch received writes above the collection root"%string
      | None => Err "the oldest epoch has no record of the highest block it holds"%string
      end
  end.

Definition in_store s (h : bytes) : bool := bool_decide (is_Some (es_get s h)).

Definition collect_inner (fuel : nat) s (root_hash : bytes) (pins : list bytes)
    (root_block current_block : Z) : outcome CollectStats * EpochTrieStore B :=
  if negb (in_store s root_hash) then
    (Returns (Err "collection root is not in the store"%string), s)
  else if (epoch_count s <? cfg_epochs (config s))%nat then
    let '(res, s) := rotate_only s current_block in
    (Returns (match res with Ok _ => Ok default_stats | Err e => Err e end), s)
  else
    match may_sweep s root_block with
    | Err e => (Returns (Err e), s)
    | Ok _ =>
        let present := filter (λ p, in_store s p = true) pins in
        let absent := filter (λ p, in_store s p = false) pins in
        match mark fuel s root_hash present with
        | Panics => (Panics, s)
        | Unfinished => (Unfinished, s)
        | Returns (Err e) => (Returns (Err e), s)
        | Returns (Ok (live, lost, pinned)) =>
            match drain s live with
            | (Err e, s) => (Returns (Err e), s)
            | (Ok (scanned, drained, bytes), s) =>
                match sweep_and_rotate s current_block with
                | (Err e, s) => (Returns (Err e), s)
                | (Ok reclaimed, s) =>
                    (Returns (Ok (mkCollectStats (Z.of_nat (size live)) scanned drained bytes
                       reclaimed pinned (lost ++ absent))), s)
                end
            end
        end
    end.

(** The flag refuses a second cycle.  A panic leaves it set. *)
Definition collect_pinned (fuel : nat) s (root_hash : bytes) (pins : list bytes)
    (root_block current_block : Z) : outcome CollectStats * EpochTrieStore B :=
  if collecting s then (Returns (Err "a collection cycle is already running"%string), s)
  else
    match collect_inner fuel (with_collecting s true) root_hash pins root_block current_block with
    | (Returns (Ok stats), s) =>
        (Returns (Ok stats), with_last_collect (with_collecting s false) (Some stats))
    | (Returns (Err e), s) => (Returns (Err e), with_collecting s false)
    | (o, s) => (o, s)
    end.

Definition collect (fuel : nat) s (root_hash : bytes) (root_block current_block : Z)
    : outcome CollectStats * EpochTrieStore B :=
  collect_pinned fuel s root_hash [] root_block current_block.

End store.
End EpochStore.
