(* ===== verification/EpochMark.v ===== *)
(** * What a collection marks: the walk of storage/src/epoch_store.rs

    Reads over the epochs, and the walk.  [needs t] are the keys a reader of the tree [t]
    asks the store for; the walk from the root of a tree the store holds marks them all,
    provided no long value of the tree is the message of one of its nodes: the marks of
    values and of nodes share one set, and a node marked as a value is not walked. *)
From S2P Require Import Prelude Path Varint Store Node Unitrie NodeCodec NodeRefine NodeSave Trie EpochStore.
From stdpp Require Import strings gmap.
From stdpp Require Import options.

Module EpochMark.
Import Store Node Unitrie NodeCodec NodeRefine NodeSave Trie EpochStore.
Local Open Scope Z_scope.

(** ** The keys of a tree *)

Section needs.
Context `{Keccak}.

Definition hash_of (t : tree) : bytes := keccak (to_message (mem t)).

(** The entries below a tree: its long values, and its nodes that are not embedded. *)
Inductive needs : tree → bytes → Prop :=
  | needs_value t v : tval t = Some v → (32 < length v)%nat → needs t (keccak v)
  | needs_child t b c : child t b = Some c → is_embeddable (mem c) = false → needs t (hash_of c)
  | needs_below t b c k : child t b = Some c → needs c k → needs t k.

(** A node of a tree. *)
Inductive below : tree → tree → Prop :=
  | below_refl t : below t t
  | below_child t b c x : child t b = Some c → below c x → below t x.

(** The hash of a node that has an entry of its own, and of a long value. *)
Definition node_hash (t : tree) (h : bytes) : Prop :=
  ∃ c, below t c ∧ (c = t ∨ is_embeddable (mem c) = false) ∧ h = hash_of c.
Definition value_of (t : tree) (h : bytes) : Prop :=
  ∃ c v, below t c ∧ tval c = Some v ∧ (32 < length v)%nat ∧ h = keccak v.

(** No long value of the trees is the message of one of their nodes. *)
Definition apart (ts : list tree) : Prop :=
  ∀ t t' h, t ∈ ts → t' ∈ ts → value_of t h → node_hash t' h → False.

Lemma below_trans t c x : below t c → below c x → below t x.
Proof. induction 1; [done|]. intros. econstructor; eauto. Qed.

Lemma embeddable_leaf t b : is_embeddable (mem t) = true → child t b = None.
Proof.
  unfold is_embeddable, is_terminal. rewrite mem_eq. cbn [left_ref right_ref]. rewrite !mem_ref_empty.
  destruct t as [p v [l|] [r|]]; destruct b; simpl; done.
Qed.

(** They are finitely many. *)
Fixpoint needed (t : tree) : gset bytes :=
  let of_child (o : option tree) : gset bytes :=
    match o with
    | None => ∅
    | Some c => (if is_embeddable (mem c) then ∅ else {[hash_of c]}) ∪ needed c
    end in
  match tval t with Some v => if (32 <? length v)%nat then {[keccak v]} else ∅ | None => ∅ end
  ∪ of_child (tleft t) ∪ of_child (tright t).

Lemma needed_spec t k : k ∈ needed t ↔ needs t k.
Proof.
  revert k. induction t as [p v l r IHl IHr] using tree_rect'. intros k. cbn [needed tval tleft tright].
  rewrite !elem_of_union. split.
  - intros [[Hv|Hl]|Hr].
    + destruct v as [v|]; [|set_solver]. destruct (Nat.ltb_spec 32 (length v)); [|set_solver].
      apply elem_of_singleton in Hv as ->. by apply needs_value.
    + destruct l as [c|]; [|set_solver]. apply elem_of_union in Hl as [Hl|Hl%(IHl c eq_refl)].
      * destruct (is_embeddable (mem c)) eqn:He; [set_solver|]. apply elem_of_singleton in Hl as ->.
        by apply (needs_child _ false).
      * by apply (needs_below _ false c).
    + destruct r as [c|]; [|set_solver]. apply elem_of_union in Hr as [Hr|Hr%(IHr c eq_refl)].
      * destruct (is_embeddable (mem c)) eqn:He; [set_solver|]. apply elem_of_singleton in Hr as ->.
        by apply (needs_child _ true).
      * by apply (needs_below _ true c).
  - inversion 1 as [? w Hv Hlen|? b c Hc He|? b c ? Hc Hn]; subst.
    + cbn in Hv. subst v. left. left. destruct (Nat.ltb_spec 32 (length w)); [set_solver|lia].
    + destruct b; cbn in Hc; subst; [right|left; right]; rewrite He; set_solver.
    + destruct b; cbn in Hc; subst; [right; apply IHr in Hn|left; right; apply IHl in Hn]; set_solver.
Qed.

(** A tree the store holds is a tree any store with the same entries under its keys holds. *)
Lemma needs_stored {St St'} `{TrieStore St} `{TrieStore St'} (s : St) (s' : St') t :
  Stored s t → (∀ k m, needs t k → ts_get s k = Some m → ts_get s' k = Some m) → Stored s' t.
Proof.
  induction 1 as [t Hb Hval Hch IH Hkids]. intros Hn. constructor.
  - done.
  - intros v Hv Hlen. apply Hn; [by apply needs_value|auto].
  - intros b c Hc. apply (IH b c Hc). intros k m Hk. apply Hn. by eapply needs_below.
  - intros b c Hc. destruct (Hkids b c Hc) as [He Ho]. split; [done|]. intros Hemb.
    apply Hn; [by eapply needs_child|by apply Ho].
Qed.

(** And it can read all of them. *)
Lemma stored_needs {St} `{TrieStore St} (s : St) t k : Stored s t → needs t k → is_Some (ts_get s k).
Proof.
  intros Hst Hn. revert Hst.
  induction Hn as [t v Hv Hlen|t b c Hc Hemb|t b c k Hc Hn IH]; intros Hst; inversion_clear Hst as [? Hb Hval Hch Hkids].
  - rewrite Hval by done. by eexists.
  - destruct (Hkids b c Hc) as [_ Ho]. unfold hash_of. rewrite Ho by done. by eexists.
  - by apply IH, (Hch b).
Qed.

Lemma below_stored {St} `{TrieStore St} (s : St) t c : Stored s t → below t c → Stored s c.
Proof.
  intros Hst Hb. revert Hst. induction Hb as [|t b c x Hc _ IH]; [done|].
  inversion_clear 1 as [? _ _ Hch _]. by eapply IH, Hch.
Qed.

Lemma below_own {St} `{TrieStore St} (s : St) t c :
  Stored s t → Own s t → below t c → c = t ∨ is_embeddable (mem c) = false → Own s c.
Proof.
  intros Hst Hown Hb [->|Hemb]; [done|].
  enough (c = t ∨ Own s c) as [->|] by done. clear Hown. revert Hst.
  induction Hb as [t|t b c x Hc Hb IH]; [by left|]. inversion_clear 1 as [? _ _ Hch Hkids]. right.
  destruct IH as [->|]; [done|by apply (Hch b)| |done]. by apply (Hkids b c Hc).
Qed.

End needs.
(** ** Reads *)

Section reads.
Context {B : Type} `{EpochBackendLaws B} `{EpochHost B}.
Implicit Types (s : EpochTrieStore B) (es : list (Epoch B)).

(** Some epoch of the list has the key. *)
Definition holds es (k : bytes) : Prop := ∃ e, e ∈ es ∧ is_Some (eb_get (backend e) k).

Lemma elem_of_rev {A} (x : A) l : x ∈ rev l ↔ x ∈ l.
Proof. rewrite !list_elem_of_In. symmetry. apply in_rev. Qed.

Definition epochs_ok es : Prop := ∀ e, e ∈ es → eb_ok (backend e).

Lemma probe_holds es k : is_Some (probe es k) ↔ holds es k.
Proof.
  unfold holds. induction es as [|e es IH]; simpl.
  - split; [by intros [? ?]|by intros (? & ?%elem_of_nil & _)].
  - destruct (eb_get (backend e) k) as [v|] eqn:He.
    + split; [intros _; exists e; rewrite He; split; [by left|by eexists]|by eexists].
    + rewrite IH. split; [intros (e' & ? & ?); exists e'; split; [by right|done]|].
      intros (e' & [->|Hin]%elem_of_cons & Hs); [rewrite He in Hs; by destruct Hs|by exists e'].
Qed.

Lemma es_get_holds s k : is_Some (es_get s k) ↔ holds (epochs s) k.
Proof.
  unfold es_get. rewrite probe_holds. unfold holds. f_equiv. intros e. by rewrite elem_of_rev.
Qed.

Lemma es_get_hash s k v : epochs_ok (epochs s) → es_get s k = Some v → keccak v = k.
Proof using Type*.
  intros Hok. unfold es_get. assert (epochs_ok (rev (epochs s))) as Hok'.
  { intros e He. apply Hok. by rewrite elem_of_rev in He. }
  revert Hok'. generalize (rev (epochs s)) as es. induction es as [|e es IH]; simpl; [done|].
  intros Hes. destruct (eb_get (backend e) k) eqn:He.
  - intros [= ->]. eapply eb_get_hash; [apply Hes; by left|done].
  - apply IH. intros e' He'. apply Hes. by right.
Qed.

(** One epoch's round fills exactly its positions. *)
Lemma fill_spec outstanding found out :
  length found = length outstanding → NoDup outstanding → (∀ i, i ∈ outstanding → (i < length out)%nat) →
  let '(out', missing) := fill outstanding found out in
  length out' = length out
  ∧ (∀ j i, outstanding !! j = Some i → ∃ v, found !! j = Some v ∧
        (∀ w, v = Some w → out' !! i = Some (Some w)) ∧ (v = None → i ∈ missing ∧ out' !! i = out !! i))
  ∧ (∀ i, i ∉ outstanding → out' !! i = out !! i)
  ∧ NoDup missing ∧ (∀ i, i ∈ missing → i ∈ outstanding ∧ ∃ j, outstanding !! j = Some i ∧ found !! j = Some None).
Proof.
  revert found out. induction outstanding as [|i outstanding IH]; intros found out Hlen Hnd Hout; simpl.
  - split_and!; [done|by intros j i; rewrite lookup_nil|done|constructor|by intros ? ?%elem_of_nil].
  - destruct found as [|v found]; [done|]. apply NoDup_cons in Hnd as [Hni Hnd]. simpl in Hlen.
    destruct v as [w|].
    + specialize (IH found (<[i := Some w]> out)).
      destruct (fill outstanding found (<[i := Some w]> out)) as [out' missing].
      rewrite length_insert in IH. destruct IH as (Hl & Hj & Hrest & Hnd' & Hm); [lia|done|set_solver|].
      split_and!; [done| | |done|].
      * intros [|j] i'; simpl; [intros [= <-]|intros Hji].
        -- exists (Some w). split; [done|]. split; [|done]. intros ? [= <-].
           rewrite Hrest by done. apply list_lookup_insert_eq. apply Hout. by left.
        -- destruct (Hj j i' Hji) as (v & Hv & Hsome & Hnone). exists v. split; [done|]. split; [done|].
           intros ->. destruct (Hnone eq_refl) as [? Heq]. split; [done|]. rewrite Heq.
           apply list_lookup_insert_ne. intros ->. apply Hni. by eapply list_elem_of_lookup_2.
      * intros i' Hi'. apply not_elem_of_cons in Hi' as [? ?]. rewrite Hrest by done. by apply list_lookup_insert_ne.
      * intros i' Hi'. destruct (Hm i' Hi') as (? & j & ? & ?). split; [by right|]. by exists (S j).
    + specialize (IH found out). destruct (fill outstanding found out) as [out' missing].
      destruct IH as (Hl & Hj & Hrest & Hnd' & Hm); [lia|done|set_solver|].
      split_and!; [done| | | |].
      * intros [|j] i'; simpl; [intros [= <-]|intros Hji].
        -- exists None. split; [done|]. split; [done|]. intros _. split; [by left|]. by apply Hrest.
        -- destruct (Hj j i' Hji) as (v & Hv & Hsome & Hnone). exists v. split; [done|]. split; [done|].
           intros ->. destruct (Hnone eq_refl) as [? Heq]. split; [by right|done].
      * intros i' Hi'. apply not_elem_of_cons in Hi' as [? ?]. by apply Hrest.
      * constructor; [|done]. intros Hi'. destruct (Hm i Hi') as [? _]. done.
      * intros i' [->|Hi']%elem_of_cons; [split; [by left|by exists 0%nat]|].
        destruct (Hm i' Hi') as (? & j & ? & ?). split; [by right|]. by exists (S j).
Qed.

Lemma get_many_rounds_spec es keys outstanding out :
  epochs_ok es → NoDup outstanding → (∀ i, i ∈ outstanding → (i < length keys)%nat ∧ out !! i = Some None) →
  length out = length keys →
  (∀ i, i ∉ outstanding → get_many_rounds es keys outstanding out !! i = out !! i)
  ∧ (∀ i k, i ∈ outstanding → keys !! i = Some k →
      get_many_rounds es keys outstanding out !! i = Some (probe es k)).
Proof using Type*.
  revert outstanding out. induction es as [|e es IH]; intros outstanding out Hok Hnd Hin Hlen; simpl.
  { split; [done|]. intros i k Hi _. by apply Hin. }
  destruct (decide (outstanding = [])) as [->|Hne].
  { split; [done|]. by intros i k ?%elem_of_nil. }
  pose proof (fill_spec outstanding (eb_get_many (backend e) ((λ i, nth i keys []) <$> outstanding)) out) as Hf.
  rewrite eb_get_many_eq in * by (apply Hok; by left).
  destruct (fill outstanding _ out) as [out' missing].
  rewrite !length_fmap in Hf. destruct Hf as (Hl & Hj & Hrest & Hnd' & Hm); [done|done| |].
  { intros i Hi. rewrite Hlen. by apply Hin. }
  assert (∀ j i, outstanding !! j = Some i →
    (eb_get (backend e) <$> ((λ i, nth i keys []) <$> outstanding)) !! j
      = Some (eb_get (backend e) (nth i keys []))) as Hfound.
  { intros j i Hji. by rewrite !list_lookup_fmap, Hji. }
  destruct (IH missing out') as [IH1 IH2]; [intros e' He'; apply Hok; by right|done| |congruence|].
  { intros i Hi. destruct (Hm i Hi) as (Ho & j & Hji & Hv). split; [by apply Hin|].
    destruct (Hj j i Hji) as (v & Hv' & _ & Hnone). rewrite Hv in Hv'. injection Hv' as <-.
    destruct (Hnone eq_refl) as [_ ->]. by apply Hin. }
  split.
  - intros i Hi. rewrite IH1; [by apply Hrest|]. intros Hmi. by destruct (Hm i Hmi).
  - intros i k Hi Hk. destruct (list_elem_of_lookup_1 _ _ Hi) as [j Hji].
    destruct (Hj j i Hji) as (v & Hv & Hsome & Hnone). rewrite (Hfound j i Hji) in Hv.
    rewrite (nth_lookup_Some _ _ _ _ Hk) in Hv. injection Hv as <-.
    destruct (eb_get (backend e) k) as [w|] eqn:Hg.
    + rewrite IH1; [by apply Hsome|]. intros Hmi. destruct (Hm i Hmi) as (_ & j' & Hji' & Hv').
      rewrite (Hfound j' i Hji'), (nth_lookup_Some _ _ _ _ Hk), Hg in Hv'. done.
    + destruct (Hnone eq_refl) as [Hmi _]. by apply IH2.
Qed.

(** The batched read is the reads of its keys. *)
Lemma es_get_many_eq s keys : epochs_ok (epochs s) → es_get_many s keys = es_get s <$> keys.
Proof using Type*.
  intros Hok. unfold es_get_many, es_get.
  assert (epochs_ok (rev (epochs s))) as Hok'.
  { intros e He. apply Hok. by rewrite elem_of_rev in He. }
  destruct (get_many_rounds_spec (rev (epochs s)) keys (List.seq 0 (length keys))
    (replicate (length keys) None)) as [Hrest Hin]; [done|apply NoDup_ListNoDup, seq_NoDup| |apply length_replicate|].
  { intros i Hi. rewrite list_elem_of_In, in_seq in Hi. split; [lia|]. apply lookup_replicate_2. lia. }
  apply list_eq. intros i. rewrite list_lookup_fmap.
  destruct (keys !! i) as [k|] eqn:Hk; simpl.
  - apply Hin; [|done]. apply lookup_lt_Some in Hk. rewrite list_elem_of_In, in_seq. lia.
  - apply lookup_ge_None_1 in Hk. rewrite Hrest; [apply lookup_replicate_None; lia|].
    rewrite list_elem_of_In, in_seq. lia.
Qed.

End reads.
(** ** Marking one node

    A node's marks, in order: [(false, h)] for a value, [(true, h)] for a child. *)

Section marks.
Context `{Keccak}.

Fixpoint events (n : TrieNode) : list (bool * bytes) :=
  let of_child (r : NodeRef TrieNode) : list (bool * bytes) :=
    match r with
    | RefHash h => [(true, h)]
    | RefNode c => events c
    | RefEmpty => []
    end in
  (if has_long_value n then match value_hash n with Some vh => [(false, vh)] | None => [] end else [])
  ++ of_child (left_ref n) ++ of_child (right_ref n).

Definition insert_event (acc : gset bytes * list bytes) (ev : bool * bytes) : gset bytes * list bytes :=
  if decide (ev.2 ∈ acc.1) then acc
  else ({[ev.2]} ∪ acc.1, if ev.1 then acc.2 ++ [ev.2] else acc.2).

Lemma insert_value live next h : insert_event (live, next) (false, h) = ({[h]} ∪ live, next).
Proof. unfold insert_event. simpl. case_decide; [|done]. f_equal. set_solver. Qed.

Lemma mark_node_events n : ∀ live next, mark_node n live next = foldl insert_event (live, next) (events n).
Proof.
  induction n as [[p v vh lvl l r cs sv] IHl IHr] using node_rect'. intros live next.
  cbn [events mark_node left_ref right_ref value_hash] in *. rewrite !foldl_app.
  set (acc := foldl insert_event (live, next) _).
  assert (acc = ((if has_long_value (mkTrieNode p v vh lvl l r cs sv)
     then match vh with Some vh => {[vh]} ∪ live | None => live end else live), next)) as ->.
  { subst acc. destruct (has_long_value _), vh; simpl; rewrite ?insert_value; done. }
  set (live' := if has_long_value _ then _ else _).
  assert (∀ ref acc, (∀ c, ref = RefNode c → ∀ live next, mark_node c live next = foldl insert_event (live, next) (events c)) →
    (let '(live, next) := acc in
     match ref with
     | RefHash h => if decide (h ∈ live) then (live, next) else ({[h]} ∪ live, next ++ [h])
     | RefNode embedded => mark_node embedded live next
     | RefEmpty => (live, next)
     end) = foldl insert_event acc
       match ref with RefHash h => [(true, h)] | RefNode c => events c | RefEmpty => [] end) as Hchild.
  { intros ref [lv nx] IH. destruct ref as [|h|c]; [done| |by apply IH]. simpl. unfold insert_event. simpl.
    by case_decide. }
  rewrite (Hchild l (live', next)) by (intros c ->; by apply IHl).
  by rewrite (Hchild r) by (intros c ->; by apply IHr).
Qed.

(** All of them are marked, and the children that were not are queued once. *)
Lemma fold_events evs : ∀ live next live' next',
  foldl insert_event (live, next) evs = (live', next') →
  live' = live ∪ list_to_set evs.*2
  ∧ ∃ new, next' = next ++ new
      ∧ (∀ h, h ∈ new → h ∉ live ∧ (true, h) ∈ evs)
      ∧ ∀ h, (true, h) ∈ evs → h ∈ live ∨ h ∈ new ∨ (false, h) ∈ evs.
Proof.
  induction evs as [|[q h] evs IH]; intros live next live' next'; cbn [foldl].
  - intros [= <- <-]. split; [set_solver|]. exists []. rewrite app_nil_r. split; [done|]. set_solver.
  - unfold insert_event at 2. cbn [fst snd]. destruct (decide (h ∈ live)) as [Hin|Hni].
    + intros Hf. destruct (IH _ _ _ _ Hf) as (-> & new & -> & Hnew & Hall). split; [set_solver|].
      exists new. split; [done|]. set_solver.
    + intros Hf. destruct (IH _ _ _ _ Hf) as (-> & new & -> & Hnew & Hall). split; [set_solver|].
      exists (if q then h :: new else new). split; [destruct q; by rewrite <- ?app_assoc|].
      destruct q; set_solver.
Qed.

(** What a level's reads mark; [None] if one of them is not a node. *)
Fixpoint level_events {St} `{TrieStore St} (s : St) (values : list (option bytes))
    : option (list (bool * bytes)) :=
  match values with
  | [] => Some []
  | None :: rest => level_events s rest
  | Some data :: rest =>
      n ← try_from_message s data; evs ← level_events s rest; Some (events n ++ evs)
  end.

Definition absent (values : list (option bytes)) : nat := length (filter (λ v, v = None) values).

Lemma mark_level_events {B} `{EpochBackend B} `{EpochHost B} (s : EpochTrieStore B) values : ∀ live next missing,
  mark_level s values live next missing =
    match level_events s values with
    | None => None
    | Some evs => Some (foldl insert_event (live, next) evs, missing + absent values)%nat
    end.
Proof.
  unfold absent. induction values as [|[data|] values IH]; intros live next missing; cbn [mark_level level_events].
  - by rewrite Nat.add_0_r.
  - destruct (try_from_message s data) as [n|]; [|done]. rewrite mark_node_events. cbn [mbind option_bind].
    destruct (foldl insert_event (live, next) (events n)) as [live' next'] eqn:Hf.
    rewrite IH. destruct (level_events s values) as [evs|]; [|done]. cbn [mbind option_bind].
    rewrite foldl_app, Hf. rewrite filter_cons_False by done. done.
  - rewrite IH. destruct (level_events s values); [|done]. rewrite filter_cons_True by done. cbn [length].
    do 2 f_equal. lia.
Qed.

(** The marks of a node read back from the store. *)
Lemma reload_long_value t l r : has_long_value (reload_with (mem t) l r) = has_long_value (mem t).
Proof.
  unfold has_long_value at 1, value_length, reload_with. rewrite (mem_eq t). cbn [value long_value_len].
  unfold has_long_value, value_length. cbn [value long_value_len]. by destruct (tval t).
Qed.

Definition value_events (t : tree) : list (bool * bytes) :=
  match tval t with Some v => if (32 <? length v)%nat then [(false, keccak v)] else [] | None => [] end.

Definition child_events (o : option tree) : list (bool * bytes) :=
  match o with
  | None => []
  | Some c => if is_embeddable (mem c) then value_events c else [(true, compute_hash (mem c))]
  end.

Lemma reload_value_events t l r : let n := reload_with (mem t) l r in
  (if has_long_value n then match value_hash n with Some vh => [(false, vh)] | None => [] end else [])
  = value_events t.
Proof.
  cbn zeta. rewrite reload_long_value. unfold value_events, has_long_value, value_length.
  rewrite (mem_eq t). cbn. by destruct (tval t).
Qed.

Lemma reload_events t :
  events (reload (mem t)) = value_events t ++ child_events (tleft t) ++ child_events (tright t).
Proof.
  assert (∀ o, match reload_ref (mem_ref o) with
      RefHash h => [(true, h)] | RefNode c => events c | RefEmpty => [] end = child_events o) as Hc.
  { intros [c|]; [|done]. cbn [mem_ref reload_ref child_events]. destruct (is_embeddable (mem c)); [|done].
    change (events (reload_with (mem c) RefEmpty RefEmpty)) with
      ((if has_long_value (reload_with (mem c) RefEmpty RefEmpty) then
          match value_hash (reload_with (mem c) RefEmpty RefEmpty) with Some vh => [(false, vh)] | None => [] end
        else []) ++ [] ++ []).
    by rewrite reload_value_events, !app_nil_r. }
  rewrite <- !Hc. unfold reload.
  assert (left_ref (mem t) = mem_ref (tleft t) ∧ right_ref (mem t) = mem_ref (tright t)) as [-> ->] by by rewrite mem_eq.
  rewrite <- (reload_value_events t (reload_ref (mem_ref (tleft t))) (reload_ref (mem_ref (tright t)))). done.
Qed.

Lemma value_events_spec t ev : ev ∈ value_events t ↔ ∃ v, tval t = Some v ∧ (32 < length v)%nat ∧ ev = (false, keccak v).
Proof.
  unfold value_events. destruct (tval t) as [v|].
  - destruct (Nat.ltb_spec 32 (length v)); rewrite ?list_elem_of_singleton, ?elem_of_nil; [naive_solver|].
    split; [done|]. intros (? & [= <-] & ? & _). lia.
  - rewrite elem_of_nil. naive_solver.
Qed.

Lemma tree_events_spec {St} `{TrieStore St} (s : St) t ev : Stored s t →
  ev ∈ events (reload (mem t)) ↔
    (∃ v, tval t = Some v ∧ (32 < length v)%nat ∧ ev = (false, keccak v))
    ∨ ∃ b c, child t b = Some c ∧
        if is_embeddable (mem c) then ∃ v, tval c = Some v ∧ (32 < length v)%nat ∧ ev = (false, keccak v)
        else ev = (true, hash_of c).
Proof.
  intros Hst. rewrite reload_events, !elem_of_app, value_events_spec.
  assert (∀ b, ev ∈ child_events (child t b) ↔ ∃ c, child t b = Some c ∧
    if is_embeddable (mem c) then ∃ v, tval c = Some v ∧ (32 < length v)%nat ∧ ev = (false, keccak v)
    else ev = (true, hash_of c)) as Hc.
  { intros b. inversion_clear Hst as [? _ _ _ Hkids]. destruct (child t b) as [c|] eqn:Hb; simpl.
    - destruct (Hkids b c Hb) as [Hne _]. unfold compute_hash. rewrite Hne. fold (hash_of c).
      destruct (is_embeddable (mem c)) eqn:He; rewrite ?value_events_spec, ?list_elem_of_singleton.
      + split; [intros; exists c; by rewrite He|intros (? & [= <-] & Hx); by rewrite He in Hx].
      + split; [intros; exists c; by rewrite He|intros (? & [= <-] & Hx); by rewrite He in Hx].
    - rewrite elem_of_nil. naive_solver. }
  rewrite (Hc false), (Hc true). split.
  - intros [?|[[c ?]|[c ?]]]; [by left|right; by exists false, c|right; by exists true, c].
  - intros [?|([] & c & ?)]; [by left|right; right; by exists c|right; left; by exists c].
Qed.

Lemma retain_new_grows frontier : ∀ live, live ⊆ (retain_new frontier live).2.
Proof.
  induction frontier as [|h frontier IH]; intros live; cbn [retain_new]; [done|].
  case_decide; [done|]. specialize (IH ({[h]} ∪ live)). destruct (retain_new frontier _). simpl in *. set_solver.
Qed.

End marks.
(** ** The walk *)

Section walks.
Context {B : Type} `{EpochBackendLaws B} `{EpochHost B}.
Context (s : EpochTrieStore B) (Hok : epochs_ok (epochs s)).

(** A round of the walk, as the fold of what it marks. *)
Lemma walk_levels_round fuel live h frontier missing :
  walk_levels (S fuel) s live (h :: frontier) missing =
    match level_events s (es_get s <$> h :: frontier) with
    | None => WalkPanics
    | Some evs =>
        let '(live', next) := foldl insert_event (live, []) evs in
        walk_levels fuel s live' next (missing + absent (es_get s <$> h :: frontier))
    end.
Proof using Type*.
  cbn [walk_levels]. rewrite es_get_many_eq, mark_level_events by done.
  destruct (level_events s _) as [evs|]; [|done]. by destruct (foldl insert_event (live, []) evs).
Qed.

(** *** Termination *)

Lemma level_events_absent keys : (∀ k, k ∈ keys → es_get s k = None) → level_events s (es_get s <$> keys) = Some [].
Proof.
  induction keys as [|k keys IH]; intros Hk; [done|]. cbn [fmap list_fmap].
  rewrite Hk by by left. cbn [level_events]. apply IH. intros k' Hk'. apply Hk. by right.
Qed.

(** A round that finds a new key of [K] leaves one fewer to find; one that does not is the
    last but one. *)
Lemma walk_levels_finish (K : gset bytes) fuel : (∀ k, is_Some (es_get s k) → k ∈ K) →
  ∀ live frontier missing, (size (K ∖ live) + 2 ≤ fuel)%nat →
  walk_levels fuel s live frontier missing ≠ WalkUnfinished.
Proof using Type*.
  intros HK. induction fuel as [|fuel IH]; intros live frontier missing Hf; [lia|].
  destruct frontier as [|h frontier]; [done|]. rewrite walk_levels_round.
  destruct (level_events s _) as [evs|]; [|done].
  destruct (foldl insert_event (live, []) evs) as [live' next] eqn:Hfold.
  destruct (fold_events _ _ _ _ _ Hfold) as (-> & new & Hnext & Hnew & _). cbn [app] in Hnext. subst next.
  destruct (decide (Exists (λ k, k ∈ K) new)) as [Hex|Hall].
  - apply IH. apply Exists_exists in Hex as (k & Hk & HkK). destruct (Hnew k Hk) as [Hkl Hev].
    assert (k ∈ evs.*2) by (apply list_elem_of_fmap; by exists (true, k)).
    enough (size (K ∖ (live ∪ list_to_set evs.*2)) < size (K ∖ live))%nat by lia.
    apply subset_size. set_solver.
  - destruct new as [|k new]; [by destruct fuel|]. destruct fuel as [|fuel]; [lia|].
    rewrite walk_levels_round, level_events_absent.
    + cbn [foldl]. by destruct fuel.
    + intros k' Hk'. destruct (es_get s k') eqn:Hg; [|done]. destruct Hall. apply Exists_exists.
      exists k'. split; [done|]. apply HK. by rewrite Hg.
Qed.

Lemma walk_finish (K : gset bytes) fuel live frontier : (∀ k, is_Some (es_get s k) → k ∈ K) →
  (size K + 2 ≤ fuel)%nat → walk fuel s live frontier ≠ WalkUnfinished.
Proof using Type*.
  intros HK Hf. unfold walk. destruct (retain_new frontier live) as [kept live'].
  apply (walk_levels_finish K); [done|].
  enough (size (K ∖ live') ≤ size K)%nat by lia. apply subseteq_size. set_solver.
Qed.

(** *** Marks are only added *)

Lemma walk_levels_grows fuel : ∀ live frontier missing live' missing',
  walk_levels fuel s live frontier missing = Walked live' missing' → live ⊆ live'.
Proof using Type*.
  induction fuel as [|fuel IH]; intros live [|h frontier] missing live' missing'; [by intros [= <- _]|done|by intros [= <- _]|].
  rewrite walk_levels_round. destruct (level_events s _) as [evs|]; [|done].
  destruct (foldl insert_event (live, []) evs) as [live1 next] eqn:Hfold.
  destruct (fold_events _ _ _ _ _ Hfold) as (-> & _). intros Hw%IH. set_solver.
Qed.

Lemma walk_grows fuel live frontier live' missing : walk fuel s live frontier = Walked live' missing → live ⊆ live'.
Proof using Type*.
  unfold walk. pose proof (retain_new_grows frontier live) as Hr.
  destruct (retain_new frontier live) as [kept live1]. intros Hw%walk_levels_grows. set_solver.
Qed.

Lemma mark_pins_grows fuel pins : ∀ live lost live' lost',
  mark_pins fuel s live pins lost = Returns (Ok (live', lost')) → live ⊆ live'.
Proof using Type*.
  induction pins as [|pin pins IH]; intros live lost live' lost'; cbn [mark_pins]; [by intros [= <- _]|].
  destruct (walk fuel s live [pin]) as [live1 missing| |] eqn:Hw; [|done..].
  intros Hm%IH. apply walk_grows in Hw. set_solver.
Qed.

(** *** Trees the store holds *)

(** The trees walked, all of them held and told apart from their values. *)
Context (ts : list tree) (Hst : ∀ t, t ∈ ts → Stored s t) (Hown : ∀ t, t ∈ ts → Own s t).

Definition entry (c : tree) : Prop := ∃ t, t ∈ ts ∧ below t c ∧ (c = t ∨ is_embeddable (mem c) = false).

(** Every marked node is waiting in the frontier, or has all its marks. *)
Definition closed (live : gset bytes) (frontier : list bytes) : Prop :=
  ∀ c, entry c → hash_of c ∈ live →
    hash_of c ∈ frontier ∨ ∀ ev, ev ∈ events (reload (mem c)) → ev.2 ∈ live.

Lemma entry_stored c : entry c → Stored s c ∧ Own s c.
Proof using Type*.
  intros (t & Ht & Hb & Hor). split; [by eapply below_stored; [apply Hst|]|]. by eapply (below_own s t); auto.
Qed.

Lemma entry_child c b x : entry c → child c b = Some x → is_embeddable (mem x) = false → entry x.
Proof using Type.
  intros (t & Ht & Hb & _) Hc He. exists t. split_and!; [done| |by right].
  eapply below_trans; [done|]. econstructor; [done|constructor].
Qed.

Lemma entry_event c (ev : bool * bytes) : entry c → ev ∈ events (reload (mem c)) →
  if ev.1 then ∃ x, entry x ∧ ev.2 = hash_of x else ∃ t, t ∈ ts ∧ value_of t ev.2.
Proof using Type*.
  intros He Hev. destruct (entry_stored c He) as [Hs _]. destruct He as (t & Ht & Hb & Hor).
  apply (tree_events_spec s c ev Hs) in Hev as [(v & Hv & Hlen & ->)|(b & x & Hx & Hev)]; simpl.
  - exists t. split; [done|]. by exists c, v.
  - destruct (is_embeddable (mem x)) eqn:Hemb.
    + destruct Hev as (v & Hv & Hlen & ->). exists t. split; [done|]. exists x, v. split_and!; try done.
      eapply below_trans; [done|]. econstructor; [done|constructor].
    + subst ev. exists x. split; [|done]. eapply (entry_child c b); [by exists t|done..].
Qed.

(** Marks that are closed and hold a node hold all it needs. *)
Lemma closed_needs live c k : closed live [] → entry c → hash_of c ∈ live → needs c k → k ∈ live.
Proof using Type*.
  intros Hcl He Hin Hn. revert He Hin.
  induction Hn as [c v Hv Hlen|c b x Hx Hemb|c b x k Hx Hn IH]; intros He Hin;
    destruct (entry_stored c He) as [Hs _];
    destruct (Hcl c He Hin) as [?%elem_of_nil|Hall]; try done.
  - apply (Hall (false, keccak v)), (tree_events_spec s c _ Hs). left. by exists v.
  - apply (Hall (true, hash_of x)), (tree_events_spec s c _ Hs). right. exists b, x. by rewrite Hemb.
  - destruct (is_embeddable (mem x)) eqn:Hemb.
    + inversion Hn as [? v Hv Hlen|? b' y Hy _|? b' y ? Hy _]; subst; [|by rewrite embeddable_leaf in Hy..].
      apply (Hall (false, keccak v)), (tree_events_spec s c _ Hs). right. exists b, x. rewrite Hemb. eauto.
    + apply IH; [by eapply entry_child|].
      apply (Hall (true, hash_of x)), (tree_events_spec s c _ Hs). right. exists b, x. by rewrite Hemb.
Qed.

Lemma level_events_entries frontier : (∀ h, h ∈ frontier → ∃ c, entry c ∧ h = hash_of c) →
  ∃ evs, level_events s (es_get s <$> frontier) = Some evs ∧ absent (es_get s <$> frontier) = 0%nat
    ∧ (∀ ev, ev ∈ evs → ∃ c, entry c ∧ ev ∈ events (reload (mem c)))
    ∧ (∀ c ev, entry c → hash_of c ∈ frontier → ev ∈ events (reload (mem c)) → ev ∈ evs).
Proof using Type*.
  induction frontier as [|h frontier IH]; intros Hfr.
  { exists []. split_and!; [done|done|by intros ? ?%elem_of_nil|by intros ? ? ? ?%elem_of_nil]. }
  destruct IH as (evs & Hev & Habs & Hfrom & Hto); [intros h' ?; apply Hfr; by right|].
  destruct (Hfr h) as (c & He & ->); [by left|]. destruct (entry_stored c He) as [Hs Ho].
  assert (es_get s (hash_of c) = Some (to_message (mem c))) as Hget by exact Ho.
  assert (try_from_message s (to_message (mem c)) = Some (reload (mem c))) as Hp
    by (by apply (stored_parse_reload s s)).
  exists (events (reload (mem c)) ++ evs). cbn [fmap list_fmap]. rewrite Hget. cbn [level_events].
  rewrite Hp, Hev. cbn [mbind option_bind]. split_and!; [done| | |].
  - unfold absent in *. by rewrite filter_cons_False.
  - intros ev [?|?]%elem_of_app; [by exists c|auto].
  - intros c' ev He' [Heq|Hin]%elem_of_cons Hev'; apply elem_of_app; [left|right; eauto].
    destruct (entry_stored c' He') as [Hs' Ho'].
    assert (es_get s (hash_of c') = Some (to_message (mem c'))) as Hget' by exact Ho'.
    assert (try_from_message s (to_message (mem c')) = Some (reload (mem c'))) as Hp'
      by (by apply (stored_parse_reload s s)). congruence.
Qed.

Context (Hap : apart ts).

Lemma entry_not_value c t : entry c → t ∈ ts → ¬ value_of t (hash_of c).
Proof using Type*. intros (t' & Ht' & Hb & Hor) Ht Hv. eapply (Hap t t'); [done..|]. by exists c. Qed.

(** A round over entries keeps the marks closed. *)
Lemma closed_round live frontier evs live' next : closed live frontier →
  (∀ ev, ev ∈ evs → ∃ c, entry c ∧ ev ∈ events (reload (mem c))) →
  (∀ c ev, entry c → hash_of c ∈ frontier → ev ∈ events (reload (mem c)) → ev ∈ evs) →
  foldl insert_event (live, []) evs = (live', next) →
  closed live' next ∧ ∀ h, h ∈ next → ∃ c, entry c ∧ h = hash_of c.
Proof using Type*.
  intros Hcl Hfrom Hto Hfold. destruct (fold_events _ _ _ _ _ Hfold) as (-> & new & -> & Hnew & Hall). cbn [app].
  assert (∀ ev, ev ∈ evs → ev.2 ∈ (list_to_set evs.*2 : gset bytes)) as Hset.
  { intros ev Hev. apply elem_of_list_to_set, list_elem_of_fmap. by exists ev. }
  split.
  - intros c He Hin. destruct (decide (hash_of c ∈ live)) as [Hl|Hnl].
    + right. intros ev Hev. destruct (Hcl c He Hl) as [Hfr|Hdone].
      * apply elem_of_union_r, Hset. by eapply Hto.
      * apply elem_of_union_l. by apply Hdone.
    + left. apply elem_of_union in Hin as [?|Hin]; [done|].
      apply elem_of_list_to_set, list_elem_of_fmap in Hin as ([q h] & Hh & Hev). simpl in Hh. subst h.
      assert ((false, hash_of c) ∉ evs) as Hnv.
      { intros Hev'. destruct (Hfrom _ Hev') as (c' & He' & Hc').
        destruct (entry_event c' _ He' Hc') as (t & Ht & Hv). by apply (entry_not_value c t He Ht). }
      destruct q; [|done]. by destruct (Hall _ Hev) as [?|[?|?]].
  - intros h Hh. destruct (Hnew h Hh) as [_ Hev]. destruct (Hfrom _ Hev) as (c & He & Hc).
    by apply (entry_event c _ He) in Hc.
Qed.

Lemma walk_levels_closed fuel : ∀ live frontier, closed live frontier →
  (∀ h, h ∈ frontier → ∃ c, entry c ∧ h = hash_of c) →
  match walk_levels fuel s live frontier 0 with
  | Walked live' missing => missing = 0%nat ∧ closed live' []
  | WalkPanics => False
  | WalkUnfinished => True
  end.
Proof using Type*.
  induction fuel as [|fuel IH]; intros live [|h frontier] Hcl Hfr; [by split|done|by split|].
  rewrite walk_levels_round. destruct (level_events_entries _ Hfr) as (evs & -> & -> & Hfrom & Hto).
  destruct (foldl insert_event (live, []) evs) as [live' next] eqn:Hfold.
  destruct (closed_round _ _ _ _ _ Hcl Hfrom Hto Hfold) as [Hcl' Hfr']. by apply IH.
Qed.

(** The walk from a tree's root marks the root and all the tree needs. *)
Lemma walk_marks fuel live t : t ∈ ts → closed live [] →
  match walk fuel s live [hash_of t] with
  | Walked live' missing => missing = 0%nat ∧ closed live' [] ∧ hash_of t ∈ live' ∧ ∀ k, needs t k → k ∈ live'
  | WalkPanics => False
  | WalkUnfinished => True
  end.
Proof using Type*.
  intros Ht Hcl. assert (entry t) as He by (exists t; split_and!; [done|constructor|by left]).
  unfold walk. cbn [retain_new].
  assert (∃ live1 kept, (let '(kept, live) := (if decide (hash_of t ∈ live) then ([], live)
      else ([hash_of t], {[hash_of t]} ∪ live)) in (kept, live)) = (kept, live1)
    ∧ hash_of t ∈ live1 ∧ closed live1 kept ∧ ∀ h, h ∈ kept → ∃ c, entry c ∧ h = hash_of c)
    as (live1 & kept & Heq & Hin & Hcl1 & Hfr).
  { case_decide as Hin; do 2 eexists; (split; [reflexivity|]); split_and!; [done|done|by intros ? ?%elem_of_nil|set_solver|..].
    - intros c Hc Hin'. destruct (decide (hash_of c = hash_of t)) as [->|Hne]; [left; by left|].
      destruct (Hcl c Hc) as [?%elem_of_nil|Hdone]; [set_solver|done|]. right. intros ev Hev. specialize (Hdone ev Hev). set_solver.
    - intros h ->%list_elem_of_singleton. by exists t. }
  assert ((if decide (hash_of t ∈ live) then ([], live)
      else ([hash_of t], {[hash_of t]} ∪ live)) = (kept, live1)) as -> by (by destruct (decide _)).
  pose proof (walk_levels_closed fuel live1 kept Hcl1 Hfr) as Hw.
  destruct (walk_levels fuel s live1 kept 0) as [live' missing| |] eqn:Hwl; [|done..].
  destruct Hw as [-> Hcl']. apply walk_levels_grows in Hwl. split_and!; [done|done|by apply Hwl|].
  intros k Hk. eapply (closed_needs live' t); [done..|by apply Hwl|done].
Qed.

End walks.
End EpochMark.
