(* ===== verification/EpochGc.v ===== *)
(** * A collection cycle keeps what the chain needs: storage/src/epoch_store.rs

    The chain is a machine: blocks are executed on the state of an earlier one and saved
    into the newest epoch, epochs are added and flushed, and cycles mark, drain and sweep,
    with blocks in between.  Every block that descends from the last collection root
    stays readable in full, on side branches too.  What the machine takes for granted is
    what the code needs and does not always have: that no long value of the collection
    root's state is the message of one of its nodes ([marked_value_loses_subtree]), and that
    an epoch is closed at the highest block written into it ([late_close_loses_state]). *)
From S2P Require Import Prelude Path Varint Store Node Unitrie NodeCodec NodeRefine NodeSave Trie EpochStore EpochMark.
From stdpp Require Import strings gmap sorting.
From stdpp Require Import options.

Module EpochGc.
Import Store Node Unitrie NodeCodec NodeRefine NodeSave Trie EpochStore EpochMark.
Local Open Scope Z_scope.

Section gc.
Context {B : Type} `{EpochBackendLaws B} `{EpochHost B}.
Implicit Types (s : EpochTrieStore B) (es : list (Epoch B)).

Lemma alter_last_snoc {A} (f : A → A) l x : alter_last f (l ++ [x]) = l ++ [f x].
Proof. induction l as [|y l IH]; [done|]. simpl. rewrite IH. by destruct l. Qed.

Lemma snoc_case {A} (l : list A) : l = [] ∨ ∃ l' x, l = l' ++ [x].
Proof. destruct l as [|x l] using rev_ind; [by left|right; eauto]. Qed.

Definition has (b : B) (k : bytes) : Prop := is_Some (eb_get b k).

Lemma holds_snoc es e k : holds (es ++ [e]) k ↔ holds es k ∨ has (backend e) k.
Proof using Type.
  unfold holds, has. setoid_rewrite elem_of_app. setoid_rewrite list_elem_of_singleton. naive_solver.
Qed.

Lemma epochs_ok_snoc es e : epochs_ok (es ++ [e]) ↔ epochs_ok es ∧ eb_ok (backend e).
Proof using Type.
  unfold epochs_ok. setoid_rewrite elem_of_app. setoid_rewrite list_elem_of_singleton. naive_solver.
Qed.

(** ** Marking *)

(** A mark that succeeds has the root and all its tree needs. *)
Lemma mark_root s fuel t pins live lost p : epochs_ok (epochs s) → Stored s t → Own s t → apart [t] →
  mark fuel s (hash_of t) pins = Returns (Ok (live, lost, p)) →
  hash_of t ∈ live ∧ ∀ k, needs t k → k ∈ live.
Proof using Type*.
  intros Hok Hst Hown Hap. unfold mark.
  pose proof (walk_marks s Hok [t] ltac:(by intros ? ->%list_elem_of_singleton)
    ltac:(by intros ? ->%list_elem_of_singleton) Hap fuel ∅ t ltac:(by left) ltac:(by intros c _ ?%elem_of_empty)) as Hw.
  destruct (walk fuel s ∅ [hash_of t]) as [live0 missing| |]; [|done..].
  destruct Hw as (-> & _ & Hin & Hall). cbn [Nat.ltb Nat.leb].
  destruct (mark_pins fuel s live0 pins []) as [[[live' lost']|e]| |] eqn:Hp; [|done..].
  intros [= <- _ _]. apply mark_pins_grows in Hp; [|done]. split; [by apply Hp|]. intros k Hk. by apply Hp, Hall.
Qed.

(** Pins the store holds are marked as well, and none is reported. *)
Lemma mark_pins_held s fuel ts pins : epochs_ok (epochs s) →
  (∀ t, t ∈ ts → Stored s t) → (∀ t, t ∈ ts → Own s t) → apart ts → (∀ p, p ∈ pins → ∃ t, t ∈ ts ∧ p = hash_of t) →
  ∀ live lost, closed ts live [] →
  match mark_pins fuel s live pins lost with
  | Returns (Ok (live', lost')) => lost' = lost ∧ closed ts live' [] ∧ ∀ p, p ∈ pins → p ∈ live'
  | Unfinished => True
  | _ => False
  end.
Proof using Type*.
  intros Hok Hst Hown Hap. induction pins as [|p pins IH]; intros Hp live lost Hcl; cbn [mark_pins].
  { split_and!; [done|done|by intros ? ?%elem_of_nil]. }
  destruct (Hp p) as (t & Ht & ->); [by left|].
  pose proof (walk_marks s Hok ts Hst Hown Hap fuel live t Ht Hcl) as Hw.
  destruct (walk fuel s live [hash_of t]) as [live1 missing| |]; [|done..].
  destruct Hw as (-> & Hcl1 & Hin & _). cbn [Nat.ltb Nat.leb].
  specialize (IH ltac:(intros p' ?; apply Hp; by right) live1 lost Hcl1).
  destruct (mark_pins fuel s live1 pins lost) as [[[live' lost']|e]| |] eqn:Hmp; [|done..].
  destruct IH as (-> & Hcl' & Hall). split_and!; [done|done|].
  intros p' [->|?]%elem_of_cons; [|auto]. by eapply mark_pins_grows in Hmp; [apply Hmp|].
Qed.

(** ** Draining *)

(** What the drain has done after the entries [seen]. *)
Definition draining (b0 : B) (live : gset bytes) (seen : list (bytes * bytes)) (d : Draining B) : Prop :=
  (∀ k v, eb_get (dr_newest d) k = Some v → keccak v = k)
  ∧ (∀ k, has b0 k → has (dr_newest d) k)
  ∧ (dr_failure d = None → eb_ok (dr_newest d) ∧ (∀ k v, (k, v) ∈ dr_pending d → keccak v = k)
      ∧ ∀ k, k ∈ seen.*1 → length k = 32%nat → k ∈ live → k ∈ (dr_pending d).*1 ∨ has (dr_newest d) k).

Lemma drain_visit_draining b0 live seen d k v : keccak v = k →
  draining b0 live seen d → draining b0 live (seen ++ [(k, v)]) (drain_visit live d (k, v)).
Proof using Type*.
  intros Hkv (Hrd & Hkeep & Hgood). unfold drain_visit, draining. rewrite fmap_app. cbn [fmap list_fmap fst].
  destruct (decide (length k = 32%nat ∧ k ∈ live)) as [[Hlen Hlive]|Hskip].
  2: { split; [done|]. split; [done|]. cbn [dr_failure dr_newest dr_pending]. intros Hf.
       destruct (Hgood Hf) as (Hok & Hp & Hs). split_and!; [done|done|].
       intros k' [?| ->%list_elem_of_singleton]%elem_of_app ? ?; [auto|naive_solver]. }
  destruct (dr_failure d) as [e|] eqn:Hf.
  { by split_and!. }
  destruct (Hgood eq_refl) as (Hok & Hp & Hs).
  assert (∀ k' v', (k', v') ∈ dr_pending d ++ [(k, v)] → keccak v' = k') as Hp'.
  { intros k' v' [?|[= -> ->]%list_elem_of_singleton]%elem_of_app; auto. }
  assert (∀ k', k' ∈ seen.*1 ++ [k] → length k' = 32%nat → k' ∈ live →
    k' ∈ (dr_pending d ++ [(k, v)]).*1 ∨ has (dr_newest d) k') as Hs'.
  { intros k'. rewrite fmap_app. intros [Hk'| ->%list_elem_of_singleton]%elem_of_app ? ?.
    - destruct (Hs k') as [?|?]; [done..|left; apply elem_of_app; by left|by right].
    - left. apply elem_of_app. right. by left. }
  destruct (DRAIN_BATCH <=? _).
  - destruct (eb_put_many (dr_newest d) (dr_pending d ++ [(k, v)])) as [[[]|e] b'] eqn:Hput;
      unfold draining; cbn [dr_failure dr_newest dr_pending].
    + destruct (eb_put_many_done _ _ _ Hok Hp' Hput) as [Hok' Hall].
      split; [intros k' v'; by apply eb_get_hash|]. split; [intros k' Hk'; apply Hall; left; by apply Hkeep|].
      intros _. split_and!; [done|by intros ? ? ?%elem_of_nil|].
      intros k' Hk' Hl Hlv. right. apply Hall. destruct (Hs' k' Hk' Hl Hlv); auto.
    + destruct (eb_put_many_failed _ _ _ _ Hok Hp' Hput) as [? Hall].
      split_and!; [done| |done]. intros k' Hk'. by apply Hall, Hkeep.
  - split; [done|]. split; [done|]. intros _. split_and!; done.
Qed.

Lemma drain_fold b0 live visited : eb_ok b0 → (∀ k v, (k, v) ∈ visited → keccak v = k) →
  draining b0 live visited (foldl (drain_visit live) (mkDraining 0 0 0 [] None b0) visited).
Proof using Type*.
  intros Hb. induction visited as [|[k v] visited IH] using rev_ind; intros Hv.
  - split; [intros k v; by apply eb_get_hash|]. split; [done|].
    intros _. split_and!; [done|by intros ? ? ?%elem_of_nil|by intros ? ?%elem_of_nil].
  - rewrite foldl_app. cbn [foldl]. apply drain_visit_draining.
    + apply Hv. apply elem_of_app. right. by left.
    + apply IH. intros k' v' ?. apply Hv. apply elem_of_app. by left.
Qed.

(** A drain changes the newest epoch only, and loses nothing of it; one that succeeds has
    copied every live key of the oldest. *)
Lemma drain_spec s live es oldest newest res s' :
  epochs s = oldest :: es ++ [newest] → epochs_ok (epochs s) → drain s live = (res, s') →
  ∃ b, s' = with_epochs s (oldest :: es ++ [with_backend newest b])
    ∧ (∀ k v, eb_get b k = Some v → keccak v = k) ∧ (∀ k, has (backend newest) k → has b k)
    ∧ (is_ok res = true → eb_ok b ∧ ∀ k, length k = 32%nat → k ∈ live → has (backend oldest) k → has b k).
Proof using Type*.
  intros Hes Hok. unfold drain. rewrite Hes. cbn [head].
  replace (last (oldest :: es ++ [newest])) with (Some newest) by (by rewrite app_comm_cons, last_snoc).
  assert (eb_ok (backend oldest)) as Hok1 by (apply Hok; rewrite Hes; by left).
  assert (eb_ok (backend newest)) as Hok2 by (apply Hok; rewrite Hes, app_comm_cons; apply elem_of_app; right; by left).
  assert (∀ b, set_newest s b = with_epochs s (oldest :: es ++ [with_backend newest b])) as Hset.
  { intros b. unfold set_newest. rewrite Hes, app_comm_cons, alter_last_snoc. done. }
  pose proof (λ k v, eb_for_each_hash (backend oldest) k v Hok1) as Hhash.
  pose proof (λ l k, eb_for_each_done (backend oldest) l k Hok1) as Hscan.
  destruct (eb_for_each (backend oldest)) as [visited err]. cbn [fst] in Hhash.
  destruct (drain_fold (backend newest) live visited Hok2 Hhash) as (Hrd & Hkeep & Hgood).
  set (d := foldl _ _ visited) in *. destruct err as [e|].
  { intros [= <- <-]. exists (dr_newest d). by split_and!. }
  destruct (dr_failure d) as [e|] eqn:Hf.
  { intros [= <- <-]. exists (dr_newest d). by split_and!. }
  destruct (Hgood eq_refl) as (Hok' & Hp & Hs).
  destruct (eb_put_many (dr_newest d) (dr_pending d)) as [[[]|e] b1] eqn:Hput.
  2: { intros [= <- <-]. exists b1. destruct (eb_put_many_failed _ _ _ _ Hok' Hp Hput) as [? Hall].
       split_and!; [done|done| |done]. intros k Hk. by apply Hall, Hkeep. }
  destruct (eb_put_many_done _ _ _ Hok' Hp Hput) as [Hok1' Hall].
  destruct (eb_flush b1) as [fres b2] eqn:Hflush. destruct (eb_flush_done _ _ _ Hok1' Hflush) as [Hok2' Hfl].
  intros [= <- <-]. exists b2. split_and!; [done|intros k v; by apply eb_get_hash| |].
  - intros k Hk. apply Hfl, Hall. left. by apply Hkeep.
  - intros _. split; [done|]. intros k Hlen Hk Ho. apply Hfl, Hall.
    destruct (Hs k) as [?|?]; [by eapply Hscan|done..|by right|by left].
Qed.

(** ** Sweeping *)

Definition close (e : Epoch B) (cur : Z) : Epoch B :=
  match last_block e with None => closed_at e cur | Some _ => e end.

Lemma rotate_only_done s es newest cur s' : epochs s = es ++ [newest] → rotate_only s cur = (Ok tt, s') →
  ∃ b, factory_open (next_seq s) = Ok b
    ∧ epochs s' = es ++ [close newest cur] ++ [mkEpoch (next_seq s) b None]
    ∧ config s' = config s ∧ read_only s' = read_only s.
Proof.
  intros Hes. unfold rotate_only, close_newest. rewrite Hes, alter_last_snoc.
  cbn [next_seq with_epochs with_next_seq]. destruct (factory_open (next_seq s)) as [b|e]; [|done].
  intros [= <-]. exists b. split_and!; [done| |done|done]. cbn. by rewrite <- app_assoc.
Qed.

(** What a sweep that succeeds leaves: the epochs behind the oldest, the newest of them
    closed, and a new one. *)
Lemma sweep_done s oldest es newest cur res s' :
  epochs s = oldest :: es ++ [newest] → (cfg_epochs (config s) ≤ length (epochs s))%nat →
  sweep_and_rotate s cur = (Ok res, s') →
  ∃ q b, factory_open q = Ok b ∧ epochs s' = es ++ [close newest cur] ++ [mkEpoch q b None]
    ∧ config s' = config s ∧ read_only s' = read_only s.
Proof.
  intros Hes Hlen. unfold sweep_and_rotate. rewrite Hes in *.
  destruct (Nat.leb_spec (cfg_epochs (config s)) (length (oldest :: es ++ [newest]))); [|lia].
  destruct (remove_dir_all (seq oldest)); [done|].
  set (s1 := match last_block oldest with Some n => _ | None => _ end).
  assert (epochs s1 = es ++ [newest] ∧ config s1 = config s ∧ read_only s1 = read_only s) as (He & Hc & Hr)
    by (subst s1; by destruct (last_block oldest)).
  destruct (rotate_only s1 cur) as [[[]|e] s2] eqn:Hrot; [|done]. intros [= _ <-].
  destruct (rotate_only_done s1 es newest cur s2 He Hrot) as (b & Hb & Hes2 & Hc2 & Hr2).
  exists (next_seq s1), b. by rewrite Hc2, Hr2.
Qed.

(** ** The chain *)

(** A block that was executed and saved: its number, the root and the contents of its
    state, a bound on the sizes the state records, and the line of blocks it descends from,
    itself included. *)
Record block := mkBlock {
  bk_id : nat;
  bk_number : Z;
  bk_root : bytes;
  bk_contents : contents;
  bk_weight : Z;
  bk_line : list nat;
}.

Definition descends (r b : block) : Prop := bk_id r ∈ bk_line b.
#[global] Instance descends_dec r b : Decision (descends r b).
Proof. unfold descends. apply _. Defined.

(** No long value of a state is the message of one of its nodes. *)
Definition state_apart (m : contents) : Prop :=
  ∀ t, canonical t → (∀ k, tlookup t k = m !! k) → apart [t].

(** Where a cycle is: the root it collects against, and the marks. *)
Inductive phase :=
  | Idle
  | Marking (root : block) (live : gset bytes)
  | Copying (root : block) (live : gset bytes).

Context (cfg : EpochConfig) (V : gset bytes).

(** The store, the trie in memory with its contents and the block it was read from, and
    the blocks that are to stay readable.  The writes of a block succeed; what the stores
    hold and the blocks save is among [V]. *)
Inductive chain : EpochTrieStore B → TrieNode → contents → Z → option block → list block → phase → Prop :=
  | chain_open s resume_at :
      open_with [] (λ _, None) (None, []) cfg resume_at = Ok s →
      chain s empty_node ∅ 0 None [] Idle
  | chain_trie s n m w base W ph a n' :
      chain s n m w base W ph → a ≠ OpSave → step (s, n) a (s, n') → w + op_cost a < 2 ^ 64 →
      chain s n' (spec_step m a) (w + op_cost a) base W ph
  | chain_checkout s n m w base W ph b n' :
      chain s n m w base W ph → b ∈ W → try_resolve s (RefHash (bk_root b)) = Found n' →
      chain s n' (bk_contents b) (bk_weight b) (Some b) W ph
  | chain_save s n m w base W ph id number newest :
      chain s n m w base W ph → is_empty_trie n = false →
      (∀ b, b ∈ W → bk_id b ≠ id ∧ id ∉ bk_line b) → (∀ p, base = Some p → bk_number p < number) →
      last (epochs s) = Some newest → (eb_put_many (backend newest) (collect_for_save n true).2).1 = Ok tt →
      Forall (λ e, e.2 ∈ V) (collect_for_save n true).2 → held_in V (save s n true).2 →
      let b := mkBlock id number (compute_hash n) m w (id :: match base with Some p => bk_line p | None => [] end) in
      chain (save s n true).2 (save s n true).1 m w (Some b) (b :: W) ph
  | chain_flags s n m w base W ph c stats :
      chain s n m w base W ph → chain (with_last_collect (with_collecting s c) stats) n m w base W ph
  | chain_flush s n m w base W ph :
      chain s n m w base W ph → held_in V (ts_flush s) → chain (ts_flush s) n m w base W ph
  | chain_grow s n m w base W current s' :
      chain s n m w base W Idle → (∀ b, b ∈ W → bk_number b ≤ current) →
      rotate_only s current = (Ok tt, s') → held_in V s' → chain s' n m w base W Idle
  | chain_mark s n m w base W root fuel pins live lost p :
      chain s n m w base W Idle → root ∈ W → state_apart (bk_contents root) →
      (cfg_epochs (config s) ≤ epoch_count s)%nat → may_sweep s (bk_number root) = Ok tt →
      mark fuel s (bk_root root) pins = Returns (Ok (live, lost, p)) →
      chain s n m w base W (Marking root live)
  | chain_drain s n m w base W root live stats s' :
      chain s n m w base W (Marking root live) → drain s live = (Ok stats, s') → held_in V s' →
      chain s' n m w base W (Copying root live)
  | chain_sweep s n m w base W root live current reclaimed s' :
      chain s n m w base W (Copying root live) → (∀ b, b ∈ W → bk_number b ≤ current) →
      (∀ p, base = Some p → descends root p) →
      sweep_and_rotate s current = (Ok reclaimed, s') → held_in V s' →
      chain s' n m w base (filter (descends root) W) Idle.

(** ** The invariant *)

Context (Hinj : distinct V).
Context (Hfresh : ∀ q b, factory_open q = Ok b → eb_ok b ∧ ∀ k, eb_get b k = None).

Definition key (t : tree) (k : bytes) : Prop := k = hash_of t ∨ needs t k.

(** The tree of a block's state. *)
Definition state_tree (b : block) (t : tree) : Prop := canonical t ∧ ∀ k, tlookup t k = bk_contents b !! k.

Definition readable s (b : block) : Prop :=
  ∃ t, state_tree b t ∧ Stored s t ∧ Own s t ∧ bk_root b = hash_of t
    ∧ within 1024 t ∧ weight t ≤ bk_weight b < 2 ^ 64.

(** A key is in an epoch that was still open after block [n]. *)
Definition late s (n : Z) (k : bytes) : Prop :=
  ∃ e, e ∈ epochs s ∧ has (backend e) k ∧ ∀ x, last_block e = Some x → n < x.

(** A block needs of what was written before it what the block it descends from needs. *)
Definition covered s (r b : block) : Prop :=
  ∀ tr tb k, state_tree r tr → state_tree b tb → key tb k → key tr k ∨ late s (bk_number r) k.

Definition phase_ok s (W : list block) (ph : phase) : Prop :=
  match ph with
  | Idle => True
  | Marking r live | Copying r live =>
      r ∈ W ∧ (∀ tr k, state_tree r tr → key tr k → k ∈ live)
      ∧ ∃ oldest es newest, epochs s = oldest :: es ++ [newest] ∧ (cfg_epochs (config s) ≤ length (epochs s))%nat
          ∧ (∃ x, last_block oldest = Some x ∧ x ≤ bk_number r)
          ∧ match ph with
            | Copying _ _ => ∀ k, k ∈ live → has (backend oldest) k → has (backend newest) k
            | _ => True
            end
  end.

(** The trie in memory rests on entries of the block it was read from. *)
Definition node_ok s (n : TrieNode) (m : contents) (w : Z) (base : option block) : Prop :=
  ∃ (U : MemoryTrieStore) o, Inv w U n m o ∧ extends U s ∧ w < 2 ^ 64
    ∧ match base with
      | None => ∀ k, ts_get U k = None
      | Some p => ∀ tp k, state_tree p tp → is_Some (ts_get U k) → key tp k
      end.

Record good s n m w base W ph : Prop := {
  g_ok : epochs_ok (epochs s);
  g_held : held_in V s;
  g_config : (3 ≤ cfg_epochs (config s))%nat;
  g_writable : read_only s = false;
  g_open : ∃ e, last (epochs s) = Some e ∧ last_block e = None;
  g_blocks : ∀ b, b ∈ W → readable s b ∧ bk_id b ∈ bk_line b;
  g_unique : ∀ b b', b ∈ W → b' ∈ W → bk_id b = bk_id b' → b = b';
  g_order : ∀ r b, r ∈ W → b ∈ W → descends r b → r = b ∨ bk_number r < bk_number b ∧ covered s r b;
  g_base : ∀ p, base = Some p → p ∈ W;
  g_node : node_ok s n m w base;
  g_phase : phase_ok s W ph;
}.

(** *** Stores that keep keys *)

Lemma state_tree_unique b t t' : state_tree b t → state_tree b t' → t = t'.
Proof using Type.
  intros [Hc Hl] [Hc' Hl']. assert (Some t = Some t') as [= ->]; [|done].
  apply ocanonical_unique; [by constructor..|]. intros k. simpl. by rewrite Hl, Hl'.
Qed.

(** A key that is still held has its value. *)
Lemma same_value s s' k m : epochs_ok (epochs s) → epochs_ok (epochs s') → held_in V s → held_in V s' →
  es_get s k = Some m → holds (epochs s') k → es_get s' k = Some m.
Proof using Type*.
  intros Hok Hok' HV HV' Hm [m' Hm']%es_get_holds. rewrite Hm'. f_equal.
  apply Hinj; [by eapply HV'|by eapply HV|].
  rewrite (es_get_hash s k m Hok Hm). by apply (es_get_hash s').
Qed.

Lemma holds_extends s s' : epochs_ok (epochs s) → epochs_ok (epochs s') → held_in V s → held_in V s' →
  (∀ k, holds (epochs s) k → holds (epochs s') k) → extends s s'.
Proof using Type*.
  intros Hok Hok' HV HV' Hh k m Hm. apply (same_value s); [done..|]. apply Hh, es_get_holds. by exists m.
Qed.

Lemma readable_keys s s' b : readable s b →
  (∀ t k m, state_tree b t → key t k → es_get s k = Some m → es_get s' k = Some m) → readable s' b.
Proof using Type.
  intros (t & Ht & Hst & Hown & Hr & Hw) Hk. exists t. split; [done|].
  assert (Stored s' t).
  { eapply (needs_stored s); [done|]. intros k m Hn. apply (Hk t k m Ht). by right. }
  assert (Own s' t) by (apply (Hk t _ _ Ht); [by left|exact Hown]).
  split; [assumption|]. split; [assumption|]. exact (conj Hr Hw).
Qed.

(** A step that loses no key keeps the invariant, if late keys stay late. *)
Lemma good_keeps s s' n m w base W ph ph' : good s n m w base W ph →
  epochs_ok (epochs s') → held_in V s' → config s' = config s → read_only s' = read_only s →
  (∃ e, last (epochs s') = Some e ∧ last_block e = None) →
  (∀ k, holds (epochs s) k → holds (epochs s') k) →
  (∀ r b k, r ∈ W → b ∈ W → bk_number r < bk_number b → late s (bk_number r) k → late s' (bk_number r) k) →
  phase_ok s' W ph' → good s' n m w base W ph'.
Proof using Type*.
  intros [Hok HV Hcfg Hro _ Hb Hu Ho Hbase Hnode _] Hok' HV' Hc' Hr' Hopen' Hh Hlate Hph.
  assert (extends s s') as Hext by by apply holds_extends.
  constructor; try done; [by rewrite Hc'|by rewrite Hr'|..].
  - intros b Hin. destruct (Hb b Hin) as [Hrd ?]. split; [|done]. eapply readable_keys; [done|].
    intros t k m' _ _. apply Hext.
  - intros r b Hr Hbn Hd. destruct (Ho r b Hr Hbn Hd) as [?|[Hlt Hcov]]; [by left|right]. split; [done|].
    intros tr tb k Htr Htb Hk. destruct (Hcov tr tb k Htr Htb Hk) as [?|?]; [by left|right]. by apply (Hlate r b).
  - destruct Hnode as (U & o & HI & HU & Hw & Hbs). exists U, o. split_and!; try done.
    intros h m' Hm'. by apply Hext, HU.
Qed.

(** *** The trie in memory *)

Definition keys_of (t : tree) : gset bytes := {[hash_of t]} ∪ needed t.

Lemma keys_of_spec t k : k ∈ keys_of t ↔ key t k.
Proof using Type. unfold keys_of, key. by rewrite elem_of_union, elem_of_singleton, needed_spec. Qed.

(** The entries of a tree, by themselves, hold it. *)
Lemma entries_hold s t : Stored s t → Own s t →
  Stored (snapshot s (keys_of t)) t ∧ Own (snapshot s (keys_of t)) t.
Proof using Type.
  intros Hst Hown. split.
  - eapply (needs_stored s); [done|]. intros k m Hn Hm. apply snapshot_get. split; [|done]. apply keys_of_spec. by right.
  - apply snapshot_get. split; [|exact Hown]. apply keys_of_spec. by left.
Qed.

(** A node over a tree of the store rests on the tree's entries. *)
Lemma node_rests s n m w b t : state_tree b t → Inv w s n m (Some t) → Stored s t → Own s t → w < 2 ^ 64 →
  node_ok s n m w (Some b).
Proof using Type.
  intros Ht [HR Hc Hwi Hwe Hlk Ho] Hst Hown Hw. destruct (entries_hold s t Hst Hown) as [Hst' Hown'].
  exists (snapshot s (keys_of t)), (Some t). split; [|split; [by intros h m' [_ ?]%snapshot_get|split; [done|]]].
  - constructor; [|exact Hc|exact Hwi|exact Hwe|exact Hlk|by intros ? [= <-]].
    eapply (Rep_stored s); [exact HR|exact Hst'|done].
  - intros tp k Htp [m' [Hk _]%snapshot_get]. rewrite (state_tree_unique b tp t Htp Ht). by apply keys_of_spec.
Qed.

Lemma chain_good_trie s n m w base W ph a n' : good s n m w base W ph → a ≠ OpSave → step (s, n) a (s, n') →
  w + op_cost a < 2 ^ 64 → good s n' (spec_step m a) (w + op_cost a) base W ph.
Proof using Type.
  intros [Hok HV Hcfg Hro Hop Hb Hu Ho Hbase (U & o & HI & HU & Hw & Hbs) Hph] Hne Hstep Hcost.
  destruct (step_inv_via s w U n m o a n') as [o' HI']; [done..|].
  constructor; try done. exists U, o'. done.
Qed.

Lemma good_checkout s n m w base W ph b n' : good s n m w base W ph → b ∈ W →
  try_resolve s (RefHash (bk_root b)) = Found n' →
  good s n' (bk_contents b) (bk_weight b) (Some b) W ph.
Proof using Type.
  intros [Hok HV Hcfg Hro Hop Hb Hu Ho _ _ Hph] Hin Hres.
  constructor; try done; [by intros ? [= <-]|].
  destruct (Hb b Hin) as [(t & Ht & Hst & Hown & Hroot & Hwi & Hwe & Hlt) _].
  assert (n' = reload (mem t)) as ->.
  { rewrite Hroot in Hres. cbn [try_resolve] in Hres. unfold hash_of in Hres. rewrite Hown in Hres.
    rewrite (stored_parse_reload s s) in Hres by done. by injection Hres. }
  destruct (stored_parse s t Hst) as (n2 & Hp & HR).
  rewrite (stored_parse_reload s s) in Hp by done. injection Hp as <-.
  apply (node_rests s _ _ _ b t); [done| |done..].
  destruct Ht as [Hc Hlk]. constructor; [exact HR|by constructor|by intros ? [= <-]|exact Hwe|exact Hlk|by intros ? [= <-]].
Qed.

Lemma good_flags s n m w base W ph c stats : good s n m w base W ph →
  good (with_last_collect (with_collecting s c) stats) n m w base W ph.
Proof using Type*.
  intros Hg. pose proof Hg as [Hok HV Hcfg Hro Hop _ _ _ _ _ Hph]. eapply good_keeps; [exact Hg|done..].
Qed.

(** *** Saving a block *)

Lemma with_same_backend (e : Epoch B) : with_backend e (backend e) = e.
Proof using Type. by destruct e. Qed.

(** A save writes its batch into the newest epoch. *)
Lemma save_epochs s n es newest : epochs s = es ++ [newest] → read_only s = false → eb_ok (backend newest) →
  Forall addressed (collect_for_save n true).2 →
  (eb_put_many (backend newest) (collect_for_save n true).2).1 = Ok tt →
  let s' := (save s n true).2 in
  ∃ b, epochs s' = es ++ [with_backend newest b] ∧ config s' = config s ∧ read_only s' = read_only s ∧ eb_ok b
    ∧ ∀ k, has (backend newest) k ∨ k ∈ (collect_for_save n true).2.*1 → has b k.
Proof using Type*.
  intros Hes Hro Hok Haddr. unfold save. destruct (collect_for_save n true) as [n' batch].
  cbn [snd fst] in *. intros Hput. destruct batch as [|e batch].
  { exists (backend newest). rewrite with_same_backend. split_and!; try done. by intros k [?|?%elem_of_nil]. }
  cbn [ts_put_many epoch_trie_store]. unfold es_put_many. rewrite Hro. case_decide; [done|].
  cbn [default epochs with_epochs with_written config read_only]. rewrite Hes, alter_last_snoc.
  destruct (eb_put_many (backend newest) (e :: batch)) as [res b] eqn:Hp. cbn [fst snd] in *. subst res.
  exists b. split_and!; [done|done|done|..]; eapply eb_put_many_done in Hp as [? ?]; try done;
    intros k v Hin; rewrite Forall_forall in Haddr; symmetry; exact (Haddr _ Hin).
Qed.

Lemma late_newest s s' es e e' n k : epochs s = es ++ [e] → epochs s' = es ++ [e'] →
  (has (backend e) k → has (backend e') k) → (∀ x, last_block e' = Some x → n < x) →
  late s n k → late s' n k.
Proof using Type.
  intros Hes Hes' Hk Hx (e0 & Hin & Hh & Hlt). rewrite Hes in Hin. unfold late. rewrite Hes'.
  apply elem_of_app in Hin as [Hin| ->%list_elem_of_singleton].
  - exists e0. split; [apply elem_of_app; by left|done].
  - exists e'. split; [apply elem_of_app; right; by left|auto].
Qed.

(** The writes of a block to the newest epoch. *)
Lemma phase_newest s s' W W' es e e' ph : epochs s = es ++ [e] → epochs s' = es ++ [e'] → config s' = config s →
  (∀ k, has (backend e) k → has (backend e') k) → (∀ b, b ∈ W → b ∈ W') →
  phase_ok s W ph → phase_ok s' W' ph.
Proof using Type.
  intros Hes Hes' Hc Hk HW. destruct ph as [|r live|r live]; [done|..]; cbn [phase_ok];
    intros (Hr & Hlive & oldest & es0 & newest & Heq & Hlen & Hold & Hdr); (split; [by apply HW|]); (split; [done|]);
    rewrite Hes in *; rewrite Hes'; (assert (es = oldest :: es0 ∧ e = newest) as [-> ->]
      by (rewrite app_comm_cons in Heq; by apply app_inj_tail in Heq as [-> ->]));
    exists oldest, es0, e'; rewrite Hc; split_and!; try done.
  - by rewrite !length_app in *.
  - by rewrite !length_app in *.
  - intros k Hkl Hko. by apply Hk, Hdr.
Qed.

Lemma batch_no_collision s (U : MemoryTrieStore) batch : extends U s → held_in V s → epochs_ok (epochs s) →
  Forall addressed batch → Forall (λ e, e.2 ∈ V) batch → no_collision U batch.
Proof using Type*.
  intros HU HV Hok Haddr HB h m m' Hin Hor. rewrite Forall_forall in Haddr, HB.
  pose proof (Haddr _ Hin) as Hm. pose proof (HB _ Hin) as HmV. unfold addressed in Hm. cbn in Hm, HmV.
  destruct Hor as [Hin'|Hget].
  - pose proof (Haddr _ Hin') as Hm'. pose proof (HB _ Hin') as HmV'. unfold addressed in Hm'. cbn in Hm', HmV'.
    apply Hinj; [done..|congruence].
  - apply HU in Hget. apply Hinj; [by eapply HV|done|]. rewrite (es_get_hash s h m' Hok Hget). done.
Qed.

(** What the saved tree needs is what its node rested on, or in the batch. *)
Lemma batch_covers (U : MemoryTrieStore) n m w t k : Inv w U n m (Some t) →
  no_collision U (collect_for_save n true).2 → key t k →
  is_Some (ts_get U k) ∨ k ∈ (collect_for_save n true).2.*1.
Proof using Type.
  intros HI Hnc Hk. set (batch := (collect_for_save n true).2) in *. set (U' := put_many U batch).
  destruct (inv_collected w U U' n m (Some t) HI) as [_ Hst]; [by apply put_many_extends|by apply put_many_written|].
  destruct (Hst t eq_refl) as [Hs Ho].
  assert (is_Some (ts_get U' k)) as Hin.
  { destruct Hk as [->|Hn]; [by eexists|by eapply stored_needs]. }
  destruct (decide (k ∈ batch.*1)); [by right|left]. subst U'. by rewrite ts_get_put_many_ne in Hin.
Qed.

(** The save of a block, step by step: the store it leaves. *)
Lemma save_grows s n m w base W ph newest : good s n m w base W ph →
  last (epochs s) = Some newest → Forall addressed (collect_for_save n true).2 →
  (eb_put_many (backend newest) (collect_for_save n true).2).1 = Ok tt → held_in V (save s n true).2 →
  let s' := (save s n true).2 in
  good s' n m w base W ph ∧ extends s s'
  ∧ (∀ W', (∀ b, b ∈ W → b ∈ W') → phase_ok s' W' ph)
  ∧ ∀ k, k ∈ (collect_for_save n true).2.*1 → ∀ nr, late s' nr k.
Proof using Type*.
  intros Hg Hlast Haddr Hput HV' s'. pose proof Hg as [Hok HV _ Hro (e0 & He0 & Hnone) _ _ _ _ _ Hph].
  rewrite Hlast in He0. injection He0 as <-.
  destruct (snoc_case (epochs s)) as [Hnil|(es & x & Hes)]; [by rewrite Hnil in Hlast|].
  rewrite Hes, last_snoc in Hlast. injection Hlast as ->. rewrite Hes in Hok. apply epochs_ok_snoc in Hok as [Hok1 Hok2].
  destruct (save_epochs s n es newest Hes Hro Hok2 Haddr Hput) as (b' & Hes' & Hc' & Hr' & Hok' & Hall). fold s' in Hes', Hc', Hr'.
  assert (∀ W', (∀ b, b ∈ W → b ∈ W') → phase_ok s' W' ph) as Hph'.
  { intros W' HW. eapply (phase_newest s s' W W' es newest (with_backend newest b')); try done.
    intros k ?. apply Hall. by left. }
  assert (epochs_ok (epochs s')) as Hoks by (rewrite Hes'; by apply epochs_ok_snoc).
  assert (∀ k, holds (epochs s) k → holds (epochs s') k) as Hh.
  { intros k. rewrite Hes, Hes', !holds_snoc. intros [?|?]; [by left|right; apply Hall; by left]. }
  split_and!; [|by apply holds_extends; [exact (g_ok _ _ _ _ _ _ _ Hg)|..]|done|].
  - eapply good_keeps; [exact Hg|..]; try done.
    + exists (with_backend newest b'). by rewrite Hes', last_snoc.
    + intros r b k _ _ _. apply (late_newest s s' es newest (with_backend newest b')); [done|done|intros; apply Hall; by left|].
      cbn. by rewrite Hnone.
    + by apply Hph'.
  - intros k Hk nr. exists (with_backend newest b'). split; [rewrite Hes'; apply elem_of_app; right; by left|].
    split; [apply Hall; by right|]. cbn. by rewrite Hnone.
Qed.

(** What is written is what is read. *)
Lemma late_written s batch : epochs_ok (epochs s) → held_in V s → Forall addressed batch →
  Forall (λ e, e.2 ∈ V) batch → (∀ k, k ∈ batch.*1 → ∀ nr, late s nr k) → written s batch.
Proof using Type*.
  intros Hok HV Haddr HB Hlate h m Hin. rewrite Forall_forall in HB, Haddr.
  assert (holds (epochs s) h) as [m2 Hm2]%es_get_holds.
  { destruct (Hlate h) with (nr := 0) as (e & ? & ? & _); [apply list_elem_of_fmap; by exists (h, m)|by exists e]. }
  change (es_get s h = Some m). rewrite Hm2. f_equal. apply Hinj; [by eapply HV|exact (HB _ Hin)|].
  rewrite (es_get_hash s h m2 Hok Hm2). exact (Haddr _ Hin).
Qed.

(** The new block against the blocks it descends from. *)
Lemma save_covered s p r b tp t (U : MemoryTrieStore) :
  r = p ∨ bk_number r < bk_number p ∧ covered s r p → state_tree p tp → bk_number p < bk_number b → state_tree b t →
  (∀ k, key t k → late s (bk_number r) k ∨ is_Some (ts_get U k)) → (∀ k, is_Some (ts_get U k) → key tp k) →
  bk_number r < bk_number b ∧ covered s r b.
Proof using Type.
  intros Hor Htp Hlt Ht Hkey HU.
  assert (∀ tb k, state_tree b tb → key tb k → late s (bk_number r) k ∨ key tp k) as Hk.
  { intros tb k Htb Hk. rewrite (state_tree_unique b tb t Htb Ht) in Hk. destruct (Hkey k Hk); auto. }
  destruct Hor as [->|[Hlt' Hcov]].
  - split; [done|]. intros tr tb k Htr Htb Hkb. rewrite (state_tree_unique p tr tp Htr Htp).
    destruct (Hk tb k Htb Hkb); auto.
  - split; [lia|]. intros tr tb k Htr Htb Hkb. destruct (Hk tb k Htb Hkb); [by right|]. by apply (Hcov tr tp).
Qed.

Lemma chain_good_save s n m w base W ph id number newest : good s n m w base W ph → is_empty_trie n = false →
  (∀ b, b ∈ W → bk_id b ≠ id ∧ id ∉ bk_line b) → (∀ p, base = Some p → bk_number p < number) →
  last (epochs s) = Some newest → (eb_put_many (backend newest) (collect_for_save n true).2).1 = Ok tt →
  Forall (λ e, e.2 ∈ V) (collect_for_save n true).2 → held_in V (save s n true).2 →
  let b := mkBlock id number (compute_hash n) m w (id :: match base with Some p => bk_line p | None => [] end) in
  good (save s n true).2 (save s n true).1 m w (Some b) (b :: W) ph.
Proof using Type*.
  intros Hg Hne Hid Hnum Hlast Hput HB HV' b.
  pose proof Hg as [Hok HV _ _ _ Hb Hu _ Hbase (U & o & HI & HU & Hw & Hbs) _].
  destruct o as [t|]; [|by rewrite (is_empty_root_empty n (inv_rep _ _ _ _ _ HI)) in Hne].
  pose proof (root_addressed U n (Some t) (inv_rep _ _ _ _ _ HI)) as Haddr.
  pose proof (batch_no_collision s U _ HU HV Hok Haddr HB) as Hnc.
  destruct (save_grows s n m w base W ph newest Hg Hlast Haddr Hput HV') as (Hg' & Hext & Hph' & Hlate).
  set (s' := (save s n true).2) in *. destruct Hg' as [Hok' _ Hcfg' Hro' Hop' Hb' _ Ho' _ _ _].
  destruct (inv_collected w U s' n m (Some t) HI) as [HI' Hsto];
    [intros h v Hv; by apply Hext, HU|by apply late_written|].
  destruct (Hsto t eq_refl) as [Hst Hown].
  pose proof (inv_canonical _ _ _ _ _ HI) as Hcan. inversion_clear Hcan as [|? Hcan'].
  assert (state_tree b t) as Htree by (split; [done|exact (inv_lookup _ _ _ _ _ HI)]).
  assert (bk_root b = hash_of t) as Hroot.
  { cbn. rewrite (rep_compute_hash _ _ _ (inv_rep _ _ _ _ _ HI)). unfold compute_hash. by rewrite mem_not_empty. }
  constructor; try done.
  - intros b0 [->|Hin]%elem_of_cons; [|by apply Hb']. split; [|by left].
    exists t. split; [done|]. split; [done|]. split; [done|]. split; [done|].
    split; [exact (inv_within _ _ _ _ _ HI t eq_refl)|]. split; [exact (inv_weight _ _ _ _ _ HI)|done].
  - intros b0 b1 [->|Hin0]%elem_of_cons [->|Hin1]%elem_of_cons Heq; [done|..|by apply Hu].
    + by destruct (Hid b1 Hin1).
    + by destruct (Hid b0 Hin0).
  - intros r b0 [->|Hr]%elem_of_cons [->|Hb0]%elem_of_cons Hd; [by left|by destruct (Hid b0 Hb0)| |by apply Ho'].
    right. unfold descends in Hd. cbn in Hd. apply elem_of_cons in Hd as [Heq|Hd]; [by destruct (Hid r Hr)|].
    destruct base as [p|]; [|by apply elem_of_nil in Hd]. destruct (Hb p (Hbase p eq_refl)) as [(tp & Htp & _) _].
    apply (save_covered s' p r b tp t U); [by apply Ho', Hd; [|apply Hbase]|done|by apply Hnum|done| |].
    + intros k Hk. destruct (batch_covers U n m w t k HI Hnc Hk) as [?|?]; [by right|left; by apply Hlate].
    + intros k. by apply Hbs.
  - intros ? [= <-]. by left.
  - rewrite save_fst. by apply (node_rests s' _ m w b t).
  - apply Hph'. intros ? ?. by right.
Qed.

(** *** Flushing *)

Definition flushed (e e' : Epoch B) : Prop :=
  last_block e' = last_block e ∧ eb_ok (backend e') ∧ ∀ k, has (backend e') k ↔ has (backend e) k.

Lemma flush_each_flushed es : epochs_ok es → Forall2 flushed es (flush_each es).2.
Proof using Type*.
  induction es as [|e es IH]; intros Hok; cbn [flush_each]; [constructor|].
  destruct (eb_flush (backend e)) as [res b] eqn:Hf. destruct (flush_each es) as [err es'].
  destruct (eb_flush_done _ _ _ (Hok e ltac:(by left)) Hf) as [? ?].
  constructor; [done|]. apply IH. intros e' ?. apply Hok. by right.
Qed.

Lemma flushed_shape oldest es newest es' : Forall2 flushed (oldest :: es ++ [newest]) es' →
  ∃ o l y, es' = o :: l ++ [y] ∧ length l = length es ∧ flushed oldest o ∧ flushed newest y.
Proof using Type.
  intros (o & l & Ho & Hl & ->)%Forall2_cons_inv_l.
  apply Forall2_app_inv_l in Hl as (l1 & l2 & Hl1 & Hl2 & ->).
  apply Forall2_cons_inv_l in Hl2 as (y & l3 & Hy & ->%Forall2_nil_inv_l & ->).
  exists o, l1, y. split_and!; [done|symmetry; by eapply Forall2_length|done|done].
Qed.

Lemma flush_epochs s : epochs (ts_flush s) = (flush_each (epochs s)).2 ∧ config (ts_flush s) = config s
  ∧ read_only (ts_flush s) = read_only s.
Proof using Type. cbn. unfold es_flush. by destruct (flush_each (epochs s)). Qed.

Lemma chain_good_flush s n m w base W ph : good s n m w base W ph → held_in V (ts_flush s) →
  good (ts_flush s) n m w base W ph.
Proof using Type*.
  intros Hg HV'. pose proof Hg as [Hok HV Hcfg Hro (e0 & He0 & Hnone) _ _ _ _ _ Hph].
  pose proof (flush_each_flushed _ Hok) as Hfl. destruct (flush_epochs s) as (Hes & Hc & Hr).
  set (s' := ts_flush s) in *. rewrite <- Hes in Hfl.
  assert (∀ e, e ∈ epochs s → ∃ e', e' ∈ epochs s' ∧ flushed e e') as Hto.
  { intros e [j Hj]%list_elem_of_lookup_1. destruct (Forall2_lookup_l _ _ _ _ _ Hfl Hj) as (e' & Hj' & ?).
    exists e'. split; [by eapply list_elem_of_lookup_2|done]. }
  eapply good_keeps; [exact Hg|..]; try done.
  - intros e' [j Hj]%list_elem_of_lookup_1. by destruct (Forall2_lookup_r _ _ _ _ _ Hfl Hj) as (e & _ & _ & ? & _).
  - destruct (snoc_case (epochs s)) as [Hnil|(es & x & Heq)]; [by rewrite Hnil in He0|].
    rewrite Heq, last_snoc in He0. injection He0 as ->. rewrite Heq in Hfl.
    apply Forall2_app_inv_l in Hfl as (l1 & l2 & _ & Hf2 & ->). inversion_clear Hf2 as [|? y ? ? Hy Hnil].
    inversion_clear Hnil. exists y. rewrite last_snoc. destruct Hy as [-> _]. done.
  - intros k (e & Hin & Hk). destruct (Hto e Hin) as (e' & ? & _ & _ & Hkk). exists e'. split; [done|]. by apply Hkk.
  - intros r b k _ _ _ (e & Hin & Hk & Hlt). destruct (Hto e Hin) as (e' & ? & Hl & _ & Hkk).
    exists e'. rewrite Hl. split_and!; [done|by apply Hkk|done].
  - destruct ph as [|r live|r live]; [done|..]; cbn [phase_ok] in *;
      destruct Hph as (? & ? & oldest & es & newest & Heq & Hlen & Hold & Hdr); (split; [done|]); (split; [done|]);
      rewrite Heq in Hfl, Hlen; destruct (flushed_shape _ _ _ _ Hfl) as (o & l & y & -> & Hl & (Ho & _ & Hko) & (_ & _ & Hky));
      exists o, l, y; rewrite Hc, Ho; cbn in *; rewrite length_app, Hl in *; split_and!; try done.
    intros k Hkl Hk. apply Hky, Hdr; [done|]. by apply Hko.
Qed.

(** *** A new epoch *)

(** Closing the newest epoch at [cur] and adding an empty one. *)
Lemma rotated_facts s s' es newest cur q b : epochs_ok (es ++ [newest]) → factory_open q = Ok b →
  epochs s' = es ++ [close newest cur] ++ [mkEpoch q b None] →
  epochs_ok (epochs s') ∧ (∃ e, last (epochs s') = Some e ∧ last_block e = None)
  ∧ (∀ k, holds (es ++ [newest]) k → holds (epochs s') k)
  ∧ (∀ e n k, e ∈ es ++ [newest] → has (backend e) k → (∀ x, last_block e = Some x → n < x) → n < cur → late s' n k).
Proof using Type*.
  intros Hok Hq Hes. destruct (Hfresh q b Hq) as [Hb _].
  assert (backend (close newest cur) = backend newest) as Hcl by (unfold close; by destruct (last_block newest)).
  split_and!.
  - rewrite Hes, app_assoc. apply epochs_ok_snoc. split; [|done].
    apply epochs_ok_snoc. rewrite Hcl. by apply epochs_ok_snoc.
  - exists (mkEpoch q b None). by rewrite Hes, app_assoc, last_snoc.
  - intros k. rewrite Hes, app_assoc, !holds_snoc, Hcl. intros ?. by left.
  - intros e n k Hin Hk Hlt Hcur. apply elem_of_app in Hin as [Hin| ->%list_elem_of_singleton]; unfold late; rewrite Hes.
    + exists e. split; [apply elem_of_app; by left|done].
    + exists (close newest cur). split; [apply elem_of_app; right; by left|]. rewrite Hcl. split; [done|].
      unfold close. destruct (last_block newest) eqn:Hl; [by rewrite Hl|]. by intros ? [= <-].
Qed.

Lemma good_grow s n m w base W current s' : good s n m w base W Idle → (∀ b, b ∈ W → bk_number b ≤ current) →
  rotate_only s current = (Ok tt, s') → held_in V s' → good s' n m w base W Idle.
Proof using Type*.
  intros Hg Hcur Hrot HV'. pose proof Hg as [Hok _ _ _ (e0 & He0 & _) _ _ _ _ _ _].
  destruct (snoc_case (epochs s)) as [Hnil|(es & newest & Hes)]; [by rewrite Hnil in He0|].
  destruct (rotate_only_done s es newest current s' Hes Hrot) as (b & Hb & Hes' & Hc & Hr).
  rewrite Hes in Hok. destruct (rotated_facts s s' es newest current _ b Hok Hb Hes') as (Hok' & Hop' & Hh & Hlate).
  eapply good_keeps; [exact Hg|done..|by rewrite Hes| |done].
  intros r b0 k _ Hb0 Hlt (e & Hin & Hk & Hx). rewrite Hes in Hin. eapply Hlate; [done..|].
  specialize (Hcur b0 Hb0). lia.
Qed.

(** *** The cycle *)

Lemma good_mark s n m w base W root fuel pins live lost p : good s n m w base W Idle → root ∈ W →
  state_apart (bk_contents root) → (cfg_epochs (config s) ≤ epoch_count s)%nat →
  may_sweep s (bk_number root) = Ok tt → mark fuel s (bk_root root) pins = Returns (Ok (live, lost, p)) →
  good s n m w base W (Marking root live).
Proof using Type*.
  intros Hg Hin Hap Hcount Hmay Hmark. pose proof Hg as [Hok HV Hcfg Hro Hop Hb Hu Ho Hbase Hnode _].
  destruct (Hb root Hin) as [(t & Ht & Hst & Hown & Hroot & _) _]. rewrite Hroot in Hmark.
  destruct (mark_root s fuel t pins live lost p Hok Hst Hown) as [Hr Hall]; [|done|].
  { destruct Ht as [Hc Hl]. by apply (Hap t). }
  constructor; try done. split; [done|]. split.
  { intros tr k Htr Hk. rewrite (state_tree_unique root tr t Htr Ht) in Hk. destruct Hk as [->|?]; auto. }
  unfold epoch_count in Hcount. unfold may_sweep in Hmay.
  destruct (epochs s) as [|oldest rest] eqn:Hes; [done|]. cbn [head] in Hmay.
  destruct (snoc_case rest) as [->|(es & newest & ->)]; [cbn in Hcount; lia|].
  exists oldest, es, newest. split_and!; [done|done| |done].
  destruct (last_block oldest) as [x|]; [|done]. exists x. split; [done|].
  destruct (Z.leb_spec x (bk_number root)); [done|discriminate Hmay].
Qed.

Lemma good_drain s n m w base W root live stats s' : good s n m w base W (Marking root live) →
  drain s live = (Ok stats, s') → held_in V s' → good s' n m w base W (Copying root live).
Proof using Type*.
  intros Hg Hdr HV'. pose proof Hg as [Hok _ _ _ (e0 & He0 & Hnone) _ _ _ _ _ (Hin & Hlive & oldest & es & newest & Hes & Hlen & Hold & _)].
  destruct (drain_spec s live es oldest newest _ s' Hes Hok Hdr) as (b & -> & _ & Hkeep & Hdone).
  destruct (Hdone eq_refl) as [Hb Hcopied]. rewrite Hes, app_comm_cons in Hok.
  rewrite Hes, app_comm_cons, last_snoc in He0. injection He0 as <-.
  pose proof Hok as [Hok1 Hok2]%epochs_ok_snoc.
  eapply good_keeps; [exact Hg|..]; cbn [epochs with_epochs config read_only]; rewrite ?app_comm_cons; try done.
  - by apply epochs_ok_snoc.
  - exists (with_backend newest b). by rewrite last_snoc.
  - intros k. rewrite Hes, app_comm_cons, !holds_snoc. intros [?|?]; [by left|right; by apply Hkeep].
  - intros r b0 k _ _ _. eapply (late_newest _ _ (oldest :: es) newest (with_backend newest b)); [done..|auto|].
    cbn. by rewrite Hnone.
  - split; [done|]. split; [done|]. exists oldest, es, (with_backend newest b).
    cbn [epochs with_epochs config]. rewrite Hes in Hlen. cbn in *. rewrite length_app in *. split_and!; try done.
    intros k Hk [v Hv]. apply Hcopied; [|done|by exists v].
    assert (keccak v = k) as <- by (eapply eb_get_hash; [|exact Hv]; apply Hok1; by left). apply length_keccak.
Qed.

(** A key that is marked or in a younger epoch survives the sweep of the oldest. *)
Lemma sweep_keeps s (root : block) (live : gset bytes) es oldest newest s' :
  epochs s = oldest :: es ++ [newest] →
  (∀ k, holds (es ++ [newest]) k → holds (epochs s') k) →
  (∀ k, k ∈ live → has (backend oldest) k → has (backend newest) k) →
  (∀ tr k, state_tree root tr → key tr k → k ∈ live) → (∃ x, last_block oldest = Some x ∧ x ≤ bk_number root) →
  ∀ b tr tb k, b = root ∨ covered s root b → state_tree root tr → state_tree b tb → key tb k →
  holds (epochs s) k → holds (epochs s') k.
Proof using Type.
  intros Hes Hh Hcopied Hlive (x & Hx & Hle) b tr tb k Hcov Htr Htb Hk Hin.
  assert (key tr k ∨ late s (bk_number root) k) as [Hkr|(e & He & Hek & Hlt)].
  { destruct Hcov as [->|Hcov]; [left; by rewrite (state_tree_unique root tr tb)|by eapply Hcov]. }
  - apply Hh. destruct Hin as (e & He & Hek). rewrite Hes in He. apply elem_of_cons in He as [->|He]; [|by exists e].
    apply holds_snoc. right. apply Hcopied; [by eapply Hlive|done].
  - apply Hh. rewrite Hes in He. apply elem_of_cons in He as [->|He]; [|by exists e].
    specialize (Hlt x Hx). lia.
Qed.

Lemma good_sweep s n m w base W root live current reclaimed s' : good s n m w base W (Copying root live) →
  (∀ b, b ∈ W → bk_number b ≤ current) → (∀ p, base = Some p → descends root p) →
  sweep_and_rotate s current = (Ok reclaimed, s') → held_in V s' →
  good s' n m w base (filter (descends root) W) Idle.
Proof using Type*.
  intros [Hok HV Hcfg Hro _ Hb Hu Ho Hbase Hnode (Hin & Hlive & oldest & es & newest & Hes & Hlen & Hold & Hcopied)]
    Hcur Hdesc Hsweep HV'.
  destruct (sweep_done s oldest es newest current reclaimed s' Hes Hlen Hsweep) as (q & b' & Hq & Hes' & Hc' & Hr').
  assert (epochs_ok (es ++ [newest])) as Hok1 by (intros e He; apply Hok; rewrite Hes; by right).
  destruct (rotated_facts s s' es newest current q b' Hok1 Hq Hes') as (Hok' & Hop' & Hh & Hlate).
  destruct (Hb root Hin) as [(tr & Htr & _) _].
  assert (∀ b, b ∈ W → descends root b → b = root ∨ bk_number root < bk_number b ∧ covered s root b) as Hline.
  { intros b Hbn Hd. destruct (Ho root b Hin Hbn Hd); auto. }
  assert (∀ b tb k v, b ∈ W → descends root b → state_tree b tb → key tb k → es_get s k = Some v → es_get s' k = Some v)
    as Hkeep.
  { intros b tb k v Hbn Hd Htb Hk Hv. apply (same_value s); [done..|].
    eapply (sweep_keeps s root live es oldest newest s'); try done; [|by apply es_get_holds; exists v].
    destruct (Hline b Hbn Hd) as [?|[_ ?]]; auto. }
  assert (∀ b, b ∈ filter (descends root) W ↔ descends root b ∧ b ∈ W) as HW by (intros b; apply list_elem_of_filter).
  constructor; try done; [by rewrite Hc'|by rewrite Hr'|..].
  - intros b [Hd Hbn]%HW. destruct (Hb b Hbn) as [Hrd ?]. split; [|done].
    eapply readable_keys; [done|]. intros t k v Ht Hk. by eapply Hkeep.
  - intros b b0 [_ ?]%HW [_ ?]%HW. by apply Hu.
  - intros r b [Hdr Hr]%HW [Hdb Hbn]%HW Hd. destruct (Ho r b Hr Hbn Hd) as [?|[Hlt Hcov]]; [by left|right].
    split; [done|]. intros t tb k Ht Htb Hk. destruct (Hcov t tb k Ht Htb Hk) as [?|(e & He & Hek & Hx)]; [by left|right].
    apply (Hlate e); [|done|done|specialize (Hcur b Hbn); lia].
    rewrite Hes in He. apply elem_of_cons in He as [->|He]; [|done]. exfalso.
    destruct Hold as (x & Hlx & Hle). specialize (Hx x Hlx).
    destruct (Hline r Hr Hdr) as [->|[? _]]; lia.
  - intros p Hp. apply HW. auto.
  - destruct Hnode as (U & o & HI & HU & Hw & Hbs). exists U, o. split; [done|]. split; [|done].
    intros h v Hv. destruct base as [p|]; [|by rewrite Hbs in Hv].
    destruct (Hb p (Hbase p eq_refl)) as [(tp & Htp & _) _].
    apply (Hkeep p tp); [by apply Hbase|by apply Hdesc|done| |by apply HU].
    apply Hbs; [done|by exists v].
Qed.

(** *** Opening *)

Lemma good_open s resume_at : open_with [] (λ _, None) (None, []) cfg resume_at = Ok s →
  good s empty_node ∅ 0 None [] Idle.
Proof using Type*.
  unfold open_with, config_validate. destruct (Nat.ltb_spec (cfg_epochs cfg) 3) as [|Hcfg]; [done|].
  change (merge_sort Z.le []) with (@nil Z). rewrite decide_True by done. cbn [open_epochs result_bind].
  destruct (factory_open 0) as [b|] eqn:Hb; [|done]. cbn [result_bind backend].
  destruct (Hfresh 0 b Hb) as [Hok Hempty].
  assert (∀ es s, epochs s = es → config s = cfg → read_only s = false →
    (∀ e, e ∈ es → eb_ok (backend e) ∧ ∀ k, eb_get (backend e) k = None) →
    (∃ e, last es = Some e ∧ last_block e = None) → good s empty_node ∅ 0 None [] Idle) as Hgood.
  { intros es s0 Hes Hc Hr Hfr Hop.
    assert (∀ k, es_get s0 k = None) as Hnone.
    { intros k. destruct (es_get s0 k) as [v|] eqn:Hv; [|done].
      assert (holds (epochs s0) k) as (e & He & x & Hx) by (apply es_get_holds; by exists v).
      rewrite Hes in He. destruct (Hfr e He) as [_ Hk]. by rewrite Hk in Hx. }
    constructor; try done; try (by intros ? ?%elem_of_nil); try (by intros ? ? ?%elem_of_nil).
    - intros e He. rewrite Hes in He. by apply Hfr.
    - intros h v Hv. change (es_get s0 h = Some v) in Hv. by rewrite Hnone in Hv.
    - by rewrite Hc.
    - by rewrite Hes.
    - exists memory_new, None. split_and!; [apply inv_init|by intros h v|lia|done]. }
  destruct (eb_is_empty b).
  - intros [= <-]. eapply Hgood; [reflexivity|done|done| |by exists (mkEpoch 0 b None)].
    by intros e ->%list_elem_of_singleton.
  - destruct (factory_open (u64 _)) as [b2|] eqn:Hb2; [|done]. destruct (Hfresh _ b2 Hb2) as [Hok2 Hempty2].
    cbn [result_bind]. cbv beta iota. intros [= <-]. eapply Hgood; [reflexivity|done|done| |by eexists].
    intros e [->|[->|?%elem_of_nil]%elem_of_cons]%elem_of_cons; [|done|done].
    unfold close_inherited. cbn. by destruct resume_at.
Qed.

Lemma chain_good s n m w base W ph : chain s n m w base W ph → good s n m w base W ph.
Proof using Type*.
  induction 1; eauto using chain_good_trie, good_checkout, good_flags, chain_good_flush, good_grow, good_mark, good_drain, good_sweep, good_open, chain_good_save.
Qed.

End gc.
End EpochGc.
