(* ===== verification/EpochCycle.v ===== *)
(** * The collector's promises: storage/src/epoch_store.rs

    The theorems about [collect_pinned]: blocks that descend from the collection root stay
    readable, the root's own state survives every way a cycle can end, pinned states are
    kept, and a cycle ends.  Then what is lost where the code's assumptions fail, on runs
    of a small store. *)
From S2P Require Import Prelude Path Varint Store Node Unitrie NodeCodec NodeRefine NodeSave Trie EpochStore EpochMark EpochGc.
From stdpp Require Import strings gmap sorting.
From stdpp Require Import options.

Module EpochCycle.
Import Store Node Unitrie NodeCodec NodeRefine NodeSave Trie EpochStore EpochMark EpochGc.
Local Open Scope Z_scope.

Section cycle.
Context {B : Type} `{EpochBackendLaws B} `{EpochHost B}.
Implicit Types (s : EpochTrieStore B) (es : list (Epoch B)).

(** A factory that gives empty epochs for new numbers. *)
Definition fresh_epochs : Prop := ∀ q b, factory_open q = Ok b → eb_ok b ∧ ∀ k, eb_get b k = None.

(** ** Blocks *)

Lemma readable_held s b : readable s b → Held s (bk_root b) (bk_contents b).
Proof.
  intros (t & [Hc Hl] & Hst & Hown & Hroot & _). exists t. split_and!; try done.
  rewrite Hroot. unfold compute_hash. by rewrite mem_not_empty.
Qed.


(** ** The cycle of the code is one of the machine *)

Lemma with_collecting_flags s c : with_collecting s c = with_last_collect (with_collecting s c) (last_collect s).
Proof. done. Qed.

(** The store a cycle has when its drain is done. *)
Definition drained_in (V : gset bytes) (fuel : nat) s (root : bytes) (pins : list bytes) : Prop :=
  ∀ live lost p, mark fuel s root (filter (λ p, in_store s p = true) pins) = Returns (Ok (live, lost, p)) →
    held_in V (drain s live).2.

Lemma collect_inner_chain cfg V fuel s n m w base W root pins current stats s' :
  chain cfg V s n m w base W Idle → root ∈ W → state_apart (bk_contents root) →
  (∀ b, b ∈ W → bk_number b ≤ current) → (∀ p, base = Some p → descends root p) →
  drained_in V fuel s (bk_root root) pins → held_in V s' →
  collect_inner fuel s (bk_root root) pins (bk_number root) current = (Returns (Ok stats), s') →
  chain cfg V s' n m w base (if (epoch_count s <? cfg_epochs (config s))%nat then W else filter (descends root) W) Idle.
Proof.
  intros Hch Hin Hap Hcur Hbase Hdr HV'. unfold collect_inner.
  destruct (negb (in_store s (bk_root root))); [done|].
  destruct (Nat.ltb_spec (epoch_count s) (cfg_epochs (config s))) as [|Hcount].
  { destruct (rotate_only s current) as [[[]|e] s1] eqn:Hrot; [|done]. intros [= _ <-]. by eapply chain_grow. }
  destruct (may_sweep s (bk_number root)) as [[]|e] eqn:Hmay; [|done].
  destruct (mark fuel s (bk_root root) _) as [[[[live lost] p]|e]| |] eqn:Hmark; [|done..].
  specialize (Hdr live lost p Hmark). destruct (drain s live) as [[[[sc dr] by']|e] s1] eqn:Hd; [|done].
  destruct (sweep_and_rotate s1 current) as [[rec|e] s2] eqn:Hsw; [|done]. intros [= _ <-].
  eapply chain_sweep; [|done..]. eapply chain_drain; [|done..]. by eapply chain_mark.
Qed.

Lemma rotate_count s current s' : rotate_only s current = (Ok tt, s') → epoch_count s' = S (epoch_count s).
Proof.
  unfold rotate_only. cbn. destruct (factory_open (next_seq s)); [|done]. intros [= <-]. unfold epoch_count. cbn.
  rewrite length_app. unfold close_newest. destruct (snoc_case (epochs s)) as [->|(es & x & ->)]; [done|].
  rewrite alter_last_snoc, !length_app. cbn. lia.
Qed.

Lemma drain_count s live : epoch_count (drain s live).2 = epoch_count s ∧ config (drain s live).2 = config s.
Proof.
  assert (∀ b, epoch_count (set_newest s b) = epoch_count s ∧ config (set_newest s b) = config s) as Hset.
  { intros b. unfold set_newest, epoch_count. cbn. destruct (snoc_case (epochs s)) as [->|(es & x & ->)]; [done|].
    by rewrite alter_last_snoc, !length_app. }
  unfold drain. repeat case_match; cbn [snd]; auto.
Qed.

(** A cycle that succeeds adds an epoch below the configured number, and replaces one at it. *)
Lemma collect_inner_count fuel s root pins rb current stats s' :
  collect_inner fuel s root pins rb current = (Returns (Ok stats), s') →
  epoch_count s' = (if (epoch_count s <? cfg_epochs (config s))%nat then S (epoch_count s) else epoch_count s).
Proof.
  unfold collect_inner. destruct (negb (in_store s root)); [done|].
  destruct (Nat.ltb_spec (epoch_count s) (cfg_epochs (config s))) as [|Hcount].
  { destruct (rotate_only s current) as [[[]|e] s1] eqn:Hrot; [|done]. intros [= _ <-]. by eapply rotate_count. }
  destruct (may_sweep s rb) as [[]|e] eqn:Hmay; [|done].
  destruct (mark fuel s root _) as [[[[live lost] p]|e]| |]; [|done..].
  destruct (drain_count s live) as [Hc1 Hc2]. destruct (drain s live) as [[[[sc dr] by']|e] s1]; [|done]. cbn [snd] in *.
  destruct (sweep_and_rotate s1 current) as [[rec|e] s2] eqn:Hsw; [|done]. intros [= _ <-]. revert Hsw.
  unfold sweep_and_rotate, epoch_count in *. rewrite Hc2.
  destruct (epochs s1) as [|old rest] eqn:He.
  { unfold may_sweep in Hmay. cbn in Hc1. destruct (epochs s); [done|discriminate Hc1]. }
  rewrite Hc1. destruct (Nat.leb_spec (cfg_epochs (config s)) (length (epochs s))); [|lia].
  destruct (remove_dir_all (seq old)); [done|]. set (s3 := match last_block old with Some n => _ | None => _ end).
  assert (epochs s3 = rest) as He3 by (subst s3; by destruct (last_block old)).
  destruct (rotate_only s3 current) as [[[]|e] s4] eqn:Hrot; [|done]. intros [= _ <-].
  apply rotate_count in Hrot. unfold epoch_count in Hrot. rewrite Hrot, He3. by rewrite <- Hc1.
Qed.


(** ** A cycle ends *)

Lemma mark_pins_finish (K : gset bytes) fuel s : epochs_ok (epochs s) → (∀ k, is_Some (es_get s k) → k ∈ K) →
  (size K + 2 ≤ fuel)%nat → ∀ pins live lost, mark_pins fuel s live pins lost ≠ Unfinished.
Proof using Type*.
  intros Hok HK Hf. induction pins as [|p pins IH]; intros live lost; cbn [mark_pins]; [done|].
  pose proof (walk_finish s Hok K fuel live [p] HK Hf). by destruct (walk fuel s live [p]).
Qed.

(** C36: a cycle ends.  The walk reads the store level by level and never twice, so two more
    levels than there are keys in the store are enough, whatever the entries hold. *)
Theorem collect_terminates (K : gset bytes) fuel s root pins root_block current
    (Hok : epochs_ok (epochs s)) (HK : ∀ k, is_Some (es_get s k) → k ∈ K) (Hfuel : (size K + 2 ≤ fuel)%nat) :
  (collect_pinned fuel s root pins root_block current).1 ≠ Unfinished.
Proof using Type*.
  unfold collect_pinned. destruct (collecting s); [done|]. set (s0 := with_collecting s true).
  assert ((collect_inner fuel s0 root pins root_block current).1 ≠ Unfinished) as Hne.
  { unfold collect_inner. destruct (negb (in_store s0 root)); [done|]. destruct (_ <? _)%nat; [by destruct (rotate_only s0 current)|].
    destruct (may_sweep s0 root_block); [|done].
    assert (∀ ps, mark fuel s0 root ps ≠ Unfinished) as Hm.
    { intros ps. unfold mark. pose proof (walk_finish s0 Hok K fuel ∅ [root] HK Hfuel).
      destruct (walk fuel s0 ∅ [root]) as [live missing| |]; [|done..]. destruct (0 <? missing)%nat; [done|].
      pose proof (mark_pins_finish K fuel s0 Hok HK Hfuel ps live []).
      by destruct (mark_pins fuel s0 live ps []) as [[[]|]| |]. }
    specialize (Hm (filter (λ p, in_store s0 p = true) pins)).
    destruct (mark fuel s0 root _) as [[[[live lost] p]|e]| |]; [|done..].
    destruct (drain s0 live) as [[[[]]|] s1]; [|done]. by destruct (sweep_and_rotate s1 current) as [[]]. }
  by destruct (collect_inner fuel s0 root pins root_block current) as [[[]| |] s1].
Qed.

(** ** Whatever way a cycle ends *)

(** What an epoch answers has the hash asked for; weaker than its invariant, and left by a
    write that fails. *)
Definition reads_hash es : Prop := ∀ e k v, e ∈ es → eb_get (backend e) k = Some v → keccak v = k.

Lemma ok_reads_hash es : epochs_ok es → reads_hash es.
Proof using Type*. intros Hok e k v He. apply eb_get_hash. by apply Hok. Qed.

Lemma reads_hash_get s k v : reads_hash (epochs s) → es_get s k = Some v → keccak v = k.
Proof.
  intros Hr Hv. assert (∃ e, e ∈ epochs s ∧ eb_get (backend e) k = Some v) as (e & He & Hk); [|by eapply Hr].
  revert Hv. unfold es_get. setoid_rewrite <- elem_of_rev. generalize (rev (epochs s)) as es.
  induction es as [|e es IH]; cbn [probe]; [done|]. destruct (eb_get (backend e) k) eqn:Hk.
  - intros [= ->]. exists e. split; [by left|done].
  - intros (e' & ? & ?)%IH. exists e'. split; [by right|done].
Qed.

Lemma reads_hash_snoc es e : reads_hash (es ++ [e]) ↔ reads_hash es ∧ (∀ k v, eb_get (backend e) k = Some v → keccak v = k).
Proof. unfold reads_hash. setoid_rewrite elem_of_app. setoid_rewrite list_elem_of_singleton. naive_solver. Qed.

(** A store keeps the keys of another that satisfy [P], and answers with their hashes. *)
Definition keeps (P : bytes → Prop) es es' : Prop :=
  reads_hash es' ∧ ∀ k, P k → holds es k → holds es' k.

Lemma close_backend (e : Epoch B) cur : backend (close e cur) = backend e.
Proof. unfold close. by destruct (last_block e). Qed.

(** Rotating, with or without an error. *)
Lemma rotate_keeps P s es newest cur res s' : fresh_epochs → epochs s = es ++ [newest] → reads_hash (epochs s) →
  rotate_only s cur = (res, s') → keeps P (epochs s) (epochs s').
Proof using Type*.
  intros Hfresh Hes. unfold rotate_only, close_newest. rewrite Hes, alter_last_snoc, reads_hash_snoc.
  intros [Hr1 Hr2]. change (match last_block newest with Some _ => newest | None => closed_at newest cur end)
    with (close newest cur). cbn [next_seq with_epochs with_next_seq epochs].
  destruct (factory_open (next_seq s)) as [b|e] eqn:Hq; intros [= <- <-]; cbn [epochs with_epochs with_next_seq with_written].
  - destruct (Hfresh _ b Hq) as [Hb _]. split.
    + apply reads_hash_snoc. split; [apply reads_hash_snoc; by rewrite close_backend|].
      intros k v. by apply eb_get_hash.
    + intros k _. rewrite !holds_snoc, close_backend. intros ?. by left.
  - split; [apply reads_hash_snoc; by rewrite close_backend|]. intros k _. by rewrite !holds_snoc, close_backend.
Qed.

(** Sweeping, with or without an error: the keys behind the oldest epoch stay. *)
Lemma sweep_and_rotate_keeps s oldest es newest cur res s' : fresh_epochs → epochs s = oldest :: es ++ [newest] →
  (cfg_epochs (config s) ≤ length (epochs s))%nat → reads_hash (es ++ [newest]) →
  sweep_and_rotate s cur = (res, s') → keeps (λ _, True) (es ++ [newest]) (epochs s').
Proof using Type*.
  intros Hfresh Hes Hlen Hr. unfold sweep_and_rotate. rewrite Hes in *.
  destruct (Nat.leb_spec (cfg_epochs (config s)) (length (oldest :: es ++ [newest]))); [|lia].
  destruct (remove_dir_all (seq oldest)); [by intros [= <- <-]|].
  set (s1 := match last_block oldest with Some n => _ | None => _ end).
  assert (epochs s1 = es ++ [newest]) as He by (subst s1; by destruct (last_block oldest)).
  destruct (rotate_only s1 cur) as [r s2] eqn:Hrot. intros [= _ <-].
  rewrite <- He in Hr |- *. by eapply (rotate_keeps _ s1 es newest).
Qed.

(** The whole cycle, for a key that a successful mark has. *)
Lemma collect_inner_keeps (P : bytes → Prop) fuel s root pins rb cur o s' : fresh_epochs → epochs_ok (epochs s) →
  (3 ≤ cfg_epochs (config s))%nat → (∀ k, P k → length k = 32%nat) →
  (∀ live lost p, mark fuel s root (filter (λ p, in_store s p = true) pins) = Returns (Ok (live, lost, p)) →
     ∀ k, P k → k ∈ live) →
  collect_inner fuel s root pins rb cur = (o, s') → keeps P (epochs s) (epochs s').
Proof using Type*.
  intros Hfresh Hok Hcfg HP Hmark. pose proof (ok_reads_hash _ Hok) as Hr.
  assert (keeps P (epochs s) (epochs s)) as Hsame by (by split).
  unfold collect_inner. destruct (in_store s root) eqn:Hin; cbn [negb]; [|by intros [= <- <-]].
  assert (epochs s ≠ []) as Hne.
  { apply bool_decide_eq_true in Hin. intros Hnil. unfold es_get in Hin. rewrite Hnil in Hin. by destruct Hin. }
  destruct (Nat.ltb_spec (epoch_count s) (cfg_epochs (config s))) as [|Hcount].
  { destruct (snoc_case (epochs s)) as [|(es & newest & Hes)]; [done|].
    destruct (rotate_only s cur) as [r s1] eqn:Hrot. intros [= <- <-]. by eapply (rotate_keeps _ s es newest). }
  destruct (may_sweep s rb); [|by intros [= <- <-]].
  destruct (mark fuel s root (filter (λ p, in_store s p = true) pins)) as [[[[live lost] p]|e]| |]; [|by intros [= <- <-]..].
  specialize (Hmark live lost p eq_refl). unfold epoch_count in Hcount.
  assert (∃ oldest es newest, epochs s = oldest :: es ++ [newest]) as (oldest & es & newest & Hes).
  { destruct (epochs s) as [|oldest rest]; [done|]. destruct (snoc_case rest) as [->|(es & newest & ->)]; [cbn in Hcount; lia|].
    eauto. }
  destruct (drain s live) as [res s1] eqn:Hdr.
  destruct (drain_spec s live es oldest newest res s1 Hes Hok Hdr) as (b & -> & Hrd & Hkeep & Hdone).
  rewrite Hes in *. rewrite app_comm_cons, reads_hash_snoc in Hr. destruct Hr as [Hr1 Hr2].
  assert (reads_hash (es ++ [with_backend newest b])) as Hrest.
  { apply reads_hash_snoc. split; [|done]. intros e k v He. apply Hr1. by right. }
  destruct res as [[[sc dr] by']|e].
  2: { intros [= <- <-]. cbn [epochs with_epochs]. split.
       - rewrite app_comm_cons. by apply reads_hash_snoc.
       - intros k _. rewrite !app_comm_cons, !holds_snoc. intros [?|?]; [by left|right; by apply Hkeep]. }
  destruct (Hdone eq_refl) as [_ Hcopied].
  destruct (sweep_and_rotate _ cur) as [res2 s2] eqn:Hsw.
  eapply (sweep_and_rotate_keeps _ oldest es (with_backend newest b)) in Hsw as [Hsr Hsk];
    [|done|done|by cbn in *; rewrite length_app in *|done].
  assert (keeps P (oldest :: es ++ [newest]) (epochs s2)) as Hk; [|destruct res2; by intros [= <- <-]].
  split; [done|]. intros k HPk (e & He & Hek). apply Hsk; [done|]. apply elem_of_cons in He as [->|He].
  - apply holds_snoc. right. apply Hcopied; [by apply HP|by apply Hmark|done].
  - apply elem_of_app in He as [He| ->%list_elem_of_singleton]; apply holds_snoc; [left; by exists e|right; by apply Hkeep].
Qed.

Lemma collect_pinned_keeps (P : bytes → Prop) fuel s root pins rb cur o s' : fresh_epochs → epochs_ok (epochs s) →
  (3 ≤ cfg_epochs (config s))%nat → (∀ k, P k → length k = 32%nat) →
  (∀ live lost p, mark fuel (with_collecting s true) root (filter (λ p, in_store s p = true) pins)
     = Returns (Ok (live, lost, p)) → ∀ k, P k → k ∈ live) →
  collect_pinned fuel s root pins rb cur = (o, s') → keeps P (epochs s) (epochs s').
Proof using Type*.
  intros Hfresh Hok Hcfg HP Hmark. unfold collect_pinned. destruct (collecting s).
  { intros [= <- <-]. split; [by apply ok_reads_hash|done]. }
  destruct (collect_inner fuel (with_collecting s true) root pins rb cur) as [o1 s1] eqn:Hc.
  apply (collect_inner_keeps P) in Hc; [|done..]. by destruct o1 as [[]| |]; intros [= <- <-].
Qed.

(** A tree whose keys are kept is held. *)
Lemma keeps_held V s s' t : distinct V → held_in V s → held_in V s' → epochs_ok (epochs s) →
  keeps (key t) (epochs s) (epochs s') → Stored s t → Own s t → Stored s' t ∧ Own s' t.
Proof using Type*.
  intros Hinj HV HV' Hok [Hr Hk] Hst Hown.
  assert (∀ k m, key t k → es_get s k = Some m → es_get s' k = Some m) as Hget.
  { intros k m Hkey Hm. assert (holds (epochs s') k) as [m' Hm']%es_get_holds.
    { apply Hk; [done|]. apply es_get_holds. by exists m. }
    rewrite Hm'. f_equal. apply Hinj; [by eapply HV'|by eapply HV|].
    rewrite (reads_hash_get s' k m' Hr Hm'). symmetry. by apply (es_get_hash s). }
  split; [|by apply Hget; [left|exact Hown]].
  eapply (needs_stored s); [done|]. intros k m Hn. apply Hget. by right.
Qed.

Lemma key_length t k : key t k → length k = 32%nat.
Proof.
  intros [->|Hn]; [apply length_keccak|]. induction Hn; [apply length_keccak..|done].
Qed.


(** ** Pins *)

(** No long value of the states is the message of a node of one of them. *)
Definition states_apart (ms : list contents) : Prop :=
  ∀ ts, Forall2 (λ t m, canonical t ∧ ∀ k, tlookup t k = m !! k) ts ms → apart ts.

(** A held state, with its tree. *)
Definition held_tree s (t : tree) (st : bytes * contents) : Prop :=
  canonical t ∧ (∀ k, tlookup t k = st.2 !! k) ∧ Stored s t ∧ Own s t ∧ st.1 = hash_of t.

Lemma held_trees s (states : list (bytes * contents)) : (∀ r c, (r, c) ∈ states → Held s r c) →
  ∃ ts, Forall2 (held_tree s) ts states.
Proof.
  induction states as [|[r c] states IH]; intros Hh; [exists []; constructor|].
  destruct IH as [ts Hts]; [intros r' c' ?; apply Hh; by right|].
  destruct (Hh r c) as (t & Hst & Hown & Hc & Hroot & Hlk); [by left|]. exists (t :: ts). constructor; [|done].
  split_and!; [done..|]. cbn. rewrite Hroot. unfold compute_hash. by rewrite mem_not_empty.
Qed.

Lemma forall2_left {A C} (P : A → C → Prop) l k x : Forall2 P l k → x ∈ l → ∃ y, y ∈ k ∧ P x y.
Proof.
  intros Hf [j Hj]%list_elem_of_lookup_1. destruct (Forall2_lookup_l _ _ _ _ _ Hf Hj) as (y & Hy & ?).
  exists y. split; [by eapply list_elem_of_lookup_2|done].
Qed.

Lemma forall2_right {A C} (P : A → C → Prop) l k y : Forall2 P l k → y ∈ k → ∃ x, x ∈ l ∧ P x y.
Proof.
  intros Hf [j Hj]%list_elem_of_lookup_1. destruct (Forall2_lookup_r _ _ _ _ _ Hf Hj) as (x & Hx & ?).
  exists x. split; [by eapply list_elem_of_lookup_2|done].
Qed.

(** The mark of states that are all held has all their keys, and reports none. *)
Lemma mark_states fuel s root states ts live lost p : epochs_ok (epochs s) →
  (∀ t, t ∈ root :: ts → Stored s t) → (∀ t, t ∈ root :: ts → Own s t) → apart (root :: ts) →
  (∀ q, q ∈ states → ∃ t, t ∈ ts ∧ q = hash_of t) → (∀ t, t ∈ ts → hash_of t ∈ states) →
  mark fuel s (hash_of root) states = Returns (Ok (live, lost, p)) →
  lost = [] ∧ ∀ t k, t ∈ root :: ts → key t k → k ∈ live.
Proof using Type*.
  intros Hok Hst Hown Hap Hq Hts. unfold mark.
  pose proof (walk_marks s Hok (root :: ts) Hst Hown Hap fuel ∅ root ltac:(by left) ltac:(by intros c _ ?%elem_of_empty)) as Hw.
  destruct (walk fuel s ∅ [hash_of root]) as [live0 missing| |]; [|done..].
  destruct Hw as (-> & Hcl0 & Hroot0 & _). cbn [Nat.ltb Nat.leb].
  pose proof (mark_pins_held s fuel (root :: ts) states Hok Hst Hown Hap) as Hp.
  specialize (Hp ltac:(intros q Hin; destruct (Hq q Hin) as (t & ? & ?); exists t; split; [by right|done]) live0 [] Hcl0).
  destruct (mark_pins fuel s live0 states []) as [[[live' lost']|e]| |] eqn:Hmp; [|done..].
  destruct Hp as (-> & Hcl & Hall). intros [= <- <- _]. split; [done|]. apply mark_pins_grows in Hmp; [|done].
  assert (∀ t, t ∈ root :: ts → hash_of t ∈ live') as Hin.
  { intros t [->|Ht]%elem_of_cons; [by apply Hmp|by apply Hall, Hts]. }
  intros t k Ht [->|Hn]; [by apply Hin|].
  eapply (closed_needs s Hok (root :: ts) Hst Hown live' t); [done|exists t; split_and!; [done|constructor|by left]|by apply Hin|done].
Qed.

(** The same for a cycle's pins, by their roots. *)
Lemma pins_marked (fuel : nat) s (root : bytes) (m : contents) (pins : list (bytes * contents)) ts0 : epochs_ok (epochs s) →
  Forall2 (held_tree s) ts0 ((root, m) :: pins) → apart ts0 →
  (∀ q, q ∈ pins.*1 → in_store s q = true)
  ∧ ∀ live lost p, mark fuel (with_collecting s true) root (filter (λ p, in_store s p = true) pins.*1)
      = Returns (Ok (live, lost, p)) → lost = [] ∧ ∀ t k, t ∈ ts0 → key t k → k ∈ live.
Proof using Type*.
  intros Hok Hts Hap.
  assert (∀ t, t ∈ ts0 → Stored s t ∧ Own s t) as Hall.
  { intros t Ht. by destruct (forall2_left _ _ _ _ Hts Ht) as (st & _ & _ & _ & ? & ? & _). }
  apply Forall2_cons_inv_r in Hts as (t0 & ts & (_ & _ & _ & _ & Hroot) & Hts & ->). cbn in Hroot. subst root.
  assert (∀ q, q ∈ pins.*1 → ∃ t, t ∈ ts ∧ q = hash_of t) as Hpin.
  { intros q ([r c] & -> & Hin)%list_elem_of_fmap.
    destruct (forall2_right _ _ _ _ Hts Hin) as (t & Ht & _ & _ & _ & _ & Hr). by exists t. }
  assert (∀ q, q ∈ pins.*1 → in_store s q = true) as Hstore.
  { intros q Hq. destruct (Hpin q Hq) as (t & Ht & ->). apply bool_decide_eq_true.
    destruct (Hall t) as (_ & Hown); [by right|]. by exists (to_message (mem t)). }
  split; [done|]. intros live lost p. apply mark_states; [exact Hok|..|exact Hap|intros q [_ Hq]%list_elem_of_filter; by apply Hpin|].
  - intros t Ht. destruct (Hall t Ht) as [Hst _]. apply (Stored_extends s); [by intros h v|exact Hst].
  - intros t Ht. by destruct (Hall t Ht) as [_ Hown].
  - intros t Ht. destruct (forall2_left _ _ _ _ Hts Ht) as ([r c] & Hst & _ & _ & _ & _ & Hr).
    assert (hash_of t ∈ pins.*1) by (apply list_elem_of_fmap; by exists (r, c)).
    apply list_elem_of_filter. split; [by apply Hstore|done].
Qed.

(** What a successful cycle reports of its pins. *)
Lemma collect_inner_unservable fuel s root pins rb cur stats s' :
  collect_inner fuel s root pins rb cur = (Returns (Ok stats), s') → (∀ q, q ∈ pins → in_store s q = true) →
  (∀ live lost p, mark fuel s root (filter (λ p, in_store s p = true) pins) = Returns (Ok (live, lost, p)) → lost = []) →
  unservable stats = [].
Proof.
  intros Hc Hin Hlost. revert Hc. unfold collect_inner. destruct (negb (in_store s root)); [done|].
  destruct (epoch_count s <? cfg_epochs (config s))%nat.
  { destruct (rotate_only s cur) as [[[]|] ?]; [|done]. by intros [= <- _]. }
  destruct (may_sweep s rb); [|done].
  destruct (mark fuel s root _) as [[[[live lost] p]|e]| |]; [|done..]. specialize (Hlost live lost p eq_refl).
  destruct (drain s live) as [[[[]]|] s1]; [|done]. destruct (sweep_and_rotate s1 cur) as [[]]; [|done].
  intros [= <- _]. cbn. rewrite Hlost. apply elem_of_nil_inv. intros q [Hq Hq']%list_elem_of_filter. by rewrite Hin in Hq.
Qed.


End cycle.
(** ** Runs of a small store

    The epochs are maps in memory, which behave as the trait documents. *)

Section small.
Context `{Keccak}.

Definition map_put_many (b : gmap bytes bytes) (l : list (bytes * bytes)) : gmap bytes bytes :=
  foldl (λ b e, <[e.1 := e.2]> b) b l.

#[global] Instance map_epoch : EpochBackend (gmap bytes bytes) := {
  eb_get b k := b !! k;
  eb_get_many := default_get_many (λ b k, b !! k);
  eb_put b k v := (Ok tt, <[k := v]> b);
  eb_put_many b l := (Ok tt, map_put_many b l);
  eb_flush b := (Ok tt, b);
  eb_is_empty b := bool_decide (b = ∅);
  eb_for_each b := (map_to_list b, None);
  eb_size_bytes b := Z.of_nat (size b);
}.

#[global] Instance map_host : EpochHost (gmap bytes bytes) := {
  factory_open _ := Ok ∅;
  remove_dir_all _ := None;
  record_writable _ := true;
}.

Lemma map_put_many_spec l : ∀ b, (∀ k v, (k, v) ∈ l → keccak v = k) → (∀ k v, b !! k = Some v → keccak v = k) →
  (∀ k v, map_put_many b l !! k = Some v → keccak v = k)
  ∧ ∀ k, is_Some (b !! k) ∨ k ∈ l.*1 → is_Some (map_put_many b l !! k).
Proof.
  induction l as [|[k v] l IH]; intros b Hl Hb; cbn.
  { split; [done|]. by intros k [?|?%elem_of_nil]. }
  destruct (IH (<[k := v]> b)) as [IH1 IH2].
  - intros k' v' ?. apply Hl. by right.
  - intros k' v'. rewrite lookup_insert_Some. intros [[<- <-]|[_ ?]]; [apply Hl; by left|by apply Hb].
  - split; [done|]. intros k' Hk'. apply IH2. destruct (decide (k = k')) as [->|Hne].
    + left. rewrite lookup_insert_eq. by eexists.
    + rewrite lookup_insert_ne by done. destruct Hk' as [?|[?|?]%elem_of_cons]; [by left|done|by right].
Qed.

#[global] Instance map_epoch_laws : EpochBackendLaws (gmap bytes bytes).
Proof.
  refine {| eb_ok (b : gmap bytes bytes) := ∀ k v, b !! k = Some v → keccak v = k |}.
  - auto.
  - done.
  - intros b l b' Hb Hl [= <-]. by apply map_put_many_spec.
  - done.
  - by intros b res b' Hb [= <- <-].
  - intros b k v Hb Hin. cbn in Hin. apply elem_of_map_to_list in Hin. by apply Hb.
  - intros b l k Hb [= <-] [v Hv]. apply list_elem_of_fmap. exists (k, v). split; [done|]. by apply elem_of_map_to_list.
Defined.

Lemma map_fresh : fresh_epochs (B := gmap bytes bytes).
Proof. intros q b [= <-]. split; [by intros k v; rewrite lookup_empty|]. intros k. apply lookup_empty. Qed.

(** The strings of a store, and sets of strings no two of which have one hash. *)
Definition strings_of (s : EpochTrieStore (gmap bytes bytes)) : list bytes :=
  epochs s ≫= λ e, (map_to_list (backend e)).*2.

Lemma held_strings (V : list bytes) s : Forall (λ v, v ∈ V) (strings_of s) → held_in (list_to_set V) s.
Proof.
  intros HV h m Hm. apply elem_of_list_to_set. rewrite Forall_forall in HV. apply HV.
  assert (∃ e, e ∈ epochs s ∧ backend e !! h = Some m) as (e & He & Hk).
  { revert Hm. cbn. unfold es_get. setoid_rewrite <- elem_of_rev. generalize (rev (epochs s)) as es.
    induction es as [|e es IH]; cbn [probe]; [done|]. cbn. destruct (backend e !! h) eqn:Hk.
    - intros [= ->]. exists e. split; [by left|done].
    - intros (e' & ? & ?)%IH. exists e'. split; [by right|done]. }
  apply list_elem_of_bind. exists e. split; [|done]. apply list_elem_of_fmap. exists (h, m).
  split; [done|]. by apply elem_of_map_to_list.
Qed.

(** The keys of a store. *)
Definition store_keys (s : EpochTrieStore (gmap bytes bytes)) : gset bytes :=
  list_to_set (epochs s ≫= λ e, (map_to_list (backend e)).*1).

Lemma store_keys_spec s k : is_Some (es_get s k) → k ∈ store_keys s.
Proof.
  intros (e & He & v & Hv)%es_get_holds. apply elem_of_list_to_set, list_elem_of_bind. exists e. split; [|done].
  apply list_elem_of_fmap. exists (k, v). split; [done|]. by apply elem_of_map_to_list.
Qed.

Lemma batch_strings (V : list bytes) (l : list (bytes * bytes)) :
  Forall (λ e, e.2 ∈ V) l → Forall (λ e, e.2 ∈ (list_to_set V : gset bytes)) l.
Proof. intros Hl. eapply Forall_impl; [exact Hl|]. intros e He. by apply elem_of_list_to_set. Qed.

(** States without long values are apart. *)
Lemma below_lookup t c v : below t c → tval c = Some v → ∃ k, tlookup t k = Some v.
Proof.
  induction 1 as [t|t b c x Hc _ IH]; intros Hv.
  - exists (tpath t). rewrite tlookup_unfold, strip_self. exact Hv.
  - destruct (IH Hv) as [k Hk]. exists (tpath t ++ b :: k). rewrite tlookup_unfold, strip_app. by rewrite Hc.
Qed.

Lemma short_states_apart (ms : list contents) : Forall (map_Forall (λ _ v, length v ≤ 32)%nat) ms → states_apart ms.
Proof.
  intros Hs ts Hts t1 t2 h Ht1 _ (c & v & Hb & Hv & Hlen & _) _.
  destruct (forall2_left _ _ _ _ Hts Ht1) as (m & Hm & _ & Hl). rewrite Forall_forall in Hs.
  destruct (below_lookup t1 c v Hb Hv) as [k Hk]. rewrite Hl in Hk. specialize (Hs m Hm k v Hk). cbn in Hs. lia.
Qed.

Lemma short_apart (m : contents) : map_Forall (λ _ v, length v ≤ 32)%nat m → state_apart m.
Proof.
  intros Hs t Hc Hl. apply (short_states_apart [m]); [by constructor|]. by repeat constructor.
Qed.

End small.
Abbreviation small_store := (EpochTrieStore (gmap bytes bytes)).

Section witness.
#[local] Existing Instance poly_keccak.

#[local] Ltac evaluate := match goal with |- ?P => apply (bool_decide_unpack P); vm_compute; exact I end.

Definition cfg3 : EpochConfig := mkEpochConfig 3 1 1000.

Definition closed_store : small_store := mkEpochStore cfg3 [] 0 0 true false None None [].
Definition ok_store (r : result small_store string) : small_store :=
  match r with Ok s => s | Err _ => closed_store end.

(** A block, two rotations, a second block, and a cycle against the first. *)
Definition st_0 : small_store := ok_store (open_with [] (λ _, None) (None, []) cfg3 None).
Definition nd_0 : TrieNode := put st_0 empty_node key_a [7].
Definition st_1 : small_store := (save st_0 nd_0 true).2.
Definition nd_1 : TrieNode := (save st_0 nd_0 true).1.
Definition contents_1 : contents := <[key_a := [7]]> ∅.
Definition block_1 : block := mkBlock 1 1 (compute_hash nd_0) contents_1 (cost [OpPut key_a [7]]) [1%nat].
Definition st_2 : small_store := (rotate_only st_1 1).2.
Definition st_3 : small_store := (rotate_only st_2 1).2.
Definition nd_2 : TrieNode := put st_3 nd_1 key_b [8].
Definition st_4 : small_store := (save st_3 nd_2 true).2.
Definition nd_4 : TrieNode := (save st_3 nd_2 true).1.
Definition contents_2 : contents := <[key_b := [8]]> contents_1.
Definition block_2 : block :=
  mkBlock 2 2 (compute_hash nd_2) contents_2 (cost [OpPut key_a [7]] + op_cost (OpPut key_b [8])) [2%nat; 1%nat].
Definition st_5 : small_store := (collect_pinned 10 st_4 (bk_root block_1) [] 1 2).2.
Definition live_4 : gset bytes :=
  match mark 10 (with_collecting st_4 true) (bk_root block_1) [] with Returns (Ok (live, _, _)) => live | _ => ∅ end.

Definition run_strings : list bytes :=
  remove_dups (strings_of st_4 ++ strings_of (drain (with_collecting st_4 true) live_4).2 ++ strings_of st_5).

Lemma run_distinct : distinct (list_to_set run_strings).
Proof. apply distinct_list. evaluate. Qed.

Lemma chain_4 : chain cfg3 (list_to_set run_strings) st_4 nd_4 contents_2 (bk_weight block_2) (Some block_2) [block_2; block_1] Idle.
Proof.
  set (V := list_to_set run_strings : gset bytes).
  assert (chain cfg3 V st_1 nd_1 contents_1 (bk_weight block_1) (Some block_1) [block_1] Idle) as H1.
  { apply (chain_save cfg3 V st_0 nd_0 contents_1 (bk_weight block_1) None [] Idle 1 1 (mkEpoch 0 ∅ None)).
    - apply (chain_trie cfg3 V st_0 empty_node ∅ 0 None [] Idle (OpPut key_a [7])).
      + apply (chain_open cfg3 V st_0 None). vm_compute. reflexivity.
      + discriminate.
      + constructor; [vm_compute; discriminate|discriminate|evaluate].
      + evaluate.
    - vm_compute. reflexivity.
    - by intros b ?%elem_of_nil.
    - discriminate.
    - vm_compute. reflexivity.
    - reflexivity.
    - apply batch_strings. evaluate.
    - apply held_strings. evaluate. }
  assert (chain cfg3 V st_3 nd_1 contents_1 (bk_weight block_1) (Some block_1) [block_1] Idle) as H3.
  { apply (chain_grow cfg3 V st_2 _ _ _ _ _ 1 st_3).
    - apply (chain_grow cfg3 V st_1 _ _ _ _ _ 1 st_2); [exact H1| |vm_compute; reflexivity|apply held_strings; evaluate].
      intros b ->%list_elem_of_singleton. vm_compute. discriminate.
    - intros b ->%list_elem_of_singleton. vm_compute. discriminate.
    - vm_compute. reflexivity.
    - apply held_strings. evaluate. }
  apply (chain_save cfg3 V st_3 nd_2 contents_2 (bk_weight block_2) (Some block_1) [block_1] Idle 2 2 (mkEpoch 2 ∅ None)).
  - apply (chain_trie cfg3 V st_3 nd_1 contents_1 (bk_weight block_1) (Some block_1) [block_1] Idle (OpPut key_b [8])).
    + exact H3.
    + discriminate.
    + constructor; [vm_compute; discriminate|discriminate|evaluate].
    + evaluate.
  - vm_compute. reflexivity.
  - intros b ->%list_elem_of_singleton. split; [discriminate|evaluate].
  - intros p [= <-]. vm_compute. reflexivity.
  - vm_compute. reflexivity.
  - reflexivity.
  - apply batch_strings. evaluate.
  - apply held_strings. evaluate.
Qed.

Lemma blocks_current b : b ∈ [block_2; block_1] → bk_number b ≤ 2.
Proof. intros [->|[->|?%elem_of_nil]%elem_of_cons]%elem_of_cons; [vm_compute; discriminate..|done]. Qed.

Lemma drained_4 : drained_in (list_to_set run_strings) 10 (with_collecting st_4 true) (bk_root block_1) [].
Proof.
  intros live lost p Hm. rewrite filter_nil in Hm. assert (live = live_4) as -> by (unfold live_4; by rewrite Hm).
  apply held_strings. evaluate.
Qed.

Lemma chain_5 : ∃ stats, collect_pinned 10 st_4 (bk_root block_1) [] 1 2 = (Returns (Ok stats), st_5)
  ∧ chain cfg3 (list_to_set run_strings) st_5 nd_4 contents_2 (bk_weight block_2) (Some block_2)
      (filter (descends block_1) [block_2; block_1]) Idle.
Proof.
  eexists. split; [vm_compute; reflexivity|].
  destruct (collect_inner 10 (with_collecting st_4 true) (bk_root block_1) [] 1 2) as [o s1] eqn:Hc.
  assert (∃ stats, o = Returns (Ok stats) ∧ st_5 = with_last_collect (with_collecting s1 false) (Some stats)) as (stats & -> & ->).
  { unfold st_5, collect_pinned. rewrite Hc. change (collecting st_4) with false.
    assert (match o with Returns (Ok _) => true | _ => false end = true) as Ho.
    { change o with ((o, s1).1). rewrite <- Hc. vm_compute. reflexivity. }
    destruct o as [[stats|]| |]; try discriminate Ho. exists stats. split; reflexivity. }
  apply chain_flags.
  apply (collect_inner_chain cfg3 _ 10 (with_collecting st_4 true) nd_4 contents_2 (bk_weight block_2) (Some block_2)
    [block_2; block_1] block_1 [] 2 stats s1); [|by right; left| |exact blocks_current| |exact drained_4| |exact Hc].
  - rewrite with_collecting_flags. apply chain_flags, chain_4.
  - apply short_apart. evaluate.
  - intros p [= <-]. evaluate.
  - apply held_strings. replace s1 with (collect_inner 10 (with_collecting st_4 true) (bk_root block_1) [] 1 2).2 by (by rewrite Hc).
    evaluate.
Qed.



Lemma ok_4 : epochs_ok (epochs st_4).
Proof. exact (g_ok _ _ _ _ _ _ _ _ (chain_good _ _ run_distinct map_fresh _ _ _ _ _ _ _ chain_4)). Qed.

Lemma held_4 b : b ∈ [block_2; block_1] → Held st_4 (bk_root b) (bk_contents b).
Proof.
  intros Hb. apply readable_held.
  exact (proj1 (g_blocks _ _ _ _ _ _ _ _ (chain_good _ _ run_distinct map_fresh _ _ _ _ _ _ _ chain_4) b Hb)).
Qed.

Lemma collect_terminates_witness :
  (collect_pinned (size (store_keys st_4) + 2) st_4 (bk_root block_1) [] 1 2).1 ≠ Unfinished.
Proof.
  apply (collect_terminates (store_keys st_4)); [exact ok_4|apply store_keys_spec|lia].
Defined.


Definition st_6 : small_store := (collect_pinned 10 st_4 (bk_root block_2) [bk_root block_1] 2 2).2.


End witness.
End EpochCycle.
