(* ===== verification/EpochLosses.v ===== *)
(** * What a collection can lose: storage/src/epoch_store.rs

    Runs of the collector in which state is lost.  The marks of values and of nodes share
    one set, so a long value that is the message of a node keeps the node's children from
    being walked.  An epoch is closed at the block the chain had when the cycle began,
    which is too low if blocks were executed during it.  A rotation that fails leaves the
    newest epoch closed and written.  A panic leaves the collector's flag set. *)
From S2P Require Import Prelude Path Varint Store Node Unitrie NodeCodec NodeRefine NodeSave Trie EpochStore EpochMark EpochGc EpochCycle.
From stdpp Require Import strings gmap sorting.
From stdpp Require Import options.

Module EpochLosses.
Import Store Node Unitrie NodeCodec NodeRefine NodeSave Trie EpochStore EpochMark EpochGc EpochCycle.
Local Open Scope Z_scope.

Section losses.
#[local] Existing Instance poly_keccak.

(** What a reader finds under a key of the state with a root. *)
Definition read_state (s : small_store) (root : bytes) (key : list bool) : option bytes :=
  match try_resolve s (RefHash root) with Found n => get s n key | _ => None end.

Definition succeeded {A} (o : outcome A) : bool :=
  match o with Returns (Ok _) => true | _ => false end.

(** ** A value that is a node *)

(** A long value under a long path, and the message of its node as the value of the root. *)
Definition deep_key : list bool := true :: replicate 100 false.
Definition deep_value : bytes := replicate 33 1.
Definition node_message : bytes := to_message (mem (leaf (replicate 100 false) deep_value)).

Definition shadow_node : TrieNode := put st_0 (put st_0 empty_node deep_key deep_value) [] node_message.
Definition shadow_root : bytes := compute_hash shadow_node.
Definition sh_1 : small_store := (save st_0 shadow_node true).2.
Definition sh_3 : small_store := (collect 10 (collect 10 sh_1 shadow_root 1 1).2 shadow_root 1 1).2.
Definition sh_4 : outcome CollectStats * small_store := collect 10 sh_3 shadow_root 1 1.


(** ** An epoch closed too early *)

(** A cycle against block 1 that began when it was the head; block 2 is executed before the
    sweep, and two more cycles against block 1 follow. *)
Definition lt_drained : small_store := (drain st_3 live_4).2.
Definition lt_node : TrieNode := put lt_drained nd_1 key_b [8].
Definition lt_root : bytes := compute_hash lt_node.
Definition lt_saved : small_store := (save lt_drained lt_node true).2.
Definition lt_swept : small_store := (sweep_and_rotate lt_saved 1).2.
Definition lt_next : outcome CollectStats * small_store := collect 10 lt_swept (bk_root block_1) 1 2.
Definition lt_last : outcome CollectStats * small_store := collect 10 lt_next.2 (bk_root block_1) 1 2.


End losses.

(** ** A rotation that fails *)

(** A failed rotation leaves the newest epoch closed, and the writes of later blocks go into
    it: its record stays at the block of the failure. *)
Theorem failed_rotation_closes_written_epoch {B} `{EpochBackend B} `{EpochHost B} (s : EpochTrieStore B) es e current err s' entries s''
    (Hes : epochs s = es ++ [e]) (Hopen : last_block e = None) (Hrot : rotate_only s current = (Err err, s'))
    (Hne : entries ≠ []) (Hput : es_put_many s' entries = Some s'') :
  epochs s'' = es ++ [mkEpoch (seq e) (eb_put_many (backend e) entries).2 (Some current)].
Proof.
  revert Hrot Hput. unfold rotate_only, close_newest. rewrite Hes, alter_last_snoc, Hopen. cbn [next_seq with_epochs].
  destruct (factory_open (next_seq s)); [done|]. intros [= _ <-]. unfold es_put_many.
  cbn [read_only with_next_seq with_epochs]. destruct (read_only s); [done|]. case_decide; [done|].
  intros [= <-]. cbn. by rewrite alter_last_snoc.
Qed.

(** A panic in a cycle leaves the flag set, and every later cycle is refused. *)
Theorem panic_ends_collection {B} `{Keccak} `{EpochBackend B} `{EpochHost B} (s : EpochTrieStore B) fuel root pins rb current s'
    (Hpanic : collect_pinned fuel s root pins rb current = (Panics, s')) :
  ∀ fuel' root' pins' rb' current',
    collect_pinned fuel' s' root' pins' rb' current'
    = (Returns (Err "a collection cycle is already running"%string), s').
Proof.
  intros fuel' root' pins' rb' current'. revert Hpanic. unfold collect_pinned at 1. destruct (collecting s); [done|].
  destruct (collect_inner fuel (with_collecting s true) root pins rb current) as [o s1] eqn:Hc.
  destruct o as [[]| |]; try done. intros [= <-].
  assert (collecting s1 = true) as Hf; [|unfold collect_pinned; by rewrite Hf].
  revert Hc. unfold collect_inner. destruct (negb _); [done|].
  destruct (_ <? _)%nat; [by destruct (rotate_only _ current)|]. destruct (may_sweep _ rb); [|done].
  destruct (mark fuel _ root _) as [[[[live lost] p]|e]| |]; [|done| |done].
  - destruct (drain _ live) as [[[[]]|] s2]; [|done]. by destruct (sweep_and_rotate s2 current) as [[]].
  - by intros [= <-].
Qed.

End EpochLosses.
