(* ===== verification/Snapshot.v ===== *)
(** * crates/trie/src/snapshot.rs: offsets into the in-order traversal

    A position in a trie is a byte offset into its in-order traversal, which the sizes the
    nodes commit to make well defined.  [seek] finds the node an offset falls in, [collect]
    the run of nodes from there, and [verify_complete] walks a whole trie and refuses a
    missing node.

    - A function that reads the store returns, beside its result, the records the store
      served it, in order: the [Recorder] of snapshot_proof.rs is a store that keeps them.
      A caller that has no recorder takes the result alone.
    - [collect], the walks of [verify_complete] and [measure_shape] loop on what the store
      holds; they take a fuel, and [None] is "out of fuel".  [seek] has the bound of the
      code, 1024 levels.
    - The workers of [verify_complete] are a step function on their shared state, applied to
      one worker at a time in any order; a step is one access to the shared state with what the
      worker does on its own before it.  The progress reports are left out. *)
From S2P Require Import Prelude Path Varint Store Node.
From stdpp Require Import relations.
From stdpp Require Import options.

Module Snapshot.
Import Store Node.
Local Open Scope Z_scope.

Definition U64_MAX : Z := 2 ^ 64 - 1.

(** ** Reading with a log *)

(** What a record was read for: a node, or a node's long value. *)
Inductive Purpose := ForNode | ForValue.

#[global] Instance purpose_eq_dec : EqDecision Purpose.
Proof. solve_decision. Defined.

Definition Log : Type := list (Purpose * (bytes * bytes)).
Definition Logged (A : Type) : Type := A * Log.

Definition lret {A} (a : A) : Logged A := (a, []).
Definition lbind {A B} (m : Logged A) (f : A → Logged B) : Logged B :=
  ((f m.1).1, m.2 ++ (f m.1).2).

Local Notation "'read*' x := m 'in' k" := (lbind m (λ x, k))
  (at level 10, x pattern, m at level 100, k at level 200).

Definition sum_lengths (l : list bytes) : Z := foldr (λ v a, Z.of_nat (length v) + a) 0 l.

(** ** Data *)

Record Step := mkStep { step_node : TrieNode; went_left : bool }.

Record Seek := mkSeek { seek_path : list Step; seek_node : TrieNode; within : Z }.

Record StreamNode := mkStreamNode {
  offset : Z;
  span : Z;
  message : bytes;
  long_values : list bytes;
}.

Definition wire_len (e : StreamNode) : Z :=
  u64 (Z.of_nat (length (message e)) + sum_lengths (long_values e)).

Definition end_of (e : StreamNode) : Z := u64 (offset e + span e).

Inductive Stop :=
  | StopBudget (budget : Z)
  | StopOffset (to : Z).

Inductive Missing :=
  | MissingNode (h : bytes)
  | MissingValue (h : bytes).

Section snapshot.
Context `{Keccak} {St : Type} `{TrieStore St}.
Implicit Types store : St.

(** ** What a parse reads *)

Definition get_logged (p : Purpose) store (k : bytes) : Logged (option bytes) :=
  match ts_get store k with
  | Some v => (Some v, [(p, (k, v))])
  | None => (None, [])
  end.

(** The reads of [reader_child], [reader_value] and [read_node]: those of the embedded
    children in order, then the node's own long value, as far as the parse gets. *)
Definition child_log (rec : bytes → Log) (present embedded : bool) (r : Reader) : Log :=
  if present && embedded then
    match reader_byte r with
    | None => []
    | Some (len, r) => match reader_take (Z.to_nat len) r with None => [] | Some (body, _) => rec body end
    end
  else [].

Definition value_log store (has_long_val : bool) (r : Reader) : Log :=
  if has_long_val then
    match reader_take 32 r with
    | None => []
    | Some (vh, r) => match reader_take 3 r with None => [] | Some _ => (get_logged ForValue store vh).2 end
    end
  else [].

Definition node_log store (rec : bytes → option TrieNode) (recl : bytes → Log) (r : Reader) : Log :=
  match reader_byte r with
  | None => []
  | Some (flags, r) =>
      let left_present := mask_set flags 0x08 in
      let right_present := mask_set flags 0x04 in
      match reader_shared_path (mask_set flags 0x10) r with
      | None => []
      | Some (_, r) =>
          child_log recl left_present (mask_set flags 0x02) r ++
          match reader_child rec left_present (mask_set flags 0x02) r with
          | None => []
          | Some (_, r) =>
              child_log recl right_present (mask_set flags 0x01) r ++
              match reader_child rec right_present (mask_set flags 0x01) r with
              | None => []
              | Some (_, r) =>
                  match (if left_present || right_present then reader_varint r else rret 0 r) with
                  | None => []
                  | Some (_, r) => value_log store (mask_set flags 0x20) r
                  end
              end
          end
      end
  end.

Fixpoint parse_log (fuel : nat) store (data : bytes) : Log :=
  match fuel with
  | O => []
  | S fuel' => node_log store (parse_fuel fuel' store) (parse_log fuel' store) (mkReader data 0)
  end.

Definition try_from_message_logged store (data : bytes) : Logged (option TrieNode) :=
  (try_from_message store data, parse_log (S (length data)) store data).

Definition resolve_logged store (r : NodeRef TrieNode) : Logged (option TrieNode) :=
  match r with
  | RefEmpty => lret None
  | RefNode n => lret (Some n)
  | RefHash h =>
      read* data := get_logged ForNode store h in
      match data with
      | None => lret None
      | Some data => try_from_message_logged store data
      end
  end.

(** ** Sizes *)

Definition total_size (n : TrieNode) : Z :=
  u64 (u64 (children_size n + external_value_length n) + Z.of_nat (message_length n)).

Definition embedded_size (r : NodeRef TrieNode) : Z :=
  match r with
  | RefNode n => if is_embeddable n then total_size n else 0
  | _ => 0
  end.

Definition stream_size (n : TrieNode) : Z :=
  u64 (u64 (u64 (external_value_length n + Z.of_nat (message_length n)) + embedded_size (left_ref n))
       + embedded_size (right_ref n)).

Definition is_embedded (r : NodeRef TrieNode) : bool :=
  match r with RefNode n => is_embeddable n | _ => false end.

Definition branch_size store (r : NodeRef TrieNode) : Logged Z :=
  match r with
  | RefEmpty => lret 0
  | _ =>
      if is_embedded r then lret 0
      else read* n := resolve_logged store r in
           lret (match n with Some n => total_size n | None => 0 end)
  end.

(** ** [seek] *)

Fixpoint seek_loop (levels : nat) store (path : list Step) (node : TrieNode) (offset : Z)
    : Logged (option Seek) :=
  match levels with
  | O => lret None
  | S levels' =>
      read* lsize := branch_size store (left_ref node) in
      if offset <? lsize then
        read* next := resolve_logged store (left_ref node) in
        match next with
        | None => lret None
        | Some next => seek_loop levels' store (path ++ [mkStep node true]) next offset
        end
      else
        let here := stream_size node in
        if offset <? u64 (lsize + here) then lret (Some (mkSeek path node (offset - lsize)))
        else if ref_is_empty (right_ref node) || is_embedded (right_ref node) then lret None
        else
          read* next := resolve_logged store (right_ref node) in
          match next with
          | None => lret None
          | Some next =>
              seek_loop levels' store (path ++ [mkStep node false]) next (offset - u64 (lsize + here))
          end
  end.

Definition SEEK_LEVELS : nat := 1024.

Definition seek store (root : TrieNode) (offset : Z) : Logged (option Seek) :=
  if is_empty_trie root then lret None else seek_loop SEEK_LEVELS store [] root offset.

(** ** [collect] *)

Definition own_long_value store (n : TrieNode) : Logged (list bytes) :=
  if has_long_value n then
    match value n with
    | Some v => lret [v]
    | None =>
        match value_hash n with
        | Some h => read* v := get_logged ForValue store h in lret (match v with Some v => [v] | None => [] end)
        | None => lret []
        end
    end
  else lret [].

Fixpoint long_values_of store (n : TrieNode) : Logged (list bytes) :=
  let embedded (r : NodeRef TrieNode) : Logged (list bytes) :=
    match r with
    | RefNode c => if is_embeddable c then long_values_of store c else lret []
    | _ => lret []
    end in
  read* own := own_long_value store n in
  read* l := embedded (left_ref n) in
  read* r := embedded (right_ref n) in
  lret (own ++ l ++ r).

(** To the leftmost node below [n]; the head of the list is the end of the code's stack. *)
Fixpoint leftmost (fuel : nat) store (n : TrieNode) (stack : list TrieNode)
    : Logged (option (TrieNode * list TrieNode)) :=
  match fuel with
  | O => lret None
  | S fuel' =>
      if negb (ref_is_empty (left_ref n)) && negb (is_embedded (left_ref n)) then
        read* next := resolve_logged store (left_ref n) in
        match next with
        | None => lret (Some (n, stack))
        | Some next => leftmost fuel' store next (n :: stack)
        end
      else lret (Some (n, stack))
  end.

Definition is_full (stop : Stop) (used at_ cost : Z) : bool :=
  match stop with
  | StopBudget budget => budget <? sat_add 64 used cost
  | StopOffset to => to <=? at_
  end.

Definition halts (stop : Stop) (max_nodes : Z) (out : list StreamNode) (used at_ cost : Z) : bool :=
  match out with
  | [] => false
  | _ => is_full stop used at_ cost || (max_nodes <=? Z.of_nat (length out))
  end.

Definition right_pending (n : TrieNode) : option (NodeRef TrieNode) :=
  if negb (ref_is_empty (right_ref n)) && negb (is_embedded (right_ref n))
  then Some (right_ref n) else None.

Fixpoint collect_loop (fuel : nat) store (stop : Stop) (max_nodes : Z) (out : list StreamNode)
    (used at_ : Z) (stack : list TrieNode) (pending : option TrieNode)
    (descend_right : option (NodeRef TrieNode)) : Logged (option (list StreamNode)) :=
  match fuel with
  | O => lret None
  | S fuel' =>
      let emit (node : TrieNode) (stack : list TrieNode) : Logged (option (list StreamNode)) :=
        read* values := long_values_of store node in
        let entry := mkStreamNode at_ (stream_size node) (to_message node) values in
        let cost := wire_len entry in
        if halts stop max_nodes out used at_ cost then lret (Some out)
        else collect_loop fuel' store stop max_nodes (out ++ [entry]) (u64 (used + cost))
               (u64 (at_ + span entry)) stack None (right_pending node) in
      match pending with
      | Some n => emit n stack
      | None =>
          match descend_right with
          | Some r =>
              read* n := resolve_logged store r in
              match n with
              | None => collect_loop fuel' store stop max_nodes out used at_ stack None None
              | Some n =>
                  read* found := leftmost fuel' store n stack in
                  match found with
                  | None => lret None
                  | Some (n, stack) => emit n stack
                  end
              end
          | None =>
              match stack with
              | [] => lret (Some out)
              | n :: stack => emit n stack
              end
          end
      end
  end.

(** The ancestors still owing their entry, the innermost first. *)
Definition owing (path : list Step) : list TrieNode :=
  reverse (step_node <$> filter (λ s, went_left s = true) path).

Definition collect (fuel : nat) store (root : TrieNode) (offset : Z) (stop : Stop) (max_nodes : Z)
    : Logged (option (list StreamNode)) :=
  if is_empty_trie root then lret (Some [])
  else
    read* start := seek store root offset in
    match start with
    | None => lret (Some [])
    | Some start =>
        collect_loop fuel store stop max_nodes [] 0 (offset - within start)
          (owing (seek_path start)) (Some (seek_node start)) None
    end.

Definition chunk_from_limited (fuel : nat) store (root : TrieNode) (offset budget max_nodes : Z)
    : Logged (option (list StreamNode)) :=
  collect fuel store root offset (StopBudget budget) max_nodes.

Definition chunk_from (fuel : nat) store (root : TrieNode) (offset budget : Z)
    : Logged (option (list StreamNode)) :=
  chunk_from_limited fuel store root offset budget U64_MAX.

Definition chunk_until (fuel : nat) store (root : TrieNode) (from to : Z)
    : Logged (option (list StreamNode)) :=
  collect fuel store root from (StopOffset to) U64_MAX.

(** ** [verify_complete] *)

Definition check_value store (n : TrieNode) : option Missing :=
  if has_long_value n && is_none (value n) then
    match value_hash n with
    | Some h => match ts_get store h with None => Some (MissingValue h) | Some _ => None end
    | None => None
    end
  else None.

Definition strict_child store (r : NodeRef TrieNode) : result (list TrieNode) Missing :=
  match r with
  | RefEmpty => Ok []
  | RefNode n => Ok [n]
  | RefHash h => match resolve store r with Some n => Ok [n] | None => Err (MissingNode h) end
  end.

(** The visit of one node: its children, left first. *)
Definition visit store (n : TrieNode) : result (list TrieNode) Missing :=
  match check_value store n with
  | Some m => Err m
  | None =>
      let? l := strict_child store (left_ref n) in
      let? r := strict_child store (right_ref n) in
      Ok (l ++ r)
  end.

(** *** Phase one *)

(** The largest entry of the heap of pieces [(size, index)]. *)
Definition larger (a b : Z * nat) : Z * nat :=
  if (b.1 <? a.1) || ((b.1 =? a.1) && (b.2 <? a.2)%nat) then a else b.

Definition heap_peek (heap : list (Z * nat)) : option (Z * nat) :=
  match heap with
  | [] => None
  | a :: rest => Some (foldl larger a rest)
  end.

Definition heap_remove (heap : list (Z * nat)) (a : Z * nat) : list (Z * nat) :=
  filter (λ b, b.2 ≠ a.2) heap.

Definition heap_push (pieces : list TrieNode) (heap : list (Z * nat)) (n : TrieNode)
    : list TrieNode * list (Z * nat) :=
  (pieces ++ [n], heap ++ [(total_size n, length pieces)]).

(** The pieces left in the heap and the number of nodes split; [None] is "out of fuel".  Every
    index of the heap is one of a piece. *)
Fixpoint split_pieces (fuel : nat) store (bound max_pieces : Z) (pieces : list TrieNode)
    (heap : list (Z * nat)) (counted : Z) : option (result (list TrieNode * Z) Missing) :=
  match fuel with
  | O => None
  | S fuel' =>
      let finish := Some (Ok (omap (λ e, pieces !! e.2) heap, counted)) in
      match heap_peek heap with
      | None => finish
      | Some top =>
          if (top.1 <=? bound) || (max_pieces <=? Z.of_nat (length heap)) then finish
          else
            match pieces !! top.2 with
            | None => finish
            | Some node =>
                match visit store node with
                | Err m => Some (Err m)
                | Ok children =>
                    let '(pieces, heap) :=
                      foldl (λ ph n, heap_push ph.1 ph.2 n) (pieces, heap_remove heap top) children in
                    split_pieces fuel' store bound max_pieces pieces heap (u64 (counted + 1))
                end
            end
      end
  end.

Definition phase_one (fuel : nat) store (root : TrieNode) (workers : Z)
    : option (result (list TrieNode * Z) Missing) :=
  let total := total_size root in
  let bound := Z.max 1 (total / (workers * 4)) in
  split_pieces fuel store bound (workers * 64) [root] [(total, 0%nat)] 0.

(** *** Phase two *)

Record Shared := mkShared {
  next_subtree : nat;
  nodes : Z;
  failure : option Missing;
}.

Inductive Worker :=
  | Looking
  | Taking
  | Walking (stack : list TrieNode) (local : Z)
  | Gone.

Definition add_nodes (sh : Shared) (n : Z) : Shared :=
  mkShared (next_subtree sh) (u64 (nodes sh + n)) (failure sh).

Definition report (sh : Shared) (m : Missing) : Shared :=
  mkShared (next_subtree sh) (nodes sh)
    (match failure sh with None => Some m | found => found end).

Definition REPORT_NODES : Z := 4096.

(** One step of a worker; [None] once it has returned. *)
Definition worker_step store (frontier : list TrieNode) (sh : Shared) (w : Worker)
    : option (Shared * Worker) :=
  match w with
  | Looking => Some (sh, match failure sh with Some _ => Gone | None => Taking end)
  | Taking =>
      Some (mkShared (next_subtree sh + 1) (nodes sh) (failure sh),
            match frontier !! next_subtree sh with
            | Some subtree => Walking [subtree] 0
            | None => Gone
            end)
  | Walking [] local => Some (add_nodes sh local, Looking)
  | Walking (node :: stack) local =>
      let local := local + 1 in
      match visit store node with
      | Err m => Some (report sh m, Gone)
      | Ok children =>
          let stack := reverse children ++ stack in
          if REPORT_NODES <=? local then Some (add_nodes sh local, Walking stack 0)
          else Some (sh, Walking stack local)
      end
  | Gone => None
  end.

Definition Crew : Type := Shared * list Worker.

(** Worker [i] takes a step. *)
Definition crew_step store (frontier : list TrieNode) (i : nat) (c : Crew) : option Crew :=
  match c.2 !! i with
  | None => None
  | Some w =>
      match worker_step store frontier c.1 w with
      | None => None
      | Some (sh, w') => Some (sh, <[i := w']> c.2)
      end
  end.

Definition crew_next store (frontier : list TrieNode) (c c' : Crew) : Prop :=
  ∃ i, crew_step store frontier i c = Some c'.

Definition crew_init (workers : nat) (counted : Z) : Crew :=
  (mkShared 0 counted None, replicate workers Looking).

Definition all_gone (ws : list Worker) : Prop := Forall (λ w, w = Gone) ws.

Definition outcome (sh : Shared) : result Z Missing :=
  match failure sh with Some m => Err m | None => Ok (nodes sh) end.

(** The results of [verify_complete]: the order of the heap's pieces and the schedule of the
    workers are free. *)
Inductive verify_complete (fuel : nat) store (root : TrieNode) (threads : nat)
    : result Z Missing → Prop :=
  | vc_split_missing m :
      phase_one fuel store root (Z.of_nat (Nat.max 1 threads)) = Some (Err m) →
      verify_complete fuel store root threads (Err m)
  | vc_no_pieces counted :
      phase_one fuel store root (Z.of_nat (Nat.max 1 threads)) = Some (Ok ([], counted)) →
      verify_complete fuel store root threads (Ok counted)
  | vc_walked pieces counted frontier sh ws :
      phase_one fuel store root (Z.of_nat (Nat.max 1 threads)) = Some (Ok (pieces, counted)) →
      frontier ≡ₚ pieces → frontier ≠ [] →
      rtc (crew_next store frontier) (crew_init (Nat.max 1 threads) counted) (sh, ws) → all_gone ws →
      verify_complete fuel store root threads (outcome sh).

(** ** [measure_shape] *)

Record TrieShape := mkTrieShape {
  shape_nodes : Z;
  value_nodes : Z;
  value_depth_sum : Z;
  max_depth : Z;
  hash_children : Z;
  embedded_children : Z;
  inline_value_bytes : Z;
  long_value_bytes : Z;
}.

Definition shape_default : TrieShape := mkTrieShape 0 0 0 0 0 0 0 0.

Definition shape_value (sh : TrieShape) (n : TrieNode) (depth : Z) : TrieShape :=
  if has_long_value n || negb (is_none (value n)) then
    mkTrieShape (shape_nodes sh) (u64 (value_nodes sh + 1)) (u64 (value_depth_sum sh + depth))
      (Z.max (max_depth sh) depth) (hash_children sh) (embedded_children sh)
      (if has_long_value n then inline_value_bytes sh
       else match value n with
            | Some v => u64 (inline_value_bytes sh + Z.of_nat (length v))
            | None => inline_value_bytes sh
            end)
      (if has_long_value n then u64 (long_value_bytes sh + Z.of_nat (value_length n))
       else long_value_bytes sh)
  else sh.

Definition shape_child store (acc : TrieShape * list TrieNode) (r : NodeRef TrieNode)
    : TrieShape * list TrieNode :=
  let '(sh, pushed) := acc in
  match r with
  | RefEmpty => (sh, pushed)
  | RefNode n =>
      (mkTrieShape (shape_nodes sh) (value_nodes sh) (value_depth_sum sh) (max_depth sh)
         (hash_children sh) (u64 (embedded_children sh + 1)) (inline_value_bytes sh)
         (long_value_bytes sh), n :: pushed)
  | RefHash _ =>
      (mkTrieShape (shape_nodes sh) (value_nodes sh) (value_depth_sum sh) (max_depth sh)
         (u64 (hash_children sh + 1)) (embedded_children sh) (inline_value_bytes sh)
         (long_value_bytes sh),
       match resolve store r with Some n => n :: pushed | None => pushed end)
  end.

Definition shape_count (sh : TrieShape) : TrieShape :=
  mkTrieShape (u64 (shape_nodes sh + 1)) (value_nodes sh) (value_depth_sum sh) (max_depth sh)
    (hash_children sh) (embedded_children sh) (inline_value_bytes sh) (long_value_bytes sh).

Fixpoint measure_loop (fuel : nat) store (sh : TrieShape) (stack : list (TrieNode * Z))
    : option TrieShape :=
  match fuel with
  | O => None
  | S fuel' =>
      match stack with
      | [] => Some sh
      | (n, depth) :: stack =>
          let sh := shape_value (shape_count sh) n depth in
          let '(sh, pushed) := foldl (shape_child store) (sh, []) [left_ref n; right_ref n] in
          measure_loop fuel' store sh (((λ c, (c, u32 (depth + 1))) <$> pushed) ++ stack)
      end
  end.

Definition measure_shape (fuel : nat) store (root : TrieNode) : option TrieShape :=
  measure_loop fuel store shape_default [(root, 0)].

End snapshot.

End Snapshot.
