(* ===== verification/SnapshotView.v ===== *)
(** * A trie seen through part of its records

    A client that downloads a trie, and the check of a chunk of one, read it from a store that
    holds some of its records and perhaps strings that are none of them.  [load part t] is the
    node the message of [t] gives there: the node of [t] without the long values the store does
    not have.  Its message, its sizes and its references are those of [t].

    [inorder] is the traversal the offsets of snapshot.rs count in, and [sized] says that the
    sizes the nodes commit to add up along it. *)
From S2P Require Import Prelude Path Varint Store Node Unitrie NodeCodec NodeRefine NodeSave Trie EpochMark Snapshot.
From stdpp Require Import options.

Module SnapshotView.
Import Store Node Unitrie NodeCodec NodeRefine NodeSave Trie EpochMark Snapshot.
Local Open Scope Z_scope.

Section fade.
Context `{Keccak} {Pt : Type} `{TrieStore Pt} (part : Pt).

(** The node without the long values [part] does not have. *)
Fixpoint fade (n : TrieNode) : TrieNode :=
  let fr (r : NodeRef TrieNode) : NodeRef TrieNode :=
    match r with RefNode c => RefNode (fade c) | _ => r end in
  mkTrieNode (shared_path n)
    (match long_value_len n, value_hash n with Some _, Some h => ts_get part h | _, _ => value n end)
    (value_hash n) (long_value_len n) (fr (left_ref n)) (fr (right_ref n)) (children_size n) (saved n).

Definition fade_ref (r : NodeRef TrieNode) : NodeRef TrieNode :=
  match r with RefNode c => RefNode (fade c) | _ => r end.

Lemma fade_eq n : fade n =
  mkTrieNode (shared_path n)
    (match long_value_len n, value_hash n with Some _, Some h => ts_get part h | _, _ => value n end)
    (value_hash n) (long_value_len n) (fade_ref (left_ref n)) (fade_ref (right_ref n)) (children_size n) (saved n).
Proof. by destruct n. Qed.

(** A node in hand: its value is there, with its hash and, if it is long, its length; and
    [part] has no other string under that hash. *)
Inductive loaded : TrieNode → Prop :=
  | loaded_intro n :
      value_hash n = keccak <$> value n →
      (∀ z, long_value_len n = Some z → ∃ v, value n = Some v ∧ z = Z.of_nat (length v) ∧
         (32 < length v)%nat ∧ ∀ m, ts_get part (keccak v) = Some m → m = v) →
      (∀ c, left_ref n = RefNode c → loaded c) →
      (∀ c, right_ref n = RefNode c → loaded c) →
      loaded n.

Definition loaded_ref (r : NodeRef TrieNode) : Prop := ∀ c, r = RefNode c → loaded c.

Lemma fade_value n : loaded n →
  value (fade n) = value n ∨
  value (fade n) = None ∧ ∃ v, value n = Some v ∧ long_value_len n = Some (Z.of_nat (length v)).
Proof.
  intros [n' Hvh Hlong _ _]. rewrite fade_eq. cbn [value].
  destruct (long_value_len n') as [z|]; [|by left]. destruct (Hlong z eq_refl) as (v & Hv & -> & _ & Hget).
  rewrite Hvh, Hv. cbn [fmap option_fmap option_map]. destruct (ts_get part (keccak v)) as [m|]; [left|right; eauto].
  f_equal. by apply Hget.
Qed.

(** What a node and its faded form have in common. *)
Lemma fade_fields n : loaded n →
  value_length (fade n) = value_length n ∧ has_long_value (fade n) = has_long_value n ∧
  is_terminal (fade n) = is_terminal n ∧ is_empty_trie (fade n) = is_empty_trie n ∧
  get_value_hash (fade n) = get_value_hash n.
Proof.
  intros Hn.
  assert (∀ r, ref_is_empty (fade_ref r) = ref_is_empty r) as Href by by intros [].
  assert (value_length (fade n) = value_length n) as Hvl.
  { unfold value_length. destruct (fade_value n Hn) as [->|(-> & v & Hv & Hl)]; [by rewrite fade_eq|].
    rewrite Hv, fade_eq. cbn [long_value_len]. rewrite Hl. cbn [default]. apply Nat2Z.id. }
  unfold has_long_value, is_terminal, is_empty_trie, get_value_hash. rewrite Hvl.
  split_and!; [done|done|..].
  - rewrite fade_eq. cbn [left_ref right_ref]. by rewrite !Href.
  - destruct (fade_value n Hn) as [->|(-> & v & Hv & Hl)]; rewrite fade_eq; cbn [left_ref right_ref long_value_len];
      rewrite !Href; [done|]. by rewrite Hv, Hl.
  - destruct Hn as [n Hvh Hlong _ _]. rewrite fade_eq. cbn [value value_hash]. rewrite Hvh.
    destruct (value n) as [v|] eqn:Hv; [done|]. simpl. by destruct (long_value_len n).
Qed.

Lemma fade_message_length n : loaded n → message_length (fade n) = message_length n.
Proof.
  induction n as [n IHl IHr] using node_rect'. intros Hn.
  destruct (fade_fields n Hn) as (Hf1 & Hf2 & Hf3 & _).
  assert (∀ r, (∀ c, r = RefNode c → loaded c → message_length (fade c) = message_length c) → loaded_ref r →
    ref_serialized_length (fade_ref r) = ref_serialized_length r) as Href.
  { intros [|h|c] IH Hr; [done|done|]. specialize (Hr c eq_refl).
    destruct (fade_fields c Hr) as (_ & _ & Ht & _). simpl. unfold is_embeddable.
    by rewrite Ht, IH. }
  inversion Hn as [? Hvh Hlong Hl Hr]; subst.
  rewrite !message_length_eq. unfold message_length_with. rewrite Hf1, Hf2, Hf3, fade_eq.
  cbn [shared_path left_ref right_ref children_size]. by rewrite !Href by done.
Qed.

Lemma fade_embeddable n : loaded n → is_embeddable (fade n) = is_embeddable n.
Proof.
  intros Hn. unfold is_embeddable. rewrite fade_message_length by done.
  by destruct (fade_fields n Hn) as (_ & _ & -> & _).
Qed.

Lemma fade_to_message n : loaded n → to_message (fade n) = to_message n.
Proof.
  induction n as [n IHl IHr] using node_rect'. intros Hn.
  destruct (fade_fields n Hn) as (Hf1 & Hf2 & Hf3 & Hf4 & Hf5).
  inversion Hn as [? Hvh Hlong Hl Hr]; subst.
  assert (∀ r, (∀ c, r = RefNode c → loaded c → to_message (fade c) = to_message c) → loaded_ref r →
    ref_serialize_into (fade_ref r) = ref_serialize_into r ∧ ref_is_embeddable (fade_ref r) = ref_is_embeddable r ∧
    ref_is_empty (fade_ref r) = ref_is_empty r) as Href.
  { intros [|h|c] IH Hr'; [done|done|]. specialize (Hr' c eq_refl).
    destruct (fade_fields c Hr') as (_ & _ & _ & He & _). simpl. unfold compute_hash.
    by rewrite fade_embeddable, He, IH. }
  destruct (Href (left_ref n) IHl Hl) as (Hl1 & Hl2 & Hl3). destruct (Href (right_ref n) IHr Hr) as (Hr1 & Hr2 & Hr3).
  rewrite !to_message_eq. unfold to_message_with, message_flags, message_value. rewrite Hf1, Hf2, Hf3, Hf5.
  rewrite (fade_eq n). cbn [shared_path left_ref right_ref children_size value].
  rewrite Hl1, Hl2, Hl3, Hr1, Hr2, Hr3. do 5 f_equal.
  destruct (has_long_value n) eqn:Hlv; [done|]. destruct (long_value_len n) as [z|] eqn:Hz; [|done].
  destruct (Hlong z eq_refl) as (v & Hv & _ & Hlen & _). unfold has_long_value, value_length in Hlv.
  rewrite Hv in Hlv. apply Nat.ltb_nlt in Hlv. lia.
Qed.

Lemma fade_total_size n : loaded n → total_size (fade n) = total_size n.
Proof.
  intros Hn. unfold total_size, external_value_length. destruct (fade_fields n Hn) as (-> & -> & _).
  rewrite fade_message_length by done. by rewrite fade_eq.
Qed.

Lemma fade_embedded_size r : loaded_ref r → embedded_size (fade_ref r) = embedded_size r.
Proof.
  destruct r as [|h|c]; [done|done|]. intros Hr. specialize (Hr c eq_refl). simpl.
  by rewrite fade_embeddable, fade_total_size.
Qed.

Lemma fade_stream_size n : loaded n → stream_size (fade n) = stream_size n.
Proof.
  intros Hn. unfold stream_size, external_value_length. destruct (fade_fields n Hn) as (-> & -> & _).
  rewrite fade_message_length by done. rewrite fade_eq. cbn [left_ref right_ref].
  destruct Hn as [n _ _ Hl Hr]. by rewrite !fade_embedded_size.
Qed.

(** ** Parsing *)

Section parse.
Context {St : Type} `{TrieStore St} (store : St).

(** [part] has no other string under the hash of a string [store] has there. *)
Definition compat : Prop :=
  ∀ m m', ts_get part (keccak m') = Some m → ts_get store (keccak m') = Some m' → m = m'.

Lemma reader_child_fade (rec rec' : bytes → option TrieNode) present embedded r ref r' :
  (∀ d n, rec d = Some n → loaded n → rec' d = Some (fade n)) →
  reader_child rec present embedded r = Some (ref, r') → loaded_ref ref →
  reader_child rec' present embedded r = Some (fade_ref ref, r').
Proof.
  intros Hrec. unfold reader_child. destruct present; cbn [negb]; [|by intros [= <- <-]].
  unfold rbind, rlift, rret. destruct embedded.
  - destruct (reader_byte r) as [[len r1]|]; cbn [mbind option_bind]; [|done].
    destruct (reader_take (Z.to_nat len) r1) as [[body r2]|]; cbn [mbind option_bind]; [|done].
    destruct (rec body) as [n|] eqn:Hn; cbn [fmap option_fmap option_map mbind option_bind]; [|done].
    intros [= <- <-] Hl. by rewrite (Hrec body n Hn (Hl n eq_refl)).
  - destruct (reader_take 32 r) as [[h r1]|]; cbn [mbind option_bind]; [|done]. by intros [= <- <-] _.
Qed.

Lemma reader_value_fade has_long r val vh lvl r' :
  reader_value store has_long r = Some ((val, vh, lvl), r') →
  vh = keccak <$> val →
  (∀ z, lvl = Some z → ∃ v, val = Some v ∧ ∀ m, ts_get part (keccak v) = Some m → m = v) →
  reader_value part has_long r
  = Some ((match lvl, vh with Some _, Some h => ts_get part h | _, _ => val end, vh, lvl), r').
Proof.
  unfold reader_value. destruct has_long.
  - unfold rbind. destruct (reader_take 32 r) as [[h r1]|]; cbn [mbind option_bind]; [|done].
    destruct (reader_take 3 r1) as [[len r2]|]; cbn [mbind option_bind]; [|done].
    destruct (ts_get store h) as [v|]; [|intros [= <- <- <- <-] Hvh; discriminate].
    destruct (decide _) as [Hlen|]; [|done]. intros [= <- <- <- <-] [= ->] Hl.
    destruct (Hl _ eq_refl) as (w & [= <-] & Hget).
    destruct (ts_get part (keccak v)) as [m|]; [|done]. rewrite (Hget m eq_refl). by rewrite decide_True.
  - destruct (decide _); intros [= <- <- <- <-] _ _; done.
Qed.

Lemma parse_fuel_fade fuel : ∀ data n,
  parse_fuel fuel store data = Some n → loaded n → parse_fuel fuel part data = Some (fade n).
Proof.
  induction fuel as [|fuel IH]; [done|]. intros data n. cbn [parse_fuel]. unfold read_node, rbind.
  generalize (mkReader data 0) as r0. intros r0.
  destruct (reader_byte r0) as [[flags r1]|]; cbn [mbind option_bind fmap option_fmap option_map]; [|done].
  destruct (reader_shared_path _ r1) as [[path r2]|]; cbn [mbind option_bind fmap option_fmap option_map]; [|done].
  destruct (reader_child (parse_fuel fuel store) _ _ r2) as [[l r3]|] eqn:Hl; cbn [mbind option_bind fmap option_fmap option_map]; [|done].
  destruct (reader_child (parse_fuel fuel store) _ _ r3) as [[rr r4]|] eqn:Hr; cbn [mbind option_bind fmap option_fmap option_map]; [|done].
  destruct ((if mask_set flags 0x08 || mask_set flags 0x04 then reader_varint else rret 0) r4) as [[cs r5]|] eqn:Hcs; cbn [mbind option_bind fmap option_fmap option_map]; [|done].
  destruct (reader_value store _ r5) as [[[[val vh] lvl] r6]|] eqn:Hv; cbn [mbind option_bind fmap option_fmap option_map]; [|done].
  intros [= <-] Hn. inversion Hn as [? Hvh Hlong Hll Hlr]; subst. cbn in Hvh, Hlong, Hll, Hlr.
  rewrite (reader_child_fade _ _ _ _ _ _ _ IH Hl Hll). cbn [mbind option_bind].
  rewrite (reader_child_fade _ _ _ _ _ _ _ IH Hr Hlr). cbn [mbind option_bind]. rewrite Hcs. cbn [mbind option_bind].
  erewrite reader_value_fade; [|exact Hv|done|]; [by rewrite fade_eq|].
  intros z Hz. destruct (Hlong z Hz) as (v & ? & _ & _ & ?). by exists v.
Qed.

End parse.

End fade.

(** ** The node of a tree *)

Section load.
Context `{Keccak} {St Pt : Type} `{TrieStore St} `{TrieStore Pt} (store : St) (part : Pt).
Context (Hcompat : compat part store).

Definition load (t : tree) : TrieNode := fade part (reload (mem t)).

Definition load_ref (o : option tree) : NodeRef TrieNode :=
  match o with
  | None => RefEmpty
  | Some c => if is_embeddable (mem c) then RefNode (load c) else RefHash (hash_of c)
  end.

Lemma reload_embedded c : is_embeddable (mem c) = true →
  reload_with (mem c) RefEmpty RefEmpty = reload (mem c).
Proof using Type. intros [Hl Hr]%embeddable_terminal. unfold reload. by rewrite Hl, Hr. Qed.

Lemma loaded_reload_with t l r : Stored store t → loaded_ref part l → loaded_ref part r →
  loaded part (reload_with (mem t) l r).
Proof using Hcompat.
  intros Hst Hl Hr. destruct Hst as [t _ Hv _ _]. unfold reload_with. constructor; cbn [value value_hash long_value_len left_ref right_ref];
    rewrite ?(mem_eq t); [done| |exact Hl|exact Hr].
  unfold has_long_value, value_length. cbn [value long_value_len]. intros z.
  destruct (tval t) as [v|]; [|done]. destruct (Nat.ltb_spec 32 (length v)) as [Hlen|]; [|done].
  intros [= <-]. exists v. split_and!; [done|done|done|].
  intros m Hm. by eapply Hcompat, (Hv v eq_refl).
Qed.

Lemma loaded_reload t : Stored store t → loaded part (reload (mem t)).
Proof using Hcompat.
  intros Hst.
  assert (∀ b, loaded_ref part (reload_ref (mem_ref (child t b)))) as Hch.
  { intros b n Hn. destruct (child t b) as [c|] eqn:Hc; [|done]. simpl in Hn.
    destruct (is_embeddable (mem c)) eqn:He; [|done]. injection Hn as <-.
    apply loaded_reload_with; [by eapply stored_child|by intros ?..]. }
  apply loaded_reload_with; [done|..]; rewrite (mem_eq t); [apply (Hch false)|apply (Hch true)].
Qed.

Lemma parse_load t : Stored store t → try_from_message part (to_message (mem t)) = Some (load t).
Proof using Hcompat.
  intros Hst. apply (parse_fuel_fade part store); [|by apply loaded_reload].
  apply (stored_parse_reload store store); [by intros ?|done].
Qed.

Lemma load_select t b : Stored store t → select_child (load t) b = load_ref (child t b).
Proof using Hcompat.
  intros Hst. transitivity (fade_ref part (reload_ref (mem_ref (child t b)))).
  { unfold load. rewrite fade_eq. unfold select_child. rewrite (mem_eq t). by destruct b. }
  destruct Hst as [t _ _ _ Hown]. specialize (Hown b). destruct (child t b) as [c|]; [|done].
  destruct (Hown c eq_refl) as [Hne _]. cbn [mem_ref reload_ref load_ref].
  destruct (is_embeddable (mem c)) eqn:He; cbn [fade_ref].
  - by rewrite reload_embedded.
  - unfold compute_hash, hash_of. by rewrite Hne.
Qed.

Lemma load_left t : Stored store t → left_ref (load t) = load_ref (tleft t).
Proof using Hcompat. apply (load_select t false). Qed.

Lemma load_right t : Stored store t → right_ref (load t) = load_ref (tright t).
Proof using Hcompat. apply (load_select t true). Qed.

Lemma rep_reload t : Stored store t → Rep store (reload (mem t)) t.
Proof using Type.
  intros Hst. unfold reload. rewrite (mem_eq t) at 2 3. cbn [left_ref right_ref].
  apply rep_reload_with; [by apply (repref_reload store t false)|by apply (repref_reload store t true)].
Qed.

Lemma load_to_message t : Stored store t → to_message (load t) = to_message (mem t).
Proof using Hcompat.
  intros Hst. unfold load. rewrite fade_to_message by by apply loaded_reload.
  by apply (rep_to_message store), rep_reload.
Qed.

Lemma load_total_size t : Stored store t → total_size (load t) = node_size (mem t).
Proof using Hcompat.
  intros Hst. unfold load. rewrite fade_total_size by by apply loaded_reload.
  by apply (rep_node_size store), rep_reload.
Qed.

Lemma load_embeddable t : Stored store t → is_embeddable (load t) = is_embeddable (mem t).
Proof using Hcompat.
  intros Hst. unfold load. rewrite fade_embeddable by by apply loaded_reload.
  by apply (rep_embeddable store), rep_reload.
Qed.

Lemma load_not_empty t : Stored store t → is_empty_trie (load t) = is_empty_trie (mem t).
Proof using Hcompat.
  intros Hst. destruct (fade_fields part _ (loaded_reload t Hst)) as (_ & _ & _ & He & _). unfold load. rewrite He.
  by destruct (rep_fields store _ _ (rep_reload t Hst)) as (_ & _ & _ & -> & _).
Qed.

Lemma load_is_embedded t b : Stored store t →
  is_embedded (load_ref (child t b)) = match child t b with Some c => is_embeddable (mem c) | None => false end.
Proof using Hcompat.
  intros Hst. destruct (child t b) as [c|] eqn:Hc; [|done]. simpl.
  destruct (is_embeddable (mem c)) eqn:He; [|done]. simpl. rewrite load_embeddable; [done|by eapply stored_child].
Qed.

(** The read of a node. *)
Definition node_read (c : tree) : Purpose * (bytes * bytes) := (ForNode, (hash_of c, to_message (mem c))).

(** A child that has an entry of its own is resolved if [part] has its message. *)
Lemma resolve_load t b c : Stored store t → child t b = Some c → is_embeddable (mem c) = false →
  ∃ lg, resolve_logged part (load_ref (Some c)) =
    match ts_get part (hash_of c) with
    | Some _ => (Some (load c), node_read c :: lg)
    | None => (None, [])
    end.
Proof using Hcompat.
  intros Hst Hc He. simpl. rewrite He. unfold resolve_logged, get_logged.
  destruct Hst as [t _ _ Hch Hown]. destruct (Hown b c Hc) as [_ Ho].
  destruct (ts_get part (hash_of c)) as [m|] eqn:Hm; [|by exists []].
  assert (m = to_message (mem c)) as -> by (eapply Hcompat; [exact Hm|by apply Ho]).
  unfold lbind, try_from_message_logged. cbn [fst snd]. rewrite parse_load by by eapply Hch. by eexists.
Qed.

(** ** The entry of a node *)

Lemma reload_total_size t : Stored store t → total_size (reload (mem t)) = total_size (mem t).
Proof using Type. intros Hst. by apply (rep_node_size store _ _ (rep_reload t Hst)). Qed.

Lemma load_stream_size t : Stored store t → stream_size (load t) = stream_size (mem t).
Proof using Hcompat.
  intros Hst. unfold load. rewrite fade_stream_size by by apply loaded_reload.
  unfold stream_size, external_value_length.
  destruct (rep_fields store _ _ (rep_reload t Hst)) as (-> & -> & _).
  rewrite (rep_message_length store _ _ (rep_reload t Hst)).
  assert (∀ b, embedded_size (reload_ref (mem_ref (child t b))) = embedded_size (mem_ref (child t b))) as Hch.
  { intros b. destruct (child t b) as [c|] eqn:Hc; [|done].
    assert (Stored store c) as Hsc by by eapply stored_child. cbn [mem_ref reload_ref].
    destruct (is_embeddable (mem c)) eqn:He; cbn [embedded_size]; [|by rewrite He].
    rewrite reload_embedded by done. rewrite (rep_embeddable store _ _ (rep_reload c Hsc)).
    by rewrite reload_total_size. }
  unfold reload, reload_with. cbn [left_ref right_ref]. rewrite (mem_eq t). cbn [left_ref right_ref].
  by rewrite (Hch false : embedded_size (reload_ref (mem_ref (tleft t))) = _),
    (Hch true : embedded_size (reload_ref (mem_ref (tright t))) = _).
Qed.

Lemma load_value t v : tval t = Some v →
  value (load t) = if (32 <? length v)%nat then ts_get part (keccak v) else Some v.
Proof using Type.
  intros Hv. unfold load. rewrite fade_eq. cbn [value]. unfold reload, reload_with, has_long_value, value_length.
  rewrite (mem_eq t). cbn [long_value_len value_hash value]. rewrite Hv. cbn [fmap option_fmap option_map].
  by destruct (32 <? length v)%nat.
Qed.

Lemma load_has_long t : Stored store t →
  has_long_value (load t) = match tval t with Some v => (32 <? length v)%nat | None => false end.
Proof using Hcompat.
  intros Hst. destruct (fade_fields part _ (loaded_reload t Hst)) as (_ & Hl & _). unfold load. rewrite Hl.
  destruct (rep_fields store _ _ (rep_reload t Hst)) as (_ & -> & _). rewrite mem_eq.
  unfold has_long_value, value_length. cbn [value long_value_len]. by destruct (tval t).
Qed.

Lemma load_value_hash t : value_hash (load t) = keccak <$> tval t.
Proof using Type. unfold load. rewrite fade_eq. cbn [value_hash]. unfold reload, reload_with. by rewrite (mem_eq t). Qed.

End load.

(** ** The traversal *)

Section traversal.
Context `{Keccak}.

(** The bytes of the traversal a node stands for. *)
Definition span_of (t : tree) : Z := stream_size (mem t).

(** The long values of a node, those [have] keeps. *)
Definition own_values (have : bytes → bool) (t : tree) : list bytes :=
  match tval t with
  | Some v => if (32 <? length v)%nat && have v then [v] else []
  | None => []
  end.

Definition embedded_values (have : bytes → bool) (o : option tree) : list bytes :=
  match o with
  | Some c => if is_embeddable (mem c) then own_values have c else []
  | None => []
  end.

(** Those of an entry: the embedded children travel inside their parent. *)
Definition entry_values (have : bytes → bool) (t : tree) : list bytes :=
  own_values have t ++ embedded_values have (tleft t) ++ embedded_values have (tright t).

Definition entry (have : bytes → bool) (at_ : Z) (t : tree) : StreamNode :=
  mkStreamNode at_ (span_of t) (to_message (mem t)) (entry_values have t).

Definition everything : bytes → bool := λ _, true.

(** The nodes with an entry of their own, in order. *)
Fixpoint inorder (t : tree) : list tree :=
  let below (o : option tree) : list tree :=
    match o with Some c => if is_embeddable (mem c) then [] else inorder c | None => [] end in
  below (tleft t) ++ t :: below (tright t).

Definition opened (o : option tree) : list tree :=
  match o with Some c => if is_embeddable (mem c) then [] else inorder c | None => [] end.

Lemma inorder_eq t : inorder t = opened (tleft t) ++ t :: opened (tright t).
Proof. by destruct t as [p v [l|] [r|]]. Qed.

#[global] Arguments inorder : simpl never.

(** What is left of the traversal once the nodes [ts], the innermost first, are reached. *)
Definition owed (ts : list tree) : list tree := concat ((λ t, t :: opened (tright t)) <$> ts).

Definition opened_size (o : option tree) : Z :=
  match o with Some c => if is_embeddable (mem c) then 0 else node_size (mem c) | None => 0 end.

(** The size a node commits to is its span and the sizes of the children with an entry of
    their own. *)
Inductive sized : tree → Prop :=
  | sized_intro t :
      node_size (mem t) = opened_size (tleft t) + span_of t + opened_size (tright t) →
      0 < span_of t →
      (∀ b c, child t b = Some c → sized c) →
      sized t.

Definition spans (l : list tree) : Z := foldr (λ t a, span_of t + a) 0 l.

Lemma spans_app l k : spans (l ++ k) = spans l + spans k.
Proof. induction l as [|t l IH]; simpl; [lia|]. rewrite IH. lia. Qed.

Lemma sized_child t b c : sized t → child t b = Some c → sized c.
Proof. intros [t' _ _ Hch]. apply Hch. Qed.

Lemma sized_spans t : sized t → spans (inorder t) = node_size (mem t).
Proof.
  induction t as [p v l r IHl IHr] using tree_rect'. intros Hs. inversion Hs as [? Hsz _ Hch]; subst.
  assert (∀ b o, o = child (mkTree p v l r) b → (∀ c, o = Some c → sized c → spans (inorder c) = node_size (mem c)) →
    spans (opened o) = opened_size o) as Hop.
  { intros b o Ho IH. destruct o as [c|]; [|done]. simpl. destruct (is_embeddable (mem c)); [done|].
    apply IH; [done|]. by eapply Hch. }
  rewrite inorder_eq, spans_app. cbn [spans foldr tleft tright] in *. fold (spans (opened r)).
  rewrite (Hop false l eq_refl IHl), (Hop true r eq_refl IHr), Hsz. lia.
Qed.

Lemma opened_size_nonneg o : 0 ≤ opened_size o.
Proof.
  destruct o as [c|]; simpl; [|lia]. destruct (is_embeddable _); [lia|].
  pose proof (node_size_fits (mem c)). unfold fits in *. lia.
Qed.

Lemma sized_pos t : sized t → 0 < node_size (mem t).
Proof.
  intros Hs. inversion Hs as [? Hsz Hpos _]; subst. rewrite Hsz.
  pose proof (opened_size_nonneg (tleft t)). pose proof (opened_size_nonneg (tright t)). lia.
Qed.

Lemma embedded_child_size o : opened_size o + embedded_size (mem_ref o) = size_of o.
Proof. destruct o as [c|]; [|done]. simpl. fold (total_size (mem c)). unfold total_size, node_size. destruct (is_embeddable (mem c)); lia. Qed.

(** A trie of less than [2^64] bytes is sized. *)
Lemma weight_sized t : weight t < 2 ^ 64 → sized t.
Proof.
  induction t as [p v l r IHl IHr] using tree_rect'. rewrite weight_eq. intros Hw.
  pose proof (val_len_nonneg v). pose proof (oweight_nonneg l). pose proof (oweight_nonneg r).
  pose proof (size_of_weight l). pose proof (size_of_weight r).
  pose proof (message_bound (mkTree p v l r)) as Hm. cbn [tpath tval] in Hm.
  pose proof (size_of_fits l) as [? _]. pose proof (size_of_fits r) as [? _].
  pose proof (embedded_child_size l). pose proof (embedded_child_size r).
  assert (∀ o, 0 ≤ embedded_size (mem_ref o)) as Hem.
  { intros [c|]; simpl; [|lia]. destruct (is_embeddable _); [|lia]. pose proof (node_size_fits (mem c)). unfold fits, node_size, total_size in *. lia. }
  pose proof (opened_size_nonneg l). pose proof (opened_size_nonneg r). pose proof (Hem l). pose proof (Hem r).
  assert (0 ≤ external_value_length (mem (mkTree p v l r))) by (unfold external_value_length; case_match; lia).
  assert (0 < message_length (mem (mkTree p v l r)))%nat.
  { rewrite message_length_eq. unfold message_length_with. lia. }
  assert (span_of (mkTree p v l r) = external_value_length (mem (mkTree p v l r)) + Z.of_nat (message_length (mem (mkTree p v l r)))
    + embedded_size (mem_ref l) + embedded_size (mem_ref r)) as Hspan.
  { unfold span_of, stream_size. rewrite (mem_eq (mkTree p v l r)) at 3 4. cbn [left_ref right_ref tleft tright].
    unfold u64. rewrite !wrap_small; unfold fits; rewrite ?wrap_small; unfold fits; rewrite ?wrap_small; unfold fits; lia. }
  constructor; [|lia|].
  - rewrite Hspan. cbn [tleft tright]. unfold node_size. rewrite children_size_mem. cbn [tleft tright].
    unfold u64. rewrite !wrap_small; unfold fits; rewrite ?wrap_small; unfold fits; rewrite ?wrap_small; unfold fits; lia.
  - intros [] c; simpl; intros ->; simpl in *; [apply IHr|apply IHl]; try done; lia.
Qed.

End traversal.

End SnapshotView.
