(* ===== verification/SnapshotRun.v ===== *)
(** * The traversal of crates/trie/src/snapshot.rs over a stored trie

    What [seek] and [collect] do on a trie the store holds, as functions of the tree alone
    ([seek_tree], [cut]), and that a run over part of the records agrees with the run over the
    whole store as long as the part has every node the latter read ([served]). *)
From S2P Require Import Prelude Path Varint Store Node Unitrie NodeCodec NodeRefine NodeSave Trie EpochMark Snapshot SnapshotView.
From stdpp Require Import options.

Module SnapshotRun.
Import Store Node Unitrie NodeCodec NodeRefine NodeSave Trie EpochMark Snapshot SnapshotView.
Local Open Scope Z_scope.

(** ** The traversal of a tree *)

Section spec.
Context `{Keccak}.

(** The way down to an offset, the node it falls in, and how far into its entry. *)
Fixpoint seek_tree (t : tree) (off : Z) : option (list (tree * bool) * tree * Z) :=
  let lsize := opened_size (tleft t) in
  if off <? lsize then
    match tleft t with
    | Some c => (λ x, ((t, true) :: x.1.1, x.1.2, x.2)) <$> seek_tree c off
    | None => None
    end
  else if off <? lsize + span_of t then Some ([], t, off - lsize)
  else
    match tright t with
    | Some c =>
        if is_embeddable (mem c) then None
        else (λ x, ((t, false) :: x.1.1, x.1.2, x.2)) <$> seek_tree c (off - (lsize + span_of t))
    | None => None
    end.

Lemma seek_tree_eq t off : seek_tree t off =
  let lsize := opened_size (tleft t) in
  if off <? lsize then
    match tleft t with
    | Some c => (λ x, ((t, true) :: x.1.1, x.1.2, x.2)) <$> seek_tree c off
    | None => None
    end
  else if off <? lsize + span_of t then Some ([], t, off - lsize)
  else
    match tright t with
    | Some c =>
        if is_embeddable (mem c) then None
        else (λ x, ((t, false) :: x.1.1, x.1.2, x.2)) <$> seek_tree c (off - (lsize + span_of t))
    | None => None
    end.
Proof. by destruct t as [p v [l|] [r|]]. Qed.

#[global] Arguments seek_tree : simpl never.

Fixpoint height (t : tree) : nat :=
  let h (o : option tree) : nat := match o with Some c => height c | None => 0%nat end in
  S (Nat.max (h (tleft t)) (h (tright t))).

Lemma height_child t b c : child t b = Some c → (height c < height t)%nat.
Proof. destruct t as [p v [l|] [r|]], b; simpl; intros [= <-]; lia. Qed.

Lemma within_height t : ∀ d, Trie.within d t → (height t ≤ S d)%nat.
Proof.
  induction t as [p v l r IHl IHr] using tree_rect'. intros d (Hp & _ & Hc)%within_inv.
  assert (∀ c, l = Some c ∨ r = Some c → (height c ≤ d)%nat) as Hh.
  { intros c Hlr. destruct (Hc c Hlr) as [Hle Hw]. destruct Hlr as [->| ->]; [apply IHl in Hw|apply IHr in Hw]; try done; lia. }
  assert (∀ o, (∀ c, o = Some c → (height c ≤ d)%nat) → (match o with Some c => height c | None => 0 end ≤ d)%nat) as Ho.
  { intros [c|] Hoc; [by apply Hoc|lia]. }
  cbn [height tleft tright]. pose proof (Ho l (λ c Hx, Hh c (or_introl Hx))). pose proof (Ho r (λ c Hx, Hh c (or_intror Hx))). lia.
Qed.

(** The ancestors still owing their entry, the innermost first. *)
Definition lefts (tr : list (tree * bool)) : list tree := reverse ((filter (λ x, x.2 = true) tr).*1).

Lemma lefts_cons x tr : lefts (x :: tr) = lefts tr ++ (if x.2 then [x.1] else []).
Proof.
  unfold lefts. destruct x as [t []]; cbn [fst snd].
  - rewrite filter_cons_True by done. by rewrite fmap_cons, reverse_cons.
  - rewrite filter_cons_False by done. by rewrite app_nil_r.
Qed.

Lemma owed_app ts us : owed (ts ++ us) = owed ts ++ owed us.
Proof. unfold owed. by rewrite fmap_app, concat_app. Qed.

(** The leftmost node of a subtree, and the stack on reaching it. *)
Fixpoint spine (t : tree) (ts : list tree) : tree * list tree :=
  match tleft t with
  | Some c => if is_embeddable (mem c) then (t, ts) else spine c (t :: ts)
  | None => (t, ts)
  end.

Lemma spine_inorder t : ∀ ts,
  inorder t ++ owed ts = (spine t ts).1 :: opened (tright (spine t ts).1) ++ owed (spine t ts).2.
Proof.
  induction t as [p v l r IHl IHr] using tree_rect'. intros ts. rewrite inorder_eq. cbn [spine tleft].
  destruct l as [c|]; [|done]. simpl. destruct (is_embeddable (mem c)); [done|].
  rewrite <- app_assoc. cbn [app]. specialize (IHl c eq_refl (mkTree p v (Some c) r :: ts)). unfold owed in IHl at 1.
  cbn [fmap list_fmap concat] in IHl. by rewrite <- IHl.
Qed.

(** The entries of a run, cut where the code stops. *)
Fixpoint cut (have : bytes → bool) (stop : Stop) (max_nodes : Z) (out : list StreamNode) (used at_ : Z)
    (rem : list tree) : list StreamNode :=
  match rem with
  | [] => out
  | t :: rem =>
      let e := entry have at_ t in
      if halts stop max_nodes out used at_ (wire_len e) then out
      else cut have stop max_nodes (out ++ [e]) (u64 (used + wire_len e)) (u64 (at_ + span_of t)) rem
  end.

End spec.

(** ** Seeking *)

Section seeking.
Context `{Keccak}.

(** The offset falls [w] bytes into the entry of [t0]: the entries before it are [pre]. *)
Lemma seek_tree_spec t : ∀ off, sized t → 0 ≤ off < node_size (mem t) →
  ∃ tr t0 w pre, seek_tree t off = Some (tr, t0, w) ∧
    inorder t = pre ++ t0 :: opened (tright t0) ++ owed (lefts tr) ∧
    spans pre + w = off ∧ 0 ≤ w < span_of t0.
Proof.
  induction t as [p v l r IHl IHr] using tree_rect'. intros off Hs Hoff.
  inversion Hs as [? Hsz Hpos Hch]; subst. cbn [tleft tright] in Hsz.
  set (t := mkTree p v l r) in *. assert (inorder t = opened l ++ t :: opened r) as Hin by apply inorder_eq.
  rewrite seek_tree_eq. cbv zeta. cbn [tleft tright t].
  destruct (Z.ltb_spec off (opened_size l)) as [Hl|Hl].
  - destruct l as [c|]; [|simpl in Hl; lia]. simpl in Hl. destruct (is_embeddable (mem c)) eqn:He; [lia|].
    destruct (IHl c eq_refl off) as (tr & t0 & w & pre & Hseek & Hino & Hsum & Hw); [by apply (Hch false)|lia|].
    exists ((t, true) :: tr), t0, w, pre. rewrite Hseek. split_and!; [done| |done|lia|lia].
    rewrite Hin. cbn [opened]. rewrite He, Hino, lefts_cons, owed_app. cbn [snd fst].
    rewrite <- !app_assoc. cbn [app]. rewrite <- app_assoc. unfold owed. simpl. by rewrite app_nil_r.
  - destruct (Z.ltb_spec off (opened_size l + span_of t)) as [Hh|Hh].
    + exists [], t, (off - opened_size l), (opened l). split_and!; [done| | |lia|lia].
      * rewrite Hin. unfold owed. simpl. by rewrite app_nil_r.
      * assert (spans (opened l) = opened_size l) as ->; [|lia]. destruct l as [c|]; [|done]. simpl.
        destruct (is_embeddable (mem c)); [done|]. apply sized_spans, (Hch false c eq_refl).
    + destruct r as [c|]; [|simpl in Hsz; lia]. simpl in Hsz. destruct (is_embeddable (mem c)) eqn:He; [lia|].
      destruct (IHr c eq_refl (off - (opened_size l + span_of t))) as (tr & t0 & w & pre & Hseek & Hino & Hsum & Hw);
        [by apply (Hch true)|lia|].
      exists ((t, false) :: tr), t0, w, (opened l ++ t :: pre). rewrite Hseek. split_and!; [done| | |lia|lia].
      * rewrite Hin. cbn [opened]. rewrite He, Hino, lefts_cons, app_nil_r. by rewrite <- !app_assoc.
      * assert (spans (opened l) = opened_size l) as Hol.
        { destruct l as [d|]; [|done]. simpl. destruct (is_embeddable (mem d)); [done|].
          apply sized_spans, (Hch false d eq_refl). }
        rewrite spans_app. cbn [spans foldr]. fold (spans pre). lia.
Qed.

Lemma seek_tree_past t : ∀ off, sized t → node_size (mem t) ≤ off → seek_tree t off = None.
Proof.
  induction t as [p v l r IHl IHr] using tree_rect'. intros off Hs Hoff.
  inversion Hs as [? Hsz Hpos Hch]; subst. cbn [tleft tright] in Hsz.
  pose proof (opened_size_nonneg r). rewrite seek_tree_eq. cbv zeta. cbn [tleft tright].
  rewrite (proj2 (Z.ltb_ge _ _)) by lia. rewrite (proj2 (Z.ltb_ge _ _)) by lia.
  destruct r as [c|]; [|done]. simpl in Hsz. destruct (is_embeddable (mem c)) eqn:He; [done|].
  rewrite IHr; [done|done|by apply (Hch true)|lia].
Qed.

End seeking.

(** ** Reads *)

Lemma compat_refl `{Keccak} {St} `{TrieStore St} (store : St) : compat store store.
Proof. intros m m' Hm Hm'. congruence. Qed.

Lemma lbind_fst {A B} (m : Logged A) (f : A → Logged B) : (lbind m f).1 = (f m.1).1.
Proof. done. Qed.

Lemma lbind_snd {A B} (m : Logged A) (f : A → Logged B) : (lbind m f).2 = m.2 ++ (f m.1).2.
Proof. done. Qed.

Section reads.
Context `{Keccak} {St Pt : Type} `{TrieStore St} `{TrieStore Pt} (store : St) (part : Pt).
Context (Hcompat : compat part store).

(** [part] has the string. *)
Definition have (v : bytes) : bool := bool_decide (is_Some (ts_get part (keccak v))).

(** [part] has the message of the child, if it has an entry of its own. *)
Definition known (o : option tree) : Prop :=
  ∀ c, o = Some c → is_embeddable (mem c) = false → is_Some (ts_get part (hash_of c)).

Lemma long_values_of_eq n : long_values_of part n =
  let embedded (r : NodeRef TrieNode) : Logged (list bytes) :=
    match r with
    | RefNode c => if is_embeddable c then long_values_of part c else lret []
    | _ => lret []
    end in
  lbind (own_long_value part n) (λ own, lbind (embedded (left_ref n)) (λ l, lbind (embedded (right_ref n))
    (λ r, lret (own ++ l ++ r)))).
Proof using Type. by destruct n as [? ? ? ? [] []]. Qed.

Lemma own_long_value_load t : Stored store t →
  (own_long_value part (load part t)).1 = own_values have t.
Proof using Hcompat.
  intros Hst. unfold own_long_value, own_values. rewrite (load_has_long store part Hcompat) by done.
  destruct (tval t) as [v|] eqn:Hv; [|done]. rewrite (load_value part t v Hv), (load_value_hash part), Hv.
  destruct (Nat.ltb_spec 32 (length v)) as [Hlen|]; [|done]. cbn [fmap option_fmap option_map andb].
  unfold get_logged, have. destruct (ts_get part (keccak v)) as [m|] eqn:Hm; [|done].
  simpl. f_equal. destruct Hst as [t _ Hl _ _]. by eapply Hcompat, Hl.
Qed.

Lemma embedded_values_load t b : Stored store t →
  match load_ref part (child t b) with
  | RefNode c => if is_embeddable c then (long_values_of part c).1 else []
  | _ => []
  end = embedded_values have (child t b).
Proof using Hcompat.
  intros Hst. destruct (child t b) as [c|] eqn:Hc; [|done].
  assert (Stored store c) as Hsc by by eapply stored_child. cbn [load_ref embedded_values].
  destruct (is_embeddable (mem c)) eqn:He; [|done]. rewrite (load_embeddable store part Hcompat), He by done.
  rewrite long_values_of_eq. cbv zeta. rewrite !lbind_fst. cbn [lret fst].
  rewrite (load_left store part Hcompat), (load_right store part Hcompat) by done.
  rewrite (embeddable_leaf c false He : tleft c = None), (embeddable_leaf c true He : tright c = None).
  cbn [load_ref lret fst]. rewrite own_long_value_load by done. by rewrite !app_nil_r.
Qed.

Lemma long_values_load t : Stored store t → (long_values_of part (load part t)).1 = entry_values have t.
Proof using Hcompat.
  intros Hst. rewrite long_values_of_eq. cbv zeta. rewrite !lbind_fst. cbn [lret fst].
  rewrite own_long_value_load by done. unfold entry_values. f_equal.
  rewrite (load_left store part Hcompat), (load_right store part Hcompat) by done.
  rewrite <- (embedded_values_load t false Hst : _ = embedded_values have (tleft t)),
    <- (embedded_values_load t true Hst : _ = embedded_values have (tright t)). cbn [child].
  f_equal; [destruct (load_ref part (tleft t)) as [| |c]|destruct (load_ref part (tright t)) as [| |c]]; try done;
    by destruct (is_embeddable c).
Qed.

Lemma resolve_known t b c : Stored store t → child t b = Some c → is_embeddable (mem c) = false →
  is_Some (ts_get part (hash_of c)) →
  ∃ lg, resolve_logged part (load_ref part (Some c)) = (Some (load part c), node_read c :: lg).
Proof using Hcompat.
  intros Hst Hc He [m Hm]. destruct (resolve_load store part Hcompat t b c Hst Hc He) as [lg Hres].
  rewrite Hm in Hres. by exists lg.
Qed.

Lemma branch_known t b : Stored store t → known (child t b) →
  ∃ lg, branch_size part (load_ref part (child t b)) = (opened_size (child t b), lg) ∧
    ∀ c, child t b = Some c → is_embeddable (mem c) = false → node_read c ∈ lg.
Proof using Hcompat.
  intros Hst Hk. pose proof (load_is_embedded store part Hcompat t b Hst) as Hemb. unfold branch_size.
  destruct (child t b) as [c|] eqn:Hc; [|by exists []].
  assert (Stored store c) as Hsc by by eapply stored_child.
  destruct (is_embeddable (mem c)) eqn:He.
  - exists []. rewrite Hemb. cbn [load_ref opened_size]. rewrite He. split; [done|]. intros ? [= <-] ?. congruence.
  - destruct (resolve_known t b c Hst Hc He (Hk c eq_refl He)) as [lg Hres].
    exists (node_read c :: lg). split.
    + cbn [load_ref opened_size] in *. rewrite He in *. rewrite Hemb, Hres. unfold lbind, lret. cbn [fst snd].
      by rewrite app_nil_r, (load_total_size store part Hcompat).
    + intros ? [= <-] _. by left.
Qed.

(** The reference the traversal turns to for a child with an entry of its own. *)
Definition pending_ref (o : option tree) : option (NodeRef TrieNode) :=
  match o with
  | Some c => if is_embeddable (mem c) then None else Some (load_ref part (Some c))
  | None => None
  end.

(** *** One level of [seek] *)

(** The log has the message of the child, if it has an entry of its own. *)
Definition logged (o : option tree) (lg : Log) : Prop :=
  ∀ c, o = Some c → is_embeddable (mem c) = false → node_read c ∈ lg.

Lemma logged_app o l k : logged o l ∨ logged o k → logged o (l ++ k).
Proof using Type. intros [Hl|Hk] c Hc He; apply elem_of_app; [left|right]; auto. Qed.

Section level.
Context (levels : nat) (path : list Step) (t : tree) (off : Z).
Context (Hst : Stored store t) (Hs : sized t) (Hknown : known (tleft t)) (Hoff : 0 ≤ off).

Lemma seek_left c : tleft t = Some c → off < opened_size (tleft t) →
  ∃ lg, logged (tleft t) lg ∧
    let r := seek_loop levels part (path ++ [mkStep (load part t) true]) (load part c) off in
    seek_loop (S levels) part path (load part t) off = (r.1, lg ++ r.2).
Proof using Type*.
  intros Hc Hl. destruct (branch_known t false Hst Hknown) as (lb & Hb & Hlb). cbn [child] in Hb, Hlb.
  assert (is_embeddable (mem c) = false) as He.
  { rewrite Hc in Hl. simpl in Hl. destruct (is_embeddable (mem c)); [lia|done]. }
  destruct (resolve_known t false c Hst Hc He (Hknown c Hc He)) as [lr Hr].
  exists (lb ++ node_read c :: lr). split; [by apply logged_app; left|]. cbv zeta.
  cbn [seek_loop]. rewrite (load_left store part Hcompat), Hb by done. unfold lbind at 1. cbn [fst snd].
  rewrite (proj2 (Z.ltb_lt _ _)) by done. rewrite Hc, Hr. unfold lbind. cbn [fst snd]. by rewrite app_assoc.
Qed.

Lemma seek_here : opened_size (tleft t) ≤ off < opened_size (tleft t) + span_of t →
  ∃ lg, logged (tleft t) lg ∧
    seek_loop (S levels) part path (load part t) off
    = (Some (mkSeek path (load part t) (off - opened_size (tleft t))), lg).
Proof using Type*.
  intros Hl. destruct (branch_known t false Hst Hknown) as (lb & Hb & Hlb). cbn [child] in Hb, Hlb.
  exists lb. split; [done|]. pose proof (node_size_fits (mem t)) as Hfit. unfold fits in Hfit.
  inversion Hs as [? Hsz Hpos _]; subst. pose proof (opened_size_nonneg (tleft t)). pose proof (opened_size_nonneg (tright t)).
  cbn [seek_loop]. rewrite (load_left store part Hcompat), Hb by done. unfold lbind. cbn [fst snd].
  rewrite (proj2 (Z.ltb_ge _ _)) by lia. rewrite (load_stream_size store part Hcompat) by done. fold (span_of t).
  unfold u64. rewrite (wrap_small 64) by (unfold fits; lia). rewrite (proj2 (Z.ltb_lt _ _)) by lia.
  cbn [lret fst snd]. by rewrite app_nil_r.
Qed.

Lemma seek_beyond : opened_size (tleft t) + span_of t ≤ off →
  ∃ lg, logged (tleft t) lg ∧
    seek_loop (S levels) part path (load part t) off =
    match pending_ref (tright t), tright t with
    | Some r, Some c =>
        let m := lbind (resolve_logged part r) (λ next,
          match next with
          | None => lret None
          | Some next => seek_loop levels part (path ++ [mkStep (load part t) false]) next
                           (off - (opened_size (tleft t) + span_of t))
          end) in (m.1, lg ++ m.2)
    | _, _ => (None, lg)
    end.
Proof using Type*.
  intros Hl. destruct (branch_known t false Hst Hknown) as (lb & Hb & Hlb). cbn [child] in Hb, Hlb.
  exists lb. split; [done|]. pose proof (node_size_fits (mem t)) as Hfit. unfold fits in Hfit.
  inversion Hs as [? Hsz Hpos _]; subst. pose proof (opened_size_nonneg (tleft t)). pose proof (opened_size_nonneg (tright t)).
  cbn [seek_loop]. rewrite (load_left store part Hcompat), Hb by done. unfold lbind at 1. cbn [fst snd].
  rewrite (proj2 (Z.ltb_ge _ _)) by lia. rewrite (load_stream_size store part Hcompat) by done. fold (span_of t).
  unfold u64. rewrite (wrap_small 64) by (unfold fits; lia). rewrite (proj2 (Z.ltb_ge _ _)) by lia.
  rewrite (load_right store part Hcompat) by done.
  rewrite (load_is_embedded store part Hcompat t true Hst : is_embedded (load_ref part (tright t)) = _). cbn [child].
  destruct (tright t) as [c|]; cbn [pending_ref]; [|simpl; by rewrite app_nil_r].
  destruct (is_embeddable (mem c)) eqn:He; [rewrite orb_true_r; cbn [lret fst snd]; by rewrite app_nil_r|].
  cbn [load_ref]. rewrite He. done.
Qed.

Lemma seek_right c : tright t = Some c → is_embeddable (mem c) = false → known (tright t) →
  opened_size (tleft t) + span_of t ≤ off →
  ∃ lg, logged (tleft t) lg ∧ logged (tright t) lg ∧
    let r := seek_loop levels part (path ++ [mkStep (load part t) false]) (load part c)
               (off - (opened_size (tleft t) + span_of t)) in
    seek_loop (S levels) part path (load part t) off = (r.1, lg ++ r.2).
Proof using Type*.
  intros Hc He Hk Hl. destruct (seek_beyond Hl) as (lb & Hlb & ->).
  destruct (resolve_known t true c Hst Hc He (Hk c Hc He)) as [lr Hr].
  exists (lb ++ node_read c :: lr). split_and!; [by apply logged_app; left|..].
  - apply logged_app. right. intros c' Hc' _. rewrite Hc in Hc'. injection Hc' as <-. by left.
  - cbv zeta. rewrite Hc. cbn [pending_ref]. rewrite He, Hr. unfold lbind. cbn [fst snd]. by rewrite app_assoc.
Qed.

End level.

Lemma load_pending r t b : Stored store t → r = load_ref part (child t b) →
  (if negb (ref_is_empty r) && negb (is_embedded r) then Some r else None) = pending_ref (child t b).
Proof using Hcompat.
  intros Hst ->. rewrite (load_is_embedded store part Hcompat) by done.
  destruct (child t b) as [c|]; [|done]. cbn [load_ref pending_ref]. by destruct (is_embeddable (mem c)).
Qed.

Lemma right_pending_load t : Stored store t → right_pending (load part t) = pending_ref (tright t).
Proof using Hcompat. intros Hst. apply (load_pending _ t true Hst). by apply (load_right store). Qed.

Lemma left_opens t : Stored store t →
  negb (ref_is_empty (left_ref (load part t))) && negb (is_embedded (left_ref (load part t)))
  = match tleft t with Some c => negb (is_embeddable (mem c)) | None => false end.
Proof using Hcompat.
  intros Hst. rewrite (load_left store part Hcompat) by done.
  rewrite (load_is_embedded store part Hcompat t false Hst : is_embedded (load_ref part (tleft t)) = _). cbn [child].
  destruct (tleft t) as [c|]; [|done]. cbn [load_ref]. by destruct (is_embeddable (mem c)).
Qed.

Definition steps_of (tr : list (tree * bool)) : list Step := (λ x, mkStep (load part x.1) x.2) <$> tr.

Lemma owing_steps tr : owing (steps_of tr) = load part <$> lefts tr.
Proof using Type.
  unfold owing, steps_of, lefts. rewrite fmap_reverse. f_equal.
  induction tr as [|[t []] tr IH]; [done|..]; rewrite fmap_cons.
  - rewrite !filter_cons_True by done. rewrite !fmap_cons. by f_equal.
  - rewrite !filter_cons_False by done. done.
Qed.

End reads.

(** ** Runs *)

Section runs.
Context `{Keccak} {St Pt : Type} `{TrieStore St} `{TrieStore Pt} (store : St) (part : Pt).
Context (Hcompat : compat part store).

(** [part] has every node of the log. *)
Definition served (lg : Log) : Prop :=
  ∀ c, Own store c → node_read c ∈ lg → is_Some (ts_get part (hash_of c)).

Lemma served_app l k : served (l ++ k) ↔ served l ∧ served k.
Proof using Type.
  unfold served. split.
  - intros Hs. split; intros c Ho Hc; (apply Hs; [done|apply elem_of_app]); auto.
  - intros [Hl Hk] c Ho [Hc|Hc]%elem_of_app; auto.
Qed.

Lemma child_own t b c : Stored store t → child t b = Some c → is_embeddable (mem c) = false → Own store c.
Proof using Type. intros [t' _ _ _ Hown] Hc. by apply (Hown b c Hc). Qed.

Lemma store_known t b : Stored store t → known store (child t b).
Proof using Type. intros Hst c Hc He. rewrite (child_own t b c Hst Hc He : ts_get store (hash_of c) = _). by eexists. Qed.

Lemma branch_run t b : Stored store t →
  (branch_size store (load_ref store (child t b))).1 = opened_size (child t b) ∧
  (served (branch_size store (load_ref store (child t b))).2 →
   (branch_size part (load_ref part (child t b))).1 = opened_size (child t b)).
Proof using Hcompat.
  intros Hst. destruct (branch_known store store (compat_refl store) t b Hst (store_known t b Hst)) as (lg & -> & Hlg).
  split; [done|]. intros Hs. destruct (branch_known store part Hcompat t b Hst) as (lg' & -> & _); [|done].
  intros c Hc He. apply Hs; [by eapply child_own|by apply Hlg].
Qed.

Lemma resolve_run t b c : Stored store t → child t b = Some c → is_embeddable (mem c) = false →
  (resolve_logged store (load_ref store (Some c))).1 = Some (load store c) ∧
  (served (resolve_logged store (load_ref store (Some c))).2 →
   (resolve_logged part (load_ref part (Some c))).1 = Some (load part c)).
Proof using Hcompat.
  intros Hst Hc He.
  destruct (resolve_known store store (compat_refl store) t b c Hst Hc He) as [lg ->]; [by eapply store_known|].
  split; [done|]. intros Hs. destruct (resolve_known store part Hcompat t b c Hst Hc He) as [lg' ->]; [|done].
  apply Hs; [by eapply child_own|by left].
Qed.

Lemma served_known o lg : (∃ t b, Stored store t ∧ o = child t b) → logged o lg → served lg → known part o.
Proof using Type. intros (t & b & Hst & ->) Hlg Hs c Hc He. apply Hs; [by eapply child_own|by apply Hlg]. Qed.

Lemma seek_run levels : ∀ t path path' off, Stored store t → sized t → 0 ≤ off → (height t ≤ levels)%nat →
  (seek_loop levels store path (load store t) off).1
  = (λ x, mkSeek (path ++ steps_of store x.1.1) (load store x.1.2) x.2) <$> seek_tree t off ∧
  (served (seek_loop levels store path (load store t) off).2 →
   (seek_loop levels part path' (load part t) off).1
   = (λ x, mkSeek (path' ++ steps_of part x.1.1) (load part x.1.2) x.2) <$> seek_tree t off).
Proof using Hcompat.
  induction levels as [|levels IH]; intros t path path' off Hst Hs Hoff Hh.
  { destruct t as [p v [l|] [r|]]; simpl in Hh; lia. }
  pose proof (compat_refl store) as Hrefl. pose proof (store_known t false Hst) as Hkl. pose proof (store_known t true Hst) as Hkr.
  assert (∀ b lg, logged (child t b) lg → served lg → known part (child t b)) as Hserve by eauto using served_known.
  assert (∀ b c path path' off, child t b = Some c → 0 ≤ off →
    (seek_loop levels store path (load store c) off).1
    = (λ x, mkSeek (path ++ steps_of store x.1.1) (load store x.1.2) x.2) <$> seek_tree c off ∧
    (served (seek_loop levels store path (load store c) off).2 →
     (seek_loop levels part path' (load part c) off).1
     = (λ x, mkSeek (path' ++ steps_of part x.1.1) (load part x.1.2) x.2) <$> seek_tree c off)) as IHc.
  { intros b c q q' o Hc Ho. pose proof (height_child t b c Hc).
    apply IH; [by eapply stored_child|by eapply sized_child|done|lia]. }
  clear IH. rewrite seek_tree_eq. cbv zeta. destruct (Z.ltb_spec off (opened_size (tleft t))) as [Hl|Hl].
  - destruct (tleft t) as [c|] eqn:Hc; [|simpl in Hl; lia]. rewrite <- Hc in Hl.
    destruct (seek_left store store Hrefl levels path t off Hst Hs Hkl Hoff c Hc Hl) as (lg & Hlg & ->). cbv zeta. cbn [fst snd].
    destruct (IHc false c (path ++ [mkStep (load store t) true]) (path' ++ [mkStep (load part t) true]) off Hc Hoff) as [IH1 IH2].
    rewrite IH1. split; [by destruct (seek_tree c off) as [[[tr t0] w]|]; simpl; rewrite <- ?app_assoc|].
    intros [Hslg Hrest]%served_app.
    destruct (seek_left store part Hcompat levels path' t off Hst Hs (Hserve false lg Hlg Hslg) Hoff c Hc Hl) as (lg' & _ & ->). cbv zeta.
    cbn [fst snd]. rewrite IH2 by done. by destruct (seek_tree c off) as [[[tr t0] w]|]; simpl; rewrite <- ?app_assoc.
  - destruct (Z.ltb_spec off (opened_size (tleft t) + span_of t)) as [Hm|Hm].
    + destruct (seek_here store store Hrefl levels path t off Hst Hs Hkl Hoff (conj Hl Hm)) as (lg & Hlg & ->). cbn [fst snd].
      split; [simpl; by rewrite app_nil_r|]. intros Hsv.
      destruct (seek_here store part Hcompat levels path' t off Hst Hs (Hserve false lg Hlg Hsv) Hoff (conj Hl Hm)) as (lg' & _ & ->).
      simpl. by rewrite app_nil_r.
    + destruct (tright t) as [c|] eqn:Hc; [destruct (is_embeddable (mem c)) eqn:He|].
      * destruct (seek_beyond store store Hrefl levels path t off Hst Hs Hkl Hoff Hm) as (lg & Hlg & ->).
        rewrite Hc. cbn [pending_ref]. rewrite He. split; [done|]. intros Hsv.
        destruct (seek_beyond store part Hcompat levels path' t off Hst Hs (Hserve false lg Hlg Hsv) Hoff Hm) as (lg' & _ & ->).
        rewrite Hc. cbn [pending_ref]. by rewrite He.
      * destruct (seek_right store store Hrefl levels path t off Hst Hs Hkl Hoff c Hc He Hkr Hm) as (lg & Hlg & Hrg & ->). cbv zeta. cbn [fst snd].
        set (off' := off - (opened_size (tleft t) + span_of t)).
        destruct (IHc true c (path ++ [mkStep (load store t) false]) (path' ++ [mkStep (load part t) false]) off' Hc) as [IH1 IH2]; [lia|].
        rewrite IH1. split; [by destruct (seek_tree c off') as [[[tr t0] w]|]; simpl; rewrite <- ?app_assoc|].
        intros [Hslg Hrest]%served_app.
        destruct (seek_right store part Hcompat levels path' t off Hst Hs (Hserve false lg Hlg Hslg) Hoff c Hc He (Hserve true lg Hrg Hslg) Hm) as (lg' & _ & _ & ->). cbv zeta.
        cbn [fst snd]. fold off'. rewrite IH2 by done. by destruct (seek_tree c off') as [[[tr t0] w]|]; simpl; rewrite <- ?app_assoc.
      * destruct (seek_beyond store store Hrefl levels path t off Hst Hs Hkl Hoff Hm) as (lg & Hlg & ->).
        rewrite Hc. cbn [pending_ref]. split; [done|]. intros Hsv.
        destruct (seek_beyond store part Hcompat levels path' t off Hst Hs (Hserve false lg Hlg Hsv) Hoff Hm) as (lg' & _ & ->).
        by rewrite Hc.
Qed.

(** *** The loop *)

Lemma spine_stored t : ∀ ts, Stored store t → Forall (Stored store) ts →
  Stored store (spine t ts).1 ∧ Forall (Stored store) (spine t ts).2.
Proof using Type.
  induction t as [p v l r IHl IHr] using tree_rect'. intros ts Hst Hts. cbn [spine tleft].
  destruct l as [c|]; [|done]. destruct (is_embeddable (mem c)); [done|].
  apply IHl; [done|by apply (stored_child store _ false c Hst)|by constructor].
Qed.

Lemma leftmost_run fuel : ∀ t ts, Stored store t → (length (inorder t) ≤ fuel)%nat →
  (leftmost fuel store (load store t) (load store <$> ts)).1
  = Some (load store (spine t ts).1, load store <$> (spine t ts).2) ∧
  (served (leftmost fuel store (load store t) (load store <$> ts)).2 →
   (leftmost fuel part (load part t) (load part <$> ts)).1
   = Some (load part (spine t ts).1, load part <$> (spine t ts).2)).
Proof using Hcompat.
  induction fuel as [|fuel IH]; intros t ts Hst Hlen; rewrite inorder_eq, length_app in Hlen; cbn [length] in Hlen; [lia|].
  cbn [leftmost]. rewrite (left_opens store store (compat_refl store)), (left_opens store part Hcompat) by done.
  destruct (tleft t) as [c|] eqn:Hc; [|by destruct t; simpl in *; subst].
  assert (spine t ts = if is_embeddable (mem c) then (t, ts) else spine c (t :: ts)) as ->
    by (destruct t; simpl in *; by subst).
  destruct (is_embeddable (mem c)) eqn:He; cbn [negb]; [done|]. simpl in Hlen. rewrite He in Hlen.
  rewrite (load_left store store (compat_refl store)), (load_left store part Hcompat), Hc by done.
  destruct (resolve_run t false c Hst Hc He) as [Hr Hr'].
  destruct (IH c (t :: ts)) as [IH1 IH2]; [by apply (stored_child store t false)|lia|].
  rewrite !lbind_fst, lbind_snd, served_app, Hr. split; [done|]. intros [Hs1 Hs2]. rewrite Hr' by done. by apply IH2.
Qed.

(** The child with an entry of its own. *)
Definition open_child (o : option tree) : option tree :=
  match o with Some c => if is_embeddable (mem c) then None else Some c | None => None end.

Lemma opened_open o : opened o = match open_child o with Some c => inorder c | None => [] end.
Proof using Type. destruct o as [c|]; [|done]. simpl. by destruct (is_embeddable (mem c)). Qed.

(** What is left of the traversal in a state of the loop. *)
Definition remaining (ts : list tree) (pend desc : option tree) : list tree :=
  match pend with
  | Some t => t :: opened (tright t) ++ owed ts
  | None => match desc with Some c => inorder c ++ owed ts | None => owed ts end
  end.

(** The states of the loop. *)
Record loop_state (ts : list tree) (pend desc : option tree) : Prop := {
  ls_stack : Forall (Stored store) ts;
  ls_pend t : pend = Some t → Stored store t;
  ls_desc c : desc = Some c → ∃ t b, Stored store t ∧ child t b = Some c ∧ is_embeddable (mem c) = false;
}.

Lemma loop_state_next t ts : Stored store t → Forall (Stored store) ts → loop_state ts None (open_child (tright t)).
Proof using Type.
  intros Hst Hts. split; [done|done|]. intros c. unfold open_child. destruct (tright t) as [c'|] eqn:Hc; [|done].
  destruct (is_embeddable (mem c')) eqn:He; [done|]. intros [= <-]. by exists t, true.
Qed.
End runs.

Section loop.
Context `{Keccak} {St Pt : Type} `{TrieStore St} `{TrieStore Pt} (store : St) (part : Pt).

Definition loop (fuel : nat) (stop : Stop) (max_nodes : Z) (out : list StreamNode) (used at_ : Z)
    (ts : list tree) (pend desc : option tree) : Logged (option (list StreamNode)) :=
  collect_loop fuel part stop max_nodes out used at_ (load part <$> ts) (load part <$> pend)
    ((λ c, load_ref part (Some c)) <$> desc).

(** The entry of [t], and on. *)
Definition emit (fuel : nat) (stop : Stop) (max_nodes : Z) (out : list StreamNode) (used at_ : Z)
    (t : tree) (ts : list tree) : Logged (option (list StreamNode)) :=
  let e := entry (have part) at_ t in
  ((if halts stop max_nodes out used at_ (wire_len e) then Some out
    else (loop fuel stop max_nodes (out ++ [e]) (u64 (used + wire_len e)) (u64 (at_ + span_of t)) ts None (open_child (tright t))).1),
   (long_values_of part (load part t)).2 ++
   (if halts stop max_nodes out used at_ (wire_len e) then []
    else (loop fuel stop max_nodes (out ++ [e]) (u64 (used + wire_len e)) (u64 (at_ + span_of t)) ts None (open_child (tright t))).2)).

Context (Hcompat : compat part store).

Lemma emit_eq fuel stop max_nodes out used at_ t ts : Stored store t →
  lbind (long_values_of part (load part t)) (λ values,
    let e := mkStreamNode at_ (stream_size (load part t)) (to_message (load part t)) values in
    if halts stop max_nodes out used at_ (wire_len e) then lret (Some out)
    else collect_loop fuel part stop max_nodes (out ++ [e]) (u64 (used + wire_len e))
           (u64 (at_ + span e)) (load part <$> ts) None (right_pending (load part t)))
  = emit fuel stop max_nodes out used at_ t ts.
Proof using Hcompat.
  intros Hst. unfold emit, lbind. cbv zeta.
  rewrite (long_values_load store part Hcompat), (load_stream_size store part Hcompat), (load_to_message store part Hcompat) by done.
  rewrite (right_pending_load store part Hcompat) by done. unfold entry. cbn [span]. fold (span_of t).
  assert (pending_ref part (tright t) = (λ c, load_ref part (Some c)) <$> open_child (tright t)) as ->.
  { destruct (tright t) as [c|]; [|done]. cbn [pending_ref open_child]. by destruct (is_embeddable (mem c)). }
  destruct (halts _ _ _ _ _ _); done.
Qed.

(** The body of the loop. *)
Lemma loop_eq fuel stop max_nodes out used at_ ts pend desc : loop_state store ts pend desc →
  loop (S fuel) stop max_nodes out used at_ ts pend desc =
  match pend with
  | Some t => emit fuel stop max_nodes out used at_ t ts
  | None =>
      match desc with
      | Some c =>
          lbind (resolve_logged part (load_ref part (Some c))) (λ n,
            match n with
            | None => loop fuel stop max_nodes out used at_ ts None None
            | Some n =>
                lbind (leftmost fuel part n (load part <$> ts)) (λ found,
                  match found with
                  | None => lret None
                  | Some (n, stack) =>
                      lbind (long_values_of part n) (λ values,
                        let e := mkStreamNode at_ (stream_size n) (to_message n) values in
                        if halts stop max_nodes out used at_ (wire_len e) then lret (Some out)
                        else collect_loop fuel part stop max_nodes (out ++ [e]) (u64 (used + wire_len e))
                               (u64 (at_ + span e)) stack None (right_pending n))
                  end)
            end)
      | None => match ts with [] => lret (Some out) | t :: ts => emit fuel stop max_nodes out used at_ t ts end
      end
  end.
Proof using Hcompat.
  intros [Hts Hpend Hdesc].
  unfold loop. cbn [collect_loop]. destruct pend as [t|]; [by apply emit_eq, Hpend|].
  destruct desc as [c|]; [done|]. destruct ts as [|t ts]; [done|].
  cbn [fmap option_fmap option_map list_fmap]. apply (emit_eq fuel stop max_nodes out used at_ t ts). by inversion Hts.
Qed.

End loop.

Section sim.
Context `{Keccak} {St Pt : Type} `{TrieStore St} `{TrieStore Pt} (store : St) (part : Pt).
Context (Hcompat : compat part store).

(** The two runs stop on their own conditions; [R] relates what they have put out, and where
    the first one stops, with [final], so does the second. *)
Context (stop_s stop_p : Stop) (max_s max_p : Z) (final : list StreamNode).
Context (R : list StreamNode * Z → list StreamNode * Z → Prop).

Let es at_ t := entry (have store) at_ t.
Let ep at_ t := entry (have part) at_ t.

Context (R_push : ∀ o us p up at_ t, Stored store t → R (o, us) (p, up) →
  R (o ++ [es at_ t], u64 (us + wire_len (es at_ t))) (p ++ [ep at_ t], u64 (up + wire_len (ep at_ t)))).
Context (R_halt : ∀ us p up at_ t, Stored store t → R (final, us) (p, up) →
  halts stop_s max_s final us at_ (wire_len (es at_ t)) = true →
  halts stop_p max_p p up at_ (wire_len (ep at_ t)) = true).

Let loop_s fuel := loop store fuel stop_s max_s.
Let loop_p fuel := loop part fuel stop_p max_p.

(** The claim of the simulation for the states with [fuel]. *)
Definition simulates (fuel : nat) : Prop := ∀ o us p up at_ ts pend desc,
  loop_state store ts pend desc → (length (remaining ts pend desc) < fuel)%nat →
  (loop_s fuel o us at_ ts pend desc).1 = Some (cut (have store) stop_s max_s o us at_ (remaining ts pend desc)) ∧
  (R (o, us) (p, up) → cut (have store) stop_s max_s o us at_ (remaining ts pend desc) = final →
   served store part (loop_s fuel o us at_ ts pend desc).2 →
   (loop_p fuel p up at_ ts pend desc).1 = Some (cut (have part) stop_p max_p p up at_ (remaining ts pend desc))).

Lemma emit_run fuel : simulates fuel → ∀ o us p up at_ t ts, Stored store t → Forall (Stored store) ts →
  (length (opened (tright t) ++ owed ts) < fuel)%nat →
  (emit store fuel stop_s max_s o us at_ t ts).1
  = Some (cut (have store) stop_s max_s o us at_ (t :: opened (tright t) ++ owed ts)) ∧
  (R (o, us) (p, up) → cut (have store) stop_s max_s o us at_ (t :: opened (tright t) ++ owed ts) = final →
   served store part (emit store fuel stop_s max_s o us at_ t ts).2 →
   (emit part fuel stop_p max_p p up at_ t ts).1
   = Some (cut (have part) stop_p max_p p up at_ (t :: opened (tright t) ++ owed ts))).
Proof using Type*.
  intros Hsim o us p up at_ t ts Hst Hts Hlen. unfold emit. cbv zeta. cbn [cut fst snd].
  pose proof (loop_state_next store t ts Hst Hts) as Hls.
  assert (remaining ts None (open_child (tright t)) = opened (tright t) ++ owed ts) as Hrem.
  { rewrite opened_open. simpl. by destruct (open_child (tright t)). }
  destruct (Hsim (o ++ [es at_ t]) (u64 (us + wire_len (es at_ t))) (p ++ [ep at_ t]) (u64 (up + wire_len (ep at_ t)))
    (u64 (at_ + span_of t)) ts None (open_child (tright t)) Hls) as [H1' H2']; rewrite Hrem in *; [done|].
  fold (es at_ t) (ep at_ t). destruct (halts stop_s max_s o us at_ (wire_len (es at_ t))) eqn:Hhs.
  - split; [done|]. intros HR <- _. by rewrite (R_halt us p up at_ t Hst HR Hhs).
  - split; [exact H1'|]. intros HR Hfin [_ Hs]%served_app. destruct (halts stop_p _ _ _ _ _); [done|].
    apply H2'; [by apply R_push|done|done].
Qed.

Lemma loop_run fuel : simulates fuel.
Proof using Type*.
  induction fuel as [|fuel IH]; intros o us p up at_ ts pend desc Hls Hlen; [lia|].
  unfold loop_s, loop_p. rewrite (loop_eq store store (compat_refl store)), (loop_eq store part Hcompat) by done.
  destruct Hls as [Hts Hpend Hdesc]. destruct pend as [t|]; cbn [remaining] in *.
  { apply emit_run; [done|by apply Hpend|done|simpl in Hlen; lia]. }
  destruct desc as [c|].
  2: { destruct ts as [|t ts]; [done|]. inversion Hts; subst.
       change (owed (t :: ts)) with (t :: opened (tright t) ++ owed ts) in *. cbn [length] in Hlen.
       apply emit_run; [done|done|done|lia]. }
  destruct (Hdesc c eq_refl) as (t & b & Hst & Hc & He).
  destruct (resolve_run store part Hcompat t b c Hst Hc He) as [Hr Hr'].
  assert (Stored store c) as Hsc by by eapply stored_child.
  assert (length (inorder c) ≤ fuel)%nat as Hlc by (rewrite length_app in Hlen; lia).
  destruct (leftmost_run store part Hcompat fuel c ts Hsc Hlc) as [Hm Hm'].
  rewrite spine_inorder in *. destruct (spine_stored store c ts Hsc Hts) as [Hs1 Hs2].
  destruct (emit_run fuel IH o us p up at_ (spine c ts).1 (spine c ts).2 Hs1 Hs2) as [He1 He2]; [simpl in Hlen; lia|].
  rewrite !lbind_fst, !lbind_snd, !served_app, Hr, !lbind_fst, !lbind_snd, !served_app, Hm.
  rewrite (emit_eq store store (compat_refl store)) by done. split; [done|].
  intros HR Hfin (Hv1 & Hv2 & Hv3). rewrite Hr', lbind_fst, Hm' by done.
  rewrite (emit_eq store part Hcompat) by done. by apply He2.
Qed.

End sim.

(** ** [collect] *)

(** A trie that [store] holds, in reach of [seek]. *)
Record Readable `{Keccak} {St} `{TrieStore St} (store : St) (t : tree) : Prop := {
  rd_stored : Stored store t;
  rd_not_empty : is_empty_trie (mem t) = false;
  rd_sized : sized t;
  rd_height : (height t ≤ SEEK_LEVELS)%nat;
}.

Section collecting.
Context `{Keccak} {St Pt : Type} `{TrieStore St} `{TrieStore Pt} (store : St) (part : Pt).
Context (Hcompat : compat part store).

Lemma inorder_stored t : Stored store t → Forall (Stored store) (inorder t).
Proof using Type.
  induction t as [p v l r IHl IHr] using tree_rect'. intros Hst. rewrite inorder_eq. cbn [tleft tright].
  assert (∀ b o, o = child (mkTree p v l r) b → (∀ c, o = Some c → Stored store c → Forall (Stored store) (inorder c)) →
    Forall (Stored store) (opened o)) as Hop.
  { intros b [c|] Ho IH; [|by constructor]. simpl. destruct (is_embeddable (mem c)); [by constructor|].
    apply IH; [done|]. by eapply stored_child. }
  apply Forall_app. split; [by apply (Hop false)|]. constructor; [done|by apply (Hop true)].
Qed.

Lemma owed_stored ts : Forall (Stored store) (owed ts) → Forall (Stored store) ts.
Proof using Type.
  induction ts as [|t ts IH]; [constructor|]. change (owed (t :: ts)) with (t :: opened (tright t) ++ owed ts).
  intros [Ht [_ Hts]%Forall_app]%Forall_cons. constructor; auto.
Qed.

(** The whole run: the entries from the one the offset falls in. *)
Definition run_from (have_ : bytes → bool) (t : tree) (off : Z) (stop : Stop) (max_nodes : Z) : list StreamNode :=
  match seek_tree t off with
  | None => []
  | Some (tr, t0, w) => cut have_ stop max_nodes [] 0 (off - w) (t0 :: opened (tright t0) ++ owed (lefts tr))
  end.

Lemma collect_run (R : list StreamNode * Z → list StreamNode * Z → Prop) fuel t off stop_s max_s stop_p max_p :
  Readable store t → 0 ≤ off → (length (inorder t) < fuel)%nat →
  let es at_ t := entry (have store) at_ t in let ep at_ t := entry (have part) at_ t in
  let final := run_from (have store) t off stop_s max_s in
  R ([], 0) ([], 0) →
  (∀ o us p up at_ t, Stored store t → R (o, us) (p, up) →
    R (o ++ [es at_ t], u64 (us + wire_len (es at_ t))) (p ++ [ep at_ t], u64 (up + wire_len (ep at_ t)))) →
  (∀ us p up at_ t, Stored store t → R (final, us) (p, up) →
    halts stop_s max_s final us at_ (wire_len (es at_ t)) = true →
    halts stop_p max_p p up at_ (wire_len (ep at_ t)) = true) →
  (collect fuel store (load store t) off stop_s max_s).1 = Some final ∧
  (served store part (collect fuel store (load store t) off stop_s max_s).2 →
   (collect fuel part (load part t) off stop_p max_p).1 = Some (run_from (have part) t off stop_p max_p)).
Proof using Hcompat.
  intros [Hst Hne Hsz Hh] Hoff Hfuel es ep final HR0 Hpush Hhalt. unfold collect, seek.
  rewrite (load_not_empty store store (compat_refl store)), (load_not_empty store part Hcompat), Hne by done.
  destruct (seek_run store part Hcompat SEEK_LEVELS t [] [] off Hst Hsz Hoff Hh) as [Hs Hs'].
  rewrite !lbind_fst, lbind_snd, served_app, Hs. unfold final, run_from in *.
  destruct (seek_tree t off) as [[[tr t0] w]|] eqn:Hseek; cbn [fmap option_fmap option_map fst snd] in *.
  2: { split; [done|]. intros [Hv _]. by rewrite (Hs' Hv). }
  assert (node_size (mem t) ≤ off ∨ 0 ≤ off < node_size (mem t)) as [Hpast|Hin] by lia.
  { by rewrite seek_tree_past in Hseek. }
  destruct (seek_tree_spec t off Hsz Hin) as (tr' & t0' & w' & pre & Hseek' & Hino & _ & _).
  rewrite Hseek in Hseek'. injection Hseek' as <- <- <-. pose proof (inorder_stored t Hst) as Hall. rewrite Hino in Hall.
  apply Forall_app in Hall as [_ [Hst0 [_ Hlefts%owed_stored]%Forall_app]%Forall_cons].
  assert (loop_state store (lefts tr) (Some t0) None) as Hls by (split; [done|by intros ? [= <-]|done]).
  assert (length (remaining (lefts tr) (Some t0) None) < fuel)%nat as Hlen.
  { rewrite Hino, length_app in Hfuel. cbn [remaining]. lia. }
  destruct (loop_run store part Hcompat stop_s stop_p max_s max_p _ R Hpush Hhalt fuel [] 0 [] 0 (off - w) (lefts tr) (Some t0) None Hls Hlen) as [Hl Hl'].
  cbn [seek_path seek_node within app] in *. rewrite !owing_steps in *. split; [exact Hl|].
  intros [Hv Hv']. rewrite (Hs' Hv). cbn [seek_path seek_node within]. rewrite owing_steps. by apply Hl'.
Qed.

End collecting.

End SnapshotRun.
