(* ===== verification/SnapshotChunk.v ===== *)
(** * Chunks of a stored trie: what crates/trie/src/snapshot.rs returns

    [stream t] lists the entries of the traversal of [t] with their offsets.  The cell
    [chunk_until] returns is the entries that meet its range, so a grid of cells has every
    entry; and chunks taken one after the other, each from where the last one ended, tile the
    stream. *)
From S2P Require Import Prelude Path Varint Store Node Unitrie NodeCodec NodeRefine NodeSave Trie EpochMark Snapshot SnapshotView SnapshotRun.
From stdpp Require Import options.

Module SnapshotChunk.
Import Store Node Unitrie NodeCodec NodeRefine NodeSave Trie EpochMark Snapshot SnapshotView SnapshotRun.
Local Open Scope Z_scope.

Lemma filter_none {A} (P : A → Prop) `{∀ x, Decision (P x)} (l : list A) : (∀ x, x ∈ l → ¬ P x) → filter P l = [].
Proof.
  induction l as [|x l IH]; intros Hn; [done|]. rewrite filter_cons_False by (apply Hn; by left).
  apply IH. intros y Hy. apply Hn. by right.
Qed.

Lemma filter_same {A} (P Q : A → Prop) `{∀ x, Decision (P x)} `{∀ x, Decision (Q x)} (l : list A) :
  (∀ x, x ∈ l → P x ↔ Q x) → filter P l = filter Q l.
Proof.
  induction l as [|x l IH]; intros Hn; [done|]. rewrite !filter_cons, IH by (intros y Hy; apply Hn; by right).
  pose proof (Hn x (list_elem_of_here x l)). repeat case_decide; tauto.
Qed.

Section chunks.
Context `{Keccak}.

(** The entries of [l], the first at offset [at_]. *)
Fixpoint layout (have_ : bytes → bool) (at_ : Z) (l : list tree) : list StreamNode :=
  match l with
  | [] => []
  | t :: l => entry have_ at_ t :: layout have_ (at_ + span_of t) l
  end.

Definition stream (t : tree) : list StreamNode := layout everything 0 (inorder t).

Lemma layout_app have_ at_ l k : layout have_ at_ (l ++ k) = layout have_ at_ l ++ layout have_ (at_ + spans l) k.
Proof.
  revert at_. induction l as [|t l IH]; intros at_; simpl; [f_equal; lia|]. rewrite IH.
  do 3 f_equal. lia.
Qed.

Lemma length_layout have_ at_ l : length (layout have_ at_ l) = length l.
Proof. revert at_. induction l as [|t l IH]; intros at_; simpl; [done|]. by rewrite IH. Qed.

Lemma inorder_sized t : sized t → Forall (λ x, 0 < span_of x) (inorder t).
Proof.
  induction t as [p v l r IHl IHr] using tree_rect'. intros Hs. inversion Hs as [? _ Hpos Hch]; subst.
  rewrite inorder_eq. cbn [tleft tright].
  assert (∀ b o, o = child (mkTree p v l r) b → (∀ c, o = Some c → sized c → Forall (λ x, 0 < span_of x) (inorder c)) →
    Forall (λ x, 0 < span_of x) (opened o)) as Hop.
  { intros b [c|] Ho IH; [|by constructor]. simpl. destruct (is_embeddable (mem c)); [by constructor|].
    apply IH; [done|]. by eapply Hch. }
  apply Forall_app. split; [by apply (Hop false)|]. constructor; [done|by apply (Hop true)].
Qed.

Lemma spans_bounds l : Forall (λ x, 0 < span_of x) l → Z.of_nat (length l) ≤ spans l.
Proof. induction 1 as [|t l Ht _ IH]; simpl; lia. Qed.

(** An entry begins at or after [at_] and ends by [at_ + spans l]. *)
Lemma layout_bounds have_ l : ∀ at_ e, Forall (λ x, 0 < span_of x) l → e ∈ layout have_ at_ l →
  at_ ≤ offset e ∧ 0 < span e ∧ offset e + span e ≤ at_ + spans l.
Proof.
  induction l as [|t l IH]; intros at_ e Hl He; [by apply elem_of_nil in He|].
  inversion_clear Hl as [|? ? Ht Hl']. pose proof (spans_bounds l Hl'). cbn [layout] in He.
  apply elem_of_cons in He as [->|He]; simpl; [lia|]. destruct (IH _ _ Hl' He) as (? & ? & ?). lia.
Qed.

(** Cut at an offset: the entries that begin before it. *)
Lemma cut_offset have_ to l : ∀ out used at_, Forall (λ x, 0 < span_of x) l →
  0 ≤ at_ → at_ + spans l < 2 ^ 64 → Z.of_nat (length out + length l) < 2 ^ 64 → (out ≠ [] ∨ at_ < to) →
  cut have_ (StopOffset to) U64_MAX out used at_ l
  = out ++ filter (λ e, offset e < to) (layout have_ at_ l).
Proof.
  induction l as [|t l IH]; intros out used at_ Hl Hat Hsum Hlen Hto; [by rewrite app_nil_r|].
  inversion_clear Hl as [|? ? Ht Hl']. cbn [spans foldr length] in *. fold (spans l) in Hsum. pose proof (spans_bounds l Hl').
  cbn [cut layout]. destruct (halts _ _ _ _ _ _) eqn:Hh.
  - assert (to ≤ at_) as Hle.
    { unfold halts, is_full, U64_MAX in Hh. destruct out as [|e out]; [done|].
      destruct (Z.leb_spec to at_); [done|]. cbn [orb] in Hh. apply Z.leb_le in Hh. simpl length in *. lia. }
    assert (filter (λ e, offset e < to) (entry have_ at_ t :: layout have_ (at_ + span_of t) l) = []) as ->; [|by rewrite app_nil_r].
    change (entry have_ at_ t :: layout have_ (at_ + span_of t) l) with (layout have_ at_ (t :: l)).
    apply filter_none. intros e He. destruct (layout_bounds have_ (t :: l) at_ e (Forall_cons_2 (λ x, 0 < span_of x) _ _ Ht Hl') He) as (? & ? & ?). lia.
  - assert (at_ < to) as Hlt.
    { destruct Hto as [Hne|]; [|done]. unfold halts, is_full in Hh. destruct out as [|e out]; [done|].
      apply orb_false_iff in Hh as [Hh _]. by apply Z.leb_gt in Hh. }
    unfold u64 at 2. rewrite (wrap_small 64 (at_ + span_of t)) by (unfold fits; lia).
    rewrite IH; [|done|lia|lia|rewrite length_app; simpl; lia|left; by destruct out].
    rewrite filter_cons_True by done. by rewrite <- app_assoc.
Qed.

(** Cut by a budget: some of the entries, the first among them. *)
Lemma cut_prefix have_ stop max_nodes l : ∀ out used at_, Forall (λ x, 0 < span_of x) l →
  0 ≤ at_ → at_ + spans l < 2 ^ 64 →
  ∃ k, cut have_ stop max_nodes out used at_ l = out ++ take k (layout have_ at_ l) ∧
    (k ≤ length l)%nat ∧ (out = [] → l ≠ [] → (0 < k)%nat).
Proof.
  induction l as [|t l IH]; intros out used at_ Hl Hat Hsum.
  { exists 0%nat. by rewrite app_nil_r. }
  inversion_clear Hl as [|? ? Ht Hl']. cbn [spans foldr length] in *. fold (spans l) in Hsum. pose proof (spans_bounds l Hl').
  cbn [cut layout]. destruct (halts _ _ _ _ _ _) eqn:Hh.
  - exists 0%nat. rewrite app_nil_r. split_and!; [done|lia|]. intros ->. done.
  - unfold u64 at 2. rewrite (wrap_small 64 (at_ + span_of t)) by (unfold fits; lia).
    destruct (IH (out ++ [entry have_ at_ t]) (u64 (used + wire_len (entry have_ at_ t))) (at_ + span_of t)) as (k & -> & Hk & _);
      [done|lia|lia|]. exists (S k). rewrite <- app_assoc. split_and!; [done|lia|lia].
Qed.

Section stored.
Context {St : Type} `{TrieStore St} (store : St).

(** Every long value of a stored trie is there. *)
Lemma own_values_store t : Stored store t → own_values (have store) t = own_values everything t.
Proof.
  intros [t' _ Hv _ _]. unfold own_values, everything, have. destruct (tval t') as [v|]; [|done].
  destruct (Nat.ltb_spec 32 (length v)) as [Hlen|]; [|done]. rewrite (Hv v eq_refl Hlen).
  by rewrite bool_decide_true by by eexists.
Qed.

Lemma entry_store at_ t : Stored store t → entry (have store) at_ t = entry everything at_ t.
Proof.
  intros Hst. unfold entry. f_equal. unfold entry_values. rewrite own_values_store by done.
  assert (∀ b, embedded_values (have store) (child t b) = embedded_values everything (child t b)) as He.
  { intros b. destruct (child t b) as [c|] eqn:Hc; [|done]. simpl. destruct (is_embeddable (mem c)); [|done].
    apply own_values_store. by eapply stored_child. }
  by rewrite (He false : embedded_values _ (tleft t) = _), (He true : embedded_values _ (tright t) = _).
Qed.

Lemma cut_store stop max_nodes l : ∀ out used at_, Forall (Stored store) l →
  cut (have store) stop max_nodes out used at_ l = cut everything stop max_nodes out used at_ l.
Proof.
  induction l as [|t l IH]; intros out used at_ Hl; [done|]. inversion_clear Hl. cbn [cut].
  rewrite entry_store by done. destruct (halts _ _ _ _ _ _); [done|]. by apply IH.
Qed.

Lemma run_from_store t off stop max_nodes : Readable store t → 0 ≤ off →
  run_from (have store) t off stop max_nodes = run_from everything t off stop max_nodes.
Proof.
  intros [Hst Hne Hsz Hh] Hoff. unfold run_from. destruct (seek_tree t off) as [[[tr t0] w]|] eqn:Hseek; [|done].
  assert (node_size (mem t) ≤ off ∨ 0 ≤ off < node_size (mem t)) as [Hpast|Hin] by lia.
  { by rewrite seek_tree_past in Hseek. }
  destruct (seek_tree_spec t off Hsz Hin) as (tr' & t0' & w' & pre & Hseek' & Hino & _ & _).
  rewrite Hseek in Hseek'. injection Hseek' as <- <- <-. apply cut_store.
  pose proof (inorder_stored store t Hst) as Hall. rewrite Hino in Hall. by apply Forall_app in Hall as [_ ?].
Qed.

(** [collect] on a stored trie. *)
Lemma collect_store fuel t off stop max_nodes : Readable store t → 0 ≤ off → (length (inorder t) < fuel)%nat →
  (collect fuel store (load store t) off stop max_nodes).1 = Some (run_from everything t off stop max_nodes).
Proof.
  intros Hrd Hoff Hfuel. rewrite <- (run_from_store t off stop max_nodes Hrd Hoff).
  refine (proj1 (collect_run store store (compat_refl store) eq fuel t off stop max_nodes stop max_nodes Hrd Hoff Hfuel eq_refl _ _)).
  - by intros o us p up at_ x _ [= <- <-].
  - by intros us p up at_ x _ [= <- <-].
Qed.

Lemma readable_root t : Readable store t → try_from_message store (to_message (mem t)) = Some (load store t).
Proof. intros [Hst _ _ _]. by apply (parse_load store store (compat_refl store)). Qed.
End stored.

(** From an offset on: the entry it falls in, at its offset, and what follows. *)
Lemma stream_at t off : sized t → 0 ≤ off < node_size (mem t) →
  ∃ tr t0 w pre rest, seek_tree t off = Some (tr, t0, w) ∧ rest = t0 :: opened (tright t0) ++ owed (lefts tr) ∧
    inorder t = pre ++ rest ∧ stream t = layout everything 0 pre ++ layout everything (spans pre) rest ∧
    spans pre = off - w ∧ 0 ≤ w < span_of t0 ∧ 0 ≤ spans pre ∧ spans pre + spans rest < 2 ^ 64 ∧
    Forall (λ x, 0 < span_of x) pre ∧ Forall (λ x, 0 < span_of x) rest.
Proof.
  intros Hsz Hin. destruct (seek_tree_spec t off Hsz Hin) as (tr & t0 & w & pre & Hseek & Hino & Hsum & Hw).
  eexists tr, t0, w, pre, _. split; [done|]. split; [done|]. pose proof (inorder_sized t Hsz) as Hpos. rewrite Hino in Hpos.
  apply Forall_app in Hpos as [Hp Hr]. pose proof (sized_spans t Hsz) as Htot. rewrite Hino, spans_app in Htot.
  pose proof (node_size_fits (mem t)) as Hfit. unfold fits in Hfit. pose proof (spans_bounds pre Hp).
  split_and!; [done| |lia|lia|lia|lia|lia|done|done]. unfold stream. by rewrite Hino, layout_app, Z.add_0_l.
Qed.

(** The entries from an offset on. *)
Lemma stream_rest t off pre rest w t0 : stream t = layout everything 0 pre ++ layout everything (spans pre) (t0 :: rest) →
  spans pre = off - w → 0 ≤ w < span_of t0 → Forall (λ x, 0 < span_of x) pre → Forall (λ x, 0 < span_of x) (t0 :: rest) →
  filter (λ e, off < offset e + span e) (stream t) = layout everything (spans pre) (t0 :: rest).
Proof.
  intros -> Hpre Hw Hpos1 Hpos2. rewrite filter_app, (filter_none _ (layout everything 0 pre)).
  2: { intros e He Hlt. destruct (layout_bounds everything pre 0 e Hpos1 He) as (? & ? & ?). lia. }
  cbn [app]. transitivity (filter (λ _, True) (layout everything (spans pre) (t0 :: rest))).
  - apply filter_same. intros e He. split; [done|]. intros _. cbn [layout] in He.
    apply elem_of_cons in He as [->|He]; [cbn; lia|]. apply Forall_cons_1 in Hpos2 as [_ Hpos3].
    destruct (layout_bounds everything _ _ e Hpos3 He) as (? & ? & ?). lia.
  - clear. generalize (layout everything (spans pre) (t0 :: rest)). intros l. induction l as [|e l IH]; [done|]. rewrite filter_cons_True by done. by f_equal.
Qed.

Lemma stream_past t off : sized t → node_size (mem t) ≤ off → filter (λ e, off < offset e + span e) (stream t) = [].
Proof.
  intros Hsz Hpast. pose proof (sized_spans t Hsz) as Htot. apply filter_none. intros e He Hlt.
  destruct (layout_bounds everything (inorder t) 0 e (inorder_sized t Hsz) He) as (? & ? & ?). lia.
Qed.

(** A run to an offset: the entries that meet the range. *)
Lemma run_until t from to : sized t → 0 ≤ from < to →
  run_from everything t from (StopOffset to) U64_MAX = filter (λ e, offset e < to) (filter (λ e, from < offset e + span e) (stream t)).
Proof.
  intros Hsz Hft. unfold run_from. destruct (Z.lt_ge_cases from (node_size (mem t))) as [Hin|Hpast].
  2: { by rewrite seek_tree_past, stream_past. }
  destruct (stream_at t from Hsz) as (tr & t0 & w & pre & rest & -> & -> & Hino & Hstr & Hpre & Hw & Hp0 & Hbound & Hpos1 & Hpos2); [lia|].
  rewrite <- Hpre, (stream_rest t from pre _ w t0) by done. set (rest := t0 :: _) in *. pose proof (spans_bounds rest Hpos2).
  rewrite cut_offset; [done|done|lia|lia|cbn [length Nat.add]; lia|right; lia].
Qed.

(** A run, however it is cut: the first entries from the offset on, one at least. *)
Lemma run_prefix t from stop max_nodes : sized t → 0 ≤ from < node_size (mem t) →
  ∃ k, (0 < k)%nat ∧ run_from everything t from stop max_nodes = take k (filter (λ e, from < offset e + span e) (stream t)).
Proof.
  intros Hsz Hin. unfold run_from.
  destruct (stream_at t from Hsz Hin) as (tr & t0 & w & pre & rest & -> & -> & Hino & Hstr & Hpre & Hw & Hp0 & Hbound & Hpos1 & Hpos2).
  rewrite <- Hpre, (stream_rest t from pre _ w t0) by done. set (rest := t0 :: _) in *.
  destruct (cut_prefix everything stop max_nodes rest [] 0 (spans pre) Hpos2 Hp0 Hbound) as (k & -> & _ & Hk). exists k. split; [by apply Hk|done].
Qed.

(** ** Theorems *)

(** C20: The cell of [from..to] is exactly the entries of the traversal that meet the range. *)
Theorem chunk_until_exact {St} `{TrieStore St} (store : St) t root fuel from to :
  Readable store t → try_from_message store (to_message (mem t)) = Some root →
  (length (inorder t) < fuel)%nat → 0 ≤ from < to →
  (chunk_until fuel store root from to).1
  = Some (filter (λ e, from < offset e + span e ∧ offset e < to) (stream t)).
Proof.
  intros Hrd Hroot Hfuel Hft. rewrite readable_root in Hroot by done. injection Hroot as <-.
  unfold chunk_until. rewrite collect_store by (done || lia). f_equal. destruct Hrd as [_ _ Hsz _].
  rewrite run_until by done. rewrite list_filter_filter. apply filter_same. intros e _. tauto.
Qed.

(** The entry an offset on a boundary falls in is the one that begins there. *)
Lemma boundary_unique (l pre rest : list tree) t0 i : Forall (λ x, 0 < span_of x) l → l = pre ++ t0 :: rest → (i ≤ length l)%nat →
  spans pre ≤ spans (take i l) < spans pre + span_of t0 → i = length pre.
Proof.
  intros Hpos -> Hi Hs. apply Forall_app in Hpos as [Hp Hr]. apply Forall_cons_1 in Hr as [Ht0 Hr].
  assert (∀ k : list tree, Forall (λ x, 0 < span_of x) k → 0 ≤ spans k) as Hge.
  { intros k Hk. pose proof (spans_bounds k Hk). lia. }
  destruct (Nat.lt_trichotomy i (length pre)) as [Hlt|[->|Hgt]]; [exfalso|done|exfalso].
  - rewrite take_app_le in Hs by lia.
    assert (spans pre = spans (take i pre) + spans (drop i pre)) by by rewrite <- spans_app, take_drop.
    pose proof (spans_bounds _ (Forall_drop _ i _ Hp)) as Hb. rewrite length_drop in Hb. lia.
  - rewrite take_app_ge in Hs by lia. destruct (i - length pre)%nat as [|j] eqn:Hj; [lia|]. cbn [take] in Hs.
    rewrite spans_app in Hs. cbn [spans foldr] in Hs. fold (spans (take j rest)) in Hs.
    pose proof (Hge _ (Forall_take _ j _ Hr)). lia.
Qed.

Lemma drop_stream t i : drop i (stream t) = layout everything (spans (take i (inorder t))) (drop i (inorder t)).
Proof.
  unfold stream. rewrite <- (take_drop i (inorder t)) at 1. rewrite layout_app, Z.add_0_l.
  destruct (Nat.le_gt_cases i (length (inorder t))) as [Hle|Hgt].
  - rewrite drop_app_length'; [done|]. rewrite length_layout, length_take. lia.
  - rewrite (drop_ge (inorder t) i) by lia. simpl. rewrite app_nil_r. apply drop_ge. rewrite length_layout, length_take. lia.
Qed.

Lemma layout_last l : ∀ at_ k e, (k ≤ length l)%nat → last (take k (layout everything at_ l)) = Some e →
  offset e + span e = at_ + spans (take k l).
Proof.
  induction l as [|t l IH]; intros at_ k e Hk He; [by destruct k|].
  destruct k as [|k]; [done|]. cbn [layout take spans foldr] in *. fold (spans (take k l)). simpl in Hk.
  destruct k as [|k].
  { simpl in He. injection He as <-. simpl. lia. }
  destruct l as [|x l]; [simpl in Hk; lia|]. rewrite (IH (at_ + span_of t) (S k) e); [lia|lia|]. exact He.
Qed.

(** Chunks tile the traversal: a chunk asked for at the beginning of entry [i] is the entries
    from there, one at least, and ends where the next entry begins; and the last one ends at
    the size the root commits to. *)
Theorem chunks_tile {St} `{TrieStore St} (store : St) t root fuel budget i :
  Readable store t → try_from_message store (to_message (mem t)) = Some root →
  (length (inorder t) < fuel)%nat → (i < length (inorder t))%nat →
  total_size root = spans (inorder t) ∧
  ∃ k, (0 < k)%nat ∧ (i + k ≤ length (inorder t))%nat ∧
    (chunk_from fuel store root (spans (take i (inorder t))) budget).1 = Some (take k (drop i (stream t))) ∧
    ∀ e, last (take k (drop i (stream t))) = Some e → end_of e = spans (take (i + k) (inorder t)).
Proof.
  intros Hrd Hroot Hfuel Hi. rewrite readable_root in Hroot by done. injection Hroot as <-.
  pose proof Hrd as [Hst _ Hsz _]. pose proof (inorder_sized t Hsz) as Hpos. pose proof (sized_spans t Hsz) as Htot.
  rewrite (load_total_size store store (compat_refl store)) by done. split; [done|].
  assert (spans (take i (inorder t)) + spans (drop i (inorder t)) = node_size (mem t)) as Hsplit.
  { by rewrite <- spans_app, take_drop. }
  pose proof (spans_bounds _ (Forall_take _ i _ Hpos)) as Hb1. pose proof (spans_bounds _ (Forall_drop _ i _ Hpos)) as Hb2.
  rewrite length_take in Hb1. rewrite length_drop in Hb2. set (off := spans (take i (inorder t))) in *.
  unfold chunk_from, chunk_from_limited. rewrite collect_store by (done || lia). unfold run_from.
  destruct (stream_at t off Hsz) as (tr & t0 & w & pre & rest & -> & Hrest & Hino & _ & Hpre & Hw & Hp0 & Hbound & Hpos1 & Hpos2); [lia|].
  assert (i = length pre) as Hipre.
  { eapply (boundary_unique (inorder t)); [exact Hpos|by rewrite Hino, Hrest|lia|lia]. }
  assert (take i (inorder t) = pre ∧ drop i (inorder t) = rest) as [Htk Hdp].
  { rewrite Hino, Hipre. by rewrite take_app_length, drop_app_length. }
  rewrite <- Hrest, <- Hpre.
  destruct (cut_prefix everything (StopBudget budget) U64_MAX rest [] 0 (spans pre) Hpos2 Hp0 Hbound) as (k & -> & Hk & Hk0).
  exists k. rewrite drop_stream, Htk, Hdp. split_and!; [apply Hk0; by subst rest| |done|].
  - rewrite Hino, length_app. lia.
  - intros e He. unfold end_of. rewrite (layout_last rest (spans pre) k e Hk He).
    rewrite Hino, Hipre, take_app_add, spans_app. unfold u64. apply wrap_small. unfold fits.
    pose proof (spans_bounds _ (Forall_take _ k _ Hpos2)). pose proof (spans_bounds _ (Forall_drop _ k _ Hpos2)).
    rewrite <- (take_drop k rest), spans_app in Hbound. lia.
Qed.

(** ** An example *)

Section decide.
Context {St : Type} `{TrieStore St} (store : St).

Definition node_boundsb (t : tree) : bool :=
  (Z.of_nat (length (tpath t)) <=? MAX_SHARED_PATH_BITS) &&
  match tval t with
  | Some v => negb (length v =? 0)%nat && (Z.of_nat (length v) <? 2 ^ 24)
              && ((length v <=? 32)%nat || bool_decide (ts_get store (keccak v) = Some v))
  | None => true
  end.

Definition childb (c : tree) : bool :=
  negb (is_empty_trie (mem c)) && (is_embeddable (mem c) || bool_decide (ts_get store (hash_of c) = Some (to_message (mem c)))).

(** [Stored], decided. *)
Fixpoint storedb (t : tree) : bool :=
  let ok (o : option tree) : bool := match o with Some c => childb c && storedb c | None => true end in
  node_boundsb t && ok (tleft t) && ok (tright t).

Lemma storedb_sound t : storedb t = true → Stored store t.
Proof.
  induction t as [p v l r IHl IHr] using tree_rect'. cbn [storedb tleft tright]. intros [[Hb Hl]%andb_true_iff Hr]%andb_true_iff.
  unfold node_boundsb in Hb. cbn [tpath tval] in Hb. apply andb_true_iff in Hb as [Hp%Z.leb_le Hv].
  assert (∀ b c, child (mkTree p v l r) b = Some c → childb c = true ∧ Stored store c) as Hch.
  { intros [] c; simpl; intros ->; [apply andb_true_iff in Hr as [? ?]|apply andb_true_iff in Hl as [? ?]]; auto. }
  constructor.
  - split; [done|]. intros w Hw. cbn [tval] in Hw. subst v. rewrite !andb_true_iff, negb_true_iff in Hv.
    destruct Hv as [[Hne%Nat.eqb_neq Hlt%Z.ltb_lt] _]. split; [by destruct w|]. unfold fits. lia.
  - intros w Hw Hlen. cbn [tval] in Hw. subst v. rewrite !andb_true_iff, orb_true_iff in Hv. destruct Hv as [_ [Hle%Nat.leb_le|Hg]]; [lia|].
    by apply bool_decide_eq_true in Hg.
  - intros b c Hc. by apply (Hch b c).
  - intros b c Hc. destruct (Hch b c Hc) as [[Hne%negb_true_iff Ho]%andb_true_iff _]. split; [done|]. intros He.
    rewrite He in Ho. cbn [orb] in Ho. by apply bool_decide_eq_true in Ho.
Qed.
End decide.

End chunks.

Section example.
#[local] Existing Instance poly_keccak.

Definition example_key (first : bytes) : list bool := Path.key_bits (first ++ replicate 15 5).

(** A trie of five nodes: three entries, and two embedded leaves with a long value each. *)
Definition example_trie : tree :=
  tput (tput (tput (leaf (example_key [0]) (replicate 32 1)) (example_key [0xc0]) (replicate 40 3))
    (example_key [0xc0] ++ [false]) (replicate 50 4)) (example_key [0xc0] ++ [true]) (replicate 60 5).

Fixpoint records (t : tree) : list (bytes * bytes) :=
  let below (o : option tree) := match o with Some c => (hash_of c, to_message (mem c)) :: records c | None => [] end in
  match tval t with Some v => [(keccak v, v)] | None => [] end ++ below (tleft t) ++ below (tright t).

Definition example_store : MemoryTrieStore :=
  mkMemory (list_to_map ((hash_of example_trie, to_message (mem example_trie)) :: records example_trie)).

Definition example_root : TrieNode := load example_store example_trie.

Lemma example_stored : Stored example_store example_trie.
Proof. apply storedb_sound. vm_compute. reflexivity. Qed.

Lemma example_readable : Readable example_store example_trie.
Proof.
  split; [exact example_stored|vm_compute; reflexivity| |].
  - apply weight_sized. vm_compute. reflexivity.
  - apply Nat.leb_le. vm_compute. reflexivity.
Qed.

Lemma chunk_until_exact_witness :
  (chunk_until 4 example_store example_root 60 120).1
  = Some (filter (λ e, 60 < offset e + span e ∧ offset e < 120) (stream example_trie)).
Proof.
  apply (chunk_until_exact example_store example_trie example_root 4 60 120).
  - exact example_readable.
  - exact (readable_root example_store example_trie example_readable).
  - vm_compute. lia.
  - lia.
Defined.

Lemma chunks_tile_witness :
  total_size example_root = spans (inorder example_trie) ∧
  ∃ k, (0 < k)%nat ∧ (1 + k ≤ length (inorder example_trie))%nat ∧
    (chunk_from 4 example_store example_root (spans (take 1 (inorder example_trie))) 150).1
    = Some (take k (drop 1 (stream example_trie))) ∧
    ∀ e, last (take k (drop 1 (stream example_trie))) = Some e → end_of e = spans (take (1 + k) (inorder example_trie)).
Proof.
  apply (chunks_tile example_store example_trie example_root 4 150 1).
  - exact example_readable.
  - exact (readable_root example_store example_trie example_readable).
  - vm_compute. lia.
  - vm_compute. lia.
Defined.

End example.

End SnapshotChunk.
