(* ===== verification/SnapshotComplete.v ===== *)
(** * The strict walk: [verify_complete] of crates/trie/src/snapshot.rs

    Over a store that holds some records of a trie, the walk succeeds exactly if the store
    holds all of them, whatever the number of workers, the order of the pieces and the schedule;
    it counts every node once, what it reports missing is missing, and it ends. *)
From S2P Require Import Prelude Path Varint Store Node Unitrie NodeCodec NodeRefine NodeSave Trie EpochMark Snapshot SnapshotView SnapshotRun SnapshotChunk.
From stdpp Require Import options.

Module SnapshotComplete.
Import Store Node Unitrie NodeCodec NodeRefine NodeSave Trie EpochMark Snapshot SnapshotView SnapshotRun SnapshotChunk.
Local Open Scope Z_scope.

Lemma u64_iff x y : u64 x = u64 y ↔ ∃ q, x = y + q * 2 ^ 64.
Proof.
  unfold u64, wrap. split.
  - intros Heq. exists (x / 2 ^ 64 - y / 2 ^ 64). pose proof (Z.div_mod x (2 ^ 64)). pose proof (Z.div_mod y (2 ^ 64)). lia.
  - intros [q ->]. by rewrite Z_mod_plus_full.
Qed.

Section trees.
Context `{Keccak}.

Fixpoint tsize (t : tree) : nat :=
  let size (o : option tree) : nat := match o with Some c => tsize c | None => 0%nat end in
  S (size (tleft t) + size (tright t)).

Definition tsizes (ts : list tree) : nat := sum_list_with tsize ts.

Definition children (t : tree) : list tree := option_list (tleft t) ++ option_list (tright t).

Lemma tsize_eq t : tsize t = S (tsizes (children t)).
Proof.
  destruct t as [p v [l|] [r|]]; unfold tsizes, children; simpl; lia.
Qed.

#[global] Arguments tsize : simpl never.

Lemma tsizes_app l k : tsizes (l ++ k) = (tsizes l + tsizes k)%nat.
Proof. apply sum_list_with_app. Qed.

Lemma tsizes_cons t l : tsizes (t :: l) = (tsize t + tsizes l)%nat.
Proof. done. Qed.

Lemma tsizes_perm l k : l ≡ₚ k → tsizes l = tsizes k.
Proof. unfold tsizes. induction 1; simpl; lia. Qed.

Lemma children_child t c : c ∈ children t ↔ ∃ b, child t b = Some c.
Proof.
  assert (∀ o : option tree, c ∈ option_list o ↔ o = Some c) as Ho.
  { intros [x|]; simpl; [rewrite list_elem_of_singleton; naive_solver|]. split; [by intros ?%elem_of_nil|done]. }
  unfold children. rewrite elem_of_app, !Ho. split.
  - intros [Hc|Hc]; [by exists false|by exists true].
  - intros [[] Hc]; [by right|by left].
Qed.
End trees.

Section complete.
Context `{Keccak} {St Pt : Type} `{TrieStore St} `{TrieStore Pt} (store : St) (part : Pt).
Context (Hcompat : compat part store).

(** [part] has every record below [t]. *)
Definition present (t : tree) : Prop := ∀ h, needs t h → is_Some (ts_get part h).

(** What is missing is needed and not there. *)
Definition absent (t : tree) (m : Missing) : Prop :=
  match m with
  | MissingNode h | MissingValue h => needs t h ∧ ts_get part h = None
  end.

(** ** The visit of a node *)

Lemma strict_child_load t b : Stored store t →
  match strict_child part (load_ref part (child t b)) with
  | Ok ns => ns = load part <$> option_list (child t b) ∧
      ∀ c, child t b = Some c → is_embeddable (mem c) = false → is_Some (ts_get part (hash_of c))
  | Err m => absent t m
  end.
Proof using Hcompat.
  intros Hst. destruct (child t b) as [c|] eqn:Hc; [|done].
  destruct (is_embeddable (mem c)) eqn:He.
  { cbn [load_ref]. rewrite He. simpl. split; [done|]. intros ? [= <-]. congruence. }
  destruct (resolve_load store part Hcompat t b c Hst Hc He) as [lg Hres].
  assert (resolve part (load_ref part (Some c)) = (resolve_logged part (load_ref part (Some c))).1) as Hfst.
  { destruct (load_ref part (Some c)) as [|h|n]; [done| |done]. simpl. unfold get_logged.
    by destruct (ts_get part h). }
  rewrite Hres in Hfst. cbn [load_ref] in *. rewrite He in *. cbn [strict_child]. rewrite Hfst.
  destruct (ts_get part (hash_of c)) as [m|] eqn:Hm; simpl.
  - split; [done|]. intros ? [= <-] _. by eexists.
  - split; [by eapply needs_child|done].
Qed.

Lemma strict_children t : Stored store t →
  match result_bind (λ l, result_bind (λ r, Ok (l ++ r)) (strict_child part (load_ref part (tright t))))
          (strict_child part (load_ref part (tleft t))) with
  | Ok ns => ns = load part <$> children t ∧
      ∀ b c, child t b = Some c → is_embeddable (mem c) = false → is_Some (ts_get part (hash_of c))
  | Err m => absent t m
  end.
Proof using Hcompat.
  intros Hst. pose proof (strict_child_load t false Hst) as Hl. pose proof (strict_child_load t true Hst) as Hr. cbn [child] in Hl, Hr.
  destruct (strict_child part (load_ref part (tleft t))) as [l|m]; [|exact Hl]. cbn [result_bind].
  destruct (strict_child part (load_ref part (tright t))) as [r|m]; [|exact Hr]. cbn [result_bind].
  destruct Hl as [-> Hl], Hr as [-> Hr]. unfold children. rewrite fmap_app. split; [done|]. intros [] c; auto.
Qed.

Lemma check_value_load t : Stored store t →
  match check_value part (load part t) with
  | None => ∀ v, tval t = Some v → (32 < length v)%nat → is_Some (ts_get part (keccak v))
  | Some m => absent t m
  end.
Proof using Hcompat.
  intros Hst. unfold check_value. rewrite (load_has_long store part Hcompat), (load_value_hash part) by done.
  destruct (tval t) as [v|] eqn:Hv; [|done]. rewrite (load_value part t v Hv).
  destruct (Nat.ltb_spec 32 (length v)) as [Hlen|Hlen]; cbn [andb fmap option_fmap option_map].
  - destruct (ts_get part (keccak v)) as [m|] eqn:Hm; cbn [is_none].
    + intros ? [= <-] _. rewrite Hm. by eexists.
    + split; [by eapply needs_value|done].
  - intros ? [= <-]. lia.
Qed.

Lemma visit_load t : Stored store t →
  match visit part (load part t) with
  | Ok ns => ns = load part <$> children t ∧
      (∀ v, tval t = Some v → (32 < length v)%nat → is_Some (ts_get part (keccak v))) ∧
      ∀ b c, child t b = Some c → is_embeddable (mem c) = false → is_Some (ts_get part (hash_of c))
  | Err m => absent t m
  end.
Proof using Hcompat.
  intros Hst. unfold visit. pose proof (check_value_load t Hst) as Hv. pose proof (strict_children t Hst) as Hc.
  rewrite (load_left store part Hcompat), (load_right store part Hcompat) by done.
  destruct (check_value part (load part t)) as [m|]; [done|]. destruct (result_bind _ _) as [ns|m]; [|done].
  destruct Hc as [-> Hc]. done.
Qed.

(** A node with a successful visit is whole if its children are. *)
Lemma present_visited t ns : Stored store t → visit part (load part t) = Ok ns →
  ns = load part <$> children t ∧ Forall (Stored store) (children t) ∧ (Forall present (children t) → present t).
Proof using Hcompat.
  intros Hst Hv. pose proof (visit_load t Hst) as Hok. rewrite Hv in Hok. destruct Hok as (-> & Hval & Hch).
  split; [done|]. split.
  - apply Forall_forall. intros c [b Hc]%children_child. by eapply stored_child.
  - intros Hall h Hn. inversion Hn; subst; [by eapply Hval|by eapply Hch|].
    rewrite Forall_forall in Hall. eapply Hall; [|done]. apply children_child. by eexists.
Qed.

Lemma absent_child t c m : c ∈ children t → absent c m → absent t m.
Proof using Type. intros [b Hc]%children_child. destruct m as [h|h]; intros [Hn Hm]; split; try done; by eapply needs_below. Qed.

(** ** What is left to walk *)

(** [k] nodes of [t] are visited, and the subtrees [ts] are left. *)
Record Left (t : tree) (k : nat) (ts : list tree) : Prop := {
  lf_stored : Forall (Stored store) ts;
  lf_count : tsize t = (k + tsizes ts)%nat;
  lf_present : Forall present ts → present t;
  lf_absent c m : c ∈ ts → absent c m → absent t m;
}.

Lemma left_init t : Stored store t → Left t 0 [t].
Proof using Type.
  intros Hst. split; [by constructor|unfold tsizes; simpl; lia|by intros [? _]%Forall_cons|].
  by intros c m ->%list_elem_of_singleton.
Qed.

Lemma left_perm t k ts ts' : ts ≡ₚ ts' → Left t k ts → Left t k ts'.
Proof using Type.
  intros Hp [H1' H2' H3' H4']. split.
  - by rewrite <- Hp.
  - by rewrite <- (tsizes_perm ts ts').
  - intros Hall. apply H3'. by rewrite Hp.
  - intros c m Hc. apply H4'. by rewrite Hp.
Qed.

Lemma left_visit t k c ts ns : Left t k (c :: ts) → visit part (load part c) = Ok ns →
  ns = load part <$> children c ∧ Left t (k + 1) (children c ++ ts).
Proof using Hcompat.
  intros [[Hc Hts]%Forall_cons Hn Hp Ha] Hv. destruct (present_visited c ns Hc Hv) as (-> & Hch & Hpc). split; [done|]. split.
  - by apply Forall_app.
  - rewrite tsizes_app. rewrite tsizes_cons, (tsize_eq c) in Hn. lia.
  - intros [Hpch Hpts]%Forall_app. apply Hp. constructor; auto.
  - intros x m [Hx|Hx]%elem_of_app Hm; [|apply (Ha x); [by right|done]].
    apply (Ha c); [by left|]. by eapply absent_child.
Qed.

Lemma left_missing t k c ts m : Left t k (c :: ts) → visit part (load part c) = Err m → absent t m.
Proof using Hcompat.
  intros [[Hc _]%Forall_cons _ _ Ha] Hv. apply (Ha c); [by left|]. pose proof (visit_load c Hc) as Hx. by rewrite Hv in Hx.
Qed.

Lemma left_done t k : Left t k [] → present t ∧ k = tsize t.
Proof using Type. intros [_ Hn Hp _]. split; [by apply Hp|]. unfold tsizes in Hn. simpl in Hn. lia. Qed.

(** ** Phase one *)

Definition frontier_of (pieces : list TrieNode) (heap : list (Z * nat)) : list TrieNode := omap (λ e, pieces !! e.2) heap.

Definition heap_ok (pieces : list TrieNode) (heap : list (Z * nat)) : Prop :=
  NoDup heap.*2 ∧ ∀ e, e ∈ heap → (e.2 < length pieces)%nat.

Lemma heap_peek_in heap top : heap_peek heap = Some top → top ∈ heap.
Proof using Type.
  destruct heap as [|a rest]; [done|]. intros [= <-]. revert a. induction rest as [|b rest IH]; intros a; simpl; [by left|].
  pose proof (IH (larger a b)) as [Heq|Hin]%elem_of_cons; [|by right; right].
  rewrite Heq. unfold larger. case_match; [by left|by right; left].
Qed.

Lemma heap_remove_perm heap top : NoDup heap.*2 → top ∈ heap → heap ≡ₚ top :: heap_remove heap top.
Proof using Type.
  induction heap as [|a heap IH]; intros Hnd Hin; [by apply elem_of_nil in Hin|].
  rewrite fmap_cons in Hnd. apply NoDup_cons in Hnd as [Ha Hnd]. unfold heap_remove in *.
  apply elem_of_cons in Hin as [->|Hin].
  - rewrite filter_cons_False by tauto. constructor.
    assert (filter (λ b, b.2 ≠ a.2) heap = heap) as ->; [|done]. clear -Ha.
    induction heap as [|b heap IH]; [done|]. rewrite fmap_cons in Ha. apply not_elem_of_cons in Ha as [Hne Ha].
    rewrite filter_cons_True by done. by rewrite IH.
  - rewrite filter_cons_True by (intros Heq; apply Ha; rewrite Heq; by apply list_elem_of_fmap_2).
    etransitivity; [by apply Permutation_skip, IH|]. constructor.
Qed.

Lemma heap_remove_ok pieces heap top : heap_ok pieces heap → heap_ok pieces (heap_remove heap top).
Proof using Type.
  intros [Hnd Hlt]. unfold heap_remove. split.
  - clear Hlt. induction heap as [|a heap IH]; [constructor|]. rewrite fmap_cons in Hnd. apply NoDup_cons in Hnd as [Ha Hnd].
    rewrite filter_cons. case_decide; [|by apply IH]. rewrite fmap_cons. constructor; [|by apply IH].
    intros Hin. apply Ha. apply list_elem_of_fmap in Hin as (b & -> & [_ Hb]%list_elem_of_filter). by apply list_elem_of_fmap_2.
  - intros e [_ He]%list_elem_of_filter. by apply Hlt.
Qed.

Lemma push_all ns : ∀ pieces heap, heap_ok pieces heap →
  ∃ pieces' heap', foldl (λ ph n, heap_push ph.1 ph.2 n) (pieces, heap) ns = (pieces', heap') ∧
    heap_ok pieces' heap' ∧ frontier_of pieces' heap' = frontier_of pieces heap ++ ns.
Proof using Type.
  induction ns as [|n ns IH]; intros pieces heap [Hnd Hlt].
  { exists pieces, heap. by rewrite app_nil_r. }
  destruct (IH (pieces ++ [n]) (heap ++ [(total_size n, length pieces)])) as (pieces' & heap' & Heq & Hok & Hfr).
  { split.
    - rewrite fmap_app. apply NoDup_app. split_and!; [done| |apply NoDup_singleton].
      intros i (e & -> & He)%list_elem_of_fmap Hi%list_elem_of_singleton. apply Hlt in He. simpl in Hi. lia.
    - intros e [He| ->%list_elem_of_singleton]%elem_of_app; rewrite length_app; simpl; [apply Hlt in He|]; lia. }
  exists pieces', heap'. split; [exact Heq|]. split; [done|]. rewrite Hfr. unfold frontier_of. rewrite omap_app.
  assert (omap (λ e, (pieces ++ [n]) !! e.2) heap = omap (λ e, pieces !! e.2) heap) as ->.
  { clear -Hlt. induction heap as [|e heap IH]; [done|]. cbn [omap list_omap].
    rewrite lookup_app_l by (apply Hlt; by left). rewrite IH; [done|]. intros x Hx. apply Hlt. by right. }
  rewrite <- app_assoc. f_equal. cbn [omap list_omap snd]. by rewrite lookup_app_r, Nat.sub_diag by lia.
Qed.

Lemma split_run fuel : ∀ t bound max_pieces pieces heap counted k ts, heap_ok pieces heap →
  frontier_of pieces heap ≡ₚ load part <$> ts → Left t k ts → counted = u64 (Z.of_nat k) → (tsizes ts < fuel)%nat →
  match split_pieces fuel part bound max_pieces pieces heap counted with
  | None => False
  | Some (Err m) => absent t m
  | Some (Ok (fr, cnt)) => ∃ k' ts', fr ≡ₚ load part <$> ts' ∧ Left t k' ts' ∧ cnt = u64 (Z.of_nat k')
  end.
Proof using Hcompat.
  induction fuel as [|fuel IH]; intros t bound max_pieces pieces heap counted k ts Hok Hfr Hleft Hcnt Hfuel; [lia|].
  cbn [split_pieces]. fold (frontier_of pieces heap).
  destruct (heap_peek heap) as [top|] eqn:Htop; [|by exists k, ts].
  destruct (_ || _); [by exists k, ts|]. apply heap_peek_in in Htop as Hin.
  destruct (pieces !! top.2) as [node|] eqn:Hnode; [|by exists k, ts].
  assert (frontier_of pieces heap ≡ₚ node :: frontier_of pieces (heap_remove heap top)) as Hperm.
  { unfold frontier_of. rewrite (omap_Permutation _ _ _ (heap_remove_perm heap top (proj1 Hok) Hin)). simpl. by rewrite Hnode. }
  rewrite Hperm in Hfr. apply Permutation_map_inv in Hfr as (ts1 & Hts1 & Hpts). destruct ts1 as [|c ts1]; [done|].
  injection Hts1 as Hn Hrest. subst node. apply (left_perm _ _ _ _ Hpts) in Hleft.
  destruct (visit part (load part c)) as [ns|m] eqn:Hv; [|by eapply left_missing].
  destruct (left_visit _ _ _ _ _ Hleft Hv) as [-> Hleft'].
  destruct (push_all (load part <$> children c) pieces (heap_remove heap top) (heap_remove_ok _ _ _ Hok)) as (pieces' & heap' & -> & Hok' & Hfr').
  apply (IH t bound max_pieces pieces' heap' _ (k + 1)%nat (children c ++ ts1)); [done| |done| |].
  - rewrite Hfr', Hrest, fmap_app. apply Permutation_app_comm.
  - rewrite Hcnt. unfold u64, wrap. rewrite Zplus_mod_idemp_l. f_equal. lia.
  - rewrite (tsizes_perm _ _ Hpts), tsizes_cons, tsize_eq in Hfuel. rewrite tsizes_app. lia.
Qed.

Lemma phase_one_run fuel t workers : Stored store t → (tsize t < fuel)%nat →
  match phase_one fuel part (load part t) workers with
  | None => False
  | Some (Err m) => absent t m
  | Some (Ok (fr, cnt)) => ∃ k ts, fr ≡ₚ load part <$> ts ∧ Left t k ts ∧ cnt = u64 (Z.of_nat k)
  end.
Proof using Hcompat.
  intros Hst Hfuel. unfold phase_one. apply (split_run fuel t _ _ _ _ 0 0%nat [t]); [|done|by apply left_init|done|].
  - split; [apply NoDup_singleton|]. intros e ->%list_elem_of_singleton. simpl. lia.
  - rewrite tsizes_cons. unfold tsizes. simpl. lia.
Qed.

(** ** Phase two *)

Section crew.
Context (t : tree) (fs : list tree).
Context (Hfs : Forall (Stored store) fs).

(** A worker, the subtrees on its stack and the nodes it has yet to report. *)
Inductive wrep : Worker → list tree → Z → Prop :=
  | wr_looking : wrep Looking [] 0
  | wr_taking : wrep Taking [] 0
  | wr_walking ts local : Forall (Stored store) ts → wrep (Walking (load part <$> ts) local) ts local
  | wr_gone : wrep Gone [] 0.

Definition worker_weight (w : Worker) (ts : list tree) : nat :=
  match w with Gone => 0 | Taking => 1 | Looking => 2 | Walking _ _ => 3 + tsizes ts end.

Definition frontier_weight (next : nat) : nat := sum_list_with (λ c, 3 + tsize c)%nat (drop next fs).

Lemma frontier_weight_le next : (frontier_weight (next + 1) ≤ frontier_weight next)%nat.
Proof using Type.
  unfold frontier_weight. destruct (fs !! next) as [c|] eqn:Hc.
  - rewrite (drop_S fs c next Hc), Nat.add_1_r. simpl. lia.
  - apply lookup_ge_None_1 in Hc. rewrite !drop_ge by lia. done.
Qed.

(** What a step of one worker does, [others] being what the other workers hold. *)
Lemma worker_run sh w sh' w' ts l others k :
  wrep w ts l → (failure sh = None → Left t k (ts ++ others ++ drop (next_subtree sh) fs)) →
  worker_step part (load part <$> fs) sh w = Some (sh', w') →
  ∃ ts' l', wrep w' ts' l' ∧ (next_subtree sh ≤ next_subtree sh')%nat ∧
    (worker_weight w' ts' + frontier_weight (next_subtree sh') < worker_weight w ts + frontier_weight (next_subtree sh))%nat ∧
    match failure sh' with
    | Some m => failure sh = Some m ∨ (failure sh = None ∧ absent t m)
    | None => failure sh = None ∧ (w' = Gone → (length fs ≤ next_subtree sh')%nat) ∧
        ∃ k', Left t k' (ts' ++ others ++ drop (next_subtree sh') fs) ∧
          u64 (nodes sh' + l' + Z.of_nat k) = u64 (nodes sh + l + Z.of_nat k')
    end.
Proof using Hcompat Hfs.
  intros Hw Hleft Hstep. destruct Hw as [| |ts local Hts|]; cbn [worker_step] in Hstep; [..|done].
  - injection Hstep as <- <-. destruct (failure sh) as [m|] eqn:Hf.
    + exists [], 0. split; [constructor|]. split; [done|]. split; [simpl; lia|]. by left.
    + exists [], 0. split; [constructor|]. split; [done|]. split; [simpl; lia|]. split; [done|]. split; [done|]. exists k. auto.
  - injection Hstep as <- <-. rewrite list_lookup_fmap. cbn [next_subtree failure nodes].
    destruct (fs !! next_subtree sh) as [c|] eqn:Hc; cbn [fmap option_fmap option_map].
    + exists [c], 0. assert (drop (next_subtree sh) fs = c :: drop (next_subtree sh + 1) fs) as Hd by (rewrite Nat.add_1_r; by apply drop_S).
      split; [apply (wr_walking [c]); constructor; [by eapply Forall_lookup_1|constructor]|]. split; [lia|]. split.
      { unfold frontier_weight. rewrite Hd. unfold tsizes. simpl. lia. }
      destruct (failure sh) as [m|]; [by left|]. split; [done|]. split; [done|]. exists k. split; [|done].
      rewrite Hd in Hleft. eapply left_perm; [|by apply Hleft]. simpl. by rewrite <- Permutation_middle.
    + pose proof (lookup_ge_None_1 _ _ Hc). pose proof (frontier_weight_le (next_subtree sh)).
      exists [], 0. split; [constructor|]. split; [lia|]. split; [simpl; lia|].
      destruct (failure sh) as [m|]; [by left|]. split; [done|]. split; [intros _; lia|]. exists k. split; [|done].
      rewrite (drop_ge fs (next_subtree sh + 1)) by lia. rewrite (drop_ge fs (next_subtree sh)) in Hleft by lia. by apply Hleft.
  - destruct ts as [|c ts]; cbn [fmap list_fmap] in Hstep.
    { injection Hstep as <- <-. exists [], 0. split; [constructor|]. split; [done|]. split; [simpl; lia|]. cbn [add_nodes failure nodes next_subtree].
      destruct (failure sh) as [m|]; [by left|]. split; [done|]. split; [done|]. exists k. split; [by apply Hleft|].
      unfold u64, wrap. rewrite Z.add_0_r, Zplus_mod_idemp_l. done. }
    apply Forall_cons_1 in Hts as [Hc Hts]. destruct (visit part (load part c)) as [ns|m] eqn:Hv.
    + destruct (present_visited c ns Hc Hv) as (-> & Hch & _).
      assert (reverse (load part <$> children c) ++ (load part <$> ts) = load part <$> (reverse (children c) ++ ts)) as Hst'
        by by rewrite fmap_app, fmap_reverse.
      assert (Forall (Stored store) (reverse (children c) ++ ts)) as Hall by (apply Forall_app; by rewrite reverse_Permutation).
      assert (failure sh = None → Left t (k + 1) ((reverse (children c) ++ ts) ++ others ++ drop (next_subtree sh) fs)) as Hl'.
      { intros Hf. specialize (Hleft Hf). destruct (left_visit _ _ _ _ _ Hleft Hv) as [_ Hl]. rewrite <- app_assoc.
        eapply left_perm; [|exact Hl]. apply Permutation_app_tail. by rewrite reverse_Permutation. }
      assert (tsizes (reverse (children c) ++ ts) < tsizes (c :: ts))%nat as Hlt.
      { rewrite tsizes_app, tsizes_cons, tsize_eq, (tsizes_perm (reverse (children c)) (children c)) by by rewrite reverse_Permutation. lia. }
      rewrite Hst' in Hstep.
      destruct (REPORT_NODES <=? local + 1); injection Hstep as <- <-;
        [exists (reverse (children c) ++ ts), 0|exists (reverse (children c) ++ ts), (local + 1)];
        (split; [by constructor|]); (split; [done|]); (split; [cbn [worker_weight add_nodes next_subtree]; lia|]);
        cbn [add_nodes failure nodes next_subtree];
        (destruct (failure sh) as [m|]; [by left|]); (split; [done|]); (split; [done|]); exists (k + 1)%nat; (split; [by apply Hl'|]);
        unfold u64, wrap; rewrite ?Z.add_0_r, ?Zplus_mod_idemp_l; f_equal; lia.
    + injection Hstep as <- <-. exists [], 0. split; [constructor|]. split; [done|]. split; [simpl; lia|].
      cbn [report failure]. destruct (failure sh) as [m'|]; [by left|]. right. split; [done|].
      eapply (left_missing t k c); [|exact Hv]. by apply Hleft.
Qed.
Lemma crew_step_split frontier i (c c' : Crew) : crew_step part frontier i c = Some c' →
  ∃ a w b w', c.2 = a ++ w :: b ∧ c'.2 = a ++ w' :: b ∧ worker_step part frontier c.1 w = Some (c'.1, w').
Proof using Type.
  unfold crew_step. destruct c as [sh ws]. cbn [fst snd]. destruct (ws !! i) as [w|] eqn:Hw; [|done].
  destruct (worker_step part frontier sh w) as [[sh' w']|] eqn:Hstep; [|done]. intros [= <-].
  exists (take i ws), w, (drop (S i) ws), w'. cbn [fst snd]. split; [by rewrite take_drop_middle|].
  split; [|done]. apply insert_take_drop. by eapply lookup_lt_Some.
Qed.

Definition works : Type := list (list tree * Z).
Definition pending_trees (work : works) : list tree := concat work.*1.
Definition unreported (work : works) : Z := foldr (λ x a, x.2 + a) 0 work.

(** The workers hold [work]; unless a failure is reported, [k] nodes are visited. *)
Definition crew_inv (c : Crew) (work : works) : Prop :=
  fits 64 (nodes c.1) ∧ Forall2 (λ w x, wrep w x.1 x.2) c.2 work ∧
  match failure c.1 with
  | Some m => absent t m
  | None => (Gone ∈ c.2 → (length fs ≤ next_subtree c.1)%nat) ∧
      ∃ k, Left t k (pending_trees work ++ drop (next_subtree c.1) fs) ∧
        u64 (nodes c.1 + unreported work) = u64 (Z.of_nat k)
  end.

Definition crew_weight (c : Crew) (work : works) : nat :=
  (sum_list_with (λ wx, worker_weight wx.1 wx.2.1) (zip c.2 work) + frontier_weight (next_subtree c.1))%nat.

Lemma worker_step_fits frontier sh w sh' w' : fits 64 (nodes sh) → worker_step part frontier sh w = Some (sh', w') → fits 64 (nodes sh').
Proof using Type.
  intros Hn. destruct w as [| |[|n stack] local|]; simpl; [..|done].
  - by intros [= <- <-].
  - by intros [= <- <-].
  - intros [= <- <-]. simpl. by apply wrap_fits.
  - destruct (visit part n); [|by intros [= <- <-]]. destruct (_ <=? _); intros [= <- <-]; simpl; [by apply wrap_fits|done].
Qed.

Lemma pending_trees_middle wa x wb : pending_trees (wa ++ x :: wb) ≡ₚ x.1 ++ pending_trees (wa ++ wb).
Proof using Type.
  unfold pending_trees. rewrite !fmap_app, fmap_cons, !concat_app. simpl.
  rewrite !app_assoc. apply Permutation_app_tail, Permutation_app_comm.
Qed.

Lemma unreported_middle wa x wb : unreported (wa ++ x :: wb) = x.2 + unreported (wa ++ wb).
Proof using Type. unfold unreported. induction wa as [|y wa IH]; simpl; [done|]. rewrite IH. lia. Qed.

Lemma crew_step_inv i c c' work : crew_inv c work → crew_step part (load part <$> fs) i c = Some c' →
  ∃ work', crew_inv c' work' ∧ (crew_weight c' work' < crew_weight c work)%nat.
Proof using Hcompat Hfs.
  intros (Hfit & Hrep & Hinv) (a & w & b & w' & Hws & Hws' & Hstep)%crew_step_split.
  destruct c as [sh ws], c' as [sh' ws']. cbn [fst snd] in *. subst ws ws'.
  pose proof (worker_step_fits _ _ _ _ _ Hfit Hstep) as Hfit'.
  apply Forall2_app_inv_l in Hrep as (wa & wb' & Ha & Hb & ->). apply Forall2_cons_inv_l in Hb as (x & wb & Hx & Hb & ->).
  destruct (failure sh) as [m|] eqn:Hf.
  - destruct (worker_run sh w sh' w' x.1 x.2 [] 0 Hx) as (ts' & l' & Hw' & Hnext & Hlt & Hfail); [congruence|done|].
    exists (wa ++ (ts', l') :: wb). split.
    + split; [done|]. split; [by apply Forall2_app; [|constructor]|]. cbn [fst snd]. rewrite Hf in Hfail.
      destruct (failure sh') as [m'|]; [|by destruct Hfail]. destruct Hfail as [[= <-]|[? _]]; [done|done].
    + unfold crew_weight. cbn [fst snd]. rewrite !zip_with_app by by eapply Forall2_length. rewrite !sum_list_with_app. simpl. lia.
  - destruct Hinv as (Hgone & k' & Hleft & Hcnt).
    destruct (worker_run sh w sh' w' x.1 x.2 (pending_trees (wa ++ wb)) k' Hx) as (ts' & l' & Hw' & Hnext & Hlt & Hfail); [|done|].
    { intros _. eapply left_perm; [|exact Hleft]. rewrite app_assoc. apply Permutation_app_tail, pending_trees_middle. }
    exists (wa ++ (ts', l') :: wb). split.
    + split; [done|]. split; [by apply Forall2_app; [|constructor]|]. cbn [fst snd]. rewrite Hf in Hfail.
      destruct (failure sh') as [m'|]; [by destruct Hfail as [?|[_ ?]]|]. destruct Hfail as (_ & Hg & k'' & Hleft' & Hcnt'). split.
      * intros [Hin|[Heq|Hin]%elem_of_cons]%elem_of_app; [|by apply Hg|];
          (etransitivity; [apply Hgone|exact Hnext]); apply elem_of_app; [by left|by right; right].
      * exists k''. split; [eapply left_perm; [|exact Hleft']; rewrite app_assoc; apply Permutation_app_tail; by rewrite pending_trees_middle|].
        rewrite unreported_middle in *. cbn [snd] in *. apply u64_iff in Hcnt as [q ?], Hcnt' as [q' ?].
        apply u64_iff. exists (q + q'). lia.
    + unfold crew_weight. cbn [fst snd]. rewrite !zip_with_app by by eapply Forall2_length. rewrite !sum_list_with_app. simpl. lia.
Qed.

Lemma crew_init_inv workers k : (0 < workers)%nat → Left t k fs →
  crew_inv (crew_init workers (u64 (Z.of_nat k))) (replicate workers ([], 0)).
Proof using Type.
  intros Hw Hl. assert (pending_trees (replicate workers ([], 0)) = [] ∧ unreported (replicate workers ([], 0)) = 0) as [Hp Hu].
  { clear. unfold pending_trees, unreported. by induction workers as [|n [IH1 IH2]]; simpl in *. }
  split_and!; cbn [crew_init fst snd failure next_subtree nodes].
  - by apply wrap_fits.
  - clear. induction workers; constructor; [constructor|done].
  - split; [by intros [? _]%elem_of_replicate|]. exists k. rewrite Hp, Hu, Z.add_0_r. split; [done|]. apply wrap_wrap.
Qed.

(** A crew that has not returned takes a step. *)
Lemma crew_progress (c : Crew) frontier : all_gone c.2 ∨ ∃ c', crew_next part frontier c c'.
Proof using Type.
  destruct c as [sh ws]. cbn [snd]. assert (all_gone ws ∨ ∃ i w, ws !! i = Some w ∧ w ≠ Gone) as [Hg|(i & w & Hi & Hw)].
  { induction ws as [|w ws [IH|(i & x & Hi & Hx)]]; [by left; constructor|..].
    - destruct w; [right; by exists 0%nat, Looking|right; by exists 0%nat, Taking|right; by eexists 0%nat, _|left; by constructor].
    - right. by exists (S i), x. }
  { by left. }
  right. assert (is_Some (worker_step part frontier sh w)) as [[sh' w'] Hs].
  { destruct w as [| |[|n stack] local|]; simpl; [by eexists..| |done].
    destruct (visit part n); [destruct (_ <=? _)|]; by eexists. }
  exists (sh', <[i := w']> ws), i. unfold crew_step. cbn [fst snd]. by rewrite Hi, Hs.
Qed.

(** Every run of the crew is at most [crew_weight] steps long, and can be brought to its end. *)
Lemma crew_bounded n : ∀ c c' work, crew_inv c work → nsteps (crew_next part (load part <$> fs)) n c c' →
  (n ≤ crew_weight c work)%nat ∧ length c'.2 = length c.2 ∧ ∃ work', crew_inv c' work'.
Proof using Hcompat Hfs.
  induction n as [|n IH]; intros c c' work Hinv Hsteps; inversion Hsteps as [|? ? y ? [i Hi] Hrest]; subst.
  { split; [lia|]. split; [done|by exists work]. }
  destruct (crew_step_inv i c y work Hinv Hi) as (work' & Hinv' & Hlt). destruct (IH y c' work' Hinv' Hrest) as (Hn & Hl & Hw).
  split; [lia|]. split; [|done]. rewrite Hl. apply crew_step_split in Hi as (a & x & b & x' & -> & -> & _). by rewrite !length_app.
Qed.

Lemma crew_ends w : ∀ c work, crew_inv c work → (crew_weight c work ≤ w)%nat →
  ∃ c', rtc (crew_next part (load part <$> fs)) c c' ∧ all_gone c'.2.
Proof using Hcompat Hfs.
  induction w as [|w IH]; intros c work Hinv Hle; (destruct (crew_progress c (load part <$> fs)) as [Hg|[y [i Hi]]]; [by exists c|]);
    destruct (crew_step_inv i c y work Hinv Hi) as (work' & Hinv' & Hlt); [lia|].
  destruct (IH y work' Hinv') as (c' & Hc' & Hg); [lia|]. exists c'. split; [|done]. eapply rtc_l; [by exists i|done].
Qed.

(** The outcome of a crew that has returned. *)
Lemma crew_outcome c work : crew_inv c work → c.2 ≠ [] → all_gone c.2 →
  match outcome c.1 with
  | Ok n => present t ∧ n = u64 (Z.of_nat (tsize t))
  | Err m => absent t m
  end.
Proof using Type.
  intros (Hfit & Hrep & Hinv) Hne Hg. unfold outcome. destruct (failure c.1) as [m|]; [done|].
  destruct Hinv as (Hgone & k & Hleft & Hcnt). assert (pending_trees work = [] ∧ unreported work = 0) as [Hp Hu].
  { clear -Hrep Hg. revert work Hrep. induction Hg as [|w ws -> _ IH]; intros work Hrep; inversion Hrep as [|? x ? work' Hx Hrep']; subst; [done|].
    destruct (IH _ Hrep') as [IH1 IH2]. destruct x as [xt xl]. cbn [fst snd] in Hx. inversion Hx; subst.
    split; [exact IH1|]. change (0 + unreported work' = 0). lia. }
  assert (Gone ∈ c.2) as Hin. { destruct Hg as [|w ws -> _]; [done|by left]. }
  rewrite Hp, (drop_ge fs) in Hleft by by apply Hgone. apply left_done in Hleft as [Hpres ->]. split; [done|].
  rewrite Hu, Z.add_0_r in Hcnt. rewrite <- Hcnt. symmetry. by apply wrap_small.
Qed.
End crew.

(** ** The result *)

(** A store with all the records of a trie holds it. *)
Lemma present_stored t : Stored store t → present t → Stored part t.
Proof using Hcompat.
  induction t as [p v l r IHl IHr] using tree_rect'. intros Hst Hp.
  assert (∀ b c, child (mkTree p v l r) b = Some c → Stored part c) as Hch.
  { intros b c Hc. assert (Stored store c) as Hsc by by eapply stored_child.
    assert (present c) as Hpc by (intros h Hh; apply Hp; by eapply needs_below).
    destruct b; simpl in Hc; [by apply IHr|by apply IHl]. }
  destruct Hst as [t' Hb Hv _ Hown]. constructor; [done| |done|].
  - intros w Hw Hlen. destruct (Hp (keccak w)) as [m Hm]; [by eapply needs_value|].
    rewrite Hm. f_equal. eapply Hcompat; [exact Hm|by apply Hv].
  - intros b c Hc. destruct (Hown b c Hc) as [Hne Ho]. split; [done|]. intros He.
    destruct (Hp (hash_of c)) as [m Hm]; [by eapply needs_child|]. unfold Own, hash_of in *. rewrite Hm. f_equal.
    eapply Hcompat; [exact Hm|by apply Ho].
Qed.

(** What any result of the walk says. *)
Lemma verify_complete_result fuel t threads r : Stored store t → (tsize t < fuel)%nat →
  verify_complete fuel part (load part t) threads r →
  match r with Ok n => present t ∧ n = u64 (Z.of_nat (tsize t)) | Err m => absent t m end.
Proof using Hcompat.
  intros Hst Hfuel Hvc. pose proof (phase_one_run fuel t (Z.of_nat (Nat.max 1 threads)) Hst Hfuel) as Hph.
  destruct Hvc as [m Heq|counted Heq|pieces counted frontier sh ws Heq Hperm Hne Hsteps Hgone]; rewrite Heq in Hph; [done|..].
  - destruct Hph as (k & ts & Hnil & Hleft & ->). symmetry in Hnil. apply Permutation_nil_r, fmap_nil_inv in Hnil. subst ts.
    by apply left_done in Hleft as [? ->].
  - destruct Hph as (k & ts & Hfr & Hleft & ->). rewrite <- Hperm in Hfr. apply Permutation_map_inv in Hfr as (fs & -> & Hts).
    apply (left_perm _ _ _ _ Hts) in Hleft. apply rtc_nsteps_1 in Hsteps as [n Hsteps].
    assert (0 < (Nat.max 1 threads))%nat as Hpos by lia.
    destruct (crew_bounded t fs (lf_stored _ _ _ Hleft) n _ _ _ (crew_init_inv t fs (Nat.max 1 threads) k Hpos Hleft) Hsteps) as (_ & Hlen & work' & Hinv).
    eapply (crew_outcome t fs (sh, ws)); [exact Hinv| |done]. cbn [snd].
    intros ->. cbn [snd crew_init length] in Hlen. rewrite length_replicate in Hlen. lia.
Qed.

(** There is a result, and a crew never runs for ever. *)
Lemma verify_complete_ends fuel t threads : Stored store t → (tsize t < fuel)%nat →
  ∃ r, verify_complete fuel part (load part t) threads r.
Proof using Hcompat.
  intros Hst Hfuel. pose proof (phase_one_run fuel t (Z.of_nat (Nat.max 1 threads)) Hst Hfuel) as Hph.
  destruct (phase_one fuel part (load part t) (Z.of_nat (Nat.max 1 threads))) as [[[fr cnt]|m]|] eqn:Heq; [|by eexists; eapply vc_split_missing|done].
  destruct Hph as (k & ts & Hfr & Hleft & ->). destruct fr as [|n fr]; [by eexists; eapply vc_no_pieces|].
  assert (0 < (Nat.max 1 threads))%nat as Hpos by lia.
  destruct (crew_ends t ts (lf_stored _ _ _ Hleft) _ _ _ (crew_init_inv t ts (Nat.max 1 threads) k Hpos Hleft) (le_n _)) as ([sh ws] & Hsteps & Hg).
  exists (outcome sh). eapply vc_walked; [exact Heq|by symmetry| |exact Hsteps|exact Hg].
  intros Hnil. rewrite Hnil in Hfr. by apply Permutation_nil_r in Hfr.
Qed.

End complete.


Section example.
#[local] Existing Instance poly_keccak.

(** The example without one of its long values. *)
Definition torn_store : MemoryTrieStore := (memory_remove example_store (keccak (replicate 50 4))).2.

Lemma torn_compat : compat torn_store example_store.
Proof.
  intros m m' Hm Hm'. cbn in Hm, Hm'. unfold memory_get, torn_store, memory_remove in Hm. cbn [snd mem_data] in Hm.
  apply lookup_delete_Some in Hm as [_ Hm]. unfold memory_get in Hm'. congruence.
Qed.

End example.

End SnapshotComplete.
