(* ===== verification/SnapshotProof.v ===== *)
(** * crates/trie/src/snapshot_proof.rs: chunks that prove themselves

    A server sends a run of the traversal with a witness: the messages of the other nodes its
    own traversal read.  The client replays the traversal over nothing but what it was sent and
    compares.

    - [prove_with] keeps the records its traversal was served ([Recorder]), as a map; the order
      of the maps and sets of the code does not matter but for the witness, which is sorted.
    - [None] is "out of fuel", for the traversal; the loop that gathers the witness visits each
      known record once, so it has a fuel of its own that is enough. *)
From S2P Require Import Prelude Path Varint Store Node Snapshot.
From stdpp Require Import gmap sorting.
From stdpp Require Import options.

Module SnapshotProof.
Import Store Node Snapshot.
Local Open Scope Z_scope.

(** ** Data *)

Record Entry := mkEntry { entry_message : bytes; entry_long_values : list bytes }.

Record ChunkProof := mkChunkProof { entries : list Entry; witness : list bytes }.

Definition proof_wire_len (p : ChunkProof) : Z :=
  u64 (u64 (foldr (λ e a, Z.of_nat (length (entry_message e)) + sum_lengths (entry_long_values e) + a) 0 (entries p))
       + sum_lengths (witness p)).

Inductive VerifyError :=
  | Empty
  | RootMissing (h : bytes)
  | Malformed (index : nat)
  | BadLongValue (index : nat)
  | LengthMismatch (from : Z) (replayed received : nat)
  | NodeMismatch (index : nat).

Record Verified := mkVerified { verified_nodes : list StreamNode; verified_total : Z }.

(** The panic of [from_message] on a root that does not parse. *)
Inductive Panic := MalformedRoot.

(** ** Stores *)

Record ProofStore := mkProofStore { proof_map : gmap bytes bytes }.

Definition proof_get (s : ProofStore) (k : bytes) : option bytes :=
  if (length k =? 32)%nat then proof_map s !! k else None.

#[global] Instance proof_store : TrieStore ProofStore := {
  ts_get := proof_get;
  ts_put s _ _ := s;
  ts_put_many s _ := s;
  ts_flush s := s;
  ts_collected_below _ := None;
}.

Inductive EmptyStore := mkEmptyStore.

#[global] Instance empty_store : TrieStore EmptyStore := {
  ts_get _ _ := None;
  ts_put s _ _ := s;
  ts_put_many s _ := s;
  ts_flush s := s;
  ts_collected_below _ := None;
}.

Section proof.
Context `{Keccak}.

Definition ref_hashes (r : NodeRef TrieNode) : list bytes :=
  match r with RefHash h => [h] | _ => [] end.

Definition child_hashes (message : bytes) : list bytes :=
  match try_from_message mkEmptyStore message with
  | None => []
  | Some node =>
      let of_child (r : NodeRef TrieNode) : list bytes :=
        match r with
        | RefHash h => [h]
        | RefNode n => ref_hashes (left_ref n) ++ ref_hashes (right_ref n)
        | RefEmpty => []
        end in
      of_child (left_ref node) ++ of_child (right_ref node)
  end.

(** ** Proving *)

(** [Recorder::seen]: the records served under 32-byte keys. *)
Definition seen (lg : Log) : gmap bytes bytes :=
  foldl (λ m e, if (length e.2.1 =? 32)%nat then <[e.2.1 := e.2.2]> m else m) ∅ lg.

Definition insert_message (m : gmap bytes bytes) (message : bytes) : gmap bytes bytes :=
  <[keccak message := message]> m.

(** The witness loop; the head of [queue] is the end of the code's vector. *)
Fixpoint gather (fuel : nat) (known : gmap bytes bytes) (carried : gset bytes) (queue : list bytes)
    (walked : gset bytes) (witness : list bytes) : option (list bytes) :=
  match fuel with
  | O => None
  | S fuel' =>
      match queue with
      | [] => Some witness
      | hash :: queue =>
          if decide (hash ∈ walked) then gather fuel' known carried queue walked witness
          else
            let walked := {[hash]} ∪ walked in
            match known !! hash with
            | None => gather fuel' known carried queue walked witness
            | Some message =>
                gather fuel' known carried (reverse (child_hashes message) ++ queue) walked
                  (if decide (hash ∈ carried) then witness else witness ++ [message])
            end
      end
  end.

(** A message has at most four child hashes, and is expanded at most once. *)
Definition gather_fuel (known : gmap bytes bytes) : nat := 4 * size known + 2.

Definition bytes_le (a b : bytes) : Prop := bytes_cmp a b ≠ Gt.
#[global] Instance bytes_le_dec : RelDecision bytes_le.
Proof. intros a b. unfold bytes_le. apply _. Defined.

Definition sort_unstable : list bytes → list bytes := merge_sort bytes_le.

Section prove.
Context {St : Type} `{TrieStore St}.
Implicit Types store : St.

Definition prove_with (take : TrieNode → Logged (option (list StreamNode))) store (root : TrieNode)
    : option (result ChunkProof Panic) :=
  let root_message := to_message root in
  let '(parsed, lg) := try_from_message_logged store root_message in
  match parsed with
  | None => Some (Err MalformedRoot)
  | Some root =>
      let '(nodes, lg') := take root in
      match nodes with
      | None => None
      | Some nodes =>
          let entries := (λ n, mkEntry (message n) (long_values n)) <$> nodes in
          let carried : gset bytes := list_to_set ((λ e, keccak (entry_message e)) <$> entries) in
          let known := foldl insert_message (seen (lg ++ lg')) (entry_message <$> entries) in
          let known := insert_message known root_message in
          match gather (gather_fuel known) known carried [keccak root_message] ∅ [] with
          | None => None
          | Some witness => Some (Ok (mkChunkProof entries (sort_unstable witness)))
          end
      end
  end.

Definition prove_cell (fuel : nat) store (root : TrieNode) (from to : Z) : option (result ChunkProof Panic) :=
  prove_with (λ r, chunk_until fuel store r from to) store root.

Definition prove_chunk (fuel : nat) store (root : TrieNode) (from budget : Z) : option (result ChunkProof Panic) :=
  prove_with (λ r, chunk_from_limited fuel store r from budget U64_MAX) store root.

End prove.

(** ** Verifying *)

Fixpoint collect_value_hashes (n : TrieNode) : list bytes :=
  let below (r : NodeRef TrieNode) : list bytes :=
    match r with RefNode c => collect_value_hashes c | _ => [] end in
  (match value n, value_hash n with None, Some h => [h] | _, _ => [] end)
  ++ below (left_ref n) ++ below (right_ref n).

(** [Vec::swap_remove]. *)
Definition swap_remove (l : list bytes) (i : nat) : list bytes :=
  match last l with
  | None => l
  | Some x => take (length l - 1) (<[i := x]> l)
  end.

Fixpoint position (h : bytes) (l : list bytes) : option nat :=
  match l with
  | [] => None
  | x :: l => if decide (x = h) then Some 0%nat else S <$> position h l
  end.

Fixpoint match_values (values wanted : list bytes) : bool :=
  match values with
  | [] => true
  | v :: values =>
      match position (keccak v) wanted with
      | Some i => match_values values (swap_remove wanted i)
      | None => false
      end
  end.

Definition check_long_values (e : Entry) : bool :=
  match try_from_message mkEmptyStore (entry_message e) with
  | None => false
  | Some node =>
      let wanted := collect_value_hashes node in
      (length wanted =? length (entry_long_values e))%nat && match_values (entry_long_values e) wanted
  end.

Fixpoint check_entries (index : nat) (l : list Entry) : result unit VerifyError :=
  match l with
  | [] => Ok tt
  | e :: l =>
      match try_from_message mkEmptyStore (entry_message e) with
      | None => Err (Malformed index)
      | Some _ => if check_long_values e then check_entries (S index) l else Err (BadLongValue index)
      end
  end.

Fixpoint compare_nodes (index : nat) (replay : list StreamNode) (l : list Entry) : result unit VerifyError :=
  match replay, l with
  | expected :: replay, got :: l =>
      if decide (message expected = entry_message got) then compare_nodes (S index) replay l
      else Err (NodeMismatch index)
  | _, _ => Ok tt
  end.

(** Everything the peer sent, by its hash. *)
Definition proof_records (p : ChunkProof) : list bytes :=
  witness p ++ (entry_message <$> entries p) ++ concat (entry_long_values <$> entries p).

Definition store_of (p : ChunkProof) : ProofStore :=
  mkProofStore (foldl insert_message ∅ (proof_records p)).

Definition verify_chunk (fuel : nat) (root_hash : bytes) (from : Z) (proof : ChunkProof)
    : option (result Verified VerifyError) :=
  match entries proof with
  | [] => Some (Err Empty)
  | _ =>
      match check_entries 0 (entries proof) with
      | Err e => Some (Err e)
      | Ok _ =>
          let store := store_of proof in
          match ts_get store root_hash with
          | None => Some (Err (RootMissing root_hash))
          | Some root_message =>
              match try_from_message store root_message with
              | None => Some (Err (RootMissing root_hash))
              | Some root =>
                  let received := length (entries proof) in
                  match (chunk_from_limited fuel store root from U64_MAX (Z.of_nat received)).1 with
                  | None => None
                  | Some replay =>
                      if decide (length replay = received) then
                        match compare_nodes 0 replay (entries proof) with
                        | Err e => Some (Err e)
                        | Ok _ => Some (Ok (mkVerified replay (total_size root)))
                        end
                      else Some (Err (LengthMismatch from (length replay) received))
                  end
              end
          end
      end
  end.

End proof.

End SnapshotProof.
