(* ===== verification/SnapshotSound.v ===== *)
(** * What a verified chunk is worth: crates/trie/src/snapshot_proof.rs

    Whatever a peer sends, the nodes [verify_chunk] accepts are nodes of the trie, in the order of
    the traversal and with their own long values, and the total is the trie's: the client never
    stores anything that is not part of the state.  They are the run at the offset asked for if
    the peer also sent every node the traversal of the whole trie reads.  Without that they need
    not be: a subtree the proof leaves out has size zero for the replay, which then goes on as if
    it was not there. *)
From S2P Require Import Prelude Path Varint Store Node Unitrie NodeCodec NodeRefine NodeSave Trie EpochMark Snapshot SnapshotView SnapshotRun SnapshotChunk SnapshotProof.
From stdpp Require Import gmap sorting.
From stdpp Require Import options.

Module SnapshotSound.
Import Store Node Unitrie NodeCodec NodeRefine NodeSave Trie EpochMark Snapshot SnapshotView SnapshotRun SnapshotChunk SnapshotProof.
Local Open Scope Z_scope.

(** ** Runs over part of a trie *)

Section partial.
Context `{Keccak} {St Pt : Type} `{TrieStore St} `{TrieStore Pt} (store : St) (part : Pt).
Context (Hcompat : compat part store).

(** The entry of [x], at whatever offset. *)
Definition entry_of (have_ : bytes → bool) (e : StreamNode) (x : tree) : Prop :=
  message e = to_message (mem x) ∧ span e = span_of x ∧ long_values e = entry_values have_ x.

Lemma child_resolved t b c n : Stored store t → child t b = Some c → is_embeddable (mem c) = false →
  (resolve_logged part (load_ref part (Some c))).1 = n → n = None ∨ n = Some (load part c).
Proof using Hcompat.
  intros Hst Hc He <-. destruct (resolve_load store part Hcompat t b c Hst Hc He) as [lg ->].
  destruct (ts_get part (hash_of c)); auto.
Qed.

Lemma leftmost_partial fuel : ∀ t ts, Stored store t → Forall (Stored store) ts → (length (inorder t) ≤ fuel)%nat →
  ∃ c ts', (leftmost fuel part (load part t) (load part <$> ts)).1 = Some (load part c, load part <$> ts') ∧
    Stored store c ∧ Forall (Stored store) ts' ∧ sublist (c :: opened (tright c) ++ owed ts') (inorder t ++ owed ts).
Proof using Hcompat.
  induction fuel as [|fuel IH]; intros t ts Hst Hts Hlen; rewrite inorder_eq, length_app in Hlen; cbn [length] in Hlen; [lia|].
  assert (sublist (t :: opened (tright t) ++ owed ts) (inorder t ++ owed ts)) as Hself.
  { rewrite inorder_eq, <- app_assoc. by apply sublist_inserts_l. }
  cbn [leftmost]. rewrite (left_opens store part Hcompat) by done.
  destruct (tleft t) as [c|] eqn:Hc; [|by exists t, ts]. destruct (is_embeddable (mem c)) eqn:He; cbn [negb]; [by exists t, ts|].
  rewrite (load_left store part Hcompat), Hc, lbind_fst by done. simpl in Hlen. rewrite He in Hlen.
  destruct (child_resolved t false c _ Hst Hc He eq_refl) as [->| ->]; [by exists t, ts|].
  destruct (IH c (t :: ts)) as (x & ts' & Heq & Hx & Hts' & Hsub); [by apply (stored_child store t false)|by constructor|lia|].
  exists x, ts'. split_and!; [exact Heq|done|done|]. rewrite inorder_eq, Hc. cbn [opened]. rewrite He, <- app_assoc. exact Hsub.
Qed.

Lemma loop_partial stop max_nodes fuel : ∀ out used at_ ts pend desc, loop_state store ts pend desc →
  (length (remaining ts pend desc) < fuel)%nat →
  ∃ es xs, (loop part fuel stop max_nodes out used at_ ts pend desc).1 = Some (out ++ es) ∧
    Forall2 (entry_of (have part)) es xs ∧ sublist xs (remaining ts pend desc).
Proof using Hcompat.
  induction fuel as [|fuel IH]; intros out used at_ ts pend desc Hls Hlen; [lia|].
  assert (∀ t ts, Stored store t → Forall (Stored store) ts → (length (opened (tright t) ++ owed ts) < fuel)%nat →
    ∃ es xs, (emit part fuel stop max_nodes out used at_ t ts).1 = Some (out ++ es) ∧
      Forall2 (entry_of (have part)) es xs ∧ sublist xs (t :: opened (tright t) ++ owed ts)) as Hemit.
  { intros t us Hst Hus Hl. unfold emit. cbv zeta. cbn [fst]. destruct (halts _ _ _ _ _ _).
    { exists [], []. rewrite app_nil_r. split_and!; [done|constructor|apply sublist_nil_l]. }
    assert (remaining us None (open_child (tright t)) = opened (tright t) ++ owed us) as Hrem.
    { rewrite opened_open. simpl. by destruct (open_child (tright t)). }
    edestruct (IH (out ++ [entry (have part) at_ t])) as (es & xs & -> & Hes & Hsub);
      [exact (loop_state_next store t us Hst Hus)|by rewrite Hrem|]. rewrite Hrem in Hsub.
    exists (entry (have part) at_ t :: es), (t :: xs). rewrite <- app_assoc. split_and!; [done|by constructor|by constructor]. }
  rewrite (loop_eq store part Hcompat) by done. destruct Hls as [Hts Hpend Hdesc].
  destruct pend as [t|]; cbn [remaining] in *; [apply Hemit; [by apply Hpend|done|simpl in Hlen; lia]|].
  destruct desc as [c|].
  2: { destruct ts as [|t ts]; [by exists [], []; rewrite app_nil_r|]. inversion Hts; subst.
       change (owed (t :: ts)) with (t :: opened (tright t) ++ owed ts) in *. cbn [length] in Hlen. apply Hemit; [done|done|lia]. }
  destruct (Hdesc c eq_refl) as (t & b & Hst & Hc & He). rewrite length_app in Hlen.
  assert (Stored store c) as Hsc by by eapply stored_child.
  rewrite lbind_fst. destruct (child_resolved t b c _ Hst Hc He eq_refl) as [->| ->].
  - assert (0 < length (inorder c))%nat by (rewrite inorder_eq, length_app; simpl; lia).
    destruct (IH out used at_ ts None None) as (es & xs & -> & Hes & Hsub); [by split|simpl; lia|].
    exists es, xs. split_and!; [done|done|]. simpl in Hsub. by apply sublist_inserts_l.
  - destruct (leftmost_partial fuel c ts Hsc Hts) as (x & ts' & Hm & Hx & Hts' & Hsub); [lia|].
    rewrite lbind_fst, Hm, (emit_eq store part Hcompat) by done. pose proof (sublist_length _ _ Hsub) as Hl.
    rewrite length_app in Hl. cbn [length] in Hl. destruct (Hemit x ts' Hx Hts') as (es & xs & -> & Hes & Hsub'); [lia|].
    exists es, xs. split_and!; [done|done|]. by etransitivity.
Qed.

Lemma seek_partial levels : ∀ t path off sk, Stored store t → 0 ≤ off →
  (seek_loop levels part path (load part t) off).1 = Some sk →
  ∃ tr t0 w, sk = mkSeek (path ++ steps_of part tr) (load part t0) w ∧ Stored store t0 ∧
    Forall (Stored store) (lefts tr) ∧ sublist (t0 :: opened (tright t0) ++ owed (lefts tr)) (inorder t).
Proof using Hcompat.
  induction levels as [|levels IH]; intros t path off sk Hst Hoff; [done|]. cbn [seek_loop]. rewrite lbind_fst.
  destruct (Z.ltb_spec off (branch_size part (left_ref (load part t))).1) as [Hl|Hl].
  - rewrite (load_left store part Hcompat) in * by done. destruct (tleft t) as [c|] eqn:Hc; [|simpl in Hl; lia].
    assert (is_embeddable (mem c) = false) as He.
    { destruct (is_embeddable (mem c)) eqn:He; [|done]. pose proof (load_is_embedded store part Hcompat t false Hst) as Hemb.
      cbn [child] in Hemb. rewrite Hc, He in Hemb. unfold branch_size in Hl. rewrite Hemb in Hl.
      cbn [load_ref] in Hl. rewrite He in Hl. simpl in Hl. lia. }
    rewrite lbind_fst. destruct (child_resolved t false c _ Hst Hc He eq_refl) as [->| ->]; [done|]. intros Hs.
    apply IH in Hs as (tr & t0 & w & -> & Ht0 & Hlefts & Hsub); [|by apply (stored_child store t false)|done].
    exists ((t, true) :: tr), t0, w. rewrite lefts_cons, owed_app. cbn [fst snd]. split_and!; [by rewrite <- app_assoc|done| |].
    + apply Forall_app. split; [done|constructor; [exact Hst|constructor]].
    + rewrite inorder_eq, Hc. cbn [opened]. rewrite He, app_assoc, app_comm_cons. apply sublist_app; [exact Hsub|].
      unfold owed. simpl. by rewrite app_nil_r.
  - destruct (off <? _) eqn:Hh.
    { intros [= <-]. exists [], t, (off - (branch_size part (left_ref (load part t))).1). rewrite app_nil_r.
      split_and!; [done|done|constructor|]. unfold lefts, owed. simpl. rewrite app_nil_r, inorder_eq. by apply sublist_inserts_l. }
    apply Z.ltb_ge in Hh. rewrite (load_right store part Hcompat) by done.
    rewrite (load_is_embedded store part Hcompat t true Hst : is_embedded (load_ref part (tright t)) = _). cbn [child].
    destruct (tright t) as [c|] eqn:Hc; [|done]. destruct (is_embeddable (mem c)) eqn:He; [by rewrite orb_true_r|].
    destruct (ref_is_empty _); [done|]. cbn [orb]. rewrite lbind_fst.
    destruct (child_resolved t true c _ Hst Hc He eq_refl) as [->| ->]; [done|]. intros Hs.
    apply IH in Hs as (tr & t0 & w & -> & Ht0 & Hlefts & Hsub); [|by apply (stored_child store t true)|lia].
    exists ((t, false) :: tr), t0, w. rewrite lefts_cons, app_nil_r. split_and!; [by rewrite <- app_assoc|done|done|].
    rewrite inorder_eq, Hc. cbn [opened]. rewrite He. apply sublist_inserts_l. by apply sublist_cons.
Qed.

(** [collect] over part of a trie: entries of the trie, in order. *)
Lemma collect_partial fuel t off stop max_nodes : Stored store t → is_empty_trie (mem t) = false → 0 ≤ off →
  (length (inorder t) < fuel)%nat →
  ∃ es xs, (collect fuel part (load part t) off stop max_nodes).1 = Some es ∧
    Forall2 (entry_of (have part)) es xs ∧ sublist xs (inorder t).
Proof using Hcompat.
  intros Hst Hne Hoff Hfuel. unfold collect, seek. rewrite (load_not_empty store part Hcompat), Hne, lbind_fst by done.
  destruct (seek_loop _ _ _ _ _).1 as [sk|] eqn:Hs.
  2: { exists [], []. split_and!; [done|constructor|apply sublist_nil_l]. }
  apply seek_partial in Hs as (tr & t0 & w & -> & Ht0 & Hlefts & Hsub); [|done|done].
  cbn [seek_path seek_node within app]. rewrite owing_steps. pose proof (sublist_length _ _ Hsub).
  destruct (loop_partial stop max_nodes fuel [] 0 (off - w) (lefts tr) (Some t0) None) as (es & xs & Hl & Hes & Hsub').
  { split; [done|by intros ? [= <-]|done]. }
  { cbn [remaining]. lia. }
  exists es, xs. split_and!; [exact Hl|done|]. by etransitivity.
Qed.

End partial.

(** ** The store of a proof *)

Section records.
Context `{Keccak}.

Lemma inserted_get l : ∀ m h v, foldl insert_message m l !! h = Some v → v ∈ l ∧ h = keccak v ∨ m !! h = Some v.
Proof.
  induction l as [|x l IH]; intros m h v Hv; [by right|]. simpl in Hv. apply IH in Hv as [[Hv ->]|Hv]; [left; split; [by right|done]|].
  unfold insert_message in Hv. apply lookup_insert_Some in Hv as [[<- <-]|[_ Hv]]; [left; split; [by left|done]|by right].
Qed.

Lemma inserted_has l : ∀ m h, is_Some (m !! h) ∨ h ∈ keccak <$> l → is_Some (foldl insert_message m l !! h).
Proof.
  induction l as [|x l IH]; intros m h Hh; [by destruct Hh as [|?%elem_of_nil]|]. simpl. apply IH.
  unfold insert_message. destruct (decide (keccak x = h)) as [->|Hne]; [left; rewrite lookup_insert_eq; by eexists|].
  rewrite lookup_insert_ne by done. destruct Hh as [Hh|Hh]; [by left|]. rewrite fmap_cons in Hh.
  apply elem_of_cons in Hh as [->|Hh]; [done|by right].
Qed.

Lemma store_of_get p h v : ts_get (store_of p) h = Some v → v ∈ proof_records p ∧ h = keccak v.
Proof.
  simpl. unfold proof_get. destruct (length h =? 32)%nat; [|done]. cbn [store_of proof_map]. intros Hv.
  apply inserted_get in Hv as [?|Hv]; [done|]. by rewrite lookup_empty in Hv.
Qed.

Lemma store_of_has p h : h ∈ keccak <$> proof_records p → is_Some (ts_get (store_of p) h).
Proof.
  intros Hh. simpl. unfold proof_get. assert (length h = 32%nat) as Hl.
  { apply list_elem_of_fmap in Hh as (v & -> & _). apply length_keccak. }
  rewrite (proj2 (Nat.eqb_eq _ _) Hl). apply inserted_has. by right.
Qed.

(** The proof's strings, and the store's, hash apart. *)
Definition apart_from {St} `{TrieStore St} (V : gset bytes) (store : St) (p : ChunkProof) : Prop :=
  distinct V ∧ held_in V store ∧ ∀ m, m ∈ proof_records p → m ∈ V.

Lemma proof_compat {St} `{TrieStore St} V (store : St) p : apart_from V store p → compat (store_of p) store.
Proof.
  intros (Hd & Hheld & Hp) m m' Hm Hm'. apply store_of_get in Hm as [Hm Heq].
  apply Hd; [by apply Hp|by eapply Hheld|done].
Qed.

(** ** Long values *)

Lemma position_lookup h l i : position h l = Some i → l !! i = Some h.
Proof.
  revert i. induction l as [|x l IH]; intros i; [done|]. simpl. case_decide as Hx; [intros [= <-]; by subst|].
  destruct (position h l) as [j|]; [|done]. intros [= <-]. by apply IH.
Qed.

Lemma swap_remove_perm l i h : l !! i = Some h → l ≡ₚ h :: swap_remove l i.
Proof.
  intros Hi. unfold swap_remove. destruct (last l) as [x|] eqn:Hx; [|by apply last_None in Hx as ->].
  apply last_Some in Hx as [l' ->]. rewrite length_app. cbn [length]. rewrite Nat.add_sub.
  destruct (decide (i < length l')%nat) as [Hlt|Hge].
  - rewrite lookup_app_l in Hi by done. rewrite insert_app_l by done. rewrite take_app_length' by by rewrite length_insert.
    rewrite <- (take_drop_middle l' i h Hi) at 1. rewrite insert_take_drop by done.
    rewrite <- app_assoc. cbn [app]. rewrite <- Permutation_middle. constructor. rewrite app_assoc.
    rewrite (Permutation_app_comm _ [x]). cbn [app]. by rewrite <- Permutation_middle.
  - assert (i = length l') as ->.
    { apply lookup_lt_Some in Hi. rewrite length_app in Hi. simpl in Hi. lia. }
    rewrite lookup_app_r in Hi by lia. rewrite Nat.sub_diag in Hi. injection Hi as <-.
    rewrite list_insert_id by (rewrite lookup_app_r by lia; by rewrite Nat.sub_diag). rewrite take_app_length. by rewrite <- Permutation_cons_append.
Qed.

Lemma match_values_perm values : ∀ wanted, length wanted = length values → match_values values wanted = true →
  wanted ≡ₚ keccak <$> values.
Proof.
  induction values as [|v values IH]; intros wanted Hlen; simpl.
  { intros _. by destruct wanted. }
  destruct (position (keccak v) wanted) as [i|] eqn:Hp; [|done]. intros Hm. apply position_lookup, swap_remove_perm in Hp.
  rewrite Hp. constructor. apply IH; [|done]. apply Permutation_length in Hp. simpl in *. lia.
Qed.

Lemma match_values_ok values : ∀ wanted, wanted ≡ₚ keccak <$> values → match_values values wanted = true.
Proof.
  induction values as [|v values IH]; intros wanted Hp; [done|]. simpl. rewrite fmap_cons in Hp.
  assert (is_Some (position (keccak v) wanted)) as [i Hi].
  { assert (keccak v ∈ wanted) as Hin by (rewrite Hp; by left). clear -Hin. induction wanted as [|x l IH]; [by apply elem_of_nil in Hin|].
    simpl. case_decide; [by eexists|]. apply elem_of_cons in Hin as [Heq|Hin]; [congruence|]. destruct (IH Hin) as [j ->]. by eexists. }
  rewrite Hi. apply IH. apply position_lookup, swap_remove_perm in Hi. rewrite Hi in Hp. by apply Permutation_cons_inv in Hp.
Qed.

Lemma empty_compat {St} `{TrieStore St} (store : St) : compat mkEmptyStore store.
Proof. by intros m m'. Qed.

(** What a message commits its entry to carry. *)
Lemma wanted_values {St} `{TrieStore St} (store : St) x : Stored store x →
  try_from_message mkEmptyStore (to_message (mem x)) = Some (load mkEmptyStore x) ∧
  collect_value_hashes (load mkEmptyStore x) = keccak <$> entry_values everything x.
Proof.
  intros Hst. pose proof (empty_compat store) as Hce. split; [by apply (parse_load store)|].
  assert (∀ y, Stored store y → match value (load mkEmptyStore y), value_hash (load mkEmptyStore y) with None, Some h => [h] | _, _ => [] end
    = keccak <$> own_values everything y) as Hown.
  { intros y Hy. rewrite (load_value_hash mkEmptyStore). unfold own_values, everything. destruct (tval y) as [v|] eqn:Hv.
    - rewrite (load_value mkEmptyStore y v Hv), andb_true_r. by destruct (32 <? length v)%nat.
    - by destruct (value (load mkEmptyStore y)). }
  assert (∀ n, collect_value_hashes n =
    (match value n, value_hash n with None, Some h => [h] | _, _ => [] end)
    ++ match left_ref n with RefNode c => collect_value_hashes c | _ => [] end
    ++ match right_ref n with RefNode c => collect_value_hashes c | _ => [] end) as Heq.
  { intros [? ? ? ? [] []]; done. }
  assert (∀ b, match load_ref mkEmptyStore (child x b) with RefNode c => collect_value_hashes c | _ => [] end
    = keccak <$> embedded_values everything (child x b)) as Hemb.
  { intros b. destruct (child x b) as [c|] eqn:Hc; [|done]. assert (Stored store c) as Hsc by by eapply stored_child.
    cbn [load_ref embedded_values]. destruct (is_embeddable (mem c)) eqn:He; [|done].
    rewrite Heq, Hown, (load_left store mkEmptyStore Hce), (load_right store mkEmptyStore Hce) by done.
    rewrite (embeddable_leaf c false He : tleft c = None), (embeddable_leaf c true He : tright c = None). by rewrite !app_nil_r. }
  rewrite Heq, Hown, (load_left store mkEmptyStore Hce), (load_right store mkEmptyStore Hce) by done.
  rewrite (Hemb false : match load_ref mkEmptyStore (tleft x) with RefNode c => _ | _ => _ end = _).
  rewrite (Hemb true : match load_ref mkEmptyStore (tright x) with RefNode c => _ | _ => _ end = _).
  unfold entry_values. by rewrite !fmap_app.
Qed.

Lemma entry_values_have have_ x : (∀ v, v ∈ entry_values everything x → have_ v = true) →
  entry_values have_ x = entry_values everything x.
Proof.
  assert (∀ y, (∀ v, v ∈ own_values everything y → have_ v = true) → own_values have_ y = own_values everything y) as Hown.
  { intros y. unfold own_values, everything. destruct (tval y) as [v|]; [|done]. rewrite andb_true_r.
    destruct (32 <? length v)%nat; [|done]. intros Hv. by rewrite (Hv v (list_elem_of_here v [])). }
  assert (∀ o, (∀ v, v ∈ embedded_values everything o → have_ v = true) → embedded_values have_ o = embedded_values everything o) as Hemb.
  { intros [c|]; [|done]. simpl. destruct (is_embeddable (mem c)); [apply Hown|done]. }
  intros Hv. unfold entry_values in *.
  rewrite Hown, !Hemb; [done|..]; intros v Hin; apply Hv; rewrite !elem_of_app; auto.
Qed.

(** An entry that passed its check brought the long values of its node. *)
Lemma values_carried {St} `{TrieStore St} (store : St) p e x : Stored store x → e ∈ entries p →
  entry_message e = to_message (mem x) → check_long_values e = true →
  entry_values (have (store_of p)) x = entry_values everything x.
Proof.
  intros Hst He Hm Hc. destruct (wanted_values store x Hst) as [Hparse Hwanted].
  unfold check_long_values in Hc. rewrite Hm, Hparse, Hwanted in Hc. apply andb_true_iff in Hc as [Hlen%Nat.eqb_eq Hmatch].
  apply match_values_perm in Hmatch; [|done]. apply entry_values_have. intros v Hv. unfold have. apply bool_decide_eq_true_2, store_of_has.
  assert (keccak v ∈ keccak <$> entry_long_values e) as (w & -> & Hw)%list_elem_of_fmap.
  { rewrite <- Hmatch. by apply list_elem_of_fmap_2. }
  apply list_elem_of_fmap_2. unfold proof_records. rewrite !elem_of_app. right. right.
  apply list_elem_of_In, in_concat. exists (entry_long_values e). rewrite <- !list_elem_of_In. split; [by apply list_elem_of_fmap_2|done].
Qed.

(** ** What is accepted *)

Lemma check_entries_ok l : ∀ i, check_entries i l = Ok tt → Forall (λ e, check_long_values e = true) l.
Proof.
  induction l as [|e l IH]; intros i; [constructor|]. simpl. destruct (try_from_message _ _); [|done].
  destruct (check_long_values e) eqn:He; [|done]. intros Hl. constructor; [done|by eapply IH].
Qed.

Lemma compare_nodes_ok replay : ∀ i l, length replay = length l → compare_nodes i replay l = Ok tt →
  Forall2 (λ e g, message e = entry_message g) replay l.
Proof.
  induction replay as [|e replay IH]; intros i [|g l]; simpl; [constructor|lia|lia|]. intros Hlen. case_decide; [|done].
  intros Hc. constructor; [done|]. eapply IH; [lia|done].
Qed.

Record accepted (fuel : nat) (root_hash : bytes) (from : Z) (p : ChunkProof) (ver : Verified) (root : TrieNode) : Prop := {
  acc_checked : Forall (λ e, check_long_values e = true) (entries p);
  acc_root : ∃ m, ts_get (store_of p) root_hash = Some m ∧ try_from_message (store_of p) m = Some root;
  acc_replay : (chunk_from_limited fuel (store_of p) root from U64_MAX (Z.of_nat (length (entries p)))).1 = Some (verified_nodes ver);
  acc_compared : Forall2 (λ e g, message e = entry_message g) (verified_nodes ver) (entries p);
  acc_total : verified_total ver = total_size root;
}.

Lemma verify_accepted fuel root_hash from p ver : verify_chunk fuel root_hash from p = Some (Ok ver) →
  ∃ root, accepted fuel root_hash from p ver root.
Proof.
  unfold verify_chunk. destruct (entries p) as [|e l] eqn:Hent; [done|]. rewrite <- Hent in *.
  destruct (check_entries 0 (entries p)) as [[]|] eqn:Hc; [|done].
  destruct (ts_get (store_of p) root_hash) as [m|] eqn:Hm; [|done]. destruct (try_from_message (store_of p) m) as [root|] eqn:Hr; [|done].
  destruct (chunk_from_limited _ _ _ _ _ _).1 as [replay|] eqn:Hrep; [|done]. case_decide as Hlen; [|done].
  destruct (compare_nodes 0 replay (entries p)) as [[]|] eqn:Hcmp; [|done]. intros [= <-]. exists root. split.
  - by eapply check_entries_ok.
  - by exists m.
  - done.
  - by eapply compare_nodes_ok.
  - done.
Qed.

(** The root of an accepted proof is the root of the trie. *)
Lemma accepted_root {St} `{TrieStore St} V (store : St) t fuel from p ver root :
  Stored store t → Own store t → apart_from V store p → accepted fuel (hash_of t) from p ver root →
  root = load (store_of p) t.
Proof.
  intros Hst Hown Hap Hacc. pose proof (proof_compat V store p Hap) as Hcompat.
  destruct (acc_root _ _ _ _ _ _ Hacc) as (m & Hm & Hr).
  assert (m = to_message (mem t)) as -> by (eapply Hcompat; [exact Hm|exact Hown]).
  rewrite (parse_load store (store_of p) Hcompat) in Hr by done. by injection Hr.
Qed.

(** The nodes accepted carry all their long values. *)
Lemma accepted_values {St} `{TrieStore St} (store : St) fuel root_hash from p ver root xs :
  accepted fuel root_hash from p ver root → Forall (Stored store) xs →
  Forall2 (entry_of (have (store_of p))) (verified_nodes ver) xs → Forall2 (entry_of everything) (verified_nodes ver) xs.
Proof.
  intros Hacc Hxs Hes. pose proof (acc_compared _ _ _ _ _ _ Hacc) as Hcmp. pose proof (acc_checked _ _ _ _ _ _ Hacc) as Hchk.
  apply Forall2_same_length_lookup_2; [by eapply Forall2_length|]. intros i e x He Hx.
  destruct (Forall2_lookup_lr _ _ _ _ _ _ Hes He Hx) as (Hm & Hsp & Hlv).
  destruct (Forall2_lookup_l _ _ _ _ _ Hcmp He) as (g & Hg & Hmg).
  split_and!; [done|done|]. rewrite Hlv. eapply (values_carried store).
  - by eapply Forall_lookup_1.
  - by eapply list_elem_of_lookup_2.
  - by rewrite <- Hmg.
  - by eapply (Forall_lookup_1 _ _ _ _ Hchk).
Qed.

End records.

(** What the check returns. *)
Lemma verify_nodes `{Keccak} {St} `{TrieStore St} (store : St) t V fuel from proof :
  Stored store t → Own store t → is_empty_trie (mem t) = false → apart_from V store proof →
  0 ≤ from → (length (inorder t) < fuel)%nat →
  match verify_chunk fuel (hash_of t) from proof with
  | None => False
  | Some (Err _) => True
  | Some (Ok ver) =>
      verified_total ver = node_size (mem t) ∧
      ∃ xs, sublist xs (inorder t) ∧ Forall2 (entry_of everything) (verified_nodes ver) xs
  end.
Proof.
  intros Hst Hown Hne Hap Hfrom Hfuel. pose proof (proof_compat V store proof Hap) as Hcompat.
  destruct (verify_chunk fuel (hash_of t) from proof) as [[ver|err]|] eqn:Hver; [|done|].
  - apply verify_accepted in Hver as [root Hacc]. pose proof (accepted_root V store t _ _ _ _ _ Hst Hown Hap Hacc) as ->.
    split; [by rewrite (acc_total _ _ _ _ _ _ Hacc), (load_total_size store (store_of proof) Hcompat)|].
    pose proof (acc_replay _ _ _ _ _ _ Hacc) as Hrep. unfold chunk_from_limited in Hrep.
    destruct (collect_partial store (store_of proof) Hcompat fuel t from (StopBudget U64_MAX) (Z.of_nat (length (entries proof))) Hst Hne Hfrom Hfuel)
      as (es & xs & Hes & Hlike & Hsub). rewrite Hrep in Hes. injection Hes as <-. exists xs. split; [done|].
    eapply (accepted_values store); [exact Hacc| |done]. apply Forall_forall. intros x Hx.
    eapply (Forall_forall (Stored store)); [by apply inorder_stored|]. by eapply elem_of_sublist.
  - unfold verify_chunk in Hver. destruct (entries proof) as [|e l] eqn:Hent; [done|]. rewrite <- Hent in *.
    destruct (check_entries 0 (entries proof)); [|done]. destruct (ts_get (store_of proof) (hash_of t)) as [m|] eqn:Hm; [|done].
    assert (m = to_message (mem t)) as -> by (eapply Hcompat; [exact Hm|exact Hown]).
    rewrite (parse_load store (store_of proof) Hcompat) in Hver by done. unfold chunk_from_limited in Hver.
    destruct (collect_partial store (store_of proof) Hcompat fuel t from (StopBudget U64_MAX) (Z.of_nat (length (entries proof))) Hst Hne Hfrom Hfuel)
      as (es & xs & Hes & _). rewrite Hes in Hver. case_decide; [|done]. by destruct (compare_nodes _ _ _).
Qed.

Lemma verified_nonempty `{Keccak} fuel root_hash from p ver : verify_chunk fuel root_hash from p = Some (Ok ver) →
  verified_nodes ver ≠ [].
Proof.
  intros Hver. assert (entries p ≠ []) as Hne by (unfold verify_chunk in Hver; by destruct (entries p)).
  apply verify_accepted in Hver as [root Hacc]. pose proof (acc_compared _ _ _ _ _ _ Hacc) as Hcmp. intros Hnil. rewrite Hnil in Hcmp.
  by inversion Hcmp.
Qed.

(** ** Theorems *)

(** C18: Whatever was sent, the check has a result, and the nodes it accepts are nodes of the trie, in
    the order of the traversal, each with its message and exactly its own long values; the total
    it returns is the size of the trie. *)
Theorem verified_chunk_sound `{Keccak} {St} `{TrieStore St} (store : St) t V fuel from proof :
  Stored store t → Own store t → is_empty_trie (mem t) = false → apart_from V store proof →
  0 ≤ from → (length (inorder t) < fuel)%nat →
  match verify_chunk fuel (hash_of t) from proof with
  | None => False
  | Some (Err _) => True
  | Some (Ok ver) =>
      verified_total ver = node_size (mem t) ∧
      ∃ xs, sublist xs (inorder t) ∧ Forall2 (entry_of everything) (verified_nodes ver) xs
  end.
Proof. intros. by eapply verify_nodes. Qed.

(** *** With a complete witness *)

Section cut.
Context `{Keccak}.

(** Without a budget that binds, a run is cut after [max_nodes] entries. *)
Lemma cut_count have_ k l : ∀ out used at_, Forall (λ x, 0 < span_of x) l → 0 ≤ at_ → at_ + spans l < 2 ^ 64 →
  (0 < k)%nat → (length out ≤ k)%nat →
  cut have_ (StopBudget U64_MAX) (Z.of_nat k) out used at_ l = out ++ take (k - length out) (layout have_ at_ l).
Proof.
  induction l as [|t l IH]; intros out used at_ Hl Hat Hsum Hk Hout; [simpl; by rewrite take_nil, app_nil_r|].
  inversion_clear Hl as [|? ? Ht Hl']. cbn [spans foldr] in Hsum. fold (spans l) in Hsum. pose proof (spans_bounds l Hl').
  cbn [cut layout]. assert (halts (StopBudget U64_MAX) (Z.of_nat k) out used at_ (wire_len (entry have_ at_ t))
    = (k <=? length out)%nat) as ->.
  { unfold halts, is_full, sat_add, U64_MAX. rewrite (proj2 (Z.ltb_ge _ _)) by lia. cbn [orb].
    destruct out as [|e out]; [symmetry; apply Nat.leb_gt; simpl; lia|].
    destruct (Nat.leb_spec k (length (e :: out))); [apply Z.leb_le; lia|apply Z.leb_gt; lia]. }
  destruct (Nat.leb_spec k (length out)) as [Hle|Hlt].
  - replace (k - length out)%nat with 0%nat by lia. by rewrite app_nil_r.
  - unfold u64 at 2. rewrite (wrap_small 64 (at_ + span_of t)) by (unfold fits; lia).
    rewrite IH; [|done|lia|lia|done|rewrite length_app; simpl; lia]. rewrite length_app. cbn [length].
    replace (k - length out)%nat with (S (k - (length out + 1))) by lia. cbn [take]. by rewrite <- app_assoc.
Qed.

Lemma layout_entries have_ l : ∀ at_, Forall2 (entry_of have_) (layout have_ at_ l) l.
Proof. induction l as [|t l IH]; intros at_; constructor; [done|]. apply IH. Qed.

(** The run of [k] entries at an offset of a trie. *)
Definition run_at (have_ : bytes → bool) (t : tree) (from : Z) (k : nat) : list StreamNode :=
  run_from have_ t from (StopBudget U64_MAX) (Z.of_nat k).

Lemma run_at_stream t from k : sized t → 0 ≤ from → (0 < k)%nat →
  run_at everything t from k = take k (filter (λ e, from < offset e + span e) (stream t)).
Proof.
  intros Hsz Hfrom Hk. unfold run_at, run_from. destruct (Z.lt_ge_cases from (node_size (mem t))) as [Hin|Hpast].
  2: { rewrite seek_tree_past, stream_past by done. by rewrite take_nil. }
  destruct (stream_at t from Hsz) as (tr & t0 & w & pre & rest & -> & -> & Hino & Hstr & Hpre & Hw & Hp0 & Hbound & Hpos1 & Hpos2); [lia|].
  rewrite <- Hpre, (stream_rest t from pre _ w t0) by done. rewrite cut_count by (done || simpl; lia). cbn [app length]. by rewrite Nat.sub_0_r.
Qed.

(** The nodes of two runs of a trie, with and without some long values. *)
Lemma run_at_nodes have_ t from k : sized t → 0 ≤ from → (0 < k)%nat →
  ∃ xs, sublist xs (inorder t) ∧ Forall2 (entry_of have_) (run_at have_ t from k) xs ∧
    Forall2 (entry_of everything) (run_at everything t from k) xs ∧
    offset <$> run_at have_ t from k = offset <$> run_at everything t from k.
Proof.
  intros Hsz Hfrom Hk. unfold run_at, run_from. destruct (Z.lt_ge_cases from (node_size (mem t))) as [Hin|Hpast].
  2: { rewrite seek_tree_past by done. exists []. split_and!; [apply sublist_nil_l|constructor|constructor|done]. }
  destruct (stream_at t from Hsz) as (tr & t0 & w & pre & rest & -> & Hrest & Hino & Hstr & Hpre & Hw & Hp0 & Hbound & Hpos1 & Hpos2); [lia|].
  rewrite <- Hrest, <- Hpre. rewrite !cut_count by (done || simpl; lia). cbn [app length]. rewrite Nat.sub_0_r.
  exists (take k rest). split_and!.
  - rewrite Hino. apply sublist_inserts_l, sublist_take.
  - apply Forall2_take, layout_entries.
  - apply Forall2_take, layout_entries.
  - rewrite !fmap_take. f_equal. clear. generalize (spans pre). induction rest as [|t rest IH]; intros a; [done|]. simpl. f_equal. apply IH.
Qed.
End cut.

Lemma stream_nodes_eq (l k : list StreamNode) : message <$> l = message <$> k → span <$> l = span <$> k →
  long_values <$> l = long_values <$> k → offset <$> l = offset <$> k → l = k.
Proof.
  revert k. induction l as [|[o s m v] l IH]; intros [|[o' s' m' v'] k]; simpl; try done.
  intros [= -> Hm] [= -> Hs] [= -> Hv] [= -> Ho]. f_equal. by apply IH.
Qed.

(** C21: If the proof has every node that the traversal of the whole trie reads for as many entries,
    the nodes accepted are exactly the run of the trie at the offset asked for. *)
Theorem complete_witness_exact `{Keccak} {St} `{TrieStore St} (store : St) t V fuel from proof ver :
  Readable store t → Own store t → apart_from V store proof → 0 ≤ from → (length (inorder t) < fuel)%nat →
  (∀ h m, (ForNode, (h, m)) ∈
     (chunk_from_limited fuel store (load store t) from U64_MAX (Z.of_nat (length (entries proof)))).2 →
   m ∈ proof_records proof) →
  verify_chunk fuel (hash_of t) from proof = Some (Ok ver) →
  verified_nodes ver = take (length (entries proof)) (filter (λ e, from < offset e + span e) (stream t)).
Proof.
  intros Hrd Hown Hap Hfrom Hfuel Hreads Hver. pose proof (proof_compat V store proof Hap) as Hcompat.
  pose proof Hrd as [Hst Hne Hsz _]. assert (0 < length (entries proof))%nat as Hk.
  { unfold verify_chunk in Hver. destruct (entries proof); [done|simpl; lia]. }
  apply verify_accepted in Hver as [root Hacc]. pose proof (accepted_root V store t _ _ _ _ _ Hst Hown Hap Hacc) as ->.
  pose proof (acc_replay _ _ _ _ _ _ Hacc) as Hrep. unfold chunk_from_limited in *. set (k := length (entries proof)) in *.
  assert (verified_nodes ver = run_at (have (store_of proof)) t from k) as Hnodes.
  { destruct (collect_run store (store_of proof) Hcompat (λ o p, length o.1 = length p.1) fuel t from
      (StopBudget U64_MAX) (Z.of_nat k) (StopBudget U64_MAX) (Z.of_nat k) Hrd Hfrom Hfuel eq_refl) as [_ Hsim].
    - intros o us p up at_ x _. cbn [fst]. rewrite !length_app. simpl. lia.
    - intros us p up at_ x _. cbn [fst]. intros Hlen. set (F := run_from _ _ _ _ _) in *. unfold halts, is_full, sat_add, U64_MAX.
      rewrite !(proj2 (Z.ltb_ge _ _)) by lia. cbn [orb]. rewrite Hlen. destruct F as [|e F]; [done|]. by destruct p.
    - rewrite Hsim in Hrep; [by injection Hrep|]. intros c Hc Hin. apply store_of_has. unfold hash_of. apply list_elem_of_fmap_2. by eapply Hreads. }
  destruct (run_at_nodes (have (store_of proof)) t from k Hsz Hfrom Hk) as (xs & Hsub & H1 & H2 & Hoff).
  rewrite <- run_at_stream by done. rewrite <- Hnodes in *.
  assert (Forall2 (entry_of everything) (verified_nodes ver) xs) as H3.
  { eapply (accepted_values store); [exact Hacc| |done]. apply Forall_forall. intros x Hx.
    eapply (Forall_forall (Stored store)); [by apply inorder_stored|]. by eapply elem_of_sublist. }
  assert (∀ {A} (f : StreamNode → A) (g : tree → A) l, (∀ e x, entry_of everything e x → f e = g x) →
    Forall2 (entry_of everything) l xs → f <$> l = g <$> xs) as Hmap.
  { intros A f g l Hfg Hl. clear -Hfg Hl. induction Hl as [|e x l xs He _ IH]; [done|]. rewrite !fmap_cons. f_equal; [by apply Hfg|done]. }
  apply stream_nodes_eq; [..|done].
  - by rewrite !(Hmap _ message (λ x, to_message (mem x))) by (done || by intros e x (? & _)).
  - by rewrite !(Hmap _ span span_of) by (done || by intros e x (_ & ? & _)).
  - by rewrite !(Hmap _ long_values (entry_values everything)) by (done || by intros e x (_ & _ & ?)).
Qed.

(** *** A subtree left out *)

Section example.
#[local] Existing Instance poly_keccak.
#[local] Ltac evaluate := match goal with |- ?P => apply (bool_decide_unpack P); vm_compute; exact I end.

Definition proof_of (r : option (result ChunkProof Panic)) : ChunkProof :=
  match r with Some (Ok p) => p | _ => mkChunkProof [] [] end.

(** The whole of the example, and the same without its first entry: every string in it is
    genuine. *)
Definition whole_proof : ChunkProof := proof_of (prove_cell 4 example_store example_root 0 470).
Definition holed_proof : ChunkProof := mkChunkProof (drop 1 (entries whole_proof)) [].


Definition example_strings : list bytes := remove_dups ((map_to_list (mem_data example_store)).*2 ++ proof_records whole_proof).

Lemma example_apart : apart_from (list_to_set example_strings) example_store whole_proof.
Proof.
  split_and!.
  - apply distinct_list. evaluate.
  - intros h m Hm. apply elem_of_list_to_set, elem_of_remove_dups, elem_of_app. left.
    apply list_elem_of_fmap. exists (h, m). split; [done|]. by apply elem_of_map_to_list.
  - intros m Hm. apply elem_of_list_to_set, elem_of_remove_dups, elem_of_app. by right.
Qed.

Lemma example_own : Own example_store example_trie.
Proof. unfold Own. vm_compute. reflexivity. Qed.

Lemma verified_chunk_sound_witness :
  match verify_chunk 4 (hash_of example_trie) 60 whole_proof with
  | None => False
  | Some (Err _) => True
  | Some (Ok ver) =>
      verified_total ver = node_size (mem example_trie) ∧
      ∃ xs, sublist xs (inorder example_trie) ∧ Forall2 (entry_of everything) (verified_nodes ver) xs
  end.
Proof.
  apply (verified_chunk_sound example_store example_trie (list_to_set example_strings) 4 60 whole_proof).
  - exact example_stored.
  - exact example_own.
  - exact (rd_not_empty _ _ example_readable).
  - exact example_apart.
  - lia.
  - vm_compute. lia.
Defined.

Lemma complete_witness_exact_witness : ∃ ver,
  verify_chunk 4 (hash_of example_trie) 0 whole_proof = Some (Ok ver) ∧
  verified_nodes ver = take (length (entries whole_proof)) (filter (λ e, 0 < offset e + span e) (stream example_trie)).
Proof.
  eexists. split; [vm_compute; reflexivity|].
  apply (complete_witness_exact example_store example_trie (list_to_set example_strings) 4 0 whole_proof).
  - exact example_readable.
  - exact example_own.
  - exact example_apart.
  - lia.
  - vm_compute. lia.
  - assert (Forall (λ e, e.1 = ForNode → e.2.2 ∈ proof_records whole_proof)
      (chunk_from_limited 4 example_store (load example_store example_trie) 0 U64_MAX (Z.of_nat (length (entries whole_proof)))).2) as Hall by evaluate.
    intros h m Hin. exact (proj1 (Forall_forall _ _) Hall _ Hin eq_refl).
  - vm_compute. reflexivity.
Defined.
End example.

End SnapshotSound.
