(* ===== verification/SnapshotHonest.v ===== *)
(** * An honest proof is accepted: crates/trie/src/snapshot_proof.rs

    The proof a server makes of a run of a trie it holds passes the check of the client, which
    ends up with exactly that run: [prove_cell] and [prove_chunk] against [verify_chunk].

    The witness follows the child hashes of the messages known from the root down ([gather]); the
    traversal reads a node only through a child reference of one it has read ([reached]).  So
    every node the traversal read is in the proof. *)
From S2P Require Import Prelude Path Varint Store Node Unitrie NodeCodec NodeRefine NodeSave Trie EpochMark Snapshot SnapshotView SnapshotRun SnapshotChunk SnapshotProof SnapshotSound.
From stdpp Require Import gmap sorting.
From stdpp Require Import options.

Module SnapshotHonest.
Import Store Node Unitrie NodeCodec NodeRefine NodeSave Trie EpochMark Snapshot SnapshotView SnapshotRun SnapshotChunk SnapshotProof SnapshotSound.
Local Open Scope Z_scope.

(** ** The witness *)

Section gathering.
Context `{Keccak} (known_ : gmap bytes bytes) (carried : gset bytes).

Lemma child_hashes_length m : (length (child_hashes m) ≤ 4)%nat.
Proof using Type.
  unfold child_hashes. destruct (try_from_message _ m) as [n|]; [|simpl; lia]. rewrite length_app.
  assert (∀ r, length (ref_hashes r) ≤ 1)%nat as Hr by (intros []; simpl; lia).
  assert (∀ r, length match r with RefHash h => [h] | RefNode n => ref_hashes (left_ref n) ++ ref_hashes (right_ref n) | RefEmpty => [] end ≤ 2)%nat as Hc.
  { intros [| |c]; simpl; [lia|lia|]. rewrite length_app. pose proof (Hr (left_ref c)). pose proof (Hr (right_ref c)). lia. }
  pose proof (Hc (left_ref n)). pose proof (Hc (right_ref n)). lia.
Qed.

(** The state of the loop: the known messages walked have had their children queued and are
    carried or in the witness. *)
Record gathered (queue : list bytes) (walked : gset bytes) (wit : list bytes) : Prop := {
  ga_closed h m h' : h ∈ walked → known_ !! h = Some m → h' ∈ child_hashes m → h' ∈ walked ∨ h' ∈ queue;
  ga_kept h m : h ∈ walked → known_ !! h = Some m → h ∈ carried ∨ m ∈ wit;
  ga_known m : m ∈ wit → ∃ h, known_ !! h = Some m;
}.

Lemma gather_run fuel : ∀ queue walked wit, gathered queue walked wit →
  (4 * size (dom known_ ∖ walked) + length queue < fuel)%nat →
  ∃ walked' wit', gather fuel known_ carried queue walked wit = Some wit' ∧
    walked ⊆ walked' ∧ (∀ h, h ∈ queue → h ∈ walked') ∧ gathered [] walked' wit'.
Proof using Type.
  induction fuel as [|fuel IH]; intros queue walked wit Hg Hf; [lia|]. cbn [gather].
  destruct queue as [|hash queue].
  { exists walked, wit. split_and!; [done|done| |done]. intros h Hh. by apply elem_of_nil in Hh. }
  cbn [length] in Hf. destruct Hg as [Hclosed Hkept Hknown]. case_decide as Hw.
  - destruct (IH queue walked wit) as (w' & k' & -> & Hsub & Hq & Hg'); [|lia|].
    { split; [|done|done]. intros h m h' Hh Hm Hin. destruct (Hclosed h m h' Hh Hm Hin) as [?|[->|?]%elem_of_cons]; auto. }
    exists w', k'. split_and!; [done|done| |done]. intros h [->|Hh]%elem_of_cons; auto.
  - cbv zeta. destruct (known_ !! hash) as [m|] eqn:Hm.
    + assert (size (dom known_ ∖ ({[hash]} ∪ walked)) < size (dom known_ ∖ walked))%nat.
      { apply subset_size. split; [set_solver|]. intros Hs. assert (hash ∈ dom known_) by by apply elem_of_dom_2 in Hm. set_solver. }
      pose proof (child_hashes_length m). set (wit2 := if decide (hash ∈ carried) then wit else wit ++ [m]).
      assert (∀ x, x ∈ wit → x ∈ wit2) as Hold by (intros x Hx; unfold wit2; case_decide; [done|]; apply elem_of_app; by left).
      destruct (IH (reverse (child_hashes m) ++ queue) ({[hash]} ∪ walked) wit2) as (w' & k' & -> & Hsub & Hq & Hg').
      * split.
        -- intros h m' h' Hh Hm' Hin. rewrite elem_of_app, elem_of_reverse. apply elem_of_union in Hh as [->%elem_of_singleton|Hh].
           { rewrite Hm in Hm'. injection Hm' as <-. auto. }
           destruct (Hclosed h m' h' Hh Hm' Hin) as [?|[->|?]%elem_of_cons]; [left; set_solver|left; set_solver|auto].
        -- intros h m' Hh Hm'. apply elem_of_union in Hh as [->%elem_of_singleton|Hh].
           { rewrite Hm in Hm'. injection Hm' as <-. unfold wit2. case_decide; [by left|right]. apply elem_of_app. right. by left. }
           destruct (Hkept h m' Hh Hm'); auto.
        -- intros m' Hm'. unfold wit2 in Hm'. case_decide; [by apply Hknown|]. apply elem_of_app in Hm' as [?| ->%list_elem_of_singleton]; [by apply Hknown|by exists hash].
      * rewrite length_app, length_reverse. lia.
      * exists w', k'. split_and!; [done|set_solver| |done]. intros h [->|Hh]%elem_of_cons; [set_solver|]. apply Hq, elem_of_app. by right.
    + destruct (IH queue ({[hash]} ∪ walked) wit) as (w' & k' & -> & Hsub & Hq & Hg').
      * split; [|intros h m' Hh Hm'|done].
        -- intros h m' h' Hh Hm' Hin. apply elem_of_union in Hh as [->%elem_of_singleton|Hh]; [congruence|].
           destruct (Hclosed h m' h' Hh Hm' Hin) as [?|[->|?]%elem_of_cons]; [left; set_solver|left; set_solver|auto].
        -- apply elem_of_union in Hh as [->%elem_of_singleton|Hh]; [congruence|]. by apply (Hkept h).
      * assert (size (dom known_ ∖ ({[hash]} ∪ walked)) ≤ size (dom known_ ∖ walked))%nat by (apply subseteq_size; set_solver). lia.
      * exists w', k'. split_and!; [done|set_solver| |done]. intros h [->|Hh]%elem_of_cons; [set_solver|auto].
Qed.

Lemma gather_root root : ∃ walked wit, gather (gather_fuel known_) known_ carried [root] ∅ [] = Some wit ∧
  root ∈ walked ∧ gathered [] walked wit.
Proof using Type.
  destruct (gather_run (gather_fuel known_) [root] ∅ []) as (w & k & Hg & _ & Hq & Hgd).
  - split; [set_solver|set_solver|]. intros m Hm. by apply elem_of_nil in Hm.
  - unfold gather_fuel. rewrite difference_empty_L, size_dom. simpl. lia.
  - exists w, k. split_and!; [done| |done]. apply Hq. by left.
Qed.

End gathering.

(** ** What a traversal reads *)

Definition only_values (lg : Log) : Prop := Forall (λ e, e.1 = ForValue) lg.

Section logs.
Context `{Keccak} {St : Type} `{TrieStore St} (store : St).

Lemma get_only_values k : only_values (get_logged ForValue store k).2.
Proof using Type. unfold get_logged. destruct (ts_get store k); repeat constructor. Qed.

Lemma child_log_values (rec : bytes → Log) present embedded r : (∀ d, only_values (rec d)) → only_values (child_log rec present embedded r).
Proof using Type.
  intros Hr. unfold child_log. destruct (present && embedded); [|constructor]. destruct (reader_byte r) as [[len r']|]; [|constructor].
  destruct (reader_take _ r') as [[body ?]|]; [apply Hr|constructor].
Qed.

Lemma parse_log_values fuel : ∀ data, only_values (parse_log fuel store data).
Proof using Type.
  induction fuel as [|fuel IH]; intros data; [constructor|]. cbn [parse_log]. unfold node_log.
  destruct (reader_byte _) as [[flags r]|]; [|constructor]. cbv zeta. destruct (reader_shared_path _ r) as [[? r1]|]; [|constructor].
  apply Forall_app. split; [by apply child_log_values|]. destruct (reader_child _ _ _ r1) as [[? r2]|]; [|constructor].
  apply Forall_app. split; [by apply child_log_values|]. destruct (reader_child _ _ _ r2) as [[? r3]|]; [|constructor].
  match goal with |- Forall _ (match ?o with _ => _ end) => destruct o as [[? r4]|] end; [|constructor]. unfold value_log. destruct (mask_set _ _); [|constructor].
  destruct (reader_take 32 r4) as [[vh r5]|]; [|constructor]. destruct (reader_take 3 r5); [apply get_only_values|constructor].
Qed.

Lemma long_values_only n : only_values (long_values_of store n).2.
Proof using Type.
  induction n as [n IHl IHr] using node_rect'. rewrite long_values_of_eq. cbv zeta. rewrite !lbind_snd. apply Forall_app. split.
  { unfold own_long_value. destruct (has_long_value n); [|constructor]. destruct (value n); [constructor|].
    destruct (value_hash n); [|constructor]. rewrite lbind_snd. apply Forall_app. split; [apply get_only_values|constructor]. }
  apply Forall_app. split.
  - destruct (left_ref n) as [| |c]; [constructor|constructor|]. destruct (is_embeddable c); [by apply IHl|constructor].
  - apply Forall_app. split; [|constructor]. destruct (right_ref n) as [| |c]; [constructor|constructor|].
    destruct (is_embeddable c); [by apply IHr|constructor].
Qed.

(** A child with an entry of its own is read, and nothing else but long values. *)
Lemma resolve_reads t b c : Stored store t → child t b = Some c → is_embeddable (mem c) = false →
  ∃ lg, resolve_logged store (load_ref store (Some c)) = (Some (load store c), node_read c :: lg) ∧ only_values lg.
Proof using Type.
  intros Hst Hc He. pose proof (compat_refl store) as Hrefl. pose proof (child_own store t b c Hst Hc He) as Ho.
  simpl. rewrite He. unfold resolve_logged, get_logged, hash_of. rewrite (Ho : ts_get store _ = _).
  unfold lbind, try_from_message_logged. cbn [fst snd app]. rewrite (parse_load store store Hrefl) by by eapply stored_child.
  eexists. split; [done|]. apply parse_log_values.
Qed.

End logs.

Section reach.
Context `{Keccak} {St : Type} `{TrieStore St} (store : St) (known_ : gmap bytes bytes) (G : bytes → Prop).
Context (Hsub : ∀ h m, known_ !! h = Some m → ts_get store h = Some m).
Context (HG : ∀ h m h', G h → known_ !! h = Some m → h' ∈ child_hashes m → G h').

(** Of the nodes a log has. *)
Definition all_reads (Q : bytes → Prop) (lg : Log) : Prop := ∀ c, Own store c → node_read c ∈ lg → Q (hash_of c).

Definition noted : Log → Prop := all_reads (λ h, is_Some (known_ !! h)).
Definition reached : Log → Prop := all_reads G.

Lemma all_reads_app Q l k : all_reads Q (l ++ k) ↔ all_reads Q l ∧ all_reads Q k.
Proof using Type.
  unfold all_reads. split.
  - intros Hs. split; intros c Ho Hc; (apply Hs; [done|apply elem_of_app]); auto.
  - intros [Hl Hk] c Ho [Hc|Hc]%elem_of_app; auto.
Qed.

Lemma all_reads_values Q lg : only_values lg → all_reads Q lg.
Proof using Type. intros Hlg c _ Hc. by apply (proj1 (Forall_forall _ _) Hlg) in Hc. Qed.

Lemma all_reads_nil Q : all_reads Q [].
Proof using Type. apply all_reads_values. constructor. Qed.

Lemma all_reads_cons Q d lg : Own store d → only_values lg → all_reads Q (node_read d :: lg) ↔ Q (hash_of d).
Proof using Type.
  intros Hd Hlg. split; [intros Hq; apply Hq; [done|by left]|]. intros Hq c Ho Hc.
  apply elem_of_cons in Hc as [[= -> _]|Hc]; [done|]. by apply (all_reads_values Q lg Hlg c).
Qed.

(** A node of the trie that was reached and noted. *)
Record visited (c : tree) : Prop := {
  vi_stored : Stored store c;
  vi_own : Own store c;
  vi_reached : G (hash_of c);
  vi_noted : is_Some (known_ !! hash_of c);
}.

Lemma reach_child c b d : visited c → child c b = Some d → is_embeddable (mem d) = false → G (hash_of d).
Proof using Hsub HG.
  intros [Hst Ho Hg [m Hm]] Hd He. pose proof (Hsub _ _ Hm) as Hs. unfold hash_of in Hs. rewrite (Ho : ts_get store _ = _) in Hs. injection Hs as <-.
  apply (HG _ _ _ Hg Hm). pose proof (empty_compat store) as Hce. unfold child_hashes. rewrite (parse_load store mkEmptyStore Hce) by done.
  rewrite (load_left store mkEmptyStore Hce), (load_right store mkEmptyStore Hce) by done. apply elem_of_app.
  destruct b; simpl in Hd; rewrite Hd; cbn [load_ref]; rewrite He; [right|left]; by left.
Qed.

Lemma resolve_reach t b c : visited t → child t b = Some c → is_embeddable (mem c) = false →
  let m := resolve_logged store (load_ref store (Some c)) in
  noted m.2 → reached m.2 ∧ m.1 = Some (load store c) ∧ visited c.
Proof using Hsub HG.
  intros Hv Hc He m. pose proof Hv as [Hst _ _ _]. destruct (resolve_reads store t b c Hst Hc He) as (lg & Hm & Hlg). unfold m. rewrite Hm.
  pose proof (child_own store t b c Hst Hc He) as Ho. pose proof (reach_child t b c Hv Hc He).
  cbn [fst snd]. unfold noted, reached. rewrite !all_reads_cons by done. intros Hn. split_and!; [done|done|].
  split; [by eapply stored_child|done|done|done].
Qed.

Lemma branch_reach t b : visited t →
  let m := branch_size store (load_ref store (child t b)) in noted m.2 → reached m.2.
Proof using Hsub HG.
  intros Hv m. pose proof Hv as [Hst _ _ _]. pose proof (load_is_embedded store store (compat_refl store) t b Hst) as Hemb.
  unfold m, branch_size. destruct (child t b) as [c|] eqn:Hc; [|intros _; apply all_reads_nil].
  destruct (is_embeddable (mem c)) eqn:He.
  - rewrite Hemb. cbn [load_ref]. rewrite He. intros _. apply all_reads_nil.
  - rewrite Hemb. pose proof (resolve_reach t b c Hv Hc He) as Hr. cbn [load_ref] in *. rewrite He in *.
    rewrite lbind_snd. cbn [lret snd]. rewrite app_nil_r. intros Hn. by apply Hr.
Qed.

(** The states [seek] and [leftmost] end in. *)
Definition sought (path : list Step) (sk : Seek) : Prop :=
  ∃ tr t0 w, sk = mkSeek (path ++ steps_of store tr) (load store t0) w ∧ visited t0 ∧ Forall visited (lefts tr).

Lemma seek_reach levels : ∀ t path off, visited t → 0 ≤ off →
  let m := seek_loop levels store path (load store t) off in
  noted m.2 → reached m.2 ∧ ∀ sk, m.1 = Some sk → sought path sk.
Proof using Hsub HG.
  pose proof (compat_refl store) as Hrefl.
  induction levels as [|levels IH]; intros t path off Hv Hoff; cbv zeta.
  { intros _. split; [apply all_reads_nil|done]. }
  pose proof Hv as [Hst _ _ _]. cbn [seek_loop]. rewrite (load_left store store Hrefl), (load_right store store Hrefl) by done.
  rewrite lbind_fst, lbind_snd. unfold noted, reached. rewrite !all_reads_app. intros [Hn1 Hn2].
  pose proof (branch_reach t false Hv Hn1) as Hr1. set (lsize := (branch_size _ _).1) in *.
  pose proof (load_is_embedded store store Hrefl t true Hst) as Hembr. pose proof (load_is_embedded store store Hrefl t false Hst) as Hembl. cbn [child] in *.
  destruct (Z.ltb_spec off lsize) as [Hl|Hl].
  - destruct (tleft t) as [c|] eqn:Hc; [|simpl in lsize; lia].
    destruct (is_embeddable (mem c)) eqn:He.
    { unfold lsize, branch_size in Hl. rewrite Hembl in Hl. cbn [load_ref] in Hl. rewrite He in Hl. simpl in Hl. lia. }
    rewrite lbind_fst, lbind_snd in *. rewrite all_reads_app in *. destruct Hn2 as [Hn2 Hn3].
    destruct (resolve_reach t false c Hv Hc He Hn2) as (Hr2 & Hm & Hvc). rewrite Hm in *.
    destruct (IH c (path ++ [mkStep (load store t) true]) off Hvc Hoff Hn3) as [Hr3 Hsk]. split; [done|].
    intros sk Hs. apply Hsk in Hs as (tr & t0 & w & -> & Ht0 & Hlefts). exists ((t, true) :: tr), t0, w.
    split_and!; [by rewrite <- app_assoc|done|]. rewrite lefts_cons. apply Forall_app. split; [done|by constructor].
  - match goal with |- context [off <? ?x] => destruct (Z.ltb_spec off x) as [Hx|Hx] end.
    { split; [split; [done|apply all_reads_nil]|]. intros sk [= <-]. exists [], t, (off - lsize). rewrite app_nil_r.
      split_and!; [done|done|constructor]. }
    rewrite Hembr in *. destruct (tright t) as [c|] eqn:Hc; [|by split; [split; [done|apply all_reads_nil]|]].
    destruct (is_embeddable (mem c)) eqn:He.
    { rewrite orb_true_r in *. by split; [split; [done|apply all_reads_nil]|]. }
    destruct (ref_is_empty _); [by split; [split; [done|apply all_reads_nil]|]|]. cbn [orb] in *.
    rewrite lbind_fst, lbind_snd in *. rewrite all_reads_app in *. destruct Hn2 as [Hn2 Hn3].
    destruct (resolve_reach t true c Hv Hc He Hn2) as (Hr2 & Hm & Hvc). rewrite Hm in *.
    edestruct (IH c (path ++ [mkStep (load store t) false])) as [Hr3 Hsk]; [done| |exact Hn3|]; [lia|]. split; [done|].
    intros sk Hs. apply Hsk in Hs as (tr & t0 & w & -> & Ht0 & Hlefts). exists ((t, false) :: tr), t0, w.
    split_and!; [by rewrite <- app_assoc|done|]. rewrite lefts_cons. cbn [snd]. by rewrite app_nil_r.
Qed.

Lemma leftmost_reach fuel : ∀ t ts, visited t → Forall visited ts →
  let m := leftmost fuel store (load store t) (load store <$> ts) in
  noted m.2 → reached m.2 ∧
    ∀ x, m.1 = Some x → ∃ c ts', x = (load store c, load store <$> ts') ∧ visited c ∧ Forall visited ts'.
Proof using Hsub HG.
  pose proof (compat_refl store) as Hrefl.
  induction fuel as [|fuel IH]; intros t ts Hv Hts; cbv zeta; [intros _; split; [apply all_reads_nil|done]|].
  pose proof Hv as [Hst _ _ _]. cbn [leftmost]. rewrite (left_opens store store Hrefl), (load_left store store Hrefl) by done.
  assert (∀ x, Some (load store t, load store <$> ts) = Some x →
    ∃ c ts', x = (load store c, load store <$> ts') ∧ visited c ∧ Forall visited ts') as Hself by (intros x [= <-]; by exists t, ts).
  destruct (tleft t) as [c|] eqn:Hc; [|intros _; split; [apply all_reads_nil|done]].
  destruct (is_embeddable (mem c)) eqn:He; cbn [negb]; [intros _; split; [apply all_reads_nil|done]|].
  rewrite lbind_fst, lbind_snd. unfold noted, reached. rewrite !all_reads_app. intros [Hn1 Hn2].
  destruct (resolve_reach t false c Hv Hc He Hn1) as (Hr & Hm & Hvc). rewrite Hm in *.
  destruct (IH c (t :: ts) Hvc (Forall_cons_2 _ _ _ Hv Hts) Hn2) as [Hr2 Hx]. done.
Qed.

Lemma loop_reach stop max_nodes fuel : ∀ out used at_ ts pend desc, Forall visited ts →
  (∀ t, pend = Some t → visited t) →
  (∀ c, desc = Some c → ∃ t b, visited t ∧ child t b = Some c ∧ is_embeddable (mem c) = false) →
  let m := loop store fuel stop max_nodes out used at_ ts pend desc in noted m.2 → reached m.2.
Proof using Hsub HG.
  pose proof (compat_refl store) as Hrefl.
  induction fuel as [|fuel IH]; intros out used at_ ts pend desc Hts Hpend Hdesc; cbv zeta; [intros _; apply all_reads_nil|].
  assert (∀ t us, visited t → Forall visited us → noted (emit store fuel stop max_nodes out used at_ t us).2 →
    reached (emit store fuel stop max_nodes out used at_ t us).2) as Hemit.
  { intros t us Hv Hus. unfold emit. cbv zeta. cbn [snd]. unfold noted, reached. rewrite !all_reads_app. intros [_ Hn].
    split; [apply all_reads_values, long_values_only|]. destruct (halts _ _ _ _ _ _); [apply all_reads_nil|].
    apply IH; [done|done| |exact Hn]. intros c. unfold open_child. destruct (tright t) as [c'|] eqn:Hc; [|done].
    destruct (is_embeddable (mem c')) eqn:He; [done|]. intros [= <-]. by exists t, true. }
  assert (loop_state store ts pend desc) as Hls.
  { split; [|intros t Ht; by apply Hpend in Ht as []|].
    - eapply Forall_impl; [exact Hts|]. by intros t [].
    - intros c Hc. destruct (Hdesc c Hc) as (t & b & [] & ? & ?). by exists t, b. }
  rewrite (loop_eq store store Hrefl) by done. destruct pend as [t|]; [apply Hemit; [by apply Hpend|done]|].
  destruct desc as [c|].
  2: { destruct ts as [|t ts]; [intros _; apply all_reads_nil|]. inversion Hts; subst. by apply Hemit. }
  destruct (Hdesc c eq_refl) as (t & b & Hv & Hc & He). rewrite lbind_snd. unfold noted, reached. rewrite !all_reads_app.
  intros [Hn1 Hn2]. destruct (resolve_reach t b c Hv Hc He Hn1) as (Hr & Hm & Hvc). split; [done|]. rewrite Hm in *.
  rewrite lbind_snd in *. rewrite all_reads_app in *. destruct Hn2 as [Hn2 Hn3].
  destruct (leftmost_reach fuel c ts Hvc Hts Hn2) as [Hr2 Hx]. split; [done|].
  destruct (leftmost fuel store (load store c) (load store <$> ts)).1 as [x|]; [|apply all_reads_nil].
  destruct (Hx x eq_refl) as (y & us & -> & Hy & Hus). pose proof Hy as [Hsy _ _ _].
  rewrite (emit_eq store store Hrefl) in * by done. by apply Hemit.
Qed.

(** Every node [collect] reads is reached from the root through those it has read. *)
Lemma collect_reach fuel t off stop max_nodes : visited t → 0 ≤ off →
  let m := collect fuel store (load store t) off stop max_nodes in noted m.2 → reached m.2.
Proof using Hsub HG.
  intros Hv Hoff. cbv zeta. unfold collect, seek. destruct (is_empty_trie _); [intros _; apply all_reads_nil|].
  rewrite lbind_snd. unfold noted, reached. rewrite !all_reads_app. intros [Hn1 Hn2].
  destruct (seek_reach SEEK_LEVELS t [] off Hv Hoff Hn1) as [Hr1 Hsk]. split; [done|].
  destruct (seek_loop SEEK_LEVELS store [] (load store t) off).1 as [sk|]; [|apply all_reads_nil].
  destruct (Hsk sk eq_refl) as (tr & t0 & w & -> & Ht0 & Hlefts). cbn [seek_path seek_node within app] in *.
  rewrite owing_steps in *. apply (loop_reach stop max_nodes fuel [] 0 (off - w) (lefts tr) (Some t0) None); [done|by intros ? [= <-]|done|exact Hn2].
Qed.

End reach.

(** The records of a log are the store's. *)
Section genuine.
Context `{Keccak} {St : Type} `{TrieStore St} (store : St).

Definition genuine (lg : Log) : Prop := Forall (λ e, ts_get store e.2.1 = Some e.2.2) lg.

Lemma genuine_bind {A B} (m : Logged A) (f : A → Logged B) : genuine m.2 → (∀ a, genuine (f a).2) → genuine (lbind m f).2.
Proof using Type. intros Hm Hf. rewrite lbind_snd. apply Forall_app. split; [exact Hm|apply Hf]. Qed.

Lemma get_genuine p k : genuine (get_logged p store k).2.
Proof using Type. unfold get_logged. destruct (ts_get store k) eqn:Hk; repeat constructor. exact Hk. Qed.

Lemma parse_genuine fuel : ∀ data, genuine (parse_log fuel store data).
Proof using Type.
  induction fuel as [|fuel IH]; intros data; [constructor|].
  assert (∀ present embedded r, genuine (child_log (parse_log fuel store) present embedded r)) as Hc.
  { intros present embedded r. unfold child_log. destruct (present && embedded); [|constructor]. destruct (reader_byte r) as [[len r']|]; [|constructor].
    destruct (reader_take _ r') as [[body ?]|]; [apply IH|constructor]. }
  cbn [parse_log]. unfold node_log.
  destruct (reader_byte _) as [[flags r]|]; [|constructor]. cbv zeta. destruct (reader_shared_path _ r) as [[? r1]|]; [|constructor].
  apply Forall_app. split; [apply Hc|]. destruct (reader_child _ _ _ r1) as [[? r2]|]; [|constructor].
  apply Forall_app. split; [apply Hc|]. destruct (reader_child _ _ _ r2) as [[? r3]|]; [|constructor].
  match goal with |- Forall _ (match ?o with _ => _ end) => destruct o as [[? r4]|] end; [|constructor]. unfold value_log. destruct (mask_set _ _); [|constructor].
  destruct (reader_take 32 r4) as [[vh r5]|]; [|constructor]. destruct (reader_take 3 r5); [apply get_genuine|constructor].
Qed.

Lemma resolve_genuine r : genuine (resolve_logged store r).2.
Proof using Type.
  destruct r as [|h|n]; [constructor| |constructor]. apply genuine_bind; [apply get_genuine|].
  intros [data|]; [apply parse_genuine|constructor].
Qed.

Lemma branch_genuine r : genuine (branch_size store r).2.
Proof using Type.
  unfold branch_size. destruct r as [|h|n]; [constructor|..]; (destruct (is_embedded _); [constructor|]);
    (apply genuine_bind; [apply resolve_genuine|intros ?; constructor]).
Qed.

Lemma seek_genuine levels : ∀ path n off, genuine (seek_loop levels store path n off).2.
Proof using Type.
  induction levels as [|levels IH]; intros path n off; [constructor|]. cbn [seek_loop].
  apply genuine_bind; [apply branch_genuine|]. intros lsize. destruct (off <? lsize).
  - apply genuine_bind; [apply resolve_genuine|]. intros [next|]; [apply IH|constructor].
  - destruct (off <? _); [constructor|]. destruct (_ || _); [constructor|].
    apply genuine_bind; [apply resolve_genuine|]. intros [next|]; [apply IH|constructor].
Qed.

Lemma long_values_genuine n : genuine (long_values_of store n).2.
Proof using Type.
  induction n as [n IHl IHr] using node_rect'. rewrite long_values_of_eq. cbv zeta. apply genuine_bind.
  { unfold own_long_value. destruct (has_long_value n); [|constructor]. destruct (value n); [constructor|].
    destruct (value_hash n); [|constructor]. apply genuine_bind; [apply get_genuine|intros ?; constructor]. }
  intros own. apply genuine_bind.
  - destruct (left_ref n) as [| |c]; [constructor|constructor|]. destruct (is_embeddable c); [by apply IHl|constructor].
  - intros l. apply genuine_bind; [|intros ?; constructor]. destruct (right_ref n) as [| |c]; [constructor|constructor|].
    destruct (is_embeddable c); [by apply IHr|constructor].
Qed.

Lemma leftmost_genuine fuel : ∀ n stack, genuine (leftmost fuel store n stack).2.
Proof using Type.
  induction fuel as [|fuel IH]; intros n stack; [constructor|]. cbn [leftmost]. destruct (_ && _); [|constructor].
  apply genuine_bind; [apply resolve_genuine|]. intros [next|]; [apply IH|constructor].
Qed.

Lemma collect_loop_genuine stop max_nodes fuel : ∀ out used at_ stack pending descend,
  genuine (collect_loop fuel store stop max_nodes out used at_ stack pending descend).2.
Proof using Type.
  induction fuel as [|fuel IH]; intros out used at_ stack pending descend; [constructor|]. cbn [collect_loop].
  assert (∀ n stack, genuine (lbind (long_values_of store n) (λ values,
    let entry := mkStreamNode at_ (stream_size n) (to_message n) values in
    if halts stop max_nodes out used at_ (wire_len entry) then lret (Some out)
    else collect_loop fuel store stop max_nodes (out ++ [entry]) (u64 (used + wire_len entry))
           (u64 (at_ + span entry)) stack None (right_pending n))).2) as Hemit.
  { intros n us. apply genuine_bind; [apply long_values_genuine|]. intros values. cbv zeta. destruct (halts _ _ _ _ _ _); [constructor|apply IH]. }
  destruct pending as [n|]; [apply Hemit|]. destruct descend as [r|]; [|destruct stack; [constructor|apply Hemit]].
  apply genuine_bind; [apply resolve_genuine|]. intros [n|]; [|apply IH].
  apply genuine_bind; [apply leftmost_genuine|]. intros [[x us]|]; [apply Hemit|constructor].
Qed.

Lemma collect_genuine fuel n off stop max_nodes : genuine (collect fuel store n off stop max_nodes).2.
Proof using Type.
  unfold collect, seek. destruct (is_empty_trie n); [constructor|]. apply genuine_bind; [apply seek_genuine|].
  intros [sk|]; [apply collect_loop_genuine|constructor].
Qed.

Lemma seen_get lg h m : genuine lg → seen lg !! h = Some m → ts_get store h = Some m.
Proof using Type.
  intros Hlg. unfold seen. assert (∀ h m, (∅ : gmap bytes bytes) !! h = Some m → ts_get store h = Some m) as Hempty.
  { intros h' m' Hm. by rewrite lookup_empty in Hm. }
  revert Hempty. generalize (∅ : gmap bytes bytes). induction Hlg as [|e lg He _ IH]; intros M HM Hm; [by apply HM|]. simpl in Hm.
  eapply IH; [|exact Hm]. intros h' m'. destruct (length e.2.1 =? 32)%nat; [|apply HM].
  intros [[<- <-]|[_ Hh]]%lookup_insert_Some; [done|by apply HM].
Qed.

Lemma seen_has (lg : Log) p h m : (p, (h, m)) ∈ lg → length h = 32%nat → is_Some (seen lg !! h).
Proof using Type.
  intros Hin Hlen. unfold seen. assert (is_Some ((∅ : gmap bytes bytes) !! h) ∨ (p, (h, m)) ∈ lg) as Hor by by right.
  clear Hin. revert Hor. generalize (∅ : gmap bytes bytes). induction lg as [|e lg IH]; intros M [Hs|Hin].
  - done.
  - by apply elem_of_nil in Hin.
  - apply IH. left. destruct (length e.2.1 =? 32)%nat; [|done]. rewrite lookup_insert_is_Some. destruct (decide (e.2.1 = h)); auto.
  - apply elem_of_cons in Hin as [<-|Hin]; [|apply IH; by right]. cbn [foldl fst snd]. rewrite Hlen. apply IH. left.
    rewrite Nat.eqb_refl, lookup_insert_eq. by eexists.
Qed.

End genuine.

(** ** Runs as lists of nodes *)

Section run_nodes.
Context `{Keccak}.

Lemma take_layout have_ k l : ∀ at_, take k (layout have_ at_ l) = layout have_ at_ (take k l).
Proof. revert k. induction l as [|t l IH]; intros [|k] at_; simpl; [done..|]. by rewrite IH. Qed.

(** A run is some nodes of the traversal in a row, however it was cut. *)
Lemma run_nodes t from stop max_nodes : sized t → 0 ≤ from < node_size (mem t) →
  ∃ at_ xs, xs ≠ [] ∧ sublist xs (inorder t) ∧ run_from everything t from stop max_nodes = layout everything at_ xs ∧
    ∀ have_, run_at have_ t from (length xs) = layout have_ at_ xs.
Proof.
  intros Hsz Hfrom.
  destruct (stream_at t from Hsz Hfrom) as (tr & t0 & w & pre & rest & Hseek & Hrest & Hino & _ & Hpre & Hw & Hp0 & Hbound & _ & Hpos).
  destruct (cut_prefix everything stop max_nodes rest [] 0 (spans pre) Hpos Hp0 Hbound) as (k & Hcut & Hk & Hk0).
  exists (spans pre), (take k rest). assert (rest ≠ []) as Hne by by subst rest. pose proof (Hk0 eq_refl Hne) as Hkpos. split_and!.
  - destruct rest; [done|]. by destruct k; [lia|].
  - rewrite Hino. apply sublist_inserts_l, sublist_take.
  - unfold run_from. rewrite Hseek, <- Hrest, <- Hpre, Hcut. apply take_layout.
  - intros have_. unfold run_at, run_from. rewrite Hseek, <- Hrest, <- Hpre. rewrite length_take.
    rewrite cut_count; [|done|lia|lia|lia|simpl; lia]. cbn [app length]. rewrite Nat.sub_0_r, take_layout. f_equal.
    rewrite Nat.min_l by done. done.
Qed.

Lemma layout_values have_ l : ∀ at_, (∀ x, x ∈ l → entry_values have_ x = entry_values everything x) →
  layout have_ at_ l = layout everything at_ l.
Proof.
  induction l as [|t l IH]; intros at_ Hv; [done|]. cbn [layout]. f_equal.
  - unfold entry. f_equal. apply Hv. by left.
  - apply IH. intros x Hx. apply Hv. by right.
Qed.

Lemma inorder_own {St} `{TrieStore St} (store : St) t : Stored store t → Own store t → Forall (Own store) (inorder t).
Proof.
  induction t as [p v l r IHl IHr] using tree_rect'. intros Hst Hown. rewrite inorder_eq. cbn [tleft tright].
  assert (∀ b o, o = child (mkTree p v l r) b → (∀ c, o = Some c → Stored store c → Own store c → Forall (Own store) (inorder c)) →
    Forall (Own store) (opened o)) as Hop.
  { intros b [c|] Ho IH; [|by constructor]. simpl. destruct (is_embeddable (mem c)) eqn:He; [by constructor|].
    apply IH; [done|by eapply stored_child|by eapply child_own]. }
  apply Forall_app. split; [by apply (Hop false)|]. constructor; [done|by apply (Hop true)].
Qed.

Lemma entry_values_stored {St} `{TrieStore St} (store : St) x v : Stored store x → v ∈ entry_values everything x →
  ts_get store (keccak v) = Some v.
Proof.
  assert (∀ y, Stored store y → v ∈ own_values everything y → ts_get store (keccak v) = Some v) as Hown.
  { intros y [y' _ Hl _ _]. unfold own_values, everything. destruct (tval y') as [w|] eqn:Hw; [|by intros ?%elem_of_nil].
    rewrite andb_true_r. destruct (Nat.ltb_spec 32 (length w)); [|by intros ?%elem_of_nil].
    intros ->%list_elem_of_singleton. by apply Hl. }
  intros Hst. assert (∀ b, v ∈ embedded_values everything (child x b) → ts_get store (keccak v) = Some v) as Hemb.
  { intros b. destruct (child x b) as [c|] eqn:Hc; [|by intros ?%elem_of_nil]. simpl.
    destruct (is_embeddable (mem c)); [|by intros ?%elem_of_nil]. apply Hown. by eapply stored_child. }
  unfold entry_values. rewrite !elem_of_app. intros [?|[?|?]]; [by apply (Hown x)|by apply (Hemb false)|by apply (Hemb true)].
Qed.

End run_nodes.

(** ** A proof of a run *)

Section honest.
Context `{Keccak} {St : Type} `{TrieStore St} (store : St) (t : tree) (V : gset bytes).
Context (Hrd : Readable store t) (Hown : Own store t) (Hdist : distinct V) (Hheld : held_in V store).
Context (xs : list tree) (Hxs : sublist xs (inorder t)) (lg : Log) (Hlg : genuine store lg).

Definition entries_of (l : list tree) : list Entry := (λ x, mkEntry (to_message (mem x)) (entry_values everything x)) <$> l.

Definition known_of : gmap bytes bytes :=
  insert_message (foldl insert_message (seen lg) (entry_message <$> entries_of xs)) (to_message (mem t)).

Definition carried_of : gset bytes := list_to_set ((λ e, keccak (entry_message e)) <$> entries_of xs).

Lemma run_stored x : x ∈ xs → Stored store x ∧ Own store x.
Proof using Hrd Hown Hxs.
  intros Hx. pose proof Hrd as [Hst _ _ _]. assert (x ∈ inorder t) as Hin by by eapply elem_of_sublist.
  split; [exact (proj1 (Forall_forall _ _) (inorder_stored store t Hst) x Hin)|].
  exact (proj1 (Forall_forall _ _) (inorder_own store t Hst Hown) x Hin).
Qed.

Lemma known_store h m : known_of !! h = Some m → ts_get store h = Some m.
Proof using Hrd Hown Hxs Hlg.
  unfold known_of, insert_message at 1. intros [[<- <-]|[_ Hm]]%lookup_insert_Some; [done|].
  apply inserted_get in Hm as [[Hm ->]|Hm]; [|by eapply seen_get].
  unfold entries_of in Hm. rewrite <- list_fmap_compose in Hm. apply list_elem_of_fmap in Hm as (x & -> & Hx). by apply run_stored.
Qed.

Lemma known_root : is_Some (known_of !! hash_of t).
Proof using Type. unfold known_of, insert_message at 1, hash_of. rewrite lookup_insert_eq. by eexists. Qed.

Lemma known_noted lg' : lg' ⊆ lg → noted store known_of lg'.
Proof using Type.
  intros Hsub c _ Hc. unfold known_of, insert_message at 1. rewrite lookup_insert_is_Some.
  destruct (decide (keccak (to_message (mem t)) = hash_of c)) as [|Hne]; [by left|right]. split; [done|].
  apply inserted_has. left. eapply seen_has; [by apply Hsub, Hc|apply length_keccak].
Qed.

(** The proof with what [gather] found. *)
Section witnessed.
Context (walked : gset bytes) (wit : list bytes).
Context (Hroot : hash_of t ∈ walked) (Hg : gathered known_of carried_of [] walked wit).

Definition made : ChunkProof := mkChunkProof (entries_of xs) (sort_unstable wit).

Lemma made_entry x : x ∈ xs → mkEntry (to_message (mem x)) (entry_values everything x) ∈ entries made.
Proof using Type. intros Hx. simpl. unfold entries_of. apply list_elem_of_fmap. by exists x. Qed.

Lemma made_records m : m ∈ proof_records made → ∃ h, ts_get store h = Some m.
Proof using Hrd Hown Hxs Hlg Hg.
  unfold proof_records. rewrite !elem_of_app. intros [Hm|[Hm|Hm]].
  - assert (m ∈ wit) as Hw by by rewrite <- (merge_sort_Permutation bytes_le wit).
    apply (ga_known _ _ _ _ _ Hg) in Hw as [h Hh]. exists h. by apply known_store.
  - simpl in Hm. unfold entries_of in Hm. rewrite <- list_fmap_compose in Hm. apply list_elem_of_fmap in Hm as (x & -> & Hx).
    eexists. by apply run_stored.
  - apply list_elem_of_In, in_concat in Hm as (vs & Hvs%list_elem_of_In & Hin%list_elem_of_In).
    simpl in Hvs. unfold entries_of in Hvs. rewrite <- list_fmap_compose in Hvs. apply list_elem_of_fmap in Hvs as (x & -> & Hx).
    exists (keccak m). eapply entry_values_stored; [by apply run_stored|exact Hin].
Qed.

Lemma made_apart : apart_from V store made.
Proof using Type*.
  split_and!; [done|done|]. intros m Hm. apply made_records in Hm as [h Hh]. by eapply Hheld.
Qed.

Lemma made_has c : Own store c → hash_of c ∈ walked → is_Some (known_of !! hash_of c) → is_Some (ts_get (store_of made) (hash_of c)).
Proof using Type*.
  intros Ho Hw [m Hm]. apply store_of_has. unfold proof_records. rewrite !fmap_app, !elem_of_app.
  destruct (ga_kept _ _ _ _ _ Hg _ m Hw Hm) as [Hc|Hin].
  - right. left. unfold carried_of in Hc. apply elem_of_list_to_set in Hc. by rewrite <- list_fmap_compose.
  - left. apply known_store in Hm. unfold hash_of in Hm. rewrite (Ho : ts_get store _ = _) in Hm. injection Hm as <-.
    apply (list_elem_of_fmap_2 keccak). cbn [witness made]. unfold sort_unstable. by rewrite merge_sort_Permutation.
Qed.

Lemma made_compat : compat (store_of made) store.
Proof using Type*. exact (proof_compat V store made made_apart). Qed.

Lemma made_root : ts_get (store_of made) (hash_of t) = Some (to_message (mem t)).
Proof using Type*.
  destruct (made_has t Hown Hroot known_root) as [m Hm]. rewrite Hm. f_equal. by eapply made_compat.
Qed.

(** The replay has every node the server's traversal read. *)
Lemma made_served fuel off stop max_nodes : 0 ≤ off →
  let m := collect fuel store (load store t) off stop max_nodes in m.2 ⊆ lg → served store (store_of made) m.2.
Proof using Type*.
  intros Hoff m Hsub c Ho Hc. pose proof (known_noted m.2 Hsub) as Hn. apply made_has; [done| |by apply Hn].
  refine (collect_reach store known_of (λ h, h ∈ walked) known_store _ fuel t off stop max_nodes _ Hoff Hn c Ho Hc).
  - intros h m' h' Hh Hm' Hin. destruct (ga_closed _ _ _ _ _ Hg h m' h' Hh Hm' Hin) as [?|Hnil]; [done|by apply elem_of_nil in Hnil].
  - pose proof Hrd as [Hst _ _ _]. split; [done|done|done|exact known_root].
Qed.

Lemma entry_checked x : x ∈ xs → check_long_values (mkEntry (to_message (mem x)) (entry_values everything x)) = true.
Proof using Hrd Hown Hxs.
  intros Hx. destruct (run_stored x Hx) as [Hst _]. destruct (wanted_values store x Hst) as [Hp Hw].
  unfold check_long_values. cbn [entry_message entry_long_values]. rewrite Hp, Hw, length_fmap, Nat.eqb_refl. by apply match_values_ok.
Qed.

Lemma made_checked l i : (∀ x, x ∈ l → x ∈ xs) → check_entries i (entries_of l) = Ok tt.
Proof using Hrd Hown Hxs.
  revert i. induction l as [|x l IH]; intros i Hl; [done|]. cbn [entries_of fmap list_fmap check_entries entry_message].
  destruct (run_stored x) as [Hst _]; [apply Hl; by left|]. destruct (wanted_values store x Hst) as [Hp _]. rewrite Hp.
  rewrite entry_checked by (apply Hl; by left). apply IH. intros y Hy. apply Hl. by right.
Qed.

Lemma made_values x : x ∈ xs → entry_values (have (store_of made)) x = entry_values everything x.
Proof using Hrd Hown Hxs.
  intros Hx. eapply (values_carried store); [by apply run_stored|by apply made_entry|done|by apply entry_checked].
Qed.

Lemma compare_layout have_ l : ∀ at_ i, compare_nodes i (layout have_ at_ l) (entries_of l) = Ok tt.
Proof using Type.
  induction l as [|x l IH]; intros at_ i; [done|]. cbn [layout entries_of fmap list_fmap compare_nodes entry message entry_message].
  rewrite decide_True by done. apply IH.
Qed.

Section replay.
Context (fuel : nat) (from : Z) (stop : Stop) (max_nodes : Z) (at_ : Z).
Context (Hfrom : 0 ≤ from) (Hfuel : (length (inorder t) < fuel)%nat).
Context (Hrun : run_from everything t from stop max_nodes = layout everything at_ xs).
Context (Hcount : ∀ have_, run_at have_ t from (length xs) = layout have_ at_ xs).
Context (Hreads : (collect fuel store (load store t) from stop max_nodes).2 ⊆ lg).

Lemma made_replay :
  (chunk_from_limited fuel (store_of made) (load (store_of made) t) from U64_MAX (Z.of_nat (length xs))).1
  = Some (layout everything at_ xs).
Proof using Type*.
  assert (run_from (have store) t from stop max_nodes = layout everything at_ xs) as Hrun' by by rewrite run_from_store.
  destruct (collect_run store (store_of made) made_compat (λ a b, length a.1 = length b.1) fuel t from stop max_nodes
    (StopBudget U64_MAX) (Z.of_nat (length xs)) Hrd Hfrom Hfuel eq_refl) as [_ Hsim].
  - intros o us p up a x _. cbn [fst]. intros Hl. by rewrite !length_app, Hl.
  - intros us p up a x _. cbn [fst]. rewrite Hrun', length_layout. intros Hl Hh. unfold halts, is_full, sat_add, U64_MAX.
    destruct (layout everything at_ xs) as [|e l] eqn:Hlay; [done|].
    destruct p as [|e' p]; [rewrite <- (length_layout everything at_ xs), Hlay in Hl; done|].
    rewrite orb_true_iff. right. apply Z.leb_le. lia.
  - unfold chunk_from_limited. rewrite Hsim by by apply made_served.
    change (run_from (have (store_of made)) t from (StopBudget U64_MAX) (Z.of_nat (length xs)))
      with (run_at (have (store_of made)) t from (length xs)).
    rewrite Hcount. f_equal. apply layout_values. intros x Hx. by apply made_values.
Qed.

Lemma made_verifies : xs ≠ [] →
  verify_chunk fuel (hash_of t) from made = Some (Ok (mkVerified (layout everything at_ xs) (node_size (mem t)))).
Proof using Type*.
  intros Hne. pose proof Hrd as [Hst _ _ _]. unfold verify_chunk. cbn [entries made].
  destruct (entries_of xs) as [|e l] eqn:Hent; [by destruct xs|]. rewrite <- Hent.
  rewrite made_checked by done. rewrite made_root, (parse_load store (store_of made) made_compat) by done.
  assert (length (entries_of xs) = length xs) as -> by apply length_fmap. rewrite made_replay.
  rewrite decide_True by apply length_layout. rewrite compare_layout. by rewrite (load_total_size store (store_of made) made_compat).
Qed.
End replay.

End witnessed.
End honest.

(** A proof of a run, by whatever it was cut: it is made, and it is accepted as that run. *)
Lemma proved_run `{Keccak} {St} `{TrieStore St} (store : St) t V n fuel from stop max_nodes :
  Readable store t → Own store t → distinct V → held_in V store → to_message n = to_message (mem t) →
  0 ≤ from < node_size (mem t) → (length (inorder t) < fuel)%nat →
  ∃ p, prove_with (λ r, collect fuel store r from stop max_nodes) store n = Some (Ok p) ∧
    (∀ m, m ∈ proof_records p → m ∈ V) ∧
    verify_chunk fuel (hash_of t) from p
    = Some (Ok (mkVerified (run_from everything t from stop max_nodes) (node_size (mem t)))).
Proof.
  intros Hrd Hown Hdist Hheld Hn Hfrom Hfuel. unfold prove_with. rewrite Hn. unfold try_from_message_logged.
  rewrite (readable_root store t Hrd). pose proof Hrd as [_ _ Hsz _].
  destruct (run_nodes t from stop max_nodes Hsz Hfrom) as (at_ & xs & Hne & Hsub & Hrun & Hcount).
  pose proof (collect_store store fuel t from stop max_nodes Hrd (proj1 Hfrom) Hfuel) as Hres.
  pose proof (collect_genuine store fuel (load store t) from stop max_nodes) as Hgen.
  destruct (collect fuel store (load store t) from stop max_nodes) as [nodes lg'] eqn:Hcol. cbn [fst snd] in *. subst nodes.
  set (lg := parse_log _ store _ ++ lg').
  assert (genuine store lg) as Hlg by (apply Forall_app; split; [apply parse_genuine|done]).
  assert ((λ n, mkEntry (message n) (long_values n)) <$> run_from everything t from stop max_nodes = entries_of xs) as Hent.
  { rewrite Hrun. clear. revert at_. induction xs as [|x xs IH]; intros at_; [done|]. simpl. by rewrite IH. }
  rewrite Hent. cbv zeta.
  destruct (gather_root (known_of t xs lg) (carried_of xs) (hash_of t)) as (walked & wit & Hga & Hroot & Hg).
  unfold known_of, carried_of, hash_of in Hga.  rewrite Hga. eexists. split; [done|].
  split; [exact (proj2 (proj2 (made_apart store t V Hrd Hown Hdist Hheld xs Hsub lg Hlg walked wit Hroot Hg)))|].
  rewrite Hrun. apply (made_verifies store t V Hrd Hown Hdist Hheld xs Hsub lg Hlg walked wit Hroot Hg fuel from stop max_nodes at_); try done; [lia|].
  rewrite Hcol. unfold lg. intros e He. apply elem_of_app. by right.
Qed.

(** ** Theorems *)

(** C6: What a server proves of a trie it holds, a client with its root hash accepts: the proof of
    a cell gives it exactly the entries that meet the range, at their offsets and with their long
    values, and the size of the trie; the proof of a chunk the entries from the offset on, one at
    least. *)
Theorem proofs_roundtrip `{Keccak} {St} `{TrieStore St} (store : St) t V n fuel from :
  Readable store t → Own store t → distinct V → held_in V store → to_message n = to_message (mem t) →
  0 ≤ from < node_size (mem t) → (length (inorder t) < fuel)%nat →
  (∀ to, from < to → ∃ p, prove_cell fuel store n from to = Some (Ok p) ∧
    verify_chunk fuel (hash_of t) from p
    = Some (Ok (mkVerified (filter (λ e, offset e < to) (filter (λ e, from < offset e + span e) (stream t))) (node_size (mem t))))) ∧
  (∀ budget, ∃ p k, (0 < k)%nat ∧ prove_chunk fuel store n from budget = Some (Ok p) ∧
    verify_chunk fuel (hash_of t) from p
    = Some (Ok (mkVerified (take k (filter (λ e, from < offset e + span e) (stream t))) (node_size (mem t))))).
Proof.
  intros Hrd Hown Hdist Hheld Hn Hfrom Hfuel. pose proof Hrd as [_ _ Hsz _]. split.
  - intros to Hto. destruct (proved_run store t V n fuel from (StopOffset to) U64_MAX) as (p & Hp & _ & Hv); try done.
    exists p. split; [exact Hp|]. rewrite Hv, run_until by (done || lia). done.
  - intros budget. destruct (proved_run store t V n fuel from (StopBudget budget) U64_MAX) as (p & Hp & _ & Hv); try done.
    destruct (run_prefix t from (StopBudget budget) U64_MAX Hsz Hfrom) as (k & Hk & Heq). exists p, k.
    split_and!; [done|exact Hp|]. by rewrite Hv, Heq.
Qed.

Section example.
#[local] Existing Instance poly_keccak.

Lemma proofs_roundtrip_witness :
  (∀ to, 60 < to → ∃ p, prove_cell 4 example_store (mem example_trie) 60 to = Some (Ok p) ∧
    verify_chunk 4 (hash_of example_trie) 60 p
    = Some (Ok (mkVerified (filter (λ e, offset e < to) (filter (λ e, 60 < offset e + span e) (stream example_trie))) (node_size (mem example_trie))))) ∧
  (∀ budget, ∃ p k, (0 < k)%nat ∧ prove_chunk 4 example_store (mem example_trie) 60 budget = Some (Ok p) ∧
    verify_chunk 4 (hash_of example_trie) 60 p
    = Some (Ok (mkVerified (take k (filter (λ e, 60 < offset e + span e) (stream example_trie))) (node_size (mem example_trie))))).
Proof.
  apply (proofs_roundtrip example_store example_trie (list_to_set example_strings) (mem example_trie) 4 60).
  - exact example_readable.
  - exact example_own.
  - exact (proj1 example_apart).
  - exact (proj1 (proj2 example_apart)).
  - reflexivity.
  - split; [lia|]. vm_compute. reflexivity.
  - vm_compute. lia.
Defined.
End example.

End SnapshotHonest.
