(* ===== verification/SnapClient.v ===== *)
(** * crates/sync/src/snap/client.rs: downloading a state trie

    A download covers the offsets [0..total] of a trie with slices, each walked front to back by
    one request at a time; an answer is checked against the state root before anything is written.

    - [StateDownload] is the state, with the store it writes to.  The operations return the new
      state beside their result.
    - [None] in [accept] is "out of fuel" for the replay of the check, or the panic of the code on
      a verified chunk without nodes.
    - [verify_stored] has the results that [verify_complete] can have, on any number of threads.
      Logging is left out, and so is turning a wire message into a proof. *)
From S2P Require Import Prelude Path Varint Store Node Snapshot SnapshotProof.
From stdpp Require Import options.

Module SnapClient.
Import Store Node Snapshot SnapshotProof.
Local Open Scope Z_scope.

(** ** Data *)

(** The settings of [SnapConfig] a download depends on. *)
Record SnapConfig := mkSnapConfig {
  chunk_grid : Z;
  chunk_bytes : Z;
  config_in_flight : nat;
}.

Record Slice := mkSlice {
  slice_start : Z;
  cursor : Z;
  slice_end : Z;
  in_flight : bool;
  exact : bool;
}.

Definition wants_work (s : Slice) : bool := negb (in_flight s) && (cursor s <? slice_end s).

Record ChunkRequest := mkChunkRequest { request_from : Z; request_budget : Z }.

Record Progress := mkProgress { progress_nodes : nat; advanced : Z; progress_complete : bool }.

Definition OVERSIZE_FACTOR : Z := 4.

Record RebuiltChunk := mkRebuiltChunk {
  rebuilt_nodes : list (bytes * bytes);
  rebuilt_values : list bytes;
}.

Inductive ChunkError :=
  | Invalid (e : VerifyError)
  | Unsolicited (from : Z)
  | Oversized (asked got : Z).

Inductive StoredError :=
  | RootAbsent (h : bytes)
  | RootMalformed
  | WrongSize (got expected : Z)
  | Lost (m : Missing).

Record StateDownload (St : Type) := mkDownload {
  root_hash : bytes;
  dl_store : St;
  budget : Z;
  grid : Z;
  max_in_flight : nat;
  slices : list Slice;
  total : option Z;
  hinted_total : Z;
  stored_nodes : Z;
  stored_bytes : Z;
}.

#[global] Arguments mkDownload {St}.
#[global] Arguments root_hash {St}.
#[global] Arguments dl_store {St}.
#[global] Arguments budget {St}.
#[global] Arguments grid {St}.
#[global] Arguments max_in_flight {St}.
#[global] Arguments slices {St}.
#[global] Arguments total {St}.
#[global] Arguments hinted_total {St}.
#[global] Arguments stored_nodes {St}.
#[global] Arguments stored_bytes {St}.

Section download.
Context `{Keccak} {St : Type} `{TrieStore St}.
Implicit Types d : StateDownload St.

Definition set_slices d (l : list Slice) : StateDownload St :=
  mkDownload (root_hash d) (dl_store d) (budget d) (grid d) (max_in_flight d) l (total d)
    (hinted_total d) (stored_nodes d) (stored_bytes d).

Definition set_total d (t : Z) : StateDownload St :=
  mkDownload (root_hash d) (dl_store d) (budget d) (grid d) (max_in_flight d) (slices d) (Some t)
    (hinted_total d) (stored_nodes d) (stored_bytes d).

(** ** Slices *)

Definition slice_at (from to step : Z) (count i : nat) : Slice :=
  let start := u64 (from + u64 (step * Z.of_nat i)) in
  let end_ := if (i + 1 =? count)%nat then to else u64 (from + u64 (step * (Z.of_nat i + 1))) in
  mkSlice start start end_ false false.

Definition split (from to : Z) (count : nat) : list Slice :=
  let span := sat_sub to from in
  let count := Z.to_nat (Z.min (Z.of_nat count) (Z.max span 1)) in
  let step := span / Z.of_nat count in
  slice_at from to step count <$> seq 0 count.

Definition on_grid (root : bytes) (hinted : Z) (config : SnapConfig) (grid_ : Z) (store : St)
    : StateDownload St :=
  let workers := Nat.max 1 (config_in_flight config) in
  let hinted := Z.max 1 hinted in
  mkDownload root store (chunk_bytes config)
    (if grid_ =? 0 then Z.max 1 (chunk_grid config) else grid_)
    workers (split 0 hinted workers) None hinted 0 0.

Definition new_download (root : bytes) (hinted : Z) (config : SnapConfig) (store : St) : StateDownload St :=
  on_grid root hinted config (chunk_grid config) store.

(** [Iterator::position]. *)
Fixpoint find_slice (p : Slice → bool) (l : list Slice) : option nat :=
  match l with
  | [] => None
  | s :: l => if p s then Some 0%nat else S <$> find_slice p l
  end.

Definition flying (l : list Slice) : nat := length (filter (λ s, in_flight s = true) l).

Definition aligned (grid_ c : Z) : Z := c / grid_ * grid_.

Definition departed (s : Slice) : Slice :=
  mkSlice (slice_start s) (cursor s) (slice_end s) true (exact s).

Definition next_request d : option ChunkRequest * StateDownload St :=
  if (max_in_flight d <=? flying (slices d))%nat then (None, d)
  else
    match find_slice wants_work (slices d) with
    | None => (None, d)
    | Some i =>
        match slices d !! i with
        | None => (None, d)
        | Some s =>
            (Some (mkChunkRequest (if exact s then cursor s else aligned (grid d) (cursor s)) (budget d)),
             set_slices d (alter departed i (slices d)))
        end
    end.

Definition slice_for d (from : Z) : option nat :=
  match find_slice (λ s, in_flight s && (cursor s =? from)) (slices d) with
  | Some i => Some i
  | None => find_slice (λ s, in_flight s && (aligned (grid d) (cursor s) =? from)) (slices d)
  end.

Definition landed (s : Slice) : Slice :=
  mkSlice (slice_start s) (cursor s) (slice_end s) false (exact s).

Definition release d (from : Z) : StateDownload St :=
  match slice_for d from with
  | Some i => set_slices d (alter landed i (slices d))
  | None => d
  end.

(** ** The size of the trie *)

(** [Ord::clamp], on bounds in order. *)
Definition clamp (x lo hi : Z) : Z := if x <? lo then lo else if hi <? x then hi else x.

Definition trim (t : Z) (s : Slice) : Slice :=
  let end_ := Z.min (slice_end s) t in
  let start := Z.min (slice_start s) end_ in
  mkSlice start (clamp (cursor s) start end_) end_ (in_flight s) (exact s).

Definition adopt_total d (t : Z) : StateDownload St :=
  let d := set_total d t in
  if t =? hinted_total d then d
  else
    let d := set_slices d (trim t <$> slices d) in
    if hinted_total d <? t then
      set_slices d (slices d ++ split (hinted_total d) t (Nat.max 1 (max_in_flight d)))
    else d.

Definition is_complete d : bool :=
  match total d with
  | Some _ => forallb (λ s, slice_end s <=? cursor s) (slices d)
  | None => false
  end.

Definition progress d : Z * option Z :=
  (u64 (foldr (λ s a, sat_sub (Z.min (cursor s) (slice_end s)) (slice_start s) + a) 0 (slices d)), total d).

(** ** Chunks *)

Definition put_value (store : St) (v : bytes) : St := ts_put store (keccak v) v.

Definition put_node (store : St) (n : StreamNode) : St :=
  foldl put_value (ts_put store (keccak (message n)) (message n)) (long_values n).

Definition node_bytes (n : StreamNode) : Z :=
  Z.of_nat (length (message n)) + sum_lengths (long_values n).

Definition keep_nodes d (nodes : list StreamNode) : StateDownload St :=
  mkDownload (root_hash d) (foldl put_node (dl_store d) nodes) (budget d) (grid d) (max_in_flight d)
    (slices d) (total d) (hinted_total d) (u64 (stored_nodes d + Z.of_nat (length nodes)))
    (u64 (foldl (λ a n, a + node_bytes n) (stored_bytes d) nodes)).

(** The slice an answer moves, up to [reached], and by how much. *)
Definition advance (reached : Z) (s : Slice) : Slice :=
  mkSlice (slice_start s) (Z.max reached (cursor s)) (slice_end s) false (reached <=? cursor s).

Definition gain (reached : Z) (s : Slice) : Z :=
  Z.min (sat_sub reached (cursor s)) (u64 (slice_end s - cursor s)).

Definition move_slice d (from reached : Z) : Z * StateDownload St :=
  match slice_for d from with
  | Some i =>
      (match slices d !! i with Some s => gain reached s | None => 0 end,
       set_slices d (alter (advance reached) i (slices d)))
  | None => (0, d)
  end.

Definition answer_size (proof : ChunkProof) : Z :=
  u64 (sum_lengths (entry_message <$> entries proof) + sum_lengths (witness proof)).

Definition oversized d (proof : ChunkProof) : bool :=
  (Z.max (sat_mul 64 (budget d) OVERSIZE_FACTOR) (2 ^ 18) <? answer_size proof) && (1 <? length (entries proof))%nat.

Definition accept (fuel : nat) d (from : Z) (proof : ChunkProof)
    : option (result Progress ChunkError * StateDownload St) :=
  match slice_for d from with
  | None => Some (Err (Unsolicited from), d)
  | Some _ =>
      if oversized d proof then Some (Err (Oversized (budget d) (answer_size proof)), release d from)
      else
        match verify_chunk fuel (root_hash d) from proof with
        | None => None
        | Some (Err e) => Some (Err (Invalid e), release d from)
        | Some (Ok verified) =>
            let d := match total d with None => adopt_total d (verified_total verified) | Some _ => d end in
            let d := keep_nodes d (verified_nodes verified) in
            match last (verified_nodes verified) with
            | None => None
            | Some e =>
                let '(advanced, d) := move_slice d from (end_of e) in
                Some (Ok (mkProgress (length (verified_nodes verified)) advanced (is_complete d)), d)
            end
        end
  end.

Definition keep_rebuilt d (chunk : RebuiltChunk) : StateDownload St :=
  mkDownload (root_hash d)
    (foldl put_value (foldl (λ s e, ts_put s e.1 e.2) (dl_store d) (rebuilt_nodes chunk)) (rebuilt_values chunk))
    (budget d) (grid d) (max_in_flight d) (slices d) (total d) (hinted_total d)
    (u64 (stored_nodes d + Z.of_nat (length (rebuilt_nodes chunk))))
    (u64 (stored_bytes d + sum_lengths (rebuilt_nodes chunk).*2 + sum_lengths (rebuilt_values chunk))).

Definition accept_rebuilt d (from : Z) (chunk : RebuiltChunk) : Progress * StateDownload St :=
  let d := keep_rebuilt d chunk in
  let '(advanced, d) := move_slice d from (sat_add 64 from (grid d)) in
  let d := match total d with None => adopt_total d (hinted_total d) | Some _ => d end in
  (mkProgress (length (rebuilt_nodes chunk)) advanced (is_complete d), d).

(** ** The check of what was stored *)

Definition size_expected d (root : TrieNode) : Prop :=
  match total d with Some expected => total_size root = expected | None => True end.

Inductive verify_stored (fuel : nat) d (threads : nat) : result Z StoredError → Prop :=
  | vs_root_absent :
      ts_get (dl_store d) (root_hash d) = None →
      verify_stored fuel d threads (Err (RootAbsent (root_hash d)))
  | vs_root_malformed message :
      ts_get (dl_store d) (root_hash d) = Some message →
      try_from_message (dl_store d) message = None →
      verify_stored fuel d threads (Err RootMalformed)
  | vs_wrong_size message root expected :
      ts_get (dl_store d) (root_hash d) = Some message →
      try_from_message (dl_store d) message = Some root →
      total d = Some expected → total_size root ≠ expected →
      verify_stored fuel d threads (Err (WrongSize (total_size root) expected))
  | vs_walked message root r :
      ts_get (dl_store d) (root_hash d) = Some message →
      try_from_message (dl_store d) message = Some root →
      size_expected d root → verify_complete fuel (dl_store d) root threads r →
      verify_stored fuel d threads (match r with Ok n => Ok n | Err m => Err (Lost m) end).

End download.

(** ** Runs *)

(** What can happen to a download. *)
Inductive Event :=
  | NextRequest
  | Release (from : Z)
  | Accept (from : Z) (proof : ChunkProof)
  | AcceptRebuilt (from : Z) (chunk : RebuiltChunk).

Section run.
Context `{Keccak} {St : Type} `{TrieStore St}.

Definition dl_step (fuel : nat) (ev : Event) (d : StateDownload St) : option (StateDownload St) :=
  match ev with
  | NextRequest => Some (next_request d).2
  | Release from => Some (release d from)
  | Accept from proof => snd <$> accept fuel d from proof
  | AcceptRebuilt from chunk => Some (accept_rebuilt d from chunk).2
  end.

Fixpoint dl_run (fuel : nat) (evs : list Event) (d : StateDownload St) : option (StateDownload St) :=
  match evs with
  | [] => Some d
  | ev :: evs => match dl_step fuel ev d with Some d => dl_run fuel evs d | None => None end
  end.

(** A round: a request, answered by a peer. *)
Definition dl_round (fuel : nat) (peer : ChunkRequest → ChunkProof) (d : StateDownload St) : option (StateDownload St) :=
  match next_request d with
  | (None, d) => Some d
  | (Some rq, d) => snd <$> accept fuel d (request_from rq) (peer rq)
  end.

Fixpoint dl_rounds (fuel : nat) (peer : ChunkRequest → ChunkProof) (n : nat) (d : StateDownload St) : option (StateDownload St) :=
  match n with
  | O => Some d
  | S n => match dl_round fuel peer d with Some d => dl_rounds fuel peer n d | None => None end
  end.

End run.

End SnapClient.
