(* ===== verification/SnapSlices.v ===== *)
(** * The slices of a download: crates/sync/src/snap/client.rs

    The slices tile the offsets of the trie, from zero to the size the root proves, or to the one
    a peer claimed until that is known; whatever happens to the download.  The arithmetic on them
    does not wrap, and no more requests are out than allowed. *)
From S2P Require Import Prelude Path Varint Store Node Snapshot SnapshotProof SnapClient.
From stdpp Require Import options.

Module SnapSlices.
Import Store Node Snapshot SnapshotProof SnapClient.
Local Open Scope Z_scope.

(** [l] covers [a..b], without gaps or overlaps. *)
Fixpoint tiles (a : Z) (l : list Slice) (b : Z) : Prop :=
  match l with
  | [] => a = b
  | s :: l => slice_start s = a ∧ a ≤ slice_end s ∧ tiles (slice_end s) l b
  end.

Record slice_ok (s : Slice) : Prop := {
  sl_start : 0 ≤ slice_start s;
  sl_cursor : slice_start s ≤ cursor s < 2 ^ 64;
  sl_order : slice_start s ≤ slice_end s < 2 ^ 64;
  sl_flying : in_flight s = true → cursor s ≤ slice_end s;
}.

(** ** Lists of slices *)

Lemma tiles_app a l k b c : tiles a l b → tiles b k c → tiles a (l ++ k) c.
Proof.
  revert a. induction l as [|s l IH]; intros a; [by intros ->|]. intros (<- & Hle & Hl) Hk. split_and!; [done|done|by apply IH].
Qed.

Lemma tiles_le a l b : tiles a l b → a ≤ b.
Proof.
  revert a. induction l as [|s l IH]; intros a; [intros ->; lia|]. intros (<- & Hle & Hl). apply IH in Hl. lia.
Qed.

(** An offset is in one of the slices. *)
Lemma tiles_find a l b x : tiles a l b → a ≤ x < b → ∃ s, s ∈ l ∧ slice_start s ≤ x < slice_end s.
Proof.
  revert a. induction l as [|s l IH]; intros a; simpl; [lia|]. intros (<- & Hle & Hl) Hx.
  destruct (Z.lt_ge_cases x (slice_end s)) as [Hlt|Hge]; [exists s; split; [by left|lia]|].
  destruct (IH _ Hl) as (s' & Hs' & ?); [lia|]. exists s'. split; [by right|lia].
Qed.

Lemma tiles_end a l b s : tiles a l b → s ∈ l → slice_end s ≤ b.
Proof.
  revert a. induction l as [|s' l IH]; intros a; [by intros _ ?%elem_of_nil|]. intros (_ & _ & Hl) [->|Hs]%elem_of_cons; [|by eapply IH].
  by apply tiles_le in Hl.
Qed.

(** Only the bounds of the slices matter. *)
Lemma tiles_alter f i l a b : (∀ s, slice_start (f s) = slice_start s ∧ slice_end (f s) = slice_end s) →
  tiles a (alter f i l) b ↔ tiles a l b.
Proof.
  intros Hf. revert a i. induction l as [|s l IH]; intros a i; [done|].
  destruct i as [|i]; cbn [alter list_alter tiles].
  - by destruct (Hf s) as [-> ->].
  - by rewrite IH.
Qed.

Lemma Forall_alter_ok {A} (P : A → Prop) f i l : Forall P l → (∀ s, l !! i = Some s → P s → P (f s)) → Forall P (alter f i l).
Proof.
  intros Hl. revert i. induction Hl as [|s l Hs Hl IH]; intros i Hf; [constructor|].
  destruct i as [|i]; cbn [alter list_alter]; constructor; auto.
Qed.

Lemma find_slice_Some p l i : find_slice p l = Some i → ∃ s, l !! i = Some s ∧ p s = true.
Proof.
  revert i. induction l as [|s l IH]; intros i; [done|]. simpl. destruct (p s) eqn:Hp; [intros [= <-]; by exists s|].
  destruct (find_slice p l) as [j|]; [|done]. intros [= <-]. by apply IH.
Qed.

Lemma find_slice_None p l : find_slice p l = None → Forall (λ s, p s = false) l.
Proof.
  induction l as [|s l IH]; [constructor|]. simpl. destruct (p s) eqn:Hp; [done|].
  destruct (find_slice p l); [done|]. intros _. constructor; auto.
Qed.

Lemma flying_cons s l : flying (s :: l) = ((if in_flight s then 1 else 0) + flying l)%nat.
Proof.
  unfold flying. destruct (in_flight s) eqn:Hs.
  - by rewrite filter_cons_True.
  - rewrite filter_cons_False by congruence. done.
Qed.

Lemma flying_app l k : flying (l ++ k) = (flying l + flying k)%nat.
Proof. unfold flying. by rewrite filter_app, length_app. Qed.

Lemma flying_alter f i l : (∀ s, in_flight (f s) = true → in_flight s = true) → (flying (alter f i l) ≤ flying l)%nat.
Proof.
  intros Hf. revert i. induction l as [|s l IH]; intros i; [done|]. destruct i as [|i]; cbn [alter list_alter].
  - rewrite !flying_cons. specialize (Hf s). destruct (in_flight (f s)); [rewrite Hf by done; lia|lia].
  - rewrite !flying_cons. specialize (IH i). lia.
Qed.

Lemma flying_depart f i l : (flying (alter f i l) ≤ S (flying l))%nat.
Proof.
  revert i. induction l as [|x l IH]; intros i; [by destruct i; apply Nat.le_succ_diag_r|]. destruct i as [|i]; cbn [alter list_alter].
  - rewrite !flying_cons. destruct (in_flight (f x)); lia.
  - rewrite !flying_cons. specialize (IH i). lia.
Qed.

(** ** [split] *)

Lemma slice_at_values from to step count i : 0 ≤ from → 0 ≤ step → from + step * Z.of_nat count ≤ to → to < 2 ^ 64 → (i < count)%nat →
  slice_at from to step count i =
  mkSlice (from + step * Z.of_nat i) (from + step * Z.of_nat i)
    (if (i + 1 =? count)%nat then to else from + step * (Z.of_nat i + 1)) false false.
Proof.
  intros Hfrom Hstep Hto Hmax Hi. unfold slice_at. cbv zeta. unfold u64.
  assert (0 ≤ step * Z.of_nat i ≤ step * (Z.of_nat i + 1)) by nia. assert (step * (Z.of_nat i + 1) ≤ step * Z.of_nat count) by nia.
  rewrite !(wrap_small 64 (step * _)) by (unfold fits; lia). rewrite !(wrap_small 64 (from + _)) by (unfold fits; lia). done.
Qed.

Lemma split_tiles from to count : 0 ≤ from ≤ to → to < 2 ^ 64 → (0 < count)%nat → tiles from (split from to count) to.
Proof.
  intros Hfrom Hto Hcount. unfold split, sat_sub. cbv zeta. rewrite (Z.max_r 0) by lia.
  set (n := Z.to_nat _). assert (0 < n)%nat as Hn by lia. set (step := (to - from) / Z.of_nat n).
  assert (0 ≤ step) by (apply Z.div_pos; lia). assert (step * Z.of_nat n ≤ to - from) by (pose proof (Z.mul_div_le (to - from) (Z.of_nat n)); lia).
  assert (∀ k i, (i + k = n)%nat → (0 < k)%nat → tiles (from + step * Z.of_nat i) (slice_at from to step n <$> seq i k) to) as Hk.
  { induction k as [|k IH]; intros i Hi Hpos; [lia|]. cbn [seq fmap list_fmap].
    rewrite slice_at_values by lia. cbn [tiles slice_start slice_end]. split; [done|].
    destruct (Nat.eqb_spec (i + 1) n) as [He|Hne].
    - assert (k = 0)%nat as -> by lia. split; [nia|done].
    - split; [nia|]. specialize (IH (S i)). rewrite Nat2Z.inj_succ in IH. unfold Z.succ in IH. apply IH; lia. }
  specialize (Hk n 0%nat). rewrite Z.mul_0_r, Z.add_0_r in Hk. apply Hk; lia.
Qed.

(** The slices are new: each is at its start and not asked for. *)
Lemma split_new from to count s : 0 ≤ from ≤ to → to < 2 ^ 64 → (0 < count)%nat → s ∈ split from to count →
  cursor s = slice_start s ∧ in_flight s = false ∧ exact s = false ∧ slice_ok s.
Proof.
  intros Hfrom Hto Hcount. unfold split, sat_sub. cbv zeta. rewrite (Z.max_r 0) by lia.
  set (n := Z.to_nat _). assert (0 < n)%nat as Hn by lia. set (step := (to - from) / Z.of_nat n).
  assert (0 ≤ step) by (apply Z.div_pos; lia). assert (step * Z.of_nat n ≤ to - from) by (pose proof (Z.mul_div_le (to - from) (Z.of_nat n)); lia).
  intros (i & -> & Hi)%list_elem_of_fmap. apply elem_of_seq in Hi. rewrite slice_at_values by lia. cbn. split_and!; [done..|].
  split; cbn; [nia|nia| |done]. destruct (Nat.eqb_spec (i + 1) n); nia.
Qed.

Lemma split_ok from to count : 0 ≤ from ≤ to → to < 2 ^ 64 → (0 < count)%nat → Forall slice_ok (split from to count).
Proof. intros. apply Forall_forall. intros s Hs. by eapply split_new. Qed.

Lemma new_flying l : Forall (λ s, in_flight s = false) l → flying l = 0%nat.
Proof. induction 1 as [|s l Hs _ IH]; [done|]. by rewrite flying_cons, Hs, IH. Qed.

Lemma split_flying from to count : 0 ≤ from ≤ to → to < 2 ^ 64 → (0 < count)%nat → flying (split from to count) = 0%nat.
Proof. intros. apply new_flying, Forall_forall. intros s Hs. by eapply split_new. Qed.

(** ** [adopt_total] *)

Lemma trim_tiles t a l b : tiles a l b → Forall slice_ok l → tiles (Z.min a t) (trim t <$> l) (Z.min b t).
Proof.
  intros Hl Hok. revert a Hl. induction Hok as [|s l Hs Hok IH]; intros a; [by intros ->|]. intros (<- & Hle & Hl).
  cbn [fmap list_fmap tiles trim slice_start slice_end]. split_and!; [lia|lia|by apply IH].
Qed.

Lemma trim_ok t s : 0 ≤ t → slice_ok s → slice_ok (trim t s).
Proof.
  intros Ht [Hs Hc Ho Hf]. assert (clamp (cursor s) (Z.min (slice_start s) (Z.min (slice_end s) t)) (Z.min (slice_end s) t)
    = Z.min (cursor s) (Z.min (slice_end s) t)) as Hcl.
  { unfold clamp. destruct (Z.ltb_spec (cursor s) (Z.min (slice_start s) (Z.min (slice_end s) t))); [lia|].
    destruct (Z.ltb_spec (Z.min (slice_end s) t) (cursor s)); lia. }
  split; cbn [trim slice_start slice_end cursor in_flight]; rewrite ?Hcl; lia.
Qed.

Lemma trim_flying t l : flying (trim t <$> l) = flying l.
Proof. induction l as [|s l IH]; [done|]. rewrite fmap_cons, !flying_cons, IH. done. Qed.

(** ** The invariant *)

Section invariant.
Context `{Keccak} {St : Type} `{TrieStore St}.
Implicit Types d : StateDownload St.

(** The size the slices are cut for. *)
Definition sought_size d : Z := match total d with Some t => t | None => hinted_total d end.

Record wf d : Prop := {
  wf_grid : 1 ≤ grid d;
  wf_hint : 1 ≤ hinted_total d < 2 ^ 64;
  wf_tiles : tiles 0 (slices d) (sought_size d);
  wf_size : sought_size d < 2 ^ 64;
  wf_slices : Forall slice_ok (slices d);
  wf_flying : (flying (slices d) ≤ max_in_flight d)%nat;
  wf_requests : (0 < max_in_flight d)%nat;
}.

(** Changing slices but not their bounds. *)
Lemma wf_alter d f i : wf d → (∀ s, slice_start (f s) = slice_start s ∧ slice_end (f s) = slice_end s) →
  (∀ s, in_flight (f s) = true → in_flight s = true) → (∀ s, slices d !! i = Some s → slice_ok s → slice_ok (f s)) →
  wf (set_slices d (alter f i (slices d))).
Proof using Type.
  intros [Hg Hh Ht Hz Hs Hf Hm] Hb Hfl Hok. split; cbn [snd set_slices slices max_in_flight]; [done|done|by apply tiles_alter|done|by apply Forall_alter_ok| |done].
  pose proof (flying_alter f i (slices d) Hfl). lia.
Qed.

Lemma wf_next d : wf d → wf (next_request d).2.
Proof using Type.
  intros Hwf. unfold next_request. destruct (Nat.leb_spec (max_in_flight d) (flying (slices d))) as [|Hlt]; [done|].
  destruct (find_slice wants_work (slices d)) as [i|] eqn:Hi; [|done]. apply find_slice_Some in Hi as (s & Hs & Hw). rewrite Hs.
  pose proof Hwf as [Hg Hh Ht Hz Hsl Hf Hm]. apply andb_true_iff in Hw as [_ Hw%Z.ltb_lt]. split; cbn [snd set_slices slices max_in_flight]; [done|done|by apply tiles_alter|done| | |done].
  - apply Forall_alter_ok; [done|]. intros s' Hs' [H1 H2 H3 _]. rewrite Hs in Hs'. injection Hs' as <-. split; cbn; [done|done|done|lia].
  - pose proof (flying_depart departed i (slices d)). lia.
Qed.

Lemma wf_release d from : wf d → wf (release d from).
Proof using Type.
  intros Hwf. unfold release. destruct (slice_for d from) as [i|]; [|done]. apply wf_alter; [done|done|done|].
  by intros s _ [H1 H2 H3 _].
Qed.

Lemma adopt_bounds d t : wf d → total d = None → 0 ≤ t < 2 ^ 64 →
  tiles 0 (slices (adopt_total d t)) t ∧ Forall slice_ok (slices (adopt_total d t)) ∧ flying (slices (adopt_total d t)) = flying (slices d).
Proof using Type.
  intros [Hg Hh Htl _ Hs _ Hm] Hnone Ht. unfold sought_size in Htl. rewrite Hnone in Htl. unfold adopt_total, set_total, set_slices. cbv zeta. cbn [slices hinted_total max_in_flight].
  destruct (Z.eqb_spec t (hinted_total d)) as [->|Hne]; [by split_and!|].
  pose proof (trim_tiles t 0 _ _ Htl Hs) as Htt. rewrite Z.min_l in Htt by lia.
  assert (Forall slice_ok (trim t <$> slices d)) as Hst.
  { apply Forall_fmap. eapply Forall_impl; [exact Hs|]. intros s Hok. apply trim_ok; [lia|done]. }
  destruct (Z.ltb_spec (hinted_total d) t) as [Hlt|Hge]; cbn [slices].
  - rewrite Z.min_l in Htt by lia. assert (0 < Nat.max 1 (max_in_flight d))%nat by lia. split_and!.
    + eapply tiles_app; [exact Htt|]. apply split_tiles; lia.
    + apply Forall_app. split; [done|]. apply split_ok; lia.
    + rewrite flying_app, trim_flying, split_flying by lia. lia.
  - rewrite Z.min_r in Htt by lia. split_and!; [done|done|apply trim_flying].
Qed.

Lemma adopt_fields d t : grid (adopt_total d t) = grid d ∧ hinted_total (adopt_total d t) = hinted_total d ∧
  max_in_flight (adopt_total d t) = max_in_flight d ∧ total (adopt_total d t) = Some t ∧ root_hash (adopt_total d t) = root_hash d ∧
  dl_store (adopt_total d t) = dl_store d ∧ budget (adopt_total d t) = budget d.
Proof using Type. unfold adopt_total. cbv zeta. destruct (_ =? _); [done|]. destruct (_ <? _); done. Qed.

Lemma wf_adopt d t : wf d → total d = None → 0 ≤ t < 2 ^ 64 → wf (adopt_total d t).
Proof using Type.
  intros Hwf Hnone Ht. destruct (adopt_bounds d t Hwf Hnone Ht) as (Htl & Hs & Hf). destruct (adopt_fields d t) as (Hg & Hh & Hm & Hto & _).
  pose proof Hwf as [Hg' Hh' _ _ _ Hf' Hm']. split; [by rewrite Hg|by rewrite Hh| | |done|by rewrite Hf, Hm|by rewrite Hm];
    unfold sought_size; rewrite Hto; [done|lia].
Qed.

Lemma wf_keep d nodes : wf d → wf (keep_nodes d nodes).
Proof using Type. by intros [Hg Hh Ht Hz Hs Hf Hm]. Qed.

Lemma wf_move d from reached : wf d → reached < 2 ^ 64 → wf (move_slice d from reached).2.
Proof using Type.
  intros Hwf Hr. unfold move_slice. destruct (slice_for d from) as [i|]; [|done]. cbn [snd]. apply wf_alter; [done|done|done|].
  intros s _ [H1 H2 H3 _]. split; cbn; [done|lia|done|done].
Qed.

Lemma slice_for_flying d from i : slice_for d from = Some i →
  ∃ s, slices d !! i = Some s ∧ in_flight s = true ∧ (cursor s = from ∨ aligned (grid d) (cursor s) = from).
Proof using Type.
  unfold slice_for. destruct (find_slice _ (slices d)) as [j|] eqn:Hj.
  - intros [= <-]. apply find_slice_Some in Hj as (s & Hs & [Hf Hc%Z.eqb_eq]%andb_true_iff). exists s. auto.
  - intros Hi. apply find_slice_Some in Hi as (s & Hs & [Hf Hc%Z.eqb_eq]%andb_true_iff). exists s. auto.
Qed.

Lemma accept_cases fuel d from proof r d' : accept fuel d from proof = Some (r, d') →
  (∃ e, r = Err e ∧ (d' = d ∨ d' = release d from)) ∨
  ∃ ver e, verify_chunk fuel (root_hash d) from proof = Some (Ok ver) ∧ last (verified_nodes ver) = Some e ∧ is_Some (slice_for d from) ∧
    let d1 := match total d with None => adopt_total d (verified_total ver) | Some _ => d end in
    let m := move_slice (keep_nodes d1 (verified_nodes ver)) from (end_of e) in
    d' = m.2 ∧ r = Ok (mkProgress (length (verified_nodes ver)) m.1 (is_complete m.2)).
Proof using Type.
  unfold accept. destruct (slice_for d from) as [i|] eqn:Hi; [|intros [= <- <-]; left; eexists; eauto].
  destruct (oversized d proof); [intros [= <- <-]; left; eexists; eauto|].
  destruct (verify_chunk _ _ _ _) as [[ver|err]|] eqn:Hver; [|intros [= <- <-]; left; eexists; eauto|done]. cbv zeta.
  destruct (last (verified_nodes ver)) as [e|] eqn:Hlast; [|done]. intros Heq. right. exists ver, e. split; [done|]. split; [done|]. split; [by eexists|]. cbv zeta.
  destruct (move_slice _ _ _) as [adv d2]. injection Heq as <- <-. done.
Qed.

Lemma verified_total_fits fuel h from proof ver : verify_chunk fuel h from proof = Some (Ok ver) → 0 ≤ verified_total ver < 2 ^ 64.
Proof using Type.
  unfold verify_chunk. destruct (entries proof) as [|e l]; [done|]. destruct (check_entries _ _); [|done].
  destruct (ts_get _ _); [|done]. destruct (try_from_message _ _) as [root|]; [|done]. destruct (chunk_from_limited _ _ _ _ _ _).1; [|done].
  case_decide; [|done]. destruct (compare_nodes _ _ _); [|done]. intros [= <-]. cbn. apply (wrap_fits 64). lia.
Qed.

Lemma wf_accept fuel d from proof r d' : wf d → accept fuel d from proof = Some (r, d') → wf d'.
Proof using Type.
  intros Hwf Ha. apply accept_cases in Ha as [(e & _ & [->| ->])|(ver & e & Hver & _ & _ & -> & _)]; [done|by apply wf_release|].
  apply wf_move; [|apply (wrap_fits 64); lia]. apply wf_keep. destruct (total d) as [t|] eqn:Ht; [done|].
  apply wf_adopt; [done|done|]. by eapply verified_total_fits.
Qed.

Lemma wf_rebuilt d from chunk : wf d → wf (accept_rebuilt d from chunk).2.
Proof using Type.
  intros Hwf. unfold accept_rebuilt. cbv zeta. assert (wf (keep_rebuilt d chunk)) as Hk by by destruct Hwf.
  assert (sat_add 64 from (grid (keep_rebuilt d chunk)) < 2 ^ 64) as Hr by (unfold sat_add; lia).
  pose proof (wf_move _ from _ Hk Hr) as Hm. destruct (move_slice _ _ _) as [adv d']. cbn [fst snd] in *.
  destruct (total d') eqn:Ht; [done|]. apply wf_adopt; [done|done|]. destruct Hm as [_ Hh _ _ _ _ _]. lia.
Qed.

Lemma wf_step fuel ev d d' : wf d → dl_step fuel ev d = Some d' → wf d'.
Proof using Type.
  intros Hwf. destruct ev as [|from|from proof|from chunk]; cbn [dl_step].
  - intros [= <-]. by apply wf_next.
  - intros [= <-]. by apply wf_release.
  - destruct (accept fuel d from proof) as [[r d2]|] eqn:Ha; [|done]. intros [= <-]. by eapply wf_accept.
  - intros [= <-]. by apply wf_rebuilt.
Qed.

Lemma wf_run fuel evs : ∀ d d', wf d → dl_run fuel evs d = Some d' → wf d'.
Proof using Type.
  induction evs as [|ev evs IH]; intros d d' Hwf; cbn [dl_run]; [by intros [= <-]|].
  destruct (dl_step fuel ev d) as [d2|] eqn:Hs; [|done]. apply IH. by eapply wf_step.
Qed.

(** What a download keeps. *)
Record frame d d' : Prop := {
  fr_root : root_hash d' = root_hash d;
  fr_grid : grid d' = grid d;
  fr_budget : budget d' = budget d;
  fr_requests : max_in_flight d' = max_in_flight d;
  fr_hint : hinted_total d' = hinted_total d;
}.

Lemma frame_refl d : frame d d.
Proof using Type. done. Qed.

Lemma frame_trans d1 d2 d3 : frame d1 d2 → frame d2 d3 → frame d1 d3.
Proof using Type. intros [] []. split; congruence. Qed.

Lemma frame_adopt d t : frame d (adopt_total d t).
Proof using Type. unfold adopt_total. cbv zeta. destruct (_ =? _); [done|]. by destruct (_ <? _). Qed.

Lemma frame_move d from reached : frame d (move_slice d from reached).2.
Proof using Type. unfold move_slice. by destruct (slice_for d from). Qed.

Lemma frame_release d from : frame d (release d from).
Proof using Type. unfold release. by destruct (slice_for d from). Qed.

Lemma frame_next d : frame d (next_request d).2.
Proof using Type.
  unfold next_request. destruct (_ <=? _)%nat; [done|]. destruct (find_slice _ _) as [i|]; [|done]. by destruct (slices d !! i).
Qed.

Lemma frame_accept fuel d from proof r d' : accept fuel d from proof = Some (r, d') → frame d d'.
Proof using Type.
  intros [(e & _ & [->| ->])|(ver & e & _ & _ & _ & -> & _)]%accept_cases; [done|apply frame_release|].
  eapply frame_trans; [|apply frame_move]. destruct (total d); [done|]. pose proof (frame_adopt d (verified_total ver)) as []. done.
Qed.

Lemma frame_step fuel ev d d' : dl_step fuel ev d = Some d' → frame d d'.
Proof using Type.
  destruct ev as [|from|from proof|from chunk]; cbn [dl_step].
  - intros [= <-]. apply frame_next.
  - intros [= <-]. apply frame_release.
  - destruct (accept fuel d from proof) as [[r d2]|] eqn:Ha; [|done]. intros [= <-]. by eapply frame_accept.
  - intros [= <-]. unfold accept_rebuilt. cbv zeta. pose proof (frame_move (keep_rebuilt d chunk) from (sat_add 64 from (grid (keep_rebuilt d chunk)))) as Hm.
    destruct (move_slice _ _ _) as [adv d2]. cbn [snd] in *. assert (frame d d2) as Hd by by destruct Hm.
    destruct (total d2); [done|]. eapply frame_trans; [exact Hd|apply frame_adopt].
Qed.

Lemma frame_run fuel evs : ∀ d d', dl_run fuel evs d = Some d' → frame d d'.
Proof using Type.
  induction evs as [|ev evs IH]; intros d d'; cbn [dl_run]; [by intros [= <-]|].
  destruct (dl_step fuel ev d) as [d2|] eqn:Hs; [|done]. intros Hr. eapply frame_trans; [by eapply frame_step|by apply IH].
Qed.

Lemma wf_init root hinted config grid_ (store : St) : 0 ≤ hinted < 2 ^ 64 → 0 ≤ grid_ → wf (on_grid root hinted config grid_ store).
Proof using Type.
  intros Hh Hg. unfold on_grid. cbv zeta. assert (0 < Nat.max 1 (config_in_flight config))%nat by lia. split; cbn -[split flying]; [|lia|apply split_tiles; lia|unfold sought_size; simpl; lia|apply split_ok; lia| |lia].
  - destruct (Z.eqb_spec grid_ 0); lia.
  - rewrite split_flying by lia. lia.
Qed.

(** ** Progress *)

Definition covered (l : list Slice) : Z := foldr (λ s a, sat_sub (Z.min (cursor s) (slice_end s)) (slice_start s) + a) 0 l.

Lemma covered_le a l b : tiles a l b → Forall slice_ok l → 0 ≤ covered l ≤ b - a.
Proof using Type.
  intros Hl Hok. revert a Hl. induction Hok as [|s l Hs Hok IH]; intros a; [intros ->; simpl; lia|].
  intros (<- & Hle & Hl). apply IH in Hl. cbn [covered foldr]. fold (covered l). destruct Hs. unfold sat_sub. lia.
Qed.

Lemma covered_all a l b : tiles a l b → Forall slice_ok l →
  covered l = b - a ↔ Forall (λ s, slice_end s ≤ cursor s) l.
Proof using Type.
  intros Hl Hok. revert a Hl. induction Hok as [|s l Hs Hok IH]; intros a; [intros ->; simpl; split; [constructor|lia]|].
  intros (<- & Hle & Hl). pose proof (covered_le _ _ _ Hl Hok). cbn [covered foldr]. fold (covered l).
  rewrite Forall_cons, <- (IH _ Hl). destruct Hs. unfold sat_sub. lia.
Qed.

Lemma complete_covered d : is_complete d = true ↔ is_Some (total d) ∧ Forall (λ s, slice_end s ≤ cursor s) (slices d).
Proof using Type.
  unfold is_complete. destruct (total d) as [t|]; [|split; [done|by intros [[] _]]]. rewrite forallb_forall, Forall_forall. split.
  - intros Hs. split; [done|]. intros s Hin. by apply Z.leb_le, Hs, list_elem_of_In.
  - intros [_ Hs] s Hin. apply Z.leb_le, Hs. by apply list_elem_of_In.
Qed.

End invariant.

(** ** Theorem *)

(** C22: Whatever a download is told, its slices tile the trie's offsets, without gaps or overlaps, up
    to the size sought; a slice's cursor is in or past the slice, and not past it while a request
    is out, so that the space left never wraps; no more requests are out than allowed; and the
    progress reported is at most the size, which it reaches exactly when the download is complete. *)
Theorem download_invariant `{Keccak} {St} `{TrieStore St} (store : St) root hinted config grid_ fuel evs d :
  0 ≤ hinted < 2 ^ 64 → 0 ≤ grid_ < 2 ^ 64 →
  dl_run fuel evs (on_grid root hinted config grid_ store) = Some d →
  tiles 0 (slices d) (sought_size d) ∧ Forall slice_ok (slices d) ∧
  (flying (slices d) ≤ Nat.max 1 (config_in_flight config))%nat ∧
  0 ≤ (progress d).1 ≤ sought_size d ∧
  (∀ t, total d = Some t → is_complete d = true ↔ (progress d).1 = t).
Proof.
  intros Hh Hg Hrun. assert (max_in_flight d = Nat.max 1 (config_in_flight config)) as Hmax by by apply frame_run in Hrun as [].
  apply wf_run in Hrun; [|by apply wf_init; lia]. destruct Hrun as [_ _ Ht Hz Hs Hf _].
  pose proof (covered_le _ _ _ Ht Hs) as Hc. pose proof (covered_all _ _ _ Ht Hs) as Ha. rewrite Z.sub_0_r in *.
  assert ((progress d).1 = covered (slices d)) as -> by (apply (wrap_small 64); unfold fits; lia).
  split_and!; [done|done|by rewrite <- Hmax|lia|lia|]. intros t Hto. rewrite complete_covered, Hto, <- Ha. unfold sought_size in *. rewrite Hto in *.
  split; [by intros [_ ?]|]. split; [by eexists|done].
Qed.

Section example.
#[local] Existing Instance poly_keccak.

Definition two_workers : SnapConfig := mkSnapConfig 100 50 2.

Lemma download_invariant_witness :
  let evs := [NextRequest; NextRequest; Release 900; AcceptRebuilt 0 (mkRebuiltChunk [] [])] in
  ∃ d, dl_run 4 evs (on_grid [] 1990 two_workers 100 memory_new) = Some d ∧
  tiles 0 (slices d) (sought_size d) ∧ Forall slice_ok (slices d) ∧
  (flying (slices d) ≤ Nat.max 1 (config_in_flight two_workers))%nat ∧
  0 ≤ (progress d).1 ≤ sought_size d ∧
  (∀ t, total d = Some t → is_complete d = true ↔ (progress d).1 = t).
Proof.
  eexists. split; [vm_compute; reflexivity|].
  eapply (download_invariant memory_new [] 1990 two_workers 100 4 [NextRequest; NextRequest; Release 900; AcceptRebuilt 0 (mkRebuiltChunk [] [])]).
  - lia.
  - lia.
  - vm_compute. reflexivity.
Defined.
End example.

End SnapSlices.
