(* ===== verification/SnapDownload.v ===== *)
(** * Downloading a trie: crates/sync/src/snap/client.rs

    What a download writes and what it ends up with.  Whatever its peers send, it writes nothing
    but records of the trie under the root it was given.  From peers whose proofs are complete it
    ends up with all of them: everything before a slice's cursor is stored, so a complete download
    is the whole trie.  And one peer that answers is enough for it to complete. *)
From S2P Require Import Prelude Path Varint Store Node Unitrie NodeCodec NodeRefine NodeSave Trie EpochMark Snapshot SnapshotView SnapshotRun SnapshotChunk SnapshotComplete SnapshotProof SnapshotSound SnapshotHonest SnapClient SnapSlices.
From stdpp Require Import gmap.
From stdpp Require Import options.

Module SnapDownload.
Import Store Node Unitrie NodeCodec NodeRefine NodeSave Trie EpochMark Snapshot SnapshotView SnapshotRun SnapshotChunk SnapshotComplete SnapshotProof SnapshotSound SnapshotHonest SnapClient SnapSlices.
Local Open Scope Z_scope.

(** ** The records of a trie *)

Section records.
Context `{Keccak}.

(** A string that the entries of the trie carry. *)
Definition of_trie (t : tree) (m : bytes) : Prop :=
  ∃ x, x ∈ inorder t ∧ (m = to_message (mem x) ∨ m ∈ entry_values everything x).

Lemma opened_inorder t b c x : child t b = Some c → is_embeddable (mem c) = false → x ∈ inorder c → x ∈ inorder t.
Proof.
  intros Hc He Hx. rewrite inorder_eq, elem_of_app, elem_of_cons. assert (x ∈ opened (child t b)) as Ho by (rewrite Hc; simpl; by rewrite He).
  destruct b; cbn [child] in Ho; auto.
Qed.

Lemma inorder_self t : t ∈ inorder t.
Proof. rewrite inorder_eq, elem_of_app, elem_of_cons. auto. Qed.

(** The entries carry all that the trie needs. *)
Lemma needs_of_trie t k : needs t k → ∃ m, k = keccak m ∧ of_trie t m.
Proof.
  assert (∀ x v, tval x = Some v → (32 < length v)%nat → v ∈ own_values everything x) as Hown.
  { intros x v Hv Hlen. unfold own_values, everything. rewrite Hv, andb_true_r, (proj2 (Nat.ltb_lt _ _) Hlen). by left. }
  induction 1 as [t v Hv Hlen|t b c Hc He|t b c k Hc Hn IH].
  - exists v. split; [done|]. exists t. split; [apply inorder_self|right]. unfold entry_values. apply elem_of_app. left. by apply Hown.
  - exists (to_message (mem c)). split; [done|]. exists c. split; [|by left]. eapply opened_inorder; [done|done|apply inorder_self].
  - destruct (is_embeddable (mem c)) eqn:He.
    + inversion Hn as [? v Hv Hlen|? b' y Hy _|? b' y ? Hy _]; subst; [|by rewrite embeddable_leaf in Hy..].
      exists v. split; [done|]. exists t. split; [apply inorder_self|right]. unfold entry_values. rewrite !elem_of_app. right.
      assert (v ∈ embedded_values everything (child t b)) as Hev by (rewrite Hc; simpl; rewrite He; by apply Hown).
      destruct b; cbn [child] in Hev; auto.
    + destruct IH as (m & -> & x & Hx & Hm). exists m. split; [done|]. exists x. split; [by eapply opened_inorder|done].
Qed.

Lemma of_trie_stored {St} `{TrieStore St} (store : St) t m : Stored store t → Own store t → of_trie t m → ts_get store (keccak m) = Some m.
Proof.
  intros Hst Hown (x & Hx & [->|Hm]).
  - exact (proj1 (Forall_forall _ _) (inorder_own store t Hst Hown) x Hx).
  - eapply entry_values_stored; [|exact Hm]. exact (proj1 (Forall_forall _ _) (inorder_stored store t Hst) x Hx).
Qed.

(** The strings of an entry. *)
Definition strings (e : StreamNode) : list bytes := message e :: long_values e.

Lemma layout_strings have_ l : ∀ at_ e, e ∈ layout have_ at_ l → ∃ x, x ∈ l ∧ strings e = to_message (mem x) :: entry_values have_ x.
Proof.
  induction l as [|x l IH]; intros at_ e; [by intros ?%elem_of_nil|]. cbn [layout]. intros [->|He]%elem_of_cons; [exists x; split; [by left|done]|].
  destruct (IH _ _ He) as (y & Hy & Heq). exists y. split; [by right|done].
Qed.

Lemma layout_has have_ l : ∀ at_ x, x ∈ l → ∃ e, e ∈ layout have_ at_ l ∧ strings e = to_message (mem x) :: entry_values have_ x.
Proof.
  induction l as [|y l IH]; intros at_ x; [by intros ?%elem_of_nil|]. cbn [layout]. intros [->|Hx]%elem_of_cons.
  { eexists. split; [by left|done]. }
  destruct (IH (at_ + span_of y) x Hx) as (e & He & Heq). exists e. split; [by right|done].
Qed.

Lemma stream_of_trie t e m : e ∈ stream t → m ∈ strings e → of_trie t m.
Proof. intros (x & Hx & ->)%layout_strings [->|Hm]%elem_of_cons; exists x; auto. Qed.

(** ** Runs of the traversal *)

Definition rest_from (t : tree) (from : Z) : list StreamNode := filter (λ e, from < offset e + span e) (stream t).

Lemma rest_layout t from : sized t → 0 ≤ from → ∃ a l, rest_from t from = layout everything a l ∧
  Forall (λ x, 0 < span_of x) l ∧ 0 ≤ a ∧ a + spans l ≤ node_size (mem t) ∧ (from < node_size (mem t) → a ≤ from ∧ l ≠ []).
Proof.
  intros Hsz Hfrom. destruct (Z.lt_ge_cases from (node_size (mem t))) as [Hin|Hpast].
  2: { exists 0, []. unfold rest_from. rewrite stream_past by done. pose proof (sized_pos t Hsz). split_and!; [done|constructor|lia|simpl; lia|lia]. }
  destruct (stream_at t from Hsz) as (tr & t0 & w & pre & rest & _ & -> & Hino & Hstr & Hpre & Hw & Hp0 & Hbound & Hpos1 & Hpos2); [lia|].
  eexists (spans pre), _. unfold rest_from. rewrite (stream_rest t from pre _ w t0) by done. split_and!; [done|done|done| |split; [lia|done]].
  rewrite <- (sized_spans t Hsz), Hino, spans_app. lia.
Qed.

Lemma drop_layout have_ k l : ∀ at_, drop k (layout have_ at_ l) = layout have_ (at_ + spans (take k l)) (drop k l).
Proof.
  revert k. induction l as [|t l IH]; intros [|k] at_; simpl; [done|done|by rewrite Z.add_0_r|]. rewrite IH. f_equal. lia.
Qed.

(** The first entries of a run are all that begin before where they end. *)
Lemma run_reaches t from k e_l e : sized t → 0 ≤ from → last (take k (rest_from t from)) = Some e_l →
  end_of e_l = offset e_l + span e_l ∧
  (e ∈ rest_from t from → offset e < offset e_l + span e_l → e ∈ take k (rest_from t from)).
Proof.
  intros Hsz Hfrom Hlast. destruct (rest_layout t from Hsz Hfrom) as (a & l & Hrl & Hpos & Ha & Hsum & _). rewrite Hrl in *.
  pose proof (node_size_fits (mem t)) as Hfit. unfold fits in Hfit.
  assert (e_l ∈ take k (layout everything a l)) as Hin by by apply last_Some_elem_of.
  rewrite take_layout in Hin. pose proof (layout_bounds everything _ a e_l (Forall_take _ k _ Hpos) Hin) as Hb.
  assert (spans (take k l) + spans (drop k l) = spans l) as Hs by by rewrite <- spans_app, take_drop.
  pose proof (spans_bounds _ (Forall_drop _ k _ Hpos)) as Hd. split; [apply (wrap_small 64); unfold fits; lia|].
  intros He Hlt. rewrite <- (take_drop k (layout everything a l)) in He. apply elem_of_app in He as [He|He]; [done|].
  rewrite drop_layout in He. pose proof (layout_bounds everything _ _ e (Forall_drop _ k _ Hpos) He). lia.
Qed.

Lemma rest_stream t from e : e ∈ rest_from t from ↔ from < offset e + span e ∧ e ∈ stream t.
Proof. unfold rest_from. by rewrite list_elem_of_filter. Qed.

Lemma stream_bounds t e : sized t → e ∈ stream t → 0 ≤ offset e ∧ 0 < span e ∧ offset e + span e ≤ node_size (mem t).
Proof.
  intros Hsz He. pose proof (layout_bounds everything _ 0 e (inorder_sized t Hsz) He) as Hb. rewrite sized_spans in Hb by done. lia.
Qed.

End records.

(** ** What is written *)

Section puts.
Context `{Keccak} {Ct : Type} `{TrieStoreLaws Ct}.

Lemma put_nodes_strings nodes : ∀ s : Ct, foldl put_node s nodes = foldl put_value s (concat (strings <$> nodes)).
Proof. induction nodes as [|n nodes IH]; intros s; [done|]. cbn [fmap list_fmap concat]. rewrite foldl_app. apply IH. Qed.

Lemma put_values_get l : ∀ (s : Ct) h m, ts_get (foldl put_value s l) h = Some m → m ∈ l ∧ h = keccak m ∨ ts_get s h = Some m.
Proof using Type*.
  induction l as [|v l IH]; intros s h m Hm; [by right|]. apply IH in Hm as [[Hm ->]|Hm]; [left; split; [by right|done]|].
  unfold put_value in Hm. destruct (decide (keccak v = h)) as [<-|Hne].
  - rewrite ts_get_put_eq in Hm. injection Hm as <-. left. split; [by left|done].
  - rewrite ts_get_put_ne in Hm by done. by right.
Qed.

Lemma put_values_keep l : ∀ (s : Ct) m, (∀ v, v ∈ l → keccak v = keccak m → v = m) →
  m ∈ l ∨ ts_get s (keccak m) = Some m → ts_get (foldl put_value s l) (keccak m) = Some m.
Proof using Type*.
  induction l as [|v l IH]; intros s m Hd Hm; [by destruct Hm as [?%elem_of_nil|]|]. cbn [foldl].
  apply IH; [intros w Hw; apply Hd; by right|]. destruct (decide (keccak v = keccak m)) as [Heq|Hne].
  - right. unfold put_value. rewrite <- Heq, ts_get_put_eq. f_equal. apply Hd; [by left|done].
  - unfold put_value. rewrite ts_get_put_ne by done. destruct Hm as [[->|Hm]%elem_of_cons|Hm]; [done|by left|by right].
Qed.

End puts.

Lemma in_strings (nodes : list StreamNode) m : m ∈ concat (strings <$> nodes) ↔ ∃ e, e ∈ nodes ∧ m ∈ strings e.
Proof.
  rewrite list_elem_of_In, in_concat. setoid_rewrite <- list_elem_of_In. split.
  - intros (l & (e & -> & He)%list_elem_of_fmap & Hm). by exists e.
  - intros (e & He & Hm). exists (strings e). split; [|done]. apply list_elem_of_fmap. by exists e.
Qed.

Section download.
Context `{Keccak} {St Ct : Type} `{TrieStore St} `{TrieStoreLaws Ct}.
Context (store : St) (t : tree) (V : gset bytes) (fuel : nat).
Context (Hst : Stored store t) (Hown : Own store t) (Hne : is_empty_trie (mem t) = false).
Context (Hdist : distinct V) (Hheld : held_in V store) (Hfuel : (length (inorder t) < fuel)%nat).
Implicit Types d : StateDownload Ct.

(** The strings of a proof hash apart from the trie's. *)
Definition apart (proof : ChunkProof) : Prop := ∀ m, m ∈ proof_records proof → m ∈ V.

(** The proofs among the events; the chunks of the other format are not proofs. *)
Definition proved (P : Z → ChunkProof → Prop) (ev : Event) : Prop :=
  match ev with Accept from proof => P from proof | AcceptRebuilt _ _ => False | _ => True end.

Lemma of_trie_in m : of_trie t m → m ∈ V.
Proof using Hst Hown Hheld. intros Hm. eapply Hheld, (of_trie_stored store t); done. Qed.

Lemma of_trie_distinct m v : of_trie t m → of_trie t v → keccak v = keccak m → v = m.
Proof using Hst Hown Hheld Hdist. intros Hm Hv Heq. apply Hdist; [by apply of_trie_in|by apply of_trie_in|done]. Qed.

Lemma slice_for_nonneg d from : wf d → is_Some (slice_for d from) → 0 ≤ from.
Proof using Type.
  clear Hfuel. intros Hwf [i Hi]. apply slice_for_flying in Hi as (s & Hs & _ & Hc). destruct Hwf as [Hg _ _ _ Hsl _ _].
  apply (Forall_lookup_1 _ _ _ _ Hsl) in Hs as [Hs0 Hcu _ _]. destruct Hc as [<-|<-]; [lia|]. unfold aligned.
  pose proof (Z.div_pos (cursor s) (grid d)). nia.
Qed.

(** *** Soundness *)

Record sound (store0 : Ct) d : Prop := {
  so_wf : wf d;
  so_root : root_hash d = hash_of t;
  so_total T : total d = Some T → T = node_size (mem t);
  so_store h m : ts_get (dl_store d) h = Some m → ts_get store0 h = Some m ∨ h = keccak m ∧ of_trie t m;
}.

Lemma verified_strings from proof ver : apart proof → 0 ≤ from → verify_chunk fuel (hash_of t) from proof = Some (Ok ver) →
  verified_total ver = node_size (mem t) ∧ ∀ m, m ∈ concat (strings <$> verified_nodes ver) → of_trie t m.
Proof using Type*.
  intros Hap Hfrom Hver. pose proof (verify_nodes store t V fuel from proof Hst Hown Hne (conj Hdist (conj Hheld Hap)) Hfrom Hfuel) as Hn.
  rewrite Hver in Hn. destruct Hn as (Htot & xs & Hsub & Hf). split; [done|]. intros m (e & He & Hm)%in_strings.
  apply list_elem_of_lookup in He as [i He]. destruct (Forall2_lookup_l _ _ _ _ _ Hf He) as (x & Hx & Hme & _ & Hlv).
  exists x. split; [eapply elem_of_sublist; [by eapply list_elem_of_lookup_2|exact Hsub]|]. unfold strings in Hm. rewrite Hme, Hlv in Hm.
  by apply elem_of_cons in Hm.
Qed.

Lemma verify_returns from proof : apart proof → 0 ≤ from → is_Some (verify_chunk fuel (hash_of t) from proof).
Proof using Type*.
  intros Hap Hfrom. pose proof (verify_nodes store t V fuel from proof Hst Hown Hne (conj Hdist (conj Hheld Hap)) Hfrom Hfuel) as Hn.
  destruct (verify_chunk _ _ _ _); [by eexists|done].
Qed.

Lemma accept_returns d from proof : wf d → root_hash d = hash_of t → apart proof → is_Some (accept fuel d from proof).
Proof using Type*.
  intros Hwf Hroot Hap. unfold accept. destruct (slice_for d from) as [i|] eqn:Hi; [|by eexists].
  assert (0 ≤ from) as Hfrom by (eapply slice_for_nonneg; [exact Hwf|by eexists]).
  destruct (oversized d proof); [by eexists|]. rewrite Hroot. destruct (verify_returns from proof Hap Hfrom) as [[ver|e] Hver]; rewrite Hver; [|by eexists].
  pose proof (verified_nonempty _ _ _ _ _ Hver) as Hnil. destruct (last (verified_nodes ver)) eqn:Hl; [|by apply last_None in Hl].
  cbv zeta. destruct (move_slice _ _ _). by eexists.
Qed.

Lemma sound_slices store0 d l : sound store0 d → wf (set_slices d l) → sound store0 (set_slices d l).
Proof using Type. by intros [Hwf Hr Ht Hs]. Qed.

Lemma sound_accept store0 d from proof r d' : sound store0 d → apart proof → accept fuel d from proof = Some (r, d') → sound store0 d'.
Proof using Type*.
  intros Hso Hap Ha. pose proof Hso as [Hwf Hroot Htot Hstore]. pose proof (wf_accept fuel d from proof r d' Hwf Ha) as Hwf'.
  pose proof (fr_root _ _ (frame_accept _ _ _ _ _ _ Ha)) as Hroot'.
  apply accept_cases in Ha as [(e & _ & [->| ->])|(ver & e & Hver & _ & Hfor & -> & _)].
  - done.
  - unfold release in *. destruct (slice_for d from); [by apply sound_slices|done].
  - rewrite Hroot in Hver. destruct (verified_strings from proof ver Hap (slice_for_nonneg d from Hwf Hfor) Hver) as [Hvt Hvs].
    assert (∀ d2 reached, total (move_slice d2 from reached).2 = total d2 ∧ dl_store (move_slice d2 from reached).2 = dl_store d2) as Hmove.
    { intros d2 reached. unfold move_slice. by destruct (slice_for d2 from). }
    set (d1 := match total d with Some _ => d | None => _ end) in *. destruct (Hmove (keep_nodes d1 (verified_nodes ver)) (end_of e)) as [Hm1 Hm2].
    split; [done|congruence| |].
    + intros T. rewrite Hm1. unfold d1. cbn [keep_nodes total]. destruct (total d) as [T'|] eqn:HT; [rewrite HT; apply Htot|].
      destruct (adopt_fields d (verified_total ver)) as (_ & _ & _ & -> & _). by intros [= <-].
    + intros h m. rewrite Hm2. cbn [keep_nodes dl_store]. rewrite put_nodes_strings. intros [[Hm ->]|Hm]%put_values_get; [right; split; [done|by apply Hvs]|].
      apply Hstore. unfold d1 in Hm. destruct (total d); [done|]. destruct (adopt_fields d (verified_total ver)) as (_ & _ & _ & _ & _ & Hs & _). by rewrite <- Hs.
Qed.

Lemma sound_step store0 d ev : sound store0 d → proved (λ _, apart) ev → ∃ d', dl_step fuel ev d = Some d' ∧ sound store0 d'.
Proof using Type*.
  intros Hso Hev. pose proof Hso as [Hwf Hroot Htot Hstore]. destruct ev as [|from|from proof|from chunk]; cbn [dl_step proved] in *; [..|done].
  - eexists. split; [done|]. pose proof (wf_next d Hwf) as Hn. unfold next_request in *. destruct (_ <=? _)%nat; [done|].
    destruct (find_slice _ _) as [i|]; [|done]. destruct (slices d !! i); [|done]. by apply sound_slices.
  - eexists. split; [done|]. pose proof (wf_release d from Hwf) as Hn. unfold release in *. destruct (slice_for d from); [by apply sound_slices|done].
  - destruct (accept_returns d from proof Hwf Hroot Hev) as [[r d'] Ha]. rewrite Ha. exists d'. split; [done|]. by eapply sound_accept.
Qed.

Lemma sound_run store0 evs : ∀ d, sound store0 d → Forall (proved (λ _, apart)) evs → ∃ d', dl_run fuel evs d = Some d' ∧ sound store0 d'.
Proof using Type*.
  induction evs as [|ev evs IH]; intros d Hso Hevs; [by exists d|]. inversion_clear Hevs as [|? ? Hev Hrest]. cbn [dl_run].
  destruct (sound_step store0 d ev Hso Hev) as (d2 & -> & Hso2). by apply IH.
Qed.

Lemma sound_init store0 hinted config grid_ : 0 ≤ hinted < 2 ^ 64 → 0 ≤ grid_ → sound store0 (on_grid (hash_of t) hinted config grid_ store0).
Proof using Type. intros Hh Hg. split; [by apply wf_init|done|done|]. intros h m Hm. by left. Qed.

(** *** Coverage *)

Section coverage.
Context (Hsz : sized t).

Definition kept (s : Ct) (e : StreamNode) : Prop := ∀ m, m ∈ strings e → ts_get s (keccak m) = Some m.

(** Every entry that begins before a slice's cursor, within the slice, is stored. *)
Definition covers d : Prop := ∀ sl e, sl ∈ slices d → e ∈ stream t → slice_start sl ≤ offset e < cursor sl → kept (dl_store d) e.

(** What is accepted is the run at the offset asked for. *)
Definition whole (from : Z) (proof : ChunkProof) : Prop :=
  ∀ ver, verify_chunk fuel (hash_of t) from proof = Some (Ok ver) → ∃ k, verified_nodes ver = take k (rest_from t from).

Lemma elem_of_alter {A} (f : A → A) (i : nat) (l : list A) x : x ∈ alter f i l → x ∈ l ∨ ∃ y, l !! i = Some y ∧ x = f y.
Proof using Type.
  intros [j Hj]%list_elem_of_lookup. destruct (decide (i = j)) as [->|Hij].
  - rewrite list_lookup_alter_eq in Hj. destruct (l !! j) as [y|] eqn:Hy; [|done]. injection Hj as <-. right. by exists y.
  - rewrite list_lookup_alter_ne in Hj by done. left. by eapply list_elem_of_lookup_2.
Qed.

Lemma alter_alter {A} (f g : A → A) (l : list A) : ∀ i, alter f i (alter g i l) = alter (f ∘ g) i l.
Proof using Type.
  induction l as [|x l IH]; intros i; [done|]. destruct i as [|i]; [done|]. change (x :: alter f i (alter g i l) = x :: alter (f ∘ g) i l). by rewrite IH.
Qed.

Lemma covers_alter d f i : covers d → (∀ s, slice_start (f s) = slice_start s ∧ cursor (f s) = cursor s) →
  covers (set_slices d (alter f i (slices d))).
Proof using Type.
  intros Hc Hf sl e [Hsl|(y & Hy & ->)]%elem_of_alter He Ho; [by eapply Hc|]. destruct (Hf y) as [H1' H2']. rewrite H1', H2' in Ho.
  eapply Hc; [by eapply list_elem_of_lookup_2|done|done].
Qed.

Lemma covers_trim d sl e : wf d → covers d → sl ∈ trim (node_size (mem t)) <$> slices d → e ∈ stream t →
  slice_start sl ≤ offset e < cursor sl → kept (dl_store d) e.
Proof using Hsz.
  clear Hfuel. intros Hwf Hc (s & -> & Hs)%list_elem_of_fmap He Ho. pose proof (stream_bounds t e Hsz He) as (He1 & He2 & He3).
  destruct Hwf as [_ _ _ _ Hok _ _]. pose proof (proj1 (Forall_forall _ _) Hok s Hs) as [H1' H2' H3' _].
  apply (Hc s e Hs He). cbn [trim slice_start cursor] in Ho. unfold clamp in Ho. repeat case_match; lia.
Qed.

Lemma covers_adopt d : wf d → total d = None → covers d → covers (adopt_total d (node_size (mem t))).
Proof using Hsz.
  clear Hfuel. intros Hwf Hnone Hc. pose proof (node_size_fits (mem t)) as Hfit. unfold fits in Hfit. pose proof Hwf as [_ Hh _ _ _ _ _].
  unfold adopt_total, set_total, set_slices, covers. cbv zeta. cbn [slices hinted_total max_in_flight dl_store].
  destruct (Z.eqb_spec (node_size (mem t)) (hinted_total d)) as [_|Hneq]; [exact Hc|].
  assert (∀ sl e, sl ∈ trim (node_size (mem t)) <$> slices d → e ∈ stream t → slice_start sl ≤ offset e < cursor sl → kept (dl_store d) e) as Htr
    by (intros sl e; by apply covers_trim).
  destruct (Z.ltb_spec (hinted_total d) (node_size (mem t))) as [Hlt|Hge]; cbn [slices dl_store]; [|exact Htr].
  intros sl e [Hsl|Hsl]%elem_of_app He Ho; [by eapply Htr|]. apply split_new in Hsl as (Hcur & _); [lia|lia..].
Qed.

Lemma covers_keep d nodes : covers d → (∀ m, m ∈ concat (strings <$> nodes) → of_trie t m) → covers (keep_nodes d nodes).
Proof using Type*.
  intros Hc Hn sl e Hsl He Ho m Hm. cbn [keep_nodes dl_store]. rewrite put_nodes_strings. apply put_values_keep.
  - intros v Hv. apply of_trie_distinct; [by eapply stream_of_trie|by apply Hn].
  - right. by eapply (Hc sl e).
Qed.

Lemma kept_nodes d nodes e : (∀ m, m ∈ concat (strings <$> nodes) → of_trie t m) → e ∈ nodes → kept (dl_store (keep_nodes d nodes)) e.
Proof using Type*.
  intros Hn He m Hm. cbn [keep_nodes dl_store]. rewrite put_nodes_strings. assert (m ∈ concat (strings <$> nodes)) as Hin.
  { apply in_strings. by exists e. }
  apply put_values_keep; [|by left]. intros v Hv. apply of_trie_distinct; by apply Hn.
Qed.

Lemma covers_move d from reached : wf d → covers d → (∀ e, e ∈ rest_from t from → offset e < reached → kept (dl_store d) e) →
  covers (move_slice d from reached).2.
Proof using Hsz.
  clear Hfuel. intros Hwf Hc Hr. unfold move_slice. destruct (slice_for d from) as [i|] eqn:Hi; [|done].
  apply slice_for_flying in Hi as (s & Hs & _ & Hcur). pose proof Hwf as [Hg _ _ _ Hok _ _].
  apply (Forall_lookup_1 _ _ _ _ Hok) in Hs as Hsok. destruct Hsok as [H1' H2' _ _].
  assert (from ≤ cursor s) as Hle.
  { destruct Hcur as [<-|<-]; [lia|]. unfold aligned. pose proof (Z.mul_div_le (cursor s) (grid d)). lia. }
  intros sl e [Hsl|(y & Hy & ->)]%elem_of_alter He Ho; [by eapply Hc|]. rewrite Hs in Hy. injection Hy as <-. cbn [advance slice_start cursor] in Ho.
  destruct (Z.lt_ge_cases (offset e) (cursor s)) as [Hlt|Hge]; [eapply (Hc s e); [by eapply list_elem_of_lookup_2|done|lia]|].
  apply Hr; [|lia]. apply rest_stream. pose proof (stream_bounds t e Hsz He). split; [lia|done].
Qed.

Lemma covers_accept store0 d from proof r d' : sound store0 d → covers d → apart proof → whole from proof →
  accept fuel d from proof = Some (r, d') → covers d'.
Proof using Type*.
  intros Hso Hc Hap Hwh Ha. pose proof Hso as [Hwf Hroot Htot _].
  apply accept_cases in Ha as [(e & _ & [->| ->])|(ver & e & Hver & Hlast & Hfor & -> & _)]; [done| |].
  { unfold release. destruct (slice_for d from); [by apply covers_alter|done]. }
  pose proof (slice_for_nonneg d from Hwf Hfor) as Hfrom. rewrite Hroot in Hver.
  destruct (verified_strings from proof ver Hap Hfrom Hver) as [Hvt Hvs]. destruct (Hwh ver Hver) as [k Hk].
  assert (∃ d1, d1 = match total d with Some _ => d | None => adopt_total d (verified_total ver) end ∧ wf d1 ∧ covers d1) as (d1 & <- & Hwf1 & Hc1).
  { eexists. split; [done|]. destruct (total d) eqn:Ht; [done|]. rewrite Hvt. split; [|by apply covers_adopt].
    pose proof (node_size_fits (mem t)) as Hfit. by apply wf_adopt. }
  apply covers_move; [by apply wf_keep|by apply covers_keep|]. intros x Hx Hlt. apply kept_nodes; [done|]. rewrite Hk in *.
  destruct (run_reaches t from k e x Hsz Hfrom Hlast) as [Hend Hin]. apply Hin; [done|]. by rewrite <- Hend.
Qed.

Lemma covers_step store0 d ev d' : sound store0 d → covers d → proved (λ from proof, apart proof ∧ whole from proof) ev →
  dl_step fuel ev d = Some d' → covers d'.
Proof using Type*.
  intros Hso Hc Hev. destruct ev as [|from|from proof|from chunk]; cbn [dl_step proved] in *; [..|done].
  - intros [= <-]. unfold next_request. destruct (_ <=? _)%nat; [done|]. destruct (find_slice _ _) as [i|]; [|done].
    destruct (slices d !! i); [|done]. by apply covers_alter.
  - intros [= <-]. unfold release. destruct (slice_for d from); [by apply covers_alter|done].
  - destruct (accept fuel d from proof) as [[r d2]|] eqn:Ha; [|done]. intros [= <-]. destruct Hev. by eapply covers_accept.
Qed.

Lemma covers_run store0 evs : ∀ d, sound store0 d → covers d → Forall (proved (λ from proof, apart proof ∧ whole from proof)) evs →
  ∃ d', dl_run fuel evs d = Some d' ∧ sound store0 d' ∧ covers d'.
Proof using Type*.
  induction evs as [|ev evs IH]; intros d Hso Hc Hevs; [by exists d|]. inversion_clear Hevs as [|? ? Hev Hrest]. cbn [dl_run].
  destruct (sound_step store0 d ev Hso) as (d2 & Hd2 & Hso2); [by destruct ev; cbn in *; naive_solver|].
  rewrite Hd2. apply IH; [done|exact (covers_step store0 d ev d2 Hso Hc Hev Hd2)|done].
Qed.

Lemma covers_init hinted config grid_ (store0 : Ct) : 0 ≤ hinted < 2 ^ 64 → covers (on_grid (hash_of t) hinted config grid_ store0).
Proof using Type. clear Hfuel. intros Hh sl e Hsl _ Ho. apply split_new in Hsl as (Hcur & _); [lia|lia..]. Qed.

(** A complete download is the whole trie, and its check passes. *)
Lemma complete_stored store0 d : sound store0 d → covers d → is_complete d = true → Stored (dl_store d) t ∧ Own (dl_store d) t.
Proof using Hst Hown Hsz.
  clear Hfuel. intros Hso Hc [[T HT] Hall]%complete_covered. pose proof Hso as [Hwf _ Htot _]. pose proof (Htot T HT) as ->.
  destruct Hwf as [_ _ Hti _ _ _ _]. unfold sought_size in Hti. rewrite HT in Hti.
  assert (∀ m, of_trie t m → ts_get (dl_store d) (keccak m) = Some m) as Hget.
  { intros m (x & Hx & Hm). destruct (layout_has everything (inorder t) 0 x Hx) as (e & He & Hs).
    pose proof (stream_bounds t e Hsz He) as Hb. destruct (tiles_find _ _ _ (offset e) Hti) as (sl & Hsl & Ho); [lia|].
    apply (Hc sl e Hsl He); [|rewrite Hs; by apply elem_of_cons]. pose proof (proj1 (Forall_forall _ _) Hall sl Hsl). cbn in *. lia. }
  split.
  - apply (needs_stored store (dl_store d) t Hst). intros k m (v & -> & Hv)%needs_of_trie Hm.
    rewrite (of_trie_stored store t v Hst Hown Hv) in Hm. injection Hm as <-. by apply Hget.
  - apply Hget. exists t. split; [apply inorder_self|by left].
Qed.

Lemma stored_verifies store0 d vfuel threads : sound store0 d → Stored (dl_store d) t → Own (dl_store d) t → (tsize t < vfuel)%nat →
  (∃ r, verify_stored vfuel d threads r) ∧ ∀ r, verify_stored vfuel d threads r → r = Ok (u64 (Z.of_nat (tsize t))).
Proof using Type.
  clear Hfuel. intros Hso Hs Ho Hvf. pose proof Hso as [Hwf Hroot Htot _]. pose proof (compat_refl (dl_store d)) as Hrefl.
  assert (try_from_message (dl_store d) (to_message (mem t)) = Some (load (dl_store d) t)) as Hparse by by apply (parse_load (dl_store d)).
  assert (ts_get (dl_store d) (root_hash d) = Some (to_message (mem t))) as Hget by by rewrite Hroot.
  assert (∀ r, verify_complete vfuel (dl_store d) (load (dl_store d) t) threads r → r = Ok (u64 (Z.of_nat (tsize t)))) as Hvc.
  { intros r Hr. pose proof (verify_complete_result (dl_store d) (dl_store d) Hrefl vfuel t threads r Hs Hvf Hr) as Hres.
    destruct r as [n|[h|h]]; [by destruct Hres as [_ ->]|..]; destruct Hres as [Hn Hnone]; destruct (stored_needs (dl_store d) t h Hs Hn); congruence. }
  assert (total_size (load (dl_store d) t) = node_size (mem t)) as Hts by by apply (load_total_size (dl_store d) (dl_store d) Hrefl).
  split.
  - destruct (verify_complete_ends (dl_store d) (dl_store d) Hrefl vfuel t threads Hs Hvf) as [r Hr]. eexists. eapply vs_walked; [done|done| |exact Hr].
    unfold size_expected. destruct (total d) as [T|] eqn:HT; [|done]. by rewrite (Htot T eq_refl).
  - intros r Hr. destruct Hr as [Hg|m Hg Hp|m root T Hg Hp HT Hts'|m root r Hg Hp Hexp Hr].
    + congruence.
    + rewrite Hget in Hg. injection Hg as <-. congruence.
    + rewrite Hget in Hg. injection Hg as <-. rewrite Hparse in Hp. injection Hp as <-. by rewrite (Htot T HT) in Hts'.
    + rewrite Hget in Hg. injection Hg as <-. rewrite Hparse in Hp. injection Hp as <-. by rewrite (Hvc r Hr).
Qed.

(** *** Completion *)

(** A peer that answers, within the size allowed, with some of the run asked for. *)
Definition serves (bud : Z) (peer : ChunkRequest → ChunkProof) : Prop :=
  ∀ from, 0 ≤ from < node_size (mem t) → let p := peer (mkChunkRequest from bud) in
    apart p ∧ ∃ k, verify_chunk fuel (hash_of t) from p = Some (Ok (mkVerified (take k (rest_from t from)) (node_size (mem t)))) ∧
      (answer_size p ≤ Z.max (sat_mul 64 bud OVERSIZE_FACTOR) (2 ^ 18) ∨ (length (entries p) ≤ 1)%nat).

Definition quiet (l : list Slice) : Prop := Forall (λ s, in_flight s = false) l.

(** Between rounds, once the size is known. *)
Record ready store0 bud d : Prop := {
  re_sound : sound store0 d;
  re_covers : covers d;
  re_quiet : quiet (slices d);
  re_total : total d = Some (node_size (mem t));
  re_budget : budget d = bud;
}.

Definition slice_weight (s : Slice) : Z :=
  if cursor s <? slice_end s then 2 * (slice_end s - cursor s) + (if exact s then 0 else 1) else 0.

Definition weight_left (l : list Slice) : Z := foldr (λ s a, slice_weight s + a) 0 l.

Lemma weight_left_nonneg l : 0 ≤ weight_left l.
Proof using Type.
  clear Hfuel. induction l as [|s l IH]; [done|]. cbn [weight_left foldr]. fold (weight_left l). unfold slice_weight.
  destruct (Z.ltb_spec (cursor s) (slice_end s)); destruct (exact s); lia.
Qed.

Lemma weight_alter f l : ∀ i s, l !! i = Some s → slice_weight (f s) < slice_weight s → weight_left (alter f i l) < weight_left l.
Proof using Type.
  clear Hfuel. induction l as [|x l IH]; intros i s Hi Hw; [done|]. destruct i as [|i].
  - injection Hi as ->. change (slice_weight (f s) + weight_left l < slice_weight s + weight_left l). lia.
  - change (slice_weight x + weight_left (alter f i l) < slice_weight x + weight_left l). specialize (IH i s Hi Hw). lia.
Qed.

Lemma quiet_find q l i s : quiet l → l !! i = Some s → find_slice (λ s, in_flight s && q s) (alter departed i l) = if q (departed s) then Some i else None.
Proof using Type.
  intros Hq. revert i. induction Hq as [|x l Hx Hq IH]; intros i Hi; [done|]. destruct i as [|i].
  - injection Hi as ->. cbn. destruct (q _); [done|]. clear -Hq. induction Hq as [|y l Hy _ IH]; [done|]. cbn [find_slice].
    rewrite Hy. cbn [andb]. destruct (find_slice _ l); [done|done].
  - change (alter departed (S i) (x :: l)) with (x :: alter departed i l). cbn [find_slice]. rewrite Hx. cbn [andb].
    rewrite (IH i Hi). by destruct (q _).
Qed.

Lemma quiet_flying l : quiet l → flying l = 0%nat.
Proof using Type. apply new_flying. Qed.

(** The request of a quiet download is for a slice that is not finished. *)
Lemma quiet_request d : wf d → quiet (slices d) →
  Forall (λ s, slice_end s ≤ cursor s) (slices d) ∨
  ∃ i s, find_slice wants_work (slices d) = Some i ∧ slices d !! i = Some s ∧ cursor s < slice_end s ∧
    let from := if exact s then cursor s else aligned (grid d) (cursor s) in
    next_request d = (Some (mkChunkRequest from (budget d)), set_slices d (alter departed i (slices d))) ∧
    slice_for (set_slices d (alter departed i (slices d))) from = Some i ∧ 0 ≤ from ≤ cursor s.
Proof using Type.
  clear Hfuel. intros Hwf Hq. destruct (find_slice wants_work (slices d)) as [i|] eqn:Hi.
  - right. apply find_slice_Some in Hi as Hi'. destruct Hi' as (s & Hs & [_ Hw%Z.ltb_lt]%andb_true_iff). exists i, s. pose proof Hwf as [Hg _ _ _ Hok _ Hm].
    apply (Forall_lookup_1 _ _ _ _ Hok) in Hs as Hsok. destruct Hsok as [H1' H2' _ _].
    assert (0 ≤ aligned (grid d) (cursor s) ≤ cursor s) as Hal.
    { unfold aligned. pose proof (Z.div_pos (cursor s) (grid d)). pose proof (Z.mul_div_le (cursor s) (grid d)). nia. }
    cbv zeta. split_and!; [done|done|done| | |destruct (exact s); lia..].
    + unfold next_request. rewrite (quiet_flying _ Hq), Hi, Hs. by rewrite (proj2 (Nat.leb_gt _ _)).
    + unfold slice_for. cbn [set_slices slices grid]. rewrite !(quiet_find _ _ i s) by done. cbn [departed cursor].
      destruct (Z.eqb_spec (cursor s) (if exact s then cursor s else aligned (grid d) (cursor s))) as [|Hne']; [done|].
      destruct (exact s); [done|]. by rewrite Z.eqb_refl.
  - left. apply find_slice_None in Hi. apply Forall_forall. intros s Hs. pose proof (proj1 (Forall_forall _ _) Hi s Hs) as Hw.
    pose proof (proj1 (Forall_forall _ _) Hq s Hs) as Hf. cbn in Hw, Hf. unfold wants_work in Hw. rewrite Hf in Hw. cbn in Hw. apply Z.ltb_ge in Hw. exact Hw.
Qed.

Section serving.
Context (bud : Z) (peer : ChunkRequest → ChunkProof) (Hpeer : serves bud peer).

Lemma accept_served d i from : wf d → root_hash d = hash_of t → budget d = bud → slice_for d from = Some i → 0 ≤ from < node_size (mem t) →
  let p := peer (mkChunkRequest from bud) in
  ∃ k e, from < end_of e ∧ apart p ∧ whole from p ∧ ∃ r,
    let d1 := match total d with None => adopt_total d (node_size (mem t)) | Some _ => d end in
    accept fuel d from p = Some (r, (move_slice (keep_nodes d1 (take k (rest_from t from))) from (end_of e)).2).
Proof using Hsz Hpeer.
  intros Hwf Hroot Hbud Hi Hfrom p. destruct (Hpeer from Hfrom) as (Hap & k & Hver & Hsize). fold p in Hap, Hver, Hsize.
  pose proof (verified_nonempty _ _ _ _ _ Hver) as Hnil. cbn [verified_nodes] in Hnil.
  destruct (last (take k (rest_from t from))) as [e|] eqn:Hlast; [|by apply last_None in Hlast].
  destruct (run_reaches t from k e e Hsz (proj1 Hfrom) Hlast) as [Hend _].
  assert (e ∈ rest_from t from) as He%rest_stream by (exact (elem_of_sublist _ _ _ (last_Some_elem_of _ _ Hlast) (sublist_take _ _))).
  exists k, e. split; [rewrite Hend; by destruct He|]. split; [done|]. split.
  { intros ver Hv. rewrite Hver in Hv. injection Hv as <-. by exists k. }
  cbv zeta. unfold accept. rewrite Hi, Hroot, Hver. assert (oversized d p = false) as ->.
  { unfold oversized. rewrite Hbud. apply andb_false_iff. destruct Hsize as [Hs|Hs]; [left; by apply Z.ltb_ge|right; by apply Nat.ltb_ge]. }
  cbv zeta. cbn [verified_nodes verified_total]. rewrite Hlast. destruct (move_slice _ _ _). by eexists.
Qed.

Lemma ready_round store0 d : ready store0 bud d → is_complete d = false →
  ∃ d', dl_round fuel peer d = Some d' ∧ ready store0 bud d' ∧ weight_left (slices d') < weight_left (slices d).
Proof using Type*.
  intros [Hso Hc Hq Ht Hb] Hnot. pose proof Hso as [Hwf Hroot _ _].
  destruct (quiet_request d Hwf Hq) as [Hall|(i & s & Hi & Hs & Hlt & Hnext & Hfor & Hfrom)].
  { exfalso. assert (is_complete d = true) by (apply complete_covered; rewrite Ht; by split; [eexists|]). congruence. }
  cbv zeta in *. set (from := if exact s then cursor s else aligned (grid d) (cursor s)) in *. set (d1 := set_slices d (alter departed i (slices d))) in *.
  assert (0 ≤ from < node_size (mem t)) as Hin.
  { destruct Hwf as [_ _ Htl _ _ _ _]. unfold sought_size in Htl. rewrite Ht in Htl.
    pose proof (tiles_end _ _ _ s Htl (list_elem_of_lookup_2 _ _ _ Hs)). clear Hfuel. lia. }
  assert (sound store0 d1 ∧ covers d1) as [Hso1 Hc1].
  { split; [|by apply covers_alter]. pose proof (wf_next d Hwf) as Hw. rewrite Hnext in Hw. by apply sound_slices. }
  pose proof Hso1 as [Hwf1 _ _ _].
  destruct (accept_served d1 i from Hwf1 Hroot Hb Hfor Hin) as (k & e & Hreach & Hap & Hwh & r & Hacc). cbv zeta in Hacc.
  assert (total d1 = Some (node_size (mem t))) as Ht1 by done. rewrite Ht1 in Hacc.
  set (d2 := (move_slice _ _ _).2) in Hacc. assert (slices d2 = alter (advance (end_of e) ∘ departed) i (slices d) ∧ total d2 = total d ∧ budget d2 = budget d) as (Hsl & Ht2 & Hb2).
  { unfold d2, move_slice. change (slice_for (keep_nodes d1 (take k (rest_from t from))) from) with (slice_for d1 from). rewrite Hfor.
    split_and!; [|done|done]. cbn. by rewrite alter_alter. }
  exists d2. split_and!.
  - unfold dl_round. rewrite Hnext, Hb. cbn [request_from]. by rewrite Hacc.
  - split; [by eapply sound_accept|by eapply covers_accept| |by rewrite Ht2|by rewrite Hb2]. rewrite Hsl. by apply Forall_alter_ok.
  - rewrite Hsl. eapply weight_alter; [done|]. unfold slice_weight. cbn [compose advance departed cursor slice_end exact]. clear Hfuel.
    rewrite (proj2 (Z.ltb_lt (cursor s) (slice_end s)) Hlt). unfold from in Hreach.
    destruct (Z.ltb_spec (Z.max (end_of e) (cursor s)) (slice_end s)); destruct (Z.leb_spec (end_of e) (cursor s)); destruct (exact s); lia.
Qed.

Lemma ready_rounds store0 n : ∀ d, ready store0 bud d → weight_left (slices d) ≤ Z.of_nat n →
  ∃ m d', dl_rounds fuel peer m d = Some d' ∧ ready store0 bud d' ∧ is_complete d' = true.
Proof using Type*.
  induction n as [|n IH]; intros d Hr Hw; (destruct (is_complete d) eqn:Hc; [by exists 0%nat, d|]);
    destruct (ready_round store0 d Hr Hc) as (d2 & Hd2 & Hr2 & Hlt).
  - pose proof (weight_left_nonneg (slices d2)). exfalso. clear Hfuel. lia.
  - destruct (IH d2 Hr2) as (m & d' & Hm & Hd'); [clear Hfuel; lia|]. exists (S m), d'. cbn [dl_rounds]. by rewrite Hd2.
Qed.

(** *** The first round *)

Lemma split_head to count : 1 ≤ to < 2 ^ 64 → (0 < count)%nat →
  ∃ s l, split 0 to count = s :: l ∧ cursor s = 0 ∧ slice_start s = 0 ∧ 0 < slice_end s ∧ exact s = false ∧ quiet (s :: l).
Proof using Type.
  clear Hfuel. intros Hto Hcount. assert (quiet (split 0 to count)) as Hq.
  { apply Forall_forall. intros s Hs. apply split_new in Hs as (_ & ? & _); [done|lia..]. }
  revert Hq. unfold split, sat_sub. cbv zeta. rewrite Z.sub_0_r, (Z.max_r 0) by lia. set (n := Z.to_nat _).
  assert (0 < Z.of_nat n ≤ to) as Hn by (unfold n; lia). assert (1 ≤ to / Z.of_nat n) as Hstep by (apply Z.div_le_lower_bound; lia).
  pose proof (Z.mul_div_le to (Z.of_nat n)). destruct n as [|n]; [lia|]. cbn [seq fmap list_fmap]. intros Hq.
  eexists _, _. split; [done|]. rewrite slice_at_values in * by lia. cbn [cursor slice_start slice_end exact]. split_and!; [lia|lia| |done|exact Hq].
  destruct (0 + 1 =? S n)%nat; lia.
Qed.

Lemma adopt_head d h l T : slices d = h :: l → cursor h = 0 → slice_start h = 0 → 0 ≤ slice_end h → quiet l → 0 ≤ T < 2 ^ 64 → 1 ≤ hinted_total d →
  ∃ h' l', slices (adopt_total d T) = h' :: l' ∧ in_flight h' = in_flight h ∧ cursor h' = 0 ∧ quiet l'.
Proof using Type.
  clear Hfuel. intros Hs Hc H0' Hend Hq HT Hh. unfold adopt_total, set_total, set_slices. cbv zeta. cbn [slices hinted_total max_in_flight].
  destruct (T =? hinted_total d); [by exists h, l|].
  assert (quiet (trim T <$> l)) as Hqt by (apply Forall_fmap; eapply Forall_impl; [exact Hq|done]).
  assert (cursor (trim T h) = 0) as Hct.
  { cbn [trim cursor]. rewrite Hc, H0'. unfold clamp. repeat case_match; lia. }
  destruct (Z.ltb_spec (hinted_total d) T) as [Hlt|Hge]; cbn [slices]; rewrite Hs; cbn [fmap list_fmap app]; eexists _, _; (split; [done|]); split_and!; try done.
  apply Forall_app. split; [done|]. apply Forall_forall. intros s Hin. apply split_new in Hin as (_ & ? & _); [done|lia..].
Qed.

Lemma first_round store0 hinted config grid_ : 0 ≤ hinted < 2 ^ 64 → 0 ≤ grid_ → chunk_bytes config = bud →
  ∃ d, dl_round fuel peer (on_grid (hash_of t) hinted config grid_ store0) = Some d ∧ ready store0 bud d.
Proof using Type*.
  intros Hh Hg Hb. set (d0 := on_grid _ _ _ _ _). pose proof (sound_init store0 hinted config grid_ Hh Hg) as Hso. pose proof (covers_init hinted config grid_ store0 Hh) as Hc.
  fold d0 in Hso, Hc. pose proof Hso as [Hwf _ _ _].
  destruct (split_head (Z.max 1 hinted) (Nat.max 1 (config_in_flight config))) as (s & l & Hsl & Hcur & Hstart & Hend & Hex & Hq); [clear Hfuel; lia..|].
  assert (slices d0 = s :: l) as Hs0 by exact Hsl. assert (quiet (slices d0)) as Hq0 by by rewrite Hs0.
  assert (budget d0 = bud) as Hb0 by exact Hb. assert (total d0 = None) as Hn0 by reflexivity. clearbody d0.
  destruct (quiet_request d0 Hwf Hq0) as [Hall|(i & s' & Hi & Hs & Hlt & Hnext & Hfor & Hfrom)].
  { rewrite Hs0 in Hall. inversion_clear Hall. clear Hfuel. lia. }
  assert (wants_work s = true) as Hww by (unfold wants_work; inversion Hq as [|? ? Hfl]; subst; rewrite Hfl, Hcur; by apply Z.ltb_lt).
  rewrite Hs0 in Hi. cbn [find_slice] in Hi. rewrite Hww in Hi. injection Hi as <-. rewrite Hs0 in Hs. injection Hs as <-.
  rewrite Hex, Hcur in *. change (aligned (grid d0) 0) with 0 in *. cbv zeta in *. set (d1 := set_slices d0 _) in *.
  assert (sound store0 d1 ∧ covers d1) as [Hso1 Hc1].
  { split; [|by apply covers_alter]. pose proof (wf_next d0 Hwf) as Hw. rewrite Hnext in Hw. by apply sound_slices. }
  pose proof Hso1 as [Hwf1 _ _ _]. pose proof (node_size_fits (mem t)) as Hfit. unfold fits in Hfit.
  assert (0 ≤ 0 < node_size (mem t)) as Hin by (pose proof (sized_pos t Hsz); clear Hfuel; lia).
  destruct (accept_served d1 0%nat 0 Hwf1 (so_root _ _ Hso1) Hb0 Hfor Hin) as (k & e & Hreach & Hap & Hwh & r & Hacc). cbv zeta in Hacc.
  assert (total d1 = None) as Hn1 by exact Hn0. rewrite Hn1 in Hacc. set (d2 := (move_slice _ _ _).2) in Hacc.
  destruct (adopt_head d1 (departed s) l (node_size (mem t))) as (h' & l' & Hsl2 & Hf2 & Hc2 & Hq2); [unfold d1; cbn [set_slices slices]; by rewrite Hs0|done|done|clear Hfuel; cbn; lia|by inversion Hq|done| |].
  { destruct Hwf1 as [_ Hh1 _ _ _ _ _]. clear Hfuel. lia. }
  destruct (adopt_fields d1 (node_size (mem t))) as (_ & _ & _ & Hat & _ & _ & Hab).
  assert (quiet (slices d2) ∧ total d2 = Some (node_size (mem t)) ∧ budget d2 = bud) as (Hq3 & Ht3 & Hb3).
  { unfold d2, move_slice, slice_for. cbn [keep_nodes slices]. rewrite Hsl2. cbn [find_slice]. rewrite Hf2, Hc2. cbn.
    split_and!; [constructor; [done|exact Hq2]|exact Hat|by rewrite Hab]. }
  clearbody d2. exists d2. split; [unfold dl_round; rewrite Hnext, Hb0; cbn [request_from]; by rewrite Hacc|].
  split; [by eapply sound_accept|by eapply covers_accept|done|done|done].
Qed.

End serving.

End coverage.

End download.

(** ** Servers *)

Lemma whole_run `{Keccak} t fuel from p k n :
  verify_chunk fuel (hash_of t) from p = Some (Ok (mkVerified (take k (rest_from t from)) n)) → whole t fuel from p.
Proof. intros Heq ver Hver. rewrite Heq in Hver. injection Hver as <-. by exists k. Qed.

Lemma answer_size_fits p : answer_size p ≤ U64_MAX.
Proof. pose proof (wrap_fits 64 (sum_lengths (entry_message <$> entries p) + sum_lengths (witness p))). unfold answer_size, U64_MAX, u64, fits in *. lia. Qed.

(** A server that holds the trie is a peer that answers. *)
Lemma server_serves `{Keccak} {St} `{TrieStore St} (store : St) t V n fuel bud :
  Readable store t → Own store t → distinct V → held_in V store → (length (inorder t) < fuel)%nat → to_message n = to_message (mem t) →
  let peer rq := proof_of (prove_chunk fuel store n (request_from rq) (request_budget rq)) in
  (∀ from, 0 ≤ from < node_size (mem t) → answer_size (peer (mkChunkRequest from bud)) ≤ Z.max (sat_mul 64 bud OVERSIZE_FACTOR) (2 ^ 18)) →
  serves t V fuel bud peer.
Proof.
  intros Hrd Hown Hdist Hheld Hfuel Hn peer Hsize from Hfrom. cbv zeta. pose proof Hrd as [_ _ Hsz _]. specialize (Hsize from Hfrom).
  destruct (proved_run store t V n fuel from (StopBudget bud) U64_MAX) as (p & Hp & Hap & Hv); try done.
  destruct (run_prefix t from (StopBudget bud) U64_MAX Hsz Hfrom) as (k & _ & Heq).
  assert (peer (mkChunkRequest from bud) = p) as Hpp.
  { unfold peer. cbn [request_from request_budget]. unfold prove_chunk, chunk_from_limited. by rewrite Hp. }
  rewrite Hpp in *. split; [done|]. exists k. rewrite Hv, Heq. split; [done|by left].
Qed.

(** ** Sizes taken from a peer *)

Lemma total_step `{Keccak} {Ct} `{TrieStore Ct} fuel ev (d d' : StateDownload Ct) T : total d = Some T → dl_step fuel ev d = Some d' → total d' = Some T.
Proof.
  assert (∀ (d : StateDownload Ct) from reached, total (move_slice d from reached).2 = total d) as Hmove.
  { intros d2 from reached. unfold move_slice. by destruct (slice_for d2 from). }
  intros HT. destruct ev as [|from|from proof|from chunk]; cbn [dl_step].
  - intros [= <-]. unfold next_request. destruct (_ <=? _)%nat; [done|]. destruct (find_slice _ _) as [i|]; [|done]. by destruct (slices d !! i).
  - intros [= <-]. unfold release. by destruct (slice_for d from).
  - destruct (accept fuel d from proof) as [[r d2]|] eqn:Ha; [|done]. intros [= <-].
    apply accept_cases in Ha as [(e & _ & [->| ->])|(ver & e & _ & _ & _ & -> & _)]; [done|unfold release; by destruct (slice_for d from)|].
    rewrite Hmove. cbn [keep_nodes total]. by rewrite HT.
  - intros [= <-]. unfold accept_rebuilt. cbv zeta. pose proof (Hmove (keep_rebuilt d chunk) from (sat_add 64 from (grid (keep_rebuilt d chunk)))) as Hm.
    destruct (move_slice _ _ _) as [adv d2]. cbn [snd] in *. change (total (keep_rebuilt d chunk)) with (total d) in Hm. rewrite HT in Hm. rewrite Hm. exact Hm.
Qed.

(** ** Theorems *)


(** From peers whose proofs are complete: everything before the cursor of a slice, within the
    slice, is stored; so a complete download is the whole trie, and the check of what was stored
    passes, on any number of threads. *)
Theorem download_covers `{Keccak} {St Ct} `{TrieStore St} `{TrieStoreLaws Ct} (store : St) (store0 : Ct) t V fuel vfuel hinted config grid_ evs :
  Readable store t → Own store t → distinct V → held_in V store →
  (length (inorder t) < fuel)%nat → (tsize t < vfuel)%nat → 0 ≤ hinted < 2 ^ 64 → 0 ≤ grid_ < 2 ^ 64 →
  Forall (proved (λ from proof, apart V proof ∧ whole t fuel from proof)) evs →
  ∃ d, dl_run fuel evs (on_grid (hash_of t) hinted config grid_ store0) = Some d ∧ covers t d ∧
    (is_complete d = true → Stored (dl_store d) t ∧ Own (dl_store d) t ∧
      ∀ threads, (∃ r, verify_stored vfuel d threads r) ∧ ∀ r, verify_stored vfuel d threads r → r = Ok (u64 (Z.of_nat (tsize t)))).
Proof.
  intros [Hst Hne Hsz _] Hown Hdist Hheld Hfuel Hvf Hh Hg Hevs.
  destruct (covers_run store t V fuel Hst Hown Hne Hdist Hheld Hfuel Hsz store0 evs (on_grid (hash_of t) hinted config grid_ store0)) as (d & Hd & Hso & Hc);
    [apply sound_init; lia|by apply covers_init|done|]. exists d. split_and!; [done|done|]. intros Hcomp.
  destruct (complete_stored store t Hst Hown Hsz store0 d Hso Hc Hcomp) as [Hs Ho]. split_and!; [done|done|].
  intros threads. by apply (stored_verifies t store0).
Qed.

(** C5: One peer that answers is enough: asked again and again, it brings the download to its end,
    whatever size was claimed at first, and the whole trie is stored and passes the check. *)
Theorem download_finishes `{Keccak} {St Ct} `{TrieStore St} `{TrieStoreLaws Ct} (store : St) (store0 : Ct) t V fuel vfuel hinted config grid_ peer :
  Readable store t → Own store t → distinct V → held_in V store →
  (length (inorder t) < fuel)%nat → (tsize t < vfuel)%nat → 0 ≤ hinted < 2 ^ 64 → 0 ≤ grid_ < 2 ^ 64 →
  serves t V fuel (chunk_bytes config) peer →
  ∃ rounds d, dl_rounds fuel peer rounds (on_grid (hash_of t) hinted config grid_ store0) = Some d ∧ is_complete d = true ∧
    Stored (dl_store d) t ∧ Own (dl_store d) t ∧
    ∀ threads, (∃ r, verify_stored vfuel d threads r) ∧ ∀ r, verify_stored vfuel d threads r → r = Ok (u64 (Z.of_nat (tsize t))).
Proof.
  intros [Hst Hne Hsz _] Hown Hdist Hheld Hfuel Hvf Hh Hg Hpeer.
  destruct (first_round store t V fuel Hst Hown Hne Hdist Hheld Hfuel Hsz _ peer Hpeer store0 hinted config grid_ Hh) as (d1 & Hd1 & Hr1); [lia|done|].
  destruct (ready_rounds store t V fuel Hst Hown Hne Hdist Hheld Hfuel Hsz _ peer Hpeer store0 (Z.to_nat (weight_left (slices d1))) d1 Hr1) as (n & d & Hn & Hr & Hcomp).
  { pose proof (weight_left_nonneg (slices d1)). lia. }
  exists (S n), d. pose proof Hr as [Hso Hc _ _ _]. destruct (complete_stored store t Hst Hown Hsz store0 d Hso Hc Hcomp) as [Hs Ho].
  split_and!; [cbn [dl_rounds]; by rewrite Hd1|done|done|done|]. intros threads. by apply (stored_verifies t store0).
Qed.

(** A download that takes a chunk in the other format first keeps the size a peer claimed: no
    proved chunk changes it later. *)
Theorem rebuilt_size_stays `{Keccak} {Ct} `{TrieStore Ct} (d d' : StateDownload Ct) from chunk fuel evs :
  total d = None → dl_run fuel evs (accept_rebuilt d from chunk).2 = Some d' → total d' = Some (hinted_total d).
Proof.
  intros Hnone. assert (total (accept_rebuilt d from chunk).2 = Some (hinted_total d)) as Hfirst.
  { unfold accept_rebuilt. cbv zeta. pose proof (frame_move (keep_rebuilt d chunk) from (sat_add 64 from (grid (keep_rebuilt d chunk)))) as [_ _ _ _ Hhint].
    assert (total (move_slice (keep_rebuilt d chunk) from (sat_add 64 from (grid (keep_rebuilt d chunk)))).2 = None) as Hm.
    { unfold move_slice. by destruct (slice_for _ from). }
    destruct (move_slice _ _ _) as [adv d2]. cbn [snd] in *. rewrite Hm. destruct (adopt_fields d2 (hinted_total d2)) as (_ & _ & _ & -> & _). by rewrite Hhint. }
  revert Hfirst. generalize (accept_rebuilt d from chunk).2. induction evs as [|ev evs IH]; intros d1 Hd1; cbn [dl_run]; [by intros [= <-]|].
  destruct (dl_step fuel ev d1) as [d2|] eqn:Hs; [|done]. apply IH. by eapply total_step.
Qed.

(** ** Examples *)

Lemma dropped_records p m : m ∈ proof_records (mkChunkProof (drop 1 (entries p)) []) → m ∈ proof_records p.
Proof.
  destruct p as [es w]. unfold proof_records. cbn [entries witness app]. rewrite !elem_of_app, !list_elem_of_In, !in_concat. setoid_rewrite <- list_elem_of_In.
  rewrite !fmap_drop. intros [Hm|(x & Hx & Hin)]; right; [left|right; exists x; split; [|done]]; (eapply elem_of_sublist; [|apply sublist_drop]); eassumption.
Qed.

Section example.
#[local] Existing Instance poly_keccak.

Definition example_V : gset bytes := list_to_set example_strings.

Lemma example_distinct : distinct example_V.
Proof. exact (proj1 example_apart). Qed.

Lemma example_held : held_in example_V example_store.
Proof. exact (proj1 (proj2 example_apart)). Qed.

Lemma holed_apart : apart example_V holed_proof.
Proof. intros m Hm. apply (proj2 (proj2 example_apart)). exact (dropped_records whole_proof m Hm). Qed.

Lemma new_compat {St} `{TrieStore St} (store : St) : compat memory_new store.
Proof. intros m m' Hm. cbn in Hm. unfold memory_get, memory_new in Hm. cbn in Hm. by rewrite lookup_empty in Hm. Qed.


Lemma whole_whole : apart example_V whole_proof ∧ whole example_trie 4 0 whole_proof.
Proof.
  split; [exact (proj2 (proj2 example_apart))|]. apply (whole_run example_trie 4 0 whole_proof 3 (node_size (mem example_trie))).
  vm_compute. reflexivity.
Qed.

Lemma download_covers_witness :
  ∃ d, dl_run 4 [NextRequest; Accept 0 whole_proof] (on_grid (hash_of example_trie) 300 two_workers 100 memory_new) = Some d ∧
    covers example_trie d ∧
    (is_complete d = true → Stored (dl_store d) example_trie ∧ Own (dl_store d) example_trie ∧
      ∀ threads, (∃ r, verify_stored 6 d threads r) ∧ ∀ r, verify_stored 6 d threads r → r = Ok (u64 (Z.of_nat (tsize example_trie)))).
Proof.
  apply (download_covers example_store memory_new example_trie example_V).
  - exact example_readable.
  - exact example_own.
  - exact example_distinct.
  - exact example_held.
  - vm_compute. lia.
  - vm_compute. lia.
  - lia.
  - lia.
  - repeat (apply Forall_cons_2; [exact I || exact whole_whole|]). apply Forall_nil_2.
Defined.

Definition wide_config : SnapConfig := mkSnapConfig 100 U64_MAX 2.

Lemma download_finishes_witness :
  let peer rq := proof_of (prove_chunk 4 example_store (mem example_trie) (request_from rq) (request_budget rq)) in
  ∃ rounds d, dl_rounds 4 peer rounds (on_grid (hash_of example_trie) 300 wide_config 100 memory_new) = Some d ∧ is_complete d = true ∧
    Stored (dl_store d) example_trie ∧ Own (dl_store d) example_trie ∧
    ∀ threads, (∃ r, verify_stored 6 d threads r) ∧ ∀ r, verify_stored 6 d threads r → r = Ok (u64 (Z.of_nat (tsize example_trie))).
Proof.
  apply (download_finishes example_store memory_new example_trie example_V).
  - exact example_readable.
  - exact example_own.
  - exact example_distinct.
  - exact example_held.
  - vm_compute. lia.
  - vm_compute. lia.
  - lia.
  - lia.
  - apply (server_serves example_store).
    + exact example_readable.
    + exact example_own.
    + exact example_distinct.
    + exact example_held.
    + vm_compute. lia.
    + reflexivity.
    + intros from _. etransitivity; [apply answer_size_fits|]. vm_compute. discriminate.
Defined.

Lemma rebuilt_size_stays_witness :
  ∃ d, dl_run 4 [NextRequest; Accept 0 (mkChunkProof [] [])]
         (accept_rebuilt (on_grid (hash_of example_trie) 300 two_workers 100 memory_new) 0 (mkRebuiltChunk [] [])).2 = Some d ∧
    total d = Some 300.
Proof.
  eexists. split; [vm_compute; reflexivity|].
  eapply (rebuilt_size_stays (on_grid (hash_of example_trie) 300 two_workers 100 memory_new) _ 0 (mkRebuiltChunk [] []) 4 [NextRequest; Accept 0 (mkChunkProof [] [])]).
  - reflexivity.
  - vm_compute. reflexivity.
Defined.
End example.

End SnapDownload.
